(* ===== verification/_CoqProject ===== *)
-Q . S2P
Prelude.v
Bytes.v
Base64.v
Sha256.v
Usig.v
SgxUsig.v
Messages.v
Authen.v
Stringify.v
ViewState.v
Timer.v
ClientState.v
RequestList.v
MessageLog.v
Quorum.v
Commit.v
Api.v
Config.v
SampleAuthen.v
KeyStore.v
Validation.v
NewViewCert.v
ViewSafety.v
Collect.v
Replica.v
Handling.v
Preservation.v
Core.v
OwnLog.v
LogOrder.v
InView.v
Sequencing.v
Crash.v
WellFormed.v
NoPanic.v
Node.v
System.v
Lagging.v
OwnPanic.v
Protobuf.v
Client.v
ClientNode.v
Replies.v
Ledger.v
Connector.v
Server.v
Logger.v
Commands.v
