(* ===== verification/Prelude.v ===== *)
(** * MinBFT: a verification development

    MinBFT ([src/]) is a Byzantine fault tolerant replication library in Go: [n]
    replicas, of which [f < n/2] may be faulty, execute the requests of clients in
    the same order.  A replica's messages carry a unique identifier (UI): a
    counter certified by a trusted module, the USIG, so that a replica cannot
    send two different messages under the same counter.

    ** The program and the files that model it

    Data and encodings
    - [Prelude]: machine integers, errors and panics ([outcome]), the state monad
      [M] of stateful code with its triples and relations ([mrel]), tactics and
      generic lemmas.
    - [Bytes], [Base64], [Sha256]: [encoding/binary], [encoding/base64] and
      [crypto/sha256], executable.
    - [Usig]: [usig/usig.go] (UI and its binary form) and the certificate format of
      [usig/sgx/sgx-usig.go].
    - [SgxUsig]: the USIG on Intel SGX: the enclave [usig/sgx/enclave/usig.c], its
      Go wrapper [usig/sgx/usig-enclave.go] and [usig/sgx/sgx-usig.go].  The SGX
      library, ECDSA, ASN.1 and X.509 key encoding are parameters.
    - [Messages]: the message types of [messages/api.go] with the constructors and
      accessors of [messages/protobuf/*.go].  The certified messages are one
      inductive type because they are nested: a Commit has a proposal, a ViewChange
      a log of messages, a NewView a list of ViewChanges.
    - [Authen]: [messages/authen.go], the bytes that signatures and UIs cover.
    - [Stringify]: [messages/utils.go], messages as text, with the formatting and quoting
      of Go's library.
    - [Protobuf]: [messages/protobuf], conversion to and from Protobuf messages.
      It has the structs that implement the messages, in which the Request of a Prepare
      may be missing; the other files take messages as what their methods return.
      The wire format ([proto.Marshal], [proto.Unmarshal]) is a parameter.

    Components of the replica ([core/internal])
    - [ViewState]: current and expected view with their lock;
    - [Timer]: timer provider, client timers, back-off timer;
    - [ClientState]: request identifiers, last Reply, timers of each client;
    - [RequestList]: pending and prepared requests;
    - [MessageLog]: message log and its streams.

    The replica ([core])
    - [Quorum]: the check of [New], certificate sizes, [isPrimary];
    - [Commit]: accepting and counting commitments ([commit.go]);
    - [Api]: the interfaces of [api/api.go] as classes: the authenticator, the
      request consumer, the configuration; [SequentialUSIG] is the documented
      promise of a USIG, that its counter is one more for each UI it generates;
    - [Validation]: all validators of received messages;
    - [NewViewCert]: [extractPreparedRequests] ([new-view.go]); [ViewSafety]: what it
      keeps of the previous view;
    - [Collect]: the collectors of ReqViewChange and ViewChange messages;
    - [Replica]: the record of everything the handlers share and every handler,
      one definition per closure of [defaultMessageHandlers]
      ([message-handling.go], [request.go], [prepare.go], [commit.go],
      [req-view-change.go], [view-change.go], [new-view.go], [timeout.go],
      [utils.go], [usig-ui.go], [replica.go]);
    - [Handling]: the step relation of the replica and reachability;
    - [Preservation]: classes for relations preserved by every step;
    - [Core], [OwnLog], [LogOrder], [InView], [Sequencing], [Crash], [WellFormed],
      [NoPanic]: theorems about the whole replica;
    - [Node]: the goroutines around the handlers ([message-handling.go], [replica.go]):
      stream handlers, peer connections, the Hello goroutine, the handling of own
      messages, termination;
    - [System]: replicas over a network, some of them Byzantine; [Lagging], [OwnPanic]:
      runs of it.

    The client and the sample modules
    - [Client]: [client/*.go] and [client/internal/requestbuffer], a request and its
      replies as one value; [ClientNode]: the same with every goroutine, the request
      objects they share, the constructor and termination; [Replies]: theorems about
      replicas and client together;
    - [Connector]: [sample/conn], the connectors, the stub of a replica and the
      goroutines that carry messages over RPC streams; gRPC is a parameter;
      [Server]: [sample/conn/grpc/server], the gRPC server of a replica;
    - [SampleAuthen]: [sample/authentication/authenticator.go] and [crypto.go], an
      instance of the interface of authenticators whose USIG counts;
    - [KeyStore]: [sample/authentication/keymanager.go] and the constructors of
      [authenticator.go]; YAML, X.509 and the SGX library are parameters;
    - [Config]: [sample/config/viperconfiger.go] over a parameter for [viper];
    - [Ledger]: [sample/requestconsumer/simpleledger.go], an instance of the
      interface of request consumers;
    - [Logger]: [common/logger/logger.go], options and set-up of loggers;
    - [Commands]: [sample/peer/cmd] and [keytool/cmd], the commands that put the modules
      together.

    ** How state and concurrency are modelled

    A closure that keeps variables is a function of a record with these variables;
    mutable code is in the monad [M].  A panic is an outcome of its own.

    A replica handles messages in several goroutines.  A call of [processMessage]
    (and the handling of one timer) is one step of [Handling.step]: in the code the
    read lock of the view excludes view changes, the lock per sender in
    [makePeerMessageProcessor] excludes a second message of the sender, the capture
    of a request identifier excludes a second handler of the client's requests, and
    the collectors and logs have locks of their own.  Everything between such
    calls (validation, the recursion over embedded messages) does not change the
    state, and [handling_is_steps] shows that handling a message is a sequence of
    steps; other handlers may come in between.  [Node] has the goroutines themselves:
    each works through the list of jobs a message stands for, other goroutines run
    between any two jobs, and [node_runs_replica] shows that the replica's states are
    those [Handling.step] reaches.  What is proved of every reachable
    state therefore holds for all interleavings at that grain.  Calls for different
    senders in the same view can overlap inside the code, each taking the locks of
    the shared components in turn; that such an overlap amounts to some order of
    whole calls is the modelling assumption, not a theorem.  Where the grain
    itself is the point, the interleaving is modelled in the component: the lock of
    [ViewState], the goroutines that capture identifiers in [ClientState], the
    stream goroutine in [MessageLog], the goroutines of [ClientNode].  The request
    consumer answers on a channel: the wait is a separate step ([finishExecution]).

    The record [replica] has one field without a counterpart in the code,
    [executed], the requests handed to the consumer so far; no handler reads it.

    The iteration order of Go maps is the class [RangeOrder]: any permutation.

    ** Fuel

    Two recursions are not structural: message handling over embedded messages and
    [extractPreparedRequests] over nested certificates.  Both take fuel, and the
    code-level definitions ([handlePeerMessage], [handleOwnMessage],
    [extractPreparedRequests]) supply the nesting depth of their argument;
    [handle_fuel] and [extract_terminates] show that this is enough and that more gives
    the same result; the latter also that the recursion, given as inference rules, always
    ends and that running out of fuel is none of its results.

    ** What is shown

    - Safety of a replica: requests are executed at most once, in order, and
      recorded by the consumer ([Core.executed_once_in_order], through the
      refinement [replica_refines_core] to an abstract machine); execution needs a
      commit certificate ([Commit.executed_has_quorum]); the optimised counter of
      commitments equals a plain count ([counter_matches_reference]); certificates
      intersect ([certificates_intersect]); nothing is undone ([replica_monotone]);
      the state is well-formed ([replica_well_formed]).
    - Agreement: as long as no view change happens, two correct replicas execute the
      same sequence, one possibly further than the other ([InView.view0_agreement]),
      and everything committed is executed ([view0_executes_committed]).  A view
      change keeps what may have been executed if the logs in its certificate commit
      to the primary's proposals one by one and account for the commitments of their
      replicas in that view ([ViewSafety.new_view_keeps_committed]);
      correct replicas have sequential logs ([LogOrder.own_log_sequential]).  The validators
      do not demand it of others, and agreement fails: [System.agreement_violated] and
      [agreement_violated_sequential] are runs of three replicas, one faulty, in which
      the correct ones execute different requests.
    - The replica and its peers: what a replica generates its peers accept
      ([OwnLog.generated_messages_valid], [own_log_complete]); the validators of
      ViewChange and NewView accept exactly the complete ones; the collectors hand
      out valid certificates and do so when enough messages came; messages take
      effect in counter order ([ui_sequencing]) and in their view ([view_guard]);
      the requests carried to a new view come from its certificate
      ([extract_sound]).
    - Crashes: requests are always processed and timeouts never panic; nothing a
      replica does with messages that passed validation, came after the messages
      embedded in them and do not open a view beyond the expected one panics
      ([NoPanic.validated_never_panics]), nor does the handler of peers' messages while the
      replica is at most one view behind and the messages are of the kinds the validators
      have a case for ([peer_message_never_panics]); a replica that is further behind misses
      a NewView and can panic on the valid messages that follow, even if no replica is
      faulty ([Lagging.lagging_replica_panics]).
      A new primary can panic on a message of its own ([OwnPanic.own_message_panics]).
      Which peer messages make validation ([validate_panic_exact]) and unmarshaling
      ([unmarshal_panic]) panic, and reading what was unmarshaled
      ([Protobuf.protobuf_roundtrip], [prepare_without_request]).
    - Streams: a client is sent the Replies to its Requests in order
      ([Node.client_stream_in_order]), a peer the logs ([hello_stream_carries_logs]);
      a stopped connection can end by itself ([stop_ends_connection]).
    - Components: locks, capture, streams, timers, lists, replies; round trips and
      injectivity of the encodings.
    - Replies: what a replica sends a client is the consumer's answer to the client's
      request at the place it was executed, and no execution is forgotten
      ([Replies.replies_report_execution]); before the first view change all replicas
      give the same answer ([view0_replies_agree]).
    - The client: results are backed by [f+1] replicas, whatever the interleaving
      ([ClientNode.node_results_backed]) and so, when at most [f] are faulty, by the
      execution of a correct one ([client_result_executed]); no notification between
      its goroutines is lost ([no_lost_wakeups]); after [Terminate] everything can end
      ([terminate_ends_goroutines]); when it can be created ([client_new_exact]);
      requests are not rejected when made one by one, while concurrent calls can panic
      ([client_concurrent_panic]).
    - Transport: an RPC stream keeps messages in order ([rpc_stream_fifo]), a stub
      behaves as its replica ([stub_transparent]), replicas are connected to their own
      addresses ([connect_many_exact]); what [Stop] of a server stops
      ([Server.stop_exact]).
    - The commands: after [keytool generate], [run] of each replica gets to serving with
      connections to exactly the other replicas ([Commands.testnet_replica_starts]) and
      [request] of each client to submitting ([testnet_client_starts]); requests go out
      one by one ([requests_one_by_one]), one for each line of the input unless a line is
      too long ([stdin_lines]).
    - Text: what the text of a message shows ([Stringify.stringify_exact]), and that it is
      bounded for Requests and Replies ([stringify_bounded]).
    - The trusted part and the authenticator: the UIs of an enclave are numbered
      1, 2, 3, ... and verify ([usig_unique_sequential]); UIs of one key are
      accepted from one USIG instance only ([usig_epoch_pinned]); generated tags are
      accepted unless another epoch was captured ([generated_tag_accepted]); which tags make verification panic, and
      that a signature covers 32 bytes only.  [SampleAuthen.sampleUSIG] discharges
      [SequentialUSIG], which the theorems on the replica assume.
    - Keys and configuration: what a key store has after loading a file
      ([keystore_loaded]), that the keys of a generated test network fit together
      ([testnet_keys_match]), when the constructors and accessors panic
      ([new_with_sgx_usig_panics], [load_config_exact], [config_values_exact]).
    - The ledger is a hash chain; its state digest is not the documented hash.

    ** What is not modelled

    gRPC itself, the libraries under the commands (cobra, viper: command lines,
    environment and the commands' own configuration files), the writing of logs, the
    loading of the enclave's shared library and the C shim, generated code and mocks, the
    type declarations of handlers, which are function types of the definitions.  Of the
    timers: [NewTimer], [Expired] and [Reset], which nothing calls, and a callback that
    starts although the timer is stopped after it expired.  A Prepare without a Request, which
    unmarshaling accepts, is modelled in [Protobuf] only: the handlers get messages that
    can be read.

    Not shown: that handling the replica's own messages returns no error when the logs in
    NewView certificates are sequential ([OwnPanic] is a run in which they are not), the
    validity of the new primary's NewView without the assumption of one ViewChange per
    replica and view, agreement across views for runs in which every log is sequential and
    of its view. *)

From Stdlib Require Export NArith Lia ZifyN ZifyBool ZifyNat Sorting.Sorted.
From stdpp Require Export strings numbers countable base tactics gmap fin_maps list.
From Stdlib Require Import Strings.Byte.

#[export] Set Default Goal Selector "!".

Declare Scope minbft_scope.
Delimit Scope minbft_scope with minbft.
#[global] Open Scope N_scope.

Ltac Zify.zify_post_hook ::= Z.to_euclidean_division_equations.

(** ** Machine integers

    [uint32] and [uint64] values are [N]; every operation of the code that can
    leave the range is written with the wrap-around of its width. *)

Definition u32 (n : N) : N := n mod 2 ^ 32.
Definition u64 (n : N) : N := n mod 2 ^ 64.

(** [x + 1] and [x - 1] on [uint64]. *)
Definition u64_succ (n : N) : N := u64 (n + 1).
Definition u64_pred (n : N) : N := u64 (n + (2 ^ 64 - 1)).

(** [x + y], [x - y] and [x * y] on [uint32]. *)
Definition u32_add (x y : N) : N := u32 (x + y).
Definition u32_sub (x y : N) : N := u32 (x + (2 ^ 32 - u32 y)).
Definition u32_mul (x y : N) : N := u32 (x * y).

(** [x * 2] on the signed 64-bit [time.Duration]. *)
Definition i64 (z : Z) : Z := ((z + 2 ^ 63) mod 2 ^ 64 - 2 ^ 63)%Z.

Abbreviation in_u32 n := (n < 2 ^ 32).
Abbreviation in_u64 n := (n < 2 ^ 64).

Lemma u64_small n : in_u64 n → u64 n = n.
Proof. unfold u64. lia. Qed.

Lemma u64_bound n : in_u64 (u64 n).
Proof. unfold u64. lia. Qed.

Lemma u64_succ_small n : n + 1 < 2 ^ 64 → u64_succ n = n + 1.
Proof. unfold u64_succ, u64. lia. Qed.

Lemma u64_pred_small n : 0 < n → in_u64 n → u64_pred n = n - 1.
Proof. unfold u64_pred, u64. lia. Qed.

Lemma u64_pred_zero : u64_pred 0 = 2 ^ 64 - 1.
Proof. reflexivity. Qed.

Lemma u32_sub_small x y : in_u32 x → y ≤ x → u32_sub x y = x - y.
Proof. unfold u32_sub, u32. lia. Qed.

Lemma i64_small z : (- 2 ^ 63 ≤ z < 2 ^ 63)%Z → i64 z = z.
Proof. unfold i64. lia. Qed.

(** ** Bytes *)

Abbreviation byte := Byte.byte.
Abbreviation bytes := (list byte).

#[global] Instance byte_eq_dec : EqDecision byte := Byte.byte_eq_dec.

#[global] Instance byte_countable : Countable byte :=
  inj_countable Byte.to_N Byte.of_N Byte.of_to_N.

(** ** Errors and panics

    A Go call ends in one of three ways: it returns, it returns a non-nil
    [error] (kept with the text given to [fmt.Errorf] and the wrapped cause),
    or it panics, which stops the whole process. *)

Inductive error :=
| Errorf (msg : string)
| ErrorWrap (msg : string) (cause : error).

Inductive outcome (A : Type) :=
| OK (a : A)
| Error (e : error)
| Panic (msg : string).
Arguments OK {A} a.
Arguments Error {A} e.
Arguments Panic {A} msg.

#[global] Instance outcome_ret : MRet outcome := λ A a, OK a.
#[global] Instance outcome_bind : MBind outcome := λ A B k m,
  match m with OK a => k a | Error e => Error e | Panic s => Panic s end.

(** [return fmt.Errorf("...: %s", err)] around a failing call. *)
Definition wrapf {A} (msg : string) (o : outcome A) : outcome A :=
  match o with Error e => Error (ErrorWrap msg e) | _ => o end.

Definition isOK {A} (o : outcome A) : bool :=
  match o with OK _ => true | _ => false end.
Definition isPanic {A} (o : outcome A) : bool :=
  match o with Panic _ => true | _ => false end.

Lemma wrapf_OK {A} msg (o : outcome A) a : wrapf msg o = OK a ↔ o = OK a.
Proof. destruct o; simpl; naive_solver. Qed.

Lemma wrapf_isOK {A} msg (o : outcome A) : isOK (wrapf msg o) = isOK o.
Proof. by destruct o. Qed.

Lemma wrapf_isPanic {A} msg (o : outcome A) : isPanic (wrapf msg o) = isPanic o.
Proof. by destruct o. Qed.

Lemma outcome_bind_OK {A B} (m : outcome A) (k : A → outcome B) b :
  (m ≫= k) = OK b ↔ ∃ a, m = OK a ∧ k a = OK b.
Proof. destruct m; simpl; naive_solver. Qed.

Lemma isPanic_bind {A B} (m : outcome A) (k : A → outcome B) :
  isPanic m = false → (∀ a, isPanic (k a) = false) → isPanic (m ≫= k) = false.
Proof. destruct m; simpl; auto. Qed.

(** ** Stateful code

    Code that mutates the state of a component is a function from the state
    to the outcome and the new state; a panic keeps the state it happened in. *)

Definition M (S A : Type) : Type := S → outcome A * S.

#[global] Instance M_ret S : MRet (M S) := λ A a s, (OK a, s).
#[global] Instance M_bind S : MBind (M S) := λ A B k m s,
  match m s with
  | (OK a, s') => k a s'
  | (Error e, s') => (Error e, s')
  | (Panic p, s') => (Panic p, s')
  end.

Section StateMonad.
Context {S : Type}.

Definition get : M S S := λ s, (OK s, s).
Definition gets {A} (f : S → A) : M S A := λ s, (OK (f s), s).
Definition modify (f : S → S) : M S unit := λ s, (OK tt, f s).
Definition lift {A} (o : outcome A) : M S A := λ s, (o, s).
Definition fail {A} (e : error) : M S A := λ s, (Error e, s).
Definition panic {A} (msg : string) : M S A := λ s, (Panic msg, s).
Definition wrapM {A} (msg : string) (m : M S A) : M S A :=
  λ s, let '(o, s') := m s in (wrapf msg o, s').

(** A method of a component, run on the component's part of the state. *)
Definition zoom {T A} (proj : S → T) (put : T → S → S) (op : T → A * T) : M S A :=
  λ s, let '(a, t) := op (proj s) in (OK a, put t s).

(** [for _, x := range l { f(x) }], leaving at the first error. *)
Definition forM {A} (f : A → M S unit) : list A → M S unit :=
  fix go (l : list A) : M S unit :=
    match l with [] => mret tt | x :: l => f x ;; go l end.

(** *** Triples

    [triple P m Q]: from a state satisfying [P] the code does not panic; it
    ends in a state satisfying [Q (Some a)] when it returns [a], [Q None] when
    it returns an error. *)
Definition triple {A} (P : S → Prop) (m : M S A) (Q : option A → S → Prop) : Prop :=
  ∀ s, P s →
    match m s with
    | (OK a, s') => Q (Some a) s'
    | (Error _, s') => Q None s'
    | (Panic _, _) => False
    end.

Lemma triple_consequence {A} (P P' : S → Prop) (m : M S A) Q Q' :
  triple P' m Q' → (∀ s, P s → P' s) → (∀ o s, Q' o s → Q o s) → triple P m Q.
Proof.
  intros Hm HP HQ s Hs. specialize (Hm s (HP s Hs)).
  destruct (m s) as [[a|e|p] s']; eauto.
Qed.

Lemma triple_ret {A} (a : A) (P : S → Prop) Q :
  (∀ s, P s → Q (Some a) s) → triple P (mret a) Q.
Proof. intros HQ s Hs. simpl. auto. Qed.

Lemma triple_fail {A} e (P : S → Prop) (Q : option A → S → Prop) :
  (∀ s, P s → Q None s) → triple P (fail e) Q.
Proof. intros HQ s Hs. simpl. auto. Qed.

Lemma triple_bind {A B} (P : S → Prop) (m : M S A) (k : A → M S B) R Q :
  triple P m R →
  (∀ a, triple (R (Some a)) (k a) Q) →
  (∀ s, R None s → Q None s) →
  triple P (m ≫= k) Q.
Proof.
  intros Hm Hk HN s Hs. specialize (Hm s Hs). unfold mbind, M_bind.
  destruct (m s) as [[a|e|p] s']; [|auto|done].
  specialize (Hk a s' Hm). destruct (k a s') as [[b|e|p] s'']; auto.
Qed.

Lemma triple_gets {A} (f : S → A) (P : S → Prop) Q :
  (∀ s, P s → Q (Some (f s)) s) → triple P (gets f) Q.
Proof. intros HQ s Hs. simpl. auto. Qed.

Lemma triple_modify (f : S → S) (P : S → Prop) Q :
  (∀ s, P s → Q (Some tt) (f s)) → triple P (modify f) Q.
Proof. intros HQ s Hs. simpl. auto. Qed.

Lemma triple_zoom {T A} (proj : S → T) put (op : T → A * T) (P : S → Prop) Q :
  (∀ s a t, P s → op (proj s) = (a, t) → Q (Some a) (put t s)) →
  triple P (zoom proj put op) Q.
Proof.
  intros HQ s Hs. unfold zoom. destruct (op (proj s)) as [a t] eqn:E. eauto.
Qed.

Lemma triple_lift {A} (o : outcome A) (P : S → Prop) Q :
  (∀ s, P s → match o with
              | OK a => Q (Some a) s | Error _ => Q None s | Panic _ => False end) →
  triple P (lift o) Q.
Proof. intros HQ s Hs. unfold lift. specialize (HQ s Hs). by destruct o. Qed.

Lemma triple_wrapM {A} msg (P : S → Prop) (m : M S A) Q :
  triple P m Q → triple P (wrapM msg m) Q.
Proof.
  intros Hm s Hs. specialize (Hm s Hs). unfold wrapM.
  by destruct (m s) as [[a|e|p] s'].
Qed.

Lemma triple_forM {A} (f : A → M S unit) (l : list A) (I : S → Prop) :
  (∀ x, x ∈ l → triple I (f x) (λ _, I)) → triple I (forM f l) (λ _, I).
Proof.
  induction l as [|x l IH]; intros Hf; simpl.
  { by apply triple_ret. }
  eapply triple_bind; [apply Hf; set_solver| |done].
  intros []. apply IH. intros y Hy. apply Hf. set_solver.
Qed.

(** *** Two-state relations

    [rel R m]: whatever way [m] ends (error and panic included), the states
    before and after are related by [R]. *)
Definition rel {A} (R : S → S → Prop) (m : M S A) : Prop := ∀ s, R s (m s).2.

Section Rel.
Context (R : S → S → Prop) `{!PreOrder R}.

Lemma rel_ret {A} (a : A) : rel R (mret a).
Proof. intros s. simpl. reflexivity. Qed.
Lemma rel_fail {A} e : rel R (fail (A:=A) e).
Proof. intros s. simpl. reflexivity. Qed.
Lemma rel_panic {A} p : rel R (panic (A:=A) p).
Proof. intros s. simpl. reflexivity. Qed.
Lemma rel_gets {A} (f : S → A) : rel R (gets f).
Proof. intros s. simpl. reflexivity. Qed.
Lemma rel_lift {A} (o : outcome A) : rel R (lift o).
Proof. intros s. simpl. reflexivity. Qed.
Lemma rel_modify f : (∀ s, R s (f s)) → rel R (modify f).
Proof. intros Hf s. apply Hf. Qed.
Lemma rel_wrapM {A} msg (m : M S A) : rel R m → rel R (wrapM msg m).
Proof. intros Hm s. specialize (Hm s). unfold wrapM. by destruct (m s). Qed.
Lemma rel_bind {A B} (m : M S A) (k : A → M S B) :
  rel R m → (∀ a, rel R (k a)) → rel R (m ≫= k).
Proof.
  intros Hm Hk s. specialize (Hm s). unfold mbind, M_bind.
  destruct (m s) as [[a|e|p] s']; simpl in *; [|done|done].
  etrans; [exact Hm|apply Hk].
Qed.
Lemma rel_forM {A} (f : A → M S unit) l : (∀ x, rel R (f x)) → rel R (forM f l).
Proof.
  intros Hf. induction l as [|x l IH]; simpl; [apply rel_ret|].
  apply rel_bind; [done|]. by intros [].
Qed.
Lemma rel_zoom {T A} (proj : S → T) put (op : T → A * T) :
  (∀ s a t, op (proj s) = (a, t) → R s (put t s)) → rel R (zoom proj put op).
Proof.
  intros HR s. unfold zoom. destruct (op (proj s)) as [a t] eqn:E. simpl. eauto.
Qed.
End Rel.

(** *** Triples for programs that may panic

    [partial P m Q]: started in a state with [P], [m] panics or ends with [Q]. *)
Definition partial {A} (P : S → Prop) (m : M S A) (Q : option A → S → Prop) : Prop :=
  ∀ s, P s →
    match m s with
    | (OK a, s') => Q (Some a) s'
    | (Error _, s') => Q None s'
    | (Panic _, _) => True
    end.

Lemma partial_ret {A} (a : A) (P : S → Prop) Q :
  (∀ s, P s → Q (Some a) s) → partial P (mret a) Q.
Proof. intros HQ s Hs. simpl. auto. Qed.

Lemma partial_bind {A B} (P : S → Prop) (m : M S A) (k : A → M S B) R Q :
  partial P m R → (∀ a, partial (R (Some a)) (k a) Q) → (∀ s, R None s → Q None s) →
  partial P (m ≫= k) Q.
Proof.
  intros Hm Hk HN s Hs. specialize (Hm s Hs). unfold mbind, M_bind.
  destruct (m s) as [[a|e|p] s']; [|auto|done].
  specialize (Hk a s' Hm). destruct (k a s') as [[b|e|p] s'']; auto.
Qed.

(** A program whose states are related keeps what the relation keeps. *)
Lemma partial_rel {A} (R : S → S → Prop) (m : M S A) (P : S → Prop) Q :
  rel R m → (∀ o s s', P s → R s s' → Q o s') → partial P m Q.
Proof.
  intros Hm HQ s Hs. specialize (Hm s). destruct (m s) as [[a|e|p] s']; simpl in *; eauto.
Qed.

(** When the value does not matter, what holds before any continuation holds. *)
Lemma partial_seq {A B} (P : S → Prop) (m : M S A) (k : A → M S B) Q :
  partial P m (λ _, P) → (∀ a, partial P (k a) Q) → (∀ s, P s → Q None s) → partial P (m ≫= k) Q.
Proof. intros Hm Hk HN. by eapply partial_bind. Qed.

Lemma partial_gets {A B} (f : S → A) (k : A → M S B) (P : S → Prop) Q :
  (∀ a, partial (λ s, P s ∧ f s = a) (k a) Q) → partial P (gets f ≫= k) Q.
Proof. intros Hk s Hs. apply (Hk (f s) s). done. Qed.

Lemma partial_panic {A} p (P : S → Prop) (Q : option A → S → Prop) : partial P (panic p) Q.
Proof. by intros s Hs. Qed.

Lemma partial_fail {A} e (P : S → Prop) (Q : option A → S → Prop) :
  (∀ s, P s → Q None s) → partial P (fail e) Q.
Proof. intros HQ s Hs. by apply HQ. Qed.

Lemma partial_wrapM {A} msg (P : S → Prop) (m : M S A) Q :
  partial P m Q → partial P (wrapM msg m) Q.
Proof. intros Hm s Hs. specialize (Hm s Hs). unfold wrapM. by destruct (m s) as [[a|e|p] s']. Qed.

Lemma partial_forM {A} (f : A → M S unit) (l : list A) (I : S → Prop) :
  (∀ x, x ∈ l → partial I (f x) (λ _, I)) → partial I (forM f l) (λ _, I).
Proof.
  induction l as [|x l IH]; intros Hf; simpl; [by apply partial_ret|].
  apply partial_seq; [apply Hf; set_solver| |done]. intros []. apply IH. set_solver.
Qed.

Lemma partial_impl {A} (P P' : S → Prop) (m : M S A) Q Q' :
  partial P' m Q' → (∀ s, P s → P' s) → (∀ o s, Q' o s → Q o s) → partial P m Q.
Proof.
  intros Hm HP HQ s Hs. specialize (Hm s (HP s Hs)). destruct (m s) as [[a|e|p] s']; eauto.
Qed.
End StateMonad.

(** Hints that take a monadic definition apart down to its primitive steps. *)
Create HintDb mrel discriminated.
Create HintDb minbft.
#[export] Hint Resolve rel_ret rel_fail rel_panic rel_gets rel_lift : mrel.
#[export] Hint Extern 0 (PreOrder _) => (apply _) : mrel.
#[export] Hint Extern 1 (rel _ (wrapM _ _)) => (apply rel_wrapM) : mrel.
#[export] Hint Extern 2 (rel _ (_ ≫= _)) => (apply rel_bind; [apply _| |intros]) : mrel.
#[export] Hint Extern 2 (rel _ (forM _ _)) => (apply rel_forM; [apply _|intros]) : mrel.
#[export] Hint Extern 3 (rel _ (match ?x with _ => _ end)) => (destruct x) : mrel.

(** ** Generic lemmas on lists and maps *)

(** [m\[k\]] on a Go map whose values default to zero. *)
Definition lookupN (m : gmap N N) (k : N) : N := default 0 (m !! k).

Lemma lookupN_insert m k v : lookupN (<[k := v]> m) k = v.
Proof. unfold lookupN. by rewrite lookup_insert_eq. Qed.

Lemma lookupN_insert_ne m k k' v : k ≠ k' → lookupN (<[k := v]> m) k' = lookupN m k'.
Proof. intros. unfold lookupN. by rewrite lookup_insert_ne. Qed.

Lemma lookupN_empty k : lookupN ∅ k = 0.
Proof. unfold lookupN. by rewrite lookup_empty. Qed.

#[export] Hint Rewrite lookupN_insert lookupN_empty : minbft.
#[export] Hint Rewrite lookupN_insert_ne using done : minbft.

Lemma forallb_elem_of {A} (f : A → bool) l x : forallb f l → x ∈ l → f x.
Proof.
  intros Hf Hx. apply Is_true_true. apply Is_true_true in Hf.
  eapply forallb_forall; [exact Hf|]. by apply list_elem_of_In.
Qed.

(** Case analysis on the conditionals of a definition, keeping the equations. *)
Ltac case_if :=
  match goal with
  | |- context [if ?b then _ else _] => let E := fresh "E" in destruct b eqn:E
  | H : context [if ?b then _ else _] |- _ => let E := fresh "E" in destruct b eqn:E
  end.

(** Turns the boolean comparisons of the code into propositions for [lia]. *)
Ltac nbool :=
  repeat match goal with
  | H : (_ =? _) = true |- _ => apply N.eqb_eq in H
  | H : (_ =? _) = false |- _ => apply N.eqb_neq in H
  | H : (_ <=? _) = true |- _ => apply N.leb_le in H
  | H : (_ <=? _) = false |- _ => apply N.leb_gt in H
  | H : (_ <? _) = true |- _ => apply N.ltb_lt in H
  | H : (_ <? _) = false |- _ => apply N.ltb_ge in H
  | H : negb _ = true |- _ => apply negb_true_iff in H
  | H : negb _ = false |- _ => apply negb_false_iff in H
  | H : _ && _ = true |- _ => apply andb_true_iff in H; destruct H
  | H : _ || _ = false |- _ => apply orb_false_iff in H; destruct H
  end.

(** Closes a goal with a lookup in the empty map among the hypotheses. *)
Ltac empty_lookup :=
  simpl in *;
  match goal with H : ∅ !! _ = Some _ |- _ => rewrite lookup_empty in H; discriminate end.
