(* ===== verification/Bytes.v ===== *)
(** Byte-level encodings of the Go standard library that the code relies on:
    [binary.Write] and [binary.Read] of fixed-width unsigned integers
    (package [encoding/binary]) and SHA-256 (package [crypto/sha256]). *)

From S2P Require Import Prelude.
From Stdlib Require Import Strings.Byte.

(** ** Fixed-width integers *)

(** [byte(n)] *)
Definition byte_of_N (n : N) : byte := default x00 (Byte.of_N (n mod 256)).

Lemma to_N_byte_of_N n : Byte.to_N (byte_of_N n) = n mod 256.
Proof.
  unfold byte_of_N. destruct (Byte.of_N (n mod 256)) as [b|] eqn:E; simpl.
  - by apply Byte.to_of_N_iff in E.
  - apply Byte.of_N_None_iff in E. lia.
Qed.

Lemma to_N_lt b : Byte.to_N b < 256.
Proof. pose proof (Byte.to_N_bounded b). lia. Qed.

Lemma byte_of_N_to_N b : byte_of_N (Byte.to_N b) = b.
Proof.
  unfold byte_of_N. rewrite N.mod_small by apply to_N_lt.
  by rewrite Byte.of_to_N.
Qed.

Fixpoint le_bytes (k : nat) (n : N) : bytes :=
  match k with
  | O => []
  | S k => byte_of_N n :: le_bytes k (n / 256)
  end.

Fixpoint le_val (l : bytes) : N :=
  match l with
  | [] => 0
  | b :: l => Byte.to_N b + 256 * le_val l
  end.

(** [binary.Write(buf, binary.BigEndian, n)] for an integer of [k] bytes *)
Definition be_bytes (k : nat) (n : N) : bytes := reverse (le_bytes k n).
Definition be_val (l : bytes) : N := le_val (reverse l).

Lemma le_bytes_length k n : length (le_bytes k n) = k.
Proof. revert n; induction k as [|k IH]; intros n; simpl; [done|by rewrite IH]. Qed.

Lemma le_val_le_bytes k n : n < 256 ^ N.of_nat k → le_val (le_bytes k n) = n.
Proof.
  revert n; induction k as [|k IH]; intros n Hn.
  { simpl in *. lia. }
  rewrite Nat2N.inj_succ, N.pow_succ_r' in Hn. simpl.
  rewrite to_N_byte_of_N, IH; [|apply N.Div0.div_lt_upper_bound; lia].
  rewrite (N.div_mod' n 256) at 3. lia.
Qed.

Lemma le_bytes_le_val l : le_bytes (length l) (le_val l) = l.
Proof.
  induction l as [|b l IH]; simpl; [done|].
  pose proof (to_N_lt b).
  replace ((Byte.to_N b + 256 * le_val l) / 256) with (le_val l) by lia.
  rewrite IH. f_equal.
  rewrite <- (byte_of_N_to_N b) at 2. unfold byte_of_N. do 2 f_equal. lia.
Qed.

Lemma le_val_bound l : le_val l < 256 ^ N.of_nat (length l).
Proof.
  induction l as [|b l IH]; simpl length; [simpl; lia|].
  rewrite Nat2N.inj_succ, N.pow_succ_r'. simpl. pose proof (to_N_lt b). lia.
Qed.

Lemma be_bytes_length k n : length (be_bytes k n) = k.
Proof. unfold be_bytes. by rewrite length_reverse, le_bytes_length. Qed.

Lemma be_val_be_bytes k n : n < 256 ^ N.of_nat k → be_val (be_bytes k n) = n.
Proof. intros. unfold be_val, be_bytes. rewrite reverse_involutive. by apply le_val_le_bytes. Qed.

Lemma be_bytes_be_val l : be_bytes (length l) (be_val l) = l.
Proof.
  unfold be_val, be_bytes. rewrite <- (length_reverse l), le_bytes_le_val.
  apply reverse_involutive.
Qed.

Lemma be_val_bound l : be_val l < 256 ^ N.of_nat (length l).
Proof. unfold be_val. rewrite <- (length_reverse l). apply le_val_bound. Qed.

Lemma be_bytes_inj k a b :
  a < 256 ^ N.of_nat k → b < 256 ^ N.of_nat k → be_bytes k a = be_bytes k b → a = b.
Proof. intros Ha Hb E. apply (f_equal be_val) in E. by rewrite !be_val_be_bytes in E. Qed.

(** [binary.Write] of a [uint32] and of a [uint64] *)
Definition put32 (n : N) : bytes := be_bytes 4 n.
Definition put64 (n : N) : bytes := be_bytes 8 n.

Lemma put32_length n : length (put32 n) = 4%nat.
Proof. apply be_bytes_length. Qed.
Lemma put64_length n : length (put64 n) = 8%nat.
Proof. apply be_bytes_length. Qed.
Lemma put32_inj a b : in_u32 a → in_u32 b → put32 a = put32 b → a = b.
Proof. exact (be_bytes_inj 4 a b). Qed.
Lemma put64_inj a b : in_u64 a → in_u64 b → put64 a = put64 b → a = b.
Proof. exact (be_bytes_inj 8 a b). Qed.

(** [binary.Read(buf, binary.BigEndian, &n)] for a [uint64]: it consumes eight
    bytes of the buffer and fails when there are fewer. *)
Definition get64 (buf : bytes) : outcome (N * bytes) :=
  match buf with
  | [] => Error (Errorf "EOF")
  | _ => if (length buf <? 8)%nat then Error (Errorf "unexpected EOF")
         else OK (be_val (take 8 buf), drop 8 buf)
  end.

Lemma get64_put64 n rest : in_u64 n → get64 (put64 n ++ rest) = OK (n, rest).
Proof.
  intros Hn. pose proof (put64_length n) as Hl.
  assert (get64 (put64 n ++ rest) =
          OK (be_val (take 8 (put64 n ++ rest)), drop 8 (put64 n ++ rest))) as ->.
  { unfold get64. destruct (put64 n ++ rest) eqn:E.
    - apply app_nil in E as [E _]. by rewrite E in Hl.
    - rewrite <- E, length_app, Hl. done. }
  rewrite <- Hl, take_app_length, drop_app_length.
  unfold put64. by rewrite be_val_be_bytes.
Qed.

Lemma get64_no_panic buf : isPanic (get64 buf) = false.
Proof. unfold get64. by repeat case_match. Qed.

Lemma get64_OK buf n rest : get64 buf = OK (n, rest) → buf = put64 n ++ rest ∧ in_u64 n.
Proof.
  unfold get64. destruct buf as [|b l] eqn:E; [done|]. rewrite <- E; clear E b l.
  destruct (Nat.ltb_spec (length buf) 8) as [|H8]; [done|].
  intros [= <- <-].
  assert (length (take 8 buf) = 8%nat) as Hl by (rewrite length_take; lia).
  pose proof (be_val_bound (take 8 buf)) as Hb. rewrite Hl in Hb.
  unfold put64. rewrite <- Hl at 1. rewrite be_bytes_be_val, take_drop. by split.
Qed.

(** Two encodings of the same width in front of a buffer are read back uniquely. *)
Lemma put64_app_inj a b x y :
  in_u64 a → in_u64 b → put64 a ++ x = put64 b ++ y → a = b ∧ x = y.
Proof.
  intros Ha Hb E. apply app_inj_1 in E as [E ->]; [|by rewrite !put64_length].
  split; [by apply put64_inj|done].
Qed.
Lemma put32_app_inj a b x y :
  in_u32 a → in_u32 b → put32 a ++ x = put32 b ++ y → a = b ∧ x = y.
Proof.
  intros Ha Hb E. apply app_inj_1 in E as [E ->]; [|by rewrite !put32_length].
  split; [by apply put32_inj|done].
Qed.

#[global] Opaque put32 put64.
