(* ===== verification/Base64.v ===== *)
(** Base64 as [base64.StdEncoding] of the Go standard library has it, which the key
    files of [src/sample/authentication/keymanager.go] use: [EncodeToString] with
    padding, [DecodeString] which ignores carriage returns and newlines, demands the
    padding and ignores the unused bits of the last character. *)

From S2P Require Import Prelude Bytes.
From Stdlib Require Import Strings.Byte.

Module Base64.

Definition alphabet : bytes := String.list_byte_of_string
  "ABCDEFGHIJKLMNOPQRSTUVWXYZabcdefghijklmnopqrstuvwxyz0123456789+/".
Definition padChar : byte := x3d.

Definition encodeChar (v : N) : byte := default x00 (alphabet !! N.to_nat v).

Definition indexOf (c : byte) : list byte → N → option N :=
  fix go (l : list byte) (i : N) : option N :=
    match l with
    | [] => None
    | b :: l => if Byte.eqb b c then Some i else go l (i + 1)
    end.

Definition decodeChar (c : byte) : option N := indexOf c alphabet 0.

(** [base64.StdEncoding.EncodeToString] *)
Fixpoint EncodeToString (src : bytes) : bytes :=
  match src with
  | [] => []
  | [a] =>
      let v := Byte.to_N a * 2 ^ 16 in
      [encodeChar (v / 2 ^ 18); encodeChar (v / 2 ^ 12 mod 64); padChar; padChar]
  | [a; b] =>
      let v := Byte.to_N a * 2 ^ 16 + Byte.to_N b * 2 ^ 8 in
      [encodeChar (v / 2 ^ 18); encodeChar (v / 2 ^ 12 mod 64); encodeChar (v / 2 ^ 6 mod 64); padChar]
  | a :: b :: c :: src =>
      let v := Byte.to_N a * 2 ^ 16 + Byte.to_N b * 2 ^ 8 + Byte.to_N c in
      encodeChar (v / 2 ^ 18) :: encodeChar (v / 2 ^ 12 mod 64) ::
      encodeChar (v / 2 ^ 6 mod 64) :: encodeChar (v mod 64) :: EncodeToString src
  end.

Definition newline (c : byte) : bool := Byte.eqb c x0a || Byte.eqb c x0d.

(** Four characters at a time, newlines removed. *)
Fixpoint decodeQuanta (src : bytes) : outcome bytes :=
  match src with
  | [] => OK []
  | c0 :: c1 :: c2 :: c3 :: rest =>
      match decodeChar c0, decodeChar c1, decodeChar c2, decodeChar c3 with
      | Some v0, Some v1, Some v2, Some v3 =>
          let v := v0 * 2 ^ 18 + v1 * 2 ^ 12 + v2 * 2 ^ 6 + v3 in
          dst ← decodeQuanta rest;
          OK (byte_of_N (v / 2 ^ 16) :: byte_of_N (v / 2 ^ 8) :: byte_of_N v :: dst)
      | Some v0, Some v1, Some v2, None =>
          let v := v0 * 2 ^ 18 + v1 * 2 ^ 12 + v2 * 2 ^ 6 in
          match Byte.eqb c3 padChar, rest with
          | true, [] => OK [byte_of_N (v / 2 ^ 16); byte_of_N (v / 2 ^ 8)]
          | _, _ => Error (Errorf "illegal base64 data")
          end
      | Some v0, Some v1, None, None =>
          let v := v0 * 2 ^ 18 + v1 * 2 ^ 12 in
          match Byte.eqb c2 padChar && Byte.eqb c3 padChar, rest with
          | true, [] => OK [byte_of_N (v / 2 ^ 16)]
          | _, _ => Error (Errorf "illegal base64 data")
          end
      | _, _, _, _ => Error (Errorf "illegal base64 data")
      end
  | _ => Error (Errorf "illegal base64 data")
  end.

(** [base64.StdEncoding.DecodeString] *)
Definition DecodeString (s : bytes) : outcome bytes :=
  decodeQuanta (List.filter (λ c, negb (newline c)) s).

(** ** Decoding what was encoded *)

Lemma char_roundtrip v :
  v < 64 → decodeChar (encodeChar v) = Some v ∧ newline (encodeChar v) = false.
Proof.
  intros Hv.
  assert (forallb (λ i, bool_decide (decodeChar (encodeChar (N.of_nat i)) = Some (N.of_nat i) ∧
    newline (encodeChar (N.of_nat i)) = false)) (seq 0 64) = true) as Hall by (vm_compute; reflexivity).
  rewrite forallb_forall in Hall. specialize (Hall (N.to_nat v) ltac:(apply in_seq; lia)).
  rewrite N2Nat.id in Hall. by apply bool_decide_eq_true_1 in Hall.
Qed.

Lemma filter_encoded src : List.filter (λ c, negb (newline c)) (EncodeToString src) = EncodeToString src.
Proof.
  assert (∀ v l, v < 64 → List.filter (λ c, negb (newline c)) (encodeChar v :: l) =
                           encodeChar v :: List.filter (λ c, negb (newline c)) l) as Hc.
  { intros v l [_ Hn]%char_roundtrip. simpl. by rewrite Hn. }
  induction src as [src IH] using (induction_ltof1 _ length). unfold ltof in IH.
  destruct src as [|a [|b [|c src]]]; [done|..]; cbn [EncodeToString];
    pose proof (to_N_lt a); try pose proof (to_N_lt b); try pose proof (to_N_lt c);
    rewrite !Hc by (simpl; lia); [done..|]. do 4 f_equal. apply IH. simpl. lia.
Qed.

Lemma byte_is v a : v mod 256 = Byte.to_N a → byte_of_N v = a.
Proof. intros Hv. rewrite <- (byte_of_N_to_N a), <- Hv. unfold byte_of_N. by rewrite N.Div0.mod_mod. Qed.

(** Base64 loses nothing: [DecodeString] of what [EncodeToString] returned is the
    original byte string. *)
Lemma Decode_Encode src : DecodeString (EncodeToString src) = OK src.
Proof.
  unfold DecodeString. rewrite filter_encoded.
  induction src as [src IH] using (induction_ltof1 _ length). unfold ltof in IH.
  destruct src as [|a [|b [|c src]]]; [done|..]; cbn [EncodeToString decodeQuanta];
    pose proof (to_N_lt a); try pose proof (to_N_lt b); try pose proof (to_N_lt c).
  all: repeat match goal with |- context [decodeChar (encodeChar ?v)] =>
    destruct (char_roundtrip v) as [-> _]; [simpl; lia|] end.
  all: repeat match goal with
    | |- context [byte_of_N (?v / 2 ^ 16)] => rewrite (byte_is (v / 2 ^ 16) a) by (simpl; lia)
    | |- context [byte_of_N (?v / 2 ^ 8)] => rewrite (byte_is (v / 2 ^ 8) b) by (simpl; lia)
    | |- context [byte_of_N ?v] => rewrite (byte_is v c) by (simpl; lia)
    end.
  1, 2: reflexivity.
  rewrite IH by (simpl; lia). reflexivity.
Qed.
End Base64.
