(* ===== verification/Sha256.v ===== *)
(** SHA-256, as package [crypto/sha256] computes it: the code hashes operations,
    results, USIG certificates and ledger blocks with it.  The definition is
    executable; [Sha256.sum256_abc] checks it on the standard's test vector. *)

From S2P Require Import Prelude Bytes.
From Stdlib Require Import Strings.Byte.

Module Sha256.

(** [sha256.Size] *)
Definition Size : nat := 32.

Definition rotr (k x : N) : N :=
  N.lor (N.shiftr x k) (u32 (N.shiftl x (32 - k))).
Definition add32 (x y : N) : N := u32 (x + y).
Definition not32 (x : N) : N := N.lxor x (2 ^ 32 - 1).

Definition Ch (x y z : N) : N := N.lxor (N.land x y) (N.land (not32 x) z).
Definition Maj (x y z : N) : N :=
  N.lxor (N.lxor (N.land x y) (N.land x z)) (N.land y z).
Definition S0 (x : N) : N := N.lxor (N.lxor (rotr 2 x) (rotr 13 x)) (rotr 22 x).
Definition S1 (x : N) : N := N.lxor (N.lxor (rotr 6 x) (rotr 11 x)) (rotr 25 x).
Definition s0 (x : N) : N := N.lxor (N.lxor (rotr 7 x) (rotr 18 x)) (N.shiftr x 3).
Definition s1 (x : N) : N := N.lxor (N.lxor (rotr 17 x) (rotr 19 x)) (N.shiftr x 10).

Definition K : list N :=
  [1116352408; 1899447441; 3049323471; 3921009573; 961987163; 1508970993; 2453635748; 2870763221;
   3624381080; 310598401; 607225278; 1426881987; 1925078388; 2162078206; 2614888103; 3248222580;
   3835390401; 4022224774; 264347078; 604807628; 770255983; 1249150122; 1555081692; 1996064986;
   2554220882; 2821834349; 2952996808; 3210313671; 3336571891; 3584528711; 113926993; 338241895;
   666307205; 773529912; 1294757372; 1396182291; 1695183700; 1986661051; 2177026350; 2456956037;
   2730485921; 2820302411; 3259730800; 3345764771; 3516065817; 3600352804; 4094571909; 275423344;
   430227734; 506948616; 659060556; 883997877; 958139571; 1322822218; 1537002063; 1747873779;
   1955562222; 2024104815; 2227730452; 2361852424; 2428436474; 2756734187; 3204031479; 3329325298].

Record digest := Digest { h0 : N; h1 : N; h2 : N; h3 : N; h4 : N; h5 : N; h6 : N; h7 : N }.

Definition init : digest :=
  Digest 1779033703 3144134277 1013904242 2773480762
         1359893119 2600822924 528734635 1541459225.

(** The message schedule, most recent word first. *)
Fixpoint schedule (n : nat) (w : list N) : list N :=
  match n with
  | O => w
  | S n =>
      let at_ i := nth i w 0 in
      schedule n (add32 (add32 (s1 (at_ 1%nat)) (at_ 6%nat))
                        (add32 (s0 (at_ 14%nat)) (at_ 15%nat)) :: w)
  end.

Definition round (d : digest) (kw : N * N) : digest :=
  let '(k, w) := kw in
  let t1 := add32 (add32 (h7 d) (S1 (h4 d)))
                  (add32 (Ch (h4 d) (h5 d) (h6 d)) (add32 k w)) in
  let t2 := add32 (S0 (h0 d)) (Maj (h0 d) (h1 d) (h2 d)) in
  Digest (add32 t1 t2) (h0 d) (h1 d) (h2 d) (add32 (h3 d) t1) (h4 d) (h5 d) (h6 d).

Definition words (block : bytes) : list N :=
  map (λ i, be_val (take 4 (drop (4 * i)%nat block))) (seq 0 16).

Definition compress (d : digest) (block : bytes) : digest :=
  let w := rev (schedule 48 (rev (words block))) in
  let e := foldl round d (combine K w) in
  Digest (add32 (h0 d) (h0 e)) (add32 (h1 d) (h1 e)) (add32 (h2 d) (h2 e))
         (add32 (h3 d) (h3 e)) (add32 (h4 d) (h4 e)) (add32 (h5 d) (h5 e))
         (add32 (h6 d) (h6 e)) (add32 (h7 d) (h7 e)).

Definition pad (m : bytes) : bytes :=
  let n := length m in
  m ++ [x80] ++ replicate ((119 - n mod 64) mod 64)%nat x00
    ++ be_bytes 8 (8 * N.of_nat n).

Definition blocks (m : bytes) : list bytes :=
  map (λ i, take 64 (drop (64 * i)%nat m)) (seq 0 (length m / 64)).

(** [sha256.Sum256(m)] *)
Definition sum256 (m : bytes) : bytes :=
  let d := foldl compress init (blocks (pad m)) in
  be_bytes 4 (h0 d) ++ be_bytes 4 (h1 d) ++ be_bytes 4 (h2 d) ++ be_bytes 4 (h3 d) ++
  be_bytes 4 (h4 d) ++ be_bytes 4 (h5 d) ++ be_bytes 4 (h6 d) ++ be_bytes 4 (h7 d).

Lemma sum256_length m : length (sum256 m) = Size.
Proof. unfold sum256. cbv zeta. by rewrite !length_app, !be_bytes_length. Qed.

Example sum256_abc :
  be_val (sum256 [x61; x62; x63]) =
  84342368487090800366523834928142263660104883695016514377462985829716817089965.
Proof. vm_compute. reflexivity. Qed.

Example sum256_two_blocks :
  be_val (sum256 (replicate 100 x61)) =
  18132002083790768273691335588781030273447686973737231155365144298649914202638.
Proof. vm_compute. reflexivity. Qed.

#[global] Opaque sum256.
End Sha256.
