(* ===== verification/Usig.v ===== *)
(** Package [usig] ([src/usig/usig.go]): the unique identifier (UI) assigned by
    a USIG and its binary form, and the format of USIG certificates of the SGX
    implementation ([src/usig/sgx/sgx-usig.go]). *)

From S2P Require Import Prelude Bytes Sha256.

Module Usig.

(** [type UI struct] *)
Record UI := MkUI { Counter : N; Cert : bytes }.

#[global] Instance UI_eq_dec : EqDecision UI.
Proof. solve_decision. Defined.

(** A value the code can hold: the counter is a [uint64]. *)
Definition UI_ok (ui : UI) : bool := Counter ui <? 2 ^ 64.

(** [func (ui *UI) MarshalBinary]: [binary.Write] of a [uint64] and of a byte
    slice into a [bytes.Buffer] does not fail. *)
Definition MarshalBinary (ui : UI) : outcome bytes :=
  OK (put64 (Counter ui) ++ Cert ui).

(** [func (ui *UI) UnmarshalBinary] *)
Definition UnmarshalBinary (inp : bytes) : outcome UI :=
  '(counter, rest) ← get64 inp;
  mret (MkUI counter rest).

Definition MustMarshalUI (ui : UI) : bytes :=
  match MarshalBinary ui with OK b => b | _ => [] end.

Definition MustUnmarshalUI (inp : bytes) : outcome UI :=
  match UnmarshalBinary inp with
  | Error _ => Panic "usig.MustUnmarshalUI"
  | o => o
  end.

Lemma MustMarshalUI_eq ui : MustMarshalUI ui = put64 (Counter ui) ++ Cert ui.
Proof. done. Qed.

Lemma UnmarshalBinary_MarshalBinary ui :
  UI_ok ui → UnmarshalBinary (MustMarshalUI ui) = OK ui.
Proof.
  intros Hok%Is_true_true%N.ltb_lt. rewrite MustMarshalUI_eq. unfold UnmarshalBinary.
  rewrite get64_put64 by done. by destruct ui.
Qed.

Lemma UnmarshalBinary_OK b ui :
  UnmarshalBinary b = OK ui → b = MustMarshalUI ui ∧ UI_ok ui.
Proof.
  unfold UnmarshalBinary. intros ([counter rest] & E & [= <-])%outcome_bind_OK.
  apply get64_OK in E as [-> Hn]. split; [done|].
  apply Is_true_true, N.ltb_lt, Hn.
Qed.

Lemma UnmarshalBinary_total b :
  isOK (UnmarshalBinary b) = (8 <=? length b)%nat.
Proof.
  unfold UnmarshalBinary, get64. destruct b as [|x b]; [done|].
  destruct (Nat.ltb_spec (length (x :: b)) 8), (Nat.leb_spec 8 (length (x :: b))); simpl in *; try done; lia.
Qed.

(** Binary form of a UI.  Unmarshaling succeeds exactly on inputs of at least
    eight bytes; what was marshaled from a UI is restored to it, and a byte string
    that unmarshals to a UI is that UI's only marshaled form. *)
Theorem ui_roundtrip ui b :
  UI_ok ui →
  UnmarshalBinary (MustMarshalUI ui) = OK ui ∧
  (UnmarshalBinary b = OK ui ↔ b = MustMarshalUI ui) ∧
  isOK (UnmarshalBinary b) = (8 <=? length b)%nat.
Proof.
  intros Hok. split; [by apply UnmarshalBinary_MarshalBinary|]. split; [|apply UnmarshalBinary_total].
  split; [by intros [? _]%UnmarshalBinary_OK|]. intros ->. by apply UnmarshalBinary_MarshalBinary.
Qed.

Lemma ui_roundtrip_witness : UnmarshalBinary (MustMarshalUI (MkUI 7 [])) = OK (MkUI 7 []).
Proof. exact (proj1 (ui_roundtrip (MkUI 7 []) [] I)). Defined.

(** ** Certificates of the SGX USIG *)

(** [func MakeCert(epoch uint64, signature \[\]byte)] *)
Definition MakeCert (epoch : N) (signature : bytes) : bytes := put64 epoch ++ signature.

(** [func ParseCert(cert \[\]byte)] *)
Definition ParseCert (cert : bytes) : outcome (N * bytes) :=
  match get64 cert with
  | Error e => Error (ErrorWrap "failed to extract epoch from USIG cert" e)
  | o => o
  end.

Lemma ParseCert_MakeCert epoch signature :
  in_u64 epoch → ParseCert (MakeCert epoch signature) = OK (epoch, signature).
Proof. intros. unfold ParseCert, MakeCert. by rewrite get64_put64. Qed.

End Usig.
