(* ===== verification/SgxUsig.v ===== *)
(** The SGX implementation of the USIG: the enclave
    ([src/usig/sgx/enclave/usig.c]), the Go wrapper around it
    ([src/usig/sgx/usig-enclave.go]) and the USIG on top of both
    ([src/usig/sgx/sgx-usig.go]).

    The SGX library (signing, key generation, sealing, random numbers), ECDSA
    verification and the ASN.1 and PKIX encodings are parameters.  A call of the
    SGX library can fail and its results are random, so each call of the enclave
    gets the library's answers as an argument [sgxEnv].  The loading of the shared
    library and the C shim that forwards the calls are not modelled. *)

From S2P Require Import Prelude Bytes Sha256 Usig.
From Stdlib Require Import Strings.Byte.

Module SgxUsig.
Import Usig.

(** [sgx_ec256_public_t]: two 32-byte little-endian integers;
    [sgx_ec256_signature_t]: two integers of eight 32-bit words, little-endian. *)
Record sgx_ec256_public_t := MkSgxPub { gx : bytes; gy : bytes }.
Record sgx_ec256_signature_t := MkSgxSig { sig_x : list N; sig_y : list N }.

(** [elliptic.Curve], [ecdsa.PublicKey] *)
Inductive Curve := P224 | P256 | P384 | P521.
Record PublicKey := MkPublicKey { pk_Curve : Curve; pk_X : N; pk_Y : N }.

(** ** Conversion from the SGX representation *)

(** [func sgxUint32SliceToBigInt]: the words from the last to the first, each
    most significant byte first, read as a big-endian integer. *)
Definition word_bytes (w : N) : bytes :=
  [byte_of_N (N.shiftr w (3 * 8)); byte_of_N (N.shiftr w (2 * 8));
   byte_of_N (N.shiftr w (1 * 8)); byte_of_N (N.shiftr w (0 * 8))].

Definition sgxUint32SliceToBigInt (sgxArr : list N) : N :=
  be_val (concat (map word_bytes (reverse sgxArr))).

(** [func sgxUint8SliceToBigInt] *)
Definition sgxUint8SliceToBigInt (sgxArr : bytes) : N := be_val (reverse sgxArr).

(** [func sgxEC256PubKeyToGo] *)
Definition sgxEC256PubKeyToGo (k : sgx_ec256_public_t) : PublicKey :=
  MkPublicKey P256 (sgxUint8SliceToBigInt (gx k)) (sgxUint8SliceToBigInt (gy k)).

(** The integer that little-endian 32-bit words stand for. *)
Fixpoint words_val (ws : list N) : N :=
  match ws with [] => 0 | w :: ws => w + 2 ^ 32 * words_val ws end.

Lemma word_bytes_be w : word_bytes w = be_bytes 4 w.
Proof.
  unfold word_bytes, be_bytes. simpl. rewrite !N.shiftr_div_pow2.
  change (2 ^ (3 * 8)) with (256 * 256 * 256). change (2 ^ (2 * 8)) with (256 * 256).
  change (2 ^ (1 * 8)) with 256. change (2 ^ (0 * 8)) with 1.
  rewrite !N.Div0.div_div, N.div_1_r. done.
Qed.

Lemma le_val_app l1 l2 : le_val (l1 ++ l2) = le_val l1 + 256 ^ N.of_nat (length l1) * le_val l2.
Proof.
  induction l1 as [|b l1 IH]; simpl le_val; simpl length; [simpl; lia|].
  rewrite IH, Nat2N.inj_succ, N.pow_succ_r'. lia.
Qed.

Lemma sgxUint32_value ws :
  Forall (λ w, in_u32 w) ws → sgxUint32SliceToBigInt ws = words_val ws.
Proof.
  unfold sgxUint32SliceToBigInt, be_val. induction 1 as [|w ws Hw _ IH]; [done|].
  rewrite reverse_cons, map_app, concat_app, reverse_app, le_val_app.
  change (concat (map word_bytes [w])) with (word_bytes w). rewrite word_bytes_be. unfold be_bytes. rewrite reverse_involutive, IH.
  rewrite le_bytes_length, le_val_le_bytes by (simpl; lia). simpl. lia.
Qed.

Lemma sgxUint8_value b : sgxUint8SliceToBigInt b = le_val b.
Proof. unfold sgxUint8SliceToBigInt, be_val. by rewrite reverse_involutive. Qed.

(** ** The enclave *)

(** [sgx_status_t] with what the call yields on success *)
Inductive sgx (A : Type) :=
| SGX_SUCCESS (a : A)
| SGX_ERROR (status : N).
Arguments SGX_SUCCESS {A} a.
Arguments SGX_ERROR {A} status.

Definition SGX_ERROR_UNEXPECTED : N := 1.

(** The static variables of [usig.c], [usig_counter] of [ecall_usig_create_ui]
    among them. *)
Record enclave := MkEnclave {
  usig_priv_key : bytes; usig_pub_key : sgx_ec256_public_t;
  usig_epoch : N; initialized : bool; usig_counter : N }.

(** The enclave when it has been loaded. *)
Definition loadedEnclave : enclave :=
  MkEnclave (replicate 32 x00) (MkSgxPub (replicate 32 x00) (replicate 32 x00)) 0 false 1.

(** [usig_cert_data_t], a packed struct on a little-endian machine *)
Definition usig_cert_data (digest : bytes) (epoch counter : N) : bytes :=
  digest ++ le_bytes 8 epoch ++ le_bytes 8 counter.

(** The answers of the SGX library in one call of the enclave:
    [sgx_ecc256_open_context] and the randomness of [sgx_ecdsa_sign]. *)
Record sgxEnv := MkSgxEnv { env_open : sgx unit; env_nonce : N }.

Section Sgx.
Context (sgx_ecdsa_sign : bytes → bytes → N → sgx sgx_ec256_signature_t).

(** [ecall_usig_create_ui]: the counter is only incremented once the signature
    has been made. *)
Definition ecall_usig_create_ui (env : sgxEnv) (digest : bytes) (e : enclave) :
    sgx (N * sgx_ec256_signature_t) * enclave :=
  if negb (initialized e) then (SGX_ERROR SGX_ERROR_UNEXPECTED, e)
  else
    match env_open env with
    | SGX_ERROR ret => (SGX_ERROR ret, e)
    | SGX_SUCCESS _ =>
        let counter := usig_counter e in
        match sgx_ecdsa_sign (usig_cert_data digest (usig_epoch e) counter)
                (usig_priv_key e) (env_nonce env) with
        | SGX_ERROR ret => (SGX_ERROR ret, e)
        | SGX_SUCCESS signature =>
            (SGX_SUCCESS (counter, signature),
             MkEnclave (usig_priv_key e) (usig_pub_key e) (usig_epoch e) (initialized e)
               (u64_succ counter))
        end
    end.

(** [ecall_usig_get_epoch], [ecall_usig_get_pub_key] *)
Definition ecall_usig_get_epoch (e : enclave) : sgx N :=
  if negb (initialized e) then SGX_ERROR SGX_ERROR_UNEXPECTED else SGX_SUCCESS (usig_epoch e).

Definition ecall_usig_get_pub_key (e : enclave) : sgx sgx_ec256_public_t :=
  if negb (initialized e) then SGX_ERROR SGX_ERROR_UNEXPECTED else SGX_SUCCESS (usig_pub_key e).

(** [ecall_usig_init]: [rand] is the answer of [sgx_read_rand], [generated] that
    of [generate_key], [unseal_key] that of the function of this name. *)
Definition ecall_usig_init (rand : sgx N) (generated : sgx (bytes * sgx_ec256_public_t))
    (unseal_key : bytes → sgx (bytes * sgx_ec256_public_t))
    (sealed_data : option bytes) (e : enclave) : sgx unit * enclave :=
  if initialized e then (SGX_ERROR SGX_ERROR_UNEXPECTED, e)
  else
    match rand with
    | SGX_ERROR ret => (SGX_ERROR ret, e)
    | SGX_SUCCESS epoch =>
        match match sealed_data with Some d => unseal_key d | None => generated end with
        | SGX_ERROR ret =>
            (SGX_ERROR ret, MkEnclave (usig_priv_key e) (usig_pub_key e) epoch false (usig_counter e))
        | SGX_SUCCESS (priv, pub) => (SGX_SUCCESS tt, MkEnclave priv pub epoch true (usig_counter e))
        end
    end.

(** ** The Go wrapper *)

(** [func sgxError], [func sgxSuccessOrPanic] *)
Definition sgxError {A} (r : sgx A) : outcome A :=
  match r with SGX_SUCCESS a => OK a | SGX_ERROR _ => Error (Errorf "SGX error") end.

Definition sgxSuccessOrPanic {A} (r : sgx A) : outcome A :=
  match r with SGX_SUCCESS a => OK a | SGX_ERROR _ => Panic "SGX error" end.

(** [type USIGEnclave struct]: the loaded enclave and the epoch read from it. *)
Record USIGEnclave := MkUSIG { us_enclave : enclave; us_epoch : N }.

(** [func NewUSIGEnclave]; [usig_init] of the shim loads a new enclave and
    initializes it. *)
Definition NewUSIGEnclave (rand : sgx N) (generated : sgx (bytes * sgx_ec256_public_t))
    (unseal_key : bytes → sgx (bytes * sgx_ec256_public_t)) (sealedKey : bytes) :
    outcome USIGEnclave :=
  let sealedData := match sealedKey with [] => None | _ => Some sealedKey end in
  let '(ret, e) := ecall_usig_init rand generated unseal_key sealedData loadedEnclave in
  sgxError ret ;;
  epoch ← sgxSuccessOrPanic (ecall_usig_get_epoch e);
  mret (MkUSIG e epoch).

(** [asn1.Marshal] of [struct{ R, S *big.Int }] *)
Context (asn1_Marshal : Z * Z → outcome bytes).

(** [func sgxEC256SigToASN1] *)
Definition sgxEC256SigToASN1 (sgxSig : sgx_ec256_signature_t) : outcome bytes :=
  let r := sgxUint32SliceToBigInt (sig_x sgxSig) in
  let s := sgxUint32SliceToBigInt (sig_y sgxSig) in
  match asn1_Marshal (Z.of_N r, Z.of_N s) with Error _ => Panic "asn1.Marshal" | o => o end.

(** [func (enclave *USIGEnclave) CreateUI(digest Digest)] *)
Definition EnclaveCreateUI (env : sgxEnv) (digest : bytes) (u : USIGEnclave) :
    outcome (N * bytes) * USIGEnclave :=
  let '(sgxErr, e) := ecall_usig_create_ui env digest (us_enclave u) in
  (('(counter, sgxSignature) ← sgxError sgxErr;
    signature ← sgxEC256SigToASN1 sgxSignature;
    mret (counter, signature)), MkUSIG e (us_epoch u)).

(** [func (u *USIG) CreateUI(message \[\]byte)] *)
Definition CreateUI (env : sgxEnv) (message : bytes) (u : USIGEnclave) : outcome UI * USIGEnclave :=
  let '(o, u') := EnclaveCreateUI env (Sha256.sum256 message) u in
  (('(counter, signature) ← o; mret (MkUI counter (MakeCert (us_epoch u) signature))), u').

(** Calls of [CreateUI] one after the other (the wrapper's lock), with the
    messages and UIs of those that succeed. *)
Fixpoint createAll (calls : list (sgxEnv * bytes)) (u : USIGEnclave) :
    list (bytes * UI) * USIGEnclave :=
  match calls with
  | [] => ([], u)
  | (env, message) :: calls =>
      let '(o, u) := CreateUI env message u in
      let '(l, u) := createAll calls u in
      (match o with OK ui => (message, ui) :: l | _ => l end, u)
  end.

(** ** Verification *)

(** A value of type [interface{}] that holds a key. *)
Inductive key :=
| NilKey
| EcdsaPublic (k : PublicKey)
| EcdsaPrivate (d : N) (k : PublicKey)
| BytesKey (b : bytes)
| OtherKey.

Context (asn1_Unmarshal : bytes → outcome ((Z * Z) * bytes)).
Context (ecdsa_Verify : PublicKey → bytes → Z → Z → bool).

(** [func VerifySignature(pubKey interface{}, digest Digest, epoch, counter
    uint64, signature \[\]byte)] *)
Definition VerifySignature (pubKey : key) (digest : bytes) (epoch counter : N) (signature : bytes) :
    outcome unit :=
  match pubKey with
  | EcdsaPublic ecdsaPubKey =>
      let hash := Sha256.sum256 (digest ++ le_bytes 8 epoch ++ le_bytes 8 counter) in
      '((R, S'), rest) ← wrapf "failed to unmarshal USIG signature" (asn1_Unmarshal signature);
      if negb (length rest =? 0)%nat then Error (Errorf "extra bytes in USIG signature")
      else if negb (ecdsa_Verify ecdsaPubKey hash R S') then Error (Errorf "signature not valid")
      else OK tt
  | _ => Error (Errorf "invalid USIG ID format: expected ECDSA public key")
  end.

(** What [VerifySignature] checks with ECDSA: the signed data of the enclave. *)
Lemma VerifySignature_OK pubKey digest epoch counter signature :
  VerifySignature (EcdsaPublic pubKey) digest epoch counter signature = OK tt ↔
  ∃ r s, asn1_Unmarshal signature = OK ((r, s), []) ∧
    ecdsa_Verify pubKey (Sha256.sum256 (usig_cert_data digest epoch counter)) r s = true.
Proof.
  unfold VerifySignature, usig_cert_data. split.
  - intros ([[r s] rest] & E%wrapf_OK & H)%outcome_bind_OK. exists r, s.
    destruct rest; [|done]. cbn -[le_bytes Sha256.sum256] in H. split; [done|].
    by destruct ecdsa_Verify.
  - intros (r & s & -> & Hv). cbn -[le_bytes Sha256.sum256]. by rewrite Hv.
Qed.

(** [x509.MarshalPKIXPublicKey] and [x509.ParsePKIXPublicKey] *)
Context (MarshalPKIX : key → outcome bytes) (ParsePKIX : bytes → outcome key).

(** [func MakeID(epoch uint64, publicKey interface{})] *)
Definition MakeID (epoch : N) (publicKey : key) : outcome bytes :=
  publicKeyBytes ← wrapf "failed to serialize public key" (MarshalPKIX publicKey);
  mret (put64 epoch ++ publicKeyBytes).

(** [func ParseID(usigID \[\]byte)] *)
Definition ParseID (usigID : bytes) : outcome (N * key) :=
  '(epoch, rest) ← wrapf "failed to extract epoch from USIG ID" (get64 usigID);
  pubKey ← wrapf "failed to parse public key" (ParsePKIX rest);
  mret (epoch, pubKey).

(** [func VerifyUI(message \[\]byte, ui *usig.UI, usigID \[\]byte)] *)
Definition VerifyUI (message : bytes) (ui : UI) (usigID : bytes) : outcome unit :=
  '(epoch, pubKey) ← wrapf "failed to parse USIG ID" (ParseID usigID);
  '(uiEpoch, signature) ← wrapf "failed to parse UI cert" (ParseCert (Cert ui));
  if negb (uiEpoch =? epoch) then Error (Errorf "epoch value mismatch")
  else VerifySignature pubKey (Sha256.sum256 message) epoch (Counter ui) signature.

Lemma VerifyUI_OK message ui epoch pubKey usigID :
  in_u64 epoch →
  MakeID epoch (EcdsaPublic pubKey) = OK usigID →
  (∀ b, MarshalPKIX (EcdsaPublic pubKey) = OK b → ParsePKIX b = OK (EcdsaPublic pubKey)) →
  VerifyUI message ui usigID = OK tt ↔
  ∃ signature r s, Cert ui = MakeCert epoch signature ∧
    asn1_Unmarshal signature = OK ((r, s), []) ∧
    ecdsa_Verify pubKey
      (Sha256.sum256 (usig_cert_data (Sha256.sum256 message) epoch (Counter ui))) r s = true.
Proof.
  intros Hep (kb & Hkb%wrapf_OK & [= <-])%outcome_bind_OK Hkey. specialize (Hkey _ Hkb).
  unfold VerifyUI, ParseID. rewrite get64_put64 by done. simpl. rewrite Hkey. simpl.
  unfold ParseCert. split.
  - intros H. destruct (get64 (Cert ui)) as [[ep sig]|e|p] eqn:E; simpl in H; try done.
    destruct (negb (ep =? epoch)) eqn:Ee; [done|]. nbool; subst ep.
    apply get64_OK in E as [E _]. apply VerifySignature_OK in H as (r & s & H). by exists sig, r, s.
  - intros (sig & r & s & -> & Hv). unfold MakeCert. rewrite get64_put64 by done. simpl.
    rewrite N.eqb_refl. apply VerifySignature_OK. eauto.
Qed.

(** [func (enclave *USIGEnclave) PublicKey()] *)
Definition PublicKeyOf (u : USIGEnclave) : outcome key :=
  sgxPubKey ← sgxSuccessOrPanic (ecall_usig_get_pub_key (us_enclave u));
  mret (EcdsaPublic (sgxEC256PubKeyToGo sgxPubKey)).

(** [func (u *USIG) ID()] *)
Definition ID (u : USIGEnclave) : outcome bytes :=
  pubKey ← PublicKeyOf u;
  match MakeID (us_epoch u) pubKey with Error _ => Panic "USIG.ID" | o => o end.

(** ** Correctness

    What is relied on of the libraries: the enclave's key is a key pair in the
    sense that ECDSA verification with the public key (its two coordinates
    little-endian) accepts what [sgx_ecdsa_sign] makes of some data (two integers
    of eight little-endian 32-bit words) for the SHA-256 hash of the data; an ASN.1
    encoded pair of integers and a PKIX encoded key are decoded to the same. *)
Context (keypair : bytes → sgx_ec256_public_t → Prop).

Definition integer256 (ws : list N) : Prop := length ws = 8%nat ∧ Forall (λ w, in_u32 w) ws.

Record crypto_laws : Prop := {
  law_sign : ∀ data priv pub nonce sig, keypair priv pub →
    sgx_ecdsa_sign data priv nonce = SGX_SUCCESS sig →
    integer256 (sig_x sig) ∧ integer256 (sig_y sig) ∧
    ecdsa_Verify (MkPublicKey P256 (le_val (gx pub)) (le_val (gy pub))) (Sha256.sum256 data)
      (Z.of_N (words_val (sig_x sig))) (Z.of_N (words_val (sig_y sig))) = true;
  law_asn1 : ∀ r s, (0 ≤ r < 2 ^ 256)%Z → (0 ≤ s < 2 ^ 256)%Z →
    ∃ b, asn1_Marshal (r, s) = OK b ∧ asn1_Unmarshal b = OK ((r, s), []);
  law_pkix : ∀ k b, MarshalPKIX (EcdsaPublic k) = OK b → ParsePKIX b = OK (EcdsaPublic k) }.

(** What [NewUSIGEnclave] establishes and [CreateUI] keeps, [n] UIs later. *)
Record usig_ok (n : N) (u : USIGEnclave) : Prop := {
  ok_init : initialized (us_enclave u) = true;
  ok_epoch : usig_epoch (us_enclave u) = us_epoch u;
  ok_keys : keypair (usig_priv_key (us_enclave u)) (usig_pub_key (us_enclave u));
  ok_counter : usig_counter (us_enclave u) = u64 (n + 1) }.

Lemma words_val_bound ws : integer256 ws → words_val ws < 2 ^ 256.
Proof.
  intros [Hl Hb]. destruct ws as [|w0 [|w1 [|w2 [|w3 [|w4 [|w5 [|w6 [|w7 [|]]]]]]]]]; try done.
  rewrite !Forall_cons in Hb. destruct Hb as (?&?&?&?&?&?&?&?&_). cbn [words_val]. lia.
Qed.

Lemma NewUSIGEnclave_ok rand generated unseal_key sealedKey u :
  (∀ priv pub, generated = SGX_SUCCESS (priv, pub) → keypair priv pub) →
  (∀ d priv pub, unseal_key d = SGX_SUCCESS (priv, pub) → keypair priv pub) →
  NewUSIGEnclave rand generated unseal_key sealedKey = OK u →
  usig_ok 0 u ∧ rand = SGX_SUCCESS (us_epoch u).
Proof.
  intros Hg Hu. unfold NewUSIGEnclave, ecall_usig_init. simpl.
  destruct rand as [epoch|]; [|done].
  destruct (match sealedKey with [] => None | _ => Some sealedKey end) as [d|].
  - destruct (unseal_key d) as [[priv pub]|] eqn:E; intros [= <-]. split; [|done]. split; eauto.
  - destruct generated as [[priv pub]|] eqn:E; intros [= <-]. split; [|done]. split; eauto.
Qed.

(** One call: a UI with the next counter that verifies, or nothing. *)
Lemma CreateUI_step n u env m o u' :
  crypto_laws → usig_ok n u → CreateUI env m u = (o, u') →
  us_epoch u' = us_epoch u ∧
  ((∃ signature r s, o = OK (MkUI (u64 (n + 1)) (MakeCert (us_epoch u) signature)) ∧
      asn1_Unmarshal signature = OK ((r, s), []) ∧
      ecdsa_Verify (sgxEC256PubKeyToGo (usig_pub_key (us_enclave u)))
        (Sha256.sum256 (usig_cert_data (Sha256.sum256 m) (us_epoch u) (u64 (n + 1)))) r s = true) ∧
    usig_pub_key (us_enclave u') = usig_pub_key (us_enclave u) ∧ usig_ok (n + 1) u'
   ∨ isOK o = false ∧ u' = u).
Proof.
  intros HL [Hi He Hk Hc]. unfold CreateUI, EnclaveCreateUI, ecall_usig_create_ui. rewrite Hi, He, Hc.
  cbn -[Sha256.sum256 usig_cert_data]. destruct (env_open env) as [[]|]; intros E.
  2: { injection E as <- <-. split; [done|]. right. split; [done|]. by destruct u. }
  destruct (sgx_ecdsa_sign _ _ _) as [sig|] eqn:Es; injection E as <- <-.
  2: { split; [done|]. right. split; [done|]. by destruct u. }
  split; [done|]. left. destruct (law_sign HL _ _ _ _ _ Hk Es) as (Hx & Hy & Hv).
  pose proof (words_val_bound _ Hx). pose proof (words_val_bound _ Hy).
  destruct (law_asn1 HL (Z.of_N (words_val (sig_x sig))) (Z.of_N (words_val (sig_y sig))))
    as (b & Hm & Hu); [lia..|].
  split; [|split; [done|split; [done|done|done|]]].
  - exists b, (Z.of_N (words_val (sig_x sig))), (Z.of_N (words_val (sig_y sig))).
    unfold sgxEC256SigToASN1. rewrite !sgxUint32_value, Hm by apply Hx || apply Hy.
    unfold sgxEC256PubKeyToGo. rewrite !sgxUint8_value. done.
  - cbn. unfold u64_succ, u64. lia.
Qed.

(** The certificate of [ui] is one of the USIG for the message and the counter. *)
Definition certified_by (u : USIGEnclave) (m : bytes) (ui : UI) : Prop :=
  ∃ signature r s, Cert ui = MakeCert (us_epoch u) signature ∧
    asn1_Unmarshal signature = OK ((r, s), []) ∧
    ecdsa_Verify (sgxEC256PubKeyToGo (usig_pub_key (us_enclave u)))
      (Sha256.sum256 (usig_cert_data (Sha256.sum256 m) (us_epoch u) (Counter ui))) r s = true.

Lemma createAll_spec calls n u :
  crypto_laws → usig_ok n u → n + N.of_nat (length calls) < 2 ^ 64 - 1 →
  let l := (createAll calls u).1 in
  (λ p, Counter p.2) <$> l = N.of_nat <$> seq (S (N.to_nat n)) (length l) ∧
  Forall (λ p, certified_by u p.1 p.2) l.
Proof.
  intros HL. revert n u. induction calls as [|[env m] calls IH]; intros n u Hu Hn; [done|].
  simpl in Hn |- *. destruct (CreateUI env m u) as [o u1] eqn:E.
  apply (CreateUI_step n) in E as [He Hc]; [|done..].
  destruct Hc as [[(sig & r & s & -> & Ha & Hv) [Hp Hu1]]|[Ho ->]].
  - specialize (IH (n + 1) u1 Hu1 ltac:(lia)). destruct (createAll calls u1) as [l u2].
    cbn [fst] in IH |- *. rewrite u64_small in * by lia. destruct IH as [IH1 IH2]. split.
    + rewrite fmap_cons, IH1. cbn [length seq]. rewrite fmap_cons. cbn [snd Counter].
      replace (N.to_nat (n + 1)) with (S (N.to_nat n)) by lia. f_equal. lia.
    + constructor; [by exists sig, r, s|]. eapply Forall_impl; [apply IH2|].
      intros p. unfold certified_by. by rewrite He, Hp.
  - specialize (IH n u Hu ltac:(lia)). destruct (createAll calls u) as [l u2]. by destruct o.
Qed.

(** What [VerifyUI] accepts.  For the identity made from an epoch and a
    public key, the UI of a message is accepted exactly when its certificate is
    that epoch followed by an ASN.1 encoded pair of integers and nothing else,
    which ECDSA accepts as a signature of the data the enclave signs for the
    SHA-256 hash of the message, the epoch and the UI's counter. *)
Theorem verify_ui_exact message ui epoch pubKey usigID :
  in_u64 epoch →
  MakeID epoch (EcdsaPublic pubKey) = OK usigID →
  (∀ b, MarshalPKIX (EcdsaPublic pubKey) = OK b → ParsePKIX b = OK (EcdsaPublic pubKey)) →
  VerifyUI message ui usigID = OK tt ↔
  ∃ signature r s, Cert ui = MakeCert epoch signature ∧
    asn1_Unmarshal signature = OK ((r, s), []) ∧
    ecdsa_Verify pubKey
      (Sha256.sum256 (usig_cert_data (Sha256.sum256 message) epoch (Counter ui))) r s = true.
Proof. apply VerifyUI_OK. Qed.

(** C37: the USIG never uses a counter twice and leaves none out, and what it
    creates verifies.  For an enclave initialized with a generated or an unsealed
    key, after any sequence of less than [2^64 - 1] calls of [CreateUI], in which
    the SGX library may fail at any point, the UIs of the successful calls have
    the counters 1, 2, 3, ... in this order, and [VerifyUI] accepts each of them
    for its message under the USIG's identity. *)
Theorem usig_unique_sequential rand generated unseal_key sealedKey u calls usigID :
  crypto_laws →
  (∀ priv pub, generated = SGX_SUCCESS (priv, pub) → keypair priv pub) →
  (∀ d priv pub, unseal_key d = SGX_SUCCESS (priv, pub) → keypair priv pub) →
  (∀ epoch, rand = SGX_SUCCESS epoch → in_u64 epoch) →
  NewUSIGEnclave rand generated unseal_key sealedKey = OK u → ID u = OK usigID →
  N.of_nat (length calls) < 2 ^ 64 - 1 →
  let l := (createAll calls u).1 in
  (λ p, Counter p.2) <$> l = N.of_nat <$> seq 1 (length l) ∧
  Forall (λ p, VerifyUI p.1 p.2 usigID = OK tt) l.
Proof.
  intros HL Hg Hun Hr Hu Hid Hn. apply NewUSIGEnclave_ok in Hu as [Hu Hrand]; [|done..].
  apply Hr in Hrand as Hep.
  destruct (createAll_spec calls 0 u HL Hu ltac:(lia)) as [Hc Hv]. split; [done|].
  eapply Forall_impl; [apply Hv|]. intros [m ui] Hui. simpl.
  unfold ID, PublicKeyOf, ecall_usig_get_pub_key in Hid. rewrite (ok_init _ _ Hu) in Hid. simpl in Hid.
  destruct (MakeID _ _) as [i| |] eqn:Ei; simplify_eq.
  by apply (VerifyUI_OK _ _ _ _ _ Hep Ei (law_pkix HL _)).
Qed.
End Sgx.

(** ** A concrete instance

    The signature of some data is the first word of its hash; there is one key. *)
Definition exampleSign (data priv : bytes) (nonce : N) : sgx sgx_ec256_signature_t :=
  SGX_SUCCESS (MkSgxSig (le_val (take 4 (Sha256.sum256 data)) :: replicate 7 0) (replicate 8 0)).
Definition exampleVerify (k : PublicKey) (h : bytes) (r s : Z) : bool :=
  (r =? Z.of_N (le_val (take 4 h)))%Z.
Definition exampleASN1 (p : Z * Z) : outcome bytes :=
  OK (be_bytes 32 (Z.to_N p.1) ++ be_bytes 32 (Z.to_N p.2)).
Definition exampleUnASN1 (b : bytes) : outcome ((Z * Z) * bytes) :=
  OK ((Z.of_N (be_val (take 32 b)), Z.of_N (be_val (take 32 (drop 32 b)))), drop 64 b).
Definition examplePKIX (k : key) : outcome bytes :=
  match k with EcdsaPublic (MkPublicKey P256 0 0) => OK [] | _ => Error (Errorf "unknown key") end.
Definition exampleUnPKIX (b : bytes) : outcome key := OK (EcdsaPublic (MkPublicKey P256 0 0)).
Definition examplePub : sgx_ec256_public_t := MkSgxPub [] [].

Lemma example_laws :
  crypto_laws exampleSign exampleASN1 exampleUnASN1 exampleVerify examplePKIX exampleUnPKIX (λ _ _, True).
Proof.
  split.
  - intros data priv pub nonce sig _ [= <-]. unfold integer256. cbn [sig_x sig_y].
    assert (le_val (take 4 (Sha256.sum256 data)) < 2 ^ 32).
    { eapply N.lt_le_trans; [apply le_val_bound|].
      rewrite length_take, Sha256.sum256_length. vm_compute. done. }
    split_and!; [done|by repeat constructor|done|by repeat constructor|].
    unfold exampleVerify. apply Z.eqb_eq. cbn [words_val replicate]. lia.
  - intros r s Hr Hs. eexists. split; [done|]. unfold exampleUnASN1. cbn [fst snd].
    rewrite take_app_length', drop_app_length', take_ge by (by rewrite ?be_bytes_length).
    rewrite !be_val_be_bytes by (simpl; lia). rewrite drop_ge by (by rewrite length_app, !be_bytes_length).
    by rewrite !Z2N.id by lia.
  - intros [[] [] []] b; naive_solver.
Qed.

Definition exampleUSIG : USIGEnclave :=
  MkUSIG (MkEnclave [] examplePub 5 true 1) 5.
Definition exampleCalls : list (sgxEnv * bytes) :=
  [(MkSgxEnv (SGX_SUCCESS tt) 0, [x01]); (MkSgxEnv (SGX_ERROR 1) 0, [x02]);
   (MkSgxEnv (SGX_SUCCESS tt) 0, [x03])].

Lemma verify_ui_exact_witness :
  VerifyUI exampleUnASN1 exampleVerify exampleUnPKIX [] (MkUI 3 []) (put64 5) ≠ OK tt.
Proof.
  intros H. apply (verify_ui_exact exampleUnASN1 exampleVerify examplePKIX exampleUnPKIX
    [] (MkUI 3 []) 5 (MkPublicKey P256 0 0)) in H; [|done|vm_compute; done|done].
  by destruct H as (sig & r & s & Hc & _).
Defined.

Lemma usig_unique_sequential_witness :
  (λ p, Counter p.2) <$> (createAll exampleSign exampleASN1 exampleCalls exampleUSIG).1 = [1; 2] ∧
  Forall (λ p, VerifyUI exampleUnASN1 exampleVerify exampleUnPKIX p.1 p.2 (put64 5) = OK tt)
    (createAll exampleSign exampleASN1 exampleCalls exampleUSIG).1.
Proof.
  destruct (usig_unique_sequential exampleSign exampleASN1 exampleUnASN1 exampleVerify examplePKIX
    exampleUnPKIX (λ _ _, True) (SGX_SUCCESS 5) (SGX_SUCCESS ([], examplePub))
    (λ _, SGX_ERROR 1) [] exampleUSIG exampleCalls (put64 5)) as [Hc Hv];
    [exact example_laws|done|done|by intros ? [= <-]|done|vm_compute; done|done|].
  split; [|exact Hv]. rewrite Hc. vm_compute. done.
Defined.

End SgxUsig.
