(* ===== verification/Messages.v ===== *)
(** Package [messages] ([src/messages/api.go]): the protocol messages.  A
    message type of the code is a record or an inductive type with the fields
    its accessors return; the interface [CertifiedMessage], implemented by
    Prepare, Commit, ViewChange and NewView, is a sum.  A message that has no UI
    yet ([UI()] returns nil between construction and [SetUI]) carries [nilUI]. *)

From S2P Require Import Prelude Bytes Usig.
Export Usig(UI, MkUI, Counter, Cert, UI_ok).

(** [type Request interface] *)
Record Request := MkRequest {
  req_ClientID : N; req_Sequence : N; req_Operation : bytes; req_Signature : bytes }.

(** [type Reply interface] *)
Record Reply := MkReply {
  rep_ReplicaID : N; rep_ClientID : N; rep_Sequence : N; rep_Result : bytes;
  rep_Signature : bytes }.

(** [type ReqViewChange interface] *)
Record ReqViewChange := MkReqViewChange {
  rvc_ReplicaID : N; rvc_NewView : N; rvc_Signature : bytes }.

(** [type Prepare interface] *)
Record Prepare := MkPrepare {
  prep_ReplicaID : N; prep_View : N; prep_Request : Request; prep_UI : UI }.

(** [type CertifiedMessage interface] and the message types that nest: Commit
    holds the primary's proposal, ViewChange a message log and a view-change
    certificate, NewView a certificate made of ViewChange messages. *)
Inductive CertifiedMessage :=
| CM_Prepare (p : Prepare)
| CM_Commit (c : Commit)
| CM_ViewChange (vc : ViewChange)
| CM_NewView (nv : NewView)
with Commit :=
| MkCommit (replicaID : N) (proposal : CertifiedMessage) (ui : UI)
with ViewChange :=
| MkViewChange (replicaID newView : N) (log : list CertifiedMessage)
    (vcCert : list ReqViewChange) (ui : UI)
with NewView :=
| MkNewView (replicaID newView : N) (nvCert : list ViewChange) (ui : UI).

(** [type MessageLog], [type ViewChangeCert], [type NewViewCert] *)
Abbreviation MessageLog := (list CertifiedMessage).
Abbreviation ViewChangeCert := (list ReqViewChange).
Abbreviation NewViewCert := (list ViewChange).

(** [type Message interface] *)
Inductive Message :=
| Msg_Hello (replicaID : N)
| Msg_Request (req : Request)
| Msg_Reply (rep : Reply)
| Msg_ReqViewChange (rvc : ReqViewChange)
| Msg_Certified (m : CertifiedMessage).

(** ** Accessors *)

Definition comm_ReplicaID (c : Commit) : N := let '(MkCommit r _ _) := c in r.
Definition comm_Proposal (c : Commit) : CertifiedMessage := let '(MkCommit _ p _) := c in p.
Definition comm_UI (c : Commit) : UI := let '(MkCommit _ _ ui) := c in ui.

Definition vc_ReplicaID (vc : ViewChange) : N := let '(MkViewChange r _ _ _ _) := vc in r.
Definition vc_NewView (vc : ViewChange) : N := let '(MkViewChange _ v _ _ _) := vc in v.
Definition vc_MessageLog (vc : ViewChange) : MessageLog :=
  let '(MkViewChange _ _ l _ _) := vc in l.
Definition vc_ViewChangeCert (vc : ViewChange) : ViewChangeCert :=
  let '(MkViewChange _ _ _ c _) := vc in c.
Definition vc_UI (vc : ViewChange) : UI := let '(MkViewChange _ _ _ _ ui) := vc in ui.

Definition nv_ReplicaID (nv : NewView) : N := let '(MkNewView r _ _ _) := nv in r.
Definition nv_NewView (nv : NewView) : N := let '(MkNewView _ v _ _) := nv in v.
Definition nv_NewViewCert (nv : NewView) : NewViewCert := let '(MkNewView _ _ c _) := nv in c.
Definition nv_UI (nv : NewView) : UI := let '(MkNewView _ _ _ ui) := nv in ui.

(** [ReplicaID()] of a certified message *)
Definition cm_ReplicaID (m : CertifiedMessage) : N :=
  match m with
  | CM_Prepare p => prep_ReplicaID p
  | CM_Commit c => comm_ReplicaID c
  | CM_ViewChange vc => vc_ReplicaID vc
  | CM_NewView nv => nv_ReplicaID nv
  end.

(** [UI()] of a certified message *)
Definition cm_UI (m : CertifiedMessage) : UI :=
  match m with
  | CM_Prepare p => prep_UI p
  | CM_Commit c => comm_UI c
  | CM_ViewChange vc => vc_UI vc
  | CM_NewView nv => nv_UI nv
  end.

Abbreviation cm_Counter m := (Counter (cm_UI m)).
Abbreviation vc_Counter vc := (Counter (vc_UI vc)).

(** [SetUI(ui)] of a certified message *)
Definition cm_SetUI (ui : UI) (m : CertifiedMessage) : CertifiedMessage :=
  match m with
  | CM_Prepare (MkPrepare r v req _) => CM_Prepare (MkPrepare r v req ui)
  | CM_Commit (MkCommit r prop _) => CM_Commit (MkCommit r prop ui)
  | CM_ViewChange (MkViewChange r v l c _) => CM_ViewChange (MkViewChange r v l c ui)
  | CM_NewView (MkNewView r v c _) => CM_NewView (MkNewView r v c ui)
  end.

Lemma cm_UI_SetUI ui m : cm_UI (cm_SetUI ui m) = ui.
Proof. by destruct m as [[]|[]|[]|[]]. Qed.
Lemma cm_ReplicaID_SetUI ui m : cm_ReplicaID (cm_SetUI ui m) = cm_ReplicaID m.
Proof. by destruct m as [[]|[]|[]|[]]. Qed.

(** [SetSignature(signature)] *)
Definition req_SetSignature (s : bytes) (r : Request) : Request :=
  MkRequest (req_ClientID r) (req_Sequence r) (req_Operation r) s.
Definition rep_SetSignature (s : bytes) (r : Reply) : Reply :=
  MkReply (rep_ReplicaID r) (rep_ClientID r) (rep_Sequence r) (rep_Result r) s.
Definition rvc_SetSignature (s : bytes) (r : ReqViewChange) : ReqViewChange :=
  MkReqViewChange (rvc_ReplicaID r) (rvc_NewView r) s.

(** ** Construction ([MessageImpl], [src/messages/protobuf/impl.go]) *)

Definition nilUI : UI := MkUI 0 [].

Definition NewRequest (cl seq : N) (op : bytes) : Request := MkRequest cl seq op [].
Definition NewPrepare (r v : N) (req : Request) : Prepare := MkPrepare r v req nilUI.
Definition NewCommit (r : N) (prop : CertifiedMessage) : Commit := MkCommit r prop nilUI.
Definition NewReply (r cl seq : N) (res : bytes) : Reply := MkReply r cl seq res [].
Definition NewReqViewChange (r nv : N) : ReqViewChange := MkReqViewChange r nv [].
Definition NewViewChange (r nv : N) (log : MessageLog) (vcCert : ViewChangeCert) : ViewChange :=
  MkViewChange r nv log vcCert nilUI.
Definition NewNewView (r nv : N) (nvCert : NewViewCert) : NewView :=
  MkNewView r nv nvCert nilUI.

(** ** Induction on certified messages

    The nesting goes through lists, so the principle is stated once here:
    one predicate, with [Forall] hypotheses for the log and the certificate. *)

Section CM_induction.
Context (P : CertifiedMessage → Prop).
Context (Hprep : ∀ p, P (CM_Prepare p)).
Context (Hcomm : ∀ r prop ui, P prop → P (CM_Commit (MkCommit r prop ui))).
Context (Hvc : ∀ r v log cert ui, Forall P log →
  P (CM_ViewChange (MkViewChange r v log cert ui))).
Context (Hnv : ∀ r v cert ui, Forall (λ vc, P (CM_ViewChange vc)) cert →
  P (CM_NewView (MkNewView r v cert ui))).

Fixpoint CM_ind (m : CertifiedMessage) : P m :=
  match m with
  | CM_Prepare p => Hprep p
  | CM_Commit (MkCommit r prop ui) => Hcomm r prop ui (CM_ind prop)
  | CM_ViewChange vc => VC_ind vc
  | CM_NewView (MkNewView r v cert ui) =>
      Hnv r v cert ui
        ((fix go (l : list ViewChange) : Forall (λ vc, P (CM_ViewChange vc)) l :=
            match l with
            | [] => @List.Forall_nil _ _
            | vc :: l => List.Forall_cons _ vc l (VC_ind vc) (go l)
            end) cert)
  end
with VC_ind (vc : ViewChange) : P (CM_ViewChange vc) :=
  match vc with
  | MkViewChange r v log cert ui =>
      Hvc r v log cert ui
        ((fix go (l : list CertifiedMessage) : Forall P l :=
            match l with
            | [] => @List.Forall_nil _ _
            | m :: l => List.Forall_cons _ m l (CM_ind m) (go l)
            end) log)
  end.
End CM_induction.

(** ** Range of the integer fields

    [uint32] identifiers and [uint64] sequence numbers, views and counters. *)

Definition ok32 (n : N) : bool := n <? 2 ^ 32.
Definition ok64 (n : N) : bool := n <? 2 ^ 64.

Definition req_ok (r : Request) : bool := ok32 (req_ClientID r) && ok64 (req_Sequence r).
Definition rep_ok (r : Reply) : bool :=
  ok32 (rep_ReplicaID r) && ok32 (rep_ClientID r) && ok64 (rep_Sequence r).
Definition rvc_ok (r : ReqViewChange) : bool := ok32 (rvc_ReplicaID r) && ok64 (rvc_NewView r).
Definition prep_ok (p : Prepare) : bool :=
  ok32 (prep_ReplicaID p) && ok64 (prep_View p) && req_ok (prep_Request p) && UI_ok (prep_UI p).

Fixpoint cm_ok (m : CertifiedMessage) : bool :=
  match m with
  | CM_Prepare p => prep_ok p
  | CM_Commit (MkCommit r prop ui) => ok32 r && cm_ok prop && UI_ok ui
  | CM_ViewChange vc => vc_ok vc
  | CM_NewView (MkNewView r v cert ui) => ok32 r && ok64 v && forallb vc_ok cert && UI_ok ui
  end
with vc_ok (vc : ViewChange) : bool :=
  match vc with
  | MkViewChange r v log cert ui =>
      ok32 r && ok64 v && forallb cm_ok log && forallb rvc_ok cert && UI_ok ui
  end.

Definition msg_ok (m : Message) : bool :=
  match m with
  | Msg_Hello r => ok32 r
  | Msg_Request r => req_ok r
  | Msg_Reply r => rep_ok r
  | Msg_ReqViewChange r => rvc_ok r
  | Msg_Certified m => cm_ok m
  end.

(** ** Nesting depth

    The number of messages on the longest path of embedded messages; it bounds
    every recursion of the code over embedded messages. *)

Fixpoint cm_depth (m : CertifiedMessage) : nat :=
  match m with
  | CM_Prepare _ => 2
  | CM_Commit (MkCommit _ prop _) => S (cm_depth prop)
  | CM_ViewChange vc => vc_depth vc
  | CM_NewView (MkNewView _ _ cert _) => S (list_max (map vc_depth cert))
  end
with vc_depth (vc : ViewChange) : nat :=
  match vc with
  | MkViewChange _ _ log _ _ => S (S (list_max (map cm_depth log)))
  end.

Definition msg_depth (m : Message) : nat :=
  match m with Msg_Certified m => cm_depth m | _ => 1 end.

Lemma list_max_map_le {A} (f : A → nat) (l : list A) (x : A) :
  x ∈ l → (f x ≤ list_max (map f l))%nat.
Proof.
  induction 1 as [x l|x y l _ IH]; simpl; lia.
Qed.

Lemma cm_depth_pos m : (0 < cm_depth m)%nat.
Proof. destruct m as [|[]|[]|[]]; simpl; lia. Qed.
