(* ===== verification/Authen.v ===== *)
(** [src/messages/authen.go]: the serialized authenticated content of a
    message, which is what signatures and USIG certificates cover.  The
    specification [content] says what that content is; the theorems show that
    the bytes determine it and nothing else. *)

From S2P Require Import Prelude Bytes Sha256 Usig Messages.

Module Authen.

(** [func hashsum(data \[\]byte) \[\]byte] *)
Definition hashsum (data : bytes) : bytes := Sha256.sum256 data.

(** The tag of [AuthenBytes] for each message type. *)
Definition cm_tag (m : CertifiedMessage) : bytes :=
  String.list_byte_of_string
    match m with
    | CM_Prepare _ => "PREPARE"
    | CM_Commit _ => "COMMIT"
    | CM_ViewChange _ => "VIEW-CHANGE"
    | CM_NewView _ => "NEW-VIEW"
    end.

Definition req_write (r : Request) : bytes :=
  put64 (req_Sequence r) ++ hashsum (req_Operation r).

Definition vc_write (vc : ViewChange) : bytes :=
  put32 (vc_ReplicaID vc) ++ put64 (vc_Counter vc).

(** [func writeAuthenBytes(buf io.Writer, m Message)] on certified messages *)
Fixpoint cm_write (m : CertifiedMessage) : bytes :=
  match m with
  | CM_Prepare p =>
      put64 (prep_View p) ++ put32 (req_ClientID (prep_Request p)) ++ req_write (prep_Request p)
  | CM_Commit (MkCommit _ prop _) =>
      put32 (cm_ReplicaID prop) ++ (cm_tag prop ++ cm_write prop) ++ put64 (cm_Counter prop)
  | CM_ViewChange vc => put64 (vc_NewView vc)
  | CM_NewView (MkNewView _ v cert _) => put64 v ++ concat (map vc_write cert)
  end.

(** [func AuthenBytes(m Message) \[\]byte] *)
Definition AuthenBytes (m : Message) : outcome bytes :=
  match m with
  | Msg_Hello _ => Panic "unknown message type"
  | Msg_Request r => OK (String.list_byte_of_string "REQUEST" ++ req_write r)
  | Msg_Reply r =>
      OK (String.list_byte_of_string "REPLY" ++
          put32 (rep_ClientID r) ++ put64 (rep_Sequence r) ++ hashsum (rep_Result r))
  | Msg_ReqViewChange r =>
      OK (String.list_byte_of_string "REQ-VIEW-CHANGE" ++ put64 (rvc_NewView r))
  | Msg_Certified m => OK (cm_tag m ++ cm_write m)
  end.

(** The bytes a USIG certificate covers. *)
Definition cm_AuthenBytes (m : CertifiedMessage) : bytes := cm_tag m ++ cm_write m.

(** *** Specification: the authenticated content

    Requests and replies through the hash of their payload; a Commit through
    the identity, content and counter of the proposal; a ViewChange through the
    new view only; a NewView through the replicas and counters of its
    certificate. *)
Inductive content :=
| Ct_Request (seq : N) (ophash : bytes)
| Ct_Reply (client seq : N) (reshash : bytes)
| Ct_ReqViewChange (newView : N)
| Ct_Prepare (view client seq : N) (ophash : bytes)
| Ct_Commit (primary : N) (proposal : content) (primaryCV : N)
| Ct_ViewChange (newView : N)
| Ct_NewView (newView : N) (cert : list (N * N)).

Fixpoint cm_content (m : CertifiedMessage) : content :=
  match m with
  | CM_Prepare p =>
      Ct_Prepare (prep_View p) (req_ClientID (prep_Request p))
        (req_Sequence (prep_Request p)) (hashsum (req_Operation (prep_Request p)))
  | CM_Commit (MkCommit _ prop _) =>
      Ct_Commit (cm_ReplicaID prop) (cm_content prop) (cm_Counter prop)
  | CM_ViewChange vc => Ct_ViewChange (vc_NewView vc)
  | CM_NewView (MkNewView _ v cert _) =>
      Ct_NewView v (map (λ vc, (vc_ReplicaID vc, vc_Counter vc)) cert)
  end.

Definition msg_content (m : Message) : option content :=
  match m with
  | Msg_Hello _ => None
  | Msg_Request r => Some (Ct_Request (req_Sequence r) (hashsum (req_Operation r)))
  | Msg_Reply r =>
      Some (Ct_Reply (rep_ClientID r) (rep_Sequence r) (hashsum (rep_Result r)))
  | Msg_ReqViewChange r => Some (Ct_ReqViewChange (rvc_NewView r))
  | Msg_Certified m => Some (cm_content m)
  end.

(** Encoder of the content: the bytes as a function of it. *)
Fixpoint ct_tag (c : content) : bytes :=
  String.list_byte_of_string
    match c with
    | Ct_Request _ _ => "REQUEST" | Ct_Reply _ _ _ => "REPLY"
    | Ct_ReqViewChange _ => "REQ-VIEW-CHANGE" | Ct_Prepare _ _ _ _ => "PREPARE"
    | Ct_Commit _ _ _ => "COMMIT" | Ct_ViewChange _ => "VIEW-CHANGE"
    | Ct_NewView _ _ => "NEW-VIEW"
    end.

Fixpoint ct_write (c : content) : bytes :=
  match c with
  | Ct_Request seq h => put64 seq ++ h
  | Ct_Reply cl seq h => put32 cl ++ put64 seq ++ h
  | Ct_ReqViewChange v => put64 v
  | Ct_Prepare v cl seq h => put64 v ++ put32 cl ++ put64 seq ++ h
  | Ct_Commit r c cv => put32 r ++ (ct_tag c ++ ct_write c) ++ put64 cv
  | Ct_ViewChange v => put64 v
  | Ct_NewView v cert => put64 v ++ concat (map (λ '(r, cv), put32 r ++ put64 cv) cert)
  end.

Definition pair_ok (p : N * N) : bool := ok32 p.1 && ok64 p.2.

Fixpoint ct_ok (c : content) : bool :=
  match c with
  | Ct_Request seq h => ok64 seq
  | Ct_Reply cl seq h => ok32 cl && ok64 seq
  | Ct_ReqViewChange v => ok64 v
  | Ct_Prepare v cl seq h => ok64 v && ok32 cl && ok64 seq
  | Ct_Commit r c cv => ok32 r && ct_ok c && ok64 cv
  | Ct_ViewChange v => ok64 v
  | Ct_NewView v cert => ok64 v && forallb pair_ok cert
  end.

(** ** The encoding is injective *)

Ltac oksplit :=
  repeat match goal with
  | H : Is_true (_ && _) |- _ => apply andb_prop_elim in H; destruct H
  | H : Is_true (ok32 _) |- _ => apply Is_true_true, N.ltb_lt in H
  | H : Is_true (ok64 _) |- _ => apply Is_true_true, N.ltb_lt in H
  end.

Lemma ct_tag_inj c1 c2 x y :
  ct_tag c1 ++ x = ct_tag c2 ++ y → ct_tag c1 = ct_tag c2 ∧ x = y.
Proof.
  destruct c1, c2; cbn; intros E; simplify_eq; split; congruence.
Qed.

Lemma cert_write_inj l1 l2 :
  forallb pair_ok l1 → forallb pair_ok l2 →
  concat (map (λ '(r, cv), put32 r ++ put64 cv) l1) =
  concat (map (λ '(r, cv), put32 r ++ put64 cv) l2) → l1 = l2.
Proof.
  revert l2; induction l1 as [|[r1 c1] l1 IH]; intros [|[r2 c2] l2]; simpl; intros H1 H2 E;
    [done| | |].
  - apply (f_equal length) in E. rewrite !length_app, put32_length in E. simpl in E. lia.
  - apply (f_equal length) in E. rewrite !length_app, put32_length in E. simpl in E. lia.
  - unfold pair_ok in *; simpl in *; oksplit.
    rewrite <- !app_assoc in E.
    apply put32_app_inj in E as [-> E]; [|done..].
    apply put64_app_inj in E as [-> E]; [|done..].
    f_equal. by apply IH.
Qed.

Lemma ct_write_inj c1 c2 :
  ct_ok c1 → ct_ok c2 → ct_tag c1 = ct_tag c2 → ct_write c1 = ct_write c2 → c1 = c2.
Proof.
  revert c2; induction c1 as [| | | |r1 c1 IH cv1| |v1 l1]; intros []; simpl;
    try (intros _ _ E; cbn in E; discriminate); intros H1 H2 _ E; oksplit.
  - by apply put64_app_inj in E as [-> ->].
  - apply put32_app_inj in E as [-> E]; [|done..]. by apply put64_app_inj in E as [-> ->].
  - f_equal. by apply put64_inj.
  - apply put64_app_inj in E as [-> E]; [|done..].
    apply put32_app_inj in E as [-> E]; [|done..]. by apply put64_app_inj in E as [-> ->].
  - apply put32_app_inj in E as [-> E]; [|done..].
    apply app_inj_2 in E as [E Ecv]; [|by rewrite !put64_length].
    apply put64_inj in Ecv as ->; [|done..].
    apply ct_tag_inj in E as [Et Ew]. f_equal. by apply IH.
  - f_equal. by apply put64_inj.
  - apply put64_app_inj in E as [-> E]; [|done..]. f_equal. by apply cert_write_inj.
Qed.

(** ** The code's bytes are the encoding of the content *)

Lemma cm_tag_content m : cm_tag m = ct_tag (cm_content m).
Proof. by destruct m as [|[]|[]|[]]. Qed.

Lemma concat_vc_write cert :
  concat (map vc_write cert) =
  concat (map (λ '(r, cv), put32 r ++ put64 cv)
            (map (λ vc, (vc_ReplicaID vc, vc_Counter vc)) cert)).
Proof. rewrite map_map. done. Qed.

Lemma cm_write_content m : cm_write m = ct_write (cm_content m).
Proof.
  induction m as [p|r prop ui IH|r v log cert ui _|r v cert ui _] using CM_ind; simpl; [done| |done|].
  - by rewrite cm_tag_content, IH.
  - by rewrite concat_vc_write.
Qed.

Lemma AuthenBytes_content m :
  AuthenBytes m =
  match msg_content m with
  | Some c => OK (ct_tag c ++ ct_write c)
  | None => Panic "unknown message type"
  end.
Proof.
  destruct m; simpl; try done. by rewrite cm_tag_content, cm_write_content.
Qed.

(** ** Range of the content of a message *)

Lemma Forall_forallb {A} (f g : A → bool) (l : list A) :
  Forall (λ x, f x → g x) l → forallb f l → forallb g l.
Proof.
  induction 1 as [|x l Hx _ IH]; simpl; [done|].
  intros [H1 H2]%andb_prop_elim. apply andb_prop_intro. auto.
Qed.

Lemma cm_ok_ReplicaID m : cm_ok m → ok32 (cm_ReplicaID m).
Proof.
  destruct m as [p|[]|[]|[]]; unfold cm_ok; simpl; unfold prep_ok;
    intros H; repeat (apply andb_prop_elim in H; destruct H as [H ?]); done.
Qed.

Lemma cm_ok_Counter m : cm_ok m → ok64 (cm_Counter m).
Proof.
  destruct m as [p|[]|[]|[]]; unfold cm_ok; simpl; unfold prep_ok;
    intros H; apply andb_prop_elim in H; destruct H as [_ H]; done.
Qed.

Lemma vc_ok_pair vc : vc_ok vc → pair_ok (vc_ReplicaID vc, vc_Counter vc).
Proof.
  intros H. apply andb_prop_intro; split; simpl.
  - exact (cm_ok_ReplicaID (CM_ViewChange vc) H).
  - exact (cm_ok_Counter (CM_ViewChange vc) H).
Qed.

Lemma cm_content_ok m : cm_ok m → ct_ok (cm_content m).
Proof.
  induction m as [p|r prop ui IH|r v log cert ui _|r v cert ui _] using CM_ind; simpl.
  - unfold prep_ok, req_ok. intros. oksplit.
    repeat (apply andb_prop_intro; split); by apply Is_true_true, N.ltb_lt.
  - intros H. apply andb_prop_elim in H as [H Hui]. apply andb_prop_elim in H as [Hr Hp].
    repeat (apply andb_prop_intro; split); auto using cm_ok_ReplicaID, cm_ok_Counter.
  - intros H. by repeat (apply andb_prop_elim in H as [H ?]).
  - intros H. apply andb_prop_elim in H as [H Hui]. apply andb_prop_elim in H as [H Hc].
    apply andb_prop_elim in H as [_ Hv]. apply andb_prop_intro; split; [done|].
    revert Hc. clear. induction cert as [|vc cert IH]; simpl; [done|].
    intros [H1 H2]%andb_prop_elim. apply andb_prop_intro; auto using vc_ok_pair.
Qed.

Lemma msg_content_ok m c : msg_ok m → msg_content m = Some c → ct_ok c.
Proof.
  destruct m; simpl; intros Hm [= <-]; unfold req_ok, rep_ok, rvc_ok in *.
  - by apply andb_prop_elim in Hm as [_ ?].
  - apply andb_prop_elim in Hm as [Hm ?]. apply andb_prop_elim in Hm as [_ ?].
    by apply andb_prop_intro.
  - by apply andb_prop_elim in Hm as [_ ?].
  - by apply cm_content_ok.
Qed.

(** C34: the authenticated bytes are unambiguous.  Two messages whose integer
    fields are in range have the same authenticated bytes exactly when they are
    of the same type and agree in everything the tag is meant to cover: the
    numbers and the payload hash of a Request, Reply or Prepare, the proposer,
    content and counter of the proposal of a Commit, the view of a ReqViewChange
    or ViewChange, the view and the replicas and counters of the certificate of a
    NewView. *)
Theorem authenbytes_injective m1 m2 b1 b2 :
  msg_ok m1 → msg_ok m2 → AuthenBytes m1 = OK b1 → AuthenBytes m2 = OK b2 →
  b1 = b2 ↔ msg_content m1 = msg_content m2.
Proof.
  intros H1 H2. rewrite !AuthenBytes_content.
  destruct (msg_content m1) as [c1|] eqn:E1; [|done].
  destruct (msg_content m2) as [c2|] eqn:E2; [|done].
  intros [= <-] [= <-]. split; [|by intros [= ->]].
  intros [Ht Hw]%ct_tag_inj. f_equal. apply ct_write_inj; eauto using msg_content_ok.
Qed.

(** Assigning a UI does not change what the certificate covers. *)
Lemma cm_AuthenBytes_SetUI ui m : cm_AuthenBytes (cm_SetUI ui m) = cm_AuthenBytes m.
Proof. by destruct m as [[]|[]|[]|[]]. Qed.

Lemma authenbytes_injective_witness :
  let vc := Msg_Certified (CM_ViewChange (MkViewChange 0 5 [] [] nilUI)) in
  let rvc := Msg_ReqViewChange (MkReqViewChange 0 5 []) in
  cm_AuthenBytes (CM_ViewChange (MkViewChange 0 5 [] [] nilUI)) ≠
  String.list_byte_of_string "REQ-VIEW-CHANGE" ++ put64 5.
Proof.
  cbv zeta. intros E.
  pose proof (proj1 (authenbytes_injective (Msg_Certified (CM_ViewChange (MkViewChange 0 5 [] [] nilUI)))
    (Msg_ReqViewChange (MkReqViewChange 0 5 [])) _ _ I I eq_refl eq_refl) E) as H. discriminate H.
Defined.

End Authen.
