(* ===== verification/Stringify.v ===== *)
(** Messages as text ([src/messages/utils.go]).

    A Go string is a list of bytes.  The verbs of [fmt.Sprintf] that the code uses are
    modelled: [%d] of an unsigned integer, [%s], [%v] of a slice of integers and of a map
    (which [fmt] prints in the order of its keys), and [%q], which is [strconv.Quote].
    Quoting decodes UTF-8; [strconv.IsPrint] is a parameter for runes outside ASCII, for
    which it is a table of Unicode, and DEL is quoted as in recent versions of the library
    (a backslash, x, 7f).  The message types are those of [Messages], each
    with its UI: the code's [msg.UI().Counter] has no nil UI to dereference. *)

From Stdlib Require Import Strings.Byte DecimalN.
From stdpp Require Import sorting.
From S2P Require Import Prelude Bytes Messages.

Module Stringify.

Abbreviation str := String.list_byte_of_string.

(** ** [%d] and [%v] *)

Fixpoint digits (u : Decimal.uint) : bytes :=
  match u with
  | Decimal.Nil => []
  | Decimal.D0 u => x30 :: digits u
  | Decimal.D1 u => x31 :: digits u
  | Decimal.D2 u => x32 :: digits u
  | Decimal.D3 u => x33 :: digits u
  | Decimal.D4 u => x34 :: digits u
  | Decimal.D5 u => x35 :: digits u
  | Decimal.D6 u => x36 :: digits u
  | Decimal.D7 u => x37 :: digits u
  | Decimal.D8 u => x38 :: digits u
  | Decimal.D9 u => x39 :: digits u
  end.

Definition fmt_d (n : N) : bytes := digits (N.to_uint n).

Fixpoint join (items : list bytes) : bytes :=
  match items with
  | [] => []
  | [x] => x
  | x :: items => x ++ x20 :: join items
  end.

(** [%v] of a [\[\]uint32] *)
Definition fmt_v_slice (l : list N) : bytes := x5b :: join (fmt_d <$> l) ++ [x5d].

(** [%v] of a [map\[uint32\]uint64] *)
Definition byKey : relation (N * N) := λ a b, a.1 ≤ b.1.
#[export] Instance byKey_dec : RelDecision byKey := λ a b, decide (a.1 ≤ b.1).
Definition fmt_entry (e : N * N) : bytes := fmt_d e.1 ++ x3a :: fmt_d e.2.
Definition fmt_v_map (q : gmap N N) : bytes :=
  str "map[" ++ join (fmt_entry <$> merge_sort byKey (map_to_list q)) ++ [x5d].

(** ** [%q] *)

Definition RuneError : N := 0xFFFD.

Definition between (a x b : N) : bool := (a <=? x) && (x <=? b).

(** [utf8.DecodeRuneInString]: the rune and its width; an invalid encoding is
    [RuneError] of width 1. *)
Definition DecodeRuneInString (s : bytes) : N * nat :=
  match Byte.to_N <$> s with
  | [] => (RuneError, 0%nat)
  | x0 :: t =>
      if x0 <? 0x80 then (x0, 1%nat)
      else if between 0xC2 x0 0xDF then
        match t with
        | x1 :: _ => if between 0x80 x1 0xBF then ((x0 - 0xC0) * 64 + (x1 - 0x80), 2%nat) else (RuneError, 1%nat)
        | _ => (RuneError, 1%nat)
        end
      else if between 0xE0 x0 0xEF then
        match t with
        | x1 :: x2 :: _ =>
            if between (if x0 =? 0xE0 then 0xA0 else 0x80) x1 (if x0 =? 0xED then 0x9F else 0xBF) &&
               between 0x80 x2 0xBF
            then ((x0 - 0xE0) * 4096 + (x1 - 0x80) * 64 + (x2 - 0x80), 3%nat) else (RuneError, 1%nat)
        | _ => (RuneError, 1%nat)
        end
      else if between 0xF0 x0 0xF4 then
        match t with
        | x1 :: x2 :: x3 :: _ =>
            if between (if x0 =? 0xF0 then 0x90 else 0x80) x1 (if x0 =? 0xF4 then 0x8F else 0xBF) &&
               between 0x80 x2 0xBF && between 0x80 x3 0xBF
            then ((x0 - 0xF0) * 262144 + (x1 - 0x80) * 4096 + (x2 - 0x80) * 64 + (x3 - 0x80), 4%nat)
            else (RuneError, 1%nat)
        | _ => (RuneError, 1%nat)
        end
      else (RuneError, 1%nat)
  end.

(** [utf8.EncodeRune] of a valid rune *)
Definition EncodeRune (r : N) : bytes :=
  byte_of_N <$>
  if r <? 0x80 then [r]
  else if r <? 0x800 then [0xC0 + r / 64; 0x80 + r mod 64]
  else if r <? 0x10000 then [0xE0 + r / 4096; 0x80 + r / 64 mod 64; 0x80 + r mod 64]
  else [0xF0 + r / 262144; 0x80 + r / 4096 mod 64; 0x80 + r / 64 mod 64; 0x80 + r mod 64].

(** [k] lower-case hexadecimal digits *)
Definition hexdigit (n : N) : byte := nth (N.to_nat n) (str "0123456789abcdef") x30.
Fixpoint hex (k : nat) (n : N) : bytes :=
  match k with O => [] | S k => hexdigit (n / 16 ^ N.of_nat k mod 16) :: hex k n end.

Section Quote.
Context (UnicodeIsPrint : N → bool).

(** [strconv.IsPrint] *)
Definition IsPrint (r : N) : bool :=
  if r <? 0x80 then between 0x20 r 0x7E else UnicodeIsPrint r.

(** The escapes of one letter. *)
Definition letterEscape (r : N) : option byte :=
  match r with
  | 7 => Some x61 | 8 => Some x62 | 12 => Some x66 | 10 => Some x6e
  | 13 => Some x72 | 9 => Some x74 | 11 => Some x76
  | _ => None
  end.

(** [appendEscapedRune] for a double-quoted string *)
Definition escapedRune (r : N) : bytes :=
  if (r =? 0x22) || (r =? 0x5C) then [x5c; byte_of_N r]
  else if IsPrint r then EncodeRune r
  else match letterEscape r with
       | Some c => [x5c; c]
       | None =>
           if (r <? 0x20) || (r =? 0x7F) then str "\x" ++ hex 2 r
           else if r <? 0x10000 then str "\u" ++ hex 4 r
           else str "\U" ++ hex 8 r
       end.

(** [appendQuotedWith]: the loop; [skip] bytes belong to the last rune. *)
Fixpoint quoteLoop (skip : nat) (s : bytes) : bytes :=
  match s with
  | [] => []
  | b :: s' =>
      match skip with
      | S skip => quoteLoop skip s'
      | O =>
          let '(r, width) := DecodeRuneInString s in
          (if (width =? 1)%nat && (r =? RuneError) then str "\x" ++ hex 2 (Byte.to_N b) else escapedRune r) ++
          quoteLoop (pred width) s'
      end
  end.

Definition Quote (s : bytes) : bytes := x22 :: quoteLoop 0 s ++ [x22].

(** ** [Stringify] *)

Definition maxStringWidth : nat := 256.

(** [func shortString(str string, max int) string] *)
Definition shortString (s : bytes) (max : nat) : bytes :=
  if (0 <? max)%nat && (max <? length s)%nat then take (max - 1) s ++ str "..." else s.

(** [func vcCertString(vcCert \[\]ReqViewChange) string] *)
Definition vcCertString (vcCert : ViewChangeCert) : bytes :=
  str "<quorum=" ++ fmt_v_slice (rvc_ReplicaID <$> vcCert) ++ str ">".

(** The map [nvCertString] builds: a later ViewChange of a replica replaces an earlier
    one. *)
Definition nvQuorum (nvCert : NewViewCert) : gmap N N :=
  foldl (λ q vc, <[vc_ReplicaID vc := vc_Counter vc]> q) ∅ nvCert.

(** [func nvCertString(nvCert \[\]ViewChange) string] *)
Definition nvCertString (nvCert : NewViewCert) : bytes :=
  str "<quorum=" ++ fmt_v_map (nvQuorum nvCert) ++ str ">".

(** [func Stringify(msg Message) string]: the certified messages, ... *)
Fixpoint stringifyCertified (m : CertifiedMessage) : bytes :=
  match m with
  | CM_Prepare p =>
      let req := prep_Request p in
      str "<PREPARE cv=" ++ fmt_d (Counter (prep_UI p)) ++ str " replica=" ++ fmt_d (prep_ReplicaID p) ++
      str " view=" ++ fmt_d (prep_View p) ++ str " client=" ++ fmt_d (req_ClientID req) ++
      str " seq=" ++ fmt_d (req_Sequence req) ++ str ">"
  | CM_Commit (MkCommit r proposal ui) =>
      str "<COMMIT cv=" ++ fmt_d (Counter ui) ++ str " replica=" ++ fmt_d r ++
      str " proposal=" ++ stringifyCertified proposal ++ str ">"
  | CM_ViewChange (MkViewChange r newView _ vcCert ui) =>
      str "<VIEW-CHANGE cv=" ++ fmt_d (Counter ui) ++ str " replica=" ++ fmt_d r ++
      str " newView=" ++ fmt_d newView ++ str " vcCert=" ++ vcCertString vcCert ++ str ">"
  | CM_NewView (MkNewView r newView nvCert ui) =>
      str "<NEW-VIEW cv=" ++ fmt_d (Counter ui) ++ str " replica=" ++ fmt_d r ++
      str " newView=" ++ fmt_d newView ++ str " nvCert=" ++ nvCertString nvCert ++ str ">"
  end.

(** ... and all messages; no message takes the default branch. *)
Definition Stringify (msg : Message) : bytes :=
  match msg with
  | Msg_Hello r => str "<HELLO replica=" ++ fmt_d r ++ str ">"
  | Msg_Request req =>
      str "<REQUEST client=" ++ fmt_d (req_ClientID req) ++ str " seq=" ++ fmt_d (req_Sequence req) ++
      str " operation=" ++ Quote (shortString (req_Operation req) maxStringWidth) ++ str ">"
  | Msg_Reply rep =>
      str "<REPLY replica=" ++ fmt_d (rep_ReplicaID rep) ++ str " seq=" ++ fmt_d (rep_Sequence rep) ++
      str " result=" ++ Quote (shortString (rep_Result rep) maxStringWidth) ++ str ">"
  | Msg_ReqViewChange rvc =>
      str "<REQ-VIEW-CHANGE replica=" ++ fmt_d (rvc_ReplicaID rvc) ++
      str " newView=" ++ fmt_d (rvc_NewView rvc) ++ str ">"
  | Msg_Certified m => stringifyCertified m
  end.
End Quote.

(** ** Reading numbers and lists back

    A printer is self-delimiting when what follows it does not change how it is read:
    the value and the rest are determined by the whole text. *)

Definition isDigit (b : byte) : bool := between 0x30 (Byte.to_N b) 0x39.

Lemma digits_isDigit u : Forall isDigit (digits u).
Proof. induction u; simpl; constructor; done. Qed.

Lemma digits_inj u v : digits u = digits v → u = v.
Proof. revert v. induction u; intros []; simpl; try done; intros [= E]; f_equal; auto. Qed.

Lemma to_uint_inj n m : N.to_uint n = N.to_uint m → n = m.
Proof. intros E. rewrite <- (DecimalN.Unsigned.of_to n), E. apply DecimalN.Unsigned.of_to. Qed.

Lemma fmt_d_cons n : ∃ b t, fmt_d n = b :: t ∧ isDigit b = true.
Proof.
  pose proof (digits_isDigit (N.to_uint n)) as H. unfold fmt_d. destruct (digits (N.to_uint n)) as [|b t] eqn:E.
  - destruct (N.to_uint n) eqn:En; try done. destruct n as [|p]; [done|].
    pose proof (DecimalN.Unsigned.of_to (N.pos p)) as Ho. by rewrite En in Ho.
  - apply Forall_cons in H as [H _]. exists b, t. split; [done|]. by destruct (isDigit b).
Qed.

(** What may follow a number. *)
Definition stops (x : bytes) : Prop := match x with b :: _ => isDigit b = false | [] => True end.

Definition delimited {A} (p : A → bytes) : Prop :=
  ∀ a a' x x', stops x → stops x' → p a ++ x = p a' ++ x' → a = a' ∧ x = x'.

Lemma digits_app (l l' x x' : bytes) :
  Forall isDigit l → Forall isDigit l' → stops x → stops x' → l ++ x = l' ++ x' → l = l' ∧ x = x'.
Proof.
  intros Hl. revert l'. induction Hl as [|b l Hb Hl IH]; intros [|b' l'] Hl' Hx Hx'; simpl; [done| | |].
  - intros ->. apply Forall_cons in Hl' as [Hb _]. simpl in Hx. by rewrite Hx in Hb.
  - intros <-. simpl in Hx'. by rewrite Hx' in Hb.
  - apply Forall_cons in Hl' as [_ Hl']. intros [= <- E]. by destruct (IH l' Hl' Hx Hx' E) as [-> ->].
Qed.

Lemma fmt_d_delimited : delimited fmt_d.
Proof.
  intros n m x x' Hx Hx' E. apply digits_app in E as [E ->]; [|apply digits_isDigit..|done|done].
  by apply digits_inj, to_uint_inj in E.
Qed.

Lemma fmt_d_inj n m x x' :
  stops x → stops x' → fmt_d n ++ x = fmt_d m ++ x' → n = m ∧ x = x'.
Proof. apply fmt_d_delimited. Qed.

Lemma fmt_entry_delimited : delimited fmt_entry.
Proof.
  intros [k v] [k' v'] x x' Hx Hx'. unfold fmt_entry. simpl. rewrite <- !app_assoc. simpl.
  intros [-> [= E]]%fmt_d_inj; [|done..]. apply fmt_d_inj in E as [-> ->]; done.
Qed.

Lemma fmt_entry_cons e : ∃ b t, fmt_entry e = b :: t ∧ isDigit b = true.
Proof.
  unfold fmt_entry. destruct (fmt_d_cons e.1) as (b & t & -> & Hb). simpl. eauto.
Qed.

(** A list in brackets determines its items and what follows it. *)
Lemma join_inj {A} (p : A → bytes) (l l' : list A) x x' :
  delimited p → (∀ a, ∃ b t, p a = b :: t ∧ isDigit b = true) →
  join (p <$> l) ++ x5d :: x = join (p <$> l') ++ x5d :: x' → l = l' ∧ x = x'.
Proof.
  intros Hp Hc. revert l'. induction l as [|a l IH]; intros [|a' l']; simpl.
  - by intros [= ->].
  - intros E. exfalso. destruct (Hc a') as (b & t & Hb & Hd). rewrite Hb in E.
    destruct l'; simpl in E; by injection E as <- _.
  - intros E. exfalso. destruct (Hc a) as (b & t & Hb & Hd). rewrite Hb in E. destruct l; simpl in E; by injection E as -> _.
  - destruct l as [|a2 l], l' as [|a2' l'].
    + simpl. by intros [-> [= ->]]%Hp.
    + simpl. rewrite <- app_assoc. simpl. by intros [_ ?]%Hp.
    + simpl. rewrite <- app_assoc. simpl. by intros [_ ?]%Hp.
    + intros E. assert (p a ++ x20 :: (join (p <$> a2 :: l) ++ x5d :: x) =
                        p a' ++ x20 :: (join (p <$> a2' :: l') ++ x5d :: x')) as E'
        by (simpl in *; by rewrite <- !app_assoc in E).
      apply Hp in E' as [-> [= E']]; [|done..]. by destruct (IH (a2' :: l') E') as [-> ->].
Qed.

Lemma fmt_v_slice_inj l l' x x' : fmt_v_slice l ++ x = fmt_v_slice l' ++ x' → l = l' ∧ x = x'.
Proof.
  unfold fmt_v_slice. simpl. rewrite <- !app_assoc. intros [= E].
  by apply (join_inj fmt_d); [apply fmt_d_delimited|apply fmt_d_cons|].
Qed.

Lemma fmt_v_map_inj q q' x x' : fmt_v_map q ++ x = fmt_v_map q' ++ x' → q = q' ∧ x = x'.
Proof.
  unfold fmt_v_map. rewrite <- !app_assoc. intros E%app_inv_head.
  apply (join_inj fmt_entry) in E as [E ->]; [|apply fmt_entry_delimited|apply fmt_entry_cons].
  split; [|done]. apply map_to_list_inj.
  by rewrite <- (merge_sort_Permutation byKey (map_to_list q)), E, merge_sort_Permutation.
Qed.

(** ** Reading quoted strings back *)

Definition validRune (r : N) : bool := (r <? 0xD800) || between 0xE000 r 0x10FFFF.

Lemma encode_byte n b : n = Byte.to_N b → byte_of_N n = b.
Proof. intros ->. apply byte_of_N_to_N. Qed.

(** The next test of the decoder. *)
Local Ltac split_if E :=
  match goal with |- context [if ?c then _ else _] => destruct c eqn:E end; cbv beta iota zeta.

Lemma DecodeRune_spec b s :
  let '(r, w) := DecodeRuneInString (b :: s) in
  (r = RuneError ∧ w = 1%nat ∧ 0x80 ≤ Byte.to_N b) ∨
  (validRune r = true ∧ take w (b :: s) = EncodeRune r ∧ (w = 1%nat → r < 0x80) ∧ (1 ≤ w)%nat).
Proof.
  unfold DecodeRuneInString, EncodeRune, between. pose proof (to_N_lt b) as Hb. simpl.
  destruct (N.ltb_spec (Byte.to_N b) 0x80) as [H0|H0].
  { right. simpl. destruct (N.ltb_spec (Byte.to_N b) 0x80); [|lia]. simpl. rewrite byte_of_N_to_N.
    split_and!; [unfold validRune; lia|by rewrite take_0|done|lia]. }
  split_if E2.
  { destruct s as [|b1 s]; simpl; [by auto|]. split_if E1; [|by auto]. right.
    pose proof (to_N_lt b1).
    destruct (N.ltb_spec ((Byte.to_N b - 192) * 64 + (Byte.to_N b1 - 128)) 0x80); [lia|].
    destruct (N.ltb_spec ((Byte.to_N b - 192) * 64 + (Byte.to_N b1 - 128)) 0x800); [|lia].
    split_and!; [unfold validRune, between; lia| |done|lia].
    simpl. rewrite take_0. f_equal; [|f_equal]; symmetry; apply encode_byte; lia. }
  split_if E3.
  { destruct s as [|b1 [|b2 s]]; simpl; [by auto..|]. split_if E1; [|by auto]. right.
    pose proof (to_N_lt b1). pose proof (to_N_lt b2).
    set (r := (_ - 224) * 4096 + _ * 64 + _).
    assert (0x800 ≤ r < 0x10000 ∧ validRune r = true) as [Hr Hv].
    { unfold validRune, between. destruct (N.eqb_spec (Byte.to_N b) 0xE0), (N.eqb_spec (Byte.to_N b) 0xED); lia. }
    destruct (N.ltb_spec r 0x80); [lia|]. destruct (N.ltb_spec r 0x800); [lia|].
    destruct (N.ltb_spec r 0x10000); [|lia].
    split_and!; [done| |done|lia].
    assert (0x80 ≤ Byte.to_N b1 ≤ 0xBF) by (destruct (Byte.to_N b =? 0xE0), (Byte.to_N b =? 0xED); lia).
    simpl. rewrite take_0. f_equal; [|f_equal; [|f_equal]]; symmetry; apply encode_byte; lia. }
  split_if E4; [|by auto].
  destruct s as [|b1 [|b2 [|b3 s]]]; simpl; [by auto..|]. split_if E1; [|by auto]. right.
  pose proof (to_N_lt b1). pose proof (to_N_lt b2). pose proof (to_N_lt b3).
  set (r := (_ - 240) * 262144 + _ * 4096 + _ * 64 + _).
  assert (0x10000 ≤ r ≤ 0x10FFFF ∧ 0x80 ≤ Byte.to_N b1 ≤ 0xBF) as [Hr Hb1].
  { destruct (N.eqb_spec (Byte.to_N b) 0xF0), (N.eqb_spec (Byte.to_N b) 0xF4); lia. }
  destruct (N.ltb_spec r 0x80); [lia|]. destruct (N.ltb_spec r 0x800); [lia|].
  destruct (N.ltb_spec r 0x10000); [lia|].
  split_and!; [unfold validRune, between; lia| |done|lia].
  simpl. rewrite take_0. f_equal; [|f_equal; [|f_equal; [|f_equal]]]; symmetry; apply encode_byte; lia.
Qed.

Lemma between_true a x b : a ≤ x ≤ b → between a x b = true.
Proof. unfold between. lia. Qed.
Lemma between_false a x b : x < a ∨ b < x → between a x b = false.
Proof. unfold between. lia. Qed.

Lemma DecodeRune_EncodeRune r x :
  validRune r = true → DecodeRuneInString (EncodeRune r ++ x) = (r, length (EncodeRune r)).
Proof.
  unfold validRune, between. intros Hv. unfold EncodeRune.
  destruct (N.ltb_spec r 0x80); [|destruct (N.ltb_spec r 0x800); [|destruct (N.ltb_spec r 0x10000)]]; simpl;
    unfold DecodeRuneInString; simpl; rewrite !to_N_byte_of_N.
  - rewrite N.mod_small by lia. by destruct (N.ltb_spec r 0x80); [|lia].
  - rewrite !N.mod_small by lia. destruct (N.ltb_spec (192 + r `div` 64) 128); [lia|].
    rewrite !between_true by lia. f_equal. lia.
  - rewrite (N.mod_small (224 + _)), (N.mod_small (128 + (_ `div` 64) `mod` _)), (N.mod_small (128 + _ `mod` _)) by lia.
    destruct (N.ltb_spec (224 + r `div` 4096) 128); [lia|].
    rewrite between_false, between_true by lia.
    rewrite (between_true 128 (128 + r `mod` 64)) by lia. rewrite between_true; [simpl; f_equal; lia|].
    destruct (N.eqb_spec (224 + r `div` 4096) 0xE0), (N.eqb_spec (224 + r `div` 4096) 0xED); lia.
  - rewrite (N.mod_small (240 + _)), (N.mod_small (128 + (_ `div` 64) `mod` _)),
      (N.mod_small (128 + (_ `div` 4096) `mod` _)), (N.mod_small (128 + _ `mod` _)) by lia.
    destruct (N.ltb_spec (240 + r `div` 262144) 128); [lia|].
    rewrite between_false, between_false, between_true by lia.
    rewrite (between_true 128 (128 + r `mod` 64)), (between_true 128 (128 + _ `mod` 64)) by lia.
    rewrite between_true; [simpl; f_equal; lia|].
    destruct (N.eqb_spec (240 + r `div` 262144) 0xF0), (N.eqb_spec (240 + r `div` 262144) 0xF4); lia.
Qed.

Lemma Encode_prefix_free r r' x x' :
  validRune r = true → validRune r' = true → EncodeRune r ++ x = EncodeRune r' ++ x' → r = r' ∧ x = x'.
Proof.
  intros Hr Hr' E. pose proof (DecodeRune_EncodeRune r x Hr) as D. rewrite E, DecodeRune_EncodeRune in D by done.
  injection D as -> _. by apply app_inv_head in E.
Qed.

Lemma Encode_head r : validRune r = true → 0x80 ≤ r → ∃ b t, EncodeRune r = b :: t ∧ 0x80 ≤ Byte.to_N b.
Proof.
  unfold validRune, between. intros Hv Hr. unfold EncodeRune.
  destruct (N.ltb_spec r 0x80); [lia|]. destruct (N.ltb_spec r 0x800); [|destruct (N.ltb_spec r 0x10000)]; simpl;
    eexists _, _; (split; [reflexivity|]); rewrite to_N_byte_of_N, N.mod_small by lia; lia.
Qed.

Lemma hex_length k n : length (hex k n) = k.
Proof. induction k; simpl; auto. Qed.

(** Hexadecimal digits are read back as in [strconv.UnquoteChar]. *)
Definition unhex (b : byte) : option N :=
  let x := Byte.to_N b in
  if between 0x30 x 0x39 then Some (x - 0x30)
  else if between 0x61 x 0x66 then Some (x - 0x61 + 10)
  else if between 0x41 x 0x46 then Some (x - 0x41 + 10) else None.

Fixpoint readHex (k : nat) (acc : N) (s : bytes) : option (N * bytes) :=
  match k, s with
  | O, _ => Some (acc, s)
  | S k, b :: s => x ← unhex b; readHex k (acc * 16 + x) s
  | S _, [] => None
  end.

Lemma unhex_hexdigit n : n < 16 → unhex (hexdigit n) = Some n.
Proof.
  intros Hn. assert (Forall (λ n, unhex (hexdigit n) = Some n) (N.of_nat <$> seq 0 16)) as Hall
    by (by repeat constructor).
  rewrite Forall_forall in Hall. apply Hall, list_elem_of_fmap. exists (N.to_nat n).
  split; [lia|]. apply elem_of_seq. lia.
Qed.

Lemma readHex_hex k acc n x :
  readHex k acc (hex k n ++ x) = Some (acc * 16 ^ N.of_nat k + n mod 16 ^ N.of_nat k, x).
Proof.
  revert acc. induction k as [|k IH]; intros acc; simpl hex; simpl readHex.
  { rewrite N.mod_1_r, N.mul_1_r, N.add_0_r. done. }
  rewrite unhex_hexdigit by (by apply N.mod_lt). simpl. rewrite IH. do 2 f_equal.
  rewrite Nat2N.inj_succ, N.pow_succ_r'. rewrite (N.mul_comm 16 (16 ^ _)), N.Div0.mod_mul_r. lia.
Qed.

(** One round of the loop: the bytes it takes and the bytes it appends. *)
Definition letters : list (byte * byte) :=
  [(x22, x22); (x5c, x5c); (x07, x61); (x08, x62); (x0c, x66); (x0a, x6e); (x0d, x72); (x09, x74); (x0b, x76)].

Inductive coded : bytes → bytes → Prop :=
| coded_plain b : Byte.to_N b < 0x80 → b ≠ x22 → b ≠ x5c → coded [b] [b]
| coded_rune r : validRune r = true → 0x80 ≤ r → coded (EncodeRune r) (EncodeRune r)
| coded_letter b c : (b, c) ∈ letters → coded [b] [x5c; c]
| coded_x b : coded [b] (x5c :: x78 :: hex 2 (Byte.to_N b))
| coded_u r : validRune r = true → 0x80 ≤ r < 0x10000 → coded (EncodeRune r) (x5c :: x75 :: hex 4 r)
| coded_U r : validRune r = true → 0x10000 ≤ r → coded (EncodeRune r) (x5c :: x55 :: hex 8 r).

(** [strconv.UnquoteChar]: the bytes that the first character or escape stands for and
    the rest. *)
Definition UnquoteChar (s : bytes) : option (bytes * bytes) :=
  match s with
  | [] => None
  | b :: t =>
      if bool_decide (b = x5c) then
        match t with
        | [] => None
        | c :: t =>
            if bool_decide (c = x78) then '(v, t) ← readHex 2 0 t; Some ([byte_of_N v], t)
            else if bool_decide (c = x75) then '(v, t) ← readHex 4 0 t; Some (EncodeRune v, t)
            else if bool_decide (c = x55) then '(v, t) ← readHex 8 0 t; Some (EncodeRune v, t)
            else e ← find (λ e, bool_decide (e.2 = c)) letters; Some ([e.1], t)
        end
      else let '(_, w) := DecodeRuneInString s in Some (take w s, drop w s)
  end.

Lemma coded_cons s c : coded s c → ∃ b t, c = b :: t ∧ b ≠ x22.
Proof.
  intros [b ? ? ?|r Hv Hr| | | |]; try by eauto.
  destruct (Encode_head r Hv Hr) as (b & t & -> & Hb). exists b, t. split; [done|]. intros ->. by compute in Hb.
Qed.

Lemma UnquoteChar_coded s c x : coded s c → UnquoteChar (c ++ x) = Some (s, x).
Proof.
  intros [b Hb H1 H2|r Hv Hr|b c' Hl|b|r Hv Hr|r Hv Hr].
  - simpl. rewrite bool_decide_false by done. unfold DecodeRuneInString. simpl.
    destruct (N.ltb_spec (Byte.to_N b) 0x80); [|lia]. simpl. by rewrite take_0, drop_0.
  - pose proof (DecodeRune_EncodeRune r x Hv) as D. destruct (Encode_head r Hv Hr) as (b & t & E & Hb).
    unfold UnquoteChar. destruct (EncodeRune r ++ x) eqn:Ex; [by rewrite E in Ex|]. rewrite <- Ex in *.
    rewrite bool_decide_false by (rewrite E in Ex; simplify_eq/=; by intros ->). rewrite D.
    by rewrite take_app_length, drop_app_length.
  - unfold letters in Hl. by repeat (apply elem_of_cons in Hl as [E|Hl]; [by simplify_eq|]); apply elem_of_nil in Hl.
  - change (('(v, t) ← readHex 2 0 (hex 2 (Byte.to_N b) ++ x); Some ([byte_of_N v], t)) = Some ([b], x)).
    rewrite readHex_hex, N.mul_0_l, N.add_0_l, N.mod_small by apply to_N_lt. simpl. by rewrite byte_of_N_to_N.
  - change (('(v, t) ← readHex 4 0 (hex 4 r ++ x); Some (EncodeRune v, t)) = Some (EncodeRune r, x)).
    rewrite readHex_hex, N.mul_0_l, N.add_0_l, N.mod_small; [done|apply Hr].
  - change (('(v, t) ← readHex 8 0 (hex 8 r ++ x); Some (EncodeRune v, t)) = Some (EncodeRune r, x)).
    rewrite readHex_hex, N.mul_0_l, N.add_0_l, N.mod_small; [done|].
    unfold validRune, between in Hv. change (16 ^ N.of_nat 8) with 0x100000000. lia.
Qed.

Lemma coded_inj s c s' c' x x' : coded s c → coded s' c' → c ++ x = c' ++ x' → s = s' ∧ x = x'.
Proof.
  intros H H' E. apply (UnquoteChar_coded _ _ x) in H. apply (UnquoteChar_coded _ _ x') in H'.
  rewrite E, H' in H. by simplify_eq.
Qed.

Section Injective.
Context (UnicodeIsPrint : N → bool).

Lemma letterEscape_letters r c : letterEscape r = Some c → ∃ b, r = Byte.to_N b ∧ r < 0x80 ∧ (b, c) ∈ letters.
Proof.
  unfold letterEscape, letters. destruct r as [|p]; [done|].
  repeat match goal with q : positive |- _ => destruct q; try done end; intros [= <-];
    [exists x0b|exists x07|exists x0d|exists x09|exists x0a|exists x0c|exists x08]; set_solver.
Qed.

Lemma Encode_ascii b : Byte.to_N b < 0x80 → EncodeRune (Byte.to_N b) = [b].
Proof.
  intros Hb. unfold EncodeRune. destruct (N.ltb_spec (Byte.to_N b) 0x80); [|lia]. simpl. by rewrite byte_of_N_to_N.
Qed.

Lemma escapedRune_coded r : validRune r = true → coded (EncodeRune r) (escapedRune UnicodeIsPrint r).
Proof.
  intros Hv. unfold escapedRune.
  destruct (N.eqb_spec r 0x22) as [->|H1]; [by apply (coded_letter x22 x22); set_solver|].
  destruct (N.eqb_spec r 0x5C) as [->|H2]; [by apply (coded_letter x5c x5c); set_solver|].
  assert (r < 0x80 → ∃ b, r = Byte.to_N b) as Hb.
  { intros Hr. exists (byte_of_N r). rewrite to_N_byte_of_N. lia. }
  cbn [orb]. destruct (IsPrint UnicodeIsPrint r) eqn:Ei.
  { destruct (N.ltb_spec r 0x80) as [Hr|Hr]; [|by apply coded_rune].
    destruct (Hb Hr) as [b ->]. rewrite Encode_ascii by done. by apply coded_plain; [|intros ->..]. }
  destruct (letterEscape r) as [c|] eqn:E.
  { apply letterEscape_letters in E as (b & -> & Hr & Hl). rewrite Encode_ascii by done. by apply coded_letter. }
  destruct ((r <? 0x20) || (r =? 0x7F)) eqn:Ex.
  { destruct Hb as [b ->]; [lia|]. rewrite Encode_ascii by lia. apply coded_x. }
  assert (0x80 ≤ r) as Hr by (unfold IsPrint in *; destruct (N.ltb_spec r 0x80); unfold between in *; lia).
  destruct (N.ltb_spec r 0x10000); [by apply coded_u|by apply coded_U].
Qed.

Lemma quoteLoop_skip k s : quoteLoop UnicodeIsPrint k s = quoteLoop UnicodeIsPrint 0 (drop k s).
Proof. revert k. induction s as [|b s IH]; intros [|k]; simpl; done. Qed.

Lemma quoteLoop_step b s :
  ∃ s1 s2 c, b :: s = s1 ++ s2 ∧ s1 ≠ [] ∧ coded s1 c ∧
    quoteLoop UnicodeIsPrint 0 (b :: s) = c ++ quoteLoop UnicodeIsPrint 0 s2.
Proof.
  pose proof (DecodeRune_spec b s) as D. cbn [quoteLoop].
  destruct (DecodeRuneInString (b :: s)) as [r w]. rewrite quoteLoop_skip. destruct D as [(-> & -> & Hb)|(Hv & Ht & Hw & H1)].
  - exists [b], s, (x5c :: x78 :: hex 2 (Byte.to_N b)). split_and!; [done|done|by constructor|by rewrite drop_0].
  - exists (take w (b :: s)), (drop w (b :: s)), (escapedRune UnicodeIsPrint r). split_and!.
    + by rewrite take_drop.
    + by destruct w; [lia|].
    + rewrite Ht. by apply escapedRune_coded.
    + destruct w as [|w]; [lia|]. simpl. destruct ((w =? 0)%nat && (r =? RuneError)) eqn:E; [|done].
      exfalso. unfold RuneError in E. assert (w = O) as -> by lia. specialize (Hw eq_refl). lia.
Qed.

(** A quoted string determines the string and what follows it. *)
Lemma Quote_inj s s' x x' :
  Quote UnicodeIsPrint s ++ x = Quote UnicodeIsPrint s' ++ x' → s = s' ∧ x = x'.
Proof.
  unfold Quote. simpl. rewrite <- !app_assoc. simpl. intros [= E]. revert s' E.
  induction s as [s IH] using (induction_ltof1 _ length). unfold ltof in IH. intros s' E.
  destruct s as [|b s], s' as [|b' s'].
  - by injection E as ->.
  - destruct (quoteLoop_step b' s') as (s1 & s2 & c & _ & _ & Hc & Hq). rewrite Hq in E.
    destruct (coded_cons _ _ Hc) as (y & t & -> & Hy). by simplify_eq/=.
  - destruct (quoteLoop_step b s) as (s1 & s2 & c & _ & _ & Hc & Hq). rewrite Hq in E.
    destruct (coded_cons _ _ Hc) as (y & t & -> & Hy). by simplify_eq/=.
  - destruct (quoteLoop_step b s) as (s1 & s2 & c & Es & Hn & Hc & Hq).
    destruct (quoteLoop_step b' s') as (s1' & s2' & c' & Es' & Hn' & Hc' & Hq').
    rewrite Hq, Hq', <- !app_assoc in E. destruct (coded_inj _ _ _ _ _ _ Hc Hc' E) as [-> E'].
    rewrite Es, Es'. apply IH in E' as [-> ->]; [done|]. rewrite Es, length_app. destruct s1'; [done|simpl; lia].
Qed.

(** ** What the text shows of a message *)

(** Of an operation or a result of at most 256 bytes all is shown; of a longer one that it is
    longer, and its first 255 bytes. *)
Inductive shownBytes := Whole (s : bytes) | Beginning (s : bytes).

Definition visible (s : bytes) : shownBytes :=
  if decide (256 < length s)%nat then Beginning (take 255 s) else Whole s.

Inductive shown :=
| ShownHello (replica : N)
| ShownRequest (client seq : N) (operation : shownBytes)
| ShownReply (replica seq : N) (result : shownBytes)
| ShownPrepare (cv replica view client seq : N)
| ShownCommit (cv replica : N) (proposal : shown)
| ShownReqViewChange (replica newView : N)
| ShownViewChange (cv replica newView : N) (quorum : list N)
| ShownNewView (cv replica newView : N) (quorum : gmap N N).

(** The last ViewChange of each replica in a certificate, by its counter. *)
Definition lastCounters (cert : NewViewCert) : gmap N N :=
  list_to_map (reverse ((λ vc, (vc_ReplicaID vc, vc_Counter vc)) <$> cert)).

Lemma nvQuorum_last cert : nvQuorum cert = lastCounters cert.
Proof.
  unfold nvQuorum, lastCounters. induction cert as [|vc cert IH] using rev_ind; [done|].
  rewrite foldl_snoc, IH, fmap_app, fmap_cons, fmap_nil. by rewrite reverse_snoc.
Qed.

Fixpoint showsCertified (m : CertifiedMessage) : shown :=
  match m with
  | CM_Prepare p =>
      ShownPrepare (Counter (prep_UI p)) (prep_ReplicaID p) (prep_View p)
        (req_ClientID (prep_Request p)) (req_Sequence (prep_Request p))
  | CM_Commit (MkCommit r proposal ui) => ShownCommit (Counter ui) r (showsCertified proposal)
  | CM_ViewChange (MkViewChange r v _ cert ui) => ShownViewChange (Counter ui) r v (rvc_ReplicaID <$> cert)
  | CM_NewView (MkNewView r v cert ui) => ShownNewView (Counter ui) r v (lastCounters cert)
  end.

Definition shows (msg : Message) : shown :=
  match msg with
  | Msg_Hello r => ShownHello r
  | Msg_Request req =>
      ShownRequest (req_ClientID req) (req_Sequence req) (visible (req_Operation req))
  | Msg_Reply rep =>
      ShownReply (rep_ReplicaID rep) (rep_Sequence rep) (visible (rep_Result rep))
  | Msg_ReqViewChange rvc => ShownReqViewChange (rvc_ReplicaID rvc) (rvc_NewView rvc)
  | Msg_Certified m => showsCertified m
  end.

Lemma shortString_length s max :
  (0 < max)%nat → length (shortString s max) = if decide (length s ≤ max)%nat then length s else (max + 2)%nat.
Proof.
  intros Hm. unfold shortString. destruct (Nat.ltb_spec 0 max); [|lia].
  destruct (Nat.ltb_spec max (length s)); simpl; case_decide; try lia.
  rewrite length_app, length_take. simpl. lia.
Qed.

(** Shortened strings are the same exactly when what is visible of the strings is: a cut one
    is longer than any that is left whole. *)
Lemma shortString_visible s s' :
  shortString s maxStringWidth = shortString s' maxStringWidth ↔ visible s = visible s'.
Proof.
  pose proof (shortString_length s maxStringWidth) as Hl.
  pose proof (shortString_length s' maxStringWidth) as Hl'.
  unfold shortString, visible, maxStringWidth in *. change (0 <? 256)%nat with true in *. cbn [andb] in *.
  destruct (Nat.ltb_spec 256 (length s)), (Nat.ltb_spec 256 (length s')); repeat case_decide; try lia.
  - change (256 - 1)%nat with 255%nat. split; [by intros ->%app_inv_tail|by intros [= ->]].
  - split; [intros E; rewrite E in Hl; lia|done].
  - split; [intros E; rewrite <- E in Hl'; lia|done].
  - split; [by intros ->|by intros [= ->]].
Qed.

(** Read literals, numbers and certificates off both sides of an equation. *)
Local Ltac read_text E :=
  rewrite <- ?app_assoc in E;
  repeat first
    [ apply app_inv_head in E
    | apply fmt_d_inj in E as [-> E]; [|done|done]
    | apply Quote_inj in E as [->%shortString_visible E]
    | apply fmt_v_slice_inj in E as [-> E]
    | apply fmt_v_map_inj in E as [-> E] ].

Lemma stringifyCertified_inj m m' x x' :
  stringifyCertified m ++ x = stringifyCertified m' ++ x' → showsCertified m = showsCertified m' ∧ x = x'.
Proof.
  revert m' x x'. induction m as [[r v req ui]|r prop ui IH|r v log cert ui _|r v cert ui _] using CM_ind;
    intros [[r' v' req' ui']|[r' prop' ui']|[r' v' log' cert' ui']|[r' v' cert' ui']] x x' E; try done;
    cbn [stringifyCertified showsCertified prep_UI prep_ReplicaID prep_View prep_Request] in *.
  - read_text E. done.
  - read_text E. apply IH in E as [-> E]. by read_text E.
  - unfold vcCertString in E. read_text E. done.
  - unfold nvCertString in E. rewrite !nvQuorum_last in E. read_text E. done.
Qed.

Lemma stringifyCertified_shows m m' :
  showsCertified m = showsCertified m' → stringifyCertified m = stringifyCertified m'.
Proof.
  revert m'. induction m as [[r v req ui]|r prop ui IH|r v log cert ui _|r v cert ui _] using CM_ind;
    intros [[r' v' req' ui']|[r' prop' ui']|[r' v' log' cert' ui']|[r' v' cert' ui']]; simpl; try done.
  - by intros [= -> -> -> -> ->].
  - by intros [= -> -> ->%IH].
  - unfold vcCertString. by intros [= -> -> -> ->].
  - unfold nvCertString. rewrite !nvQuorum_last. by intros [= -> -> -> ->].
Qed.

(** ** How long the text is *)

Lemma coded_length s c : coded s c → (length c ≤ 4 * length s)%nat.
Proof.
  intros [b| r| | |r Hv Hr|r Hv Hr]; simpl; try lia; unfold EncodeRune.
  - destruct (N.ltb_spec r 0x80); [lia|]. destruct (N.ltb_spec r 0x800); [|destruct (N.ltb_spec r 0x10000)]; simpl; lia.
  - destruct (N.ltb_spec r 0x80); [lia|]. destruct (N.ltb_spec r 0x800); [lia|].
    destruct (N.ltb_spec r 0x10000); [lia|]. simpl. lia.
Qed.

Lemma Quote_length s : (length (Quote UnicodeIsPrint s) ≤ 4 * length s + 2)%nat.
Proof.
  unfold Quote. simpl. rewrite length_app. simpl.
  enough (length (quoteLoop UnicodeIsPrint 0 s) ≤ 4 * length s)%nat by lia.
  induction s as [s IH] using (induction_ltof1 _ length). unfold ltof in IH. destruct s as [|b s]; [done|].
  destruct (quoteLoop_step b s) as (s1 & s2 & c & Es & Hn & Hc & ->).
  apply coded_length in Hc. rewrite Es, !length_app.
  assert (length s2 < length (b :: s))%nat as Hl by (rewrite Es, length_app; destruct s1; [done|simpl; lia]).
  specialize (IH s2 Hl). lia.
Qed.

Lemma of_uint_acc_length u acc : N.pos acc * 10 ^ N.of_nat (length (digits u)) ≤ N.pos (Pos.of_uint_acc u acc).
Proof.
  revert acc. induction u as [|u IH|u IH|u IH|u IH|u IH|u IH|u IH|u IH|u IH|u IH]; intros acc;
    cbn [digits length Pos.of_uint_acc]; [lia|..]; rewrite Nat2N.inj_succ, N.pow_succ_r';
    (etransitivity; [|apply IH]); nia.
Qed.

Lemma unorm_leading_zero u v : Decimal.unorm u = Decimal.D0 v → v = Decimal.Nil.
Proof.
  assert (∀ v', Decimal.nzhead u ≠ Decimal.D0 v') as H by (induction u; simpl; auto).
  unfold Decimal.unorm. destruct (Decimal.nzhead u); try done; [by intros [= <-]|]. by edestruct H.
Qed.

(** A number below [10 ^ k] has at most [k] digits. *)
Lemma fmt_d_length n k : 0 < k → n < 10 ^ k → N.of_nat (length (fmt_d n)) ≤ k.
Proof.
  intros Hk Hn. unfold fmt_d.
  assert (Decimal.unorm (N.to_uint n) = N.to_uint n) as Hu
    by (by rewrite <- DecimalN.Unsigned.to_of, DecimalN.Unsigned.of_to).
  assert (∀ d u, N.of_uint (N.to_uint n) = N.pos (Pos.of_uint_acc u d) →
    N.succ (N.of_nat (length (digits u))) ≤ k) as Hd.
  { intros d u E. rewrite DecimalN.Unsigned.of_to in E. pose proof (of_uint_acc_length u d) as H. rewrite <- E in H.
    apply N.le_succ_l, (N.pow_lt_mono_r_iff 10); [lia|]. nia. }
  destruct (N.to_uint n) as [|u|u|u|u|u|u|u|u|u|u] eqn:En; cbn [digits length]; rewrite ?Nat2N.inj_succ;
    try (by eapply Hd); [lia|].
  apply unorm_leading_zero in Hu as ->. simpl. lia.
Qed.

(** C35: the text of a message shows exactly these things: of a Hello the replica; of a Request
    the client, the sequence number and the operation, of a Reply the replica, the sequence
    number and the result, but not the client (an operation or a result of more than 256
    bytes is cut, and only its first 255 bytes and the fact that it was cut are shown); of a
    ReqViewChange the replica and the view; of a certified message its UI counter and
    replica, and of a Prepare also the view and the client and sequence number of its
    Request, of a Commit the same of its proposal, of a ViewChange the view and the senders
    in its certificate in their order, of a NewView the view and the sender and counter of
    each ViewChange (the last one of a sender).  Two messages have the same text if and only
    if they are of the same type and agree on these, whichever runes are printable. *)
Theorem stringify_exact m m' :
  Stringify UnicodeIsPrint m = Stringify UnicodeIsPrint m' ↔ shows m = shows m'.
Proof.
  split.
  - destruct m as [r|req|rep|rvc|cm], m' as [r'|req'|rep'|rvc'|cm']; intros E; try done;
      try (by destruct cm as [|[]|[]|[]]); try (by destruct cm' as [|[]|[]|[]]);
      cbn [Stringify shows] in *; try (by read_text E).
    rewrite <- (app_nil_r (stringifyCertified cm)), <- (app_nil_r (stringifyCertified cm')) in E.
    by apply stringifyCertified_inj in E as [-> _].
  - destruct m as [r|req|rep|rvc|cm], m' as [r'|req'|rep'|rvc'|cm']; cbn [Stringify shows]; intros E; try done;
      try (by destruct cm as [|[]|[]|[]]); try (by destruct cm' as [|[]|[]|[]]);
      try (injection E as; rewrite <- ?shortString_visible in *;
           by repeat match goal with H : _ = _ |- _ => rewrite H; clear H end).
    by apply stringifyCertified_shows.
Qed.

(** The text of a Request or Reply has a fixed maximal length, whatever the size of
    the operation or result: the longer ones are cut, which leaves at most 258 bytes, and
    quoting turns a byte into at most four. *)
Theorem stringify_bounded m :
  msg_ok m = true →
  match m with
  | Msg_Request _ => (length (Stringify UnicodeIsPrint m) ≤ 1097)%nat
  | Msg_Reply _ => (length (Stringify UnicodeIsPrint m) ≤ 1093)%nat
  | _ => True
  end.
Proof.
  assert (∀ n, ok32 n = true → (length (fmt_d n) ≤ 10)%nat) as H32.
  { unfold ok32. intros n Hn. pose proof (fmt_d_length n 10). lia. }
  assert (∀ n, ok64 n = true → (length (fmt_d n) ≤ 20)%nat) as H64.
  { unfold ok64. intros n Hn. pose proof (fmt_d_length n 20). lia. }
  assert (∀ s, (length (Quote UnicodeIsPrint (shortString s maxStringWidth)) ≤ 1034)%nat) as Hq.
  { intros s. pose proof (Quote_length (shortString s maxStringWidth)) as H.
    rewrite shortString_length in H by (unfold maxStringWidth; lia).
    unfold maxStringWidth in *. case_decide; lia. }
  destruct m as [r|req|rep|rvc|cm]; try done; cbn [Stringify msg_ok]; unfold req_ok, rep_ok; intros Hok;
    rewrite !length_app.
  - apply andb_true_iff in Hok as [H1%H32 H2%H64]. specialize (Hq (req_Operation req)).
    generalize dependent (length (Quote UnicodeIsPrint (shortString (req_Operation req) maxStringWidth))).
    intros q Hq. simpl. lia.
  - rewrite !andb_true_iff in Hok. destruct Hok as [[H1%H32 _] H2%H64].
    specialize (Hq (rep_Result rep)).
    generalize dependent (length (Quote UnicodeIsPrint (shortString (rep_Result rep) maxStringWidth))).
    intros q Hq. simpl. lia.
Qed.
End Injective.

(** ** Concrete messages *)

(** A Request with an operation of 300 bytes [0xff], each of which is quoted as four:
    the longest text but for the numbers. *)
Lemma stringify_bounded_witness :
  let m := Msg_Request (MkRequest 1 1 (repeat xff 300) []) in
  (length (Stringify (λ _, true) m) ≤ 1097)%nat ∧ length (Stringify (λ _, true) m) = 1060%nat.
Proof.
  split; [|by vm_compute].
  apply (stringify_bounded (λ _, true) (Msg_Request (MkRequest 1 1 (repeat xff 300) []))). reflexivity.
Defined.

End Stringify.
