(* ===== verification/ViewState.v ===== *)
(** [src/core/internal/viewstate/view-state.go]: the current and the expected
    view number, guarded by a read-write lock.

    [Module ViewState] has the methods as functions of the two numbers; the
    lock, which a caller keeps until it invokes the returned release function,
    is the step relation of [Section Locking]. *)

From S2P Require Import Prelude.

Module ViewState.

(** [type viewState struct] (without its lock) *)
Record viewState := MkViewState { currentView : N; expectedView : N }.

#[global] Instance viewState_eq_dec : EqDecision viewState.
Proof. solve_decision. Defined.

(** [func New() State] *)
Definition New : viewState := MkViewState 0 0.

(** [func (s *viewState) HoldView()] *)
Definition HoldView (s : viewState) : N * N := (currentView s, expectedView s).

(** [func (s *viewState) AdvanceExpectedView(view uint64)] *)
Definition AdvanceExpectedView (view : N) (s : viewState) : bool * viewState :=
  if expectedView s <? view then (true, MkViewState (currentView s) view)
  else (false, s).

(** [func (s *viewState) AdvanceCurrentView(view uint64)]: the second component
    is the expected view, 0 when the view is not advanced. *)
Definition AdvanceCurrentView (view : N) (s : viewState) : bool * N * viewState :=
  if currentView s <? view then (true, expectedView s, MkViewState view (expectedView s))
  else (false, 0, s).

(** Both numbers only grow. *)
Definition le (s s' : viewState) : Prop :=
  currentView s ≤ currentView s' ∧ expectedView s ≤ expectedView s'.

#[global] Instance le_preorder : PreOrder le.
Proof. split; unfold le; [intros ?|intros ???]; lia. Qed.

Lemma AdvanceExpectedView_spec view s :
  (AdvanceExpectedView view s).1 = (expectedView s <? view) ∧
  (AdvanceExpectedView view s).2 =
    MkViewState (currentView s) (N.max (expectedView s) view).
Proof.
  unfold AdvanceExpectedView. destruct s as [c e]; simpl.
  case_if; nbool; simpl; split; f_equal; lia.
Qed.

Lemma AdvanceCurrentView_spec view s :
  (AdvanceCurrentView view s).1.1 = (currentView s <? view) ∧
  (AdvanceCurrentView view s).2 =
    MkViewState (N.max (currentView s) view) (expectedView s).
Proof.
  unfold AdvanceCurrentView. destruct s as [c e]; simpl.
  case_if; nbool; simpl; split; f_equal; lia.
Qed.

Lemma AdvanceExpectedView_le view s : le s (AdvanceExpectedView view s).2.
Proof.
  destruct (AdvanceExpectedView_spec view s) as [_ ->]. unfold le; simpl; lia.
Qed.
Lemma AdvanceCurrentView_le view s : le s (AdvanceCurrentView view s).2.
Proof.
  destruct (AdvanceCurrentView_spec view s) as [_ ->]. unfold le; simpl; lia.
Qed.

(** ** The lock

    A goroutine that called [HoldView] holds the read lock, one whose
    [Advance...] call returned true holds the write lock, until it releases it.
    [held] records for each goroutine what the call returned to it. *)
Section Locking.

Record locked := MkLocked {
  view : viewState;
  readers : gmap N (N * N);        (* goroutine -> values HoldView returned *)
  writer : option (N * viewState)  (* goroutine, the state its call left *)
}.

Definition locked_init : locked := MkLocked New ∅ None.

Inductive lstep : locked → locked → Prop :=
| lstep_hold t v rs :
    rs !! t = None →
    lstep (MkLocked v rs None) (MkLocked v (<[t := HoldView v]> rs) None)
| lstep_advance_expected t n v :
    (AdvanceExpectedView n v).1 = true →
    lstep (MkLocked v ∅ None)
          (MkLocked (AdvanceExpectedView n v).2 ∅ (Some (t, (AdvanceExpectedView n v).2)))
| lstep_advance_current t n v :
    (AdvanceCurrentView n v).1.1 = true →
    lstep (MkLocked v ∅ None)
          (MkLocked (AdvanceCurrentView n v).2 ∅ (Some (t, (AdvanceCurrentView n v).2)))
| lstep_release_read t c e v rs w :
    rs !! t = Some (c, e) →
    lstep (MkLocked v rs w) (MkLocked v (delete t rs) w)
| lstep_release_write t v' v rs :
    lstep (MkLocked v rs (Some (t, v'))) (MkLocked v rs None).

Definition lock_inv (l : locked) : Prop :=
  (∀ t c e, readers l !! t = Some (c, e) → view l = MkViewState c e) ∧
  (∀ t v, writer l = Some (t, v) → view l = v ∧ readers l = ∅).

Lemma lock_inv_step l l' : lock_inv l → lstep l l' → lock_inv l'.
Proof.
  intros [Hr Hw] Hstep. destruct Hstep as [t v rs Hn|t n v Ha|t n v Ha|t c e v rs w Hl|t v' v rs];
    simpl in *; split; simpl; try done.
  - intros t' c e H. apply lookup_insert_Some in H as [[<- [= <- <-]]|[_ H]]; [by destruct v|eauto].
  - intros ??; naive_solver.
  - intros ??; naive_solver.
  - intros t' c' e' H. apply lookup_delete_Some in H as [_ H]. eauto.
  - intros t' v' ->. destruct (Hw t' v' eq_refl) as [? ->]. by rewrite lookup_empty in Hl.
Qed.

Lemma lock_inv_reachable l : rtc lstep locked_init l → lock_inv l.
Proof.
  intros H. eapply (rtc_ind_r lock_inv); [|intros; by eapply lock_inv_step|exact H].
  split; simpl; [|done]. intros t c e. by rewrite lookup_empty.
Qed.

Lemma lstep_view_le l l' : lstep l l' → le (view l) (view l').
Proof.
  destruct 1; simpl; auto using AdvanceExpectedView_le, AdvanceCurrentView_le; reflexivity.
Qed.
End Locking.

(** View numbers are stable while they are held.  In every reachable state
    of the lock, the values [HoldView] returned to a goroutine that has not
    released them are still the view state; a goroutine whose [Advance...]
    call succeeded sees the state it left and no other goroutine holds the
    view; and along any step neither number decreases. *)
Theorem held_view_is_current l l' :
  rtc lstep locked_init l → lstep l l' →
  le (view l) (view l') ∧
  (∀ t c e, readers l' !! t = Some (c, e) →
     currentView (view l') = c ∧ expectedView (view l') = e) ∧
  (∀ t v, writer l' = Some (t, v) → view l' = v ∧ readers l' = ∅).
Proof.
  intros Hr Hs. assert (lock_inv l') as [H1 H2] by (eapply lock_inv_step; eauto using lock_inv_reachable).
  split; [by apply lstep_view_le|]. split; [|done].
  intros t c e H. by rewrite (H1 _ _ _ H).
Qed.

Lemma held_view_is_current_witness :
  let l := MkLocked New {[1 := (0, 0)]} None in
  rtc lstep locked_init l ∧ lstep l (MkLocked New (<[2 := (0, 0)]> {[1 := (0, 0)]}) None) ∧
  le New New.
Proof.
  cbv zeta.
  assert (rtc lstep locked_init (MkLocked New {[1 := (0, 0)]} None)) as H1.
  { apply rtc_once. apply (lstep_hold 1 New ∅). reflexivity. }
  assert (lstep (MkLocked New {[1 := (0, 0)]} None)
                (MkLocked New (<[2 := (0, 0)]> {[1 := (0, 0)]}) None)) as H2.
  { apply (lstep_hold 2 New). reflexivity. }
  split; [exact H1|]. split; [exact H2|].
  exact (proj1 (held_view_is_current _ _ H1 H2)).
Defined.

End ViewState.
