(* ===== verification/Timer.v ===== *)
(** Timers: the abstract timer provider ([src/core/internal/timer/timer.go]),
    the per-client timer ([src/core/internal/clientstate/timeout.go]) and the
    back-off timer ([src/core/internal/backofftimer/timer.go]).

    A provider keeps the active timers with their duration and callback; a
    callback is a first-order value of a type [CB] chosen by the client of the
    timer, and running it is the client's business.  [Expire] removes an active
    timer and hands its callback out, the way [time.AfterFunc] does. *)

From S2P Require Import Prelude.

Module Timer.

Section Provider.
Context {CB : Type}.

(** The running [time.Timer]s of the process. *)
Record provider := MkProvider { nextID : N; active : gmap N (Z * CB) }.

Definition emptyProvider : provider := MkProvider 0 ∅.

(** [func (stdProvider) AfterFunc(d, f) Timer] *)
Definition AfterFunc (d : Z) (f : CB) (p : provider) : N * provider :=
  (nextID p, MkProvider (nextID p + 1) (<[nextID p := (d, f)]> (active p))).

(** [func (t stdTimer) Stop() bool] *)
Definition StopTimer (t : N) (p : provider) : bool * provider :=
  (bool_decide (is_Some (active p !! t)), MkProvider (nextID p) (delete t (active p))).

(** Expiration of an active timer. *)
Definition Expire (t : N) (p : provider) : option (CB * provider) :=
  '(_, f) ← active p !! t;
  Some (f, MkProvider (nextID p) (delete t (active p))).

(** Handles are allocated in increasing order. *)
Definition provider_wf (p : provider) : Prop :=
  ∀ t, is_Some (active p !! t) → t < nextID p.

Lemma provider_wf_empty : provider_wf emptyProvider.
Proof. intros t [x H]. empty_lookup. Qed.

Lemma provider_wf_AfterFunc d f p : provider_wf p → provider_wf (AfterFunc d f p).2.
Proof.
  intros Hp t [x H]. simpl in *. apply lookup_insert_Some in H as [[<- _]|[_ H]]; [lia|].
  specialize (Hp t ltac:(eauto)). lia.
Qed.

Lemma provider_wf_Stop t p : provider_wf p → provider_wf (StopTimer t p).2.
Proof. intros Hp t' [x H]. simpl in *. apply lookup_delete_Some in H as [_ H]. apply Hp; eauto. Qed.

Lemma provider_wf_Expire t p f p' : provider_wf p → Expire t p = Some (f, p') → provider_wf p'.
Proof.
  unfold Expire. intros Hp H. destruct (active p !! t) as [[d g]|] eqn:E; simplify_eq/=.
  intros t' [x H]. simpl in *. apply lookup_delete_Some in H as [_ H]. apply Hp; eauto.
Qed.

Lemma active_fresh p : provider_wf p → active p !! nextID p = None.
Proof.
  intros Hp. destruct (active p !! nextID p) eqn:E; [|done].
  specialize (Hp (nextID p) ltac:(eauto)). lia.
Qed.

(** ** The client timer ([type timerState struct]) *)

Record timerState := MkTimerState { ts_timer : option N; ts_seq : N }.

(** [func newTimerState(...)] *)
Definition newTimerState : timerState := MkTimerState None 0.

Definition stopOpt (t : option N) (p : provider) : provider :=
  match t with Some t => (StopTimer t p).2 | None => p end.

(** [func (s *timerState) Start(seq uint64, handleTimeout func())]; [timeout]
    is what the timeout function returned. *)
Definition Start (timeout : Z) (seq : N) (handleTimeout : CB)
    (sp : timerState * provider) : timerState * provider :=
  let '(s, p) := sp in
  let p := stopOpt (ts_timer s) p in
  if (timeout <=? 0)%Z then (MkTimerState (ts_timer s) seq, p)
  else let '(t, p) := AfterFunc timeout handleTimeout p in (MkTimerState (Some t) seq, p).

(** [func (s *timerState) stopAnyLocked()] *)
Definition stopAnyLocked (sp : timerState * provider) : timerState * provider :=
  let '(s, p) := sp in
  match ts_timer s with
  | Some t => (MkTimerState None (ts_seq s), (StopTimer t p).2)
  | None => (s, p)
  end.

(** [func (s *timerState) StopAny()] *)
Definition StopAny (sp : timerState * provider) : timerState * provider := stopAnyLocked sp.

(** [func (s *timerState) Stop(seq uint64)] *)
Definition Stop (seq : N) (sp : timerState * provider) : timerState * provider :=
  if negb (ts_seq sp.1 =? seq) then sp else stopAnyLocked sp.

(** What happens to one client timer: the calls above and the expiration of
    whatever timer is active. *)
Inductive tevent :=
| EvStart (timeout : Z) (seq : N) (f : CB)
| EvStop (seq : N)
| EvStopAny
| EvExpire (t : N).

Definition tstep (sp : timerState * provider) (ev : tevent) : timerState * provider :=
  match ev with
  | EvStart d seq f => Start d seq f sp
  | EvStop seq => Stop seq sp
  | EvStopAny => StopAny sp
  | EvExpire t => match Expire t sp.2 with Some (_, p) => (sp.1, p) | None => sp end
  end.

(** No active timer but the one the handle refers to, whose callback is the
    one of the last [Start]. *)
Definition only_handle (sp : timerState * provider) : Prop :=
  provider_wf sp.2 ∧ ∀ t, is_Some (active sp.2 !! t) → ts_timer sp.1 = Some t.

Lemma stopOpt_none s p :
  only_handle (s, p) → provider_wf (stopOpt (ts_timer s) p) ∧ active (stopOpt (ts_timer s) p) = ∅.
Proof.
  intros [Hwf Hh]. unfold stopOpt. simpl in Hh.
  assert (∀ t, ts_timer s ≠ Some t → active p !! t = None) as Hnone.
  { intros t Ht. destruct (active p !! t) eqn:E; [|done]. exfalso; eapply Ht, Hh; eauto. }
  destruct (ts_timer s) as [t|]; split; auto using provider_wf_Stop; apply map_eq; intros t'; simpl.
  - rewrite lookup_empty. destruct (decide (t = t')) as [->|]; [by rewrite lookup_delete_eq|].
    rewrite lookup_delete_ne by done. apply Hnone. congruence.
  - rewrite lookup_empty. by apply Hnone.
Qed.

Lemma only_handle_step sp ev : only_handle sp → only_handle (tstep sp ev).
Proof.
  intros Hi. destruct sp as [s p], ev as [d seq f|seq| |t]; simpl.
  - destruct (stopOpt_none s p Hi) as [Hwf Hemp]. unfold Start. case_if.
    + split; [done|]. simpl. rewrite Hemp. intros t [x H]. empty_lookup.
    + split; [by apply (provider_wf_AfterFunc d f)|]. simpl. rewrite Hemp.
      intros t [x H]. apply lookup_insert_Some in H as [[<- _]|[_ H]]; [done|empty_lookup].
  - unfold Stop. case_if; [done|]. destruct (stopOpt_none s p Hi) as [Hwf Hemp].
    unfold stopAnyLocked. destruct (ts_timer s); [|done]. split; [done|].
    simpl in *. rewrite Hemp. intros t [x H]. empty_lookup.
  - destruct (stopOpt_none s p Hi) as [Hwf Hemp]. unfold StopAny, stopAnyLocked.
    destruct (ts_timer s); [|done]. split; [done|].
    simpl in *. rewrite Hemp. intros t [x H]. empty_lookup.
  - destruct (Expire t p) as [[g p']|] eqn:E; [|done].
    destruct Hi as [Hwf Hh]. split; [by eapply provider_wf_Expire|]. simpl in *.
    unfold Expire in E. destruct (active p !! t) as [[d g']|] eqn:Ea; simplify_eq/=.
    intros t' [x H]. apply lookup_delete_Some in H as [_ H]. eauto.
Qed.

Lemma only_handle_run evs sp : only_handle sp → only_handle (foldl tstep sp evs).
Proof. revert sp; induction evs as [|ev evs IH]; intros sp H; simpl; auto using only_handle_step. Qed.

(** ** The back-off timer ([type timer struct] of [backofftimer]) *)

Record backoff := MkBackoff {
  initTimeout : Z; currentTimeout : Z; bo_timer : option N }.

(** [func New(d time.Duration, args ...Option) Timer] *)
Definition NewBackoff (d : Z) : backoff := MkBackoff d d None.

(** [func (t *timer) Start(f func())] *)
Definition StartBackoff (f : CB) (bp : backoff * provider) : backoff * provider :=
  let '(b, p) := bp in
  let '(t, p) := AfterFunc (currentTimeout b) f p in
  (MkBackoff (initTimeout b) (i64 (currentTimeout b * 2)) (Some t), p).

(** [func (t *timer) Stop()] *)
Definition StopBackoff (bp : backoff * provider) : backoff * provider :=
  let '(b, p) := bp in
  (MkBackoff (initTimeout b) (initTimeout b) None, stopOpt (bo_timer b) p).

Definition startN (fs : list CB) (bp : backoff * provider) : backoff * provider :=
  foldl (λ bp f, StartBackoff f bp) bp fs.

Lemma i64_double z : i64 (i64 z * 2) = i64 (z * 2).
Proof. unfold i64. lia. Qed.

Lemma startN_timeout fs b p :
  initTimeout (startN fs (b, p)).1 = initTimeout b ∧
  i64 (currentTimeout (startN fs (b, p)).1) =
    i64 (currentTimeout b * 2 ^ Z.of_nat (length fs)).
Proof.
  revert b p; induction fs as [|f fs IH]; intros b p; simpl.
  { split; [done|]. f_equal. lia. }
  specialize (IH (MkBackoff (initTimeout b) (i64 (currentTimeout b * 2)) (Some (nextID p)))
    (MkProvider (nextID p + 1) (<[nextID p:=(currentTimeout b, f)]> (active p)))).
  simpl in IH. destruct IH as [-> ->]. split; [done|].
  rewrite Nat2Z.inj_succ, Z.pow_succ_r by lia.
  generalize (2 ^ Z.of_nat (length fs))%Z as k. intros k.
  unfold i64.
  set (c := currentTimeout b).
  assert (∃ q, ((c * 2 + 2 ^ 63) mod 2 ^ 64 - 2 ^ 63 = c * 2 + q * 2 ^ 64)%Z) as [q ->].
  { exists (- ((c * 2 + 2 ^ 63) / 2 ^ 64))%Z. pose proof (Z.div_mod (c * 2 + 2 ^ 63) (2 ^ 64)). lia. }
  f_equal. replace ((c * 2 + q * 2 ^ 64) * k + 2 ^ 63)%Z with (c * (2 * k) + 2 ^ 63 + (q * k) * 2 ^ 64)%Z by lia.
  apply Z.mod_add. lia.
Qed.
End Provider.

Arguments provider : clear implicits.

(** A client timer never has more than one timer running.  After any
    sequence of [Start], [Stop], [StopAny] and expirations, starting from the
    new state, the only timer that can still be active is the one the handle
    refers to, so stopping the handle stops them all. *)
Theorem client_timer_single {CB} (evs : list (tevent (CB := CB))) s p :
  foldl tstep (newTimerState, emptyProvider) evs = (s, p) →
  (size (active p) ≤ 1)%nat ∧ active (StopAny (s, p)).2 = ∅.
Proof.
  intros E.
  assert (only_handle (s, p)) as Hi.
  { rewrite <- E. apply only_handle_run. split; [apply provider_wf_empty|].
    intros t [x H]. empty_lookup. }
  pose proof (stopOpt_none s p Hi) as [_ Hemp]. destruct Hi as [_ Hh].
  unfold StopAny, stopAnyLocked, stopOpt in *. simpl in *.
  destruct (ts_timer s) as [t|]; simpl in *; (split; [|done]);
    [|rewrite Hemp, map_size_empty; lia].
  destruct (active p !! t) as [x|] eqn:Ea.
  - rewrite <- (insert_delete_id _ _ _ Ea), Hemp, insert_empty, map_size_singleton. done.
  - rewrite delete_id in Hemp by done. rewrite Hemp, map_size_empty. lia.
Qed.

Lemma client_timer_single_witness :
  (size (active (foldl tstep (newTimerState, emptyProvider)
     [EvStart 5 1 tt; EvStart 7 2 tt; EvStop 1]).2) ≤ 1)%nat.
Proof.
  eapply (proj1 (client_timer_single (CB := unit) [EvStart 5 1 tt; EvStart 7 2 tt; EvStop 1] _ _ _)).
  Unshelve. 2: { vm_compute. reflexivity. }
Defined.

(** [Start] of a client timer with a positive timeout arms exactly the new
    callback; [Stop] with the sequence number it was started for disarms it and
    [Stop] with any other sequence number changes nothing. *)
Theorem client_timer_start_stop {CB} (s : timerState) (p : provider CB) d seq f seq' :
  provider_wf p → (0 < d)%Z →
  let sp := Start d seq f (s, p) in
  (∃ t, ts_timer sp.1 = Some t ∧ active sp.2 !! t = Some (d, f) ∧
        (∀ t0, ts_timer s = Some t0 → t0 < nextID p → active sp.2 !! t0 = None) ∧
        active (Stop seq sp).2 !! t = None) ∧
  (seq' ≠ seq → Stop seq' sp = sp).
Proof.
  intros Hwf Hd sp. unfold sp, Start.
  destruct (Z.leb_spec d 0) as [|_]; [lia|]. simpl. split.
  - assert (nextID (stopOpt (ts_timer s) p) = nextID p) as Hn by (by destruct (ts_timer s)).
    eexists. split; [done|]. split; [apply lookup_insert_eq|]. split.
    + intros t0 Ht Hlt. rewrite Ht in *; simpl in *.
      rewrite lookup_insert_ne by lia. apply lookup_delete_eq.
    + unfold Stop; simpl. rewrite N.eqb_refl; simpl. apply lookup_delete_eq.
  - intros Hne. unfold Stop; simpl. by destruct (N.eqb_spec seq seq').
Qed.

Lemma client_timer_start_stop_witness :
  provider_wf (CB := unit) emptyProvider ∧ (0 < 5)%Z ∧
  Stop 3 (Start 5 2 tt (newTimerState, emptyProvider)) =
    Start 5 2 tt (newTimerState, emptyProvider).
Proof.
  split; [apply provider_wf_empty|]. split; [lia|].
  apply (client_timer_start_stop newTimerState emptyProvider 5 2 tt 3);
    [apply provider_wf_empty|lia|lia].
Defined.

(** The back-off timer doubles its timeout on every start and stopping
    resets it.  The [k+1]-th start since the last stop runs for
    [d * 2^k], wrapped to the signed 64 bits of [time.Duration]; exactly
    [d * 2^k] as long as that fits; and [Stop] brings the timeout back to [d]. *)
Theorem backoff_doubles {CB} (d : Z) (p : provider CB) (fs : list CB) f :
  (0 ≤ d < 2 ^ 63)%Z →
  let bp := startN fs (NewBackoff d, p) in
  let k := Z.of_nat (length fs) in
  (i64 (currentTimeout bp.1) = i64 (d * 2 ^ k))%Z ∧
  ((d * 2 ^ k < 2 ^ 63)%Z →
     active (StartBackoff f bp).2 !! nextID bp.2 = Some (d * 2 ^ k, f)%Z) ∧
  currentTimeout (StopBackoff bp).1 = d.
Proof.
  intros Hd bp k. unfold bp, k in *; clear bp k.
  destruct (startN_timeout fs (NewBackoff d) p) as [Hinit Hcur].
  assert (∀ g, i64 (currentTimeout (startN g (NewBackoff d, p)).1) =
               currentTimeout (startN g (NewBackoff d, p)).1) as Hrange.
  { intros g. destruct g as [|x g _] using rev_ind; simpl; [apply i64_small; lia|].
    unfold startN. rewrite foldl_app. simpl.
    destruct (foldl _ _ g) as [b q]. simpl. unfold i64. lia. }
  destruct (startN fs (NewBackoff d, p)) as [b q] eqn:E; simpl in *.
  split; [done|]. split; [|by rewrite Hinit].
  intros Hfit. rewrite lookup_insert_eq. do 2 f_equal.
  specialize (Hrange fs). rewrite E in Hrange. simpl in Hrange.
  rewrite <- Hrange, Hcur. apply i64_small.
  assert (0 ≤ 2 ^ Z.of_nat (length fs))%Z by lia. nia.
Qed.

Lemma backoff_doubles_witness :
  currentTimeout (StopBackoff (startN [tt; tt; tt] (NewBackoff 10, emptyProvider))).1 = 10%Z.
Proof.
  destruct (backoff_doubles 10 emptyProvider [tt; tt; tt] tt) as (_ & _ & H); [lia|exact H].
Defined.

(** Restarting the back-off timer does not cancel the timer that is already
    running.  After two starts and a stop, the first timer is still active: the
    handle of the first start is overwritten without being stopped. *)
Theorem backoff_restart_leaks {CB} (d : Z) (p : provider CB) f1 f2 :
  provider_wf p →
  let bp := StopBackoff (StartBackoff f2 (StartBackoff f1 (NewBackoff d, p))) in
  active bp.2 !! nextID p = Some (d, f1).
Proof.
  intros Hp. simpl. rewrite lookup_delete_ne by lia.
  rewrite lookup_insert_ne by lia. apply lookup_insert_eq.
Qed.

Lemma backoff_restart_leaks_witness :
  active (StopBackoff (StartBackoff tt (StartBackoff tt (NewBackoff 5, emptyProvider)))).2 !! 0 =
  Some (5%Z, tt).
Proof. apply (backoff_restart_leaks 5 emptyProvider tt tt). apply provider_wf_empty. Defined.

End Timer.
