(* ===== verification/ClientState.v ===== *)
(** Package [clientstate] ([src/core/internal/clientstate]): the state a
    replica keeps for each client.

    - [request-seq.go]: the last captured, released, prepared and retired
      request identifiers;
    - [reply.go]: the last Reply and the goroutines waiting for one;
    - [client-state.go]: the record of both with the client's two timers, and
      the provider that creates it on first use.

    The blocking calls ([CaptureRequestSeq], [ReplyChannel]) are one iteration
    of the loop in the code, with an explicit answer for "wait"; the
    interleaving of goroutines is the step relation of [Section Capturing]. *)

From S2P Require Import Prelude Messages Timer.

Module ClientState.

(** ** Request identifiers *)

(** [type seqState struct] *)
Record seqState := MkSeqState {
  lastCapturedSeq : N; lastReleasedSeq : N; lastPreparedSeq : N; lastRetiredSeq : N }.

(** [func newSeqState()] *)
Definition newSeqState : seqState := MkSeqState 0 0 0 0.

Inductive capture :=
| CaptureNotNew          (* return false, nil *)
| CaptureWait            (* s.seqReleased.Wait() *)
| CaptureNew (s : seqState).

(** [func (s *seqState) CaptureRequestSeq(seq uint64)]: one pass through the loop *)
Definition CaptureRequestSeq (seq : N) (s : seqState) : capture :=
  if seq <=? lastCapturedSeq s then
    if lastReleasedSeq s <? seq then CaptureWait else CaptureNotNew
  else if lastReleasedSeq s <? lastCapturedSeq s then CaptureWait
  else CaptureNew (MkSeqState seq (lastReleasedSeq s) (lastPreparedSeq s) (lastRetiredSeq s)).

(** The release function it returns. *)
Definition releaseSeq (s : seqState) : seqState :=
  MkSeqState (lastCapturedSeq s) (lastCapturedSeq s) (lastPreparedSeq s) (lastRetiredSeq s).

(** [func (s *seqState) PrepareRequestSeq(seq uint64)] *)
Definition PrepareRequestSeq (seq : N) (s : seqState) : outcome bool * seqState :=
  if seq <=? lastPreparedSeq s then (OK false, s)
  else if lastCapturedSeq s <? seq then (Error (Errorf "Request ID not captured"), s)
  else (OK true, MkSeqState (lastCapturedSeq s) (lastReleasedSeq s) seq (lastRetiredSeq s)).

(** [func (s *seqState) RetireRequestSeq(seq uint64)] *)
Definition RetireRequestSeq (seq : N) (s : seqState) : outcome bool * seqState :=
  if seq <=? lastRetiredSeq s then (OK false, s)
  else if lastPreparedSeq s <? seq then (Error (Errorf "Request ID not prepared"), s)
  else (OK true, MkSeqState (lastCapturedSeq s) (lastReleasedSeq s) (lastPreparedSeq s) seq).

(** [func (s *seqState) UnprepareRequestSeq()] *)
Definition UnprepareRequestSeq (s : seqState) : seqState :=
  MkSeqState (lastCapturedSeq s) (lastReleasedSeq s) (lastRetiredSeq s) (lastRetiredSeq s).

(** The order of the identifiers: retired before prepared before captured. *)
Definition seq_inv (s : seqState) : Prop :=
  lastRetiredSeq s ≤ lastPreparedSeq s ∧ lastPreparedSeq s ≤ lastCapturedSeq s ∧
  lastReleasedSeq s ≤ lastCapturedSeq s.

Lemma seq_inv_new : seq_inv newSeqState.
Proof. unfold seq_inv; simpl; lia. Qed.

Lemma seq_inv_capture seq s s' :
  seq_inv s → CaptureRequestSeq seq s = CaptureNew s' →
  seq_inv s' ∧ lastCapturedSeq s' = seq ∧ lastCapturedSeq s < seq ∧
  lastReleasedSeq s' = lastCapturedSeq s ∧
  lastPreparedSeq s' = lastPreparedSeq s ∧ lastRetiredSeq s' = lastRetiredSeq s.
Proof.
  unfold CaptureRequestSeq, seq_inv. intros Hi H.
  repeat case_if; simplify_eq; nbool; simpl; lia.
Qed.

Lemma seq_inv_release s : seq_inv s → seq_inv (releaseSeq s).
Proof. unfold seq_inv, releaseSeq; simpl; lia. Qed.
Lemma seq_inv_prepare seq s : seq_inv s → seq_inv (PrepareRequestSeq seq s).2.
Proof. unfold seq_inv, PrepareRequestSeq. repeat case_if; nbool; simpl; lia. Qed.
Lemma seq_inv_retire seq s : seq_inv s → seq_inv (RetireRequestSeq seq s).2.
Proof. unfold seq_inv, RetireRequestSeq. repeat case_if; nbool; simpl; lia. Qed.
Lemma seq_inv_unprepare s : seq_inv s → seq_inv (UnprepareRequestSeq s).
Proof. unfold seq_inv, UnprepareRequestSeq; simpl; lia. Qed.

(** *** Capturing by concurrent goroutines *)
Section Capturing.

(** [holders]: the goroutines between a successful capture and its release,
    with the identifier they captured; [history]: the captured identifiers,
    latest first. *)
Record captures := MkCaptures {
  cap_state : seqState; holders : gmap N N; history : list N }.

Definition captures_init : captures := MkCaptures newSeqState ∅ [].

Inductive cstep : captures → captures → Prop :=
| cstep_capture t seq s s' hs h :
    hs !! t = None → CaptureRequestSeq seq s = CaptureNew s' →
    cstep (MkCaptures s hs h) (MkCaptures s' (<[t := seq]> hs) (seq :: h))
| cstep_release t seq s hs h :
    hs !! t = Some seq →
    cstep (MkCaptures s hs h) (MkCaptures (releaseSeq s) (delete t hs) h)
| cstep_prepare seq s hs h :
    cstep (MkCaptures s hs h) (MkCaptures (PrepareRequestSeq seq s).2 hs h)
| cstep_retire seq s hs h :
    cstep (MkCaptures s hs h) (MkCaptures (RetireRequestSeq seq s).2 hs h)
| cstep_unprepare s hs h :
    cstep (MkCaptures s hs h) (MkCaptures (UnprepareRequestSeq s) hs h).

(** Either nobody holds an identifier and the last captured one is released,
    or exactly one goroutine holds the last captured one. *)
Definition cap_inv (c : captures) : Prop :=
  seq_inv (cap_state c) ∧
  ((holders c = ∅ ∧ lastReleasedSeq (cap_state c) = lastCapturedSeq (cap_state c)) ∨
   (∃ t, holders c = {[t := lastCapturedSeq (cap_state c)]} ∧
         lastReleasedSeq (cap_state c) < lastCapturedSeq (cap_state c))) ∧
  StronglySorted N.gt (history c) ∧
  Forall (λ q, q ≤ lastCapturedSeq (cap_state c)) (history c).

Lemma prepare_frame seq s :
  lastCapturedSeq (PrepareRequestSeq seq s).2 = lastCapturedSeq s ∧
  lastReleasedSeq (PrepareRequestSeq seq s).2 = lastReleasedSeq s.
Proof. unfold PrepareRequestSeq. by repeat case_if. Qed.
Lemma retire_frame seq s :
  lastCapturedSeq (RetireRequestSeq seq s).2 = lastCapturedSeq s ∧
  lastReleasedSeq (RetireRequestSeq seq s).2 = lastReleasedSeq s.
Proof. unfold RetireRequestSeq. by repeat case_if. Qed.

Lemma cap_inv_step c c' : cap_inv c → cstep c c' → cap_inv c'.
Proof.
  intros (Hi & Hh & Hs & Hf) Hstep.
  destruct Hstep as [t seq s s' hs h Ht Hc|t seq s hs h Ht|seq s hs h|seq s hs h|s hs h]; simpl in *.
  - assert (lastReleasedSeq s = lastCapturedSeq s ∧ hs = ∅) as [Hrel ->].
    { destruct Hh as [[-> ?]|(t' & -> & Hlt)]; [done|].
      unfold CaptureRequestSeq in Hc. repeat case_if; nbool; simplify_eq; lia. }
    destruct (seq_inv_capture _ _ _ Hi Hc) as (Hi' & Hcap & Hlt & Hr & _).
    split; [done|]. split; [|split].
    + right. exists t. simpl. rewrite Hcap. split; [done|lia].
    + simpl. constructor; [done|]. eapply Forall_impl; [exact Hf|]. simpl; intros; lia.
    + simpl. rewrite Hcap. constructor; [lia|]. eapply Forall_impl; [exact Hf|]. simpl; intros; lia.
  - split; [by apply seq_inv_release|]. split; [|by split].
    destruct Hh as [[-> ?]|(t' & -> & _)]; [empty_lookup|]. left; simpl.
    apply lookup_singleton_Some in Ht as [<- _]. split; [apply delete_singleton_eq|done].
  - destruct (prepare_frame seq s) as [E1 E2]. unfold cap_inv; simpl. rewrite E1, E2.
    auto using seq_inv_prepare.
  - destruct (retire_frame seq s) as [E1 E2]. unfold cap_inv; simpl. rewrite E1, E2.
    auto using seq_inv_retire.
  - unfold cap_inv; simpl. auto using seq_inv_unprepare.
Qed.

Lemma cap_inv_reachable c : rtc cstep captures_init c → cap_inv c.
Proof.
  intros H. eapply (rtc_ind_r cap_inv); [|intros; by eapply cap_inv_step|exact H].
  split; [apply seq_inv_new|]. simpl. split; [by left|]. split; constructor.
Qed.
End Capturing.

(** C30: request capture is mutually exclusive, ordered and never stuck.  In
    every state the goroutines of a client can reach: at most one of them is
    between capture and release; the captured identifiers are strictly
    increasing, so none is captured twice; retired <= prepared <= captured; and
    a goroutine waits in [CaptureRequestSeq] only while another holds an
    identifier it has yet to release. *)
Theorem capture_exclusive_ordered c :
  rtc cstep captures_init c →
  (size (holders c) ≤ 1)%nat ∧
  StronglySorted N.gt (history c) ∧
  lastRetiredSeq (cap_state c) ≤ lastPreparedSeq (cap_state c) ≤ lastCapturedSeq (cap_state c) ∧
  (∀ seq, CaptureRequestSeq seq (cap_state c) = CaptureWait →
     ∃ t q, holders c !! t = Some q).
Proof.
  intros (Hi & Hh & Hs & _)%cap_inv_reachable. split.
  { destruct Hh as [[-> _]|(t & -> & _)]; [rewrite map_size_empty|rewrite map_size_singleton]; lia. }
  split; [done|]. unfold seq_inv in Hi. split; [lia|].
  intros seq Hw. destruct Hh as [[_ Hrel]|(t & -> & _)].
  - unfold CaptureRequestSeq in Hw. repeat case_if; nbool; try done; lia.
  - exists t. eexists. by rewrite lookup_singleton_eq.
Qed.

Lemma capture_exclusive_ordered_witness :
  let c := MkCaptures (MkSeqState 5 0 0 0) {[7 := 5]} [5] in
  rtc cstep captures_init c ∧ (size (holders c) ≤ 1)%nat.
Proof.
  assert (rtc cstep captures_init (MkCaptures (MkSeqState 5 0 0 0) {[7 := 5]} [5])) as H.
  { apply rtc_once. eapply (cstep_capture 7 5 newSeqState _ ∅ []); reflexivity. }
  split; [exact H|]. exact (proj1 (capture_exclusive_ordered _ H)).
Defined.

(** ** Replies *)

(** [type replyState struct] *)
Record replyState := MkReplyState { lastRepliedSeq : N; last_reply : option Reply }.

(** [func newReplyState()] *)
Definition newReplyState : replyState := MkReplyState 0 None.

(** [func (s *replyState) AddReply(reply messages.Reply)] *)
Definition AddReply (reply : Reply) (s : replyState) : replyState :=
  if rep_Sequence reply <=? lastRepliedSeq s then s
  else MkReplyState (rep_Sequence reply) (Some reply).

Inductive replyPoll :=
| ReplyWait                      (* select on waitChan and cancel *)
| ReplyClosed                    (* return, closing the channel *)
| ReplySend (reply : Reply).     (* out <- reply *)

(** One pass of the goroutine of [func (s *replyState) ReplyChannel(...)];
    [reply.Sequence()] on a nil reply is a nil dereference. *)
Definition ReplyChannel (seq : N) (s : replyState) : outcome replyPoll :=
  if seq <=? lastRepliedSeq s then
    match last_reply s with
    | None => Panic "nil pointer dereference"
    | Some reply => if rep_Sequence reply =? seq then OK (ReplySend reply) else OK ReplyClosed
    end
  else OK ReplyWait.

(** Only the Reply with the highest identifier is kept, and a waiting client
    gets its own Reply or nothing.  For a state reached by adding [replies],
    [ReplyChannel seq] with a non-zero [seq] never panics; it delivers exactly
    a Reply added for [seq] that no later identifier replaced, ends without one
    when a greater identifier has been replied, and waits otherwise. *)
Theorem reply_channel_correct (replies : list Reply) seq :
  0 < seq →
  let s := foldl (λ s r, AddReply r s) newReplyState replies in
  lastRepliedSeq s = foldr N.max 0 (rep_Sequence <$> replies) ∧
  match ReplyChannel seq s with
  | OK (ReplySend r) => r ∈ replies ∧ rep_Sequence r = seq ∧ lastRepliedSeq s = seq
  | OK ReplyClosed => seq < lastRepliedSeq s
  | OK ReplyWait => lastRepliedSeq s < seq
  | _ => False
  end.
Proof.
  intros Hseq s.
  assert (lastRepliedSeq s = foldr N.max 0 (rep_Sequence <$> replies) ∧
          (lastRepliedSeq s = 0 ∨ ∃ r, last_reply s = Some r ∧ r ∈ replies ∧
             rep_Sequence r = lastRepliedSeq s)) as [Hmax Hlast].
  { unfold s. clear Hseq s seq. induction replies as [|r rs IH] using rev_ind; [split; [done|by left]|].
    rewrite foldl_app, fmap_app, foldr_app. simpl.
    assert (∀ l z, foldr N.max z l = N.max z (foldr N.max 0 l)) as Hfold.
    { clear. induction l as [|x l IH]; intros z; simpl; [lia|]. rewrite IH. lia. }
    rewrite Hfold. revert IH. set (s := foldl _ _ rs). intros [IH1 IH2].
    unfold AddReply. case_if; nbool.
    - split; [lia|]. destruct IH2 as [|(r' & ? & ? & ?)]; [by left|].
      right. exists r'. split; [done|]. split; [set_solver|done].
    - simpl. split; [lia|]. right. exists r. split; [done|]. split; [set_solver|done]. }
  split; [done|]. unfold ReplyChannel. case_if; nbool; [|lia].
  destruct Hlast as [?|(r & -> & Hin & Hr)]; [lia|]. case_if; nbool; [|lia].
  split; [done|]. split; [done|lia].
Qed.

Lemma reply_channel_correct_witness :
  let r := MkReply 0 1 4 [] [] in
  lastRepliedSeq (foldl (λ s r, AddReply r s) newReplyState [r]) = 4.
Proof. apply (reply_channel_correct [MkReply 0 1 4 [] []] 4). lia. Defined.

(** Asking for the Reply to request identifier 0 before any Reply has been
    added dereferences a nil Reply: the goroutine of [ReplyChannel] panics. *)
Theorem reply_channel_zero_panics : isPanic (ReplyChannel 0 newReplyState) = true.
Proof. reflexivity. Qed.

(** ** The state of a client and the provider *)

(** [type clientState struct] *)
Record clientState := MkClientState {
  seqS : seqState; replyS : replyState;
  requestTimer : Timer.timerState; prepareTimer : Timer.timerState }.

(** [func newClientState(...)] *)
Definition newClientState : clientState :=
  MkClientState newSeqState newReplyState Timer.newTimerState Timer.newTimerState.

(** [func (p *provider) ClientState(clientID uint32) State] followed by a
    method [f] of the returned state: a client's state is created when it is
    first asked for, and the method updates it in place. *)
Definition withClient {A} (clientID : N) (f : clientState → A * clientState)
    (p : gmap N clientState) : A * gmap N clientState :=
  let s := default newClientState (p !! clientID) in
  let '(a, s') := f s in (a, <[clientID := s']> p).

(** [func (p *provider) Clients()] *)
Definition Clients (p : gmap N clientState) : list N := (map_to_list p).*1.

Definition set_seq (s : seqState) (c : clientState) : clientState :=
  MkClientState s (replyS c) (requestTimer c) (prepareTimer c).
Definition set_reply (r : replyState) (c : clientState) : clientState :=
  MkClientState (seqS c) r (requestTimer c) (prepareTimer c).
Definition set_requestTimer (t : Timer.timerState) (c : clientState) : clientState :=
  MkClientState (seqS c) (replyS c) t (prepareTimer c).
Definition set_prepareTimer (t : Timer.timerState) (c : clientState) : clientState :=
  MkClientState (seqS c) (replyS c) (requestTimer c) t.

(** Reading the identifiers of a client, zero for one not seen yet. *)
Definition clientSeq (p : gmap N clientState) (id : N) : seqState :=
  seqS (default newClientState (p !! id)).

Lemma clientSeq_withClient {A} id id' (f : clientState → A * clientState) p :
  clientSeq (withClient id f p).2 id' =
  if decide (id = id') then seqS (f (default newClientState (p !! id))).2 else clientSeq p id'.
Proof.
  unfold withClient, clientSeq. destruct (f _) as [a s'] eqn:E. simpl.
  case_decide as Hd; [subst; by rewrite lookup_insert_eq|by rewrite lookup_insert_ne].
Qed.

End ClientState.
