(* ===== verification/RequestList.v ===== *)
(** Package [requestlist] ([src/core/internal/requestlist/request-list.go]): a
    set of Request messages with at most one message per client. *)

From S2P Require Import Prelude Messages.

(** [for _, m := range m] over a Go map visits the entries in an unspecified
    order; the development is parametric in it. *)
Class RangeOrder := MkRangeOrder {
  range_order : ∀ {A : Type}, list A → list A;
  range_order_perm : ∀ {A : Type} (l : list A), range_order l ≡ₚ l }.

(** The order of the keys, used where a concrete run is evaluated. *)
Definition keyOrder : RangeOrder := MkRangeOrder (λ A l, l) (λ A l, Permutation_refl l).

Lemma elem_of_range_order `{RangeOrder} {A} (x : A) l : x ∈ range_order l ↔ x ∈ l.
Proof. by rewrite range_order_perm. Qed.

Module RequestList.

(** [type msgMap map\[uint32\]messages.Request] *)
Abbreviation msgMap := (gmap N Request).

(** [func New() List] *)
Definition New : msgMap := ∅.

(** [func (l *list) Add(req messages.Request)] *)
Definition Add (req : Request) (l : msgMap) : msgMap := <[req_ClientID req := req]> l.

(** [func (l *list) Remove(req messages.Request)] *)
Definition Remove (req : Request) (l : msgMap) : msgMap :=
  match l !! req_ClientID req with
  | None => l
  | Some lastReq =>
      if negb (req_Sequence lastReq =? req_Sequence req) then l
      else delete (req_ClientID req) l
  end.

(** [func (l *list) All() \[\]messages.Request] *)
Definition All `{RangeOrder} (l : msgMap) : list Request := range_order (map_to_list l).*2.

(** Every message is stored under its client. *)
Definition keyed (l : msgMap) : Prop := ∀ c r, l !! c = Some r → req_ClientID r = c.

Lemma keyed_New : keyed New.
Proof. intros c r H. unfold New in H. empty_lookup. Qed.
Lemma keyed_Add req l : keyed l → keyed (Add req l).
Proof. intros Hk c r H. unfold Add in H. apply lookup_insert_Some in H as [[<- <-]|[_ H]]; eauto. Qed.
Lemma keyed_delete c l : keyed l → keyed (delete c l).
Proof. intros Hk c' r H. apply lookup_delete_Some in H as [_ H]. eauto. Qed.
Lemma keyed_Remove req l : keyed l → keyed (Remove req l).
Proof.
  intros Hk. unfold Remove. destruct (l !! _); [|done]. case_if; [done|by apply keyed_delete].
Qed.

Lemma elem_of_All `{RangeOrder} l r : keyed l → r ∈ All l ↔ l !! req_ClientID r = Some r.
Proof.
  intros Hk. unfold All. rewrite elem_of_range_order, list_elem_of_fmap. split.
  - intros ([c r'] & -> & Hin). apply elem_of_map_to_list in Hin. simpl.
    by rewrite (Hk _ _ Hin).
  - intros Hl. exists (req_ClientID r, r). split; [done|]. by apply elem_of_map_to_list.
Qed.

Lemma lookup_Remove req l c :
  Remove req l !! c =
  match l !! c with
  | Some r => if bool_decide (c = req_ClientID req) && (req_Sequence r =? req_Sequence req)
              then None else Some r
  | None => None
  end.
Proof.
  unfold Remove. destruct (l !! req_ClientID req) as [r|] eqn:E; [case_if|]; nbool.
  - destruct (l !! c) as [r'|] eqn:E'; [|done].
    case_bool_decide as Hc; simpl; [|done]. subst c. rewrite E in E'. simplify_eq.
    by destruct (N.eqb_spec (req_Sequence r') (req_Sequence req)).
  - destruct (decide (c = req_ClientID req)) as [->|Hne].
    + rewrite lookup_delete_eq, E. rewrite bool_decide_eq_true_2 by done. simpl.
      rewrite E0. by rewrite N.eqb_refl.
    + rewrite lookup_delete_ne by done. destruct (l !! c); [|done].
      by rewrite bool_decide_eq_false_2.
  - destruct (l !! c) as [r|] eqn:E'; [|done].
    case_bool_decide as Hc; simpl; [|done]. subst c. congruence.
Qed.

(** The list is a set with one Request per client.  After [Add], [All] has
    the new message, no other message of that client, and the same messages of
    the other clients; after [Remove], [All] lacks exactly the message of that
    client with that identifier; whatever order the map is visited in, no
    message is listed twice. *)
Theorem requestlist_spec `{RangeOrder} (l : msgMap) req r :
  keyed l →
  (r ∈ All (Add req l) ↔ r = req ∨ (r ∈ All l ∧ req_ClientID r ≠ req_ClientID req)) ∧
  (r ∈ All (Remove req l) ↔
     r ∈ All l ∧ ¬ (req_ClientID r = req_ClientID req ∧ req_Sequence r = req_Sequence req)) ∧
  NoDup (req_ClientID <$> All l).
Proof.
  intros Hk. split; [|split].
  - rewrite !elem_of_All by auto using keyed_Add. unfold Add.
    rewrite lookup_insert. case_decide as Hc.
    + rewrite Hc. naive_solver.
    + naive_solver.
  - rewrite !elem_of_All by auto using keyed_Remove. rewrite lookup_Remove.
    destruct (l !! req_ClientID r) as [r'|] eqn:E; [|naive_solver].
    case_bool_decide as Hc; simpl; [|naive_solver].
    destruct (N.eqb_spec (req_Sequence r') (req_Sequence req)) as [Hs|Hs]; naive_solver.
  - unfold All. rewrite range_order_perm.
    assert (req_ClientID <$> (map_to_list l).*2 = (map_to_list l).*1) as ->; [|apply NoDup_fst_map_to_list].
    rewrite <- list_fmap_compose. apply list_fmap_ext. intros i [c r'] Hi. simpl.
    apply Hk. apply elem_of_map_to_list, list_elem_of_lookup. eauto.
Qed.

Lemma requestlist_spec_witness :
  let r := MkRequest 1 7 [] [] in
  keyed New ∧ r ∈ All (H := keyOrder) (Add r New).
Proof.
  split; [apply keyed_New|].
  apply (requestlist_spec (H := keyOrder) New (MkRequest 1 7 [] []) (MkRequest 1 7 [] []) keyed_New).
  by left.
Defined.

End RequestList.
