(* ===== verification/MessageLog.v ===== *)
(** Package [messagelog] ([src/core/internal/messagelog/messagelog.go]): an
    ordered log of messages with independent streams of them.

    A channel that is closed and recreated ([newAdded], [resetChan]) is its
    generation number: generation [g] is closed exactly when the log's current
    generation is greater.  [Section Streaming] has the goroutine
    [supplyMessages] of one stream, interleaved with appends and resets. *)

From S2P Require Import Prelude Messages.

Module MessageLogM.

(** [type messageLog struct] *)
Record messageLog := MkLog { msgs : list Message; newAdded : N; resetChan : N }.

(** [func New() MessageLog] *)
Definition New : messageLog := MkLog [] 0 0.

(** [func (log *messageLog) Append(msg messages.Message)] *)
Definition Append (msg : Message) (log : messageLog) : messageLog :=
  MkLog (msgs log ++ [msg]) (newAdded log + 1) (resetChan log).

(** [func (log *messageLog) Messages() \[\]messages.Message] *)
Definition Messages (log : messageLog) : list Message := msgs log.

(** [func (log *messageLog) Reset(msgs \[\]messages.Message)] *)
Definition Reset (ms : list Message) (log : messageLog) : messageLog :=
  MkLog ms (newAdded log) (resetChan log + 1).

Section Streaming.

Inductive phase := Fetching | Sending | Waiting | Stopped.

(** The local variables of [supplyMessages]: the reset and notification
    channels it holds, the index [next], the rest of the batch it is sending;
    [sent] lists what it sent since it last started from index 0. *)
Record stream := MkStream {
  st_reset : N; st_new : N; st_next : nat; st_batch : list Message;
  st_phase : phase; sent : list Message }.

(** [func (log *messageLog) Stream(done)] and the lines before the loop *)
Definition Stream (log : messageLog) : stream :=
  MkStream (resetChan log) 0 0 [] Fetching [].

(** The critical section at the head of the loop, with the bounds check of
    [log.msgs\[next:\]]. *)
Definition fetch (log : messageLog) (s : stream) : outcome stream :=
  let fresh := st_reset s <? resetChan log in
  let reset := if fresh then resetChan log else st_reset s in
  let next := if fresh then O else st_next s in
  if (length (msgs log) <? next)%nat then Panic "slice bounds out of range"
  else OK (MkStream reset (newAdded log) (length (msgs log)) (drop next (msgs log)) Sending
             (if fresh then [] else sent s)).

Inductive sstep : messageLog * stream → messageLog * stream → Prop :=
| s_append m l s : sstep (l, s) (Append m l, s)
| s_reset ms l s : sstep (l, s) (Reset ms l, s)
| s_fetch l s s' :
    st_phase s = Fetching → fetch l s = OK s' → sstep (l, s) (l, s')
| s_send l r n i m b st :                     (* case ch <- msg *)
    sstep (l, MkStream r n i (m :: b) Sending st) (l, MkStream r n i b Sending (st ++ [m]))
| s_send_reset l r n i m b st :               (* case <-resetChan: continue loop *)
    r < resetChan l →
    sstep (l, MkStream r n i (m :: b) Sending st) (l, MkStream r n i (m :: b) Fetching st)
| s_sent_all l r n i st :
    sstep (l, MkStream r n i [] Sending st) (l, MkStream r n i [] Waiting st)
| s_wake l r n i b st :                       (* case <-newAdded / case <-resetChan *)
    n < newAdded l ∨ r < resetChan l →
    sstep (l, MkStream r n i b Waiting st) (l, MkStream r n i b Fetching st)
| s_done l r n i b p st :                     (* case <-done *)
    p ≠ Fetching → sstep (l, MkStream r n i b p st) (l, MkStream r n i b Stopped st).

Definition stream_inv (ls : messageLog * stream) : Prop :=
  let '(l, s) := ls in
  st_reset s ≤ resetChan l ∧ st_new s ≤ newAdded l ∧
  (st_phase s = Waiting → st_batch s = []) ∧
  (st_reset s = resetChan l →
     (st_next s ≤ length (msgs l))%nat ∧
     sent s ++ st_batch s = take (st_next s) (msgs l) ∧
     (st_phase s = Fetching → st_batch s = []) ∧
     (st_phase s ≠ Fetching → st_new s = newAdded l → st_next s = length (msgs l))).

Lemma fetch_inv l s s' :
  stream_inv (l, s) → st_phase s = Fetching → fetch l s = OK s' → stream_inv (l, s').
Proof.
  intros (Hr & Hn & Hw & Hi) Hp. unfold fetch. case_if; [done|]. intros [= <-].
  apply Nat.ltb_ge in E. unfold stream_inv; simpl.
  destruct (N.ltb_spec (st_reset s) (resetChan l)) as [Hlt|Hge]; simpl.
  - rewrite firstn_all. repeat split; try done; lia.
  - destruct Hi as (Hnext & Hsent & Hb & _); [lia|]. rewrite (Hb Hp), app_nil_r in Hsent.
    rewrite firstn_all, Hsent, take_drop. repeat split; try done; lia.
Qed.

Lemma stream_inv_step ls ls' : stream_inv ls → sstep ls ls' → stream_inv ls'.
Proof.
  intros Hinv Hstep. destruct Hstep; simpl in *.
  - destruct Hinv as (Hr & Hn & Hw & Hi). repeat split; try done; try lia;
      destruct Hi as (H1 & H2 & H3 & H4); auto; rewrite ?length_app; simpl; try lia.
    by rewrite take_app_le.
  - destruct Hinv as (Hr & Hn & Hw & Hi). repeat split; try done; lia.
  - by eapply fetch_inv.
  - destruct Hinv as (Hr & Hn & Hw & Hi). repeat split; try done;
      destruct Hi as (H1 & H2 & H3 & H4); auto. by rewrite <- app_assoc.
  - destruct Hinv as (Hr & Hn & Hw & Hi). repeat split; try done; lia.
  - destruct Hinv as (Hr & Hn & Hw & Hi). repeat split; try done;
      destruct Hi as (H1 & H2 & H3 & H4); auto.
  - destruct Hinv as (Hr & Hn & Hw & Hi). repeat split; try done;
      destruct Hi as (H1 & H2 & H3 & H4); auto; by rewrite Hw.
  - destruct Hinv as (Hr & Hn & Hw & Hi). repeat split; try done;
      destruct Hi as (H1 & H2 & H3 & H4); auto.
Qed.

Lemma stream_inv_reachable l0 l s :
  rtc sstep (l0, Stream l0) (l, s) → stream_inv (l, s).
Proof.
  intros H. eapply (rtc_ind_r stream_inv); [|intros; by eapply stream_inv_step|exact H].
  simpl. repeat split; try done; lia.
Qed.
End Streaming.

(** A stream delivers the log in order, without loss, duplication or
    out-of-range access.  Whatever appends and resets the stream's goroutine is
    interleaved with: its slice expression never panics; unless a reset has
    just happened that it has yet to notice, what it has sent since it last
    started over is a prefix of the log; and when it waits with nothing to
    wake it, it has sent the whole log. *)
Theorem stream_delivers_log l0 l s :
  rtc sstep (l0, Stream l0) (l, s) →
  (st_phase s = Fetching → isOK (fetch l s) = true) ∧
  (st_reset s = resetChan l → sent s `prefix_of` msgs l) ∧
  (st_phase s = Waiting → st_reset s = resetChan l → st_new s = newAdded l →
     sent s = msgs l).
Proof.
  intros (Hr & Hn & Hw & Hi)%stream_inv_reachable. split; [|split].
  - intros Hp. unfold fetch.
    destruct (N.ltb_spec (st_reset s) (resetChan l)) as [Hlt|Hge]; [done|].
    destruct Hi as (Hnext & _); [lia|]. apply Nat.ltb_ge in Hnext. by rewrite Hnext.
  - intros E. destruct (Hi E) as (_ & Hs & _). exists (st_batch s ++ drop (st_next s) (msgs l)).
    by rewrite app_assoc, Hs, take_drop.
  - intros Hp E En. destruct (Hi E) as (_ & Hs & _ & Hall).
    rewrite (Hw Hp), app_nil_r in Hs. rewrite Hs, Hall, firstn_all; [done| |done].
    by rewrite Hp.
Qed.

Lemma stream_delivers_log_witness :
  let l := Append (Msg_Hello 1) New in
  let s := MkStream 0 1 1 [] Waiting [Msg_Hello 1] in
  rtc sstep (New, Stream New) (l, s) ∧ sent s = msgs l.
Proof.
  assert (rtc sstep (New, Stream New)
            (Append (Msg_Hello 1) New, MkStream 0 1 1 [] Waiting [Msg_Hello 1])) as H.
  { eapply rtc_l; [apply (s_append (Msg_Hello 1))|].
    eapply rtc_l; [eapply s_fetch; reflexivity|]. simpl.
    eapply rtc_l; [apply s_send|]. apply rtc_once, s_sent_all. }
  split; [exact H|].
  apply (stream_delivers_log _ _ _ H); reflexivity.
Defined.

End MessageLogM.
