(* ===== verification/Quorum.v ===== *)
(** Quorum sizes and the choice of the primary: the check of the replica
    constructor ([New], [src/core/replica.go]) and of the client constructor
    ([New], [src/client/client.go]), the certificate sizes computed by
    [defaultMessageHandlers] ([src/core/message-handling.go]) and [isPrimary]
    ([src/core/utils.go]).  All of it is [uint32] and [uint64] arithmetic. *)

From S2P Require Import Prelude.

Module Quorum.

(** [n < 2*f+1], the refusal of [New]; both constructors compute it on [uint32]. *)
Definition notEnoughNodes (n f : N) : bool := n <? u32_add (u32_mul 2 f) 1.

(** [commitCertSize := n - f] *)
Definition commitCertSize (n f : N) : N := u32_sub n f.

(** [viewChangeCertSize := n - commitCertSize + 1] *)
Definition viewChangeCertSize (n f : N) : N := u32_add (u32_sub n (commitCertSize n f)) 1.

(** [func isPrimary(view uint64, id uint32, n uint32) bool] *)
Definition isPrimary (view id n : N) : bool := id =? view mod n.

(** The replicas of a system of [n]. *)
Definition replicas (n : N) : gset N := list_to_set (N.of_nat <$> seq 0 (N.to_nat n)).

Lemma elem_of_replicas n r : r ∈ replicas n ↔ r < n.
Proof.
  unfold replicas. rewrite elem_of_list_to_set, list_elem_of_fmap. split.
  - intros (k & -> & Hk). apply elem_of_seq in Hk. lia.
  - intros Hr. exists (N.to_nat r). rewrite elem_of_seq. lia.
Qed.

Lemma replicas_size n : size (replicas n) = N.to_nat n.
Proof.
  unfold replicas. rewrite size_list_to_set; [by rewrite length_fmap, length_seq|].
  apply NoDup_fmap_2; [intros a b H; lia|apply NoDup_seq].
Qed.

(** The sizes as numbers, when the configuration is accepted and [2*f+1] does
    not wrap. *)
Lemma cert_sizes n f :
  in_u32 n → f < 2 ^ 31 → notEnoughNodes n f = false →
  2 * f + 1 ≤ n ∧ commitCertSize n f = n - f ∧ viewChangeCertSize n f = f + 1.
Proof.
  intros Hn Hf Hok.
  assert (2 * f + 1 ≤ n) as Hnf.
  { unfold notEnoughNodes, u32_add, u32_mul, u32 in Hok. nbool. lia. }
  assert (commitCertSize n f = n - f) as Hc by (unfold commitCertSize; rewrite u32_sub_small; lia).
  split; [done|]. split; [done|].
  unfold viewChangeCertSize. rewrite Hc, u32_sub_small by lia. unfold u32_add, u32. lia.
Qed.

(** Two sets of replicas whose sizes add up to more than [n] have a common
    member. *)
Lemma quorums_intersect n (A B : gset N) :
  A ⊆ replicas n → B ⊆ replicas n → (N.to_nat n < size A + size B)%nat →
  ∃ r, r ∈ A ∧ r ∈ B.
Proof.
  intros HA HB Hs. destruct (decide (A ∩ B = ∅)) as [He|Hne].
  - exfalso. assert (size (A ∪ B) = size A + size B)%nat as Hu by (apply size_union; set_solver).
    assert (size (A ∪ B) ≤ size (replicas n))%nat by (apply subseteq_size; set_solver).
    rewrite replicas_size in *. lia.
  - apply set_choose_L in Hne as [r Hr]. exists r. set_solver.
Qed.

(** C27: quorum intersection.  With an accepted configuration ([f < 2^31], so that
    the check does not wrap), any commit certificate and any view-change
    certificate have a replica in common, so do any two commit certificates, and
    any view-change certificate has a replica outside any given set of at most
    [f] replicas. *)
Theorem certificates_intersect n f (A B V F : gset N) :
  in_u32 n → f < 2 ^ 31 → notEnoughNodes n f = false →
  A ⊆ replicas n → B ⊆ replicas n → V ⊆ replicas n →
  commitCertSize n f ≤ N.of_nat (size A) → commitCertSize n f ≤ N.of_nat (size B) →
  viewChangeCertSize n f ≤ N.of_nat (size V) →
  (∃ r, r ∈ A ∧ r ∈ V) ∧
  (∃ r, r ∈ A ∧ r ∈ B) ∧
  (N.of_nat (size F) ≤ f → ∃ r, r ∈ V ∧ r ∉ F).
Proof.
  intros Hn Hf Hok HA HB HV SA SB SV.
  destruct (cert_sizes n f Hn Hf Hok) as (Hnf & Hc & Hv). rewrite Hc, ?Hv in *.
  split; [apply (quorums_intersect n); auto; lia|].
  split; [apply (quorums_intersect n); auto; lia|].
  intros HF. destruct (decide (V ∖ F = ∅)) as [He|Hne].
  - assert (V ⊆ F) as Hsub%subseteq_size; [|lia].
    intros r Hr. destruct (decide (r ∈ F)) as [|Hnot]; [done|].
    assert (r ∈ V ∖ F) as Hd by (apply elem_of_difference; done). by rewrite He in Hd.
  - apply set_choose_L in Hne as [r Hr]. apply elem_of_difference in Hr. eauto.
Qed.

Lemma certificates_intersect_witness :
  notEnoughNodes 3 1 = false ∧ ∃ r : N, r ∈ ({[0; 1]} : gset N) ∧ r ∈ ({[1; 2]} : gset N).
Proof.
  split; [reflexivity|].
  destruct (certificates_intersect 3 1 {[0; 1]} {[0; 2]} {[1; 2]} {[0]}) as (H & _);
    [lia|lia|reflexivity|apply (bool_decide_unpack _); reflexivity..
    |vm_compute; discriminate|vm_compute; discriminate|vm_compute; discriminate|exact H].
Defined.

(** The configuration check is exact below [f = 2^31] and wrong from there.
    Below, [New] refuses exactly the configurations with [n < 2f + 1]; at
    [f = 2^31] the product wraps, and a single replica is accepted as tolerating
    2^31 faulty ones, with a commit certificate of [2^31 + 1] replicas. *)
Theorem node_check_bounds :
  (∀ n f, in_u32 n → f < 2 ^ 31 → (notEnoughNodes n f = true ↔ n < 2 * f + 1)) ∧
  notEnoughNodes 1 (2 ^ 31) = false ∧ commitCertSize 1 (2 ^ 31) = 2 ^ 31 + 1.
Proof.
  split; [|by vm_compute].
  intros n f Hn Hf. unfold notEnoughNodes, u32_add, u32_mul, u32.
  rewrite N.ltb_lt. lia.
Qed.

(** Every view has exactly one primary among the [n] replicas, and the role
    moves to the next replica (cyclically) with the next view. *)
Theorem primary_unique n view :
  0 < n →
  (∃ id, id < n ∧ isPrimary view id n = true ∧
     ∀ id', isPrimary view id' n = true → id' = id) ∧
  (∀ id, isPrimary view id n = true → isPrimary (view + 1) ((id + 1) mod n) n = true).
Proof.
  intros Hn. unfold isPrimary. split.
  - exists (view mod n). split; [apply N.mod_lt; lia|]. split; [apply N.eqb_refl|].
    intros id' H. by apply N.eqb_eq in H.
  - intros id H. apply N.eqb_eq in H as ->. apply N.eqb_eq.
    rewrite N.Div0.add_mod_idemp_l by lia. done.
Qed.

Lemma primary_unique_witness : isPrimary 8 ((1 + 1) mod 3) 3 = true.
Proof. apply (primary_unique 3 7); [lia|reflexivity]. Defined.

End Quorum.
