(* ===== verification/Commit.v ===== *)
(** [src/core/commit.go]: accepting and counting the commitments of replicas to
    the primary's proposals.

    - [acceptCommitment]: the closure of [makeCommitmentAcceptor], which checks
      that a replica's commitments follow one another;
    - [countCommitment]: the closure of [makeCommitmentCounter], which keeps for
      the current view the [commitCertSize-1] highest counters instead of a set
      of replicas per proposal;
    - [collect]: the part of [makeCommitmentCollector] under its lock, one
      after the other.

    [refCount] is the plain way to count (who has committed up to where), which
    the optimised counter is shown to agree with. *)

From S2P Require Import Prelude Messages.

Module Commitment.

(** ** The acceptor *)

(** The variables of [makeCommitmentAcceptor] *)
Record acceptor := MkAcceptor {
  replicaViews : gmap N N; lastPrimaryCVs : gmap N N; lastReplicaCVs : gmap N N }.

Definition newAcceptor : acceptor := MkAcceptor ∅ ∅ ∅.

(** The closure of [makeCommitmentAcceptor]; every error is returned before the
    closure changes its variables. *)
Definition acceptCommitment (replicaID : N) (newView : bool) (view primaryCV replicaCV : N)
    (a : acceptor) : outcome unit * acceptor :=
  let accepted views :=
    (OK tt, MkAcceptor views (<[replicaID := primaryCV]> (lastPrimaryCVs a))
                       (<[replicaID := replicaCV]> (lastReplicaCVs a))) in
  if newView then
    if view <=? lookupN (replicaViews a) replicaID then
      (Error (Errorf "unexpected view number"), a)
    else accepted (<[replicaID := view]> (replicaViews a))
  else if negb (view =? lookupN (replicaViews a) replicaID) then
    (Error (Errorf "unexpected view number"), a)
  else if negb (primaryCV =? u64_succ (lookupN (lastPrimaryCVs a) replicaID)) then
    (Error (Errorf "non-sequential primary UI"), a)
  else if negb (replicaCV =? u64_succ (lookupN (lastReplicaCVs a) replicaID)) then
    (Error (Errorf "non-sequential replica UI"), a)
  else accepted (replicaViews a).

(** ** The counter *)

(** The variables of [makeCommitmentCounter] *)
Record counter := MkCounter { lastView : N; highest : list N }.

(** [makeCommitmentCounter(commitCertSize)]: the slice has [commitCertSize-1]
    elements. *)
Definition newCounter (commitCertSize : N) : counter :=
  MkCounter 0 (replicate (N.to_nat (u32_sub commitCertSize 1)) 0).

(** [for i, cv := range highest { if primaryCV > cv { highest\[i\] = primaryCV; return } }] *)
Fixpoint raise (primaryCV : N) (highest : list N) : option (list N) :=
  match highest with
  | [] => None
  | cv :: rest =>
      if cv <? primaryCV then Some (primaryCV :: rest)
      else rest' ← raise primaryCV rest; Some (cv :: rest')
  end.

(** The closure of [makeCommitmentCounter] *)
Definition countCommitment (view primaryCV : N) (c : counter) : bool * counter :=
  if view <? lastView c then (false, c)
  else
    let c := if lastView c <? view then MkCounter view (replicate (length (highest c)) 0) else c in
    match raise primaryCV (highest c) with
    | Some highest' => (false, MkCounter (lastView c) highest')
    | None => (true, c)
    end.

(** ** Both, in the order the collector runs them *)

Record commitment := MkCommitment {
  c_replicaID : N; c_newView : bool; c_view : N; c_primaryCV : N; c_replicaCV : N }.

Record collector := MkCollector { coll_acceptor : acceptor; coll_counter : counter }.

Definition newCollector (commitCertSize : N) : collector :=
  MkCollector newAcceptor (newCounter commitCertSize).

(** The body of [makeCommitmentCollector] between taking the lock and executing
    the proposal: the answer says whether the proposal is to be executed. *)
Definition collect (c : commitment) (st : collector) : outcome bool * collector :=
  match acceptCommitment (c_replicaID c) (c_newView c) (c_view c) (c_primaryCV c)
          (c_replicaCV c) (coll_acceptor st) with
  | (OK _, a) =>
      let '(done, cnt) := countCommitment (c_view c) (c_primaryCV c) (coll_counter st) in
      (OK done, MkCollector a cnt)
  | (Error e, a) => (Error (ErrorWrap "cannot accept commitment" e), MkCollector a (coll_counter st))
  | (Panic p, a) => (Panic p, MkCollector a (coll_counter st))
  end.

(** ** The counter against a reference *)

(** How many replicas have committed up to [x] or beyond. *)
Definition reached (x : N) (m : gmap N N) : nat :=
  size (filter (λ '(_, cv), x ≤ cv) m).

Record refCounter := MkRef { ref_view : N; ref_last : gmap N N }.

(** The reference: per view, the last proposal each replica committed to; a
    proposal is done when [certSize] replicas have reached it. *)
Definition refCount (certSize : nat) (replica view primaryCV : N) (r : refCounter) :
    bool * refCounter :=
  if view <? ref_view r then (false, r)
  else
    let m := if ref_view r <? view then ∅ else ref_last r in
    let m := <[replica := primaryCV]> m in
    ((certSize <=? reached primaryCV m)%nat, MkRef view m).

Lemma raise_length cv l l' : raise cv l = Some l' → length l' = length l.
Proof.
  revert l'; induction l as [|h l IH]; intros l'; simpl; [done|]. case_if; [by intros [= <-]|].
  destruct (raise cv l); simpl; [|done]. intros [= <-]. simpl. f_equal. auto.
Qed.

(** [raise] overwrites the first element below the counter, if there is one. *)
Lemma raise_spec cv l :
  match raise cv l with
  | Some l' => ∃ i, (i < length l)%nat ∧ l' = <[i := cv]> l ∧
                 (∃ h, l !! i = Some h ∧ h < cv) ∧
                 (∀ j h, (j < i)%nat → l !! j = Some h → cv ≤ h)
  | None => ∀ j h, l !! j = Some h → cv ≤ h
  end.
Proof.
  induction l as [|h l IH]; simpl; [done|]. case_if; nbool.
  - exists O. simpl. split; [lia|]. split; [done|]. split; [eauto|]. intros; lia.
  - destruct (raise cv l) as [l'|]; simpl.
    + destruct IH as (i & Hi & -> & Hlt & Hge). exists (S i). simpl.
      split; [lia|]. split; [done|]. split; [done|].
      intros [|j] h' Hj Hl; simpl in Hl; [by simplify_eq|]. eapply (Hge j); [lia|done].
    + intros [|j] h' Hl; simpl in Hl; [by simplify_eq|eauto].
Qed.

Lemma reached_empty x : reached x ∅ = 0%nat.
Proof. unfold reached. by rewrite map_filter_empty, map_size_empty. Qed.

Lemma reached_antitone x y m : x ≤ y → (reached y m ≤ reached x m)%nat.
Proof.
  intros Hxy. unfold reached. apply map_subseteq_size, map_filter_subseteq_ext.
  intros r cv _ Hy. simpl in *. lia.
Qed.

Lemma reached_delete x r m :
  reached x m = (reached x (delete r m) +
    match m !! r with Some cv => if decide (x ≤ cv)%N then 1 else 0 | None => 0 end)%nat.
Proof.
  unfold reached. rewrite map_filter_delete.
  destruct (m !! r) as [cv|] eqn:E.
  - case_decide as Hx.
    + assert (filter (λ '(_, cv), x ≤ cv) m !! r = Some cv) as Hf
        by (apply map_lookup_filter_Some; done).
      rewrite map_size_delete_Some by eauto.
      assert (size (filter (λ '(_, cv), x ≤ cv) m) ≠ 0%nat); [|lia].
      intros H0%map_size_empty_inv. by rewrite H0, lookup_empty in Hf.
    + rewrite delete_id; [lia|]. apply map_lookup_filter_None. right.
      intros cv' Hcv'. rewrite E in Hcv'. by simplify_eq.
  - rewrite delete_id; [lia|]. apply map_lookup_filter_None. by left.
Qed.

Lemma reached_insert x r cv m :
  reached x (<[r := cv]> m) =
  (reached x (delete r m) + if decide (x ≤ cv)%N then 1 else 0)%nat.
Proof. rewrite (reached_delete x r), delete_insert_eq, lookup_insert_eq. done. Qed.

(** The counter stores the order statistics of the reference: its [k]-th slot
    is at least [x] exactly when more than [k] replicas have reached [x]. *)
Definition represents (slots : nat) (c : counter) (r : refCounter) : Prop :=
  lastView c = ref_view r ∧ length (highest c) = slots ∧
  ∀ k h x, highest c !! k = Some h → 0 < x →
    (x ≤ h ↔ (k < reached x (ref_last r))%nat).

(** A commitment in order: the first of a replica in a view is to the view's
    first proposal [c0], the next ones follow one by one. *)
Definition in_sequence (c0 : N) (m : gmap N N) (replica primaryCV : N) : Prop :=
  match m !! replica with
  | None => primaryCV = c0
  | Some l => primaryCV = l + 1
  end.

Definition from_start (c0 : N) (m : gmap N N) : Prop := ∀ r cv, m !! r = Some cv → c0 ≤ cv.


Lemma reached_from_start c0 m x : from_start c0 m → x ≤ c0 → reached x m = reached c0 m.
Proof.
  intros Hs Hx. unfold reached. f_equal. apply map_filter_ext.
  intros r cv Hr. simpl. specialize (Hs _ _ Hr). lia.
Qed.

(** A commitment in order adds one replica to the proposal it is for, and
    otherwise only to thresholds that as many replicas had reached. *)
Lemma reached_step c0 m r cv x :
  from_start c0 m → in_sequence c0 m r cv →
  reached cv (<[r := cv]> m) = S (reached cv m) ∧
  (reached x (<[r := cv]> m) = reached x m ∨
   (x ≤ cv ∧ reached x (<[r := cv]> m) = S (reached x m) ∧ reached x m = reached cv m)).
Proof.
  intros Hs Hq. rewrite !reached_insert, !(reached_delete _ r m).
  unfold in_sequence in Hq. destruct (m !! r) as [l|] eqn:E.
  - subst cv. split; [repeat case_decide; lia|].
    destruct (decide (x = l + 1)) as [->|]; [right|left]; repeat case_decide; lia.
  - subst cv. split; [repeat case_decide; lia|].
    case_decide; [|left; lia]. right. split; [done|]. split; [lia|].
    assert (from_start c0 (delete r m)) as Hs'.
    { intros r' cv H'. apply lookup_delete_Some in H' as [_ H']. eauto. }
    rewrite (reached_from_start c0 (delete r m) x) by done. done.
Qed.

Lemma from_start_insert c0 m r cv :
  from_start c0 m → in_sequence c0 m r cv → from_start c0 (<[r := cv]> m).
Proof.
  intros Hs Hq r' cv' H. apply lookup_insert_Some in H as [[<- <-]|[_ H]]; [|eauto].
  unfold in_sequence in Hq. destruct (m !! r) as [l|] eqn:E; [|lia].
  specialize (Hs _ _ E). lia.
Qed.

(** One commitment in order, on a counter that represents [m]. *)
Lemma raise_represents c0 m r cv hs :
  0 < c0 → from_start c0 m → in_sequence c0 m r cv →
  (∀ k h x, hs !! k = Some h → 0 < x → (x ≤ h ↔ (k < reached x m)%nat)) →
  let m' := <[r := cv]> m in
  let hs' := default hs (raise cv hs) in
  (∀ k h x, hs' !! k = Some h → 0 < x → (x ≤ h ↔ (k < reached x m')%nat)) ∧
  (raise cv hs = None ↔ (length hs < reached cv m')%nat).
Proof.
  intros Hc0 Hs Hq Hrep m' hs'.
  assert (0 < cv) as Hcv.
  { unfold in_sequence in Hq. destruct (m !! r); lia. }
  pose proof (raise_spec cv hs) as Hraise. unfold hs'. clear hs'.
  destruct (reached_step c0 m r cv cv Hs Hq) as [Hown _].
  destruct (raise cv hs) as [hs'|]; simpl.
  - destruct Hraise as (i & Hi & -> & (h0 & Hh0 & Hlt) & Hge).
    assert (reached cv m = i) as Hri.
    { apply Nat.le_antisymm.
      - apply Nat.le_ngt. intros Hc. apply (Hrep i h0 cv Hh0 Hcv) in Hc. lia.
      - destruct i as [|j]; [lia|]. apply Nat.le_succ_l.
        destruct (lookup_lt_is_Some_2 hs j ltac:(lia)) as [hj Hj].
        apply (Hrep j hj cv Hj Hcv). eapply Hge; [|exact Hj]. lia. }
    split.
    + intros k h x Hk Hx. destruct (reached_step c0 m r cv x Hs Hq) as [_ Hstep].
      destruct (decide (k = i)) as [->|Hne].
      * rewrite list_lookup_insert_eq in Hk by done. simplify_eq.
        split.
        { intros Hle. pose proof (reached_antitone x h m' Hle). unfold m' in *. lia. }
        { intros Hlt'. destruct Hstep as [Heq|(? & _)]; [|done].
          destruct (N.le_gt_cases x h) as [|Hgt]; [done|exfalso].
          pose proof (reached_antitone h x m ltac:(lia)). unfold m' in *. lia. }
      * rewrite list_lookup_insert_ne in Hk by done. rewrite (Hrep k h x Hk Hx).
        unfold m'. destruct Hstep as [->|(? & -> & ->)]; [done|]. lia.
    + split; [done|]. unfold m'. lia.
  - assert (length hs ≤ reached cv m)%nat as Hfull.
    { destruct (length hs) as [|n] eqn:El; [lia|]. apply Nat.le_succ_l.
      destruct (lookup_lt_is_Some_2 hs n ltac:(lia)) as [hn Hn].
      apply (Hrep n hn cv Hn Hcv). eauto. }
    split; [|unfold m'; rewrite Hown; split; [lia|done]].
    intros k h x Hk Hx. rewrite (Hrep k h x Hk Hx). unfold m'.
    destruct (reached_step c0 m r cv x Hs Hq) as [_ [->|(Hle & -> & Hxe)]]; [done|].
    apply lookup_lt_Some in Hk. lia.
Qed.

(** *** Whole runs *)

(** Commitments as (replica, view, primary's counter). *)
Abbreviation vote := (N * N * N)%type.

Fixpoint runCount (c : counter) (l : list vote) : list bool :=
  match l with
  | [] => []
  | (_, view, cv) :: l => let '(done, c) := countCommitment view cv c in done :: runCount c l
  end.

Fixpoint runRef (certSize : nat) (r : refCounter) (l : list vote) : list bool :=
  match l with
  | [] => []
  | (rep, view, cv) :: l =>
      let '(done, r) := refCount certSize rep view cv r in done :: runRef certSize r l
  end.

(** Every replica commits, in each view, to the proposals [start view],
    [start view + 1], ... in this order; commitments to past views may occur. *)
Fixpoint ordered (start : N → N) (r : refCounter) (l : list vote) : Prop :=
  match l with
  | [] => True
  | (rep, view, cv) :: l =>
      (view < ref_view r ∨
       in_sequence (start view) (if ref_view r <? view then ∅ else ref_last r) rep cv) ∧
      ordered start (refCount 0 rep view cv r).2 l
  end.

Lemma refCount_state n1 n2 rep view cv r :
  (refCount n1 rep view cv r).2 = (refCount n2 rep view cv r).2.
Proof. unfold refCount. by case_if. Qed.

Lemma count_represents start certSize rep view cv c r :
  (∀ v, 0 < start v) → (1 ≤ certSize)%nat →
  represents (certSize - 1) c r → from_start (start (ref_view r)) (ref_last r) →
  view < ref_view r ∨ in_sequence (start view) (if ref_view r <? view then ∅ else ref_last r) rep cv →
  (countCommitment view cv c).1 = (refCount certSize rep view cv r).1 ∧
  represents (certSize - 1) (countCommitment view cv c).2 (refCount certSize rep view cv r).2 ∧
  from_start (start (ref_view (refCount certSize rep view cv r).2))
             (ref_last (refCount certSize rep view cv r).2).
Proof.
  intros Hstart Hcs Hr Hfs Hord. pose proof Hr as (Hv & Hlen & Hrep).
  unfold countCommitment, refCount. rewrite Hv.
  destruct (N.ltb_spec view (ref_view r)) as [Hpast|Hnow]; [by split; [|split]|].
  destruct Hord as [?|Hord]; [lia|].
  set (m := if ref_view r <? view then ∅ else ref_last r) in *.
  set (c' := if ref_view r <? view then MkCounter view (replicate (length (highest c)) 0) else c).
  assert (from_start (start view) m ∧ length (highest c') = (certSize - 1)%nat ∧
          lastView c' = view ∧
          ∀ k h x, highest c' !! k = Some h → 0 < x → (x ≤ h ↔ (k < reached x m)%nat))
    as (Hfs' & Hlen' & Hv' & Hrep').
  { unfold m, c'. destruct (N.ltb_spec (ref_view r) view) as [Hnew|Hold]; simpl.
    - split; [intros ?? H; empty_lookup|]. rewrite length_replicate. split; [done|]. split; [done|].
      intros k h x [-> _]%lookup_replicate Hx. rewrite reached_empty. lia.
    - assert (view = ref_view r) as -> by lia. by split; [|split; [|split]]. }
  clearbody m c'.
  destruct (raise_represents (start view) m rep cv (highest c') (Hstart _) Hfs' Hord Hrep')
    as [Hrep'' Hdone].
  assert (from_start (start view) (<[rep:=cv]> m)) by eauto using from_start_insert.
  pose proof (raise_length cv (highest c')) as Hrl.
  destruct (raise cv (highest c')) as [hs'|]; simpl in *.
  - split; [|split; [|done]].
    + symmetry. apply Nat.leb_gt. apply Nat.nle_gt. intros Hle. destruct Hdone as [_ Hd].
      discriminate Hd. lia.
    + split; [done|]. split; [|done]. simpl. by rewrite (Hrl _ eq_refl).
  - split; [|split; [|done]].
    + symmetry. apply Nat.leb_le. destruct Hdone as [Hd _]. specialize (Hd eq_refl). lia.
    + by split; [|split].
Qed.

Lemma runCount_runRef start certSize l c r :
  (∀ v, 0 < start v) → (1 ≤ certSize)%nat →
  represents (certSize - 1) c r → from_start (start (ref_view r)) (ref_last r) →
  ordered start r l → runCount c l = runRef certSize r l.
Proof.
  intros Hstart Hcs. revert c r.
  induction l as [|[[rep view] cv] l IH]; intros c r Hrep Hfs; simpl; [done|].
  intros [Hord Hl].
  destruct (count_represents start certSize rep view cv c r Hstart Hcs Hrep Hfs Hord)
    as (H1 & H2 & H3).
  rewrite (refCount_state 0 certSize) in Hl.
  destruct (countCommitment view cv c) as [d c'], (refCount certSize rep view cv r) as [d' r'].
  simpl in *. subst d'. f_equal. by apply IH.
Qed.

Lemma represents_init certSize :
  1 ≤ certSize → in_u32 certSize →
  represents (N.to_nat certSize - 1) (newCounter certSize) (MkRef 0 ∅).
Proof.
  intros Hcs Hu. unfold newCounter. rewrite u32_sub_small by lia. split; [done|]. simpl. split.
  - rewrite length_replicate. lia.
  - intros k h x [-> _]%lookup_replicate Hx. rewrite reached_empty. lia.
Qed.

(** C21: the commitment counter is an optimised count of replicas.  For every
    sequence of commitments in which each replica commits to the proposals of a
    view one by one from the view's first one, the array of the
    [commitCertSize-1] highest counters gives the same answers as recording how
    far each replica has committed and asking whether [commitCertSize] replicas
    have reached the proposal. *)
Theorem counter_matches_reference start certSize l :
  (∀ v, 0 < start v) → 1 ≤ certSize → in_u32 certSize →
  ordered start (MkRef 0 ∅) l →
  runCount (newCounter certSize) l = runRef (N.to_nat certSize) (MkRef 0 ∅) l.
Proof.
  intros Hstart Hcs Hu. apply runCount_runRef; [done|lia|by apply represents_init|].
  intros ?? H. empty_lookup.
Qed.

Lemma counter_matches_reference_witness :
  let l := [(0, 0, 1); (0, 0, 2); (1, 0, 1); (2, 0, 1); (1, 0, 2)] in
  runCount (newCounter 2) l = runRef 2 (MkRef 0 ∅) l.
Proof.
  apply (counter_matches_reference (λ _, 1) 2); [intros; lia|lia|lia|].
  repeat (split; [right; vm_compute; reflexivity|]). exact I.
Defined.

(** ** Every executed proposal has a quorum behind it

    The claim about the collector does not assume that commitments come in
    order: it is the acceptor that enforces what is needed. *)

(** Runs a list of commitments; the accepted ones are returned, latest first. *)
Fixpoint runCollect (l : list commitment) (st : collector) : collector * list commitment :=
  match l with
  | [] => (st, [])
  | c :: l =>
      let '(o, st') := collect c st in
      let '(st'', acc) := runCollect l st' in
      (st'', acc ++ (if isOK o then [c] else []))
  end.

(** UI counters of validated messages are [uint64] values other than zero. *)
Definition cv_ok (c : commitment) : Prop := 0 < c_primaryCV c ∧ in_u64 (c_primaryCV c).

Abbreviation viewOf a r := (lookupN (replicaViews a) r).
Abbreviation lastCV a r := (lookupN (lastPrimaryCVs a) r).

(** An accepted commitment is now the replica's last one; it is either its
    first in a later view, by a NewView, or follows the previous one in the
    same view.  Nothing changes for the other replicas. *)
Lemma accept_spec c a a' :
  acceptCommitment (c_replicaID c) (c_newView c) (c_view c) (c_primaryCV c) (c_replicaCV c) a
    = (OK tt, a') → cv_ok c → in_u64 (lastCV a (c_replicaID c)) →
  viewOf a' (c_replicaID c) = c_view c ∧ lastCV a' (c_replicaID c) = c_primaryCV c ∧
  (∀ r, r ≠ c_replicaID c → viewOf a' r = viewOf a r ∧ lastCV a' r = lastCV a r) ∧
  (if c_newView c then viewOf a (c_replicaID c) < c_view c
   else viewOf a (c_replicaID c) = c_view c ∧ c_primaryCV c = lastCV a (c_replicaID c) + 1).
Proof.
  unfold acceptCommitment, cv_ok. intros H Hcv Hlast.
  destruct (c_newView c); repeat case_if; simplify_eq; simpl; nbool.
  - rewrite !lookupN_insert. split; [done|]. split; [done|]. split; [|done].
    intros r Hr. by rewrite !lookupN_insert_ne.
  - rewrite lookupN_insert. split; [done|]. split; [done|]. split.
    + intros r Hr. by rewrite lookupN_insert_ne.
    + split; [done|]. revert E0. unfold u64_succ, u64. lia.
Qed.

(** [n]-element support for a statement about replicas. *)
Definition support (n : nat) (Q : N → Prop) : Prop :=
  ∃ R : gset N, (n ≤ size R)%nat ∧ ∀ r, r ∈ R → Q r.

Definition slots_supported (hs : list N) (Q : N → N → Prop) : Prop :=
  ∀ k h x, hs !! k = Some h → 0 < x → x ≤ h → support (S k) (Q x).

Lemma support_impl n (Q Q' : N → Prop) : (∀ r, Q r → Q' r) → support n Q → support n Q'.
Proof. intros HQ (R & Hs & HR). exists R. eauto. Qed.

Lemma support_add n (Q Q' : N → Prop) r0 :
  support n Q → ¬ Q r0 → Q' r0 → (∀ r, Q r → Q' r) → support (S n) Q'.
Proof.
  intros (R & Hs & HR) Hn Hr0 Himp. exists ({[r0]} ∪ R). split.
  - rewrite size_union by set_solver. rewrite size_singleton. lia.
  - set_solver.
Qed.

Lemma support_0 Q : support 0 Q.
Proof. exists ∅. split; [lia|set_solver]. Qed.

(** [Q x r]: replica [r] has reached [x] in the counter's view. *)
Lemma raise_supported cv hs (Q Q' : N → N → Prop) r0 :
  0 < cv → slots_supported hs Q →
  (∀ x r, Q x r → Q' x r) → (∀ x y r, x ≤ y → Q' y r → Q' x r) →
  ¬ Q cv r0 → Q' cv r0 →
  slots_supported (default hs (raise cv hs)) Q' ∧
  (raise cv hs = None → support (S (length hs)) (Q' cv)).
Proof.
  intros Hcv Hs Hmono Hanti Hn0 Hr0. pose proof (raise_spec cv hs) as Hraise.
  assert (∀ i, (∀ j h, (j < i)%nat → hs !! j = Some h → cv ≤ h) → (i ≤ length hs)%nat →
            support (S i) (Q' cv)) as Hsup.
  { intros i Hge Hi. apply (support_add i (Q cv) (Q' cv) r0); [|done|done|auto].
    destruct i as [|j]; [apply support_0|].
    destruct (lookup_lt_is_Some_2 hs j ltac:(lia)) as [h Hh].
    apply (Hs j h cv Hh Hcv). eapply Hge; [|exact Hh]. lia. }
  destruct (raise cv hs) as [hs'|]; simpl.
  - destruct Hraise as (i & Hi & -> & _ & Hge). split; [|done].
    intros k h x Hk Hx Hxh. destruct (decide (k = i)) as [->|Hne].
    + rewrite list_lookup_insert_eq in Hk by done. simplify_eq.
      eapply support_impl; [|apply Hsup; [exact Hge|lia]]. eauto.
    + rewrite list_lookup_insert_ne in Hk by done.
      eapply support_impl; [apply Hmono|eauto].
  - split.
    + intros k h x Hk Hx Hxh. eapply support_impl; [apply Hmono|eauto].
    + intros _. apply Hsup; [|lia]. eauto.
Qed.

(** What the collector has seen of a replica, as recorded by [H]: every counter
    up to the replica's last one in its view, or a NewView beyond it. *)
Definition witnessed (H : list commitment) (r view x : N) : Prop :=
  ∃ c, c ∈ H ∧ c_replicaID c = r ∧ c_view c = view ∧
    (c_primaryCV c = x ∨ (c_newView c = true ∧ x < c_primaryCV c)).

Definition in_view (st : collector) (x r : N) : Prop :=
  viewOf (coll_acceptor st) r = lastView (coll_counter st) ∧ x ≤ lastCV (coll_acceptor st) r.

Record coll_inv (slots : nat) (st : collector) (H : list commitment) : Prop := {
  ci_view : ∀ r, viewOf (coll_acceptor st) r ≤ lastView (coll_counter st);
  ci_range : ∀ r, in_u64 (lastCV (coll_acceptor st) r);
  ci_seen : ∀ r x, 0 < x → x ≤ lastCV (coll_acceptor st) r →
              witnessed H r (viewOf (coll_acceptor st) r) x;
  ci_length : length (highest (coll_counter st)) = slots;
  ci_slots : slots_supported (highest (coll_counter st)) (in_view st) }.

Lemma witnessed_cons c H r v x : witnessed H r v x → witnessed (c :: H) r v x.
Proof. intros (c' & ? & ?). exists c'. set_solver. Qed.

(** The counter's part of a step, in the view of the commitment. *)
Lemma count_supported c a a' cnt :
  let st := MkCollector a cnt in
  c_view c = lastView cnt → 0 < c_primaryCV c →
  slots_supported (highest cnt) (in_view st) →
  viewOf a' (c_replicaID c) = c_view c → lastCV a' (c_replicaID c) = c_primaryCV c →
  (∀ r, r ≠ c_replicaID c → viewOf a' r = viewOf a r ∧ lastCV a' r = lastCV a r) →
  ¬ in_view st (c_primaryCV c) (c_replicaID c) →
  (∀ x, in_view st x (c_replicaID c) → x ≤ c_primaryCV c) →
  let Q' := λ x r, viewOf a' r = lastView cnt ∧ x ≤ lastCV a' r in
  slots_supported (default (highest cnt) (raise (c_primaryCV c) (highest cnt))) Q' ∧
  (raise (c_primaryCV c) (highest cnt) = None →
     support (S (length (highest cnt))) (Q' (c_primaryCV c))).
Proof.
  intros st Hv Hcv Hs Hv' Hl' Hoth Hn Hle Q'.
  apply (raise_supported _ _ (in_view st) Q' (c_replicaID c)); auto; unfold Q'.
  - intros x r Hr. destruct (decide (r = c_replicaID c)) as [->|Hne].
    + rewrite Hv', Hl'. split; [done|]. by apply Hle.
    + destruct (Hoth r Hne) as [-> ->]. exact Hr.
  - intros x y r Hxy [? ?]. split; [done|lia].
  - rewrite Hv', Hl'. split; [done|lia].
Qed.

(** The acceptor's part of a step: what is recorded of every replica stays witnessed. *)
Lemma accept_witnessed c a a' H :
  (∀ r x, 0 < x → x ≤ lastCV a r → witnessed H r (viewOf a r) x) →
  viewOf a' (c_replicaID c) = c_view c → lastCV a' (c_replicaID c) = c_primaryCV c →
  (∀ r, r ≠ c_replicaID c → viewOf a' r = viewOf a r ∧ lastCV a' r = lastCV a r) →
  (c_newView c = false → viewOf a (c_replicaID c) = c_view c ∧
     c_primaryCV c ≤ lastCV a (c_replicaID c) + 1) →
  ∀ r x, 0 < x → x ≤ lastCV a' r → witnessed (c :: H) r (viewOf a' r) x.
Proof.
  intros Hseen Hv' Hl' Hoth Hkind r x Hx. destruct (decide (r = c_replicaID c)) as [->|Hne].
  - rewrite Hv', Hl'. intros Hxl.
    destruct (decide (x = c_primaryCV c)) as [->|Hneq]; [exists c; set_solver|].
    destruct (c_newView c) eqn:En.
    + exists c. split; [set_solver|]. repeat split. right. split; [done|lia].
    + destruct (Hkind eq_refl) as [Hkv Hkc]. rewrite <- Hkv. apply witnessed_cons, Hseen; [done|lia].
  - destruct (Hoth r Hne) as [-> ->]. intros. by apply witnessed_cons, Hseen.
Qed.

(** The counter moves to the view of the commitment with empty slots. *)
Lemma fresh_view slots c a cnt H :
  coll_inv slots (MkCollector a cnt) H → lastView cnt ≤ c_view c →
  let cnt' := if lastView cnt <? c_view c
              then MkCounter (c_view c) (replicate (length (highest cnt)) 0) else cnt in
  lastView cnt' = c_view c ∧ length (highest cnt') = slots ∧
  slots_supported (highest cnt') (in_view (MkCollector a cnt')) ∧
  ∀ r, viewOf a r ≤ lastView cnt'.
Proof.
  intros [Hview _ _ Hlen Hslots] Hnow cnt'. unfold cnt'. simpl in *.
  destruct (N.ltb_spec (lastView cnt) (c_view c)); simpl.
  - split; [done|]. split; [by rewrite length_replicate|]. split.
    + intros k h x [-> _]%lookup_replicate. lia.
    + intros r. specialize (Hview r). lia.
  - split; [lia|]. done.
Qed.

Lemma collect_inv slots c st H o st' :
  coll_inv slots st H → cv_ok c → collect c st = (o, st') →
  coll_inv slots st' (if isOK o then c :: H else H) ∧
  (o = OK true → support (S slots) (λ r,
     viewOf (coll_acceptor st') r = c_view c ∧ c_primaryCV c ≤ lastCV (coll_acceptor st') r)).
Proof.
  intros Hinv Hcv. destruct st as [a cnt]. unfold collect. simpl.
  destruct (acceptCommitment _ _ _ _ _ a) as [[[]|e|p] a'] eqn:Ea;
    [|unfold acceptCommitment in Ea; destruct (c_newView c); repeat case_if; simplify_eq;
      intros [= <- <-]; done..].
  destruct Hinv as [Hview Hrange Hseen Hlen Hslots]. simpl in *.
  destruct (accept_spec c a a' Ea Hcv (Hrange _)) as (Hv' & Hl' & Hoth & Hkind).
  assert (∀ r, in_u64 (lastCV a' r)) as Hrange'.
  { intros r. destruct (decide (r = c_replicaID c)) as [->|Hne].
    - rewrite Hl'. apply Hcv.
    - destruct (Hoth r Hne) as [_ ->]. done. }
  assert (∀ r x, 0 < x → x ≤ lastCV a' r → witnessed (c :: H) r (viewOf a' r) x) as Hseen'.
  { apply (accept_witnessed c a); auto. intros En. rewrite En in Hkind. destruct Hkind. split; [done|lia]. }
  unfold countCommitment. destruct (N.ltb_spec (c_view c) (lastView cnt)) as [Hpast|Hnow].
  - intros [= <- <-]. split; [|done]. constructor; simpl; auto.
    + intros r. destruct (decide (r = c_replicaID c)) as [->|Hne]; [lia|].
      destruct (Hoth r Hne) as [-> _]. done.
    + intros k h x Hk Hx Hxh. eapply support_impl; [|by eapply Hslots].
      intros r Hr. unfold in_view in *; simpl in *.
      destruct (decide (r = c_replicaID c)) as [->|Hne]; [|by destruct (Hoth r Hne) as [-> ->]].
      exfalso. destruct (c_newView c); lia.
  - set (cnt' := if lastView cnt <? c_view c
                 then MkCounter (c_view c) (replicate (length (highest cnt)) 0) else cnt).
    destruct (fresh_view slots c a cnt H) as (Hcv' & Hlen' & Hslots' & Hview'); [by constructor|done|].
    fold cnt' in Hcv', Hlen', Hslots', Hview'.
    clearbody cnt'.
    destruct (count_supported c a a' cnt') as [Hs Hd]; auto; [by destruct Hcv| | |].
    { unfold in_view; simpl. destruct (c_newView c); lia. }
    { unfold in_view; simpl. intros x [? ?]. destruct (c_newView c); lia. }
    pose proof (raise_length (c_primaryCV c) (highest cnt')) as Hrl.
    assert (∀ r, viewOf a' r ≤ lastView cnt') as Hview''.
    { intros r. destruct (decide (r = c_replicaID c)) as [->|Hne]; [lia|].
      destruct (Hoth r Hne) as [-> _]. done. }
    destruct (raise (c_primaryCV c) (highest cnt')) as [hs'|]; simpl in *; intros [= <- <-].
    + split; [|done]. constructor; simpl; auto. by rewrite (Hrl _ eq_refl).
    + split; [by constructor|]. intros _. rewrite <- Hlen', <- Hcv'. by apply Hd.
Qed.

Lemma coll_inv_init certSize :
  1 ≤ certSize → in_u32 certSize → coll_inv (N.to_nat certSize - 1) (newCollector certSize) [].
Proof.
  intros H1 H2. unfold newCollector, newCounter, newAcceptor. rewrite u32_sub_small by lia.
  constructor; simpl; intros *; rewrite ?lookupN_empty; try lia.
  - rewrite length_replicate. lia.
  - intros k h x [-> _]%lookup_replicate. lia.
Qed.

Lemma runCollect_inv slots l st H st' acc :
  coll_inv slots st H → Forall cv_ok l → runCollect l st = (st', acc) →
  coll_inv slots st' (acc ++ H).
Proof.
  intros Hinv Hok. revert st H st' acc Hinv.
  induction Hok as [|c l Hc _ IH]; intros st H st' acc Hinv; simpl.
  { by intros [= <- <-]. }
  destruct (collect c st) as [o st1] eqn:Ec.
  destruct (runCollect l st1) as [st2 acc2] eqn:Er. intros [= <- <-].
  destruct (collect_inv slots c st H o st1 Hinv Hc Ec) as [Hinv1 _].
  specialize (IH _ _ _ _ Hinv1 Er). rewrite <- app_assoc. by destruct (isOK o).
Qed.

(** C7: a proposal is executed only when a commit certificate backs it.  After
    any sequence of commitments (accepted or not), when the collector answers
    that the proposal of commitment [c] is to be executed, at least
    [commitCertSize] distinct replicas have an accepted commitment in the view
    of [c] to that very proposal, or to a NewView of that view with a later
    counter. *)
Theorem executed_has_quorum certSize l c st acc st' :
  1 ≤ certSize → in_u32 certSize → Forall cv_ok l → cv_ok c →
  runCollect l (newCollector certSize) = (st, acc) →
  collect c st = (OK true, st') →
  ∃ R : gset N, certSize ≤ N.of_nat (size R) ∧
    ∀ r, r ∈ R → witnessed (c :: acc) r (c_view c) (c_primaryCV c).
Proof.
  intros H1 H2 Hl Hc Hrun Hcol.
  assert (coll_inv (N.to_nat certSize - 1) st acc) as Hinv.
  { rewrite <- (app_nil_r acc). eapply runCollect_inv; [by apply coll_inv_init|done|done]. }
  destruct (collect_inv _ _ _ _ _ _ Hinv Hc Hcol) as [Hinv' Hsup].
  destruct (Hsup eq_refl) as (R & HR & Hall). exists R. split; [lia|].
  intros r [Hv Hx]%Hall. rewrite <- Hv. destruct Hinv' as [_ _ Hseen _ _].
  apply Hseen; [by destruct Hc|done].
Qed.

Lemma executed_has_quorum_witness :
  ∃ R : gset N, 2 ≤ N.of_nat (size R) ∧
    ∀ r, r ∈ R → witnessed [MkCommitment 1 false 0 1 1; MkCommitment 0 false 0 1 1] r 0 1.
Proof.
  apply (executed_has_quorum 2 [MkCommitment 0 false 0 1 1] (MkCommitment 1 false 0 1 1)
    (runCollect [MkCommitment 0 false 0 1 1] (newCollector 2)).1 _
    (collect (MkCommitment 1 false 0 1 1)
      (runCollect [MkCommitment 0 false 0 1 1] (newCollector 2)).1).2);
    [lia|lia|repeat constructor|repeat constructor|reflexivity|reflexivity].
Defined.

End Commitment.
