(* ===== verification/Api.v ===== *)
(** Package [api] ([src/api/api.go]): the interfaces of the modules a replica is
    given.  The replica is verified against these classes; an implementation of
    a module is an instance. *)

From S2P Require Import Prelude Usig Messages.

(** [type AuthenticationRole int] *)
Inductive AuthenticationRole := ReplicaAuthen | USIGAuthen | ClientAuthen.

#[global] Instance role_eq_dec : EqDecision AuthenticationRole.
Proof. solve_decision. Defined.

(** [type Authenticator interface].  Verification is a function of its
    arguments; generation has a state [Au], the USIG counter among it. *)
Class Authenticator (Au : Type) := {
  VerifyMessageAuthenTag :
    ∀ (role : AuthenticationRole) (id : N) (msg tag : bytes), outcome unit;
  GenerateMessageAuthenTag :
    ∀ (role : AuthenticationRole) (msg : bytes) (au : Au), outcome bytes * Au }.
Arguments VerifyMessageAuthenTag {Au _} role id msg tag.

(** [type RequestConsumer interface]: [Deliver] starts the execution of an
    operation; the result is what is later received from the channel. *)
Class RequestConsumer (Co : Type) := {
  Deliver : ∀ (op : bytes) (co : Co), bytes * Co }.

(** [type Configer interface], durations in nanoseconds *)
Record Configer := MkConfig {
  cfg_N : N; cfg_F : N;
  TimeoutRequest : Z; TimeoutPrepare : Z; TimeoutViewChange : Z }.

(** What the code relies on of the USIG behind [GenerateMessageAuthenTag]
    (interface [USIG], [src/usig/usig.go]): the tag is a marshaled UI whose
    counter, a [uint64], is one more than that of the previous UI, and the other
    roles do not consume counter values.  [usigCounter] is the number of UIs
    generated so far. *)
Class SequentialUSIG (Au : Type) `{!Authenticator Au} := {
  usigCounter : Au → N;
  usig_next : ∀ msg au,
    ∃ cert, (GenerateMessageAuthenTag USIGAuthen msg au).1 =
              OK (Usig.MustMarshalUI (MkUI (u64 (usigCounter au + 1)) cert)) ∧
            usigCounter (GenerateMessageAuthenTag USIGAuthen msg au).2 = usigCounter au + 1;
  usig_other : ∀ role msg au, role ≠ USIGAuthen →
    ∃ tag, (GenerateMessageAuthenTag role msg au).1 = OK tag ∧
           usigCounter (GenerateMessageAuthenTag role msg au).2 = usigCounter au }.

(** A counter with empty certificates and signatures, which accepts every tag:
    the instance used to evaluate concrete runs. *)
Definition plainAuthen : Authenticator N := {|
  VerifyMessageAuthenTag role id msg tag := OK tt;
  GenerateMessageAuthenTag role msg au :=
    match role with
    | USIGAuthen => (OK (Usig.MustMarshalUI (MkUI (u64 (au + 1)) [])), au + 1)
    | _ => (OK [], au)
    end |}.

Definition plainUSIG : @SequentialUSIG N plainAuthen.
Proof.
  refine (@Build_SequentialUSIG N plainAuthen (λ au, au) _ _).
  - intros msg au. exists []. done.
  - intros role msg au Hr. exists []. by destruct role.
Defined.

(** A consumer that records the operations and returns each as its result. *)
Definition recordingConsumer : RequestConsumer (list bytes) := {|
  Deliver op co := (op, co ++ [op]) |}.
