(* ===== verification/Config.v ===== *)
(** The sample configuration ([src/sample/config/viperconfiger.go]).

    The package [viper], which parses configuration files, is a parameter: reading a
    file gives a table or an error, and a table is asked for integers, durations and
    peers.  [path/filepath] is modelled for the path separator '/'. *)

From Stdlib Require Import Strings.Byte.
From S2P Require Import Prelude Api.

Module Config.

(** ** [filepath.Split] and [filepath.Ext] *)

(** The position of the last [b]. *)
Fixpoint lastIndex (b : byte) (l : bytes) : option nat :=
  match l with
  | [] => None
  | x :: l => match lastIndex b l with
              | Some i => Some (S i)
              | None => if bool_decide (x = b) then Some O else None
              end
  end.

Definition slash : byte := x2f.
Definition dot : byte := x2e.

Definition Split (path : bytes) : bytes * bytes :=
  match lastIndex slash path with
  | Some i => (take (S i) path, drop (S i) path)
  | None => ([], path)
  end.

(** The suffix from the last dot of the last element. *)
Definition Ext (path : bytes) : bytes :=
  let file := (Split path).2 in
  match lastIndex dot file with Some i => drop i file | None => [] end.

Lemma lastIndex_None b l : lastIndex b l = None ↔ b ∉ l.
Proof.
  induction l as [|x l IH]; simpl; [split; [by intros _ ?%elem_of_nil|done]|].
  rewrite elem_of_cons. destruct (lastIndex b l).
  - split; [done|]. intros Hn. exfalso. apply Hn. right.
    destruct (decide (b ∈ l)) as [?|?]; [done|]. by apply IH in n0.
  - case_bool_decide; [|naive_solver]. naive_solver.
Qed.

Lemma lastIndex_Some b l i :
  lastIndex b l = Some i ↔ ∃ l1 l2, l = l1 ++ b :: l2 ∧ length l1 = i ∧ b ∉ l2.
Proof.
  revert i. induction l as [|x l IH]; intros i; simpl.
  - split; [done|]. by intros ([] & l2 & ? & _).
  - destruct (lastIndex b l) as [k|] eqn:E.
    + split.
      * intros [= <-]. destruct (proj1 (IH k) eq_refl) as (l1 & l2 & -> & <- & ?). by exists (x :: l1), l2.
      * intros (l1 & l2 & El & <- & Hn). destruct l1 as [|y l1]; simplify_eq/=.
        -- apply lastIndex_None in Hn. congruence.
        -- f_equal. f_equal. enough (Some k = Some (length l1)) by congruence.
           apply IH. by exists l1, l2.
    + apply lastIndex_None in E. case_bool_decide as Hx.
      * split; [intros [= <-]; subst; by exists [], l|].
        intros (l1 & l2 & El & <- & Hn). destruct l1 as [|y l1]; simplify_eq/=; [done|].
        exfalso. apply E. set_solver.
      * split; [done|]. intros (l1 & l2 & El & <- & Hn). exfalso.
        destruct l1 as [|y l1]; simplify_eq/=. apply E. set_solver.
Qed.

(** ** The configer *)

(** [type Peer struct] *)
Record Peer := MkPeer { peer_ID : Z; peer_Addr : bytes }.

Section Viper.
Context {viper : Type}.
Context (ReadInConfig : bytes → bytes → list bytes → outcome viper).  (* name, type, paths *)
Context (viper_ReadConfig : bytes → bytes → outcome viper).           (* type, contents *)
Context (GetInt64 GetDuration : viper → string → Z).
Context (UnmarshalPeers : viper → outcome (list Peer)).

(** [type ViperConfiger struct]; the pointer may be nil. *)
Record ViperConfiger := MkViperConfiger { config : option viper }.

(** [func New() *ViperConfiger] *)
Definition New : ViperConfiger := MkViperConfiger None.

(** [func (c *ViperConfiger) LoadConfig(filePath string)] *)
Definition LoadConfig (filePath : bytes) (c : ViperConfiger) : outcome ViperConfiger :=
  let '(confPath, confName) := Split filePath in
  let ext := Ext confName in
  let name := take (length confName - length ext) confName in
  if (length ext <? 2)%nat || (length name =? 0)%nat
  then Panic "Invalid config file name (should specify file extension for parsing)."
  else match ReadInConfig name (drop 1 ext) [confPath; [dot; slash]] with
       | OK v => OK (MkViperConfiger (Some v))
       | _ => Panic "Failed to parse config file: "
       end.

(** [func (c *ViperConfiger) ReadConfig(in io.Reader, cfgType string) error] *)
Definition ReadConfig (contents cfgType : bytes) (c : ViperConfiger) : outcome unit * ViperConfiger :=
  match viper_ReadConfig cfgType contents with
  | OK v => (OK tt, MkViperConfiger (Some v))
  | Error e => (Error e, c)
  | Panic p => (Panic p, c)
  end.

(** [func (c *ViperConfiger) IsInitialized() bool] *)
Definition IsInitialized (c : ViperConfiger) : bool := if config c then true else false.

Definition withConfig {A} (c : ViperConfiger) (f : viper → A) : outcome A :=
  match config c with Some v => OK (f v) | None => Panic "nil pointer dereference" end.

(** [func (c *ViperConfiger) getUint32(key string) uint32] *)
Definition getUint32 (key : string) (c : ViperConfiger) : outcome N :=
  n ← withConfig c (λ v, GetInt64 v key);
  if ((n <? 0) || (2 ^ 32 - 1 <? n))%Z then Panic ("interger overflow: " +:+ key)
  else OK (u32 (Z.to_N n)).

(** [func (c *ViperConfiger) getTimeDuration(key string) time.Duration] *)
Definition getTimeDuration (key : string) (c : ViperConfiger) : outcome Z :=
  withConfig c (λ v, GetDuration v key).

Definition cfgN (c : ViperConfiger) : outcome N := getUint32 "protocol.n" c.
Definition cfgF (c : ViperConfiger) : outcome N := getUint32 "protocol.f" c.
Definition CheckpointPeriod (c : ViperConfiger) : outcome N := getUint32 "protocol.checkpointPeriod" c.
Definition Logsize (c : ViperConfiger) : outcome N := getUint32 "protocol.logsize" c.
Definition cfgTimeoutRequest (c : ViperConfiger) : outcome Z := getTimeDuration "protocol.timeout.request" c.
Definition cfgTimeoutPrepare (c : ViperConfiger) : outcome Z := getTimeDuration "protocol.timeout.prepare" c.
Definition cfgTimeoutViewChange (c : ViperConfiger) : outcome Z :=
  getTimeDuration "protocol.timeout.viewchange" c.

(** [func (c *ViperConfiger) Peers() \[\]Peer]: no peers when they do not parse. *)
Definition Peers (c : ViperConfiger) : outcome (list Peer) :=
  r ← withConfig c UnmarshalPeers;
  match r with OK peers => OK peers | Error _ => OK [] | Panic p => Panic p end.

(** The configuration of a replica, as [core.New] asks for it. *)
Definition configerOf (c : ViperConfiger) : outcome Configer :=
  n ← cfgN c; f ← cfgF c; tr ← cfgTimeoutRequest c; tp ← cfgTimeoutPrepare c; tv ← cfgTimeoutViewChange c;
  OK (MkConfig n f tr tp tv).

End Viper.

Lemma getUint32_OK {viper} (GetInt64 : viper → string → Z) key c n :
  getUint32 GetInt64 key c = OK n ↔
  ∃ v, config c = Some v ∧ (0 ≤ GetInt64 v key < 2 ^ 32)%Z ∧ n = Z.to_N (GetInt64 v key).
Proof.
  unfold getUint32, withConfig. destruct (config c) as [v|]; simpl; [|naive_solver].
  destruct (Z.ltb_spec (GetInt64 v key) 0), (Z.ltb_spec (2 ^ 32 - 1) (GetInt64 v key)); simpl; try
    (split; [done|]; intros (v' & [= <-] & ? & _); lia).
  assert (u32 (Z.to_N (GetInt64 v key)) = Z.to_N (GetInt64 v key)) as -> by (unfold u32; apply N.mod_small; lia).
  split; [intros [= <-]; exists v; split_and!; [done|lia|lia|done]|]. by intros (v' & [= <-] & _ & ->).
Qed.

Lemma getUint32_total {viper} (GetInt64 : viper → string → Z) key c : isOK (getUint32 GetInt64 key c) = false → isPanic (getUint32 GetInt64 key c) = true.
Proof. unfold getUint32, withConfig. destruct (config c); simpl; [|done]. by case_if. Qed.

(** ** Theorems *)

(** A file name that [LoadConfig] takes: a directory, a name and an extension. *)
Definition valid_path (path dir name ext : bytes) : Prop :=
  path = dir ++ name ++ dot :: ext ∧ (dir = [] ∨ ∃ d, dir = d ++ [slash]) ∧
  name ≠ [] ∧ ext ≠ [] ∧ slash ∉ name ++ dot :: ext ∧ dot ∉ ext.

Lemma length_snoc {A} (l : list A) x : length (l ++ [x]) = S (length l).
Proof. rewrite length_app. simpl. lia. Qed.

Lemma Split_spec path dir file :
  Split path = (dir, file) ↔
  path = dir ++ file ∧ (dir = [] ∨ ∃ d, dir = d ++ [slash]) ∧ slash ∉ file.
Proof.
  split.
  - unfold Split. destruct (lastIndex slash path) as [i|] eqn:E; intros [= <- <-].
    + split; [by rewrite take_drop|]. apply lastIndex_Some in E as (l1 & l2 & -> & <- & Hn).
      rewrite cons_middle, app_assoc, <- (length_snoc _ slash), take_app_length, drop_app_length. eauto.
    + apply lastIndex_None in E. auto.
  - intros (-> & [->|[d ->]] & Hn); unfold Split; simpl.
    + by rewrite (proj2 (lastIndex_None slash file) Hn).
    + assert (lastIndex slash ((d ++ [slash]) ++ file) = Some (length d)) as ->.
      { apply lastIndex_Some. exists d, file. by rewrite <- app_assoc. }
      by rewrite <- (length_snoc _ slash), take_app_length, drop_app_length.
Qed.

Lemma Ext_file file : slash ∉ file → Ext file = match lastIndex dot file with Some i => drop i file | None => [] end.
Proof.
  intros Hn. unfold Ext. by rewrite (proj2 (Split_spec file [] file) (conj eq_refl (conj (or_introl eq_refl) Hn))).
Qed.

(** The parts of a path as [LoadConfig] computes them are those of [valid_path]. *)
Lemma LoadConfig_parts {viper} (Read : bytes → bytes → list bytes → outcome viper) path c :
  (∀ dir name ext, valid_path path dir name ext →
     LoadConfig Read path c = match Read name ext [dir; [dot; slash]] with
                              | OK v => OK (MkViperConfiger (Some v))
                              | _ => Panic "Failed to parse config file: "
                              end) ∧
  ((∃ dir name ext, valid_path path dir name ext) ∨ isPanic (LoadConfig Read path c) = true).
Proof.
  split.
  - intros dir name ext (-> & Hdir & Hname & Hext & Hns & Hnd). unfold LoadConfig.
    rewrite (proj2 (Split_spec _ dir (name ++ dot :: ext)) (conj eq_refl (conj Hdir Hns))).
    assert (lastIndex dot (name ++ dot :: ext) = Some (length name)) as El.
    { apply lastIndex_Some. by exists name, ext. }
    rewrite (Ext_file _ Hns), El, drop_app_length. change (length (dot :: ext)) with (S (length ext)).
    assert (length (name ++ dot :: ext) - S (length ext) = length name)%nat as ->
      by (rewrite length_app; simpl; lia).
    rewrite take_app_length. destruct name as [|x name], ext as [|y ext]; done.
  - unfold LoadConfig. destruct (Split path) as [dir file] eqn:Es.
    apply Split_spec in Es as (-> & Hdir & Hns). rewrite (Ext_file _ Hns).
    destruct (lastIndex dot file) as [i|] eqn:El; [|by right].
    apply lastIndex_Some in El as (name & ext & -> & <- & Hnd). rewrite drop_app_length. change (length (dot :: ext)) with (S (length ext)).
    assert (length (name ++ dot :: ext) - S (length ext) = length name)%nat as ->
      by (rewrite length_app; simpl; lia).
    rewrite take_app_length. destruct name as [|x name], ext as [|y ext]; try by right.
    left. exists dir, (x :: name), (y :: ext). by split_and!.
Qed.

(** Loading a configuration.  [LoadConfig] panics exactly when the path is not a
    directory, a name and an extension, all of the last two non-empty, or the file of
    that name and type is not found in the directory or the working directory or
    does not parse; otherwise the configer is initialized with what was read. *)
Theorem load_config_exact {viper} (Read : bytes → bytes → list bytes → outcome viper) path c :
  (∀ c', LoadConfig Read path c = OK c' ↔
     ∃ dir name ext v, valid_path path dir name ext ∧ Read name ext [dir; [dot; slash]] = OK v ∧
       c' = MkViperConfiger (Some v)) ∧
  (isPanic (LoadConfig Read path c) = true ↔ ∀ c', LoadConfig Read path c ≠ OK c').
Proof.
  destruct (LoadConfig_parts Read path c) as [Hv Hn]. split.
  - intros c'. split.
    + intros E. destruct Hn as [(dir & name & ext & Hp)|Hn]; [|by rewrite E in Hn].
      pose proof (Hv _ _ _ Hp) as E'. rewrite E in E'.
      destruct (Read name ext _) as [v| |] eqn:Er; simplify_eq. by exists dir, name, ext, v.
    + intros (dir & name & ext & v & Hp & Er & ->). by rewrite (Hv _ _ _ Hp), Er.
  - split; [by intros Hpan c' E; rewrite E in Hpan|]. intros Hno.
    destruct Hn as [(dir & name & ext & Hp)|Hn]; [|done]. specialize (Hv _ _ _ Hp).
    rewrite Hv in *. destruct (Read name ext _) as [v| |]; [|done..]. by destruct (Hno (MkViperConfiger (Some v))).
Qed.

(** The values of a configuration.  The configer gives a replica its configuration or
    panics, and it gives one exactly when it is initialized and the numbers of replicas
    and of faults are in the range of [uint32]; the configuration then has these
    numbers and the timeouts of the file. *)
Theorem config_values_exact {viper} (Int Duration : viper → string → Z) (c : ViperConfiger) cfg :
  (configerOf Int Duration c = OK cfg ↔
   ∃ v, config c = Some v ∧
     (0 ≤ Int v "protocol.n" < 2 ^ 32)%Z ∧ (0 ≤ Int v "protocol.f" < 2 ^ 32)%Z ∧
     cfg = MkConfig (Z.to_N (Int v "protocol.n")) (Z.to_N (Int v "protocol.f"))
       (Duration v "protocol.timeout.request") (Duration v "protocol.timeout.prepare")
       (Duration v "protocol.timeout.viewchange")) ∧
  (isOK (configerOf Int Duration c) = false → isPanic (configerOf Int Duration c) = true).
Proof.
  unfold configerOf, cfgN, cfgF, cfgTimeoutRequest, cfgTimeoutPrepare, cfgTimeoutViewChange, getTimeDuration.
  split.
  - split.
    + intros (n & En & (f & Ef & E)%outcome_bind_OK)%outcome_bind_OK.
      destruct (proj1 (getUint32_OK _ _ _ _) En) as (v & Hv & Hn & ->).
      destruct (proj1 (getUint32_OK _ _ _ _) Ef) as (v' & Hv' & Hf & ->).
      unfold withConfig in E. rewrite Hv in *. simplify_eq/=. by eexists.
    + intros (v & Hv & Hn & Hf & ->).
      rewrite (proj2 (getUint32_OK Int "protocol.n" c _) (ex_intro _ v (conj Hv (conj Hn eq_refl)))).
      rewrite (proj2 (getUint32_OK Int "protocol.f" c _) (ex_intro _ v (conj Hv (conj Hf eq_refl)))).
      unfold withConfig. by rewrite Hv.
  - pose proof (getUint32_total Int "protocol.n" c) as Hn. pose proof (getUint32_total Int "protocol.f" c) as Hf.
    destruct (getUint32 Int "protocol.n" c); simpl in *; [|auto..].
    destruct (getUint32 Int "protocol.f" c); simpl in *; [|auto..].
    unfold withConfig. by destruct (config c).
Qed.

End Config.
