(* ===== verification/SampleAuthen.v ===== *)
(** The sample authenticator ([src/sample/authentication/authenticator.go] and
    [crypto.go]): the authentication schemes, the choice of a scheme for each role
    and the generation and verification of tags, on the SGX USIG of [SgxUsig].

    The key store is the interface [BftKeyStorer] ([keymanager.go]).  ECDSA and the
    ASN.1 and PKIX encodings are parameters, as in [SgxUsig]; the randomness and
    the answers of the SGX library come from a sequence [envs], one element per
    generated tag. *)

From S2P Require Import Prelude Bytes Sha256 Usig SgxUsig Messages Api.
From Stdlib Require Import Strings.Byte.

Module SampleAuthen.
Import Usig SgxUsig.

(** [const keySpecSgxEcdsa, keySpecEcdsa] *)
Definition keySpecSgxEcdsa : string := "SGX_ECDSA".
Definition keySpecEcdsa : string := "ECDSA".

(** [type BftKeyStorer interface], less [PublicKey], which the authenticator does
    not call *)
Record BftKeyStorer := MkKeyStorer {
  KeySpec : AuthenticationRole → string;
  PrivateKey : AuthenticationRole → key;
  NodePublicKey : AuthenticationRole → N → outcome key;
  NodeRoles : list AuthenticationRole;
  NodeKeySpec : AuthenticationRole → string }.

(** The implementations of [AuthenticationScheme]. *)
Inductive AuthenticationScheme := PublicAuthenScheme | SGXUSIGAuthenticationScheme.

(** The argument [usig] of [new]: nil, an [*sgxusig.USIG] or another [usig.USIG]. *)
Inductive usigArg := NoUSIG | SgxUSIG | OtherUSIG.

Definition schemes := AuthenticationRole → option AuthenticationScheme.

(** One pass of the loop of [func new]. *)
Definition newScheme (ks : BftKeyStorer) (usig : usigArg) (r : AuthenticationRole) (a : schemes) :
    outcome schemes :=
  let ksName := NodeKeySpec ks r in
  let set s : schemes := λ r', if decide (r' = r) then Some s else a r' in
  if negb (Bool.eqb (bool_decide (r = USIGAuthen)) (bool_decide (ksName = keySpecSgxEcdsa)))
  then Error (Errorf "cannot use keyspec for role")
  else if bool_decide (ksName = keySpecEcdsa) then OK (set PublicAuthenScheme)
  else if bool_decide (ksName = keySpecSgxEcdsa) then
    match usig with
    | NoUSIG => OK a
    | SgxUSIG => OK (set SGXUSIGAuthenticationScheme)
    | OtherUSIG => Error (Errorf "cannot use supplied USIG: keyspec requires SGX USIG")
    end
  else Error (Errorf "cannot find an authentication scheme corresponding to the keyspec").

(** [func new]: the map [authschemes]. *)
Fixpoint newSchemes (ks : BftKeyStorer) (usig : usigArg) (roles : list AuthenticationRole)
    (a : schemes) : outcome schemes :=
  match roles with
  | [] => OK a
  | r :: roles => a ← newScheme ks usig r a; newSchemes ks usig roles a
  end.

Definition new (ks : BftKeyStorer) (usig : usigArg) : outcome schemes :=
  newSchemes ks usig (NodeRoles ks) (λ _, None).

(** [epoch map\[usigKeyFingerprint\]uint64] *)
Abbreviation epochs := (gmap bytes N).

Section Schemes.
Context (sgx_ecdsa_sign : bytes → bytes → N → sgx sgx_ec256_signature_t).
Context (asn1_Marshal : Z * Z → outcome bytes) (asn1_Unmarshal : bytes → outcome ((Z * Z) * bytes)).
Context (ecdsa_Sign : N → N → PublicKey → bytes → outcome (Z * Z)).
Context (ecdsa_Verify : PublicKey → bytes → Z → Z → bool).
Context (MarshalPKIX : key → outcome bytes) (ParsePKIX : bytes → outcome key).

(** ** [EcdsaSigCipher] *)

(** [func (c *EcdsaSigCipher) Sign]; [nonce] is what is read from [rand.Reader]. *)
Definition Sign (nonce : N) (md : bytes) (privKey : key) : outcome bytes :=
  match privKey with
  | EcdsaPrivate d k =>
      '(r, s) ← wrapf "ECDSA signing error" (ecdsa_Sign nonce d k md);
      wrapf "ECDSA signature ASN1-DER marshal error" (asn1_Marshal (r, s))
  | _ => Error (Errorf "incompatible format of ECDSA private key")
  end.

(** [func (c *EcdsaSigCipher) Verify] *)
Definition Verify (md sig : bytes) (pubKey : key) : outcome bool :=
  match asn1_Unmarshal sig with
  | OK ((R, S'), _) =>
      match pubKey with
      | EcdsaPublic ecdsaPubKey => OK (ecdsa_Verify ecdsaPubKey md R S')
      | _ => OK false
      end
  | Error _ => Panic "ECDSA signature is not ASN.1-DER encoded"
  | Panic p => Panic p
  end.

(** ** [PublicAuthenScheme] with [crypto.SHA256] *)

(** [a.HashScheme.New().Sum(m)]: [Sum] appends the hash of what was written, here
    nothing, to its argument. *)
Definition md (m : bytes) : bytes := m ++ Sha256.sum256 [].

(** [func (a *PublicAuthenScheme) GenerateAuthenticationTag] *)
Definition publicGenerate (nonce : N) (m : bytes) (privKey : key) : outcome bytes :=
  Sign nonce (md m) privKey.

(** [func (a *PublicAuthenScheme) VerifyAuthenticationTag] *)
Definition publicVerify (m sig : bytes) (pubKey : key) : outcome unit :=
  ok ← Verify (md m) sig pubKey;
  if negb ok then Error (Errorf "invalid signature") else OK tt.

(** ** [SGXUSIGAuthenticationScheme] *)

(** [func makeUSIGKeyFingerprint] *)
Definition makeUSIGKeyFingerprint (pubKey : key) : outcome bytes :=
  pubKeyBytes ← MarshalPKIX pubKey;
  mret (take 8 (Sha256.sum256 pubKeyBytes)).

(** The end of [VerifyAuthenticationTag], with the epoch known or captured. *)
Definition verifyInEpoch (m : bytes) (ui : UI) (pubKey : key) (fingerprint : bytes) (epoch : N) :
    M epochs unit :=
  usigID ← lift (wrapf "failed to construct USIG identity" (MakeID MarshalPKIX epoch pubKey));
  lift (VerifyUI asn1_Unmarshal ecdsa_Verify ParsePKIX m ui usigID) ;;
  modify (λ epochs, <[fingerprint := epoch]> epochs).

(** [func (au *SGXUSIGAuthenticationScheme) VerifyAuthenticationTag] *)
Definition sgxVerify (m sig : bytes) (pubKey : key) : M epochs unit :=
  ui ← lift (wrapf "failed to unmarshal UI" (UnmarshalBinary sig));
  fingerprint ← lift (wrapf "failed to calculate USIG key fingerprint" (makeUSIGKeyFingerprint pubKey));
  known ← gets (λ epoch : epochs, epoch !! fingerprint);
  epoch ← match known with
          | Some epoch => mret epoch
          | None =>
              '(epoch, _) ← lift (wrapf "failed to parse UI certificate" (ParseCert (Cert ui)));
              mret epoch
          end;
  verifyInEpoch m ui pubKey fingerprint epoch.

(** [func (au *SGXUSIGAuthenticationScheme) GenerateAuthenticationTag] *)
Definition sgxGenerate (env : sgxEnv) (m : bytes) (u : USIGEnclave) : outcome bytes * USIGEnclave :=
  let '(o, u) := CreateUI sgx_ecdsa_sign asn1_Marshal env m u in
  ((ui ← wrapf "failed to create UI" o;
    match MarshalBinary ui with Error _ => Panic "UI" | b => b end), u).

(** ** The authenticator *)

Context (ks : BftKeyStorer) (authschemes : schemes).

(** [func (a *Authenticator) VerifyMessageAuthenTag] *)
Definition VerifyMessageAuthenTag (role : AuthenticationRole) (id : N) (msg authenTag : bytes) :
    M epochs unit :=
  pk ← lift (NodePublicKey ks role id);
  match authschemes role with
  | None => fail (Errorf "unknown role")
  | Some scheme =>
      wrapM "invalid authentication tag"
        match scheme with
        | PublicAuthenScheme => lift (publicVerify msg authenTag pk)
        | SGXUSIGAuthenticationScheme => sgxVerify msg authenTag pk
        end
  end.

(** [func (a *Authenticator) GenerateMessageAuthenTag]; calling a method of a
    scheme that is not there panics. *)
Definition GenerateMessageAuthenTag (env : sgxEnv) (role : AuthenticationRole) (msg : bytes)
    (u : USIGEnclave) : outcome bytes * USIGEnclave :=
  let sk := PrivateKey ks role in
  match authschemes role with
  | None => (Panic "nil AuthenticationScheme", u)
  | Some PublicAuthenScheme => (publicGenerate (env_nonce env) msg sk, u)
  | Some SGXUSIGAuthenticationScheme => sgxGenerate env msg u
  end.

(** ** The epoch of a USIG key *)

Definition epochs_ok (ep : epochs) : Prop := ∀ fp e, ep !! fp = Some e → in_u64 e.

Lemma ParseCert_OK cert epoch signature :
  ParseCert cert = OK (epoch, signature) → cert = MakeCert epoch signature ∧ in_u64 epoch.
Proof. unfold ParseCert. destruct (get64 cert) eqn:E; intros [= ->]. by apply get64_OK. Qed.

Lemma VerifyUI_epoch m ui epoch pubKey usigID :
  in_u64 epoch → MakeID MarshalPKIX epoch pubKey = OK usigID →
  VerifyUI asn1_Unmarshal ecdsa_Verify ParsePKIX m ui usigID = OK tt →
  ∃ signature, Cert ui = MakeCert epoch signature.
Proof.
  intros He (kb & _ & [= <-])%outcome_bind_OK. unfold VerifyUI, ParseID.
  rewrite get64_put64 by done. cbn [wrapf mbind outcome_bind].
  intros ([ep k] & H%wrapf_OK & H')%outcome_bind_OK.
  apply outcome_bind_OK in H as (k' & _ & [= -> ->]).
  apply outcome_bind_OK in H' as ([uiEpoch sg] & [Hc _]%wrapf_OK%ParseCert_OK & H).
  destruct (N.eqb_spec uiEpoch ep) as [->|]; [|done]. eauto.
Qed.

(** An accepted tag fixes the epoch of the key; a refused one changes nothing. *)
Lemma verifyInEpoch_spec m ui pubKey fp epoch ep o ep' :
  in_u64 epoch → verifyInEpoch m ui pubKey fp epoch ep = (o, ep') →
  (isOK o = false ∧ ep' = ep) ∨
  ∃ signature, Cert ui = MakeCert epoch signature ∧ ep' = <[fp := epoch]> ep.
Proof.
  intros He. unfold verifyInEpoch, mbind, M_bind, lift.
  destruct (MakeID MarshalPKIX epoch pubKey) as [usigID| |] eqn:Ei; [|intros [= <- <-]; by left..].
  cbn -[VerifyUI]. destruct (VerifyUI _ _ _ m ui usigID) as [[]| |] eqn:Ev; intros [= <- <-]; [|by left..].
  apply (VerifyUI_epoch _ _ _ _ _ He Ei) in Ev as [sg Hc]. eauto.
Qed.

Lemma sgxVerify_spec m sig pubKey ep o ep' :
  epochs_ok ep → sgxVerify m sig pubKey ep = (o, ep') →
  (isOK o = false ∧ ep' = ep) ∨
  ∃ ui fp epoch signature, UnmarshalBinary sig = OK ui ∧ makeUSIGKeyFingerprint pubKey = OK fp ∧
    Cert ui = MakeCert epoch signature ∧ in_u64 epoch ∧
    (ep !! fp = None ∨ ep !! fp = Some epoch) ∧ ep' = <[fp := epoch]> ep.
Proof.
  intros Hep. unfold sgxVerify, mbind, M_bind, lift, gets.
  destruct (UnmarshalBinary sig) as [ui| |]; [|intros [= <- <-]; by left..].
  destruct (makeUSIGKeyFingerprint pubKey) as [fp| |]; [|intros [= <- <-]; by left..].
  cbn -[verifyInEpoch ParseCert]. destruct (ep !! fp) as [e|] eqn:Ee.
  - intros [?|(sg & ? & ->)]%verifyInEpoch_spec; [by left| |by eauto].
    right. exists ui, fp, e, sg. eauto 10.
  - destruct (ParseCert (Cert ui)) as [[e sg]| |] eqn:Ec; [|intros [= <- <-]; by left..].
    apply ParseCert_OK in Ec as [_ He].
    intros [?|(sg' & ? & ->)]%verifyInEpoch_spec; [by left| |done].
    right. exists ui, fp, e, sg'. eauto 10.
Qed.

(** Tags verified one after the other (the lock of the scheme). *)
Fixpoint verifyAll (calls : list (bytes * bytes * key)) (ep : epochs) :
    list (outcome unit) * epochs :=
  match calls with
  | [] => ([], ep)
  | (m, sig, pubKey) :: calls =>
      let '(o, ep) := sgxVerify m sig pubKey ep in
      let '(l, ep) := verifyAll calls ep in (o :: l, ep)
  end.

Lemma epochs_ok_verify m sig pubKey ep o ep' :
  epochs_ok ep → sgxVerify m sig pubKey ep = (o, ep') →
  epochs_ok ep' ∧ ∀ fp e, ep !! fp = Some e → ep' !! fp = Some e.
Proof.
  intros Hep [[_ ->]|(ui & fp & e & sg & _ & _ & _ & He & Hin & ->)]%sgxVerify_spec; [done| |done].
  split; intros fp' e' H; destruct (decide (fp' = fp)) as [->|].
  - rewrite lookup_insert_eq in H. by simplify_eq.
  - rewrite lookup_insert_ne in H by done. by apply (Hep fp').
  - rewrite lookup_insert_eq. destruct Hin; congruence.
  - by rewrite lookup_insert_ne.
Qed.

Lemma verifyAll_keeps calls ep fp e :
  epochs_ok ep → ep !! fp = Some e → (verifyAll calls ep).2 !! fp = Some e.
Proof.
  revert ep. induction calls as [|[[m sig] k] calls IH]; intros ep Hep He; [done|]. simpl.
  destruct (sgxVerify m sig k ep) as [o ep'] eqn:E. apply epochs_ok_verify in E as [Hep' Hk]; [|done].
  specialize (IH ep' Hep' (Hk _ _ He)). by destruct (verifyAll calls ep').
Qed.

Lemma verifyAll_accepted calls ep i m sig k :
  epochs_ok ep → calls !! i = Some (m, sig, k) → (verifyAll calls ep).1 !! i = Some (OK tt) →
  ∃ ui fp e sg, UnmarshalBinary sig = OK ui ∧ makeUSIGKeyFingerprint k = OK fp ∧
    Cert ui = MakeCert e sg ∧ (verifyAll calls ep).2 !! fp = Some e.
Proof.
  revert ep i. induction calls as [|[[m' sig'] k'] calls IH]; intros ep i Hep Hi Ho; [done|].
  simpl in Ho |- *. destruct (sgxVerify m' sig' k' ep) as [o ep'] eqn:E.
  pose proof (epochs_ok_verify _ _ _ _ _ _ Hep E) as [Hep' _].
  pose proof (verifyAll_keeps calls ep') as Hkeep. specialize (IH ep').
  destruct (verifyAll calls ep') as [l ep''] eqn:El. destruct i as [|i]; simpl in Hi, Ho.
  - simplify_eq. apply sgxVerify_spec in E as [[? _]|(ui & fp & e & sg & ?&?&?& He &_& ->)]; [done| |done].
    exists ui, fp, e, sg. split_and!; [done..|]. apply Hkeep; [done|]. by rewrite lookup_insert_eq.
  - by apply (IH i).
Qed.

(** C39: one USIG instance per key.  In any sequence of verified tags, valid or
    not, all accepted UIs under the same public key carry the same epoch: the
    replica does not accept UIs of a second USIG instance with the same key, whose
    counter starts over. *)
Theorem usig_epoch_pinned calls i j m1 m2 sig1 sig2 k ui1 ui2 :
  calls !! i = Some (m1, sig1, k) → calls !! j = Some (m2, sig2, k) →
  (verifyAll calls ∅).1 !! i = Some (OK tt) → (verifyAll calls ∅).1 !! j = Some (OK tt) →
  UnmarshalBinary sig1 = OK ui1 → UnmarshalBinary sig2 = OK ui2 →
  ∃ epoch s1 s2, Cert ui1 = MakeCert epoch s1 ∧ Cert ui2 = MakeCert epoch s2.
Proof.
  intros Hi Hj Oi Oj U1 U2. assert (epochs_ok ∅) as H0 by done.
  destruct (verifyAll_accepted _ _ _ _ _ _ H0 Hi Oi) as (ui & fp & e1 & s1 & E1 & F1 & C1 & L1).
  destruct (verifyAll_accepted _ _ _ _ _ _ H0 Hj Oj) as (ui' & fp' & e2 & s2 & E2 & F2 & C2 & L2).
  exists e1, s1, s2. split; [congruence|].
  assert (fp' = fp) as -> by congruence. congruence.
Qed.

(** ** Which schemes an authenticator has *)

Definition schemeOf (usig : usigArg) (r : AuthenticationRole) (a : schemes) :
    option AuthenticationScheme :=
  match r, usig with
  | USIGAuthen, SgxUSIG => Some SGXUSIGAuthenticationScheme
  | USIGAuthen, _ => a USIGAuthen
  | _, _ => Some PublicAuthenScheme
  end.

Lemma newScheme_spec st usig r a a' :
  newScheme st usig r a = OK a' →
  ∀ r', a' r' = if decide (r' = r) then schemeOf usig r a else a r'.
Proof.
  unfold newScheme. intros H r'. destruct (negb _) eqn:E; [done|].
  apply negb_false_iff, Bool.eqb_prop in E.
  assert (r = USIGAuthen ↔ NodeKeySpec st r = keySpecSgxEcdsa) as E'.
  { rewrite <-(bool_decide_eq_true (r = _)), E. apply bool_decide_eq_true. }
  case_bool_decide as Hec; [|case_bool_decide as Hsgx; [|done]].
  - injection H as <-. destruct (decide (r' = r)); [|done].
    destruct r; [done| |done]. rewrite Hec in E'. discriminate (proj1 E' eq_refl).
  - apply E' in Hsgx as ->. destruct usig; simplify_eq; destruct (decide (r' = USIGAuthen)); naive_solver.
Qed.

Lemma newSchemes_spec st usig roles a a' r :
  newSchemes st usig roles a = OK a' →
  a' r = if decide (r ∈ roles) then schemeOf usig r a else a r.
Proof.
  revert a. induction roles as [|r0 roles IH]; intros a; simpl.
  { by intros [= ->]. }
  intros (a1 & H1 & H)%outcome_bind_OK. rewrite (IH _ H).
  pose proof (newScheme_spec _ _ _ _ _ H1) as Hs.
  destruct (decide (r = r0)) as [->|Hne].
  - rewrite (decide_True (P := r0 ∈ r0 :: roles)) by apply list_elem_of_here.
    specialize (Hs r0). rewrite decide_True in Hs by done.
    destruct (decide (r0 ∈ roles)); [|done]. destruct r0, usig; done.
  - specialize (Hs r) as Hr. rewrite decide_False in Hr by done.
    destruct (decide (r ∈ roles)) as [Hin|Hin].
    + rewrite decide_True by (by apply list_elem_of_further). by destruct r, usig; simpl; rewrite ?Hr.
    + by rewrite decide_False by (by intros [->|?]%elem_of_cons).
Qed.

Lemma new_spec st usig a r :
  new st usig = OK a →
  a r = if decide (r ∈ NodeRoles st) then schemeOf usig r (λ _, None) else None.
Proof. apply newSchemes_spec. Qed.

(** ** Panics *)

Lemma sgxVerify_no_panic m sig k ep :
  (∀ b, isPanic (asn1_Unmarshal b) = false) → (∀ k, isPanic (MarshalPKIX k) = false) →
  (∀ b, isPanic (ParsePKIX b) = false) →
  isPanic (sgxVerify m sig k ep).1 = false.
Proof.
  intros Ha Hm Hp.
  assert (∀ ui fp e ep, isPanic (verifyInEpoch m ui k fp e ep).1 = false) as Hv.
  { intros ui fp e ep'. unfold verifyInEpoch, mbind, M_bind, lift, MakeID. specialize (Hm k).
    destruct (MarshalPKIX k) as [kb| |]; try done. cbn -[VerifyUI].
    assert (isPanic (VerifyUI asn1_Unmarshal ecdsa_Verify ParsePKIX m ui (put64 e ++ kb)) = false) as H.
    { unfold VerifyUI, ParseID, ParseCert, VerifySignature.
      repeat first [apply isPanic_bind; [rewrite wrapf_isPanic|intros []]
                   |apply isPanic_bind|progress intros
                   |progress case_match|rewrite wrapf_isPanic|done|apply get64_no_panic|apply Ha|apply Hp].
      all: by rewrite <-(get64_no_panic (Cert ui)); f_equal. }
    destruct (VerifyUI _ _ _ m ui _) as [[]| |]; done. }
  unfold sgxVerify, mbind, M_bind, lift, gets, UnmarshalBinary, makeUSIGKeyFingerprint.
  pose proof (get64_no_panic sig). destruct (get64 sig) as [[c rest]| |]; try done. cbn -[verifyInEpoch].
  specialize (Hm k). destruct (MarshalPKIX k) as [kb| |]; try done. cbn -[verifyInEpoch ParseCert].
  destruct (ep !! _); [apply Hv|]. unfold ParseCert. pose proof (get64_no_panic rest).
  destruct (get64 rest) as [[e sg]| |]; try done. apply Hv.
Qed.

(** Which tags make verification panic.  For an authenticator made by [new],
    with decoders that return errors, verification panics exactly on a tag of a
    role other than the USIG's whose key set is known and which is not the ASN.1
    encoding of two integers; so the signature of a Request or a Reply can stop
    the process that verifies it. *)
Theorem verify_tag_panic_exact usig role id msg tag ep :
  (∀ b, isPanic (asn1_Unmarshal b) = false) → (∀ k, isPanic (MarshalPKIX k) = false) →
  (∀ b, isPanic (ParsePKIX b) = false) → isPanic (NodePublicKey ks role id) = false →
  new ks usig = OK authschemes →
  isPanic (VerifyMessageAuthenTag role id msg tag ep).1 = true ↔
  role ≠ USIGAuthen ∧ role ∈ NodeRoles ks ∧ isOK (NodePublicKey ks role id) = true ∧
  isOK (asn1_Unmarshal tag) = false.
Proof.
  clear sgx_ecdsa_sign asn1_Marshal ecdsa_Sign.
  intros Ha Hm Hp Hk Hn. unfold VerifyMessageAuthenTag, mbind, M_bind, lift, fail.
  rewrite (new_spec _ _ _ role Hn).
  destruct (NodePublicKey ks role id) as [pk| |]; simpl in Hk; try done; [|naive_solver].
  destruct (decide (role ∈ NodeRoles ks)) as [Hin|Hin]; [|naive_solver].
  destruct (decide (role = USIGAuthen)) as [->|Hr].
  - split; [|naive_solver]. destruct usig; simpl; try done. unfold wrapM.
    pose proof (sgxVerify_no_panic msg tag pk ep Ha Hm Hp) as H.
    destruct (sgxVerify msg tag pk ep) as [o ep']. simpl in *. by rewrite wrapf_isPanic, H.
  - assert (schemeOf usig role (λ _, None) = Some PublicAuthenScheme) as -> by (by destruct role).
    cbn [wrapM fst]. rewrite wrapf_isPanic. unfold publicVerify, Verify. specialize (Ha tag).
    destruct (asn1_Unmarshal tag) as [[[r s] rest]| |]; simpl in Ha |- *; [|naive_solver|done].
    split; [|naive_solver]. destruct pk; simpl; try done. by destruct ecdsa_Verify.
Qed.

(** A signature covers 32 bytes.  [PublicAuthenScheme] hands ECDSA the
    message itself followed by the hash of nothing, instead of the hash of the
    message, and ECDSA with a P-256 key uses the first 32 bytes of what it is
    given: a tag that is accepted for a message is accepted for every message that
    starts with the same 32 bytes. *)
Theorem signature_covers_prefix m1 m2 tag k :
  (∀ h r s, ecdsa_Verify k h r s = ecdsa_Verify k (take 32 h) r s) →
  (32 ≤ length m1)%nat → take 32 m1 = take 32 m2 →
  publicVerify m1 tag (EcdsaPublic k) = publicVerify m2 tag (EcdsaPublic k).
Proof.
  clear sgx_ecdsa_sign asn1_Marshal ecdsa_Sign MarshalPKIX ParsePKIX ks authschemes.
  intros Ht Hl E. assert (32 ≤ length m2)%nat as Hl2.
  { apply (f_equal length) in E. rewrite !length_take in E. lia. }
  unfold publicVerify, Verify. destruct (asn1_Unmarshal tag) as [[[r s] rest]| |]; [|done..].
  rewrite (Ht (md m1)), (Ht (md m2)). unfold md. by rewrite !take_app_le, E by done.
Qed.

(** ** What is generated is accepted *)

(** What is relied on of ECDSA with P-256 keys. *)
Definition ecdsa_law (ecdsa_pair : N → PublicKey → Prop) : Prop :=
  ∀ nonce d k h r s, ecdsa_pair d k → ecdsa_Sign nonce d k h = OK (r, s) →
    ecdsa_Verify k h r s = true ∧ (0 ≤ r < 2 ^ 256)%Z ∧ (0 ≤ s < 2 ^ 256)%Z.

Section Accepted.
Context (keypair : bytes → sgx_ec256_public_t → Prop) (ecdsa_pair : N → PublicKey → Prop).
Context (HL : crypto_laws sgx_ecdsa_sign asn1_Marshal asn1_Unmarshal ecdsa_Verify MarshalPKIX ParsePKIX keypair).

Lemma public_accepted nonce m d k tag :
  ecdsa_law ecdsa_pair → ecdsa_pair d k →
  publicGenerate nonce m (EcdsaPrivate d k) = OK tag → publicVerify m tag (EcdsaPublic k) = OK tt.
Proof.
  intros He Hp ([r s] & Hs%wrapf_OK & Hm%wrapf_OK)%outcome_bind_OK.
  destruct (He _ _ _ _ _ _ Hp Hs) as (Hv & Hr & Hs'). destruct (law_asn1 _ _ _ _ _ _ _ HL r s Hr Hs') as (b & Hb & Hu).
  assert (b = tag) as -> by congruence. unfold publicVerify, Verify. rewrite Hu. simpl. by rewrite Hv.
Qed.

Lemma sgx_accepted n env m u tag u' ep kb :
  let pubKey := EcdsaPublic (sgxEC256PubKeyToGo (usig_pub_key (us_enclave u))) in
  usig_ok keypair n u → in_u64 (us_epoch u) → MarshalPKIX pubKey = OK kb →
  (∀ fp e, makeUSIGKeyFingerprint pubKey = OK fp → ep !! fp = Some e → e = us_epoch u) →
  sgxGenerate env m u = (OK tag, u') → (sgxVerify m tag pubKey ep).1 = OK tt.
Proof.
  intros pubKey Hu Hep Hkb Hfp. unfold sgxGenerate.
  destruct (CreateUI _ _ env m u) as [o u1] eqn:E. intros [= H ->].
  apply (CreateUI_step sgx_ecdsa_sign asn1_Marshal asn1_Unmarshal ecdsa_Verify MarshalPKIX ParsePKIX keypair n)
    in E as [_ [[(sg & r & s & -> & Ha & Hv) _]|[Ho _]]]; [|by destruct o|done|done].
  simpl in H. injection H as <-.
  assert (UnmarshalBinary (put64 (u64 (n + 1)) ++ MakeCert (us_epoch u) sg)
    = OK (MkUI (u64 (n + 1)) (MakeCert (us_epoch u) sg))) as Eu.
  { unfold UnmarshalBinary. rewrite get64_put64; [done|]. apply u64_bound. }
  assert (VerifyUI asn1_Unmarshal ecdsa_Verify ParsePKIX m
    (MkUI (u64 (n + 1)) (MakeCert (us_epoch u) sg)) (put64 (us_epoch u) ++ kb) = OK tt) as Ev.
  { apply (VerifyUI_OK asn1_Unmarshal ecdsa_Verify MarshalPKIX ParsePKIX m _ (us_epoch u)
      (sgxEC256PubKeyToGo (usig_pub_key (us_enclave u)))); [exact Hep|..].
    - unfold MakeID. fold pubKey. by rewrite Hkb.
    - apply (law_pkix _ _ _ _ _ _ _ HL).
    - by exists sg, r, s. }
  unfold sgxVerify, mbind, M_bind, lift, gets. rewrite Eu.
  unfold makeUSIGKeyFingerprint in *. rewrite Hkb in *. cbn -[verifyInEpoch ParseCert VerifyUI Sha256.sum256] in *.
  assert (∀ fp ep, (verifyInEpoch m (MkUI (u64 (n + 1)) (MakeCert (us_epoch u) sg)) pubKey fp
    (us_epoch u) ep).1 = OK tt) as Hv'.
  { intros fp ep'. unfold verifyInEpoch, mbind, M_bind, lift, MakeID. rewrite Hkb.
    cbn -[VerifyUI]. by rewrite Ev. }
  destruct (ep !! _) as [e|] eqn:Ee; [rewrite (Hfp _ e eq_refl Ee); apply Hv'|].
  rewrite ParseCert_MakeCert by done. apply Hv'.
Qed.
End Accepted.
End Schemes.

Section Tags.
Context (sgx_ecdsa_sign : bytes → bytes → N → sgx sgx_ec256_signature_t).
Context (asn1_Marshal : Z * Z → outcome bytes) (asn1_Unmarshal : bytes → outcome ((Z * Z) * bytes)).
Context (ecdsa_Sign : N → N → PublicKey → bytes → outcome (Z * Z)).
Context (ecdsa_Verify : PublicKey → bytes → Z → Z → bool).
Context (MarshalPKIX : key → outcome bytes) (ParsePKIX : bytes → outcome key).
Context (keypair : bytes → sgx_ec256_public_t → Prop) (ecdsa_pair : N → PublicKey → Prop).

(** The verifier's key store [ks'] has for node [id] the public key that belongs
    to the generator's private key; for [USIGAuthen] that is the key of its USIG. *)
Definition keys_match (ks ks' : BftKeyStorer) (role : AuthenticationRole) (id : N)
    (u : USIGEnclave) : Prop :=
  match role with
  | USIGAuthen =>
      let pubKey := EcdsaPublic (sgxEC256PubKeyToGo (usig_pub_key (us_enclave u))) in
      NodePublicKey ks' role id = OK pubKey ∧ isOK (MarshalPKIX pubKey) = true ∧
      (∃ n, usig_ok keypair n u) ∧ in_u64 (us_epoch u)
  | _ =>
      ∃ d k, ecdsa_pair d k ∧ PrivateKey ks role = EcdsaPrivate d k ∧
        NodePublicKey ks' role id = OK (EcdsaPublic k)
  end.

(** Of the key of the USIG [u] no epoch but the one of [u] has been captured. *)
Definition no_other_epoch (u : USIGEnclave) (ep : epochs) : Prop :=
  ∀ fp e,
    makeUSIGKeyFingerprint MarshalPKIX (EcdsaPublic (sgxEC256PubKeyToGo (usig_pub_key (us_enclave u)))) = OK fp →
    ep !! fp = Some e → e = us_epoch u.

(** C40: what one node's authenticator generates, another node's accepts.  Take a role that
    both have, the public key of the generating node in the verifier's key store, and
    libraries that are correct; for [USIGAuthen] also an SGX USIG on both sides and a
    verifier that has not captured another epoch for the key of the generator's USIG.  Then a tag that was
    generated for a message is verified for it without an error. *)
Theorem generated_tag_accepted ks ks' usig usig' a a' role id env msg u tag u' ep :
  crypto_laws sgx_ecdsa_sign asn1_Marshal asn1_Unmarshal ecdsa_Verify MarshalPKIX ParsePKIX keypair →
  ecdsa_law ecdsa_Sign ecdsa_Verify ecdsa_pair →
  new ks usig = OK a → new ks' usig' = OK a' → role ∈ NodeRoles ks → role ∈ NodeRoles ks' →
  (role = USIGAuthen → usig = SgxUSIG ∧ usig' = SgxUSIG ∧ no_other_epoch u ep) →
  keys_match ks ks' role id u →
  GenerateMessageAuthenTag sgx_ecdsa_sign asn1_Marshal ecdsa_Sign ks a env role msg u = (OK tag, u') →
  (VerifyMessageAuthenTag asn1_Unmarshal ecdsa_Verify MarshalPKIX ParsePKIX ks' a' role id msg tag ep).1
    = OK tt.
Proof.
  intros HL He Ha Ha' Hin Hin' Hus Hm.
  unfold GenerateMessageAuthenTag, VerifyMessageAuthenTag, mbind, M_bind, lift.
  rewrite (new_spec _ _ _ role Ha), (new_spec _ _ _ role Ha'), !decide_True by done.
  destruct (decide (role = USIGAuthen)) as [->|Hr].
  - destruct (Hus eq_refl) as (-> & -> & Hfp). destruct Hm as (-> & Hk & (n & Hu) & Hep).
    destruct (MarshalPKIX _) as [kb| |] eqn:Ek; try done. cbn [schemeOf]. intros Hg.
    unfold wrapM. eapply sgx_accepted in Hg; [|exact HL|exact Hu|done|exact Ek|exact Hfp].
    destruct (sgxVerify _ _ _ _ msg tag _ ep) as [o ep']. simpl in *. by subst o.
  - assert (∀ us, schemeOf us role (λ _, None) = Some PublicAuthenScheme) as Hs by (by destruct role).
    rewrite !Hs. assert (∃ d k, ecdsa_pair d k ∧ PrivateKey ks role = EcdsaPrivate d k ∧
      NodePublicKey ks' role id = OK (EcdsaPublic k)) as (d & k & Hp & -> & ->) by (by destruct role).
    intros [= Hg <-]. eapply public_accepted in Hg; [|exact HL|done|done]. unfold wrapM. by rewrite Hg.
Qed.

(** ** The interface of the replica

    With an SGX library that does not fail, the sample authenticator is an
    [Api.Authenticator] whose USIG counts: the theorems about the replica apply to
    it.  Verification has a state, the captured epochs; once the epoch of every
    key is known it does not change any more ([verify_keeps_epochs]) and
    verification is the function of its arguments the interface asks for. *)

Lemma verify_keeps_epochs ks a role id msg tag ep :
  epochs_ok ep →
  (∀ i pk fp, NodePublicKey ks role i = OK pk → makeUSIGKeyFingerprint MarshalPKIX pk = OK fp →
     is_Some (ep !! fp)) →
  (VerifyMessageAuthenTag asn1_Unmarshal ecdsa_Verify MarshalPKIX ParsePKIX ks a role id msg tag ep).2 = ep.
Proof.
  intros Hep Hall. unfold VerifyMessageAuthenTag, mbind, M_bind, lift.
  destruct (NodePublicKey ks role id) as [pk| |] eqn:Ek; [|done..].
  destruct (a role) as [[]|]; [done| |done]. unfold wrapM.
  destruct (sgxVerify _ _ _ _ msg tag pk ep) as [o ep'] eqn:E.
  apply sgxVerify_spec in E as [[_ ->]|(ui & fp & e & sg & _ & Hfp & _ & _ & Hin & ->)]; [done| |done].
  destruct (Hall _ _ _ Ek Hfp) as [e' He']. simpl. apply insert_id. destruct Hin; congruence.
Qed.

Context (HL : crypto_laws sgx_ecdsa_sign asn1_Marshal asn1_Unmarshal ecdsa_Verify MarshalPKIX ParsePKIX keypair).
Context (HE : ecdsa_law ecdsa_Sign ecdsa_Verify ecdsa_pair).
Context (sgx_total : ∀ data priv nonce, ∃ sig, sgx_ecdsa_sign data priv nonce = SGX_SUCCESS sig).
Context (ecdsa_total : ∀ nonce d k h, ∃ r s, ecdsa_Sign nonce d k h = OK (r, s)).
Context (ks : BftKeyStorer) (a : schemes) (Ha : new ks SgxUSIG = OK a).
Context (Hroles : ∀ role, role ∈ NodeRoles ks).
Context (Hkeys : ∀ role, role ≠ USIGAuthen → ∃ d k, ecdsa_pair d k ∧ PrivateKey ks role = EcdsaPrivate d k).
Context (ep : epochs) (nonces : nat → N).

(** The USIG, the number of tags generated so far and, for the statement, the
    number of UIs among them. *)
Record sampleState := MkSample {
  st_usig : USIGEnclave; st_tags : nat; st_uis : N; st_ok : usig_ok keypair st_uis st_usig }.

Lemma CreateUI_total env msg n u :
  env_open env = SGX_SUCCESS tt → usig_ok keypair n u →
  isOK (CreateUI sgx_ecdsa_sign asn1_Marshal env msg u).1 = true.
Proof.
  intros Henv [Hi He Hk Hc]. unfold CreateUI, EnclaveCreateUI, ecall_usig_create_ui.
  rewrite Hi, Henv. cbn -[Sha256.sum256 usig_cert_data].
  destruct (sgx_total (usig_cert_data (Sha256.sum256 msg) (usig_epoch (us_enclave u))
    (usig_counter (us_enclave u))) (usig_priv_key (us_enclave u)) (env_nonce env)) as [sig Hs].
  rewrite Hs. destruct (law_sign _ _ _ _ _ _ _ HL _ _ _ _ _ Hk Hs) as (Hx & Hy & _).
  pose proof (words_val_bound _ Hx). pose proof (words_val_bound _ Hy).
  destruct (law_asn1 _ _ _ _ _ _ _ HL (Z.of_N (words_val (sig_x sig))) (Z.of_N (words_val (sig_y sig))))
    as (b & Hm & _); [lia..|].
  cbn -[Sha256.sum256]. unfold sgxEC256SigToASN1.
  by rewrite !sgxUint32_value, Hm by apply Hx || apply Hy.
Qed.

Lemma sample_next env msg n u :
  env_open env = SGX_SUCCESS tt → usig_ok keypair n u →
  (∃ cert, (sgxGenerate sgx_ecdsa_sign asn1_Marshal env msg u).1 =
     OK (MustMarshalUI (MkUI (u64 (n + 1)) cert))) ∧
  usig_ok keypair (n + 1) (sgxGenerate sgx_ecdsa_sign asn1_Marshal env msg u).2.
Proof.
  intros Henv Hu. pose proof (CreateUI_total env msg n u Henv Hu) as Ht. unfold sgxGenerate.
  destruct (CreateUI _ _ env msg u) as [o u1] eqn:E.
  destruct (CreateUI_step _ _ _ _ MarshalPKIX ParsePKIX keypair n u env msg o u1 HL Hu E)
    as [_ [[(sg & r & s & Ho & _) [_ Hu1]]|[Ho _]]]; [|by destruct o].
  subst o. split; [|done]. by exists (MakeCert (us_epoch u) sg).
Qed.

Lemma public_total nonce msg d k :
  ecdsa_pair d k → ∃ tag, publicGenerate asn1_Marshal ecdsa_Sign nonce msg (EcdsaPrivate d k) = OK tag.
Proof.
  intros Hp. unfold publicGenerate, Sign. destruct (ecdsa_total nonce d k (md msg)) as (r & s & Hs).
  rewrite Hs. destruct (HE _ _ _ _ _ _ Hp Hs) as (_ & Hr & Hs').
  destruct (law_asn1 _ _ _ _ _ _ _ HL r s Hr Hs') as (b & Hb & _). simpl. rewrite Hb. by exists b.
Qed.

Definition sampleEnv (au : sampleState) : sgxEnv := MkSgxEnv (SGX_SUCCESS tt) (nonces (st_tags au)).

(** [GenerateMessageAuthenTag] on states that carry their invariant. *)
Definition sampleGenerate (role : AuthenticationRole) (msg : bytes) (au : sampleState) :
    outcome bytes * sampleState :=
  let r := GenerateMessageAuthenTag sgx_ecdsa_sign asn1_Marshal ecdsa_Sign ks a (sampleEnv au) role
             msg (st_usig au) in
  match role with
  | USIGAuthen =>
      (r.1, MkSample (sgxGenerate sgx_ecdsa_sign asn1_Marshal (sampleEnv au) msg (st_usig au)).2
              (S (st_tags au)) (st_uis au + 1)
              (proj2 (sample_next (sampleEnv au) msg _ _ eq_refl (st_ok au))))
  | _ => (r.1, MkSample (st_usig au) (S (st_tags au)) (st_uis au) (st_ok au))
  end.

(** The new state holds the USIG that [GenerateMessageAuthenTag] leaves behind. *)
Lemma sampleGenerate_state role msg au :
  st_usig (sampleGenerate role msg au).2 =
  (GenerateMessageAuthenTag sgx_ecdsa_sign asn1_Marshal ecdsa_Sign ks a (sampleEnv au) role msg
     (st_usig au)).2.
Proof.
  unfold sampleGenerate, GenerateMessageAuthenTag. rewrite (new_spec _ _ _ role Ha), decide_True by done.
  by destruct role.
Qed.

Definition sampleAuthenticator : Api.Authenticator sampleState := {|
  Api.VerifyMessageAuthenTag role id msg tag :=
    (VerifyMessageAuthenTag asn1_Unmarshal ecdsa_Verify MarshalPKIX ParsePKIX ks a role id msg tag ep).1;
  Api.GenerateMessageAuthenTag := sampleGenerate |}.

Definition sampleUSIG : @SequentialUSIG sampleState sampleAuthenticator.
Proof.
  refine (@Build_SequentialUSIG sampleState sampleAuthenticator st_uis _ _).
  - intros msg au. destruct (sample_next (sampleEnv au) msg _ _ eq_refl (st_ok au)) as [[cert Hc] _].
    exists cert. split; [|done]. simpl. unfold GenerateMessageAuthenTag.
    rewrite (new_spec _ _ _ USIGAuthen Ha), decide_True by done. exact Hc.
  - intros role msg au Hr. destruct (Hkeys role Hr) as (d & k & Hp & Hk).
    destruct (public_total (nonces (st_tags au)) msg d k Hp) as [tag Ht].
    assert (a role = Some PublicAuthenScheme) as Hs.
    { rewrite (new_spec _ _ _ role Ha), decide_True by done. by destruct role. }
    exists tag. destruct role; try done; (split; [|done]); simpl; unfold GenerateMessageAuthenTag;
      rewrite Hs, Hk; exact Ht.
Defined.
End Tags.

(** ** A concrete instance, on the libraries of [SgxUsig] *)

Definition exampleKey : PublicKey := MkPublicKey P256 0 0.
Definition exampleEcdsaSign (nonce d : N) (k : PublicKey) (h : bytes) : outcome (Z * Z) :=
  OK (Z.of_N (le_val (take 4 h)), 0%Z).
Definition exampleKS : BftKeyStorer := MkKeyStorer
  (λ r, match r with USIGAuthen => keySpecSgxEcdsa | _ => keySpecEcdsa end)
  (λ r, match r with USIGAuthen => BytesKey [] | _ => EcdsaPrivate 1 exampleKey end)
  (λ _ _, OK (EcdsaPublic exampleKey))
  [ReplicaAuthen; USIGAuthen; ClientAuthen]
  (λ r, match r with USIGAuthen => keySpecSgxEcdsa | _ => keySpecEcdsa end).
Definition exampleSchemes : schemes :=
  match new exampleKS SgxUSIG with OK a => a | _ => λ _, None end.
Definition exampleEnv : sgxEnv := MkSgxEnv (SGX_SUCCESS tt) 0.
Definition exampleUI (m : bytes) : UI :=
  match (CreateUI exampleSign exampleASN1 exampleEnv m exampleUSIG).1 with OK ui => ui | _ => MkUI 0 [] end.

Lemma example_ecdsa : ecdsa_law exampleEcdsaSign exampleVerify (λ _ _, True).
Proof.
  intros nonce d k h r s _ [= <- <-]. split; [by apply Z.eqb_eq|].
  assert (le_val (take 4 h) < 2 ^ 32); [|lia].
  eapply N.lt_le_trans; [apply le_val_bound|]. rewrite length_take.
  change (2 ^ 32) with (256 ^ 4). apply N.pow_le_mono_r; lia.
Qed.

Lemma example_usig_ok : usig_ok (λ _ _, True) 0 exampleUSIG.
Proof. by split. Qed.

Definition exampleCalls2 : list (bytes * bytes * key) :=
  [([x01], MustMarshalUI (exampleUI [x01]), EcdsaPublic exampleKey);
   ([x01], [], EcdsaPublic exampleKey);
   ([x02], MustMarshalUI (exampleUI [x02]), EcdsaPublic exampleKey)].

Lemma usig_epoch_pinned_witness :
  ∃ epoch s1 s2, Cert (exampleUI [x01]) = MakeCert epoch s1 ∧ Cert (exampleUI [x02]) = MakeCert epoch s2.
Proof.
  apply (usig_epoch_pinned exampleUnASN1 exampleVerify examplePKIX exampleUnPKIX exampleCalls2 0 2
    [x01] [x02] (MustMarshalUI (exampleUI [x01])) (MustMarshalUI (exampleUI [x02]))
    (EcdsaPublic exampleKey)); vm_compute; reflexivity.
Defined.

(** The empty signature of a client's message. *)
Lemma verify_tag_panic_exact_witness :
  isPanic (VerifyMessageAuthenTag (λ b, match b with [] => Error (Errorf "asn1") | _ => exampleUnASN1 b end)
    exampleVerify examplePKIX exampleUnPKIX exampleKS exampleSchemes ClientAuthen 7 [x01] [] ∅).1 = true.
Proof.
  apply (verify_tag_panic_exact (λ b, match b with [] => Error (Errorf "asn1") | _ => exampleUnASN1 b end)
    exampleVerify examplePKIX exampleUnPKIX exampleKS exampleSchemes SgxUSIG).
  - by intros [].
  - by intros [|[[] [] []]| | |].
  - done.
  - done.
  - done.
  - split_and!; [done|by repeat constructor|done|done].
Defined.

Lemma signature_covers_prefix_witness :
  publicVerify exampleUnASN1 exampleVerify (replicate 32 x01 ++ [x02]) [] (EcdsaPublic exampleKey) =
  publicVerify exampleUnASN1 exampleVerify (replicate 32 x01 ++ [x03]) [] (EcdsaPublic exampleKey).
Proof.
  apply (signature_covers_prefix exampleUnASN1 exampleVerify); [|apply Nat.leb_le; reflexivity|reflexivity].
  intros h r s. unfold exampleVerify. by rewrite take_take.
Defined.

Lemma generated_tag_accepted_witness :
  (VerifyMessageAuthenTag exampleUnASN1 exampleVerify examplePKIX exampleUnPKIX exampleKS exampleSchemes
     USIGAuthen 2 [x01] (MustMarshalUI (exampleUI [x01])) ∅).1 = OK tt.
Proof.
  apply (generated_tag_accepted exampleSign exampleASN1 exampleUnASN1 exampleEcdsaSign exampleVerify
    examplePKIX exampleUnPKIX (λ _ _, True) (λ _ _, True) exampleKS exampleKS SgxUSIG SgxUSIG
    exampleSchemes exampleSchemes USIGAuthen 2 exampleEnv [x01] exampleUSIG _
    (sgxGenerate exampleSign exampleASN1 exampleEnv [x01] exampleUSIG).2).
  - exact example_laws.
  - exact example_ecdsa.
  - done.
  - done.
  - by repeat constructor.
  - by repeat constructor.
  - done.
  - split_and!; [done|done|exists 0; exact example_usig_ok|done].
  - vm_compute. done.
Defined.

End SampleAuthen.
