(* ===== verification/KeyStore.v ===== *)
(** The key store of the sample authenticator
    ([src/sample/authentication/keymanager.go]) and the constructors that use it
    ([src/sample/authentication/authenticator.go]): parsing a key file, the lookup of
    keys, and the generation of the keys of a test network.

    The YAML library, X.509 encodings and ECDSA key generation are parameters; the
    enclave is that of [SgxUsig], Base64 that of [Base64].  [LoadSimpleKeyStore]
    ranges over a map with a key set per role: the order is a parameter. *)

From S2P Require Import Prelude Bytes Base64 Usig SgxUsig Messages Api SampleAuthen.
From Stdlib Require Import Strings.Byte.

Module KeyStore.
Import SgxUsig SampleAuthen.

(** ** Data *)

(** [type keyPair struct], [type keySet struct], [type simpleKeyStoreFile struct];
    pointers may be nil. *)
Record keyPair := MkKeyPair { kp_ID : N; kp_PrivateKey : bytes; kp_PublicKey : bytes }.
Record keySet := MkKeySet { set_KeySpec : string; set_Keys : list (option keyPair) }.
Record simpleKeyStoreFile := MkKeyStoreFile {
  file_Replica : option keySet; file_Usig : option keySet; file_Client : option keySet }.

(** [type ownerKey struct], [type publicKeySet struct], [type SimpleKeyStore struct] *)
Record ownerKey := MkOwnerKey { ok_keyspec : string; ok_privateKey : key; ok_publicKey : key }.
Record publicKeySet := MkPublicKeySet { pks_keyspec : string; pks_keys : gmap N key }.
Record SimpleKeyStore := MkKeyStore {
  ks_id : N;
  ownerKeys : AuthenticationRole → option ownerKey;
  nodePublicKeys : AuthenticationRole → option publicKeySet }.

(** [m\[r\] = x] on a map with a key per role. *)
Definition setRole {A} (r : AuthenticationRole) (x : A) (m : AuthenticationRole → option A) :
    AuthenticationRole → option A :=
  λ r', if decide (r' = r) then Some x else m r'.

(** ** Lookup *)

Definition KeySpec (ks : SimpleKeyStore) (role : AuthenticationRole) : string :=
  match ownerKeys ks role with None => "" | Some k => ok_keyspec k end.
Definition PrivateKey (ks : SimpleKeyStore) (role : AuthenticationRole) : key :=
  match ownerKeys ks role with None => NilKey | Some k => ok_privateKey k end.
Definition PublicKey (ks : SimpleKeyStore) (role : AuthenticationRole) : key :=
  match ownerKeys ks role with None => NilKey | Some k => ok_publicKey k end.

(** A missing key of a known role is nil, not an error. *)
Definition NodePublicKey (ks : SimpleKeyStore) (role : AuthenticationRole) (id : N) : outcome key :=
  match nodePublicKeys ks role with
  | Some keymap => OK (default NilKey (pks_keys keymap !! id))
  | None => Error (Errorf "key set not found for role")
  end.

(** [for r := range ks.nodePublicKeys], in the order [order]. *)
Definition NodeRoles (order : list AuthenticationRole) (ks : SimpleKeyStore) : list AuthenticationRole :=
  filter (λ r, is_Some (nodePublicKeys ks r)) order.

Definition NodeKeySpec (ks : SimpleKeyStore) (role : AuthenticationRole) : string :=
  match nodePublicKeys ks role with None => "" | Some keymap => pks_keyspec keymap end.

(** [SimpleKeyStore] implements [BftKeyStorer]. *)
Definition storer (order : list AuthenticationRole) (ks : SimpleKeyStore) : BftKeyStorer :=
  MkKeyStorer (KeySpec ks) (PrivateKey ks) (NodePublicKey ks) (NodeRoles order ks) (NodeKeySpec ks).

(** ** Key specs *)

(** [type sgxEcdsaKeySpec struct], [type ecdsaKeySpec struct] *)
Inductive keySpec := sgxEcdsaKeySpec (enclaveFile : string) | ecdsaKeySpec.

Definition getSpecName (spec : keySpec) : string :=
  match spec with sgxEcdsaKeySpec _ => keySpecSgxEcdsa | ecdsaKeySpec => keySpecEcdsa end.

(** [func getKeySpec] *)
Definition getKeySpec (keySpecStr : string) : outcome keySpec :=
  if bool_decide (keySpecStr = keySpecSgxEcdsa) then OK (sgxEcdsaKeySpec "")
  else if bool_decide (keySpecStr = keySpecEcdsa) then OK ecdsaKeySpec
  else Error (Errorf "unknown KeySpec").

Section Parsing.
Context (ParseECPrivateKey : bytes → outcome (N * SgxUsig.PublicKey)) (ParsePKIX : bytes → outcome key).

(** [parsePrivateKey] of the two key specs *)
Definition sgxParsePrivateKey (privKeyStr : bytes) : outcome key :=
  sealedKey ← Base64.DecodeString privKeyStr; OK (BytesKey sealedKey).
Definition ecdsaParsePrivateKey (privKeyStr : bytes) : outcome key :=
  der ← wrapf "base64 decode error (ECDSA private key)" (Base64.DecodeString privKeyStr);
  '(d, k) ← wrapf "parse error (ECDSA private key)" (ParseECPrivateKey der);
  OK (EcdsaPrivate d k).
Definition parsePrivateKey (spec : keySpec) (privKeyStr : bytes) : outcome key :=
  match spec with
  | sgxEcdsaKeySpec _ => sgxParsePrivateKey privKeyStr
  | ecdsaKeySpec => ecdsaParsePrivateKey privKeyStr
  end.

(** [parsePublicKey], which [sgxEcdsaKeySpec] inherits from [ecdsaKeySpec] *)
Definition parsePublicKey (spec : keySpec) (pubKeyStr : bytes) : outcome key :=
  der ← wrapf "base64 decode error (ECDSA public key)" (Base64.DecodeString pubKeyStr);
  k ← wrapf "parse error (ECDSA public Key)" (ParsePKIX der);
  match k with
  | EcdsaPublic pubKey => OK (EcdsaPublic pubKey)
  | _ => Error (Errorf "public key format error: expect ECDSA")
  end.

(** ** Loading a key file *)

(** [func (ks *SimpleKeyStore) parseKeyPair]; a nil pair is dereferenced. *)
Definition parseKeyPair (role : AuthenticationRole) (spec : keySpec) (keypair : option keyPair)
    (ks : SimpleKeyStore) : outcome SimpleKeyStore :=
  match nodePublicKeys ks role, keypair with
  | Some pubkeys, Some kp =>
      pubKey ← parsePublicKey spec (kp_PublicKey kp);
      let ks := MkKeyStore (ks_id ks) (ownerKeys ks)
                  (setRole role (MkPublicKeySet (pks_keyspec pubkeys)
                     (<[kp_ID kp := pubKey]> (pks_keys pubkeys))) (nodePublicKeys ks)) in
      match ownerKeys ks role with
      | Some _ =>
          if kp_ID kp =? ks_id ks then
            privKey ← parsePrivateKey spec (kp_PrivateKey kp);
            OK (MkKeyStore (ks_id ks)
                  (setRole role (MkOwnerKey (getSpecName spec) privKey pubKey) (ownerKeys ks))
                  (nodePublicKeys ks))
          else OK ks
      | None => OK ks
      end
  | _, _ => Panic "nil pointer dereference"
  end.

Fixpoint parseKeyPairs (role : AuthenticationRole) (spec : keySpec) (pairs : list (option keyPair))
    (ks : SimpleKeyStore) : outcome SimpleKeyStore :=
  match pairs with
  | [] => OK ks
  | kp :: pairs => ks ← parseKeyPair role spec kp ks; parseKeyPairs role spec pairs ks
  end.

(** One pass of the loop over the key sets. *)
Definition loadKeySet (role : AuthenticationRole) (keyset : option keySet) (ks : SimpleKeyStore) :
    outcome SimpleKeyStore :=
  match keyset with
  | None => OK ks
  | Some keyset =>
      spec ← getKeySpec (set_KeySpec keyset);
      parseKeyPairs role spec (set_Keys keyset)
        (MkKeyStore (ks_id ks) (ownerKeys ks)
           (setRole role (MkPublicKeySet (getSpecName spec) ∅) (nodePublicKeys ks)))
  end.

Definition keySets (keys : simpleKeyStoreFile) (role : AuthenticationRole) : option keySet :=
  match role with
  | ReplicaAuthen => file_Replica keys
  | USIGAuthen => file_Usig keys
  | ClientAuthen => file_Client keys
  end.

Fixpoint loadKeySets (keys : simpleKeyStoreFile) (order : list AuthenticationRole)
    (ks : SimpleKeyStore) : outcome SimpleKeyStore :=
  match order with
  | [] => OK ks
  | role :: order => ks ← loadKeySet role (keySets keys role) ks; loadKeySets keys order ks
  end.

Definition isNil (k : key) : bool := match k with NilKey => true | _ => false end.

(** [func parseSimpleKeyStoreFile]: what [ioutil.ReadAll] returned, then YAML. *)
Definition parseSimpleKeyStoreFile (yaml_Unmarshal : bytes → outcome simpleKeyStoreFile)
    (reader : outcome bytes) : outcome simpleKeyStoreFile :=
  fileBytes ← wrapf "read error" reader;
  wrapf "yaml parse error" (yaml_Unmarshal fileBytes).

(** [func LoadSimpleKeyStore] *)
Definition LoadSimpleKeyStore (yaml_Unmarshal : bytes → outcome simpleKeyStoreFile)
    (order : list AuthenticationRole) (reader : outcome bytes) (roles : list AuthenticationRole)
    (id : N) : outcome SimpleKeyStore :=
  keys ← parseSimpleKeyStoreFile yaml_Unmarshal reader;
  ks ← loadKeySets keys order
         (MkKeyStore id
            (foldl (λ m r, setRole r (MkOwnerKey "" NilKey NilKey) m) (λ _, None) roles)
            (λ _, None));
  if existsb (λ r, isNil (PrivateKey ks r)) roles
  then Error (Errorf "missing key: cannot find node's own key")
  else OK ks.

(** ** What is loaded *)

(** The last pair with identifier [i] in a key set; earlier ones are overwritten. *)
Fixpoint lastPair (i : N) (pairs : list (option keyPair)) : option keyPair :=
  match pairs with
  | [] => None
  | kp :: pairs =>
      match lastPair i pairs with
      | Some kp' => Some kp'
      | None => match kp with Some kp => if kp_ID kp =? i then Some kp else None | None => None end
      end
  end.

Lemma setRole_eq {A} r (x : A) m : setRole r x m r = Some x.
Proof. unfold setRole. by rewrite decide_True. Qed.
Lemma setRole_ne {A} r r' (x : A) m : r' ≠ r → setRole r x m r' = m r'.
Proof. intros. unfold setRole. by rewrite decide_False. Qed.

(** Nothing outside role [r] changes. *)
Definition only (r : AuthenticationRole) (ks ks' : SimpleKeyStore) : Prop :=
  ks_id ks' = ks_id ks ∧ ∀ r', r' ≠ r → ownerKeys ks' r' = ownerKeys ks r' ∧
                                        nodePublicKeys ks' r' = nodePublicKeys ks r'.

(** [keys'] is [keys] with the public keys of [pairs] entered. *)
Definition entered (spec : keySpec) (pairs : list (option keyPair)) (keys keys' : gmap N key) : Prop :=
  ∀ i, match lastPair i pairs with
       | Some kp => ∃ k, parsePublicKey spec (kp_PublicKey kp) = OK k ∧ keys' !! i = Some k
       | None => keys' !! i = keys !! i
       end.

(** The owner's key is that of the last pair with the node's identifier. *)
Definition owned (spec : keySpec) (id : N) (pairs : list (option keyPair)) (o o' : option ownerKey) : Prop :=
  match o, lastPair id pairs with
  | Some _, Some kp => ∃ priv pub, parsePrivateKey spec (kp_PrivateKey kp) = OK priv ∧
      parsePublicKey spec (kp_PublicKey kp) = OK pub ∧ o' = Some (MkOwnerKey (getSpecName spec) priv pub)
  | _, _ => o' = o
  end.

Lemma parseKeyPair_spec role spec kp ks ks' pk :
  parseKeyPair role spec kp ks = OK ks' → nodePublicKeys ks role = Some pk →
  only role ks ks' ∧
  (∃ keys', nodePublicKeys ks' role = Some (MkPublicKeySet (pks_keyspec pk) keys') ∧
            entered spec [kp] (pks_keys pk) keys') ∧
  owned spec (ks_id ks) [kp] (ownerKeys ks role) (ownerKeys ks' role).
Proof.
  unfold parseKeyPair, entered, owned. intros Hk Hpk. rewrite Hpk in Hk. destruct kp as [kp|]; [|done].
  apply outcome_bind_OK in Hk as (pub & Hpub & Hk). simpl in Hk.
  assert (∀ i, match (if kp_ID kp =? i then Some kp else None) with
               | Some kp' => ∃ k, parsePublicKey spec (kp_PublicKey kp') = OK k ∧
                              <[kp_ID kp := pub]> (pks_keys pk) !! i = Some k
               | None => <[kp_ID kp := pub]> (pks_keys pk) !! i = pks_keys pk !! i end) as Hin.
  { intros i. destruct (N.eqb_spec (kp_ID kp) i) as [<-|Hne]; [exists pub; by rewrite lookup_insert_eq|].
    by rewrite lookup_insert_ne. }
  destruct (ownerKeys ks role) as [o|] eqn:Eo; [destruct (N.eqb_spec (kp_ID kp) (ks_id ks)) as [Hid|Hid]|].
  - apply outcome_bind_OK in Hk as (priv & Hpriv & [= <-]). simpl. split_and!.
    + split; [done|]. intros r' Hr'. simpl. by rewrite !setRole_ne.
    + eexists. rewrite setRole_eq. split; [done|]. apply Hin.
    + destruct (N.eqb_spec (kp_ID kp) (ks_id ks)); [|done]. exists priv, pub. by rewrite setRole_eq.
  - simplify_eq/=. split_and!.
    + split; [done|]. intros r' Hr'. simpl. by rewrite setRole_ne.
    + eexists. rewrite setRole_eq. split; [done|]. apply Hin.
    + destruct (N.eqb_spec (kp_ID kp) (ks_id ks)); done.
  - simplify_eq/=. split_and!; [|eexists; rewrite setRole_eq; split; [done|apply Hin]|done].
    split; [done|]. intros r' Hr'. simpl. by rewrite setRole_ne.
Qed.

Lemma entered_cons spec kp pairs k0 k1 k2 :
  entered spec [kp] k0 k1 → entered spec pairs k1 k2 → entered spec (kp :: pairs) k0 k2.
Proof.
  unfold entered. intros H1 H2 i. specialize (H1 i). specialize (H2 i). simpl in *.
  destruct (lastPair i pairs); [done|]. destruct kp as [kp|]; [|congruence].
  destruct (kp_ID kp =? i); [|congruence]. destruct H1 as (k & ? & ?). exists k. split; [done|congruence].
Qed.

Lemma owned_cons spec id kp pairs o0 o1 o2 :
  owned spec id [kp] o0 o1 → owned spec id pairs o1 o2 → owned spec id (kp :: pairs) o0 o2.
Proof.
  unfold owned. simpl. intros H1 H2. destruct o0 as [o0|]; [|by subst; destruct (lastPair id pairs)].
  destruct (match kp with Some kp => if kp_ID kp =? id then Some kp else None | None => None end) as [kp'|].
  - destruct H1 as (priv & pub & ? & ? & ->).
    destruct (lastPair id pairs) as [kp2|]; [done|]. subst o2. eauto.
  - subst o1. by destruct (lastPair id pairs).
Qed.

Lemma parseKeyPairs_spec role spec pairs ks ks' pk :
  parseKeyPairs role spec pairs ks = OK ks' → nodePublicKeys ks role = Some pk →
  only role ks ks' ∧
  (∃ keys', nodePublicKeys ks' role = Some (MkPublicKeySet (pks_keyspec pk) keys') ∧
            entered spec pairs (pks_keys pk) keys') ∧
  owned spec (ks_id ks) pairs (ownerKeys ks role) (ownerKeys ks' role).
Proof.
  revert ks pk. induction pairs as [|kp pairs IH]; intros ks pk.
  { intros [= <-] Hpk. split; [by split|]. destruct pk as [name keys]. split; [by exists keys|].
    unfold owned. simpl. by destruct (ownerKeys ks role). }
  simpl. intros (ks1 & H1 & H2)%outcome_bind_OK Hpk.
  apply (parseKeyPair_spec _ _ _ _ _ _ H1) in Hpk as ([Hid Ho1] & (k1 & Hk1 & He1) & Hw1).
  destruct (IH ks1 _ H2 Hk1) as ([Hid2 Ho2] & (k2 & Hk2 & He2) & Hw2). rewrite Hid in *. split_and!.
  - split; [congruence|]. intros r' Hr'. destruct (Ho1 r' Hr'), (Ho2 r' Hr'). split; congruence.
  - exists k2. split; [done|]. by eapply entered_cons.
  - by eapply owned_cons.
Qed.

(** What role [role] looks like after loading. *)
Definition loaded (id : N) (keyset : option keySet) (o0 o : option ownerKey) (p : option publicKeySet) : Prop :=
  match keyset with
  | None => o = o0 ∧ p = None
  | Some set => ∃ spec keys, getKeySpec (set_KeySpec set) = OK spec ∧
      p = Some (MkPublicKeySet (getSpecName spec) keys) ∧ entered spec (set_Keys set) ∅ keys ∧
      owned spec id (set_Keys set) o0 o
  end.

Lemma loadKeySet_spec role keyset ks ks' :
  loadKeySet role keyset ks = OK ks' → nodePublicKeys ks role = None →
  only role ks ks' ∧ loaded (ks_id ks) keyset (ownerKeys ks role) (ownerKeys ks' role) (nodePublicKeys ks' role).
Proof.
  destruct keyset as [set|]; simpl; [|by intros [= <-] ->].
  intros (spec & Hs & Hp)%outcome_bind_OK _.
  apply (parseKeyPairs_spec _ _ _ _ _ (MkPublicKeySet (getSpecName spec) ∅)) in Hp as ([Hid Ho] & (k & Hk & He) & Hw);
    [|apply setRole_eq].
  split; [split; [done|]|by eauto 10]. intros r' Hr'. destruct (Ho r' Hr') as [-> ->]. simpl. by rewrite setRole_ne.
Qed.

Lemma loadKeySets_spec keys order ks ks' :
  loadKeySets keys order ks = OK ks' → NoDup order →
  (∀ r, r ∈ order → nodePublicKeys ks r = None) →
  ks_id ks' = ks_id ks ∧
  ∀ r, if decide (r ∈ order)
       then loaded (ks_id ks) (keySets keys r) (ownerKeys ks r) (ownerKeys ks' r) (nodePublicKeys ks' r)
       else ownerKeys ks' r = ownerKeys ks r ∧ nodePublicKeys ks' r = nodePublicKeys ks r.
Proof.
  revert ks. induction order as [|r0 order IH]; intros ks; simpl.
  { intros [= <-] _ _. split; [done|]. done. }
  intros (ks1 & H1 & H2)%outcome_bind_OK [Hr0 Hnd]%NoDup_cons Hnone.
  apply loadKeySet_spec in H1 as [[Hid Ho] Hl]; [|apply Hnone; set_solver].
  destruct (IH ks1 H2 Hnd) as [Hid' Hr].
  { intros r Hr. destruct (Ho r) as [_ ->]; [set_solver|]. apply Hnone. set_solver. }
  rewrite Hid in *. split; [done|]. intros r. specialize (Hr r).
  destruct (decide (r = r0)) as [->|Hne].
  - rewrite decide_False in Hr by done. destruct Hr as [-> ->]. by rewrite decide_True by set_solver.
  - destruct (Ho r Hne) as [E1 E2]. rewrite E1, E2 in Hr.
    destruct (decide (r ∈ order)); [by rewrite decide_True by set_solver|by rewrite decide_False by set_solver].
Qed.

Lemma initial_owner roles r :
  foldl (λ m r, setRole r (MkOwnerKey "" NilKey NilKey) m) (λ _, None) roles r =
  if decide (r ∈ roles) then Some (MkOwnerKey "" NilKey NilKey) else None.
Proof.
  assert (∀ (m : AuthenticationRole → option ownerKey),
    foldl (λ m r, setRole r (MkOwnerKey "" NilKey NilKey) m) m roles r =
    if decide (r ∈ roles) then Some (MkOwnerKey "" NilKey NilKey) else m r) as Hm; [|apply Hm].
  induction roles as [|r0 roles IH]; intros m; simpl; [done|].
  rewrite IH. destruct (decide (r ∈ roles)); [by rewrite decide_True by set_solver|].
  destruct (decide (r = r0)) as [->|]; [rewrite setRole_eq, decide_True by set_solver; done|].
  rewrite setRole_ne by done. by rewrite decide_False by set_solver.
Qed.

Lemma parsePrivateKey_notNil spec b k : parsePrivateKey spec b = OK k → isNil k = false.
Proof.
  destruct spec; simpl.
  - by intros (x & _ & [= <-])%outcome_bind_OK.
  - intros (x & _ & ([d pk] & _ & [= <-])%outcome_bind_OK)%outcome_bind_OK. done.
Qed.

Lemma order_complete (order : list AuthenticationRole) :
  order ≡ₚ [ReplicaAuthen; USIGAuthen; ClientAuthen] → NoDup order ∧ ∀ r, r ∈ order.
Proof.
  intros Hp. split; [rewrite Hp; apply (bool_decide_unpack _); reflexivity|].
  intros r. rewrite Hp. destruct r; set_solver.
Qed.

(** The state of every role when [LoadSimpleKeyStore] returns a key store. *)
Lemma Load_spec yaml order reader roles id ks :
  order ≡ₚ [ReplicaAuthen; USIGAuthen; ClientAuthen] →
  LoadSimpleKeyStore yaml order reader roles id = OK ks →
  ∃ file, parseSimpleKeyStoreFile yaml reader = OK file ∧ ks_id ks = id ∧ ∀ role,
    loaded id (keySets file role)
      (if decide (role ∈ roles) then Some (MkOwnerKey "" NilKey NilKey) else None)
      (ownerKeys ks role) (nodePublicKeys ks role) ∧
    (role ∈ roles → isNil (PrivateKey ks role) = false).
Proof.
  intros [Hnd Hall]%order_complete (file & Hf & (ks0 & Hl & Hc)%outcome_bind_OK)%outcome_bind_OK.
  exists file. split; [done|]. destruct (existsb _ roles) eqn:Ex; [done|]. injection Hc as ->.
  apply loadKeySets_spec in Hl as [Hid Hr]; [|done|done]. simpl in *. split; [done|]. intros role.
  specialize (Hr role). rewrite decide_True, initial_owner in Hr by done. split; [done|].
  intros Hin. apply not_true_is_false. intros Hn. apply not_true_iff_false in Ex. apply Ex, existsb_exists.
  exists role. split; [by apply list_elem_of_In|done].
Qed.

(** What a key store has after loading a file.  For every role: without a key set
    in the file, no public key is found; with one, node [i] has the public key of the
    last entry with identifier [i], parsed by the key set's spec, and nil (without an
    error) when there is none.  For the node's own roles the private and public key
    are those of the last entry with the node's identifier; for other roles there is
    no private key.  The order in which the roles are loaded does not matter. *)
Theorem keystore_loaded yaml order reader roles id ks :
  order ≡ₚ [ReplicaAuthen; USIGAuthen; ClientAuthen] →
  LoadSimpleKeyStore yaml order reader roles id = OK ks →
  ∃ file, parseSimpleKeyStoreFile yaml reader = OK file ∧ ks_id ks = id ∧ ∀ role,
    match keySets file role with
    | None => ∀ i, isOK (NodePublicKey ks role i) = false
    | Some set => ∃ spec, getKeySpec (set_KeySpec set) = OK spec ∧ NodeKeySpec ks role = getSpecName spec ∧
        ∀ i, NodePublicKey ks role i = match lastPair i (set_Keys set) with
                                       | Some kp => parsePublicKey spec (kp_PublicKey kp)
                                       | None => OK NilKey
                                       end
    end ∧
    if decide (role ∈ roles)
    then ∃ set spec kp, keySets file role = Some set ∧ getKeySpec (set_KeySpec set) = OK spec ∧
           lastPair id (set_Keys set) = Some kp ∧ KeySpec ks role = getSpecName spec ∧
           parsePrivateKey spec (kp_PrivateKey kp) = OK (PrivateKey ks role) ∧
           parsePublicKey spec (kp_PublicKey kp) = OK (PublicKey ks role)
    else PrivateKey ks role = NilKey.
Proof.
  intros Hp Hl. destruct (Load_spec _ _ _ _ _ _ Hp Hl) as (file & Hf & Hid & Hr).
  exists file. split; [done|]. split; [done|]. intros role. destruct (Hr role) as [Hld Hnn]. clear Hr.
  unfold NodePublicKey, NodeKeySpec, KeySpec, PrivateKey, PublicKey in *. unfold loaded in Hld.
  destruct (keySets file role) as [set|].
  - destruct Hld as (spec & keys & Hs & -> & He & Hw). split.
    + exists spec. split_and!; [done..|]. intros i. specialize (He i). simpl.
      destruct (lastPair i (set_Keys set)) as [kp|]; [destruct He as (k & -> & ->); done|].
      by rewrite He, lookup_empty.
    + unfold owned in Hw. destruct (decide (role ∈ roles)) as [Hin|]; [|by rewrite Hw].
      destruct (lastPair id (set_Keys set)) as [kp|] eqn:Ek.
      * destruct Hw as (priv & pub & ? & ? & ->). exists set, spec, kp. done.
      * rewrite Hw in Hnn. by specialize (Hnn Hin).
  - destruct Hld as [Ho ->]. split; [done|].
    destruct (decide (role ∈ roles)) as [Hin|]; [|by rewrite Ho]. rewrite Ho in Hnn. by specialize (Hnn Hin).
Qed.

(** *** A file without errors loads *)

Definition pair_ok (spec : keySpec) (kp : option keyPair) : Prop :=
  ∃ p, kp = Some p ∧ isOK (parsePublicKey spec (kp_PublicKey p)) = true ∧
       isOK (parsePrivateKey spec (kp_PrivateKey p)) = true.

Lemma parseKeyPairs_total role spec pairs ks :
  Forall (pair_ok spec) pairs → is_Some (nodePublicKeys ks role) →
  isOK (parseKeyPairs role spec pairs ks) = true.
Proof.
  intros Hp. revert ks. induction Hp as [|kp pairs (p & -> & H1 & H2) _ IH]; intros ks [pk Hpk]; [done|].
  cbn [parseKeyPairs]. unfold parseKeyPair. rewrite Hpk.
  destruct (parsePublicKey spec _) as [pub| |]; try done. simpl.
  destruct (ownerKeys ks role); [|apply IH; simpl; rewrite setRole_eq; by eauto].
  destruct (_ =? _); [|apply IH; simpl; rewrite setRole_eq; by eauto].
  destruct (parsePrivateKey spec _); try done. apply IH. simpl. rewrite setRole_eq. by eauto.
Qed.

Definition set_ok (set : keySet) : Prop :=
  ∃ spec, getKeySpec (set_KeySpec set) = OK spec ∧ Forall (pair_ok spec) (set_Keys set).

Lemma loadKeySets_total keys order ks :
  (∀ r set, keySets keys r = Some set → set_ok set) → isOK (loadKeySets keys order ks) = true.
Proof.
  intros Hk. revert ks. induction order as [|r order IH]; intros ks; [done|]. simpl.
  assert (isOK (loadKeySet r (keySets keys r) ks) = true) as Hl.
  { unfold loadKeySet. destruct (keySets keys r) as [set|] eqn:E; [|done].
    destruct (Hk r set E) as (spec & -> & Hp). apply parseKeyPairs_total; [done|]. simpl. rewrite setRole_eq. by eauto. }
  destruct (loadKeySet _ _ _); try done. apply IH.
Qed.

Lemma Load_total yaml order reader roles id file :
  order ≡ₚ [ReplicaAuthen; USIGAuthen; ClientAuthen] →
  parseSimpleKeyStoreFile yaml reader = OK file →
  (∀ r set, keySets file r = Some set → set_ok set) →
  (∀ r, r ∈ roles → ∃ set, keySets file r = Some set ∧ is_Some (lastPair id (set_Keys set))) →
  ∃ ks, LoadSimpleKeyStore yaml order reader roles id = OK ks.
Proof.
  intros [Hnd Hall]%order_complete Hf Hs Hown. unfold LoadSimpleKeyStore. rewrite Hf. cbn [mbind outcome_bind].
  match goal with |- context [loadKeySets file order ?k] => pose proof (loadKeySets_total file order k Hs) as Ht;
    destruct (loadKeySets file order k) as [ks| |] eqn:Hl; try done end. cbn [mbind outcome_bind].
  apply loadKeySets_spec in Hl as [_ Hr]; [|done|done]. simpl in Hr.
  destruct (existsb _ roles) eqn:Ex; [|by eauto]. apply existsb_exists in Ex as (r & Hin%list_elem_of_In & Hn).
  specialize (Hr r). rewrite decide_True, initial_owner, decide_True in Hr by done.
  destruct (Hown r Hin) as (set & Hset & [kp Hkp]). rewrite Hset in Hr.
  destruct Hr as (spec & keys & _ & _ & _ & Hw). unfold owned in Hw. rewrite Hkp in Hw.
  destruct Hw as (priv & pub & Hpriv & _ & Ho). unfold PrivateKey in Hn. rewrite Ho in Hn. simpl in Hn.
  apply parsePrivateKey_notNil in Hpriv. congruence.
Qed.
End Parsing.

(** ** Constructors of the authenticator, generation of keys *)

Section Generation.
Context (ParseECPrivateKey : bytes → outcome (N * SgxUsig.PublicKey)) (ParsePKIX : bytes → outcome key).
Context (MarshalECPrivateKey : N * SgxUsig.PublicKey → outcome bytes) (MarshalPKIX : key → outcome bytes).
Context (ecdsa_GenerateKey : Curve → N → outcome (N * SgxUsig.PublicKey)).
Context (sgx_seal_data : sgx_ec256_public_t → bytes → sgx bytes).
Context (unseal_key : bytes → sgx (bytes * sgx_ec256_public_t)).
Context (yaml_Marshal : simpleKeyStoreFile → outcome bytes) (yaml_Unmarshal : bytes → outcome simpleKeyStoreFile).

Abbreviation Load := (LoadSimpleKeyStore ParseECPrivateKey ParsePKIX yaml_Unmarshal).

(** [func New] of [sgx-usig.go] *)
Definition sgxNew (rand : sgx N) (generated : sgx (bytes * sgx_ec256_public_t)) (sealedKey : bytes) :
    outcome USIGEnclave :=
  wrapf "failed to create USIG enclave" (NewUSIGEnclave rand generated unseal_key sealedKey).

(** [func New] of [authenticator.go] *)
Definition New (order : list AuthenticationRole) (roles : list AuthenticationRole) (id : N)
    (reader : outcome bytes) : outcome (SimpleKeyStore * schemes) :=
  ks ← wrapf "failed to load keystore" (Load order reader roles id);
  au ← wrapf "failed to create authenticator" (new (storer order ks) NoUSIG);
  OK (ks, au).

(** [func NewWithSGXUSIG]; [rand] and [generated] are the answers of the SGX library
    to the new enclave. *)
Definition NewWithSGXUSIG (rand : sgx N) (generated : sgx (bytes * sgx_ec256_public_t))
    (order : list AuthenticationRole) (roles : list AuthenticationRole) (id : N)
    (reader : outcome bytes) : outcome (SimpleKeyStore * USIGEnclave * schemes) :=
  ks ← wrapf "failed to load keystore" (Load order reader roles id);
  match ownerKeys ks USIGAuthen with
  | None => Panic "nil pointer dereference"
  | Some k =>
      match ok_privateKey k with
      | NilKey => Error (Errorf "failed to get USIG sealed key")
      | BytesKey usigKey =>
          usig ← wrapf "failed to create USIG" (sgxNew rand generated usigKey);
          au ← wrapf "failed to create authenticator" (new (storer order ks) SgxUSIG);
          OK (ks, usig, au)
      | _ => Panic "interface conversion: interface {} is not []uint8"
      end
  end.

(** [ecall_usig_seal_key] of the enclave, [func (enclave *USIGEnclave) SealedKey()] *)
Definition ecall_usig_seal_key (e : enclave) : sgx bytes :=
  if negb (initialized e) then SGX_ERROR SGX_ERROR_UNEXPECTED
  else sgx_seal_data (usig_pub_key e) (usig_priv_key e).

Definition SealedKey (u : USIGEnclave) : outcome bytes :=
  sgxSuccessOrPanic (ecall_usig_seal_key (us_enclave u)).

(** What is random in the generation of a key pair. *)
Record keyEnv := MkKeyEnv { env_random : N; env_epoch : sgx N; env_keys : sgx (bytes * sgx_ec256_public_t) }.

(** The [switch] of [generateKeyPair] *)
Definition curveOf (securityParam : Z) : Curve :=
  if (securityParam =? 224)%Z then P224 else if (securityParam =? 256)%Z then P256
  else if (securityParam =? 384)%Z then P384 else if (securityParam =? 521)%Z then P521 else P256.

Definition orPanic {A} (msg : string) (o : outcome A) : outcome A :=
  match o with Error _ => Panic msg | _ => o end.

(** [generateKeyPair] of the two key specs: Base64 of the private and of the public key *)
Definition sgxGenerateKeyPair (env : keyEnv) : outcome (bytes * bytes) :=
  usig ← sgxNew (env_epoch env) (env_keys env) [];
  privKeyBytes ← SealedKey usig;
  pubKey ← PublicKeyOf usig;
  pubKeyBytes ← wrapf "failed to marshal USIG public key" (MarshalPKIX pubKey);
  OK (Base64.EncodeToString privKeyBytes, Base64.EncodeToString pubKeyBytes).
Definition ecdsaGenerateKeyPair (securityParam : Z) (env : keyEnv) : outcome (bytes * bytes) :=
  '(d, k) ← ecdsa_GenerateKey (curveOf securityParam) (env_random env);
  privKeyBytes ← orPanic "x509.MarshalECPrivateKey failed" (MarshalECPrivateKey (d, k));
  pubKeyBytes ← orPanic "x509.MarshalPKIXPublicKey failed" (MarshalPKIX (EcdsaPublic k));
  OK (Base64.EncodeToString privKeyBytes, Base64.EncodeToString pubKeyBytes).
Definition generateKeyPair (spec : keySpec) (securityParam : Z) (env : keyEnv) : outcome (bytes * bytes) :=
  match spec with
  | sgxEcdsaKeySpec _ => sgxGenerateKeyPair env
  | ecdsaKeySpec => ecdsaGenerateKeyPair securityParam env
  end.

(** The loop of [generateKeySet], from key [id] on, [count] keys left *)
Fixpoint generateKeys (spec : keySpec) (secParam : Z) (envs : nat → keyEnv) (id count : nat) :
    outcome (list (option keyPair)) :=
  match count with
  | O => OK []
  | S count =>
      '(privKey, pubKey) ← generateKeyPair spec secParam (envs id);
      keys ← generateKeys spec secParam envs (S id) count;
      OK (Some (MkKeyPair (u32 (N.of_nat id)) privKey pubKey) :: keys)
  end.

(** [func generateKeySet]; [make] panics on a negative length. *)
Definition generateKeySet (nrKeys : Z) (keySpec : string) (secParam : Z) (enclaveFile : string)
    (envs : nat → keyEnv) : outcome keySet :=
  if (nrKeys <? 0)%Z then Panic "makeslice: len out of range"
  else
    spec ← getKeySpec keySpec;
    let spec := match spec with sgxEcdsaKeySpec _ => sgxEcdsaKeySpec enclaveFile | _ => spec end in
    keys ← generateKeys spec secParam envs 0 (Z.to_nat nrKeys);
    OK (MkKeySet keySpec keys).

(** [type TestnetKeyOpts struct] *)
Record TestnetKeyOpts := MkTestnetKeyOpts {
  NumberReplicas : Z; ReplicaKeySpec : string; ReplicaSecParam : Z;
  NumberClients : Z; ClientKeySpec : string; ClientSecParam : Z;
  UsigEnclaveFile : string }.

(** [func GenerateTestnetKeys]: what is written to [w] *)
Definition GenerateTestnetKeys (opts : TestnetKeyOpts) (rEnvs uEnvs cEnvs : nat → keyEnv) : outcome bytes :=
  rKeySet ← generateKeySet (NumberReplicas opts) (ReplicaKeySpec opts) (ReplicaSecParam opts) "" rEnvs;
  uKeySet ← generateKeySet (NumberReplicas opts) keySpecSgxEcdsa 0 (UsigEnclaveFile opts) uEnvs;
  cKeySet ← generateKeySet (NumberClients opts) (ClientKeySpec opts) (ClientSecParam opts) "" cEnvs;
  wrapf "failed to marshal simpleKeyStoreFile to yaml"
    (yaml_Marshal (MkKeyStoreFile (Some rKeySet) (Some uKeySet) (Some cKeySet))).

(** *** When the constructor panics *)

Lemma new_no_panic st usig : isPanic (new st usig) = false.
Proof.
  unfold new. generalize (λ _ : AuthenticationRole, @None AuthenticationScheme).
  induction (SampleAuthen.NodeRoles st) as [|r roles IH]; intros a; [done|]. simpl.
  destruct (newScheme st usig r a) as [a'| |] eqn:E; [apply IH|done|].
  unfold newScheme in E. repeat case_if; try done. by destruct usig.
Qed.

Lemma sgxNew_no_panic rand generated sealed : isPanic (sgxNew rand generated sealed) = false.
Proof.
  unfold sgxNew. rewrite wrapf_isPanic. unfold NewUSIGEnclave, ecall_usig_init. simpl.
  destruct rand as [epoch|]; [|done].
  destruct (match sealed with [] => None | _ => Some sealed end) as [d|];
    [destruct (unseal_key d) as [[]|]|destruct generated as [[]|]]; done.
Qed.

(** When [NewWithSGXUSIG] panics.  With a key file that loads, the constructor
    panics, instead of returning an error, exactly when the caller did not ask for the
    USIG role or the file gives the USIG keys the spec "ECDSA". *)
Theorem new_with_sgx_usig_panics rand generated order roles id reader ks :
  order ≡ₚ [ReplicaAuthen; USIGAuthen; ClientAuthen] →
  Load order reader roles id = OK ks →
  isPanic (NewWithSGXUSIG rand generated order roles id reader) = true ↔
  USIGAuthen ∉ roles ∨ NodeKeySpec ks USIGAuthen = keySpecEcdsa.
Proof.
  intros Hp Hl. destruct (Load_spec _ _ _ _ _ _ _ _ Hp Hl) as (file & _ & _ & Hr).
  destruct (Hr USIGAuthen) as [Hld Hnn]. unfold NewWithSGXUSIG, NodeKeySpec, PrivateKey in *. rewrite Hl. simpl.
  destruct (decide (USIGAuthen ∈ roles)) as [Hin|Hin].
  - specialize (Hnn Hin). unfold loaded in Hld. destruct (keySets file USIGAuthen) as [set|].
    2: { destruct Hld as [Ho _]. by rewrite Ho in Hnn. }
    destruct Hld as (spec & keys & Hs & -> & _ & Hw). unfold owned in Hw.
    destruct (lastPair id (set_Keys set)) as [kp|]; [|by rewrite Hw in Hnn].
    destruct Hw as (priv & pub & Hpriv & _ & ->). simpl. destruct spec as [f|]; simpl in *.
    + apply outcome_bind_OK in Hpriv as (sealed & _ & [= <-]). simpl.
      assert (isPanic (usig ← wrapf "failed to create USIG" (sgxNew rand generated sealed);
        au ← wrapf "failed to create authenticator" (new (storer order ks) SgxUSIG); OK (ks, usig, au)) = false) as ->.
      { apply isPanic_bind; [by rewrite wrapf_isPanic, sgxNew_no_panic|]. intros usig.
        apply isPanic_bind; [by rewrite wrapf_isPanic, new_no_panic|done]. }
      split; [done|]. intros [?|Hn]; [done|]. vm_compute in Hn. done.
    + apply outcome_bind_OK in Hpriv as (der & _ & ([d k] & _ & [= <-])%outcome_bind_OK). simpl.
      split; [by right|done].
  - assert (ownerKeys ks USIGAuthen = None) as ->.
    { unfold loaded in Hld. destruct (keySets file USIGAuthen) as [set|]; [|by destruct Hld].
      destruct Hld as (spec & keys & _ & _ & _ & Hw). exact Hw. }
    split; [by left|done].
Qed.

(** *** Loading what was generated *)

Context (ecdsa_pair : N → SgxUsig.PublicKey → Prop) (keypair : bytes → sgx_ec256_public_t → Prop).

(** What is relied on of the libraries: decoding gives back what was encoded, sealed
    keys can be unsealed, generated keys belong together. *)
Record key_laws : Prop := {
  kl_private : ∀ d k b, MarshalECPrivateKey (d, k) = OK b → ParseECPrivateKey b = OK (d, k);
  kl_public : ∀ k b, MarshalPKIX (EcdsaPublic k) = OK b → ParsePKIX b = OK (EcdsaPublic k);
  kl_generate : ∀ c rnd d k, ecdsa_GenerateKey c rnd = OK (d, k) → ecdsa_pair d k;
  kl_seal : ∀ pub priv b, sgx_seal_data pub priv = SGX_SUCCESS b →
              b ≠ [] ∧ unseal_key b = SGX_SUCCESS (priv, pub);
  kl_keys : ∀ b priv pub, unseal_key b = SGX_SUCCESS (priv, pub) → keypair priv pub;
  kl_yaml : ∀ f b, yaml_Marshal f = OK b → yaml_Unmarshal b = OK f }.

Context (HL : key_laws).

Lemma generateKeys_spec spec secParam envs id count keys :
  generateKeys spec secParam envs id count = OK keys →
  length keys = count ∧ ∀ i, (i < count)%nat → ∃ priv pub,
    keys !! i = Some (Some (MkKeyPair (u32 (N.of_nat (id + i))) priv pub)) ∧
    generateKeyPair spec secParam (envs (id + i)%nat) = OK (priv, pub).
Proof.
  revert id keys. induction count as [|count IH]; intros id keys; simpl.
  { intros [= <-]. split; [done|]. lia. }
  intros ([priv pub] & Hg & (keys' & Hk & [= <-])%outcome_bind_OK)%outcome_bind_OK.
  destruct (IH _ _ Hk) as [Hlen Hi]. split; [simpl; by rewrite Hlen|].
  intros [|i] Hlt; [exists priv, pub; by rewrite Nat.add_0_r|].
  destruct (Hi i ltac:(lia)) as (priv' & pub' & H1 & H2). exists priv', pub'. simpl.
  by replace (id + S i)%nat with (S id + i)%nat by lia.
Qed.

Lemma lastPair_lookup keys (i : N) :
  N.of_nat (length keys) ≤ 2 ^ 32 →
  (∀ j kp, keys !! j = Some kp → ∃ priv pub, kp = Some (MkKeyPair (u32 (N.of_nat j)) priv pub)) →
  lastPair i keys = default None (keys !! N.to_nat i).
Proof.
  intros Hlen Hk.
  assert (∀ l off, (∀ j kp, l !! j = Some kp → ∃ priv pub, kp = Some (MkKeyPair (off + N.of_nat j) priv pub)) →
    lastPair i l = if off <=? i then default None (l !! N.to_nat (i - off)) else None) as Haux.
  { induction l as [|kp l IH]; intros off Hl; simpl; [by case_if|].
    destruct (Hl 0%nat kp eq_refl) as (priv & pub & ->). simpl.
    rewrite (IH (off + 1)).
    2: { intros j kp Hj. destruct (Hl (S j) kp Hj) as (priv' & pub' & ->). exists priv', pub'.
         do 2 f_equal. lia. }
    destruct (N.leb_spec (off + 1) i), (N.leb_spec off i); try lia.
    - replace (N.to_nat (i - off)) with (S (N.to_nat (i - (off + 1)))) by lia. simpl.
      destruct (l !! _) as [[kp|]|] eqn:E; simpl; [done|..];
        (destruct (off + N.of_nat 0 =? i) eqn:Ei; nbool; [lia|done]).
    - assert (off = i) as <- by lia. rewrite N.sub_diag. simpl. by rewrite N.add_0_r, N.eqb_refl.
    - destruct (off + N.of_nat 0 =? i) eqn:Ei; nbool; [lia|done]. }
  rewrite (Haux keys 0); [destruct (N.leb_spec 0 i); [by rewrite N.sub_0_r|lia]|].
  intros j kp Hj. destruct (Hk j kp Hj) as (priv & pub & ->). exists priv, pub. simpl.
  apply lookup_lt_Some in Hj. unfold u32. rewrite N.mod_small by lia. done.
Qed.

(** What a generated key pair parses to. *)
Lemma generated_pair_parses spec sp env priv pub :
  generateKeyPair spec sp env = OK (priv, pub) →
  match spec with
  | ecdsaKeySpec => ∃ d k, ecdsa_pair d k ∧
      parsePrivateKey ParseECPrivateKey spec priv = OK (EcdsaPrivate d k) ∧
      parsePublicKey ParsePKIX spec pub = OK (EcdsaPublic k)
  | sgxEcdsaKeySpec _ => ∃ sealed pr p, sealed ≠ [] ∧ unseal_key sealed = SGX_SUCCESS (pr, p) ∧
      parsePrivateKey ParseECPrivateKey spec priv = OK (BytesKey sealed) ∧
      parsePublicKey ParsePKIX spec pub = OK (EcdsaPublic (sgxEC256PubKeyToGo p)) ∧
      isOK (MarshalPKIX (EcdsaPublic (sgxEC256PubKeyToGo p))) = true
  end.
Proof.
  destruct spec as [file|]; cbn [generateKeyPair].
  - intros (u & _ & (sealed & Hs & Hpk)%outcome_bind_OK)%outcome_bind_OK.
    apply outcome_bind_OK in Hpk as (k & Hk & (kb & Hkb%wrapf_OK & [= <- <-])%outcome_bind_OK).
    unfold SealedKey, ecall_usig_seal_key in Hs. unfold PublicKeyOf, ecall_usig_get_pub_key in Hk.
    destruct (initialized (us_enclave u)); [|done].
    destruct (sgx_seal_data _ _) as [b|] eqn:Eb; [|done]. injection Hs as ->.
    destruct (kl_seal HL _ _ _ Eb) as [Hne Hun].
    exists sealed, (usig_priv_key (us_enclave u)), (usig_pub_key (us_enclave u)).
    simpl in Hk. injection Hk as <-.
    unfold parsePrivateKey, sgxParsePrivateKey, ecdsaParsePrivateKey, parsePublicKey. rewrite !Base64.Decode_Encode. simpl.
    by rewrite (kl_public HL _ _ Hkb), Hkb.
  - intros ([d k] & Hg & (pb & Hp & (kb & Hkb & [= <- <-])%outcome_bind_OK)%outcome_bind_OK)%outcome_bind_OK.
    unfold orPanic in Hp, Hkb. destruct (MarshalECPrivateKey (d, k)) as [pb'| |] eqn:Ep; simplify_eq.
    destruct (MarshalPKIX (EcdsaPublic k)) as [kb'| |] eqn:Ek; simplify_eq.
    exists d, k. split; [by eapply (kl_generate HL)|]. unfold parsePrivateKey, sgxParsePrivateKey, ecdsaParsePrivateKey, parsePublicKey.
    rewrite !Base64.Decode_Encode. simpl. rewrite (kl_private HL _ _ _ Ep), (kl_public HL _ _ Ek). done.
Qed.

(** A generated key set: every entry parses, and node [i]'s entry is the [i]-th. *)
Lemma generateKeySet_spec nrKeys name secParam file envs set :
  generateKeySet nrKeys name secParam file envs = OK set → (nrKeys ≤ 2 ^ 32)%Z →
  set_ok ParseECPrivateKey ParsePKIX set ∧ set_KeySpec set = name ∧
  ∃ spec, getKeySpec name = OK spec ∧ ∀ i, (Z.of_N i < nrKeys)%Z → ∃ kp env,
    lastPair i (set_Keys set) = Some kp ∧
    generateKeyPair match spec with sgxEcdsaKeySpec _ => sgxEcdsaKeySpec file | _ => spec end secParam env =
      OK (kp_PrivateKey kp, kp_PublicKey kp).
Proof.
  unfold generateKeySet. intros Hg Hn. destruct (Z.ltb_spec nrKeys 0); [done|].
  apply outcome_bind_OK in Hg as (spec & Hs & (keys & Hk & [= <-])%outcome_bind_OK). simpl.
  apply generateKeys_spec in Hk as [Hlen Hi]. simpl in Hi.
  assert (∀ j kp, keys !! j = Some kp → ∃ priv pub, kp = Some (MkKeyPair (u32 (N.of_nat j)) priv pub) ∧
    ∃ env, generateKeyPair match spec with sgxEcdsaKeySpec _ => sgxEcdsaKeySpec file | _ => spec end secParam env
      = OK (priv, pub)) as Hj.
  { intros j kp Hjk. destruct (Hi j) as (priv & pub & E & Hgen); [apply lookup_lt_Some in Hjk; lia|].
    exists priv, pub. split; [congruence|]. eauto. }
  split_and!; [|done|].
  - exists spec. split; [done|]. apply Forall_lookup. intros j kp Hjk.
    destruct (Hj j kp Hjk) as (priv & pub & -> & env & Hgen). eexists. split; [done|]. simpl.
    apply generated_pair_parses in Hgen.
    destruct spec as [f|]; [destruct Hgen as (? & ? & ? & _ & _ & H1 & H2 & _)|destruct Hgen as (? & ? & _ & H1 & H2)];
      (split; [exact (f_equal isOK H2)|exact (f_equal isOK H1)]).
  - exists spec. split; [done|]. intros i Hlt. rewrite lastPair_lookup.
    + destruct (Hi (N.to_nat i)) as (priv & pub & E & Hgen); [lia|]. rewrite E. simpl. eauto.
    + lia.
    + intros j kp Hjk. destruct (Hj j kp Hjk) as (priv & pub & -> & _). eauto.
Qed.

Lemma newSchemes_total st usig roles a :
  usig ≠ OtherUSIG →
  (∀ r, r ∈ roles → SampleAuthen.NodeKeySpec st r =
     match r with USIGAuthen => keySpecSgxEcdsa | _ => keySpecEcdsa end) →
  ∃ a', newSchemes st usig roles a = OK a'.
Proof.
  intros Hu. revert a. induction roles as [|r roles IH]; intros a Hr; [by eexists|]. simpl.
  assert (∃ a1, newScheme st usig r a = OK a1) as [a1 ->].
  { unfold newScheme. rewrite (Hr r) by set_solver. destruct r, usig; simpl; try done; eexists; done. }
  apply IH. set_solver.
Qed.

Lemma getKeySpec_name name spec : getKeySpec name = OK spec → getSpecName spec = name.
Proof. unfold getKeySpec. do 2 (case_bool_decide; [by intros [= <-]|]). done. Qed.

Lemma NodeKeySpec_loaded order w file roles id ks role set :
  order ≡ₚ [ReplicaAuthen; USIGAuthen; ClientAuthen] →
  parseSimpleKeyStoreFile yaml_Unmarshal (OK w) = OK file → Load order (OK w) roles id = OK ks →
  keySets file role = Some set → NodeKeySpec ks role = set_KeySpec set.
Proof.
  intros Hp Hf Hl Hset. destruct (Load_spec _ _ _ _ _ _ _ _ Hp Hl) as (file' & Hf' & _ & Hr).
  assert (file' = file) as -> by congruence. destruct (Hr role) as [Hld _]. rewrite Hset in Hld.
  destruct Hld as (spec & keys & Hs & Hnpk & _). unfold NodeKeySpec. rewrite Hnpk. by apply getKeySpec_name.
Qed.

(** The accessors of a store loaded from a generated file. *)
Lemma loaded_generated order w file roles id ks role set nr secParam fileName envs i :
  order ≡ₚ [ReplicaAuthen; USIGAuthen; ClientAuthen] →
  parseSimpleKeyStoreFile yaml_Unmarshal (OK w) = OK file → Load order (OK w) roles id = OK ks →
  keySets file role = Some set → (nr ≤ 2 ^ 32)%Z → (Z.of_N i < nr)%Z → (Z.of_N id < nr)%Z →
  generateKeySet nr (set_KeySpec set) secParam fileName envs = OK set →
  ∃ spec kp env, getKeySpec (set_KeySpec set) = OK spec ∧ NodeKeySpec ks role = getSpecName spec ∧
    lastPair i (set_Keys set) = Some kp ∧
    generateKeyPair match spec with sgxEcdsaKeySpec _ => sgxEcdsaKeySpec fileName | _ => spec end secParam env =
      OK (kp_PrivateKey kp, kp_PublicKey kp) ∧
    NodePublicKey ks role i = parsePublicKey ParsePKIX spec (kp_PublicKey kp) ∧
    (role ∈ roles → id = i → parsePrivateKey ParseECPrivateKey spec (kp_PrivateKey kp) = OK (PrivateKey ks role)).
Proof.
  intros Hp Hf Hl Hset Hn Hi Hid Hgen.
  destruct (Load_spec _ _ _ _ _ _ _ _ Hp Hl) as (file' & Hf' & _ & Hr).
  assert (file' = file) as -> by congruence. destruct (Hr role) as [Hld _]. rewrite Hset in Hld.
  destruct Hld as (spec & keys & Hs & Hnpk & He & Hw).
  destruct (generateKeySet_spec _ _ _ _ _ _ Hgen Hn) as (_ & _ & spec' & Hs' & Hpairs).
  assert (spec' = spec) as -> by congruence. destruct (Hpairs i Hi) as (kp & env & Hkp & Hg).
  exists spec, kp, env. unfold NodeKeySpec, NodePublicKey, PrivateKey. rewrite Hnpk.
  specialize (He i). rewrite Hkp in He. destruct He as (k & Hk & Hki). simpl. rewrite Hki, Hk.
  split_and!; try done. intros Hin ->. unfold owned in Hw. rewrite decide_True, Hkp in Hw by done.
  destruct Hw as (priv & pub & -> & _ & ->). done.
Qed.

(** A pair of a generated key set as its owner and as another node load it. *)
Lemma pair_seen order w file roles i j ks ks' role set nr secParam fileName envs :
  order ≡ₚ [ReplicaAuthen; USIGAuthen; ClientAuthen] →
  parseSimpleKeyStoreFile yaml_Unmarshal (OK w) = OK file →
  Load order (OK w) roles i = OK ks → Load order (OK w) roles j = OK ks' →
  keySets file role = Some set → (nr ≤ 2 ^ 32)%Z → (Z.of_N i < nr)%Z → (Z.of_N j < nr)%Z →
  generateKeySet nr (set_KeySpec set) secParam fileName envs = OK set → role ∈ roles →
  ∃ spec kp env, getKeySpec (set_KeySpec set) = OK spec ∧
    generateKeyPair match spec with sgxEcdsaKeySpec _ => sgxEcdsaKeySpec fileName | _ => spec end secParam env =
      OK (kp_PrivateKey kp, kp_PublicKey kp) ∧
    parsePrivateKey ParseECPrivateKey spec (kp_PrivateKey kp) = OK (PrivateKey ks role) ∧
    NodePublicKey ks' role i = parsePublicKey ParsePKIX spec (kp_PublicKey kp).
Proof.
  intros Hp Hf Hks Hks' Hset Hnr Hi Hj Hg Hin.
  destruct (loaded_generated order w file roles i ks role set _ _ _ _ i Hp Hf Hks Hset Hnr Hi Hi Hg)
    as (s1 & kp & env & S1 & _ & L1 & E1 & _ & Hpriv).
  destruct (loaded_generated order w file roles j ks' role set _ _ _ _ i Hp Hf Hks' Hset Hnr Hi Hj Hg)
    as (s2 & kp' & _ & S2 & _ & L2 & _ & Hpub & _).
  assert (s2 = s1) as -> by congruence. assert (kp' = kp) as -> by congruence.
  exists s1, kp, env. auto.
Qed.

(** The file of a generated test network: its three key sets and that every replica
    can load it. *)
Lemma generated_file opts rEnvs uEnvs cEnvs w order :
  GenerateTestnetKeys opts rEnvs uEnvs cEnvs = OK w →
  (NumberReplicas opts ≤ 2 ^ 32)%Z → (NumberClients opts ≤ 2 ^ 32)%Z →
  order ≡ₚ [ReplicaAuthen; USIGAuthen; ClientAuthen] →
  ∃ rset uset cset,
    parseSimpleKeyStoreFile yaml_Unmarshal (OK w) =
      OK (MkKeyStoreFile (Some rset) (Some uset) (Some cset)) ∧
    set_KeySpec rset = ReplicaKeySpec opts ∧ set_KeySpec uset = keySpecSgxEcdsa ∧
    set_KeySpec cset = ClientKeySpec opts ∧
    generateKeySet (NumberReplicas opts) (set_KeySpec rset) (ReplicaSecParam opts) "" rEnvs = OK rset ∧
    generateKeySet (NumberReplicas opts) (set_KeySpec uset) 0 (UsigEnclaveFile opts) uEnvs = OK uset ∧
    (∀ id, (Z.of_N id < NumberReplicas opts)%Z →
      ∃ ks, Load order (OK w) [ReplicaAuthen; USIGAuthen] id = OK ks) ∧
    ∀ id, (Z.of_N id < NumberClients opts)%Z → ∃ ks, Load order (OK w) [ClientAuthen] id = OK ks.
Proof.
  intros Hgen Hnr Hnc Hp. unfold GenerateTestnetKeys in Hgen.
  apply outcome_bind_OK in Hgen as (rset & Gr & (uset & Gu & (cset & Gc & Gw)%outcome_bind_OK)%outcome_bind_OK).
  exists rset, uset, cset.
  assert (parseSimpleKeyStoreFile yaml_Unmarshal (OK w) =
          OK (MkKeyStoreFile (Some rset) (Some uset) (Some cset))) as Hf.
  { unfold parseSimpleKeyStoreFile. simpl. apply wrapf_OK in Gw. by rewrite (kl_yaml HL _ _ Gw). }
  destruct (generateKeySet_spec _ _ _ _ _ _ Gr Hnr) as (Or & Nr & specr & Sr & Pr).
  destruct (generateKeySet_spec _ _ _ _ _ _ Gu Hnr) as (Ou & Nu & specu & Su & Pu).
  destruct (generateKeySet_spec _ _ _ _ _ _ Gc Hnc) as (Oc & Nc & specc & Sc & Pc).
  rewrite Nr, Nu. split_and!; try done; intros id Hid.
  all: apply (Load_total _ _ _ _ _ _ _ _ Hp Hf); [by intros [] set [= <-]|].
  - intros r [->|[->|[]%elem_of_nil]%elem_of_cons]%elem_of_cons; simpl.
    + exists rset. split; [done|]. destruct (Pr id Hid) as (kp & _ & -> & _). by eexists.
    + exists uset. split; [done|]. destruct (Pu id Hid) as (kp & _ & -> & _). by eexists.
  - intros r ->%list_elem_of_singleton. exists cset. split; [done|].
    destruct (Pc id Hid) as (kp & _ & -> & _). by eexists.
Qed.

(** An authenticator is created from a loaded store whose key sets have the usual
    specs and whose USIG key the enclave unseals. *)
Lemma NewWithSGXUSIG_loaded order w rset uset cset roles i ks epoch generated sealed pr p :
  order ≡ₚ [ReplicaAuthen; USIGAuthen; ClientAuthen] →
  parseSimpleKeyStoreFile yaml_Unmarshal (OK w) = OK (MkKeyStoreFile (Some rset) (Some uset) (Some cset)) →
  set_KeySpec rset = keySpecEcdsa → set_KeySpec uset = keySpecSgxEcdsa → set_KeySpec cset = keySpecEcdsa →
  Load order (OK w) roles i = OK ks → PrivateKey ks USIGAuthen = BytesKey sealed →
  sealed ≠ [] → unseal_key sealed = SGX_SUCCESS (pr, p) →
  ∃ a, NewWithSGXUSIG (SGX_SUCCESS epoch) generated order roles i (OK w) =
    OK (ks, MkUSIG (MkEnclave pr p epoch true (usig_counter loadedEnclave)) epoch, a).
Proof.
  intros Hp Hf Nr Nu Nc Hks HPu Hne Hun.
  destruct (newSchemes_total (storer order ks) SgxUSIG (NodeRoles order ks) (λ _, None)) as [a Ha]; [done| |].
  { intros r _. simpl. rewrite (NodeKeySpec_loaded order w _ _ i ks r
      match r with ReplicaAuthen => rset | USIGAuthen => uset | ClientAuthen => cset end Hp Hf Hks);
      by destruct r. }
  exists a. unfold NewWithSGXUSIG. rewrite Hks. simpl. unfold PrivateKey in HPu.
  destruct (ownerKeys ks USIGAuthen) as [o|]; [|done]. rewrite HPu.
  unfold sgxNew, NewUSIGEnclave, ecall_usig_init. destruct sealed as [|b sealed]; [done|].
  simpl. rewrite Hun. simpl. unfold new. simpl. rewrite Ha. done.
Qed.

(** What a node of a generated test network is created with: a replica its key store,
    USIG and schemes, a client its key store and schemes. *)
Lemma generated_replica opts rEnvs uEnvs cEnvs w epoch generated order i :
  GenerateTestnetKeys opts rEnvs uEnvs cEnvs = OK w →
  ReplicaKeySpec opts = keySpecEcdsa → ClientKeySpec opts = keySpecEcdsa →
  (NumberReplicas opts ≤ 2 ^ 32)%Z → (NumberClients opts ≤ 2 ^ 32)%Z →
  (Z.of_N i < NumberReplicas opts)%Z → order ≡ₚ [ReplicaAuthen; USIGAuthen; ClientAuthen] →
  ∃ auth, NewWithSGXUSIG (SGX_SUCCESS epoch) generated order [ReplicaAuthen; USIGAuthen] i (OK w) = OK auth.
Proof.
  intros Hgen Hrs Hcs Hnr Hnc Hi Hp.
  destruct (generated_file _ _ _ _ _ _ Hgen Hnr Hnc Hp) as (rset & uset & cset & Hf & Nr & Nu & Nc & Gr & Gu & Hload & _).
  destruct (Hload i Hi) as [ks Hks].
  destruct (pair_seen order w _ [ReplicaAuthen; USIGAuthen] i i ks ks USIGAuthen uset _ _ _ _ Hp Hf Hks Hks eq_refl Hnr Hi Hi Gu)
    as (su & kpu & eu & Su & Eu & Privu & _); [set_solver|].
  rewrite Nu in Su. injection Su as <-.
  apply generated_pair_parses in Eu as (sealed & pr & p & Hne & Hun & Pu1 & _).
  assert (PrivateKey ks USIGAuthen = BytesKey sealed) as HPu by (by injection (eq_trans (eq_sym Pu1) Privu) as <-).
  destruct (NewWithSGXUSIG_loaded order w rset uset cset [ReplicaAuthen; USIGAuthen] i ks epoch generated sealed pr p Hp Hf)
    as [a Ha]; [congruence..|done|done|done|done|]. by eexists.
Qed.

Lemma generated_client opts rEnvs uEnvs cEnvs w order i :
  GenerateTestnetKeys opts rEnvs uEnvs cEnvs = OK w →
  ReplicaKeySpec opts = keySpecEcdsa → ClientKeySpec opts = keySpecEcdsa →
  (NumberReplicas opts ≤ 2 ^ 32)%Z → (NumberClients opts ≤ 2 ^ 32)%Z →
  (Z.of_N i < NumberClients opts)%Z → order ≡ₚ [ReplicaAuthen; USIGAuthen; ClientAuthen] →
  ∃ auth, New order [ClientAuthen] i (OK w) = OK auth.
Proof.
  intros Hgen Hrs Hcs Hnr Hnc Hi Hp.
  destruct (generated_file _ _ _ _ _ _ Hgen Hnr Hnc Hp) as (rset & uset & cset & Hf & Nr & Nu & Nc & _ & _ & _ & Hload).
  destruct (Hload i Hi) as [ks Hks].
  destruct (newSchemes_total (storer order ks) NoUSIG (NodeRoles order ks) (λ _, None)) as [a Ha]; [done| |].
  { intros r _. simpl. rewrite (NodeKeySpec_loaded order w _ _ i ks r
      match r with ReplicaAuthen => rset | USIGAuthen => uset | ClientAuthen => cset end Hp Hf Hks);
      destruct r; congruence || done. }
  exists (ks, a). unfold New. rewrite Hks. simpl. unfold new. simpl. by rewrite Ha.
Qed.

(** The keys of a generated test network fit together.  When
    [GenerateTestnetKeys] with ECDSA keys for replicas and clients has written a file,
    then for any two replicas: the authenticator of the first can be created from the
    file, including its USIG from the sealed key, the second can load its key store,
    and the second's public keys for the first match the first's private keys and
    USIG in the sense of [SampleAuthen.keys_match], which makes the tags of the first
    acceptable to the second if it has captured no other epoch. *)
Theorem testnet_keys_match opts rEnvs uEnvs cEnvs w epoch generated order i j :
  GenerateTestnetKeys opts rEnvs uEnvs cEnvs = OK w →
  ReplicaKeySpec opts = keySpecEcdsa → ClientKeySpec opts = keySpecEcdsa →
  (NumberReplicas opts ≤ 2 ^ 32)%Z → (NumberClients opts ≤ 2 ^ 32)%Z →
  (Z.of_N i < NumberReplicas opts)%Z → (Z.of_N j < NumberReplicas opts)%Z →
  in_u64 epoch → order ≡ₚ [ReplicaAuthen; USIGAuthen; ClientAuthen] →
  ∃ ks u a ks', NewWithSGXUSIG (SGX_SUCCESS epoch) generated order [ReplicaAuthen; USIGAuthen] i (OK w)
      = OK (ks, u, a) ∧
    Load order (OK w) [ReplicaAuthen; USIGAuthen] j = OK ks' ∧
    ∀ role, role ∈ [ReplicaAuthen; USIGAuthen] →
      keys_match MarshalPKIX keypair ecdsa_pair (storer order ks) (storer order ks') role i u.
Proof.
  intros Hgen Hrs Hcs Hnr Hnc Hi Hj Hep Hp.
  destruct (generated_file _ _ _ _ _ _ Hgen Hnr Hnc Hp) as (rset & uset & cset & Hf & Nr & Nu & Nc & Gr & Gu & Hload & _).
  destruct (Hload i Hi) as [ks Hks], (Hload j Hj) as [ks' Hks'].
  destruct (pair_seen order w _ [ReplicaAuthen; USIGAuthen] i j ks ks' ReplicaAuthen rset _ _ _ _ Hp Hf Hks Hks' eq_refl Hnr Hi Hj Gr)
    as (sr & kpr & er & Sr & Er & Privr & Pubr); [set_solver|].
  destruct (pair_seen order w _ [ReplicaAuthen; USIGAuthen] i j ks ks' USIGAuthen uset _ _ _ _ Hp Hf Hks Hks' eq_refl Hnr Hi Hj Gu)
    as (su & kpu & eu & Su & Eu & Privu & Pubu); [set_solver|].
  rewrite Nr, Hrs in Sr. rewrite Nu in Su. injection Sr as <-. injection Su as <-.
  apply generated_pair_parses in Er as (d & k & Hpair & Pr1 & Pr2).
  apply generated_pair_parses in Eu as (sealed & pr & p & Hne & Hun & Pu1 & Pu2 & Pu3).
  assert (PrivateKey ks ReplicaAuthen = EcdsaPrivate d k) as HPr by congruence.
  assert (PrivateKey ks USIGAuthen = BytesKey sealed) as HPu.
  { injection (eq_trans (eq_sym Pu1) Privu) as <-. done. }
  assert (NodePublicKey ks' ReplicaAuthen i = OK (EcdsaPublic k)) as HKr by (by rewrite Pubr).
  assert (NodePublicKey ks' USIGAuthen i = OK (EcdsaPublic (sgxEC256PubKeyToGo p))) as HKu by (by rewrite Pubu).
  destruct (NewWithSGXUSIG_loaded order w rset uset cset [ReplicaAuthen; USIGAuthen] i ks epoch generated sealed pr p Hp Hf)
    as [a Ha]; [congruence..|done|done|done|done|].
  eexists ks, _, a, ks'. split_and!; [exact Ha|done|].
  intros r [->|[->|[]%elem_of_nil]%elem_of_cons]%elem_of_cons.
  - exists d, k. done.
  - split_and!; simpl; try done. exists 0. split; try done. by eapply (kl_keys HL).
Qed.
End Generation.

(** ** A concrete network of one replica and no client *)

#[global] Instance keyPair_eq_dec : EqDecision keyPair.
Proof. solve_decision. Defined.
#[global] Instance keySet_eq_dec : EqDecision keySet.
Proof. solve_decision. Defined.
#[global] Instance keyFile_eq_dec : EqDecision simpleKeyStoreFile.
Proof. solve_decision. Defined.

Definition exParseEC (b : bytes) : outcome (N * SgxUsig.PublicKey) := OK (1, exampleKey).
Definition exMarshalEC (p : N * SgxUsig.PublicKey) : outcome bytes :=
  match p with (1, MkPublicKey P256 0 0) => OK [x30] | _ => Error (Errorf "x509") end.
Definition exGenerate (c : Curve) (rnd : N) : outcome (N * SgxUsig.PublicKey) := OK (1, exampleKey).
Definition exSeal (pub : sgx_ec256_public_t) (priv : bytes) : sgx bytes :=
  match pub, priv with MkSgxPub [] [], [] => SGX_SUCCESS [x01; x02] | _, _ => SGX_ERROR 1 end.
Definition exUnseal (b : bytes) : sgx (bytes * sgx_ec256_public_t) := SGX_SUCCESS ([], examplePub).
Definition exEnvs (i : nat) : keyEnv := MkKeyEnv 0 (SGX_SUCCESS 5) (SGX_SUCCESS ([], examplePub)).

Definition exSet (nr : Z) (name : string) : keySet :=
  match generateKeySet exMarshalEC examplePKIX exGenerate exSeal exUnseal nr name 256 "" exEnvs with
  | OK set => set | _ => MkKeySet "" [] end.
Definition exFile : simpleKeyStoreFile :=
  MkKeyStoreFile (Some (exSet 1 keySpecEcdsa)) (Some (exSet 1 keySpecSgxEcdsa)) (Some (exSet 0 keySpecEcdsa)).
Definition exYaml (f : simpleKeyStoreFile) : outcome bytes :=
  if decide (f = exFile) then OK [x59] else Error (Errorf "yaml").
Definition exUnYaml (b : bytes) : outcome simpleKeyStoreFile := OK exFile.
Definition exOrder : list AuthenticationRole := [USIGAuthen; ClientAuthen; ReplicaAuthen].
Definition exOpts : TestnetKeyOpts := MkTestnetKeyOpts 1 keySpecEcdsa 256 0 keySpecEcdsa 256 "".

Lemma exOrder_ok : exOrder ≡ₚ [ReplicaAuthen; USIGAuthen; ClientAuthen].
Proof. unfold exOrder. by rewrite (Permutation_app_comm [USIGAuthen; ClientAuthen] [ReplicaAuthen]). Qed.

Lemma ex_laws :
  key_laws exParseEC exampleUnPKIX exMarshalEC examplePKIX exGenerate exSeal exUnseal exYaml exUnYaml
    (λ _ _, True) (λ _ _, True).
Proof.
  split; try done.
  - intros d k b. unfold exMarshalEC. destruct d as [|[| |]]; try done.
    destruct k as [[] [] []]; try done.
  - intros [[] [] []] b; done.
  - intros pub priv sealed. unfold exSeal. destruct pub as [[] []], priv; try done. intros [= <-]. done.
  - intros f b. unfold exYaml. by destruct (decide (f = exFile)) as [->|].
Qed.

Lemma keystore_loaded_witness :
  ∃ ks file, LoadSimpleKeyStore exParseEC exampleUnPKIX exUnYaml exOrder (OK []) [ReplicaAuthen; USIGAuthen] 0
      = OK ks ∧ parseSimpleKeyStoreFile exUnYaml (OK []) = OK file ∧ ks_id ks = 0.
Proof.
  destruct (LoadSimpleKeyStore exParseEC exampleUnPKIX exUnYaml exOrder (OK []) [ReplicaAuthen; USIGAuthen] 0)
    as [ks| |] eqn:E; [|vm_compute in E; discriminate E..].
  destruct (keystore_loaded exParseEC exampleUnPKIX exUnYaml exOrder (OK []) _ 0 ks exOrder_ok E)
    as (file & Hf & Hid & _). exists ks, file. done.
Defined.

Lemma new_with_sgx_usig_panics_witness :
  isPanic (NewWithSGXUSIG exParseEC exampleUnPKIX exUnseal exUnYaml (SGX_SUCCESS 5) (SGX_ERROR 1) exOrder
    [ReplicaAuthen] 0 (OK [])) = true.
Proof.
  destruct (LoadSimpleKeyStore exParseEC exampleUnPKIX exUnYaml exOrder (OK []) [ReplicaAuthen] 0)
    as [ks| |] eqn:E; [|vm_compute in E; discriminate E..].
  apply (new_with_sgx_usig_panics exParseEC exampleUnPKIX exUnseal exUnYaml (SGX_SUCCESS 5) (SGX_ERROR 1)
    exOrder [ReplicaAuthen] 0 (OK []) ks exOrder_ok E).
  left. apply (bool_decide_unpack _). reflexivity.
Defined.

Lemma testnet_keys_match_witness :
  ∃ ks u a ks', NewWithSGXUSIG exParseEC exampleUnPKIX exUnseal exUnYaml (SGX_SUCCESS 5) (SGX_ERROR 1) exOrder
      [ReplicaAuthen; USIGAuthen] 0 (OK [x59]) = OK (ks, u, a) ∧
    LoadSimpleKeyStore exParseEC exampleUnPKIX exUnYaml exOrder (OK [x59]) [ReplicaAuthen; USIGAuthen] 0 = OK ks' ∧
    ∀ role, role ∈ [ReplicaAuthen; USIGAuthen] →
      keys_match examplePKIX (λ _ _, True) (λ _ _, True) (storer exOrder ks) (storer exOrder ks') role 0 u.
Proof.
  apply (testnet_keys_match exParseEC exampleUnPKIX exMarshalEC examplePKIX exGenerate exSeal exUnseal
    exYaml exUnYaml (λ _ _, True) (λ _ _, True) ex_laws exOpts exEnvs exEnvs exEnvs [x59] 5 (SGX_ERROR 1)
    exOrder 0 0); [vm_compute; reflexivity|reflexivity|reflexivity|simpl; lia..|exact exOrder_ok].
Defined.

End KeyStore.
