(* ===== verification/Validation.v ===== *)
(** Validation of received messages: the validators of [src/core/prepare.go],
    [commit.go], [req-view-change.go], [view-change.go], [new-view.go] and
    [message-handling.go], with the verification of signatures
    ([src/core/utils.go]) and USIG certificates ([src/core/usig-ui.go]).

    They do not use the replica's state.  For the two certificates and the
    message log a declarative predicate says what is accepted. *)

From S2P Require Import Prelude Bytes Usig Messages Authen Api Quorum.

Module Validation.
Import Quorum.

Section Validators.
Context {Au : Type} `{!Authenticator Au}.

(** ** Signatures and USIG certificates *)

(** [makeMessageSignatureVerifier]: the signed messages are Request, Reply and
    ReqViewChange. *)
Definition verifySignatureAs (role : AuthenticationRole) (id : N) (m : Message) (sig : bytes) :
    outcome unit :=
  authenBytes ← Authen.AuthenBytes m;
  VerifyMessageAuthenTag (Au := Au) role id authenBytes sig.

Definition verifyMessageSignature (m : Message) : outcome unit :=
  match m with
  | Msg_Request r => verifySignatureAs ClientAuthen (req_ClientID r) m (req_Signature r)
  | Msg_Reply r => verifySignatureAs ReplicaAuthen (rep_ReplicaID r) m (rep_Signature r)
  | Msg_ReqViewChange r => verifySignatureAs ReplicaAuthen (rvc_ReplicaID r) m (rvc_Signature r)
  | _ => Panic "Message with no signer ID"
  end.

(** [makeUIVerifier] *)
Definition verifyUI (m : CertifiedMessage) : outcome unit :=
  let ui := cm_UI m in
  if Counter ui =? 0 then Error (Errorf "invalid (zero) counter value")
  else
    authenBytes ← Authen.AuthenBytes (Msg_Certified m);
    wrapf "failed verifying USIG certificate"
      (VerifyMessageAuthenTag (Au := Au) USIGAuthen (cm_ReplicaID m) authenBytes
         (Usig.MustMarshalUI ui)).

(** ** Message types *)

(** [makeRequestValidator] *)
Definition validateRequest (r : Request) : outcome unit := verifyMessageSignature (Msg_Request r).

(** [makePrepareValidator(n)] *)
Definition validatePrepare (n : N) (p : Prepare) : outcome unit :=
  if negb (isPrimary (prep_View p) (prep_ReplicaID p) n)
  then Error (Errorf "Prepare from backup") else OK tt.

(** [makeCommitValidator()] *)
Definition validateCommit (c : Commit) : outcome unit :=
  let prop := comm_Proposal c in
  if comm_ReplicaID c =? cm_ReplicaID prop then Error (Errorf "commit from primary")
  else match prop with
       | CM_Prepare _ | CM_NewView _ => OK tt
       | _ => Panic "Unexpected proposal message type"
       end.

(** [makeReqViewChangeValidator] *)
Definition validateReqViewChange (r : ReqViewChange) : outcome unit :=
  if rvc_NewView r <? 1 then Error (Errorf "Invalid new view number")
  else wrapf "Signature is not valid" (verifyMessageSignature (Msg_ReqViewChange r)).

(** The loop of [makeViewChangeCertValidator]; [q] is the set of replicas seen. *)
Fixpoint checkVCCert (newView : N) (q : gset N) (cert : ViewChangeCert) : outcome unit :=
  match cert with
  | [] => OK tt
  | rvc :: cert =>
      if negb (rvc_NewView rvc =? newView) then Error (Errorf "new view number mismatch")
      else if bool_decide (rvc_ReplicaID rvc ∈ q) then Error (Errorf "duplicate")
      else checkVCCert newView ({[rvc_ReplicaID rvc]} ∪ q) cert
  end.

(** [makeViewChangeCertValidator(viewChangeCertSize)] *)
Definition validateVCCert (certSize newView : N) (cert : ViewChangeCert) : outcome unit :=
  if (length cert <? N.to_nat certSize)%nat then Error (Errorf "insufficient quorum")
  else checkVCCert newView ∅ cert.

(** The loop of [validateMessageLog], from the last message to the first:
    [rlog] is what is left of the log, last message first, so that [i == 0]
    when nothing is left after the message at hand. *)
Fixpoint checkLog (replicaID view : N) (rlog : list CertifiedMessage) (nextCV : N) : outcome unit :=
  match rlog with
  | [] => OK tt
  | m :: rest =>
      if negb (cm_ReplicaID m =? replicaID) then Error (Errorf "foreign message")
      else if negb (u64_succ (cm_Counter m) =? nextCV) then Error (Errorf "unexpected UI")
      else
        let nextCV := u64_pred nextCV in
        let first := match rest with [] => true | _ => false end in
        let check msgView :=
          if negb (msgView =? view) then Error (Errorf "log for unexpected view")
          else if negb first then Error (Errorf "unexpected message before")
          else OK tt in
        (match m with
         | CM_ViewChange vc => check (vc_NewView vc)
         | CM_NewView nv => check (nv_NewView nv)
         | _ => if first && ((0 <? view) || negb (nextCV =? 1))
                then Error (Errorf "missing message before") else OK tt
         end) ;;
        checkLog replicaID view rest nextCV
  end.

(** [func validateMessageLog(replicaID, view, log, nextCV)] *)
Definition validateMessageLog (replicaID view : N) (log : MessageLog) (nextCV : N) : outcome unit :=
  match log with
  | [] => if (0 <? view) || negb (nextCV =? 1) then Error (Errorf "incomplete log") else OK tt
  | _ => checkLog replicaID view (reverse log) nextCV
  end.

(** [makeViewChangeValidator] *)
Definition validateViewChange (vcCertSize : N) (vc : ViewChange) : outcome unit :=
  let newView := vc_NewView vc in
  if newView <? 1 then Error (Errorf "invalid new view number")
  else
    wrapf "invalid view-change certificate" (validateVCCert vcCertSize newView (vc_ViewChangeCert vc)) ;;
    wrapf "invalid message log"
      (validateMessageLog (vc_ReplicaID vc) (u64_pred newView) (vc_MessageLog vc) (vc_Counter vc)).

(** The loop of [makeNewViewCertValidator]; it returns the set of replicas. *)
Fixpoint checkNVCert (newView : N) (q : gset N) (cert : NewViewCert) : outcome (gset N) :=
  match cert with
  | [] => OK q
  | vc :: cert =>
      if negb (vc_NewView vc =? newView) then Error (Errorf "new view number mismatch")
      else if bool_decide (vc_ReplicaID vc ∈ q) then Error (Errorf "duplicate")
      else checkNVCert newView ({[vc_ReplicaID vc]} ∪ q) cert
  end.

(** [makeNewViewCertValidator(viewChangeCertSize)] *)
Definition validateNVCert (certSize newPrimary newView : N) (cert : NewViewCert) : outcome unit :=
  if (length cert <? N.to_nat certSize)%nat then Error (Errorf "insufficient quorum")
  else
    q ← checkNVCert newView ∅ cert;
    if bool_decide (newPrimary ∈ q) then OK tt
    else Error (Errorf "missing ViewChange from new primary").

(** [makeNewViewValidator] *)
Definition validateNewView (n vcCertSize : N) (nv : NewView) : outcome unit :=
  if nv_NewView nv <? 1 then Error (Errorf "invalid new view number")
  else if negb (isPrimary (nv_NewView nv) (nv_ReplicaID nv) n)
  then Error (Errorf "NewView from backup replica")
  else wrapf "invalid new-view certificate"
         (validateNVCert vcCertSize (nv_ReplicaID nv) (nv_NewView nv) (nv_NewViewCert nv)).

(** ** Dispatch ([src/core/message-handling.go]) *)

(** [makeCertifiedMessageValidator] *)
Definition validateCertifiedMessage (n vcCertSize : N) (m : CertifiedMessage) : outcome unit :=
  wrapf "invalid UI" (verifyUI m) ;;
  match m with
  | CM_Prepare p => validatePrepare n p
  | CM_Commit c => validateCommit c
  | CM_ViewChange vc => validateViewChange vcCertSize vc
  | CM_NewView nv => validateNewView n vcCertSize nv
  end.

(** [makePeerMessageValidator] and [makeMessageValidator]: a Request is
    validated as such; Hello and the certified messages and ReqViewChange are
    the peer messages, of which Hello has no validator; Reply is neither. *)
Definition validateMessage (n vcCertSize : N) (m : Message) : outcome unit :=
  match m with
  | Msg_Request r => validateRequest r
  | Msg_Hello r =>
      if n <=? r then Error (Errorf "unexpected replica ID") else Panic "Unknown message type"
  | Msg_Certified cm =>
      if n <=? cm_ReplicaID cm then Error (Errorf "unexpected replica ID")
      else validateCertifiedMessage n vcCertSize cm
  | Msg_ReqViewChange r =>
      if n <=? rvc_ReplicaID r then Error (Errorf "unexpected replica ID")
      else validateReqViewChange r
  | Msg_Reply _ => Panic "Unknown message type"
  end.
End Validators.

(** ** Certificates: what is accepted *)

(** A view-change certificate: enough ReqViewChange messages for the view, from
    distinct replicas. *)
Definition vcCert_valid (certSize newView : N) (cert : ViewChangeCert) : Prop :=
  certSize ≤ N.of_nat (length cert) ∧
  Forall (λ rvc, rvc_NewView rvc = newView) cert ∧
  NoDup (rvc_ReplicaID <$> cert).

(** A new-view certificate: enough ViewChange messages for the view, from
    distinct replicas, the new primary among them. *)
Definition nvCert_valid (certSize newPrimary newView : N) (cert : NewViewCert) : Prop :=
  certSize ≤ N.of_nat (length cert) ∧
  Forall (λ vc, vc_NewView vc = newView) cert ∧
  NoDup (vc_ReplicaID <$> cert) ∧
  newPrimary ∈ vc_ReplicaID <$> cert.

Lemma checkVCCert_OK newView q cert :
  checkVCCert newView q cert = OK tt ↔
  Forall (λ rvc, rvc_NewView rvc = newView) cert ∧ NoDup (rvc_ReplicaID <$> cert) ∧
  (∀ r, r ∈ rvc_ReplicaID <$> cert → r ∉ q).
Proof.
  revert q; induction cert as [|rvc cert IH]; intros q; simpl.
  { split; [|done]. intros _. split; [constructor|]. split; [constructor|]. set_solver. }
  rewrite Forall_cons, NoDup_cons.
  destruct (N.eqb_spec (rvc_NewView rvc) newView) as [Hv|Hv]; simpl; [|naive_solver].
  case_bool_decide as Hq; [set_solver|]. rewrite IH. set_solver.
Qed.

Lemma checkNVCert_OK newView q cert q' :
  checkNVCert newView q cert = OK q' ↔
  Forall (λ vc, vc_NewView vc = newView) cert ∧ NoDup (vc_ReplicaID <$> cert) ∧
  (∀ r, r ∈ vc_ReplicaID <$> cert → r ∉ q) ∧
  q' = list_to_set (vc_ReplicaID <$> cert) ∪ q.
Proof.
  revert q; induction cert as [|vc cert IH]; intros q; simpl.
  { split; [intros [= <-]|].
    - split; [constructor|]. split; [constructor|]. split; [set_solver|]. by rewrite union_empty_l_L.
    - intros (_ & _ & _ & ->). by rewrite union_empty_l_L. }
  rewrite Forall_cons, NoDup_cons.
  destruct (N.eqb_spec (vc_NewView vc) newView) as [Hv|Hv]; simpl; [|naive_solver].
  case_bool_decide as Hq; [set_solver|]. rewrite IH.
  rewrite (assoc_L union), (comm_L union (list_to_set _) {[_]}). set_solver.
Qed.

Lemma validateVCCert_OK certSize newView cert :
  validateVCCert certSize newView cert = OK tt ↔ vcCert_valid certSize newView cert.
Proof.
  unfold validateVCCert, vcCert_valid.
  destruct (Nat.ltb_spec (length cert) (N.to_nat certSize)) as [Hlt|Hge].
  - split; [done|]. intros [? _]. lia.
  - rewrite checkVCCert_OK. split.
    + intros (? & ? & _). split_and!; [lia|done|done].
    + intros (_ & ? & ?). split_and!; [done|done|set_solver].
Qed.

Lemma validateNVCert_OK certSize newPrimary newView cert :
  validateNVCert certSize newPrimary newView cert = OK tt ↔
  nvCert_valid certSize newPrimary newView cert.
Proof.
  unfold validateNVCert, nvCert_valid.
  destruct (Nat.ltb_spec (length cert) (N.to_nat certSize)) as [Hlt|Hge].
  - split; [done|]. intros [? _]. lia.
  - rewrite outcome_bind_OK. split.
    + intros (q & (Hv & Hd & _ & ->)%checkNVCert_OK & Hp).
      case_bool_decide as Hin; [|done]. split_and!; [lia|done|done|]. set_solver.
    + intros (_ & Hv & Hd & Hp). eexists. split.
      * apply checkNVCert_OK. split_and!; [done|done|set_solver|done].
      * rewrite bool_decide_eq_true_2; [done|]. set_solver.
Qed.

(** ** Message logs: what is accepted *)

(** The view a ViewChange or NewView message leads to. *)
Definition opens_view (m : CertifiedMessage) : option N :=
  match m with
  | CM_ViewChange vc => Some (vc_NewView vc)
  | CM_NewView nv => Some (nv_NewView nv)
  | _ => None
  end.

(** A complete log of [replicaID] in [view], up to counter [nextCV]: all of its
    certified messages with consecutive counters ending just before [nextCV];
    the first one opens the view, or is the replica's very first message and
    the view is 0; no other message opens a view. *)
Definition log_valid (replicaID view : N) (log : MessageLog) (nextCV : N) : Prop :=
  (∀ i m, log !! i = Some m →
     cm_ReplicaID m = replicaID ∧ cm_Counter m + N.of_nat (length log - i) = nextCV ∧
     (i ≠ 0%nat → opens_view m = None)) ∧
  match head log with
  | None => view = 0 ∧ nextCV = 1
  | Some m => opens_view m = Some view ∨ (opens_view m = None ∧ view = 0 ∧ cm_Counter m = 1)
  end.

Definition counters_ok (log : MessageLog) : Prop :=
  Forall (λ m, 0 < cm_Counter m ∧ in_u64 (cm_Counter m)) log.

(** One message of the loop, in terms of [opens_view]. *)
Lemma checkLog_cons replicaID view m rest nextCV :
  0 < cm_Counter m → in_u64 (cm_Counter m) → in_u64 nextCV → 0 < nextCV →
  checkLog replicaID view (m :: rest) nextCV = OK tt ↔
  cm_ReplicaID m = replicaID ∧ cm_Counter m + 1 = nextCV ∧
  match opens_view m with
  | Some v => v = view ∧ rest = []
  | None => rest = [] → view = 0 ∧ cm_Counter m = 1
  end ∧ checkLog replicaID view rest (cm_Counter m) = OK tt.
Proof.
  intros H1 H2 H3 H4. cbn [checkLog].
  destruct (N.eqb_spec (cm_ReplicaID m) replicaID) as [Hr|Hr]; cbn [negb]; [|naive_solver].
  destruct (N.eqb_spec (u64_succ (cm_Counter m)) nextCV) as [Hn|Hn]; cbn [negb].
  2: { split; [done|]. intros (_ & Hc & _). exfalso. apply Hn.
       rewrite u64_succ_small; lia. }
  assert (cm_Counter m + 1 = nextCV) as Hnext by (revert Hn; unfold u64_succ, u64; lia).
  rewrite (u64_pred_small nextCV) by lia. replace (nextCV - 1) with (cm_Counter m) by lia.
  clear Hn. revert H1 H2 Hnext. generalize (cm_Counter m). intros cv H1 H2 Hnext.
  destruct m as [p|c|vc|nv]; cbn [opens_view];
    destruct rest as [|m' rest]; cbn [andb negb].
  1,3: repeat match goal with
    | |- context [?v <? ?w] => destruct (N.ltb_spec v w)
    | |- context [?v =? ?w] => destruct (N.eqb_spec v w) end; simpl; naive_solver lia.
  1,2: simpl; naive_solver.
  all: match goal with |- context [?v =? ?w] => destruct (N.eqb_spec v w) end; simpl; naive_solver.
Qed.

(** The loop accepts exactly the valid logs; [rlog] is the log reversed. *)
Lemma checkLog_OK replicaID view rlog nextCV :
  counters_ok rlog → 0 < nextCV → in_u64 nextCV → rlog ≠ [] →
  checkLog replicaID view rlog nextCV = OK tt ↔
  (∀ i m, rlog !! i = Some m →
     cm_ReplicaID m = replicaID ∧ cm_Counter m + N.of_nat (S i) = nextCV ∧
     (S i ≠ length rlog → opens_view m = None)) ∧
  (∀ m, last rlog = Some m →
     opens_view m = Some view ∨ (opens_view m = None ∧ view = 0 ∧ cm_Counter m = 1)).
Proof.
  intros Hok. revert nextCV. induction Hok as [|m rest [Hm1 Hm2] Hok IH]; intros nextCV Hn1 Hn2 _; [done|].
  rewrite checkLog_cons by done. destruct rest as [|m' rest].
  - cbn [checkLog]. split.
    + intros (Hr & Hc & Ho & _). split.
      * intros [|i] x Hx; simplify_eq/=. split_and!; [done|lia|done].
      * intros x [= <-]. destruct (opens_view m); naive_solver.
    + intros (Hall & Hlast). destruct (Hall 0%nat m eq_refl) as (Hr & Hc & _).
      split_and!; [done|lia| |done]. specialize (Hlast m eq_refl).
      destruct (opens_view m); naive_solver.
  - rewrite (IH (cm_Counter m)) by done. clear IH. split.
    + intros (Hr & Hc & Ho & Hall & Hlast). split.
      * intros [|i] x Hx; simplify_eq/=.
        { split_and!; [done|lia|]. intros _. by destruct (opens_view x) as [v|]; [destruct Ho|]. }
        destruct (Hall i x Hx) as (? & ? & Hno). split_and!; [done|lia|]. intros ?. apply Hno. lia.
      * intros x Hx. apply Hlast. done.
    + intros (Hall & Hlast). destruct (Hall 0%nat m eq_refl) as (Hr & Hc & Ho).
      split_and!; [done|lia| | |].
      * rewrite Ho by (simpl; lia). done.
      * intros i x Hx. destruct (Hall (S i) x Hx) as (? & ? & Hno). split_and!; [done|lia|].
        intros ?. apply Hno. simpl in *. lia.
      * intros x Hx. apply Hlast. done.
Qed.

Lemma validateMessageLog_OK replicaID view log nextCV :
  counters_ok log → 0 < nextCV → in_u64 nextCV →
  validateMessageLog replicaID view log nextCV = OK tt ↔ log_valid replicaID view log nextCV.
Proof.
  intros Hok H1 H2. destruct log as [|m0 log'] eqn:El.
  { unfold log_valid; simpl. destruct (N.ltb_spec 0 view), (N.eqb_spec nextCV 1); simpl;
      (split; [|]); try done; naive_solver lia. }
  rewrite <- El in *. assert (log ≠ []) as Hne by (by rewrite El).
  unfold validateMessageLog. rewrite El at 1.
  rewrite checkLog_OK; [|by apply Forall_reverse|done|done|].
  2: { intros H. apply (f_equal length) in H. rewrite length_reverse, El in H. done. }
  unfold log_valid. rewrite last_reverse.
  assert (head log = Some m0) as -> by (by rewrite El).
  split; intros [Hall Hhd]; (split; [|by try (intros ? [= <-]); eauto]).
  - intros i m Hi. pose proof (lookup_lt_Some _ _ _ Hi) as Hlt.
    destruct (Hall (length log - S i)%nat m) as (Hr & Hc & Hno).
    { rewrite reverse_lookup by lia. rewrite <- Hi. f_equal. lia. }
    rewrite length_reverse in Hno. split_and!; [done| |intros; apply Hno; lia].
    rewrite <- Hc. f_equal. lia.
  - intros i m Hi. pose proof (lookup_lt_Some _ _ _ Hi) as Hlt. rewrite length_reverse in *.
    rewrite reverse_lookup in Hi by done.
    destruct (Hall _ m Hi) as (Hr & Hc & Hno). split_and!; [done| |intros; apply Hno; lia].
    rewrite <- Hc. f_equal. lia.
Qed.

Lemma validateViewChange_OK certSize vc :
  counters_ok (vc_MessageLog vc) → 0 < vc_Counter vc → in_u64 (vc_Counter vc) →
  in_u64 (vc_NewView vc) →
  validateViewChange certSize vc = OK tt ↔
  1 ≤ vc_NewView vc ∧
  vcCert_valid certSize (vc_NewView vc) (vc_ViewChangeCert vc) ∧
  log_valid (vc_ReplicaID vc) (vc_NewView vc - 1) (vc_MessageLog vc) (vc_Counter vc).
Proof.
  intros Hok H1 H2 H3. unfold validateViewChange.
  destruct (N.ltb_spec (vc_NewView vc) 1) as [Hlt|Hge]; [split; [done|intros [? _]; lia]|].
  rewrite (u64_pred_small (vc_NewView vc)) by lia.
  rewrite outcome_bind_OK. setoid_rewrite wrapf_OK.
  rewrite <- validateVCCert_OK, <- validateMessageLog_OK by done.
  split; [intros ([] & ? & ?); done|intros (_ & ? & ?); by exists tt].
Qed.

(** C22: validation of a ViewChange accepts exactly the complete ones.  For a
    message whose own UI counter and those of its log are non-zero [uint64]
    values, the validator returns no error if and only if the new view is at
    least 1, the certificate has [viewChangeCertSize] ReqViewChange messages for
    that view from distinct replicas, and the log is the replica's own, complete
    and consecutive from the start of the previous view up to this message. *)
Theorem viewchange_validation_exact certSize vc :
  counters_ok (vc_MessageLog vc) → 0 < vc_Counter vc → in_u64 (vc_Counter vc) →
  in_u64 (vc_NewView vc) →
  validateViewChange certSize vc = OK tt ↔
  1 ≤ vc_NewView vc ∧
  vcCert_valid certSize (vc_NewView vc) (vc_ViewChangeCert vc) ∧
  log_valid (vc_ReplicaID vc) (vc_NewView vc - 1) (vc_MessageLog vc) (vc_Counter vc).
Proof. apply validateViewChange_OK. Qed.

Lemma viewchange_validation_exact_witness :
  let rvcs := [MkReqViewChange 0 1 []; MkReqViewChange 2 1 []] in
  let p := CM_Prepare (MkPrepare 0 0 (MkRequest 9 1 [] []) (MkUI 1 [])) in
  validateViewChange 2 (MkViewChange 0 1 [p] rvcs (MkUI 2 [])) = OK tt ∧
  log_valid 0 0 [p] 2.
Proof.
  split; [reflexivity|].
  refine (proj2 (proj2 (proj1 (viewchange_validation_exact 2
    (MkViewChange 0 1 [CM_Prepare (MkPrepare 0 0 (MkRequest 9 1 [] []) (MkUI 1 []))]
       [MkReqViewChange 0 1 []; MkReqViewChange 2 1 []] (MkUI 2 [])) _ _ _ _) _)));
    [repeat constructor|reflexivity..].
Defined.

Lemma validateNewView_OK n certSize nv :
  validateNewView n certSize nv = OK tt ↔
  1 ≤ nv_NewView nv ∧ nv_ReplicaID nv = nv_NewView nv mod n ∧
  nvCert_valid certSize (nv_ReplicaID nv) (nv_NewView nv) (nv_NewViewCert nv).
Proof.
  unfold validateNewView, isPrimary.
  destruct (N.ltb_spec (nv_NewView nv) 1) as [Hlt|Hge]; [split; [done|intros [? _]; lia]|].
  destruct (N.eqb_spec (nv_ReplicaID nv) (nv_NewView nv mod n)) as [Hp|Hp]; simpl; [|naive_solver].
  rewrite wrapf_OK, validateNVCert_OK. naive_solver.
Qed.

(** Validation of a NewView accepts exactly the messages of the new view's
    primary with a certificate of [viewChangeCertSize] ViewChange messages for
    that view from distinct replicas, the primary's own among them. *)
Theorem newview_validation_exact n certSize nv :
  validateNewView n certSize nv = OK tt ↔
  1 ≤ nv_NewView nv ∧ nv_ReplicaID nv = nv_NewView nv mod n ∧
  nvCert_valid certSize (nv_ReplicaID nv) (nv_NewView nv) (nv_NewViewCert nv).
Proof. apply validateNewView_OK. Qed.

(** A proposal the Commit handler has a case for. *)
Definition proposal_ok (m : CertifiedMessage) : bool :=
  match m with CM_Prepare _ | CM_NewView _ => true | _ => false end.

Lemma checkVCCert_no_panic newView q cert : isPanic (checkVCCert newView q cert) = false.
Proof. revert q; induction cert as [|r cert IH]; intros q; simpl; [done|]. by repeat case_if. Qed.

Lemma checkNVCert_no_panic newView q cert : isPanic (checkNVCert newView q cert) = false.
Proof. revert q; induction cert as [|r cert IH]; intros q; simpl; [done|]. by repeat case_if. Qed.

Lemma checkLog_no_panic r v rlog cv : isPanic (checkLog r v rlog cv) = false.
Proof.
  revert cv; induction rlog as [|m rest IH]; intros cv; [done|]. cbn [checkLog].
  do 2 (case_if; [done|]). apply isPanic_bind; [|done].
  destruct m; by repeat case_if.
Qed.

Lemma validateViewChange_no_panic certSize vc : isPanic (validateViewChange certSize vc) = false.
Proof.
  unfold validateViewChange, validateVCCert, validateMessageLog. case_if; [done|].
  destruct (if (length _ <? _)%nat then _ else _) as [[]| |] eqn:Ev; simpl; [|done|].
  - rewrite wrapf_isPanic. destruct (vc_MessageLog vc); [by case_if|apply checkLog_no_panic].
  - case_if; [done|]. pose proof (checkVCCert_no_panic (vc_NewView vc) ∅ (vc_ViewChangeCert vc)) as H.
    by rewrite Ev in H.
Qed.

Lemma validateNewView_no_panic n certSize nv : isPanic (validateNewView n certSize nv) = false.
Proof.
  unfold validateNewView, validateNVCert. do 2 (case_if; [done|]). rewrite wrapf_isPanic.
  case_if; [done|].
  pose proof (checkNVCert_no_panic (nv_NewView nv) ∅ (nv_NewViewCert nv)) as H.
  destruct (checkNVCert _ _ _); simpl in *; [by case_if|done|done].
Qed.

Lemma validateMessage_panic {Au} `{!Authenticator Au} n certSize m :
  (∀ role id b tag, isPanic (VerifyMessageAuthenTag (Au := Au) role id b tag) = false) →
  isPanic (validateMessage (Au := Au) n certSize m) = true ↔
  match m with
  | Msg_Hello r => r < n
  | Msg_Reply _ => True
  | Msg_Certified (CM_Commit c) =>
      comm_ReplicaID c < n ∧ verifyUI (Au := Au) (CM_Commit c) = OK tt ∧
      comm_ReplicaID c ≠ cm_ReplicaID (comm_Proposal c) ∧ proposal_ok (comm_Proposal c) = false
  | _ => False
  end.
Proof.
  intros Hau.
  assert (∀ cm, isPanic (wrapf "invalid UI" (verifyUI (Au := Au) cm)) = false) as Hui.
  { intros cm. rewrite wrapf_isPanic. unfold verifyUI. case_if; [done|]. simpl.
    by rewrite wrapf_isPanic. }
  destruct m as [r|r|r|r|cm]; cbn [validateMessage].
  - destruct (N.leb_spec n r); simpl; split; try done; lia.
  - split; [|done]. intros H. unfold validateRequest in H; simpl in H. unfold verifySignatureAs in H.
    simpl in H. by rewrite Hau in H.
  - done.
  - split; [|done]. unfold validateReqViewChange. do 2 (case_if; [done|]).
    rewrite wrapf_isPanic. unfold verifyMessageSignature, verifySignatureAs. simpl.
    by rewrite Hau.
  - specialize (Hui cm). destruct (N.leb_spec n (cm_ReplicaID cm)) as [Hle|Hlt]; simpl.
    { split; [done|]. destruct cm; try done. simpl in *. lia. }
    unfold validateCertifiedMessage. destruct (verifyUI cm) as [[]|e|p] eqn:Ev; simpl in *; [| |done].
    2: { split; [done|]. destruct cm; try done. intros (_ & H & _). congruence. }
    destruct cm as [p|c|vc|nv]; cbn [mbind outcome_bind].
    + unfold validatePrepare. by case_if.
    + unfold validateCommit, proposal_ok. simpl in Hlt.
      destruct (N.eqb_spec (comm_ReplicaID c) (cm_ReplicaID (comm_Proposal c))); simpl; [naive_solver|].
      destruct (comm_Proposal c); simpl; naive_solver.
    + by rewrite validateViewChange_no_panic.
    + by rewrite validateNewView_no_panic.
Qed.

(** C29: which peer messages make validation panic.  With an authenticator that
    answers (rather than panics), [validateMessage] panics exactly on a Hello
    from a replica of the system, on a Reply, and on a Commit from a replica of
    the system with a valid UI whose proposal is itself a Commit or a ViewChange
    from another replica.  All of them can come from a faulty peer. *)
Theorem validate_panic_exact {Au} `{!Authenticator Au} n certSize m :
  (∀ role id b tag, isPanic (VerifyMessageAuthenTag (Au := Au) role id b tag) = false) →
  isPanic (validateMessage (Au := Au) n certSize m) = true ↔
  match m with
  | Msg_Hello r => r < n
  | Msg_Reply _ => True
  | Msg_Certified (CM_Commit c) =>
      comm_ReplicaID c < n ∧ verifyUI (Au := Au) (CM_Commit c) = OK tt ∧
      comm_ReplicaID c ≠ cm_ReplicaID (comm_Proposal c) ∧ proposal_ok (comm_Proposal c) = false
  | _ => False
  end.
Proof. apply validateMessage_panic. Qed.

Lemma validate_panic_exact_witness :
  let prep := CM_Prepare (MkPrepare 2 2 (MkRequest 9 1 [] []) (MkUI 1 [])) in
  let inner := CM_Commit (MkCommit 0 prep (MkUI 1 [])) in
  let m := Msg_Certified (CM_Commit (MkCommit 1 inner (MkUI 1 []))) in
  isPanic (@validateMessage N plainAuthen 3 2 m) = true.
Proof.
  apply (@validate_panic_exact N plainAuthen); [done|]. simpl. split_and!; [lia| |lia|done].
  vm_compute. reflexivity.
Defined.

End Validation.
