(* ===== verification/NewViewCert.v ===== *)
(** [extractPreparedRequests] ([src/core/new-view.go]): the sequence of requests
    that appear prepared in a new-view certificate.

    The code recurses into the certificates nested in the messages; the
    definition takes the nesting depth as fuel, and [extract_terminates] shows
    that this is enough: running out of fuel is not among the results. *)

From S2P Require Import Prelude Messages Validation.

Module NewViewCertM.

(** The first loop of [extractPreparedRequests]: the leading ViewChange messages
    of the logs, and the longest log without them (the first of the longest). *)
Definition scanStep (acc : list ViewChange * MessageLog) (vc : ViewChange) :
    list ViewChange * MessageLog :=
  let '(vcs, maxLog) := acc in
  match vc_MessageLog vc with
  | [] => acc
  | l0 :: rest =>
      let '(vcs, l) := match l0 with
                       | CM_ViewChange vc' => (vcs ++ [vc'], rest)
                       | _ => (vcs, l0 :: rest)
                       end in
      if (length maxLog <? length l)%nat then (vcs, l) else (vcs, maxLog)
  end.

Definition scanCert (nvCert : NewViewCert) : list ViewChange * MessageLog :=
  foldl scanStep ([], []) nvCert.

(** [if comm, ok := m.(messages.Commit); ok { m = comm.Proposal() }] *)
Definition proposalOf (m : CertifiedMessage) : CertifiedMessage :=
  match m with CM_Commit c => comm_Proposal c | _ => m end.

(** The body of the second loop, for one message of the longest log: a prepared
    request is appended, a NewView starts the sequence over; [rec] is the
    recursive call. *)
Definition replayStep (rec : NewViewCert → outcome (list Request))
    (prepared : outcome (list Request)) (m : CertifiedMessage) : outcome (list Request) :=
  prepared ← prepared;
  match proposalOf m with
  | CM_Prepare p => OK (prepared ++ [prep_Request p])
  | CM_NewView nv => rec (nv_NewViewCert nv)
  | _ => Panic "Unexpected message type"
  end.

(** [func extractPreparedRequests(nvCert messages.NewViewCert)] *)
Fixpoint extract (fuel : nat) (nvCert : NewViewCert) : outcome (list Request) :=
  match fuel with
  | O => Panic "fuel"
  | S fuel =>
      let '(vcs, maxLog) := scanCert nvCert in
      match maxLog, vcs with
      | [], _ :: _ => extract fuel vcs
      | _, _ => foldl (replayStep (extract fuel)) (OK []) maxLog
      end
  end.

Definition cert_depth (nvCert : NewViewCert) : nat := list_max (map vc_depth nvCert).

Definition extractPreparedRequests (nvCert : NewViewCert) : outcome (list Request) :=
  extract (S (cert_depth nvCert)) nvCert.

(** ** The recursion goes down the nesting *)

Lemma cert_depth_le nvCert vc : vc ∈ nvCert → (vc_depth vc ≤ cert_depth nvCert)%nat.
Proof. apply list_max_map_le. Qed.

Lemma log_depth nvCert vc m :
  vc ∈ nvCert → m ∈ vc_MessageLog vc → (cm_depth m < cert_depth nvCert)%nat.
Proof.
  intros Hvc%cert_depth_le Hm. destruct vc as [r v log cert ui]. simpl in *.
  apply (list_max_map_le cm_depth) in Hm. lia.
Qed.

(** What [scanCert] returns comes from the logs of the certificate. *)
Definition scan_from (nvCert : NewViewCert) (acc : list ViewChange * MessageLog) : Prop :=
  (∀ vc', vc' ∈ acc.1 → ∃ vc, vc ∈ nvCert ∧ head (vc_MessageLog vc) = Some (CM_ViewChange vc')) ∧
  (acc.2 = [] ∨ ∃ vc, vc ∈ nvCert ∧
     ((acc.2 = vc_MessageLog vc ∧ ∀ vc', head acc.2 ≠ Some (CM_ViewChange vc')) ∨
      ∃ vc', vc_MessageLog vc = CM_ViewChange vc' :: acc.2)).

Lemma scanStep_from nvCert acc vc :
  scan_from nvCert acc → vc ∈ nvCert → scan_from nvCert (scanStep acc vc).
Proof.
  destruct acc as [vcs maxLog]. intros [Hv Hl] Hin. unfold scanStep.
  destruct (vc_MessageLog vc) as [|l0 rest] eqn:El; [done|].
  destruct l0 as [p|c|vc'|nv].
  3: { assert (∀ x, x ∈ vcs ++ [vc'] → ∃ vc, vc ∈ nvCert ∧ head (vc_MessageLog vc) = Some (CM_ViewChange x)).
       { intros x [Hx|Hx%list_elem_of_singleton]%elem_of_app; [by apply Hv|].
         subst. exists vc. by rewrite El. }
       case_if; split; simpl; auto. right. exists vc. rewrite El. split; [done|]. right. by exists vc'. }
  all: case_if; split; simpl; auto; right; exists vc; rewrite El; split; [done|]; left; (split; [done|by intros ?]).
Qed.

Lemma scanCert_from nvCert : scan_from nvCert (scanCert nvCert).
Proof.
  unfold scanCert.
  assert (∀ l acc, (∀ vc, vc ∈ l → vc ∈ nvCert) → scan_from nvCert acc →
            scan_from nvCert (foldl scanStep acc l)) as H.
  { induction l as [|vc l IH]; intros acc Hl Hacc; simpl; [done|].
    apply IH; [set_solver|]. apply scanStep_from; [done|set_solver]. }
  apply H; [done|]. split; simpl; [set_solver|by left].
Qed.

Lemma scan_vcs_depth nvCert vc' :
  vc' ∈ (scanCert nvCert).1 → (vc_depth vc' < cert_depth nvCert)%nat.
Proof.
  intros Hin. destruct (scanCert_from nvCert) as [Hv _]. destruct (Hv _ Hin) as (vc & Hvc & Hh).
  apply (log_depth nvCert vc (CM_ViewChange vc')); [done|].
  destruct (vc_MessageLog vc); simplify_eq/=. set_solver.
Qed.

Lemma scan_log_mem nvCert m :
  m ∈ (scanCert nvCert).2 → ∃ vc, vc ∈ nvCert ∧ m ∈ vc_MessageLog vc.
Proof.
  intros Hin. destruct (scanCert_from nvCert) as [_ [E|(vc & Hvc & [[E _]|(vc' & E)])]].
  - rewrite E in Hin. set_solver.
  - exists vc. by rewrite <- E.
  - exists vc. rewrite E. set_solver.
Qed.

Lemma proposalOf_depth m : (cm_depth (proposalOf m) ≤ cm_depth m)%nat.
Proof. destruct m as [|[]|[]|[]]; simpl; lia. Qed.

Lemma scan_nv_depth nvCert m nv :
  m ∈ (scanCert nvCert).2 → proposalOf m = CM_NewView nv →
  (cert_depth (nv_NewViewCert nv) < cert_depth nvCert)%nat.
Proof.
  intros (vc & Hvc & Hm)%scan_log_mem Hp. pose proof (log_depth _ _ _ Hvc Hm).
  pose proof (proposalOf_depth m) as Hd. rewrite Hp in Hd. destruct nv. simpl in *.
  unfold cert_depth at 1. lia.
Qed.

Lemma cert_depth_lt l n : (∀ vc, vc ∈ l → (vc_depth vc < n)%nat) → (0 < n)%nat → (cert_depth l < n)%nat.
Proof.
  unfold cert_depth. induction l as [|vc l IH]; intros Hl Hn; simpl; [done|].
  assert (vc_depth vc < n)%nat by (apply Hl; set_solver).
  assert (list_max (map vc_depth l) < n)%nat by (apply IH; [set_solver|done]). lia.
Qed.

Lemma scan_vcs_cert_depth nvCert vc vcs :
  (scanCert nvCert).1 = vc :: vcs → (cert_depth (vc :: vcs) < cert_depth nvCert)%nat.
Proof.
  intros E. apply cert_depth_lt.
  - intros vc' Hin. apply scan_vcs_depth. by rewrite E.
  - pose proof (scan_vcs_depth nvCert vc). rewrite E in *. assert (vc ∈ vc :: vcs) by set_solver. lia.
Qed.

Lemma replay_ext rec1 rec2 l acc :
  (∀ m nv, m ∈ l → proposalOf m = CM_NewView nv →
     rec1 (nv_NewViewCert nv) = rec2 (nv_NewViewCert nv)) →
  foldl (replayStep rec1) acc l = foldl (replayStep rec2) acc l.
Proof.
  revert acc. induction l as [|m l IH]; intros acc Hrec; [done|]. cbn [foldl].
  rewrite IH by (intros m' nv Hm'; apply Hrec; set_solver). f_equal.
  destruct acc as [prepared|e|p]; [|done..]. cbn.
  destruct (proposalOf m) as [| | |nv] eqn:E; try done.
  apply (Hrec m nv); [set_solver|done].
Qed.

Lemma extract_fuel_irrelevant n c f1 f2 :
  (cert_depth c < n)%nat → (cert_depth c < f1)%nat → (cert_depth c < f2)%nat →
  extract f1 c = extract f2 c.
Proof.
  revert c f1 f2. induction n as [|n IH]; intros c f1 f2 Hn H1 H2; [lia|].
  destruct f1 as [|f1], f2 as [|f2]; try lia. simpl.
  pose proof (scan_vcs_cert_depth c) as Hv. pose proof (scan_nv_depth c) as Hl.
  destruct (scanCert c) as [vcs maxLog]. simpl in *.
  assert (foldl (replayStep (extract f1)) (OK []) maxLog =
          foldl (replayStep (extract f2)) (OK []) maxLog) as Hfold.
  { apply replay_ext. intros m nv Hm E. specialize (Hl m nv Hm E). apply IH; lia. }
  destruct maxLog as [|m maxLog]; [|done].
  destruct vcs as [|vc vcs]; [done|]. specialize (Hv _ _ eq_refl). apply IH; lia.
Qed.

(** The function satisfies the recursion of the code. *)
Lemma extract_unfold nvCert :
  extractPreparedRequests nvCert =
  let '(vcs, maxLog) := scanCert nvCert in
  match maxLog, vcs with
  | [], _ :: _ => extractPreparedRequests vcs
  | _, _ => foldl (replayStep extractPreparedRequests) (OK []) maxLog
  end.
Proof.
  unfold extractPreparedRequests at 1. cbn [extract].
  pose proof (scan_vcs_cert_depth nvCert) as Hv. pose proof (scan_nv_depth nvCert) as Hl.
  destruct (scanCert nvCert) as [vcs maxLog]. simpl in *.
  assert (foldl (replayStep (extract (cert_depth nvCert))) (OK []) maxLog =
          foldl (replayStep extractPreparedRequests) (OK []) maxLog) as Hfold.
  { apply replay_ext. intros m nv Hm E. specialize (Hl m nv Hm E).
    eapply (extract_fuel_irrelevant (S (cert_depth (nv_NewViewCert nv)))); lia. }
  destruct maxLog as [|m maxLog]; [|done]. destruct vcs as [|vc vcs]; [done|].
  specialize (Hv _ _ eq_refl).
  eapply (extract_fuel_irrelevant (S (cert_depth (vc :: vcs)))); lia.
Qed.

(** Induction along that recursion. *)
Lemma extract_ind (P : NewViewCert → outcome (list Request) → Prop) :
  (∀ c vc vcs, scanCert c = (vc :: vcs, []) → P (vc :: vcs) (extractPreparedRequests (vc :: vcs)) →
     P c (extractPreparedRequests (vc :: vcs))) →
  (∀ c, (∀ m nv, m ∈ (scanCert c).2 → proposalOf m = CM_NewView nv →
           P (nv_NewViewCert nv) (extractPreparedRequests (nv_NewViewCert nv))) →
     ((scanCert c).2 = [] → (scanCert c).1 = []) →
     P c (foldl (replayStep extractPreparedRequests) (OK []) (scanCert c).2)) →
  ∀ c, P c (extractPreparedRequests c).
Proof.
  intros Hdown Hloop c. remember (cert_depth c) as n eqn:En.
  revert c En. induction (lt_wf n) as [n _ IH]; intros c ->.
  pose proof (scan_vcs_cert_depth c) as Hv. pose proof (scan_nv_depth c) as Hl.
  pose proof (Hdown c) as Hd. pose proof (Hloop c) as Hp.
  rewrite extract_unfold. destruct (scanCert c) as [vcs maxLog]. simpl in *.
  destruct maxLog as [|m maxLog]; [destruct vcs as [|vc vcs]|].
  - apply Hp; [set_solver|done].
  - specialize (Hv _ _ eq_refl). apply Hd; [done|]. by eapply IH.
  - apply Hp; [|done]. intros m' nv Hm' E. specialize (Hl m' nv Hm' E). by eapply IH.
Qed.

(** ** Termination

    The recursion of the code as rules: a finite derivation of [extracts c o] is a run of
    [extractPreparedRequests] on [c] that ends with [o], one of [replays l prepared o] a
    run of its second loop on the rest [l] of the longest log. *)

Inductive extracts : NewViewCert → outcome (list Request) → Prop :=
| extracts_descend c vc vcs o :
    scanCert c = (vc :: vcs, []) → extracts (vc :: vcs) o → extracts c o
| extracts_replay c vcs maxLog o :
    scanCert c = (vcs, maxLog) → (maxLog = [] → vcs = []) → replays maxLog [] o → extracts c o
with replays : MessageLog → list Request → outcome (list Request) → Prop :=
| replays_done prepared : replays [] prepared (OK prepared)
| replays_prepare m p l prepared o :
    proposalOf m = CM_Prepare p → replays l (prepared ++ [prep_Request p]) o →
    replays (m :: l) prepared o
| replays_newview m nv l prepared rs o :
    proposalOf m = CM_NewView nv → extracts (nv_NewViewCert nv) (OK rs) → replays l rs o →
    replays (m :: l) prepared o
| replays_newview_panic m nv l prepared s :
    proposalOf m = CM_NewView nv → extracts (nv_NewViewCert nv) (Panic s) →
    replays (m :: l) prepared (Panic s)
| replays_unexpected m l prepared :
    (∀ p, proposalOf m ≠ CM_Prepare p) → (∀ nv, proposalOf m ≠ CM_NewView nv) →
    replays (m :: l) prepared (Panic "Unexpected message type").

Scheme extracts_mut := Minimality for extracts Sort Prop
with replays_mut := Minimality for replays Sort Prop.

Lemma replay_cons rec prepared m l :
  foldl (replayStep rec) (OK prepared) (m :: l) =
  foldl (replayStep rec)
    (match proposalOf m with
     | CM_Prepare p => OK (prepared ++ [prep_Request p])
     | CM_NewView nv => rec (nv_NewViewCert nv)
     | _ => Panic "Unexpected message type"
     end) l.
Proof. done. Qed.

Lemma replayStep_panic rec s l : foldl (replayStep rec) (Panic s) l = Panic s.
Proof. induction l as [|m l IH]; [done|exact IH]. Qed.

(** A derivation gives what the function computes, which is never out of fuel. *)
Definition ends (o : outcome (list Request)) : Prop :=
  match o with OK _ => True | Error _ => False | Panic s => s = "Unexpected message type"%string end.

Lemma extracts_sound c o : extracts c o → o = extractPreparedRequests c ∧ ends o.
Proof.
  apply (extracts_mut (λ c o, o = extractPreparedRequests c ∧ ends o)
    (λ l prepared o, o = foldl (replayStep extractPreparedRequests) (OK prepared) l ∧ ends o)); clear c o.
  - intros c vc vcs o E _ [-> He]. by rewrite (extract_unfold c), E.
  - intros c vcs maxLog o E Hnil _ [-> He]. rewrite (extract_unfold c), E.
    by destruct maxLog; [rewrite Hnil|].
  - done.
  - intros m p l prepared o E _ [-> He]. rewrite replay_cons. by rewrite E.
  - intros m nv l prepared rs o E _ [Hrs _] _ [-> He]. rewrite replay_cons. by rewrite E, <- Hrs.
  - intros m nv l prepared s E _ [Hs He]. rewrite replay_cons.
    by rewrite E, <- Hs, replayStep_panic.
  - intros m l prepared Hp Hn. rewrite replay_cons.
    destruct (proposalOf m) as [p| | |nv]; [by destruct (Hp p)|..|by destruct (Hn nv)]; by rewrite replayStep_panic.
Qed.

Lemma replays_total l prepared :
  (∀ m nv, m ∈ l → proposalOf m = CM_NewView nv →
     extracts (nv_NewViewCert nv) (extractPreparedRequests (nv_NewViewCert nv))) →
  replays l prepared (foldl (replayStep extractPreparedRequests) (OK prepared) l).
Proof.
  revert prepared. induction l as [|m l IH]; intros prepared Hrec; [constructor|].
  rewrite replay_cons.
  assert (∀ prepared', replays l prepared' (foldl (replayStep extractPreparedRequests) (OK prepared') l)) as IH'
    by (intros; apply IH; set_solver).
  destruct (proposalOf m) as [p|c|vc|nv] eqn:E; rewrite ?replayStep_panic.
  - by eapply replays_prepare.
  - apply replays_unexpected; intros; by rewrite E.
  - apply replays_unexpected; intros; by rewrite E.
  - pose proof (Hrec m nv ltac:(set_solver) E) as Hnv. pose proof (extracts_sound _ _ Hnv) as [_ He].
    destruct (extractPreparedRequests (nv_NewViewCert nv)) as [rs|e|s] eqn:Ex; [|done|].
    + by eapply replays_newview.
    + rewrite replayStep_panic. by eapply replays_newview_panic.
Qed.

Lemma extracts_total c : extracts c (extractPreparedRequests c).
Proof.
  apply (extract_ind extracts); clear c.
  - intros c vc vcs E H. by eapply extracts_descend.
  - intros c Hrec Hnil. destruct (scanCert c) as [vcs maxLog] eqn:E. simpl in *.
    eapply extracts_replay; [done..|]. by apply replays_total.
Qed.

(** C25: [extractPreparedRequests] terminates on every certificate, nested to any depth:
    the recursion of the code has a run on it that ends, with one result, the one the
    function computes; that is a sequence of requests or the code's own panic about an
    unexpected message type.  The nesting depth of the certificate is enough fuel: any
    fuel beyond it gives this result, so running out of fuel is none of the results. *)
Theorem extract_terminates nvCert fuel :
  (cert_depth nvCert < fuel)%nat →
  (∀ o, extracts nvCert o ↔ o = extract fuel nvCert) ∧
  extract fuel nvCert = extractPreparedRequests nvCert ∧
  ((∃ rs, extract fuel nvCert = OK rs) ∨ extract fuel nvCert = Panic "Unexpected message type").
Proof.
  intros Hf. assert (extract fuel nvCert = extractPreparedRequests nvCert) as ->
    by (apply (extract_fuel_irrelevant (S (cert_depth nvCert))); lia).
  pose proof (extracts_total nvCert) as Ht. split_and!; [|done|].
  - intros o. split; [by intros [-> _]%extracts_sound|by intros ->].
  - apply extracts_sound in Ht as [_ He]. destruct (extractPreparedRequests nvCert); naive_solver.
Qed.

(** A ViewChange whose log starts with one of the view before and has nothing else: the
    descent goes one level down, where a request was prepared. *)
Lemma extract_terminates_witness :
  let req := MkRequest 7 1 [] [] in
  let vc1 := MkViewChange 0 1 [CM_Prepare (MkPrepare 0 0 req (MkUI 1 []))] [] (MkUI 2 []) in
  let c := [MkViewChange 0 2 [CM_ViewChange vc1] [] (MkUI 3 [])] in
  extract 9 c = OK [req] ∧ ∀ o, extracts c o ↔ o = OK [req].
Proof.
  intros req vc1 c. split; [reflexivity|].
  refine (proj1 (extract_terminates c 9 _)). vm_compute. lia.
Defined.

(** ** Requests embedded in a message *)

Fixpoint cm_requests (m : CertifiedMessage) : list Request :=
  match m with
  | CM_Prepare p => [prep_Request p]
  | CM_Commit (MkCommit _ prop _) => cm_requests prop
  | CM_ViewChange vc => vc_requests vc
  | CM_NewView (MkNewView _ _ cert _) => concat (map vc_requests cert)
  end
with vc_requests (vc : ViewChange) : list Request :=
  match vc with MkViewChange _ _ log _ _ => concat (map cm_requests log) end.

Definition cert_requests (c : NewViewCert) : list Request := concat (map vc_requests c).

Lemma elem_of_concat_map {A} (f : A → list Request) (l : list A) r :
  r ∈ concat (map f l) ↔ ∃ x, x ∈ l ∧ r ∈ f x.
Proof.
  induction l as [|x l IH]; simpl; [set_solver|].
  rewrite elem_of_app, IH. set_solver.
Qed.

Lemma vc_requests_log vc m r : m ∈ vc_MessageLog vc → r ∈ cm_requests m → r ∈ vc_requests vc.
Proof. destruct vc. simpl. rewrite elem_of_concat_map. eauto. Qed.

Lemma cert_requests_log c vc m r :
  vc ∈ c → m ∈ vc_MessageLog vc → r ∈ cm_requests m → r ∈ cert_requests c.
Proof. intros. apply elem_of_concat_map. eauto using vc_requests_log. Qed.

Lemma proposalOf_requests m r : r ∈ cm_requests (proposalOf m) → r ∈ cm_requests m.
Proof. by destruct m as [|[]| |]. Qed.

(** The requests collected by the loop over a log [l]. *)
Lemma replay_requests rec l acc prepared (Q : Request → Prop) :
  (∀ m p, m ∈ l → proposalOf m = CM_Prepare p → Q (prep_Request p)) →
  (∀ m nv rs, m ∈ l → proposalOf m = CM_NewView nv →
     rec (nv_NewViewCert nv) = OK rs → Forall Q rs) →
  (∀ rs, acc = OK rs → Forall Q rs) →
  foldl (replayStep rec) acc l = OK prepared → Forall Q prepared.
Proof.
  revert acc. induction l as [|m l IH]; intros acc Hp Hn Hacc; [by apply Hacc|]. cbn [foldl].
  apply IH.
  - intros m' p Hm'. apply Hp. set_solver.
  - intros m' nv rs Hm'. apply Hn. set_solver.
  - intros rs. unfold replayStep. intros (rs0 & -> & E)%outcome_bind_OK.
    destruct (proposalOf m) as [p| | |nv] eqn:Em; simplify_eq.
    + apply Forall_app. split; [by apply Hacc|]. constructor; [|done].
      apply (Hp m); [set_solver|done].
    + apply (Hn m nv); [set_solver|done..].
Qed.

Lemma extract_requests c rs :
  extractPreparedRequests c = OK rs → Forall (λ r, r ∈ cert_requests c) rs.
Proof.
  revert rs. apply (extract_ind (λ c o, ∀ rs, o = OK rs → Forall (λ r, r ∈ cert_requests c) rs)).
  - clear c. intros c vc vcs E IH rs Hrs. eapply Forall_impl; [by apply IH|].
    intros r (vc' & Hvc' & Hr)%elem_of_concat_map.
    destruct (scanCert_from c) as [Hv _]. rewrite E in Hv. destruct (Hv _ Hvc') as (vc0 & Hin & Hh).
    apply (cert_requests_log c vc0 (CM_ViewChange vc')); [done| |done].
    destruct (vc_MessageLog vc0); simplify_eq/=. set_solver.
  - clear c. intros c IH _ rs Hrs. eapply replay_requests; [| | |exact Hrs].
    + intros m p Hm Ep. destruct (scan_log_mem _ _ Hm) as (vc & Hvc & Hlog).
      apply (cert_requests_log c vc m); [done..|]. apply proposalOf_requests. rewrite Ep. set_solver.
    + intros m nv rs' Hm Ep E. eapply Forall_impl; [by eapply IH|]. intros r Hr.
      destruct (scan_log_mem _ _ Hm) as (vc & Hvc & Hlog).
      apply (cert_requests_log c vc m); [done..|]. apply proposalOf_requests. rewrite Ep.
      destruct nv. exact Hr.
    + intros rs' [= <-]. constructor.
Qed.

(** ** Shape of validated messages *)

Definition not_vc (m : CertifiedMessage) : bool :=
  match m with CM_ViewChange _ => false | _ => true end.

(** At every level: a Commit's proposal is a Prepare or a NewView, and a
    ViewChange occurs in a log only at its head. *)
Fixpoint cm_shape (m : CertifiedMessage) : bool :=
  match m with
  | CM_Prepare _ => true
  | CM_Commit (MkCommit _ prop _) => Validation.proposal_ok prop && cm_shape prop
  | CM_ViewChange vc => vc_shape vc
  | CM_NewView (MkNewView _ _ cert _) => forallb vc_shape cert
  end
with vc_shape (vc : ViewChange) : bool :=
  match vc with
  | MkViewChange _ _ log _ _ => forallb cm_shape log && forallb not_vc (tail log)
  end.

Lemma vc_shape_log vc m : vc_shape vc → m ∈ vc_MessageLog vc → cm_shape m.
Proof. destruct vc. simpl. intros [H _]%andb_prop_elim. by apply forallb_elem_of. Qed.

Lemma scan_vcs_shape c vc' : forallb vc_shape c → vc' ∈ (scanCert c).1 → vc_shape vc'.
Proof.
  intros Hc Hin. destruct (scanCert_from c) as [Hv _]. destruct (Hv _ Hin) as (vc & Hvc & Hh).
  change (Is_true (cm_shape (CM_ViewChange vc'))). eapply vc_shape_log; [by eapply forallb_elem_of|].
  destruct (vc_MessageLog vc); simplify_eq/=. set_solver.
Qed.

Lemma vc_shape_tail vc m : vc_shape vc → m ∈ tail (vc_MessageLog vc) → not_vc m.
Proof. destruct vc. simpl. intros [_ H]%andb_prop_elim. by apply forallb_elem_of. Qed.

Lemma scan_log_not_vc c m : forallb vc_shape c → m ∈ (scanCert c).2 → not_vc m.
Proof.
  intros Hc Hm. destruct (scanCert_from c) as [_ [E|(vc & Hvc & [[E Hh]|(vc' & E)])]].
  - rewrite E in Hm. set_solver.
  - pose proof (vc_shape_tail vc m (forallb_elem_of _ _ _ Hc Hvc)) as Ht. rewrite <- E in Ht.
    destruct (scanCert c).2 as [|m0 l]; [set_solver|]. apply elem_of_cons in Hm as [->|Hm]; [|by apply Ht].
    destruct m0 as [| |vc'|]; try done. by destruct (Hh vc').
  - apply (vc_shape_tail vc); [by eapply forallb_elem_of|]. by rewrite E.
Qed.

(** Every message of the longest log stands for a Prepare or a NewView. *)
Lemma scan_log_shape c m :
  forallb vc_shape c → m ∈ (scanCert c).2 →
  (∃ p, proposalOf m = CM_Prepare p) ∨
  ∃ nv, proposalOf m = CM_NewView nv ∧ forallb vc_shape (nv_NewViewCert nv).
Proof.
  intros Hc Hm. pose proof (scan_log_not_vc _ _ Hc Hm) as Hn.
  assert (cm_shape m) as Hs.
  { destruct (scan_log_mem _ _ Hm) as (vc & Hvc & Hl).
    eapply vc_shape_log; [by eapply forallb_elem_of|done]. }
  destruct m as [p|[r prop ui]|vc|[r v cert ui]]; [by eauto| |done|].
  - simpl in *. apply andb_prop_elim in Hs as [Hp Hs].
    destruct prop as [p|c'|vc|[r' v cert ui']]; try done; [by eauto|]. right. by eexists.
  - right. by eexists.
Qed.

Lemma replay_total rec l prepared :
  (∀ m, m ∈ l → (∃ p, proposalOf m = CM_Prepare p) ∨
     ∃ nv, proposalOf m = CM_NewView nv ∧ isOK (rec (nv_NewViewCert nv))) →
  isOK (foldl (replayStep rec) (OK prepared) l).
Proof.
  revert prepared. induction l as [|m l IH]; intros prepared Hl; [done|]. cbn [foldl].
  assert (∃ prepared', replayStep rec (OK prepared) m = OK prepared') as [prepared' ->].
  { unfold replayStep. simpl. destruct (Hl m) as [[p ->]|(nv & -> & Hr)]; [set_solver|by eauto|].
    destruct (rec (nv_NewViewCert nv)) as [rs| |]; try done. by eauto. }
  apply IH. intros m' Hm'. apply Hl. set_solver.
Qed.

Lemma extract_total c : forallb vc_shape c → isOK (extractPreparedRequests c).
Proof.
  apply (extract_ind (λ c o, forallb vc_shape c → isOK o)).
  - clear c. intros c vc vcs E IH Hc. apply IH. apply Is_true_true, forallb_forall.
    intros vc' Hin%list_elem_of_In. apply Is_true_true, (scan_vcs_shape c); [done|]. by rewrite E.
  - clear c. intros c IH _ Hc. apply replay_total. intros m Hm.
    destruct (scan_log_shape _ _ Hc Hm) as [?|(nv & Hnv & Hs)]; [by left|].
    right. exists nv. split; [done|]. by eapply IH.
Qed.

(** C24: on a certificate of the shape validation enforces (a Commit commits to a
    Prepare or a NewView; a ViewChange occurs in a log only at its head), at
    every level of nesting, [extractPreparedRequests] returns a sequence without
    reaching its [panic("Unexpected message type")], and every request of the
    sequence is embedded in the certificate: the new primary invents none. *)
Theorem extract_sound nvCert :
  forallb vc_shape nvCert →
  ∃ rs, extractPreparedRequests nvCert = OK rs ∧ Forall (λ r, r ∈ cert_requests nvCert) rs.
Proof.
  intros Hc%extract_total. destruct (extractPreparedRequests nvCert) as [rs| |] eqn:E; try done.
  exists rs. split; [done|]. by apply extract_requests.
Qed.

Definition example_request : Request := MkRequest 7 1 [] [].
Definition example_prepare : Prepare := MkPrepare 0 0 example_request (MkUI 1 []).
Definition example_cert : NewViewCert :=
  [MkViewChange 0 1 [] [] (MkUI 1 []);
   MkViewChange 1 1 [CM_Commit (MkCommit 1 (CM_Prepare example_prepare) (MkUI 1 []))] [] (MkUI 2 [])].

Lemma extract_sound_witness :
  forallb vc_shape example_cert = true ∧
  extractPreparedRequests example_cert = OK [example_request] ∧
  ∃ rs, extractPreparedRequests example_cert = OK rs ∧ Forall (λ r, r ∈ cert_requests example_cert) rs.
Proof. split_and!; [reflexivity..|]. apply extract_sound. exact I. Defined.

End NewViewCertM.
