(* ===== verification/ViewSafety.v ===== *)
(** What a view change keeps ([extractPreparedRequests], [src/core/new-view.go],
    over logs accepted by [validateMessageLog], [src/core/view-change.go]).

    A proposal that may have been executed was committed to by [commitCertSize]
    replicas; the ViewChange of one of them is in every new-view certificate, and a
    complete log cannot leave the Commit out.  [new_view_keeps_committed] carries
    this to the sequence of requests the new view starts with, for certificates
    whose logs are [sequential]: the messages commit to the proposals of the view's
    primary one by one, in the order of its counters.  The logs of correct replicas
    are ([LogOrder]); the code does not check it of others, which
    [System.agreement_violated] exploits. *)

From S2P Require Import Prelude Usig Messages Quorum Validation NewViewCert.

Module ViewSafety.
Import NewViewCertM Validation Quorum.

(** A log without the leading ViewChange, which [extractPreparedRequests] puts
    aside. *)
Definition strip (l : MessageLog) : MessageLog :=
  match l with CM_ViewChange _ :: l => l | _ => l end.

Definition body (vc : ViewChange) : MessageLog := strip (vc_MessageLog vc).

Lemma log_body vc m :
  m ∈ vc_MessageLog vc → (∀ vc', m ≠ CM_ViewChange vc') → m ∈ body vc.
Proof.
  unfold body, strip. destruct (vc_MessageLog vc) as [|[] l]; try done.
  intros [->|?]%elem_of_cons Hm; [by edestruct Hm|done].
Qed.

(** ** The longest log *)

Lemma scanStep_body acc vc :
  (scanStep acc vc).2 = if (length acc.2 <? length (body vc))%nat then body vc else acc.2.
Proof.
  unfold scanStep, body, strip. destruct acc as [vcs maxLog].
  destruct (vc_MessageLog vc) as [|[] l]; [by destruct maxLog|..]; simpl; by destruct (_ <? _)%nat.
Qed.

Lemma scan_longest_from l acc :
  (length acc.2 ≤ length (foldl scanStep acc l).2)%nat ∧
  (∀ vc, vc ∈ l → length (body vc) ≤ length (foldl scanStep acc l).2)%nat ∧
  ((foldl scanStep acc l).2 = acc.2 ∨ ∃ vc, vc ∈ l ∧ (foldl scanStep acc l).2 = body vc).
Proof.
  revert acc. induction l as [|vc l IH]; intros acc; cbn [foldl].
  { split; [done|]. split; [set_solver|by left]. }
  destruct (IH (scanStep acc vc)) as (H1 & H2 & H3). pose proof (scanStep_body acc vc) as E.
  rewrite E in H1, H3. split_and!.
  - revert H1. destruct (Nat.ltb_spec (length acc.2) (length (body vc))); lia.
  - intros vc' [->|Hin]%elem_of_cons; [|by apply H2]. revert H1. destruct (Nat.ltb_spec (length acc.2) (length (body vc))); lia.
  - destruct H3 as [H3|(vc' & Hin & H3)]; [|right; exists vc'; set_solver].
    case_if; [right; exists vc; set_solver|by left].
Qed.

Lemma scan_longest c vc : vc ∈ c → (length (body vc) ≤ length (scanCert c).2)%nat.
Proof. apply (scan_longest_from c ([], [])). Qed.

Lemma scan_is_body c : (scanCert c).2 ≠ [] → ∃ vc, vc ∈ c ∧ (scanCert c).2 = body vc.
Proof. destruct (scan_longest_from c ([], [])) as (_ & _ & [H|H]); by intros. Qed.

(** ** Logs in the primary's order *)

(** Commitments to Prepares of the primary of view [v], with counters from [cv] on. *)
Fixpoint sequentialFrom (n v cv : N) (l : MessageLog) : bool :=
  match l with
  | [] => true
  | m :: l =>
      match proposalOf m with
      | CM_Prepare p => (prep_View p =? v) && isPrimary v (prep_ReplicaID p) n &&
                        (Counter (prep_UI p) =? cv) && sequentialFrom n v (cv + 1) l
      | _ => false
      end
  end.

(** The commitments of one replica in view [v]: to the Prepares from the first one on
    in view 0, to the NewView and then the Prepares that follow it in a later view. *)
Definition sequential (n v : N) (l : MessageLog) : bool :=
  if v =? 0 then sequentialFrom n 0 1 l
  else match l with
       | [] => true
       | m :: l =>
           match proposalOf m with
           | CM_NewView nv => (nv_NewView nv =? v) && isPrimary v (nv_ReplicaID nv) n &&
                              sequentialFrom n v (Counter (nv_UI nv) + 1) l
           | _ => false
           end
       end.

Section Order.
(** The certified messages that exist.  No two of them have the same replica and UI
    counter, and there is one NewView for view [v]. *)
Context (n : N) (known : CertifiedMessage → Prop) (v : N).
Context (Hunique : ∀ m1 m2, known m1 → known m2 → cm_ReplicaID m1 = cm_ReplicaID m2 →
                    cm_Counter m1 = cm_Counter m2 → m1 = m2).
Context (Hone : ∀ nv1 nv2, known (CM_NewView nv1) → known (CM_NewView nv2) →
                 nv_NewView nv1 = v → nv_NewView nv2 = v → nv1 = nv2).

Lemma isPrimary_inj v' r1 r2 : isPrimary v' r1 n = true → isPrimary v' r2 n = true → r1 = r2.
Proof. unfold isPrimary. intros. nbool. congruence. Qed.

Definition proposals (l : MessageLog) : MessageLog := proposalOf <$> l.

Lemma sequentialFrom_compat v' cv l1 l2 :
  sequentialFrom n v' cv l1 = true → sequentialFrom n v' cv l2 = true →
  Forall known (proposals l1) → Forall known (proposals l2) → (length l1 ≤ length l2)%nat →
  proposals l1 `prefix_of` proposals l2.
Proof.
  revert cv l2. induction l1 as [|m1 l1 IH]; intros cv l2 H1 H2 K1 K2 Hlen; [apply prefix_nil|].
  destruct l2 as [|m2 l2]; [simpl in *; lia|]. simpl in *.
  apply Forall_cons in K1 as [K1 Kr1], K2 as [K2 Kr2].
  destruct (proposalOf m1) as [p1| | |] eqn:E1; try done.
  destruct (proposalOf m2) as [p2| | |] eqn:E2; try done. nbool.
  assert (CM_Prepare p1 = CM_Prepare p2) as ->.
  { apply Hunique; [done..|simpl; by eapply isPrimary_inj|simpl; congruence]. }
  apply prefix_cons. eapply IH; eauto; lia.
Qed.

Lemma sequential_compat l1 l2 :
  sequential n v l1 = true → sequential n v l2 = true →
  Forall known (proposals l1) → Forall known (proposals l2) → (length l1 ≤ length l2)%nat →
  proposals l1 `prefix_of` proposals l2.
Proof.
  unfold sequential. case_if; [apply sequentialFrom_compat|].
  destruct l1 as [|m1 l1], l2 as [|m2 l2]; simpl; intros H1 H2 K1 K2 Hlen;
    [apply prefix_nil..|lia|].
  apply Forall_cons in K1 as [K1 Kr1], K2 as [K2 Kr2].
  destruct (proposalOf m1) as [| | |nv1] eqn:E1; try done.
  destruct (proposalOf m2) as [| | |nv2] eqn:E2; try done. nbool.
  assert (nv1 = nv2) as -> by auto.
  apply prefix_cons. eapply sequentialFrom_compat; eauto; lia.
Qed.

(** ** Replay *)

Abbreviation replay := (foldl (replayStep extractPreparedRequests)).

Lemma replay_proposals acc l1 l2 : proposals l1 = proposals l2 → replay acc l1 = replay acc l2.
Proof.
  revert acc l2. induction l1 as [|m1 l1 IH]; intros acc [|m2 l2]; simpl; try done.
  intros [= E1 E2]. rewrite (IH _ l2) by done. unfold replayStep. by rewrite E1.
Qed.

Lemma replay_sequentialFrom v' cv l rs :
  sequentialFrom n v' cv l = true → ∃ rest, replay (OK rs) l = OK (rs ++ rest).
Proof.
  revert cv rs. induction l as [|m l IH]; intros cv rs; [exists []; by rewrite app_nil_r|].
  simpl. destruct (proposalOf m) as [p| | |] eqn:E; try done. intros. nbool.
  destruct (IH (cv + 1) (rs ++ [prep_Request p])) as [rest Hr]; [done|].
  exists (prep_Request p :: rest). rewrite <- (assoc_L app) in Hr. exact Hr.
Qed.

Lemma sequentialFrom_app v' cv l1 l2 :
  sequentialFrom n v' cv (l1 ++ l2) = true →
  sequentialFrom n v' (cv + N.of_nat (length l1)) l2 = true.
Proof.
  revert cv. induction l1 as [|m l1 IH]; intros cv; [simpl; by rewrite N.add_0_r|].
  cbn [app sequentialFrom length]. destruct (proposalOf m) as [p| | |]; try done. intros. nbool.
  replace (cv + N.of_nat _) with (cv + 1 + N.of_nat (length l1)) by lia. auto.
Qed.

Lemma sequentialFrom_take v' cv k l :
  sequentialFrom n v' cv l = true → sequentialFrom n v' cv (take k l) = true.
Proof.
  revert cv l. induction k as [|k IH]; intros cv [|m l]; try done. cbn [take sequentialFrom].
  destruct (proposalOf m); try done. intros. nbool. rewrite IH by done.
  rewrite !andb_true_iff, !N.eqb_eq. done.
Qed.

Lemma sequential_take k l : sequential n v l = true → sequential n v (take k l) = true.
Proof.
  unfold sequential. case_if; [apply sequentialFrom_take|]. destruct l as [|m l], k as [|k]; try done.
  cbn [take]. destruct (proposalOf m); try done. intros. nbool.
  rewrite sequentialFrom_take by done. rewrite !andb_true_iff, !N.eqb_eq. done.
Qed.

(** What follows a non-empty beginning of a sequential log only adds requests. *)
Lemma replay_extends l1 l2 rs :
  sequential n v (l1 ++ l2) = true → l1 ≠ [] → replay (OK []) l1 = OK rs →
  ∃ rest, replay (OK []) (l1 ++ l2) = OK (rs ++ rest).
Proof.
  intros Hs Hne Hr. rewrite foldl_app, Hr. revert Hs. unfold sequential. case_if.
  - intros Hs%sequentialFrom_app. by eapply replay_sequentialFrom.
  - destruct l1 as [|m l1]; [done|]. simpl. destruct (proposalOf m) as [| | |nv]; try done. intros.
    nbool. eapply replay_sequentialFrom, sequentialFrom_app. done.
Qed.

Lemma replay_not_OK acc l rs : replay acc l = OK rs → isOK acc = true.
Proof.
  revert acc. induction l as [|m l IH]; intros acc; simpl; [by intros ->|].
  intros H%IH. by destruct acc.
Qed.

(** ** Positions *)

Lemma sequentialFrom_counter v' cv l i prop :
  sequentialFrom n v' cv l = true → proposals l !! i = Some prop → cm_Counter prop = cv + N.of_nat i.
Proof.
  revert cv i. induction l as [|m l IH]; intros cv [|i]; try done; cbn [sequentialFrom];
    intros Hs Hi; simplify_eq/=; destruct (proposalOf m) eqn:E; try done; nbool; [simpl; lia|].
  rewrite (IH (cv + 1) i) by done. lia.
Qed.

Lemma sequential_counter l :
  sequential n v l = true → ∃ b, ∀ i prop, proposals l !! i = Some prop → cm_Counter prop = b + N.of_nat i.
Proof.
  unfold sequential. case_if; [intros Hs; exists 1; intros; by eapply sequentialFrom_counter|].
  destruct l as [|m l]; [by exists 0|]. simpl. destruct (proposalOf m) as [| | |nv] eqn:Em; try done.
  intros. nbool. exists (Counter (nv_UI nv)). intros [|i] prop Hi; simplify_eq/=.
  - simpl. lia.
  - erewrite sequentialFrom_counter by done. lia.
Qed.

(** All who follow the primary up to a proposal have followed the same proposals. *)
Lemma sequential_last l1 l2 prop :
  sequential n v l1 = true → sequential n v l2 = true →
  Forall known (proposals l1) → Forall known (proposals l2) →
  last (proposals l1) = Some prop → last (proposals l2) = Some prop → proposals l1 = proposals l2.
Proof.
  intros S1 S2 K1 K2 L1 L2.
  assert (∀ a b, sequential n v b = true → last (proposals a) = Some prop → last (proposals b) = Some prop →
            proposals a `prefix_of` proposals b → proposals a = proposals b) as Haux.
  { intros a b Sb La Lb Hp. destruct (sequential_counter b Sb) as [base Hb].
    rewrite last_lookup in La, Lb. pose proof (Hb _ _ Lb) as Cb.
    pose proof (prefix_lookup_Some _ _ _ _ La Hp) as La'. pose proof (Hb _ _ La') as Ca.
    apply prefix_length_eq; [done|]. apply lookup_lt_Some in La, Lb. lia. }
  destruct (le_ge_dec (length l1) (length l2)) as [Hle|Hge].
  - apply Haux; auto. by apply sequential_compat.
  - symmetry. apply Haux; auto. by apply sequential_compat.
Qed.

(** ** What a certificate of sequential logs keeps *)

Section Certificate.
Context (c : NewViewCert).
Context (Hshape : forallb vc_shape c = true).
Context (Hseq : ∀ vc, vc ∈ c → sequential n v (body vc) = true).
Context (Hknown : ∀ vc, vc ∈ c → Forall known (proposals (body vc))).

Lemma proposals_take k l : proposals (take k l) = take k (proposals l).
Proof. unfold proposals. apply fmap_take. Qed.

Lemma extract_keeps vc k m :
  vc ∈ c → body vc !! k = Some m →
  ∃ rs rest, replay (OK []) (take (S k) (body vc)) = OK rs ∧ extractPreparedRequests c = OK (rs ++ rest).
Proof.
  intros Hvc Hk. pose proof (scan_longest c vc Hvc) as Hlen. pose proof (lookup_lt_Some _ _ _ Hk) as Hlt.
  pose proof (extract_total c ltac:(by rewrite Hshape)) as Htot.
  rewrite extract_unfold in *. destruct (scanCert c) as [vcs l] eqn:El. simpl in *.
  destruct (scan_is_body c) as (vc' & Hvc' & Hl); [rewrite El; destruct l; simpl in *; [lia|done]|].
  rewrite El in Hl. simpl in Hl. subst l.
  destruct (body vc') as [|m0 l0] eqn:Eb; [simpl in *; lia|]. rewrite <- Eb in *. clear Eb m0 l0.
  assert (proposals (take (S k) (body vc)) = proposals (take (S k) (body vc'))) as Htake.
  { rewrite !proposals_take. destruct (sequential_compat (body vc) (body vc')) as [l' ->]; auto.
    rewrite take_app_le; [done|]. unfold proposals. rewrite length_fmap. lia. }
  rewrite (replay_proposals _ _ _ Htake).
  rewrite <- (take_drop (S k) (body vc')), foldl_app in Htot.
  destruct (replay (OK []) (take (S k) (body vc'))) as [rs|e|p] eqn:Er.
  2, 3: destruct (replay _ (drop _ _)) eqn:Ed; [apply replay_not_OK in Ed|..]; done.
  destruct (replay_extends (take (S k) (body vc')) (drop (S k) (body vc')) rs) as [rest Hr].
  - rewrite take_drop. auto.
  - destruct (body vc'); simpl in *; [lia|done].
  - done.
  - exists rs, rest. split; [done|]. rewrite take_drop in Hr. rewrite <- Hr. destruct (body vc'); [|done].
    simpl in *; lia.
Qed.

(** With the position of the proposal instead of an index. *)
Lemma extract_keeps_proposal vc m prop :
  vc ∈ c → m ∈ body vc → proposalOf m = prop →
  ∃ rs rest, extractPreparedRequests c = OK (rs ++ rest) ∧
    ∀ l, sequential n v l = true → Forall known (proposals l) → last (proposals l) = Some prop →
      replay (OK []) l = OK rs.
Proof.
  intros Hvc [k Hk]%list_elem_of_lookup Hp.
  destruct (extract_keeps vc k m Hvc Hk) as (rs & rest & Hr & Hx). exists rs, rest. split; [done|].
  intros l Hl Kl Ll. rewrite <- Hr. apply replay_proposals.
  assert (last (proposals (take (S k) (body vc))) = Some prop) as Hlast.
  { erewrite take_S_r by done. unfold proposals. rewrite fmap_app. simpl. by rewrite last_snoc, Hp. }
  apply (sequential_last _ _ prop); auto; [by apply sequential_take, Hseq|].
  rewrite proposals_take. by apply Forall_take, Hknown.
Qed.
End Certificate.

(** A complete log leaves none of its replica's messages out. *)
Lemma log_complete r v' log cv m :
  log_valid r v' log cv → Forall known log → known m → cm_ReplicaID m = r → 0 < cm_Counter m →
  (∀ m0, head log = Some m0 → cm_Counter m0 ≤ cm_Counter m) → cm_Counter m < cv → m ∈ log.
Proof.
  intros [Hall Hhd] Kl Km Hr Hpos Hlo Hhi.
  destruct log as [|m0 log'] eqn:El; simpl in Hhd; [lia|]. rewrite <- El in *.
  assert (log !! 0%nat = Some m0) as H0 by (by rewrite El). destruct (Hall _ _ H0) as (_ & C0 & _).
  specialize (Hlo m0 ltac:(by rewrite El)).
  destruct (lookup_lt_is_Some_2 log (N.to_nat (cm_Counter m - cm_Counter m0))) as [m' Hm']; [lia|].
  destruct (Hall _ _ Hm') as (Hr' & Cm' & _).
  assert (m = m') as ->; [|by eapply list_elem_of_lookup_2].
  apply Hunique; [done| |congruence|lia]. by eapply Forall_lookup_1.
Qed.
End Order.

(** What the ViewChange messages of a new-view certificate have passed: their own
    validation and the UI checks of the messages in their logs. *)
Definition vc_accepted (certSize : N) (vc : ViewChange) : Prop :=
  validateViewChange certSize vc = OK tt ∧ counters_ok (vc_MessageLog vc) ∧
  0 < vc_Counter vc ∧ in_u64 (vc_Counter vc) ∧ in_u64 (vc_NewView vc).

(** Message [m] of a replica falls into what its ViewChange [vc] has to account for:
    not before the first message of the log, and before [vc] itself. *)
Definition covers (vc : ViewChange) (m : CertifiedMessage) : Prop :=
  (∀ m0, head (vc_MessageLog vc) = Some m0 → cm_Counter m0 ≤ cm_Counter m) ∧
  cm_Counter m < vc_Counter vc.

(** C3: a view change keeps what may have been executed.  Let [prop] be a proposal
    (Prepare or NewView) of the view before the one [nv] opens that
    [commitCertSize] replicas committed to, each in the part of its history its
    ViewChange, if it is in the certificate, has to account for ([covers]: without this
    [System.agreement_violated_sequential] is a counterexample).  With UIs unique and
    one NewView for that view, if the logs in the certificate of a validated [nv] are sequential, the requests
    everyone who followed the primary up to [prop] has prepared are the beginning
    of the sequence [extractPreparedRequests] starts the new view with. *)
Theorem new_view_keeps_committed n f (known : CertifiedMessage → Prop) (nv : NewView)
    (prop : CertifiedMessage) (R : gset N) :
  let v := nv_NewView nv - 1 in
  in_u32 n → f < 2 ^ 31 → notEnoughNodes n f = false →
  (∀ m1 m2, known m1 → known m2 → cm_ReplicaID m1 = cm_ReplicaID m2 →
     cm_Counter m1 = cm_Counter m2 → m1 = m2) →
  (∀ nv1 nv2, known (CM_NewView nv1) → known (CM_NewView nv2) →
     nv_NewView nv1 = v → nv_NewView nv2 = v → nv1 = nv2) →
  validateNewView n (viewChangeCertSize n f) nv = OK tt →
  forallb vc_shape (nv_NewViewCert nv) = true →
  (∀ vc, vc ∈ nv_NewViewCert nv →
     vc_accepted (viewChangeCertSize n f) vc ∧ vc_ReplicaID vc < n ∧
     Forall known (vc_MessageLog vc) ∧ Forall known (proposals (body vc)) ∧
     sequential n v (body vc) = true) →
  R ⊆ replicas n → commitCertSize n f ≤ N.of_nat (size R) →
  (∀ r, r ∈ R → ∃ m, known m ∧ cm_ReplicaID m = r ∧ 0 < cm_Counter m ∧ proposalOf m = prop ∧
     (∀ vc, vc ∈ nv_NewViewCert nv → vc_ReplicaID vc = r → covers vc m)) →
  proposal_ok prop = true →
  ∃ rs rest, extractPreparedRequests (nv_NewViewCert nv) = OK (rs ++ rest) ∧
    ∀ l, sequential n v l = true → Forall known (proposals l) → last (proposals l) = Some prop →
      foldl (replayStep extractPreparedRequests) (OK []) l = OK rs.
Proof.
  intros v Hn Hf Hok Huniq Hone Hval Hshape Hvcs HR Hsize Hcommit Hprop.
  assert (1 ≤ nv_NewView nv ∧ nvCert_valid (viewChangeCertSize n f) (nv_ReplicaID nv) (nv_NewView nv)
            (nv_NewViewCert nv)) as (Hv1 & Hlen & Hviews & Hdup & _).
  { revert Hval. unfold validateNewView. do 2 (case_if; [done|]). nbool.
    intros Hval%wrapf_OK%validateNVCert_OK. done. }
  destruct (cert_sizes n f Hn Hf Hok) as (Hnf & Hc & Hvc). rewrite Hc, Hvc in *.
  destruct (quorums_intersect n R (list_to_set (vc_ReplicaID <$> nv_NewViewCert nv))) as (r & Hr & Hin).
  - done.
  - intros r (vc & -> & Hin)%elem_of_list_to_set%list_elem_of_fmap. apply elem_of_replicas. by apply Hvcs.
  - rewrite size_list_to_set by done. rewrite length_fmap. lia.
  - apply elem_of_list_to_set, list_elem_of_fmap in Hin as (vc & -> & Hin).
    destruct (Hvcs vc Hin) as ((Hvv & Hcs & Hp & Hu & Hw) & _ & Kl & _ & _).
    destruct (Hcommit _ Hr) as (m & Km & Hmr & Hmp & Hmprop & Hcov).
    destruct (Hcov vc Hin eq_refl) as [Hlo Hhi].
    apply validateViewChange_OK in Hvv as (_ & _ & Hlog); [|done..].
    eapply (extract_keeps_proposal n known v Huniq Hone _ Hshape _ _ vc m).
    + done.
    + apply log_body; [by eapply (log_complete known)|]. intros vc' ->. simpl in *. by subst prop.
    + done.
  Unshelve. all: intros; by apply Hvcs.
Qed.

(** Replica 0 prepared a request in view 0 and replica 1 committed to it; replica 2 did
    nothing.  Replica 1 opens view 1 with its own ViewChange and that of replica 2. *)
Definition w_prepare : CertifiedMessage := CM_Prepare (MkPrepare 0 0 (MkRequest 7 1 [] []) (MkUI 1 [])).
Definition w_commit : CertifiedMessage := CM_Commit (MkCommit 1 w_prepare (MkUI 1 [])).
Definition w_rvcs : ViewChangeCert := [MkReqViewChange 1 1 []; MkReqViewChange 2 1 []].
Definition w_newView : NewView :=
  MkNewView 1 1 [MkViewChange 1 1 [w_commit] w_rvcs (MkUI 2 []); MkViewChange 2 1 [] w_rvcs (MkUI 1 [])]
    (MkUI 3 []).

Lemma new_view_keeps_committed_witness :
  ∃ rs rest, extractPreparedRequests (nv_NewViewCert w_newView) = OK (rs ++ rest) ∧
    ∀ l, sequential 3 0 l = true → Forall (λ m, m = w_prepare ∨ m = w_commit) (proposals l) →
      last (proposals l) = Some w_prepare →
      foldl (replayStep extractPreparedRequests) (OK []) l = OK rs.
Proof.
  apply (new_view_keeps_committed 3 1 (λ m, m = w_prepare ∨ m = w_commit) w_newView w_prepare {[0; 1]}).
  - lia.
  - lia.
  - reflexivity.
  - intros m1 m2 [->| ->] [->| ->]; vm_compute; congruence.
  - intros nv1 nv2 [[=]|[=]].
  - reflexivity.
  - reflexivity.
  - intros vc [->|[->|[]%elem_of_nil]%elem_of_cons]%elem_of_cons.
    + split; [split_and!; [reflexivity|apply Forall_singleton; simpl; lia|simpl; lia..]|].
      split; [simpl; lia|]. split; [apply Forall_singleton; auto|].
      split; [apply Forall_singleton; auto|reflexivity].
    + split; [split_and!; [reflexivity|by apply Forall_nil|simpl; lia..]|].
      split; [simpl; lia|]. split; [by apply Forall_nil|]. split; [by apply Forall_nil|reflexivity].
  - intros r Hr. apply elem_of_replicas. set_solver by lia.
  - vm_compute. discriminate.
  - intros r [->%elem_of_singleton| ->%elem_of_singleton]%elem_of_union; [exists w_prepare|exists w_commit];
      (split_and!; [auto|done|done|done|]);
      intros vc [->|[->|[]%elem_of_nil]%elem_of_cons]%elem_of_cons; try done;
      intros _; split; [by intros ? [= <-]|done].
  - reflexivity.
Defined.

End ViewSafety.
