(* ===== verification/Collect.v ===== *)
(** The collectors of view-change messages: [makeReqViewChangeCollector]
    ([src/core/req-view-change.go]), which turns ReqViewChange messages into
    view-change certificates, and [makeViewChangeCollector]
    ([src/core/view-change.go]), which turns ViewChange messages into new-view
    certificates on the new primary.

    Each is a closure over its variables; [runRVC] and [runVC] feed it a
    sequence of messages and list the certificates it hands out.  The theorems
    say that those certificates are the ones the validators of [Validation]
    accept. *)

From S2P Require Import Prelude Messages Quorum Validation.

Module Collect.
Import Quorum Validation.

(** ** ReqViewChange messages *)

(** The variables of [makeReqViewChangeCollector] *)
Record rvcCollector := MkRVC {
  rvc_view : N; rvc_collected : ViewChangeCert; rvc_replicas : gset N }.

Definition newRVC : rvcCollector := MkRVC 0 [] ∅.

(** The closure of [makeReqViewChangeCollector(viewChangeCertSize)] *)
Definition collectReqViewChange (certSize : N) (rvc : ReqViewChange) (st : rvcCollector) :
    bool * option ViewChangeCert * rvcCollector :=
  let replicaID := rvc_ReplicaID rvc in
  if negb (rvc_NewView rvc =? u64_succ (rvc_view st)) || bool_decide (replicaID ∈ rvc_replicas st)
  then (false, None, st)
  else
    let collected := rvc_collected st ++ [rvc] in
    let replicas := {[replicaID]} ∪ rvc_replicas st in
    if (length collected <? N.to_nat certSize)%nat
    then (true, None, MkRVC (rvc_view st) collected replicas)
    else (true, Some collected, MkRVC (u64_succ (rvc_view st)) [] ∅).

(** ** ViewChange messages *)

(** The variables of [makeViewChangeCollector]: [vcc_own] is [collected\[0\]],
    nil until the replica's own message arrives. *)
Record vcCollector := MkVCC { vcc_view : N; vcc_own : option ViewChange; vcc_others : NewViewCert }.

Definition newVCC : vcCollector := MkVCC 0 None [].

(** The end of the closure, once the message is recorded: the certificate is
    handed out when it is complete. *)
Definition finishVC (certSize : N) (st : vcCollector) : bool * option NewViewCert * vcCollector :=
  match vcc_own st with
  | Some own =>
      if (S (length (vcc_others st)) <? N.to_nat certSize)%nat then (true, None, st)
      else (true, Some (own :: vcc_others st), MkVCC (u64_succ (vcc_view st)) None [])
  | None => (true, None, st)
  end.

(** The closure of [makeViewChangeCollector(id, n, viewChangeCertSize)] *)
Definition collectViewChange (id n certSize : N) (vc : ViewChange) (st : vcCollector) :
    bool * option NewViewCert * vcCollector :=
  if vc_NewView vc <? vcc_view st then (false, None, st)
  else
    let st := if vcc_view st <? vc_NewView vc then MkVCC (vc_NewView vc) None [] else st in
    if negb (isPrimary (vcc_view st) id n) then (false, None, st)
    else
      if vc_ReplicaID vc =? id then finishVC certSize (MkVCC (vcc_view st) (Some vc) (vcc_others st))
      else if (S (length (vcc_others st)) <? N.to_nat certSize)%nat
      then finishVC certSize (MkVCC (vcc_view st) (vcc_own st) (vcc_others st ++ [vc]))
      else (false, None, st).

(** A certificate is handed out on the primary of its view only. *)
Lemma collectViewChange_primary id n certSize vc st new cert st' :
  collectViewChange id n certSize vc st = (new, Some cert, st') →
  isPrimary (vc_NewView vc) id n = true.
Proof.
  unfold collectViewChange. case_if; [done|].
  set (st0 := if vcc_view st <? vc_NewView vc then _ else _).
  assert (vcc_view st0 = vc_NewView vc) as -> by (unfold st0; case_if; nbool; simpl; lia).
  by destruct (isPrimary (vc_NewView vc) id n).
Qed.

(** ** Runs *)

Fixpoint runRVC (certSize : N) (l : list ReqViewChange) (st : rvcCollector) :
    list (N * ViewChangeCert) * rvcCollector :=
  match l with
  | [] => ([], st)
  | rvc :: l =>
      let '(_, cert, st) := collectReqViewChange certSize rvc st in
      let '(certs, st) := runRVC certSize l st in
      (match cert with Some c => (rvc_NewView rvc, c) :: certs | None => certs end, st)
  end.

Fixpoint runVC (id n certSize : N) (l : list ViewChange) (st : vcCollector) :
    list (N * NewViewCert) * vcCollector :=
  match l with
  | [] => ([], st)
  | vc :: l =>
      let '(_, cert, st) := collectViewChange id n certSize vc st in
      let '(certs, st) := runVC id n certSize l st in
      (match cert with Some c => (vc_NewView vc, c) :: certs | None => certs end, st)
  end.

(** ** Invariant of the first collector *)

Definition rvc_inv (certSize : N) (st : rvcCollector) : Prop :=
  (length (rvc_collected st) < N.to_nat certSize)%nat ∧
  Forall (λ r, rvc_NewView r = u64_succ (rvc_view st)) (rvc_collected st) ∧
  NoDup (rvc_ReplicaID <$> rvc_collected st) ∧
  rvc_replicas st = list_to_set (rvc_ReplicaID <$> rvc_collected st).

Lemma rvc_inv_empty certSize v : 0 < certSize → rvc_inv certSize (MkRVC v [] ∅).
Proof. intros. split; [simpl; lia|]. split; [constructor|]. split; [constructor|done]. Qed.

Lemma rvc_inv_init certSize : 0 < certSize → rvc_inv certSize newRVC.
Proof. apply rvc_inv_empty. Qed.

Lemma rvc_step certSize rvc st new cert st' :
  0 < certSize → rvc_inv certSize st →
  collectReqViewChange certSize rvc st = (new, cert, st') →
  rvc_inv certSize st' ∧
  match cert with
  | Some c => rvc_NewView rvc = u64_succ (rvc_view st) ∧
              rvc_view st' = u64_succ (rvc_view st) ∧
              vcCert_valid certSize (u64_succ (rvc_view st)) c ∧
              length c = N.to_nat certSize
  | None => rvc_view st' = rvc_view st
  end.
Proof.
  intros Hcs (Hlen & Hv & Hd & Hr). unfold collectReqViewChange.
  destruct (N.eqb_spec (rvc_NewView rvc) (u64_succ (rvc_view st))) as [Hnv|]; simpl;
    [|by intros [= <- <- <-]].
  case_bool_decide as Hin; [by intros [= <- <- <-]|].
  rewrite Hr, elem_of_list_to_set in Hin.
  assert (Forall (λ r, rvc_NewView r = u64_succ (rvc_view st)) (rvc_collected st ++ [rvc])) as Hv'.
  { apply Forall_app. split; [done|]. by repeat constructor. }
  assert (NoDup (rvc_ReplicaID <$> rvc_collected st ++ [rvc])) as Hd'.
  { rewrite fmap_app. apply NoDup_app. split; [done|]. split; [set_solver|]. apply NoDup_singleton. }
  rewrite length_app. simpl. case_if; intros [= <- <- <-].
  - apply Nat.ltb_lt in E. split; [|done]. split; [simpl; rewrite length_app; simpl; lia|].
    split; [done|]. split; [done|]. simpl. rewrite Hr, fmap_app. set_solver.
  - apply Nat.ltb_ge in E. split; [by apply rvc_inv_empty|].
    split; [done|]. split; [done|]. split; [|rewrite length_app; simpl; lia].
    split; [rewrite length_app; simpl; lia|]. by split.
Qed.

(** The certificates come out view by view. *)
Lemma runRVC_spec certSize l st i view cert :
  0 < certSize → rvc_inv certSize st → rvc_view st + N.of_nat (length l) < 2 ^ 64 →
  (runRVC certSize l st).1 !! i = Some (view, cert) →
  view = rvc_view st + N.of_nat i + 1 ∧ vcCert_valid certSize view cert ∧
  length cert = N.to_nat certSize.
Proof.
  intros Hcs. revert st i. induction l as [|rvc l IH]; intros st i Hinv Hb; simpl; [done|].
  simpl in Hb. destruct (collectReqViewChange certSize rvc st) as [[new c] st'] eqn:E.
  destruct (rvc_step _ _ _ _ _ _ Hcs Hinv E) as [Hinv' Hc].
  specialize (IH st'). destruct (runRVC certSize l st') as [certs st'']; simpl in *.
  destruct c as [c|].
  - destruct Hc as (Hv & Hv' & Hvalid & Hl).
    rewrite u64_succ_small in * by lia. destruct i as [|i]; simpl.
    + intros [= <- <-]. rewrite Hv. split; [lia|]. done.
    + intros Hi. destruct (IH i Hinv' ltac:(lia) Hi) as (-> & ? & ?). split; [lia|done].
  - rewrite Hc in IH. intros Hi. apply (IH i Hinv' ltac:(lia) Hi).
Qed.

(** The view-change certificates collected from any sequence of
    ReqViewChange messages are for the views 1, 2, 3, ... in this order, and
    each has exactly [viewChangeCertSize] messages for its view from distinct
    replicas, that is, it is a certificate every peer's validator accepts. *)
Theorem rvc_certificates_valid certSize l i view cert :
  0 < certSize → N.of_nat (length l) < 2 ^ 64 →
  (runRVC certSize l newRVC).1 !! i = Some (view, cert) →
  view = N.of_nat i + 1 ∧ length cert = N.to_nat certSize ∧
  validateVCCert certSize view cert = OK tt.
Proof.
  intros Hcs Hb Hi.
  destruct (runRVC_spec certSize l newRVC i view cert) as (Hv & Hvalid & Hl);
    [done|by apply rvc_inv_init|simpl; lia|done|].
  split; [simpl in Hv; lia|]. split; [done|]. by apply validateVCCert_OK.
Qed.

Lemma rvc_certificates_valid_witness :
  let l := [MkReqViewChange 0 1 []; MkReqViewChange 0 1 []; MkReqViewChange 2 1 []] in
  validateVCCert 2 1 [MkReqViewChange 0 1 []; MkReqViewChange 2 1 []] = OK tt.
Proof.
  apply (rvc_certificates_valid 2
           [MkReqViewChange 0 1 []; MkReqViewChange 0 1 []; MkReqViewChange 2 1 []] 0 1);
    [lia|simpl; lia|reflexivity].
Defined.

(** ** Progress of the first collector *)

Lemma collect_missing certSize rvc st new cert st' :
  collectReqViewChange certSize rvc st = (new, cert, st') → cert = None →
  rvc_NewView rvc = u64_succ (rvc_view st) →
  rvc_view st' = rvc_view st ∧ rvc_ReplicaID rvc ∈ rvc_replicas st' ∧
  rvc_replicas st ⊆ rvc_replicas st'.
Proof.
  unfold collectReqViewChange. intros H -> Hv. rewrite Hv, N.eqb_refl in H. simpl in H.
  repeat case_if; simplify_eq; simpl; split_and!; try done; try set_solver.
  by apply bool_decide_eq_true in E.
Qed.

Lemma collect_replicas_mono certSize rvc st new st' :
  collectReqViewChange certSize rvc st = (new, None, st') →
  rvc_view st' = rvc_view st ∧ rvc_replicas st ⊆ rvc_replicas st'.
Proof.
  unfold collectReqViewChange. intros H. repeat case_if; simplify_eq; simpl; split; try done; set_solver.
Qed.

Lemma runRVC_none certSize l st (R : gset N) :
  (runRVC certSize l st).1 = [] →
  (∀ r, r ∈ R → r ∈ rvc_replicas st ∨
     ∃ rvc, rvc ∈ l ∧ rvc_ReplicaID rvc = r ∧ rvc_NewView rvc = u64_succ (rvc_view st)) →
  R ⊆ rvc_replicas (runRVC certSize l st).2.
Proof.
  revert st. induction l as [|rvc l IH]; intros st; simpl.
  { intros _ HR r Hr. destruct (HR r Hr) as [?|(rvc & Hin & _)]; [done|set_solver]. }
  destruct (collectReqViewChange certSize rvc st) as [[new c] st'] eqn:E.
  specialize (IH st'). destruct (runRVC certSize l st') as [certs st'']; simpl in *.
  intros Hn HR. destruct c as [c|]; [done|]. destruct (collect_replicas_mono _ _ _ _ _ E) as [Hv Hm].
  apply IH; [done|]. rewrite Hv. intros r Hr.
  destruct (HR r Hr) as [?|(rvc' & Hin & Hid & Hnv)]; [left; set_solver|].
  apply elem_of_cons in Hin as [->|Hin]; [left|right; eauto].
  destruct (collect_missing _ _ _ _ _ _ E eq_refl Hnv) as (_ & ? & _). by subst.
Qed.

Lemma runRVC_inv certSize l st :
  0 < certSize → rvc_inv certSize st → rvc_inv certSize (runRVC certSize l st).2.
Proof.
  intros Hcs. revert st. induction l as [|rvc l IH]; intros st Hinv; simpl; [done|].
  destruct (collectReqViewChange certSize rvc st) as [[new c] st'] eqn:E.
  destruct (rvc_step _ _ _ _ _ _ Hcs Hinv E) as [Hinv' _].
  specialize (IH st' Hinv'). by destruct (runRVC certSize l st').
Qed.

(** Progress of the view-change request.  When [viewChangeCertSize] distinct
    replicas have asked for the next view, whatever else arrived and in
    whatever order, a certificate has been handed out. *)
Theorem rvc_certificate_complete certSize l st (R : gset N) :
  0 < certSize → rvc_inv certSize st →
  certSize ≤ N.of_nat (size R) →
  (∀ r, r ∈ R → ∃ rvc, rvc ∈ l ∧ rvc_ReplicaID rvc = r ∧
                       rvc_NewView rvc = u64_succ (rvc_view st)) →
  ∃ view cert, head (runRVC certSize l st).1 = Some (view, cert).
Proof.
  intros Hcs Hinv Hsize HR. destruct (runRVC certSize l st).1 as [|[v c] certs] eqn:E; [|by eauto].
  exfalso. pose proof (runRVC_none certSize l st R E ltac:(eauto)) as Hsub.
  destruct (runRVC_inv certSize l st Hcs Hinv) as (Hlen & _ & Hd & Hr).
  apply subseteq_size in Hsub. rewrite Hr, size_list_to_set, length_fmap in Hsub by done. lia.
Qed.

Lemma rvc_certificate_complete_witness :
  ∃ view cert, head (runRVC 2 [MkReqViewChange 1 1 []; MkReqViewChange 0 1 []] newRVC).1
               = Some (view, cert).
Proof.
  apply (rvc_certificate_complete 2 _ newRVC {[0; 1]}).
  - lia.
  - apply rvc_inv_init. lia.
  - vm_compute. discriminate.
  - intros r Hr. apply elem_of_union in Hr as [Hr|Hr]; apply elem_of_singleton in Hr as ->.
    + exists (MkReqViewChange 0 1 []). repeat split. set_solver.
    + exists (MkReqViewChange 1 1 []). repeat split. set_solver.
Defined.

(** ** Invariant of the second collector *)

(** [seen]: the messages fed so far. *)
Definition vcc_all (st : vcCollector) : NewViewCert :=
  match vcc_own st with Some own => [own] | None => [] end ++ vcc_others st.

Record vcc_inv (id n certSize : N) (seen : list ViewChange) (st : vcCollector) : Prop := {
  vcci_seen : Forall (λ vc, vc ∈ seen ∧ vc_NewView vc = vcc_view st) (vcc_all st);
  vcci_own : ∀ own, vcc_own st = Some own → vc_ReplicaID own = id;
  vcci_others : Forall (λ vc, vc_ReplicaID vc ≠ id) (vcc_others st);
  vcci_nodup : NoDup (vc_ReplicaID <$> vcc_others st) }.

(** Each replica sends at most one ViewChange for a view. *)
Definition one_per_view (l : list ViewChange) : Prop :=
  ∀ i j a b, l !! i = Some a → l !! j = Some b →
    vc_ReplicaID a = vc_ReplicaID b → vc_NewView a = vc_NewView b → i = j.

Lemma one_per_view_snoc l vc a :
  one_per_view (l ++ [vc]) → a ∈ l → vc_ReplicaID a = vc_ReplicaID vc →
  vc_NewView a ≠ vc_NewView vc.
Proof.
  intros Ho [i Hi]%list_elem_of_lookup Hr Hv.
  pose proof (lookup_lt_Some _ _ _ Hi).
  assert (i = length l); [|lia].
  apply (Ho i (length l) a vc); [by rewrite lookup_app_l| |done|done].
  by rewrite list_lookup_middle.
Qed.

Lemma vcc_inv_empty id n certSize seen v : vcc_inv id n certSize seen (MkVCC v None []).
Proof. constructor; simpl; [constructor|done|constructor|constructor]. Qed.

Lemma vcc_inv_seen id n certSize seen vc st :
  vcc_inv id n certSize seen st → vcc_inv id n certSize (seen ++ [vc]) st.
Proof.
  intros [H1 H2 H3 H4]. constructor; auto. eapply Forall_impl; [exact H1|].
  intros ? [? ?]. set_solver.
Qed.

(** Adding a message for the collector's view, own or another's. *)
Lemma vcc_inv_own id n certSize seen vc st :
  vcc_inv id n certSize seen st → vc_NewView vc = vcc_view st → vc_ReplicaID vc = id →
  vcc_inv id n certSize (seen ++ [vc]) (MkVCC (vcc_view st) (Some vc) (vcc_others st)).
Proof.
  intros Hi Hv Hid. destruct (vcc_inv_seen _ _ _ _ vc _ Hi) as [H1 H2 H3 H4].
  constructor; simpl; auto.
  - unfold vcc_all in *. simpl. apply Forall_app in H1 as [_ H1].
    constructor; [set_solver|done].
  - by intros own [= <-].
Qed.

Lemma vcc_inv_other id n certSize seen vc st :
  vcc_inv id n certSize seen st → vc_NewView vc = vcc_view st → vc_ReplicaID vc ≠ id →
  one_per_view (seen ++ [vc]) →
  vcc_inv id n certSize (seen ++ [vc]) (MkVCC (vcc_view st) (vcc_own st) (vcc_others st ++ [vc])).
Proof.
  intros Hi Hv Hid Ho.
  assert (∀ a, a ∈ vcc_others st → vc_ReplicaID a ≠ vc_ReplicaID vc) as Hnew.
  { intros a Ha Hr. destruct Hi as [H1 _ _ _]. apply Forall_app in H1 as [_ H1].
    rewrite Forall_forall in H1. destruct (H1 a Ha) as [Hs Ha'].
    apply (one_per_view_snoc _ _ _ Ho Hs Hr). congruence. }
  destruct (vcc_inv_seen _ _ _ _ vc _ Hi) as [H1 H2 H3 H4]. constructor; simpl; auto.
  - unfold vcc_all in *. simpl. rewrite app_assoc. apply Forall_app. split; [done|].
    constructor; [set_solver|done].
  - apply Forall_app. split; [done|]. by repeat constructor.
  - rewrite fmap_app. apply NoDup_app. split; [done|]. split; [|apply NoDup_singleton].
    simpl. intros r (a & -> & Ha)%list_elem_of_fmap. rewrite list_elem_of_singleton. by apply Hnew.
Qed.

(** A certificate is handed out for the view [v], and only then. *)
Definition emits (id n certSize : N) (seen : list ViewChange) (v : N) (cert : option NewViewCert) :=
  ∀ c, cert = Some c → isPrimary v id n = true ∧ nvCert_valid certSize id v c ∧
    Forall (λ x, x ∈ seen) c.

Lemma finishVC_spec id n certSize seen st v new cert st' :
  vcc_inv id n certSize seen st → vcc_view st = v → isPrimary v id n = true →
  finishVC certSize st = (new, cert, st') →
  vcc_inv id n certSize seen st' ∧ emits id n certSize seen v cert.
Proof.
  intros Hi1 Hv1 Hp. unfold finishVC.
  destruct (vcc_own st) as [own|] eqn:Eo; [|by intros [= <- <- <-]].
  case_if; intros [= <- <- <-]; [done|]. split; [apply vcc_inv_empty|].
  intros c [= <-]. split; [done|]. apply Nat.ltb_ge in E.
  destruct Hi1 as [H1 H2 H3 H4]. specialize (H2 _ Eo). unfold vcc_all in H1. rewrite Eo in H1.
  simpl in H1. split.
  - unfold nvCert_valid. split; [simpl; lia|]. split.
    { eapply Forall_impl; [exact H1|]. intros ? [_ ?]. congruence. }
    simpl. rewrite H2. split; [|set_solver]. constructor; [|done].
    intros (a & Ha & Hin)%list_elem_of_fmap. rewrite Forall_forall in H3. by apply (H3 a Hin).
  - eapply Forall_impl; [exact H1|]. by intros ? [? _].
Qed.

Lemma vcc_step id n certSize seen vc st new cert st' :
  vcc_inv id n certSize seen st → one_per_view (seen ++ [vc]) →
  collectViewChange id n certSize vc st = (new, cert, st') →
  vcc_inv id n certSize (seen ++ [vc]) st' ∧ emits id n certSize (seen ++ [vc]) (vc_NewView vc) cert.
Proof.
  intros Hi Ho. unfold collectViewChange. case_if.
  { intros [= <- <- <-]. split; [by apply vcc_inv_seen|done]. }
  set (st0 := if vcc_view st <? vc_NewView vc then _ else _).
  assert (vcc_inv id n certSize seen st0 ∧ vc_NewView vc = vcc_view st0) as [Hi0 Hv0].
  { unfold st0. case_if; nbool; simpl; [split; [apply vcc_inv_empty|done]|split; [done|lia]]. }
  clearbody st0. clear Hi E. destruct (isPrimary (vcc_view st0) id n) eqn:Ep; simpl.
  2: { intros [= <- <- <-]. split; [by apply vcc_inv_seen|done]. }
  rewrite <- Hv0 in Ep.
  destruct (N.eqb_spec (vc_ReplicaID vc) id) as [Hid|Hid].
  - apply finishVC_spec; [by apply vcc_inv_own|done|done].
  - case_if; [apply finishVC_spec; [by apply vcc_inv_other|done|done]|].
    intros [= <- <- <-]. split; [by apply vcc_inv_seen|done].
Qed.

Lemma runVC_spec id n certSize l seen st view cert :
  vcc_inv id n certSize seen st → one_per_view (seen ++ l) →
  (view, cert) ∈ (runVC id n certSize l st).1 →
  isPrimary view id n = true ∧ nvCert_valid certSize id view cert ∧ Forall (λ x, x ∈ seen ++ l) cert.
Proof.
  revert seen st. induction l as [|vc l IH]; intros seen st Hi Ho; simpl; [set_solver|].
  destruct (collectViewChange id n certSize vc st) as [[new c] st'] eqn:E.
  rewrite cons_middle, app_assoc in Ho.
  assert (one_per_view (seen ++ [vc])) as Ho1.
  { intros i j a b Hia Hjb. apply Ho; by apply lookup_app_l_Some. }
  destruct (vcc_step _ _ _ _ _ _ _ _ _ Hi Ho1 E) as [Hi' Hc].
  specialize (IH _ _ Hi' Ho). rewrite <- app_assoc in IH.
  destruct (runVC id n certSize l st') as [certs st'']; simpl in *.
  destruct c as [c|]; [|exact IH]. intros [[= -> ->]|Hin]%elem_of_cons; [|by apply IH].
  destruct (Hc c eq_refl) as (? & ? & Hall). split; [done|]. split; [done|].
  eapply Forall_impl; [exact Hall|]. set_solver.
Qed.

(** The new-view certificates a replica collects are the ones its peers
    accept.  For any sequence of ViewChange messages with at most one message
    per replica and view, a certificate is handed out only on the primary of its
    view, consists of received messages, and passes [validateNewView] when sent
    in that replica's NewView message. *)
Theorem nv_certificates_valid id n certSize l view cert ui :
  one_per_view l → 1 ≤ view →
  (view, cert) ∈ (runVC id n certSize l newVCC).1 →
  Forall (λ vc, vc ∈ l) cert ∧
  validateNewView n certSize (MkNewView id view cert ui) = OK tt.
Proof.
  intros Ho Hv Hin.
  destruct (runVC_spec id n certSize l [] newVCC view cert) as (Hp & Hvalid & Hall);
    [apply vcc_inv_empty|done|done|].
  split; [done|]. unfold validateNewView. simpl.
  destruct (N.ltb_spec view 1); [lia|]. rewrite Hp. simpl.
  apply wrapf_OK, validateNVCert_OK. done.
Qed.

Lemma nv_certificates_valid_witness :
  let a := MkViewChange 0 1 [] [] (MkUI 1 []) in
  let b := MkViewChange 1 1 [] [] (MkUI 1 []) in
  validateNewView 3 2 (MkNewView 1 1 [b; a] nilUI) = OK tt.
Proof.
  refine (proj2 (nv_certificates_valid 1 3 2
    [MkViewChange 0 1 [] [] (MkUI 1 []); MkViewChange 1 1 [] [] (MkUI 1 [])] 1
    [MkViewChange 1 1 [] [] (MkUI 1 []); MkViewChange 0 1 [] [] (MkUI 1 [])] nilUI _ _ _)).
  - intros [|[|i]] [|[|j]] a b Ha Hb; simplify_eq/=; done.
  - lia.
  - vm_compute. left.
Defined.

End Collect.
