(* ===== verification/Replica.v ===== *)
(** The replica ([src/core]): the state shared by the message handlers and the
    handlers themselves, composed the way [defaultMessageHandlers] composes
    them.

    Every closure returned by a [make...] function is a definition named as the
    variable [defaultMessageHandlers] binds it to; the variables the closures
    share or keep are the fields of [replica].  A handler runs to completion:
    the locks of the code (the view lock, the per-replica lock of
    [makePeerMessageProcessor], the lock of each collector) are what makes one
    call of [processMessage] a unit; the goroutines of the code (timers, the
    wait for a result in [executeRequest]) are separate operations. *)

From S2P Require Import Prelude Usig Messages Authen ViewState Timer ClientState.
From S2P Require Import RequestList MessageLog Quorum Commit Api Validation NewViewCert.
From S2P Require Import Collect.

Import ViewState(viewState, currentView, expectedView).
Import ClientState(clientState).
Import MessageLogM(messageLog, msgs).

(** What a timer runs when it expires: the function literals given to
    [StartRequestTimer], [StartPrepareTimer] and [Timer.Start]. *)
Inductive callback :=
| CbRequest (view : N)
| CbPrepare (request : Request) (view : N)
| CbViewChange (view : N).

(** The goroutine of [executeRequest] between [Deliver] and the Reply. *)
Record execution := MkExecution { ex_clientID : N; ex_seq : N; ex_result : bytes }.

(** The state of a replica.  [executed] is not in the code: it records the
    requests handed to the consumer, in order. *)
Record replica {Au Co : Type} := MkReplica {
  clientStates : gmap N clientState;
  views : viewState;
  pendingReqs : gmap N Request;
  preparedReqs : gmap N Request;
  log : messageLog;
  unicastLogs : gmap N messageLog;
  timers : Timer.provider callback;
  viewChangeTimer : Timer.backoff;
  requested : N;                               (* makeViewChangeRequestor *)
  commitments : Commitment.collector;          (* makeCommitmentAcceptor, ...Counter *)
  rvcCollected : Collect.rvcCollector;         (* makeReqViewChangeCollector *)
  vcCollected : Collect.vcCollector;           (* makeViewChangeCollector *)
  lastUI : list N;                             (* makeCertifiedMessageProcessor *)
  authen : Au;
  consumer : Co;
  executions : list execution;
  executed : list Request }.
Arguments replica : clear implicits.

Module Replica.
Import Quorum.

Section Handlers.
Context {Au Co : Type} `{!Authenticator Au} `{!RequestConsumer Co} `{!RangeOrder}.
Context (id : N) (cfg : Configer).

Abbreviation state := (replica Au Co).
Abbreviation n := (cfg_N cfg).
Abbreviation f := (cfg_F cfg).
Abbreviation vcCertSize := (viewChangeCertSize n f).

(** ** Field updates *)

Definition set_clientStates (x : gmap N clientState) (s : state) : state :=
  MkReplica _ _ x (views s) (pendingReqs s) (preparedReqs s) (log s) (unicastLogs s) (timers s)
    (viewChangeTimer s) (requested s) (commitments s) (rvcCollected s) (vcCollected s) (lastUI s)
    (authen s) (consumer s) (executions s) (executed s).
Definition set_views (x : viewState) (s : state) : state :=
  MkReplica _ _ (clientStates s) x (pendingReqs s) (preparedReqs s) (log s) (unicastLogs s) (timers s)
    (viewChangeTimer s) (requested s) (commitments s) (rvcCollected s) (vcCollected s) (lastUI s)
    (authen s) (consumer s) (executions s) (executed s).
Definition set_reqs (pending prepared : gmap N Request) (s : state) : state :=
  MkReplica _ _ (clientStates s) (views s) pending prepared (log s) (unicastLogs s) (timers s)
    (viewChangeTimer s) (requested s) (commitments s) (rvcCollected s) (vcCollected s) (lastUI s)
    (authen s) (consumer s) (executions s) (executed s).
Definition set_log (x : messageLog) (s : state) : state :=
  MkReplica _ _ (clientStates s) (views s) (pendingReqs s) (preparedReqs s) x (unicastLogs s) (timers s)
    (viewChangeTimer s) (requested s) (commitments s) (rvcCollected s) (vcCollected s) (lastUI s)
    (authen s) (consumer s) (executions s) (executed s).
Definition set_unicastLogs (x : gmap N messageLog) (s : state) : state :=
  MkReplica _ _ (clientStates s) (views s) (pendingReqs s) (preparedReqs s) (log s) x (timers s)
    (viewChangeTimer s) (requested s) (commitments s) (rvcCollected s) (vcCollected s) (lastUI s)
    (authen s) (consumer s) (executions s) (executed s).
Definition set_timers (x : Timer.provider callback) (s : state) : state :=
  MkReplica _ _ (clientStates s) (views s) (pendingReqs s) (preparedReqs s) (log s) (unicastLogs s) x
    (viewChangeTimer s) (requested s) (commitments s) (rvcCollected s) (vcCollected s) (lastUI s)
    (authen s) (consumer s) (executions s) (executed s).
Definition set_viewChangeTimer (x : Timer.backoff) (s : state) : state :=
  MkReplica _ _ (clientStates s) (views s) (pendingReqs s) (preparedReqs s) (log s) (unicastLogs s)
    (timers s) x (requested s) (commitments s) (rvcCollected s) (vcCollected s) (lastUI s)
    (authen s) (consumer s) (executions s) (executed s).
Definition set_requested (x : N) (s : state) : state :=
  MkReplica _ _ (clientStates s) (views s) (pendingReqs s) (preparedReqs s) (log s) (unicastLogs s)
    (timers s) (viewChangeTimer s) x (commitments s) (rvcCollected s) (vcCollected s) (lastUI s)
    (authen s) (consumer s) (executions s) (executed s).
Definition set_commitments (x : Commitment.collector) (s : state) : state :=
  MkReplica _ _ (clientStates s) (views s) (pendingReqs s) (preparedReqs s) (log s) (unicastLogs s)
    (timers s) (viewChangeTimer s) (requested s) x (rvcCollected s) (vcCollected s) (lastUI s)
    (authen s) (consumer s) (executions s) (executed s).
Definition set_rvcCollected (x : Collect.rvcCollector) (s : state) : state :=
  MkReplica _ _ (clientStates s) (views s) (pendingReqs s) (preparedReqs s) (log s) (unicastLogs s)
    (timers s) (viewChangeTimer s) (requested s) (commitments s) x (vcCollected s) (lastUI s)
    (authen s) (consumer s) (executions s) (executed s).
Definition set_vcCollected (x : Collect.vcCollector) (s : state) : state :=
  MkReplica _ _ (clientStates s) (views s) (pendingReqs s) (preparedReqs s) (log s) (unicastLogs s)
    (timers s) (viewChangeTimer s) (requested s) (commitments s) (rvcCollected s) x (lastUI s)
    (authen s) (consumer s) (executions s) (executed s).
Definition set_lastUI (x : list N) (s : state) : state :=
  MkReplica _ _ (clientStates s) (views s) (pendingReqs s) (preparedReqs s) (log s) (unicastLogs s)
    (timers s) (viewChangeTimer s) (requested s) (commitments s) (rvcCollected s) (vcCollected s) x
    (authen s) (consumer s) (executions s) (executed s).
Definition set_authen (x : Au) (s : state) : state :=
  MkReplica _ _ (clientStates s) (views s) (pendingReqs s) (preparedReqs s) (log s) (unicastLogs s)
    (timers s) (viewChangeTimer s) (requested s) (commitments s) (rvcCollected s) (vcCollected s)
    (lastUI s) x (consumer s) (executions s) (executed s).
Definition set_consumer (c : Co) (e : list execution) (x : list Request) (s : state) : state :=
  MkReplica _ _ (clientStates s) (views s) (pendingReqs s) (preparedReqs s) (log s) (unicastLogs s)
    (timers s) (viewChangeTimer s) (requested s) (commitments s) (rvcCollected s) (vcCollected s)
    (lastUI s) (authen s) c e x.

(** ** Initial state ([defaultMessageHandlers], [New] of [replica.go]) *)

(** [for peerID := uint32(0); peerID < n; peerID++]: a log for every peer. *)
Definition newUnicastLogs : gmap N messageLog :=
  list_to_map ((λ p, (p, MessageLogM.New)) <$>
    filter (λ p, p ≠ id) (N.of_nat <$> seq 0 (N.to_nat n))).

Definition newReplica (au : Au) (co : Co) : state :=
  MkReplica _ _ ∅ ViewState.New RequestList.New RequestList.New MessageLogM.New newUnicastLogs
    Timer.emptyProvider (Timer.NewBackoff (TimeoutViewChange cfg)) 0
    (Commitment.newCollector (commitCertSize n f)) Collect.newRVC Collect.newVCC
    (replicate (N.to_nat n) 0) au co [] [].

(** [func New(id, configer, stack, opts...)]: the configuration check and the
    construction of the handlers' state. *)
Definition New (au : Au) (co : Co) : outcome state :=
  if notEnoughNodes n f then Error (Errorf "not enough nodes") else OK (newReplica au co).

(** ** Access to the components *)

Definition onClient {A} (clientID : N) (g : clientState → A * clientState) : M state A :=
  zoom clientStates set_clientStates (ClientState.withClient clientID g).

(** A method of one of the client's timers, which also uses the timer provider. *)
Definition onClientTimer (clientID : N) (get : clientState → Timer.timerState)
    (put : Timer.timerState → clientState → clientState)
    (g : Timer.timerState * Timer.provider callback → Timer.timerState * Timer.provider callback) : M state unit :=
  λ s,
    let c := default ClientState.newClientState (clientStates s !! clientID) in
    let '(t, p) := g (get c, timers s) in
    (OK tt, set_timers p (set_clientStates (<[clientID := put t c]> (clientStates s)) s)).

Definition onViewChangeTimer (g : Timer.backoff * Timer.provider callback → Timer.backoff * Timer.provider callback) :
    M state unit :=
  modify (λ s, let '(b, p) := g (viewChangeTimer s, timers s) in
               set_timers p (set_viewChangeTimer b s)).

(** ** Authentication of generated messages *)

(** [GenerateMessageAuthenTag] with its error handling: both callers panic. *)
Definition generateTag (role : AuthenticationRole) (b : bytes) : M state bytes :=
  λ s, let '(o, au) := GenerateMessageAuthenTag role b (authen s) in
       (match o with Error _ => Panic "GenerateMessageAuthenTag" | _ => o end, set_authen au s).

(** [makeMessageSigner] *)
Definition signMessage (m : Message) : M state Message :=
  authenBytes ← lift (Authen.AuthenBytes m);
  sig ← generateTag ReplicaAuthen authenBytes;
  mret match m with
       | Msg_Request r => Msg_Request (req_SetSignature sig r)
       | Msg_Reply r => Msg_Reply (rep_SetSignature sig r)
       | Msg_ReqViewChange r => Msg_ReqViewChange (rvc_SetSignature sig r)
       | _ => m
       end.

(** [makeUIAssigner] *)
Definition assignUI (m : CertifiedMessage) : M state CertifiedMessage :=
  authenBytes ← lift (Authen.AuthenBytes (Msg_Certified m));
  uiBytes ← generateTag USIGAuthen authenBytes;
  ui ← lift (Usig.MustUnmarshalUI uiBytes);
  mret (cm_SetUI ui m).

(** [makeGeneratedMessageConsumer]; its argument is a ReplicaMessage, which
    Request is not. *)
Definition consumeGeneratedMessage (m : Message) : M state unit :=
  match m with
  | Msg_Reply r =>
      onClient (rep_ClientID r) (λ c, (tt, ClientState.set_reply
        (ClientState.AddReply r (ClientState.replyS c)) c))
  | Msg_Request _ => panic "Unknown message type"
  | _ => modify (λ s, set_log (MessageLogM.Append m (log s)) s)
  end.

(** [makeGeneratedMessageHandler] *)
Definition handleGeneratedMessage (m : Message) : M state unit :=
  m ← match m with
      | Msg_Certified cm => cm ← assignUI cm; mret (Msg_Certified cm)
      | Msg_Reply _ | Msg_ReqViewChange _ => signMessage m
      | _ => mret m
      end;
  consumeGeneratedMessage m.

(** ** Requests ([request.go]) *)

(** [makeRequestCapturer]; the answer [None] stands for a call that waits. *)
Definition captureReq (req : Request) : M state (option bool) :=
  r ← onClient (req_ClientID req) (λ c,
        match ClientState.CaptureRequestSeq (req_Sequence req) (ClientState.seqS c) with
        | ClientState.CaptureNew q => (Some true, ClientState.set_seq q c)
        | ClientState.CaptureNotNew => (Some false, c)
        | ClientState.CaptureWait => (None, c)
        end);
  match r with
  | Some true => modify (λ s, set_reqs (RequestList.Add req (pendingReqs s)) (preparedReqs s) s) ;; mret r
  | _ => mret r
  end.

(** The release function returned by [captureReq]. *)
Definition releaseReq (req : Request) : M state unit :=
  onClient (req_ClientID req) (λ c,
    (tt, ClientState.set_seq (ClientState.releaseSeq (ClientState.seqS c)) c)).

(** A method of the client's request identifiers that may fail; the callers of
    [PrepareRequestSeq] and [RetireRequestSeq] panic on their error. *)
Definition onSeq (clientID : N) (op : ClientState.seqState → outcome bool * ClientState.seqState) :
    M state bool :=
  o ← onClient clientID (λ c, let '(o, q) := op (ClientState.seqS c) in (o, ClientState.set_seq q c));
  match o with
  | OK new => mret new
  | Error (Errorf msg) | Error (ErrorWrap msg _) => panic msg
  | Panic p => panic p
  end.

(** [makeRequestPreparer] *)
Definition prepareReq (req : Request) : M state bool :=
  new ← onSeq (req_ClientID req) (ClientState.PrepareRequestSeq (req_Sequence req));
  if new : bool
  then modify (λ s, set_reqs (RequestList.Remove req (pendingReqs s))
                             (RequestList.Add req (preparedReqs s)) s) ;; mret true
  else mret false.

(** [makeRequestRetirer] *)
Definition retireReq (req : Request) : M state bool :=
  new ← onSeq (req_ClientID req) (ClientState.RetireRequestSeq (req_Sequence req));
  if new : bool
  then modify (λ s, set_reqs (pendingReqs s) (RequestList.Remove req (preparedReqs s)) s) ;; mret true
  else mret false.

(** [makeRequestUnpreparer] *)
Definition unprepareReqs : M state unit :=
  reqs ← gets (λ s, RequestList.All (preparedReqs s));
  forM (λ req,
    onClient (req_ClientID req) (λ c,
      (tt, ClientState.set_seq (ClientState.UnprepareRequestSeq (ClientState.seqS c)) c)) ;;
    modify (λ s, set_reqs (RequestList.Add req (pendingReqs s))
                          (RequestList.Remove req (preparedReqs s)) s)) reqs.

(** [makeRequestTimerStarter] and [makeRequestTimerStopper] *)
Definition startReqTimer (req : Request) (view : N) : M state unit :=
  onClientTimer (req_ClientID req) ClientState.requestTimer ClientState.set_requestTimer
    (Timer.Start (TimeoutRequest cfg) (req_Sequence req) (CbRequest view)).
Definition stopReqTimer (req : Request) : M state unit :=
  onClientTimer (req_ClientID req) ClientState.requestTimer ClientState.set_requestTimer
    (Timer.Stop (req_Sequence req)).

(** [makePrepareTimerStarter] and [makePrepareTimerStopper] *)
Definition startPrepTimer (req : Request) (view : N) : M state unit :=
  onClientTimer (req_ClientID req) ClientState.prepareTimer ClientState.set_prepareTimer
    (Timer.Start (TimeoutPrepare cfg) (req_Sequence req) (CbPrepare req view)).
Definition stopPrepTimer (req : Request) : M state unit :=
  onClientTimer (req_ClientID req) ClientState.prepareTimer ClientState.set_prepareTimer
    (Timer.Stop (req_Sequence req)).

(** [makeViewChangeTimerStarter], and [stopVCTimer := viewChangeTimer.Stop] *)
Definition startVCTimer (view : N) : M state unit :=
  onViewChangeTimer (Timer.StartBackoff (CbViewChange view)).
Definition stopVCTimer : M state unit := onViewChangeTimer Timer.StopBackoff.

(** [makeRequestApplier] *)
Definition applyRequest (req : Request) (view : N) : M state unit :=
  startReqTimer req view ;;
  if isPrimary view id n
  then handleGeneratedMessage (Msg_Certified (CM_Prepare (NewPrepare id view req)))
  else startPrepTimer req view.

(** [makePendingRequestApplier]; [applyRequest] returns no error. *)
Definition applyPendingRequests (view : N) : M state unit :=
  reqs ← gets (λ s, RequestList.All (pendingReqs s));
  forM (λ req, applyRequest req view) reqs.

(** [makeRequestProcessor] *)
Definition processRequest (req : Request) : M state bool :=
  '(currentView, expectedView) ← gets (λ s, ViewState.HoldView (views s));
  new ← captureReq req;
  match new with
  | None => panic "blocked"
  | Some false => mret false
  | Some true =>
      (if negb (currentView =? expectedView) then mret tt else applyRequest req currentView) ;;
      releaseReq req ;;
      mret true
  end.

(** [makeRequestExecutor], up to the start of its goroutine *)
Definition executeRequest (req : Request) : M state unit :=
  new ← retireReq req;
  if negb new then mret tt
  else
    stopReqTimer req ;;
    modify (λ s,
      let '(result, co) := Deliver (req_Operation req) (consumer s) in
      set_consumer co
        (executions s ++ [MkExecution (req_ClientID req) (req_Sequence req) result])
        (executed s ++ [req]) s).

(** The goroutine of [makeRequestExecutor], when its result is there. *)
Definition finishExecution (i : nat) : M state unit :=
  ex ← gets (λ s, executions s !! i);
  match ex with
  | None => mret tt
  | Some (MkExecution clientID seq result) =>
      modify (λ s, set_consumer (consumer s) (delete i (executions s)) (executed s) s) ;;
      handleGeneratedMessage (Msg_Reply (NewReply id clientID seq result))
  end.

(** ** Timeouts ([timeout.go]) *)

(** [makeViewChangeRequestor] *)
Definition requestViewChange (newView : N) : M state bool :=
  req ← gets requested;
  if newView <=? req then mret false
  else
    modify (set_requested newView) ;;
    '(_, expectedView) ← gets (λ s, ViewState.HoldView (views s));
    if newView <=? expectedView then mret false
    else handleGeneratedMessage (Msg_ReqViewChange (NewReqViewChange id newView)) ;; mret true.

(** [makeRequestTimeoutHandler] and [makeViewChangeTimeoutHandler] *)
Definition handleReqTimeout (view : N) : M state unit :=
  requestViewChange (u64_succ view) ;; mret tt.
Definition handleViewChangeTimeout (view : N) : M state unit :=
  requestViewChange (u64_succ view) ;; mret tt.

(** The function literal of [makePrepareTimerStarter]:
    [unicastLogs\[uint32(view%uint64(n))\].Append(request)]; the map yields nil
    for an absent key. *)
Definition handlePrepTimeout (req : Request) (view : N) : M state unit :=
  logs ← gets unicastLogs;
  match logs !! (u32 (view mod n)) with
  | None => panic "nil pointer dereference"
  | Some l => modify (set_unicastLogs (<[u32 (view mod n) := MessageLogM.Append (Msg_Request req) l]> logs))
  end.

Definition runCallback (cb : callback) : M state unit :=
  match cb with
  | CbRequest view => handleReqTimeout view
  | CbPrepare req view => handlePrepTimeout req view
  | CbViewChange view => handleViewChangeTimeout view
  end.

(** Expiration of timer [t], if it is active. *)
Definition expireTimer (t : N) : M state unit :=
  s ← get;
  match Timer.Expire t (timers s) with
  | None => mret tt
  | Some (cb, p) => modify (set_timers p) ;; runCallback cb
  end.

(** ** Commitments ([commit.go], [new-view.go]) *)

(** [makeNewViewAcceptor] *)
Definition acceptNewView (nv : NewView) : M state unit :=
  reqs ← lift (NewViewCertM.extractPreparedRequests (nv_NewViewCert nv));
  forM executeRequest reqs.

(** The view of a proposal, and whether it is a NewView. *)
Definition proposalView (prop : CertifiedMessage) : option (N * bool) :=
  match prop with
  | CM_Prepare p => Some (prep_View p, false)
  | CM_NewView nv => Some (nv_NewView nv, true)
  | _ => None
  end.

(** [makeCommitmentCollector] *)
Definition collectCommitment (m : CertifiedMessage) : M state unit :=
  match m with
  | CM_ViewChange _ => fail (Errorf "unexpected commitment message type")
  | _ =>
      let prop := NewViewCertM.proposalOf m in
      match proposalView prop with
      | None => fail (Errorf "unexpected proposal message type")
      | Some (view, isNewView) =>
          done ← zoom commitments set_commitments
            (Commitment.collect (Commitment.MkCommitment (cm_ReplicaID m) isNewView view
               (cm_Counter prop) (cm_Counter m)));
          done ← lift done;
          if negb done then mret tt
          else match prop with
               | CM_Prepare p => executeRequest (prep_Request p)
               | CM_NewView nv => acceptNewView nv
               | _ => panic "Unexpected proposal message type"
               end
      end
  end.

(** [makePrepareApplier] *)
Definition applyPrepare (p : Prepare) : M state unit :=
  new ← prepareReq (prep_Request p);
  if negb new then fail (Errorf "Request already prepared")
  else
    wrapM "Prepare cannot be taken into account" (collectCommitment (CM_Prepare p)) ;;
    if id =? prep_ReplicaID p then mret tt
    else
      stopPrepTimer (prep_Request p) ;;
      handleGeneratedMessage (Msg_Certified (CM_Commit (NewCommit id (CM_Prepare p)))).

(** [makeCommitApplier] *)
Definition applyCommit (c : Commit) : M state unit :=
  wrapM "commit cannot be taken into account" (collectCommitment (CM_Commit c)).

(** [makeNewViewApplier] *)
Definition applyNewView (nv : NewView) : M state unit :=
  reqs ← lift (NewViewCertM.extractPreparedRequests (nv_NewViewCert nv));
  forM (λ req, prepareReq req ;; mret tt) reqs ;;
  wrapM "NewView cannot be taken into account" (collectCommitment (CM_NewView nv)) ;;
  stopVCTimer ;;
  applyPendingRequests (nv_NewView nv) ;;
  if id =? nv_ReplicaID nv then mret tt
  else handleGeneratedMessage (Msg_Certified (CM_Commit (NewCommit id (CM_NewView nv)))).

(** [makePeerMessageApplier] *)
Definition applyPeerMessage (m : CertifiedMessage) : M state unit :=
  match m with
  | CM_Prepare p => applyPrepare p
  | CM_Commit c => applyCommit c
  | CM_NewView nv => applyNewView nv
  | CM_ViewChange _ => panic "Unknown message type"
  end.

(** ** View change ([req-view-change.go], [view-change.go]) *)

(** The certified messages of the log. *)
Definition certified (ms : list Message) : MessageLog :=
  omap (λ m, match m with Msg_Certified cm => Some cm | _ => None end) ms.

(** [makeViewChangeStarter] *)
Definition startViewChange (newView : N) (vcCert : ViewChangeCert) : M state bool :=
  ok ← zoom views set_views (ViewState.AdvanceExpectedView newView);
  if negb ok then mret false
  else
    ms ← gets (λ s, certified (MessageLogM.Messages (log s)));
    modify (λ s, set_log (MessageLogM.Reset [] (log s)) s) ;;
    startVCTimer newView ;;
    unprepareReqs ;;
    handleGeneratedMessage (Msg_Certified (CM_ViewChange (NewViewChange id newView ms vcCert))) ;;
    mret true.

(** [makeReqViewChangeProcessor] *)
Definition processReqViewChange (rvc : ReqViewChange) : M state bool :=
  '(new, vcCert) ← zoom rvcCollected set_rvcCollected (Collect.collectReqViewChange vcCertSize rvc);
  match vcCert with
  | None => mret new
  | Some cert => startViewChange (rvc_NewView rvc) cert
  end.

(** [makeNewViewCertProcessor] *)
Definition processNewViewCert (newView : N) (nvCert : NewViewCert) : M state unit :=
  '(_, expectedView) ← gets (λ s, ViewState.HoldView (views s));
  if negb (newView =? expectedView) then mret tt
  else
    modify (λ s, set_log (MessageLogM.Reset [] (log s)) s) ;;
    handleGeneratedMessage (Msg_Certified (CM_NewView (NewNewView id newView nvCert))).

(** [makeViewChangeProcessor] *)
Definition processViewChange (vc : ViewChange) : M state bool :=
  '(new, nvCert) ← zoom vcCollected set_vcCollected (Collect.collectViewChange id n vcCertSize vc);
  match nvCert with
  | None => mret new
  | Some cert => processNewViewCert (vc_NewView vc) cert ;; mret new
  end.

(** ** Processing ([message-handling.go]) *)

(** The end of [makeViewMessageProcessor]. *)
Definition applyInView (m : CertifiedMessage) (messageView expectedView : N) : M state bool :=
  if negb (messageView =? expectedView) then mret false
  else wrapM "failed to apply message" (applyPeerMessage m) ;; mret true.

(** [makeViewMessageProcessor] *)
Definition processViewMessage (m : CertifiedMessage) : M state bool :=
  match m with
  | CM_Prepare _ | CM_Commit _ =>
      match proposalView (NewViewCertM.proposalOf m) with
      | None => panic "Unknown proposal message type"
      | Some (messageView, _) =>
          '(currentView, expectedView) ← gets (λ s, ViewState.HoldView (views s));
          if currentView <? messageView then fail (Errorf "message refers to unexpected view")
          else applyInView m messageView expectedView
      end
  | CM_NewView nv =>
      '(ok, expectedView) ← zoom views set_views (ViewState.AdvanceCurrentView (nv_NewView nv));
      if negb ok then mret false else applyInView m (nv_NewView nv) expectedView
  | CM_ViewChange _ => panic "Unknown message type"
  end.

(** [makeCertifiedMessageProcessor] *)
Definition processCertifiedMessage (m : CertifiedMessage) : M state bool :=
  uis ← gets lastUI;
  match uis !! N.to_nat (cm_ReplicaID m) with
  | None => panic "index out of range"
  | Some last =>
      let nextUI := u64_succ last in
      if cm_Counter m <? nextUI then mret false
      else if nextUI <? cm_Counter m then fail (Errorf "unexpected UI counter value")
      else
        new ← match m with
              | CM_ViewChange vc => processViewChange vc
              | _ => processViewMessage m
              end;
        modify (λ s, set_lastUI (<[N.to_nat (cm_ReplicaID m) := nextUI]> (lastUI s)) s) ;;
        mret new
  end.

(** [makePeerMessageProcessor] ([locks\[msg.ReplicaID()\]] is a slice of [n])
    and [makeMessageProcessor] *)
Definition processMessage (m : Message) : M state bool :=
  match m with
  | Msg_Request r => processRequest r
  | Msg_Certified cm =>
      if n <=? cm_ReplicaID cm then panic "index out of range" else processCertifiedMessage cm
  | Msg_ReqViewChange rvc =>
      if n <=? rvc_ReplicaID rvc then panic "index out of range" else processReqViewChange rvc
  | Msg_Hello _ | Msg_Reply _ => panic "Unknown message type"
  end.

(** [makeEmbeddedMessageHandler(handle)] *)
Definition handleEmbedded (handle : Message → M state bool) (m : Message) : M state unit :=
  let handleOne m := wrapM "error handling" (handle m) ;; mret tt in
  match m with
  | Msg_Request _ | Msg_ReqViewChange _ => mret tt
  | Msg_Certified (CM_Prepare p) => handleOne (Msg_Request (prep_Request p))
  | Msg_Certified (CM_Commit c) => handleOne (Msg_Certified (comm_Proposal c))
  | Msg_Certified (CM_ViewChange vc) =>
      forM (λ r, handleOne (Msg_ReqViewChange r)) (vc_ViewChangeCert vc) ;;
      forM (λ m, handleOne (Msg_Certified m)) (vc_MessageLog vc)
  | Msg_Certified (CM_NewView nv) =>
      forM (λ vc, handleOne (Msg_Certified (CM_ViewChange vc))) (nv_NewViewCert nv)
  | Msg_Hello _ | Msg_Reply _ => panic "Unknown message type"
  end.

(** [makeOwnMessageHandler] *)
Fixpoint handleOwn (fuel : nat) (m : Message) : M state bool :=
  match fuel with
  | O => panic "fuel"
  | S fuel =>
      wrapM "error handling embedded messages" (handleEmbedded (handleOwn fuel) m) ;;
      wrapM "error processing message" (processMessage m)
  end.

(** [makePeerMessageHandler] *)
Fixpoint handlePeer (fuel : nat) (m : Message) : M state bool :=
  match fuel with
  | O => panic "fuel"
  | S fuel =>
      lift (wrapf "validation failed" (Validation.validateMessage (Au := Au) n vcCertSize m)) ;;
      wrapM "error handling embedded messages" (handleEmbedded (handlePeer fuel) m) ;;
      wrapM "error processing message" (processMessage m)
  end.

(** The nesting depth of the message is enough fuel. *)
Definition handleOwnMessage (m : Message) : M state bool := handleOwn (msg_depth m) m.
Definition handlePeerMessage (m : Message) : M state bool := handlePeer (msg_depth m) m.

(** [handleOwnPeerMessages]: an error in handling an own message is a panic. *)
Definition handleOwnStreamed (m : Message) : M state bool :=
  λ s, match handleOwnMessage m s with
       | (Error _, s') => (Panic "error handling own message", s')
       | r => r
       end.

(** [makeClientMessageHandler], up to the wait for the Reply *)
Definition handleClientMessage (m : Message) : M state bool :=
  match m with
  | Msg_Request req =>
      lift (wrapf "invalid Request" (Validation.validateRequest (Au := Au) req)) ;;
      wrapM "error processing Request" (processRequest req)
  | _ => fail (Errorf "unexpected message type")
  end.

(** [makeRequestReplier]: what the channel of the client handler yields next. *)
Definition replyRequest (req : Request) (s : state) : outcome ClientState.replyPoll :=
  ClientState.ReplyChannel (req_Sequence req)
    (ClientState.replyS (default ClientState.newClientState (clientStates s !! req_ClientID req))).

(** [makeHelloHandler]: the streams served to a peer that says Hello, the
    broadcast log and, when there is one, the peer's unicast log. *)
Definition handleHelloMessage (m : Message) (s : state) :
    outcome (MessageLogM.stream * option MessageLogM.stream) :=
  match m with
  | Msg_Hello peerID =>
      if (n <=? peerID) || (peerID =? id) then Error (Errorf "unexpected peer ID")
      else OK (MessageLogM.Stream (log s), MessageLogM.Stream <$> unicastLogs s !! peerID)
  | _ => Error (Errorf "unexpected message type")
  end.

(** The goroutine of [defaultMessageHandlers] that runs when the replica is
    stopped: [StopAllTimers] of every client and the view-change timer. *)
Definition stopAllTimers : M state unit :=
  cs ← gets (λ s, ClientState.Clients (clientStates s));
  forM (λ c,
    onClientTimer c ClientState.requestTimer ClientState.set_requestTimer Timer.StopAny ;;
    onClientTimer c ClientState.prepareTimer ClientState.set_prepareTimer Timer.StopAny) cs ;;
  stopVCTimer.
End Handlers.
End Replica.
