(* ===== verification/Handling.v ===== *)
(** The recursion of message handling ([makeOwnMessageHandler],
    [makePeerMessageHandler] and [makeEmbeddedMessageHandler],
    [src/core/message-handling.go]) over embedded messages, and the handling of
    a message as a sequence of atomic steps.

    - [handle_fuel]: the fuel of the two handlers does not matter;
    - [step]: what can happen to a replica, one call of [processMessage], one
      timer or one finished execution at a time;
    - [handling_is_steps]: the handlers are made of such steps, so that what
      holds of every reachable state of [step] holds whatever the interleaving of
      the goroutines that handle messages. *)

From S2P Require Import Prelude Messages RequestList MessageLog Quorum Api Validation.
From S2P Require Import Replica.

Module Handling.
Import Replica Quorum.

(** The messages embedded directly in a message, in handling order. *)
Definition embedded (m : Message) : list Message :=
  match m with
  | Msg_Certified (CM_Prepare p) => [Msg_Request (prep_Request p)]
  | Msg_Certified (CM_Commit c) => [Msg_Certified (comm_Proposal c)]
  | Msg_Certified (CM_ViewChange vc) =>
      map Msg_ReqViewChange (vc_ViewChangeCert vc) ++ map Msg_Certified (vc_MessageLog vc)
  | Msg_Certified (CM_NewView nv) => map (Msg_Certified ∘ CM_ViewChange) (nv_NewViewCert nv)
  | _ => []
  end.

Lemma embedded_depth m m' : m' ∈ embedded m → (msg_depth m' < msg_depth m)%nat.
Proof.
  destruct m as [r|r|r|r|[p|[r prop ui]|[r v log cert ui]|[r v cert ui]]];
    simpl; try (by intros H%elem_of_nil).
  - rewrite list_elem_of_singleton. intros ->. simpl. lia.
  - rewrite list_elem_of_singleton. intros ->. simpl. lia.
  - intros [H|H]%elem_of_app; apply list_elem_of_fmap in H as (x & -> & Hx); simpl; [lia|].
    apply (list_max_map_le cm_depth) in Hx. lia.
  - intros (x & -> & Hx)%list_elem_of_fmap. simpl. apply (list_max_map_le vc_depth) in Hx. lia.
Qed.

Lemma msg_depth_pos m : (0 < msg_depth m)%nat.
Proof. destruct m as [| | | |m]; simpl; try lia. apply cm_depth_pos. Qed.

Section Recursion.
Context {Au Co : Type} `{!Authenticator Au} `{!RequestConsumer Co} `{!RangeOrder}.
Context (id : N) (cfg : Configer).
Abbreviation state := (replica Au Co).

(** Programs that agree on every state. *)
Definition meq {A} (m1 m2 : M state A) : Prop := ∀ s, m1 s = m2 s.

Lemma meq_bind {A B} (m1 m2 : M state A) (k1 k2 : A → M state B) :
  meq m1 m2 → (∀ a, meq (k1 a) (k2 a)) → meq (m1 ≫= k1) (m2 ≫= k2).
Proof.
  intros Hm Hk s. unfold mbind, M_bind. rewrite (Hm s).
  destruct (m2 s) as [[a|e|p] s']; [apply Hk|done|done].
Qed.

Lemma meq_wrapM {A} msg (m1 m2 : M state A) : meq m1 m2 → meq (wrapM msg m1) (wrapM msg m2).
Proof. intros Hm s. unfold wrapM. by rewrite (Hm s). Qed.

Lemma meq_refl {A} (m : M state A) : meq m m.
Proof. by intros s. Qed.

Lemma meq_forM {A} (g1 g2 : A → M state unit) l :
  (∀ x, x ∈ l → meq (g1 x) (g2 x)) → meq (forM g1 l) (forM g2 l).
Proof.
  induction l as [|x l IH]; intros Hg; simpl; [apply meq_refl|].
  apply meq_bind; [apply Hg; set_solver|]. intros _. apply IH. set_solver.
Qed.

(** Handling the embedded messages is a loop over [embedded]. *)
Definition handleOne (handle : Message → M state bool) (m : Message) : M state unit :=
  wrapM "error handling" (handle m) ;; mret tt.

Lemma forM_map {A B} (g : A → B) (h : B → M state unit) l :
  forM h (map g l) = forM (λ x, h (g x)) l.
Proof. induction l as [|x l IH]; simpl; [done|]. by rewrite IH. Qed.

Lemma forM_app {A} (g : A → M state unit) l1 l2 :
  meq (forM g (l1 ++ l2)) (forM g l1 ;; forM g l2).
Proof.
  induction l1 as [|x l1 IH]; intros s; [done|]. cbn [app forM].
  unfold mbind, M_bind in *. destruct (g x s) as [[[]|e|p] s']; [|done|done].
  rewrite (IH s'). done.
Qed.

Lemma forM_single {A} (g : A → M state unit) x : meq (forM g [x]) (g x).
Proof.
  intros s. cbn [forM]. unfold mbind, M_bind, mret, M_ret.
  by destruct (g x s) as [[[]|e|p] s'].
Qed.

Definition has_handler (m : Message) : bool :=
  match m with Msg_Hello _ | Msg_Reply _ => false | _ => true end.

Lemma handleEmbedded_loop handle m :
  has_handler m → meq (handleEmbedded handle m) (forM (handleOne handle) (embedded m)).
Proof.
  intros Hh s. destruct m as [r|r|r|r|[p|c|vc|nv]]; try done; unfold handleEmbedded, embedded.
  - by rewrite (forM_single _ _ s).
  - by rewrite (forM_single _ _ s).
  - rewrite (forM_app _ _ _ s), !forM_map. done.
  - by rewrite forM_map.
Qed.

Lemma handleEmbedded_ext h1 h2 m :
  (∀ m', m' ∈ embedded m → meq (h1 m') (h2 m')) →
  meq (handleEmbedded h1 m) (handleEmbedded h2 m).
Proof.
  intros Hh s. destruct (has_handler m) eqn:E; [|by destruct m].
  rewrite !handleEmbedded_loop by (by rewrite E). apply meq_forM. intros m' Hm'.
  apply meq_bind; [|by intros; apply meq_refl]. by apply meq_wrapM, Hh.
Qed.

Lemma handlePeer_fuel f1 f2 m :
  (msg_depth m ≤ f1)%nat → (msg_depth m ≤ f2)%nat →
  meq (handlePeer id cfg f1 m) (handlePeer id cfg f2 m).
Proof.
  revert f2 m. induction f1 as [|f1 IH]; intros f2 m H1 H2.
  { pose proof (msg_depth_pos m). lia. }
  destruct f2 as [|f2].
  { pose proof (msg_depth_pos m). lia. }
  cbn [handlePeer]. apply meq_bind; [apply meq_refl|intros _].
  apply meq_bind; [|intros _; apply meq_refl]. apply meq_wrapM, handleEmbedded_ext.
  intros m' Hm'%embedded_depth. apply IH; lia.
Qed.

Lemma handleOwn_fuel f1 f2 m :
  (msg_depth m ≤ f1)%nat → (msg_depth m ≤ f2)%nat →
  meq (handleOwn id cfg f1 m) (handleOwn id cfg f2 m).
Proof.
  revert f2 m. induction f1 as [|f1 IH]; intros f2 m H1 H2.
  { pose proof (msg_depth_pos m). lia. }
  destruct f2 as [|f2].
  { pose proof (msg_depth_pos m). lia. }
  cbn [handleOwn]. apply meq_bind; [|intros _; apply meq_refl]. apply meq_wrapM, handleEmbedded_ext.
  intros m' Hm'%embedded_depth. apply IH; lia.
Qed.

(** The equations of the code, without fuel. *)
Lemma handlePeerMessage_eq m :
  meq (handlePeerMessage id cfg m)
    (lift (wrapf "validation failed"
        (Validation.validateMessage (Au := Au) (cfg_N cfg) (viewChangeCertSize (cfg_N cfg) (cfg_F cfg)) m)) ;;
     wrapM "error handling embedded messages" (handleEmbedded (handlePeerMessage id cfg) m) ;;
     wrapM "error processing message" (processMessage id cfg m)).
Proof.
  unfold handlePeerMessage at 1. destruct (msg_depth m) as [|d] eqn:Ed.
  { pose proof (msg_depth_pos m). lia. }
  cbn [handlePeer]. apply meq_bind; [apply meq_refl|intros _].
  apply meq_bind; [|intros _; apply meq_refl]. apply meq_wrapM, handleEmbedded_ext.
  intros m' Hm'%embedded_depth. apply handlePeer_fuel; lia.
Qed.

Lemma handleOwnMessage_eq m :
  meq (handleOwnMessage id cfg m)
    (wrapM "error handling embedded messages" (handleEmbedded (handleOwnMessage id cfg) m) ;;
     wrapM "error processing message" (processMessage id cfg m)).
Proof.
  unfold handleOwnMessage at 1. destruct (msg_depth m) as [|d] eqn:Ed.
  { pose proof (msg_depth_pos m). lia. }
  cbn [handleOwn]. apply meq_bind; [|intros _; apply meq_refl]. apply meq_wrapM, handleEmbedded_ext.
  intros m' Hm'%embedded_depth. apply handleOwn_fuel; lia.
Qed.

(** Induction over embedded messages. *)
Lemma message_ind (P : Message → Prop) :
  (∀ m, (∀ m', m' ∈ embedded m → P m') → P m) → ∀ m, P m.
Proof.
  intros Hstep m. remember (msg_depth m) as d eqn:Ed. revert m Ed.
  induction (lt_wf d) as [d _ IH]. intros m ->. apply Hstep.
  intros m' Hm'%embedded_depth. by eapply IH.
Qed.

(** ** Steps *)

(** What a goroutine of the replica does at a time. *)
Inductive action :=
| Process (m : Message)      (* processMessage, from a peer or client handler, or the own stream *)
| Expire (t : N)             (* a timer expires *)
| Finish (i : nat).          (* the result of an execution arrives *)

Definition perform (a : action) : M state unit :=
  match a with
  | Process m => processMessage id cfg m ;; mret tt
  | Expire t => expireTimer id cfg t
  | Finish i => finishExecution id i
  end.

(** A step that does not panic. *)
Inductive step : state → state → Prop :=
| step_perform a s s' o : perform a s = (o, s') → isPanic o = false → step s s'.

(** Reachable from a new replica. *)
Definition reachable (au : Au) (co : Co) (s : state) : Prop :=
  rtc step (newReplica id cfg au co) s.

Lemma reachable_inv (I : state → Prop) au co s :
  I (newReplica id cfg au co) →
  (∀ a s, I s → I (perform a s).2) →
  reachable au co s → I s.
Proof.
  intros H0 Hstep Hr. eapply (rtc_ind_r I); [exact H0| |exact Hr].
  intros s1 s2 _ [a s3 s4 o Hp _] Hi. specialize (Hstep a s3 Hi). by rewrite Hp in Hstep.
Qed.

Lemma process_step m s b s' :
  processMessage id cfg m s = (b, s') → isPanic b = false → step s s'.
Proof.
  intros Hp Hb.
  apply (step_perform (Process m) s s' (match b with OK _ => OK tt | Error e => Error e | Panic p => Panic p end)).
  - simpl. unfold mbind, M_bind. rewrite Hp. by destruct b.
  - by destruct b.
Qed.

(** [steps m]: unless it panics, [m] is a sequence of steps. *)
Definition steps {A} (m : M state A) : Prop :=
  ∀ s o s', m s = (o, s') → isPanic o = false → rtc step s s'.

Lemma steps_bind {A B} (m : M state A) (k : A → M state B) :
  steps m → (∀ a, steps (k a)) → steps (m ≫= k).
Proof.
  intros Hm Hk s o s'. unfold mbind, M_bind. destruct (m s) as [[a|e|p] s1] eqn:E.
  - intros Hr Ho. etrans; [by eapply Hm|]. by eapply Hk.
  - intros [= <- <-] _. by eapply Hm.
  - by intros [= <- <-].
Qed.

Lemma steps_wrapM {A} msg (m : M state A) : steps m → steps (wrapM msg m).
Proof.
  intros Hm s o s'. unfold wrapM. destruct (m s) as [o1 s1] eqn:E.
  intros [= <- <-]. rewrite wrapf_isPanic. by apply Hm.
Qed.

Lemma steps_lift {A} (o : outcome A) : steps (lift o).
Proof. intros s o' s' [= <- <-] _. reflexivity. Qed.

Lemma steps_ret {A} (a : A) : steps (mret a).
Proof. intros s o' s' [= <- <-] _. reflexivity. Qed.

Lemma steps_forM {A} (g : A → M state unit) l : (∀ x, x ∈ l → steps (g x)) → steps (forM g l).
Proof.
  induction l as [|x l IH]; intros Hg; simpl; [apply steps_ret|].
  apply steps_bind; [apply Hg; set_solver|]. intros _. apply IH. set_solver.
Qed.

Lemma steps_process m : steps (processMessage id cfg m).
Proof. intros s o s' Hp Ho. apply rtc_once. by eapply process_step. Qed.

Lemma steps_embedded handle m :
  (∀ m', m' ∈ embedded m → steps (handle m')) → steps (handleEmbedded handle m).
Proof.
  intros Hh s o s'. destruct (has_handler m) eqn:E; [|by destruct m; try done; intros [= <- <-]].
  rewrite handleEmbedded_loop by (by rewrite E). apply steps_forM. intros m' Hm'.
  apply steps_bind; [by apply steps_wrapM, Hh|]. intros. apply steps_ret.
Qed.

Lemma steps_peer m : steps (handlePeerMessage id cfg m).
Proof.
  induction m as [m IH] using message_ind. intros s o s'. rewrite handlePeerMessage_eq.
  revert s o s'. change (steps (lift (wrapf "validation failed"
        (Validation.validateMessage (Au := Au) (cfg_N cfg) (viewChangeCertSize (cfg_N cfg) (cfg_F cfg)) m)) ;;
     wrapM "error handling embedded messages" (handleEmbedded (handlePeerMessage id cfg) m) ;;
     wrapM "error processing message" (processMessage id cfg m))).
  apply steps_bind; [apply steps_lift|intros _].
  apply steps_bind; [by apply steps_wrapM, steps_embedded|intros _].
  apply steps_wrapM, steps_process.
Qed.

Lemma steps_own m : steps (handleOwnMessage id cfg m).
Proof.
  induction m as [m IH] using message_ind. intros s o s'. rewrite handleOwnMessage_eq.
  revert s o s'.
  change (steps (wrapM "error handling embedded messages" (handleEmbedded (handleOwnMessage id cfg) m) ;;
     wrapM "error processing message" (processMessage id cfg m))).
  apply steps_bind; [by apply steps_wrapM, steps_embedded|intros _].
  apply steps_wrapM, steps_process.
Qed.

Lemma steps_client m : steps (handleClientMessage id cfg m).
Proof.
  destruct m as [r|req|r|r|cm]; simpl; try (intros s o s' [= <- <-] _; reflexivity).
  apply steps_bind; [apply steps_lift|intros _]. apply steps_wrapM. apply (steps_process (Msg_Request req)).
Qed.
End Recursion.

(** ** Concrete runs *)

(** Three replicas, one of which may be faulty; this is replica 1, a backup in
    view 0. *)
Definition cfg3 : Configer := MkConfig 3 1 1000 500 2000.
Definition req9 : Request := MkRequest 9 1 [] [].
Definition prepare9 : CertifiedMessage := CM_Prepare (MkPrepare 0 0 req9 (MkUI 1 [])).
Definition backup : replica N (list bytes) := newReplica 1 cfg3 0 [].

Abbreviation runPeer := (@handlePeerMessage N (list bytes) plainAuthen recordingConsumer keyOrder 1 cfg3).
Abbreviation runClient := (@handleClientMessage N (list bytes) plainAuthen 1 cfg3).
Abbreviation runOwn := (@handleOwnMessage N (list bytes) plainAuthen recordingConsumer keyOrder 1 cfg3).


(** The backup handles the primary's Prepare, generating its Commit, ... *)
Definition afterPrepare : replica N (list bytes) := (runPeer (Msg_Certified prepare9) backup).2.
(** ... and then its own Commit, with which the request is executed. *)
Definition afterCommit : replica N (list bytes) :=
  (runOwn (Msg_Certified (CM_Commit (MkCommit 1 prepare9 (MkUI 1 [])))) afterPrepare).2.

Example normal_case :
  log afterPrepare = MessageLogM.MkLog
    [Msg_Certified (CM_Commit (MkCommit 1 prepare9 (MkUI 1 [])))] 1 0 ∧
  executed afterPrepare = [] ∧ executed afterCommit = [req9] ∧ lastUI afterCommit = [1; 1; 0].
Proof. vm_compute. done. Qed.

(** The recursion of message handling over embedded messages terminates: the
    nesting depth of a message is enough fuel for both handlers, and any greater
    fuel gives the same outcome and the same state. *)
Theorem handle_fuel {Au Co} `{!Authenticator Au} `{!RequestConsumer Co} `{!RangeOrder}
    (id : N) (cfg : Configer) (m : Message) (fuel : nat) (s : replica Au Co) :
  (msg_depth m ≤ fuel)%nat →
  handlePeer id cfg fuel m s = handlePeerMessage id cfg m s ∧
  handleOwn id cfg fuel m s = handleOwnMessage id cfg m s.
Proof.
  intros Hf. split; [apply (handlePeer_fuel id cfg)|apply (handleOwn_fuel id cfg)]; done.
Qed.

Lemma handle_fuel_witness :
  handlePeer (H := keyOrder) (Authenticator0 := plainAuthen) (RequestConsumer0 := recordingConsumer)
    1 cfg3 5 (Msg_Certified prepare9) backup =
  runPeer (Msg_Certified prepare9) backup.
Proof.
  apply (@handle_fuel N (list bytes) plainAuthen recordingConsumer keyOrder 1 cfg3). vm_compute. lia.
Defined.

(** Handling a message is a sequence of atomic steps.  Unless it panics, the
    handling of a peer's, a client's or an own message, with all messages
    embedded in it and whether it succeeds or fails on the way, goes through
    calls of [processMessage] only; so a property of all states reachable by
    [step], in which the calls made by concurrent handlers may interleave
    arbitrarily, holds before, between and after them. *)
Theorem handling_is_steps {Au Co} `{!Authenticator Au} `{!RequestConsumer Co} `{!RangeOrder}
    (id : N) (cfg : Configer) (m : Message) (s s1 s2 s3 : replica Au Co) o1 o2 o3 :
  handlePeerMessage id cfg m s = (o1, s1) → handleOwnMessage id cfg m s = (o2, s2) →
  handleClientMessage id cfg m s = (o3, s3) →
  (isPanic o1 = false → rtc (step id cfg) s s1) ∧
  (isPanic o2 = false → rtc (step id cfg) s s2) ∧
  (isPanic o3 = false → rtc (step id cfg) s s3).
Proof.
  intros H1 H2 H3. split_and!; intros Ho.
  - by eapply steps_peer.
  - by eapply steps_own.
  - by eapply steps_client.
Qed.

Lemma handling_is_steps_witness :
  rtc (@step N (list bytes) plainAuthen recordingConsumer keyOrder 1 cfg3) backup afterPrepare.
Proof.
  refine (proj1 (@handling_is_steps N (list bytes) plainAuthen recordingConsumer keyOrder 1 cfg3
    (Msg_Certified prepare9) backup afterPrepare
    (runOwn (Msg_Certified prepare9) backup).2 (runClient (Msg_Certified prepare9) backup).2
    (OK true) (runOwn (Msg_Certified prepare9) backup).1 (runClient (Msg_Certified prepare9) backup).1
    _ _ _) _); [vm_compute; reflexivity..].
Defined.

End Handling.
