(* ===== verification/Preservation.v ===== *)
(** Relations preserved by everything a replica does.

    [Preserves R] lists the operations out of which the handlers are composed;
    [perform_rel] shows that a relation between states that holds across each
    of them holds across every step of the replica.  An invariant is then
    proved by an instance: one lemma per operation that touches the fields the
    invariant is about, and [mrel] for the others. *)

From S2P Require Import Prelude Messages ViewState Timer ClientState RequestList.
From S2P Require Import MessageLog Quorum Commit Api Validation NewViewCert Collect.
From S2P Require Import Replica Handling.

Import ViewState(viewState, currentView, expectedView).
Import ClientState(clientState).

Module Preservation.
Import Replica Handling Quorum.

(** ** Operations on clients, requests and timers

    [local]: everything but the client states, the request lists, the timers and the
    consumer is as before. *)
Section Local.
Context {Au Co : Type} `{!Authenticator Au} `{!RequestConsumer Co} `{!RangeOrder}.
Context (id : N) (cfg : Configer).
Abbreviation state := (replica Au Co).

Definition local (s s' : state) : Prop :=
  (log s = log s' ∧ unicastLogs s = unicastLogs s' ∧ views s = views s' ∧ authen s = authen s' ∧
   requested s = requested s') ∧
  commitments s = commitments s' ∧ rvcCollected s = rvcCollected s' ∧
  vcCollected s = vcCollected s' ∧ lastUI s = lastUI s'.

#[global] Instance local_preorder : PreOrder local.
Proof.
  split; unfold local; [done|].
  intros ??? ((?&?&?&?&?)&?&?&?&?) ((?&?&?&?&?)&?&?&?&?). split_and!; congruence.
Qed.

Lemma onClient_local {A} c (g : clientState → A * clientState) : rel local (onClient c g).
Proof. apply rel_zoom. by intros. Qed.
Lemma onClientTimer_local c get put g : rel local (onClientTimer c get put g).
Proof. intros s. unfold onClientTimer. by destruct (g _). Qed.
Lemma onViewChangeTimer_local g : rel local (onViewChangeTimer g).
Proof. apply rel_modify. intros s. by destruct (g _). Qed.
Lemma set_reqs_local g h : rel local (modify (λ s : state, set_reqs (g s) (h s) s)).
Proof. by apply rel_modify. Qed.
Hint Resolve @onClient_local onClientTimer_local onViewChangeTimer_local set_reqs_local : mrel.

Lemma onSeq_local c op : rel local (onSeq c op).
Proof. unfold onSeq. auto 6 with mrel. Qed.
Hint Resolve onSeq_local : mrel.

Lemma captureReq_local req : rel local (captureReq req).
Proof. unfold captureReq. auto 6 with mrel. Qed.
Lemma releaseReq_local req : rel local (releaseReq req).
Proof. unfold releaseReq. auto with mrel. Qed.
Lemma prepareReq_local req : rel local (prepareReq req).
Proof. unfold prepareReq. auto 6 with mrel. Qed.
Lemma unprepareReqs_local : rel local unprepareReqs.
Proof. unfold unprepareReqs. auto 6 with mrel. Qed.
Lemma startReqTimer_local req v : rel local (startReqTimer cfg req v).
Proof. unfold startReqTimer. auto with mrel. Qed.
Lemma stopReqTimer_local req : rel local (stopReqTimer req).
Proof. unfold stopReqTimer. auto with mrel. Qed.
Lemma startPrepTimer_local req v : rel local (startPrepTimer cfg req v).
Proof. unfold startPrepTimer. auto with mrel. Qed.
Lemma stopPrepTimer_local req : rel local (stopPrepTimer req).
Proof. unfold stopPrepTimer. auto with mrel. Qed.
Lemma startVCTimer_local v : rel local (startVCTimer v).
Proof. unfold startVCTimer. auto with mrel. Qed.
Lemma stopVCTimer_local : rel local stopVCTimer.
Proof. unfold stopVCTimer. auto with mrel. Qed.

Lemma executeRequest_local req : rel local (executeRequest req).
Proof.
  unfold executeRequest, retireReq, stopReqTimer.
  apply rel_bind; [apply _|auto 6 with mrel|intros new]. case_if; [auto with mrel|].
  apply rel_bind; [apply _|auto with mrel|intros _].
  apply rel_modify. intros s. by destruct (Deliver _ _).
Qed.
End Local.

#[export] Hint Resolve @captureReq_local @releaseReq_local @prepareReq_local @unprepareReqs_local
  @startReqTimer_local @stopReqTimer_local @startPrepTimer_local @stopPrepTimer_local
  @startVCTimer_local @stopVCTimer_local @executeRequest_local @onClient_local : mrel.

Section Preserves.
Context {Au Co : Type} `{!Authenticator Au} `{!RequestConsumer Co} `{!RangeOrder}.
Context (id : N) (cfg : Configer).
Abbreviation state := (replica Au Co).
Abbreviation n := (cfg_N cfg).
Abbreviation vcCertSize := (viewChangeCertSize (cfg_N cfg) (cfg_F cfg)).

(** The messages a replica generates while it processes others, ViewChange and
    NewView apart. *)
Definition gen_ok (m : Message) : Prop :=
  match m with
  | Msg_Certified (CM_Prepare p) =>
      prep_ReplicaID p = id ∧ isPrimary (prep_View p) id n = true
  | Msg_Certified (CM_Commit c) =>
      comm_ReplicaID c = id ∧ id ≠ cm_ReplicaID (comm_Proposal c) ∧
      Validation.proposal_ok (comm_Proposal c) = true
  | Msg_ReqViewChange r => rvc_ReplicaID r = id ∧ 1 ≤ rvc_NewView r
  | Msg_Reply r => rep_ReplicaID r = id
  | _ => False
  end.

(** Replies are only generated when an execution finishes ([pr_finish]). *)
Definition isReply (m : Message) : bool := match m with Msg_Reply _ => true | _ => false end.

(** *** Processing a request, from its parts *)
Section Parts.
Context (R : state → state → Prop) `{!PreOrder R}.
Context (Hgen : ∀ req v, isPrimary v id n = true →
  rel R (handleGeneratedMessage (Msg_Certified (CM_Prepare (NewPrepare id v req))))).
Context (Hreq : ∀ req v, rel R (startReqTimer cfg req v)).
Context (Hprep : ∀ req v, isPrimary v id n = false → rel R (startPrepTimer cfg req v)).

Lemma applyRequest_parts req v : rel R (applyRequest id cfg req v).
Proof.
  unfold applyRequest. apply rel_bind; [apply _|auto with mrel|intros _].
  destruct (isPrimary v id n) eqn:Ep; auto.
Qed.

Lemma processRequest_parts req :
  rel R (captureReq req) → rel R (releaseReq req) → rel R (processRequest id cfg req).
Proof. intros Hc Hr. pose proof applyRequest_parts. unfold processRequest. auto 10 with mrel. Qed.
End Parts.

(** What handling messages and timeouts is composed of. *)
Class Handles (R : state → state → Prop) := {
  pr_preorder :: PreOrder R;
  pr_generated : ∀ m, gen_ok m → isReply m = false → rel R (handleGeneratedMessage m);
  pr_startReqTimer : ∀ req v, rel R (startReqTimer cfg req v);
  pr_stopReqTimer : ∀ req, rel R (stopReqTimer req);
  pr_startPrepTimer : ∀ req v, isPrimary v id n = false → rel R (startPrepTimer cfg req v);
  pr_stopPrepTimer : ∀ req, rel R (stopPrepTimer req);
  pr_stopVCTimer : rel R stopVCTimer;
  pr_request : ∀ req, rel R (processRequest id cfg req);
  pr_prepare : ∀ req, rel R (prepareReq req);
  pr_execute : ∀ req, rel R (executeRequest req);
  pr_collect : ∀ c, rel R (zoom commitments set_commitments (Commitment.collect c));
  pr_reqViewChange : ∀ rvc, rel R (processReqViewChange id cfg rvc);
  pr_vcCollected : ∀ x s, R s (set_vcCollected x s);
  pr_newViewCert : ∀ v cert, isPrimary v id n = true → rel R (processNewViewCert id v cert);
  pr_currentView : ∀ v, rel R (zoom views set_views (ViewState.AdvanceCurrentView v));
  pr_requested : ∀ v s, R s (set_requested v s);
  pr_expire : ∀ t s cb p, Timer.Expire t (timers s) = Some (cb, p) → R s (set_timers p s);
  pr_prepTimeout : ∀ req v, rel R (handlePrepTimeout cfg req v) }.

(** The end of an execution as well. *)
Class Preserves (R : state → state → Prop) := {
  pr_handles :: Handles R;
  pr_finish : ∀ i, rel R (finishExecution id i) }.

Section Handles.
Context (R : state → state → Prop) `{!Handles R}.

Hint Resolve pr_startReqTimer pr_stopReqTimer pr_startPrepTimer pr_stopPrepTimer pr_stopVCTimer
  pr_request pr_prepare pr_execute pr_collect pr_reqViewChange pr_newViewCert
  pr_currentView pr_prepTimeout : mrel.

Lemma applyRequest_rel req v : rel R (applyRequest id cfg req v).
Proof.
  apply applyRequest_parts; [apply _|..]; intros; auto with mrel. by apply pr_generated.
Qed.
Hint Resolve applyRequest_rel : mrel.

Lemma requestViewChange_rel v : rel R (requestViewChange id v).
Proof.
  unfold requestViewChange. apply rel_bind; [apply _|auto with mrel|intros r].
  case_if; [auto with mrel|nbool].
  apply rel_bind; [apply _|apply rel_modify, pr_requested|intros _].
  apply rel_bind; [apply _|auto with mrel|intros [? e]]. case_if; [auto with mrel|nbool].
  apply rel_bind; [apply _|apply pr_generated; simpl; split; [done|lia]|]. auto with mrel.
Qed.
Hint Resolve requestViewChange_rel : mrel.

Lemma expireTimer_rel t : rel R (expireTimer id cfg t).
Proof.
  intros s. unfold expireTimer, mbind, M_bind, get. cbn.
  destruct (Timer.Expire t (timers s)) as [[cb p]|] eqn:E; [|simpl; reflexivity]. cbn.
  etrans; [by eapply pr_expire|].
  assert (rel R (runCallback id cfg cb)) as H'; [|apply H'].
  destruct cb; simpl; [unfold handleReqTimeout|auto with mrel|unfold handleViewChangeTimeout]; auto with mrel.
Qed.

Lemma acceptNewView_rel nv : rel R (acceptNewView nv).
Proof. unfold acceptNewView. auto with mrel. Qed.
Hint Resolve acceptNewView_rel : mrel.

Lemma collectCommitment_rel m : rel R (collectCommitment m).
Proof. unfold collectCommitment. destruct m; auto 10 with mrel. Qed.
Hint Resolve collectCommitment_rel : mrel.

Lemma applyPrepare_rel p : rel R (applyPrepare id p).
Proof.
  unfold applyPrepare. apply rel_bind; [apply _|auto with mrel|intros new].
  destruct (negb new); [auto with mrel|].
  apply rel_bind; [apply _|auto with mrel|intros _].
  destruct (N.eqb_spec id (prep_ReplicaID p)); [auto with mrel|].
  apply rel_bind; [apply _|auto with mrel|intros _]. by apply pr_generated.
Qed.

Lemma applyNewView_rel nv : rel R (applyNewView id cfg nv).
Proof.
  unfold applyNewView, applyPendingRequests.
  apply rel_bind; [apply _|auto with mrel|intros reqs].
  do 4 (apply rel_bind; [apply _|auto with mrel|intros _]).
  destruct (N.eqb_spec id (nv_ReplicaID nv)); [auto with mrel|]. by apply pr_generated.
Qed.
Hint Resolve applyPrepare_rel applyNewView_rel : mrel.

Lemma applyInView_rel m v e : rel R (applyInView id cfg m v e).
Proof. unfold applyInView, applyPeerMessage, applyCommit. destruct m; auto 10 with mrel. Qed.
Hint Resolve applyInView_rel : mrel.

Lemma processViewMessage_rel m : rel R (processViewMessage id cfg m).
Proof. unfold processViewMessage. destruct m; auto 10 with mrel. Qed.

Lemma processViewChange_rel vc : rel R (processViewChange id cfg vc).
Proof.
  intros s. unfold processViewChange, zoom, mbind, M_bind.
  destruct (Collect.collectViewChange _ _ _ _ _) as [[new [cert|]] st] eqn:E; simpl;
    [|apply pr_vcCollected].
  apply Collect.collectViewChange_primary in E.
  etrans; [apply (pr_vcCollected st)|].
  pose proof (pr_newViewCert (vc_NewView vc) cert E (set_vcCollected st s)) as Hn.
  by destruct (processNewViewCert _ _ _ _) as [[[]| |] s'].
Qed.
Hint Resolve processViewMessage_rel processViewChange_rel : mrel.

(** With the update of [lastUI] as well. *)
Context (HlastUI : ∀ i v s, R s (set_lastUI (<[i := v]> (lastUI s)) s)).

Lemma processCertifiedMessage_rel m : rel R (processCertifiedMessage id cfg m).
Proof.
  unfold processCertifiedMessage. apply rel_bind; [apply _|auto with mrel|intros uis].
  destruct (uis !! _) as [last|]; [|auto with mrel]. do 2 (case_if; [auto with mrel|]).
  apply rel_bind; [apply _|destruct m; auto with mrel|intros new].
  apply rel_bind; [apply _|apply rel_modify; intros; apply HlastUI|]. auto with mrel.
Qed.
Hint Resolve processCertifiedMessage_rel : mrel.

Lemma processMessage_rel m : rel R (processMessage id cfg m).
Proof. unfold processMessage. destruct m; auto with mrel. Qed.
Hint Resolve processMessage_rel expireTimer_rel : mrel.

Lemma perform_handles a : (∀ i, a ≠ Finish i) → rel R (perform id cfg a).
Proof. destruct a; simpl; auto with mrel. intros Ha. by destruct (Ha i). Qed.
End Handles.

Lemma perform_rel R `{!Preserves R} (HlastUI : ∀ i v s, R s (set_lastUI (<[i := v]> (lastUI s)) s)) a :
  rel R (perform id cfg a).
Proof. destruct a; [by apply (perform_handles R)..|by apply pr_finish]. Qed.
End Preserves.
End Preservation.
