(* ===== verification/Core.v ===== *)
(** What a replica promises to its clients, as an abstract machine, and the
    proof that the replica implements it.

    The machine keeps the request identifiers of each client, the sequence of
    executed requests, the state of the request consumer and the view numbers;
    its steps ([cstep]) are the moves of the components [ClientState] and
    [ViewState] and the delivery of a request.  [replica_refines_core] says that
    every step of the replica, whatever messages it is given, is a sequence of
    such moves; the properties of the machine are then properties of the
    replica. *)

From S2P Require Import Prelude Messages ViewState Timer ClientState RequestList.
From S2P Require Import MessageLog Quorum Commit Api Validation NewViewCert Collect.
From S2P Require Import Replica Handling Preservation.

Import ViewState(viewState, currentView, expectedView).
Import ClientState(clientState, seqState, lastCapturedSeq, lastPreparedSeq, lastRetiredSeq, clientSeq).

Module Core.
Import Replica Handling Preservation Quorum.

Section Machine.
Context {Au Co : Type} `{!Authenticator Au} `{!RequestConsumer Co} `{!RangeOrder}.
Context (id : N) (cfg : Configer).
Abbreviation state := (replica Au Co).

(** ** The machine *)

Record core := MkCore {
  c_seq : N → seqState; c_executed : list Request; c_consumer : Co; c_views : viewState }.

(** Equality, client by client. *)
Definition ceq (k k' : core) : Prop :=
  (∀ c, c_seq k c = c_seq k' c) ∧ c_executed k = c_executed k' ∧
  c_consumer k = c_consumer k' ∧ c_views k = c_views k'.

#[local] Instance ceq_equiv : Equivalence ceq.
Proof.
  split; unfold ceq.
  - done.
  - intros ??. naive_solver.
  - intros ??? (A1 & ? & ? & ?) (A2 & ? & ? & ?). split_and!; congruence.
Qed.

Definition upd (g : N → seqState) (c : N) (q : seqState) : N → seqState :=
  λ c', if decide (c = c') then q else g c'.

(** Moves of one client's identifiers, execution apart. *)
Inductive seq_move : seqState → seqState → Prop :=
| mv_capture seq q q' : ClientState.CaptureRequestSeq seq q = ClientState.CaptureNew q' → seq_move q q'
| mv_release q : seq_move q (ClientState.releaseSeq q)
| mv_prepare seq q q' : ClientState.PrepareRequestSeq seq q = (OK true, q') → seq_move q q'
| mv_unprepare q : seq_move q (ClientState.UnprepareRequestSeq q).

Inductive cstep (k k' : core) : Prop :=
| cs_idle : ceq k k' → cstep k k'
| cs_seq c q :
    seq_move (c_seq k c) q →
    ceq (MkCore (upd (c_seq k) c q) (c_executed k) (c_consumer k) (c_views k)) k' → cstep k k'
| cs_execute req q :
    ClientState.RetireRequestSeq (req_Sequence req) (c_seq k (req_ClientID req)) = (OK true, q) →
    ceq (MkCore (upd (c_seq k) (req_ClientID req) q) (c_executed k ++ [req])
           (Deliver (req_Operation req) (c_consumer k)).2 (c_views k)) k' → cstep k k'
| cs_expected v :
    ceq (MkCore (c_seq k) (c_executed k) (c_consumer k)
           (ViewState.AdvanceExpectedView v (c_views k)).2) k' → cstep k k'
| cs_current v :
    ceq (MkCore (c_seq k) (c_executed k) (c_consumer k)
           (ViewState.AdvanceCurrentView v (c_views k)).2) k' → cstep k k'.

Definition core_init (co : Co) : core :=
  MkCore (λ _, ClientState.newSeqState) [] co ViewState.New.

(** ** Properties of the machine *)

(** The identifiers of the requests of client [c] in a sequence. *)
Definition seqs_of (c : N) (l : list Request) : list N :=
  req_Sequence <$> filter (λ r, req_ClientID r = c) l.

Lemma seqs_of_snoc c l r :
  seqs_of c (l ++ [r]) = seqs_of c l ++ (if decide (req_ClientID r = c) then [req_Sequence r] else []).
Proof.
  unfold seqs_of. rewrite filter_app, fmap_app. f_equal.
  rewrite filter_cons, filter_nil. by case_decide.
Qed.

Record core_inv (co : Co) (k : core) : Prop := {
  ki_seq : ∀ c, ClientState.seq_inv (c_seq k c);
  ki_sorted : ∀ c, StronglySorted N.lt (seqs_of c (c_executed k));
  ki_retired : ∀ c, Forall (λ q, 0 < q ≤ lastRetiredSeq (c_seq k c)) (seqs_of c (c_executed k));
  ki_consumer : c_consumer k =
    foldl (λ co r, (Deliver (req_Operation r) co).2) co (c_executed k) }.

Lemma core_inv_ceq co k k' : ceq k k' → core_inv co k → core_inv co k'.
Proof.
  intros (H1 & H2 & H3 & H4) [K1 K2 K3 K4]. constructor; try (intros c); rewrite <- ?H1, <- ?H2, <- ?H3; auto.
Qed.

Lemma seq_move_inv q q' :
  ClientState.seq_inv q → seq_move q q' →
  ClientState.seq_inv q' ∧ lastRetiredSeq q' = lastRetiredSeq q ∧ lastCapturedSeq q ≤ lastCapturedSeq q'.
Proof.
  intros Hi Hm. destruct Hm as [seq q q' Hc|q|seq q q' Hp|q].
  - destruct (ClientState.seq_inv_capture _ _ _ Hi Hc) as (? & ? & ? & ? & ? & ?). split; [done|]. lia.
  - split; [by apply ClientState.seq_inv_release|]. simpl. lia.
  - pose proof (ClientState.seq_inv_prepare seq _ Hi) as Hi'. rewrite Hp in Hi'. split; [done|].
    unfold ClientState.PrepareRequestSeq in Hp. repeat case_if; simplify_eq; simpl. lia.
  - split; [by apply ClientState.seq_inv_unprepare|]. simpl. lia.
Qed.

Lemma retire_inv seq q q' :
  ClientState.seq_inv q → ClientState.RetireRequestSeq seq q = (OK true, q') →
  ClientState.seq_inv q' ∧ lastRetiredSeq q < seq ∧ lastRetiredSeq q' = seq ∧
  lastCapturedSeq q' = lastCapturedSeq q.
Proof.
  intros Hi Hr. pose proof (ClientState.seq_inv_retire seq _ Hi) as Hi'. rewrite Hr in Hi'.
  split; [done|]. unfold ClientState.RetireRequestSeq in Hr. repeat case_if; simplify_eq; nbool; simpl. lia.
Qed.

Lemma sorted_snoc (l : list N) x :
  StronglySorted N.lt l → Forall (λ y, y < x) l → StronglySorted N.lt (l ++ [x]).
Proof.
  induction 1 as [|y l Hl IH Hy]; intros Hf; simpl; [repeat constructor|].
  apply Forall_cons in Hf as [Hyx Hf]. constructor; [auto|].
  apply Forall_app. split; [done|]. by repeat constructor.
Qed.

Lemma core_inv_step co k k' : cstep k k' → core_inv co k → core_inv co k'.
Proof.
  intros Hs Hi. destruct Hs as [He|c q Hm He|req q Hr He|v He|v He];
    (eapply core_inv_ceq; [exact He|]); clear He; [done| | |by destruct Hi; constructor..];
    destruct Hi as [K1 K2 K3 K4].
  - destruct (seq_move_inv _ _ (K1 c) Hm) as (Hq & Hret & _).
    constructor; simpl; auto; intros c'; unfold upd; case_decide; subst; auto.
    rewrite Hret. auto.
  - destruct (retire_inv _ _ _ (K1 _) Hr) as (Hq & Hlt & Hret & _).
    constructor; simpl.
    + intros c'. unfold upd. case_decide; subst; auto.
    + intros c'. rewrite seqs_of_snoc. case_decide as Hc; [|by rewrite app_nil_r].
      apply sorted_snoc; [done|]. eapply Forall_impl; [apply K3|]. simpl. subst c'. intros; lia.
    + intros c'. rewrite seqs_of_snoc. unfold upd. case_decide as Hc; [|rewrite app_nil_r; auto].
      apply Forall_app. split; [|constructor; [lia|constructor]]. eapply Forall_impl; [apply K3|].
      simpl. subst c'. intros; lia.
    + rewrite foldl_snoc. by rewrite <- K4.
Qed.

Lemma core_inv_init co : core_inv co (core_init co).
Proof.
  constructor; simpl; [|intros; constructor..|done]. intros c. apply ClientState.seq_inv_new.
Qed.

(** What never goes back. *)
Definition core_le (k k' : core) : Prop :=
  ViewState.le (c_views k) (c_views k') ∧ c_executed k `prefix_of` c_executed k' ∧
  ∀ c, lastCapturedSeq (c_seq k c) ≤ lastCapturedSeq (c_seq k' c) ∧
       lastRetiredSeq (c_seq k c) ≤ lastRetiredSeq (c_seq k' c).

Lemma core_le_trans k1 k2 k3 : core_le k1 k2 → core_le k2 k3 → core_le k1 k3.
Proof.
  intros (H1 & H2 & H3) (H4 & H5 & H6). split; [by etrans|]. split; [by etrans|].
  intros c. specialize (H3 c). specialize (H6 c). lia.
Qed.

Lemma core_le_step co k k' : core_inv co k → cstep k k' → core_le k k'.
Proof.
  intros Hi Hs. destruct Hi as [K1 K2 K3 K4].
  destruct Hs as [(E1 & E2 & E3 & E4)|c q Hm (E1 & E2 & E3 & E4)|req q Hr (E1 & E2 & E3 & E4)
                 |v (E1 & E2 & E3 & E4)|v (E1 & E2 & E3 & E4)];
    unfold core_le; simpl in *; rewrite <- E2, <- E4;
    (split; [try reflexivity; first [apply ViewState.AdvanceExpectedView_le|apply ViewState.AdvanceCurrentView_le]|]);
    (split; [first [reflexivity|by apply prefix_app_r]|]); intros c'; rewrite <- E1; try lia.
  - unfold upd. case_decide; [subst|lia]. destruct (seq_move_inv _ _ (K1 c') Hm) as (_ & ? & ?). lia.
  - unfold upd. case_decide; [subst|lia]. destruct (retire_inv _ _ _ (K1 _) Hr) as (_ & ? & ? & ?). lia.
Qed.

(** ** The replica as such a machine *)

Definition core_of (s : state) : core :=
  MkCore (clientSeq (clientStates s)) (executed s) (consumer s) (views s).

Lemma core_of_new au co : ceq (core_init co) (core_of (newReplica id cfg au co)).
Proof. split; [|done]. intros c. simpl. unfold clientSeq. by rewrite lookup_empty. Qed.

Definition same (s s' : state) : Prop := ceq (core_of s) (core_of s').
#[local] Instance same_preorder : PreOrder same.
Proof. split; unfold same; [intros ?; reflexivity|intros ???; by etrans]. Qed.

Definition moves (s s' : state) : Prop := rtc cstep (core_of s) (core_of s').
#[local] Instance moves_preorder : PreOrder moves.
Proof. split; unfold moves; [intros ?; reflexivity|intros ???; by etrans]. Qed.

Lemma same_moves s s' : same s s' → moves s s'.
Proof. intros H'. by apply rtc_once, cs_idle. Qed.

Lemma rel_same_moves {A} (m : M state A) : rel same m → rel moves m.
Proof. intros Hm s. apply same_moves, Hm. Qed.

(** Changing a client's timers or replies. *)
Lemma same_client c x (s : state) :
  ClientState.seqS x = clientSeq (clientStates s) c →
  same s (set_clientStates (<[c := x]> (clientStates s)) s).
Proof.
  intros Hx. split; [|done]. intros c'. simpl. unfold clientSeq.
  destruct (decide (c = c')) as [<-|Hne].
  - rewrite lookup_insert_eq. simpl. by rewrite Hx.
  - by rewrite lookup_insert_ne.
Qed.

Lemma moves_client c x (s : state) :
  seq_move (clientSeq (clientStates s) c) (ClientState.seqS x) →
  moves s (set_clientStates (<[c := x]> (clientStates s)) s).
Proof.
  intros Hm. apply rtc_once, (cs_seq _ _ c (ClientState.seqS x)); [done|]. split; [|done].
  intros c'. simpl. unfold upd, clientSeq. case_decide as Hc.
  - subst. by rewrite lookup_insert_eq.
  - by rewrite lookup_insert_ne.
Qed.

Lemma onClientTimer_same c get put g :
  (∀ t x, ClientState.seqS (put t x) = ClientState.seqS x) →
  rel same (onClientTimer c get put g).
Proof.
  intros Hput s. unfold onClientTimer. destruct (g _) as [t p]. simpl.
  etrans; [apply (same_client c (put t (default ClientState.newClientState (clientStates s !! c))))|].
  - by rewrite Hput.
  - by split.
Qed.

Lemma onViewChangeTimer_same g : rel same (onViewChangeTimer g).
Proof. apply rel_modify. intros s. destruct (g _) as [b p]. by split. Qed.

Lemma generateTag_same role b : rel same (generateTag role b).
Proof.
  intros s. unfold generateTag. destruct (GenerateMessageAuthenTag _ _ _) as [o au].
  destruct o; by split.
Qed.
Hint Resolve generateTag_same : mrel.

Lemma handleGeneratedMessage_same m : rel same (handleGeneratedMessage m).
Proof.
  unfold handleGeneratedMessage, signMessage, assignUI, consumeGeneratedMessage.
  apply rel_bind; [apply _|destruct m; auto 10 with mrel|intros m'].
  destruct m' as [r|r|rep|r|cm]; auto with mrel; try (by apply rel_modify; intros s; split).
  unfold onClient. apply rel_zoom. intros s a t. unfold ClientState.withClient. intros [= <- <-].
  by apply same_client.
Qed.
Hint Resolve handleGeneratedMessage_same onViewChangeTimer_same : mrel.
Hint Extern 1 (rel same (onClientTimer _ _ _ _)) => (apply onClientTimer_same; done) : mrel.
Hint Extern 5 (rel moves _) => (apply rel_same_moves) : mrel.

Lemma set_reqs_same g h : rel same (modify (λ s : state, set_reqs (g s) (h s) s)).
Proof. apply rel_modify. by intros s; split. Qed.
Hint Resolve set_reqs_same : mrel.

Lemma onSeq_moves c op :
  (∀ q q', op q = (OK true, q') → seq_move q q') →
  (∀ q, (op q).1 ≠ OK true → (op q).2 = q) →
  rel moves (onSeq c op).
Proof.
  intros Hm Hs s. unfold onSeq, onClient, zoom, mbind, M_bind, ClientState.withClient. simpl.
  specialize (Hm (clientSeq (clientStates s) c)). specialize (Hs (clientSeq (clientStates s) c)).
  unfold clientSeq in Hm, Hs.
  destruct (op _) as [o q] eqn:E. simpl in *.
  assert (moves s (set_clientStates (<[c := ClientState.set_seq q
    (default ClientState.newClientState (clientStates s !! c))]> (clientStates s)) s)) as Hmv.
  { assert (o = OK true ∨ o ≠ OK true) as [->|Hne] by (destruct o as [[]| |]; by auto).
    - apply moves_client. by apply Hm.
    - apply same_moves, same_client. simpl. rewrite (Hs Hne). done. }
  destruct o as [b|[]|p]; exact Hmv.
Qed.

Lemma prepareReq_moves req : rel moves (prepareReq req).
Proof.
  unfold prepareReq. apply rel_bind; [apply _| |auto with mrel].
  apply onSeq_moves; [by apply mv_prepare|].
  intros q. unfold ClientState.PrepareRequestSeq. by repeat case_if.
Qed.

Lemma captureReq_moves req : rel moves (captureReq req).
Proof.
  unfold captureReq. apply rel_bind; [apply _| |auto with mrel].
  unfold onClient. apply rel_zoom. intros s a t. unfold ClientState.withClient.
  destruct (ClientState.CaptureRequestSeq _ _) as [| |q] eqn:E; intros [= <- <-];
    [by apply same_moves, same_client..|].
  apply moves_client. by apply (mv_capture (req_Sequence req)).
Qed.

Lemma seqS_moves req g :
  (∀ q, seq_move q (g q)) →
  rel moves (onClient req (λ c, (tt, ClientState.set_seq (g (ClientState.seqS c)) c))).
Proof.
  intros Hg. unfold onClient. apply rel_zoom. intros s a t. unfold ClientState.withClient.
  intros [= <- <-]. apply moves_client. apply Hg.
Qed.

Lemma stopReqTimer_same req s : ∃ s', stopReqTimer req s = (OK tt, s') ∧ same s s'.
Proof.
  pose proof (onClientTimer_same (req_ClientID req) ClientState.requestTimer
    ClientState.set_requestTimer (Timer.Stop (req_Sequence req)) ltac:(done) s) as Hs.
  unfold stopReqTimer. destruct (onClientTimer _ _ _ _ s) as [o s'] eqn:Et. exists s'.
  unfold onClientTimer in Et. destruct (Timer.Stop _ _). by simplify_eq.
Qed.

(** Retiring and delivering a request is one step of the machine. *)
Lemma executeRequest_moves req : rel moves (executeRequest req).
Proof.
  intros s. unfold executeRequest, retireReq, onSeq, onClient, zoom, ClientState.withClient.
  unfold mbind, M_bind, modify, mret, M_ret, panic, fail. simpl.
  destruct (ClientState.RetireRequestSeq _ _) as [o q] eqn:E. simpl.
  assert (o ≠ OK true → same s (set_clientStates (<[req_ClientID req := ClientState.set_seq q
    (default ClientState.newClientState (clientStates s !! req_ClientID req))]> (clientStates s)) s)) as Hsame.
  { intros Hne. apply same_client. simpl. unfold ClientState.RetireRequestSeq in E.
    repeat case_if; simplify_eq; done. }
  destruct o as [[]|[]|p]; simpl; try (by apply same_moves, Hsame). clear Hsame.
  match goal with |- context [stopReqTimer req ?x] =>
    destruct (stopReqTimer_same req x) as (s' & -> & T1 & T2 & T3 & T4)
  end.
  simpl in *. destruct (Deliver _ _) as [res co'] eqn:Ed. simpl.
  apply rtc_once, (cs_execute _ _ req q); [exact E|]. simpl. rewrite T3, Ed.
  split_and!; simpl; [|by rewrite T2|done|by rewrite T4].
  intros c. rewrite <- T1. unfold upd, clientSeq. case_decide as Hc.
  - subst. by rewrite lookup_insert_eq.
  - by rewrite lookup_insert_ne.
Qed.
Hint Resolve prepareReq_moves captureReq_moves executeRequest_moves : mrel.

Lemma startViewChange_moves v cert : rel moves (startViewChange id v cert).
Proof.
  unfold startViewChange, startVCTimer, unprepareReqs. apply rel_bind; [apply _| |intros ok].
  { apply rel_zoom. intros s a t E. apply rtc_once, (cs_expected _ _ v). simpl. by rewrite E. }
  destruct (negb ok); [auto with mrel|].
  apply rel_bind; [apply _|auto with mrel|intros ms].
  apply rel_bind; [apply _|apply rel_same_moves, rel_modify; by split|intros _].
  apply rel_bind; [apply _|auto with mrel|intros _].
  apply rel_bind; [apply _| |auto with mrel].
  apply rel_bind; [apply _|auto with mrel|intros reqs]. apply rel_forM; [apply _|intros req].
  apply rel_bind; [apply _| |auto with mrel].
  apply (seqS_moves _ ClientState.UnprepareRequestSeq). apply mv_unprepare.
Qed.
Hint Resolve startViewChange_moves : mrel.

#[local] Instance moves_preserved : Preserves id cfg moves.
Proof.
  split; [constructor|]; try apply _; intros; auto with mrel.
  - unfold startReqTimer. auto with mrel.
  - unfold stopReqTimer. auto with mrel.
  - unfold startPrepTimer. auto with mrel.
  - unfold stopPrepTimer. auto with mrel.
  - unfold stopVCTimer. auto with mrel.
  - apply processRequest_parts; [apply _|..]; intros; auto with mrel.
    + unfold startReqTimer. auto with mrel.
    + unfold startPrepTimer. auto with mrel.
    + apply (seqS_moves _ ClientState.releaseSeq). apply mv_release.
  - apply rel_same_moves, rel_zoom. by split.
  - unfold processReqViewChange. apply rel_bind; [apply _|apply rel_same_moves, rel_zoom; by split|].
    auto with mrel.
  - by apply same_moves.
  - unfold processNewViewCert. apply rel_bind; [apply _|auto with mrel|intros [? e]].
    case_if; [auto with mrel|]. apply rel_bind; [apply _|apply rel_same_moves, rel_modify; by split|].
    auto with mrel.
  - apply rel_zoom. intros s a t E. apply rtc_once, (cs_current _ _ v). simpl. by rewrite E.
  - by apply same_moves.
  - by apply same_moves.
  - unfold handlePrepTimeout. apply rel_bind; [apply _|auto with mrel|intros logs].
    destruct (logs !! _); [|auto with mrel]. apply rel_same_moves, rel_modify; by split.
  - unfold finishExecution. apply rel_bind; [apply _|auto with mrel|]. intros [[]|]; [|auto with mrel].
    apply rel_bind; [apply _|apply rel_same_moves, rel_modify; by split|auto with mrel].
Qed.

Lemma lastUI_moves i v (s : state) : moves s (set_lastUI (<[i := v]> (lastUI s)) s).
Proof. by apply same_moves. Qed.

Lemma steps_moves s s' : rtc (step id cfg) s s' → moves s s'.
Proof.
  induction 1 as [s|s1 s2 s3 [a t t' o Hp _] _ IH]; [reflexivity|].
  etrans; [|exact IH]. pose proof (perform_rel id cfg moves lastUI_moves a t) as Hp'. by rewrite Hp in Hp'.
Qed.

Lemma reachable_moves au co s :
  reachable id cfg au co s → rtc cstep (core_init co) (core_of s).
Proof.
  intros Hr. apply (reachable_inv id cfg (λ s, rtc cstep (core_init co) (core_of s)) au co); [| |done].
  - apply rtc_once, cs_idle, core_of_new.
  - intros a s0 Hs0. etrans; [exact Hs0|]. apply (perform_rel id cfg moves lastUI_moves a s0).
Qed.

Lemma reachable_core_inv au co s : reachable id cfg au co s → core_inv co (core_of s).
Proof.
  intros Hr%reachable_moves. eapply (rtc_ind_r (core_inv co)); [apply core_inv_init| |exact Hr].
  intros k1 k2 _ Hs Hk. by eapply core_inv_step.
Qed.

Lemma moves_le co k k' : core_inv co k → rtc cstep k k' → core_le k k'.
Proof.
  intros Hi Hs. induction Hs as [k|k1 k2 k3 Hs _ IH].
  - split; [reflexivity|]. split; [done|]. intros; lia.
  - eapply core_le_trans; [by eapply core_le_step|]. apply IH. by eapply core_inv_step.
Qed.

(** No step takes the view numbers back. *)
Lemma perform_views a (s : state) : ViewState.le (views s) (views (perform id cfg a s).2).
Proof.
  pose proof (perform_rel id cfg moves lastUI_moves a s) as Hm. unfold moves in Hm.
  change (ViewState.le (c_views (core_of s)) (c_views (core_of (perform id cfg a s).2))).
  induction Hm as [k|k1 k2 k3 Hs _ IH]; [reflexivity|]. etrans; [|exact IH].
  destruct Hs as [(_&_&_&<-)|c q _ (_&_&_&<-)|req q _ (_&_&_&<-)|v (_&_&_&<-)|v (_&_&_&<-)];
    [reflexivity..|apply ViewState.AdvanceExpectedView_le|apply ViewState.AdvanceCurrentView_le].
Qed.
End Machine.
Arguments core Co : clear implicits.

(** C16: the replica implements the abstract machine.  From a new replica, after
    any sequence of messages processed (valid or not), timers expired and
    results received, the request identifiers, the executed requests, the state
    of the consumer and the view numbers are those of a run of the abstract
    machine, whose only moves are capturing, releasing, preparing and
    un-preparing an identifier, retiring an identifier together with delivering
    its request, and advancing a view number. *)
Theorem replica_refines_core {Au Co} `{!Authenticator Au} `{!RequestConsumer Co} `{!RangeOrder}
    id cfg (au : Au) (co : Co) s :
  reachable id cfg au co s → rtc cstep (core_init co) (core_of s).
Proof. apply reachable_moves. Qed.

(** C4: every request is executed at most once and in order.  In every reachable
    state, the requests of each client were handed to the consumer in strictly
    increasing order of their identifiers (so none twice), the identifiers
    executed are bounded by the last retired, which is at most the last prepared
    and the last captured one, and the consumer's state is the result of
    delivering exactly these requests in this order. *)
Theorem executed_once_in_order {Au Co} `{!Authenticator Au} `{!RequestConsumer Co} `{!RangeOrder}
    id cfg (au : Au) (co : Co) s c :
  reachable id cfg au co s →
  StronglySorted N.lt (seqs_of c (executed s)) ∧
  Forall (λ q, 0 < q ≤ lastRetiredSeq (clientSeq (clientStates s) c)) (seqs_of c (executed s)) ∧
  lastRetiredSeq (clientSeq (clientStates s) c) ≤ lastPreparedSeq (clientSeq (clientStates s) c)
    ≤ lastCapturedSeq (clientSeq (clientStates s) c) ∧
  consumer s = foldl (λ co r, (Deliver (req_Operation r) co).2) co (executed s).
Proof.
  intros [K1 K2 K3 K4]%reachable_core_inv. split_and!; [apply K2|apply K3| | |done];
    specialize (K1 c); unfold ClientState.seq_inv in K1; simpl in K1; lia.
Qed.

(** Nothing is undone.  Between a reachable state and any later one, neither
    view number decreases, no client's last captured or last retired identifier
    decreases, and the sequence of executed requests is only extended. *)
Theorem replica_monotone {Au Co} `{!Authenticator Au} `{!RequestConsumer Co} `{!RangeOrder}
    id cfg (au : Au) (co : Co) s s' :
  reachable id cfg au co s → rtc (step id cfg) s s' →
  ViewState.le (views s) (views s') ∧ executed s `prefix_of` executed s' ∧
  ∀ c, lastCapturedSeq (clientSeq (clientStates s) c) ≤ lastCapturedSeq (clientSeq (clientStates s') c) ∧
       lastRetiredSeq (clientSeq (clientStates s) c) ≤ lastRetiredSeq (clientSeq (clientStates s') c).
Proof.
  intros Hr Hs.
  exact (moves_le co _ _ (reachable_core_inv id cfg au co s Hr) (steps_moves id cfg s s' Hs)).
Qed.

(** ** Witnesses: the run of [Handling.normal_case] *)

Lemma afterCommit_reachable :
  @reachable N (list bytes) plainAuthen recordingConsumer keyOrder 1 cfg3 0 [] afterCommit.
Proof.
  unfold reachable. etrans.
  - apply (@steps_peer N (list bytes) plainAuthen recordingConsumer keyOrder 1 cfg3
      (Msg_Certified prepare9) _ (OK true) afterPrepare); vm_compute; reflexivity.
  - apply (@steps_own N (list bytes) plainAuthen recordingConsumer keyOrder 1 cfg3
      (Msg_Certified (CM_Commit (MkCommit 1 prepare9 (MkUI 1 [])))) _ (OK true) afterCommit);
      vm_compute; reflexivity.
Qed.

Lemma replica_refines_core_witness :
  rtc (@cstep (list bytes) recordingConsumer) (core_init []) (core_of afterCommit).
Proof.
  exact (@replica_refines_core N (list bytes) plainAuthen recordingConsumer keyOrder 1 cfg3 0 []
    afterCommit afterCommit_reachable).
Defined.

Lemma executed_once_in_order_witness :
  executed afterCommit = [req9] ∧ StronglySorted N.lt (seqs_of 9 (executed afterCommit)).
Proof.
  split; [vm_compute; reflexivity|].
  exact (proj1 (@executed_once_in_order N (list bytes) plainAuthen recordingConsumer keyOrder 1 cfg3 0 []
    afterCommit 9 afterCommit_reachable)).
Defined.

Lemma replica_monotone_witness : ViewState.le (views afterCommit) (views afterCommit).
Proof.
  exact (proj1 (@replica_monotone N (list bytes) plainAuthen recordingConsumer keyOrder 1 cfg3 0 []
    afterCommit afterCommit afterCommit_reachable (rtc_refl _ _))).
Defined.

End Core.
