(* ===== verification/OwnLog.v ===== *)
(** The log of generated messages and view change.

    A replica's ViewChange message carries the certified messages of its log;
    peers accept it only when that log is complete.  Here: in every reachable
    state the log is complete in the sense of [Validation.log_valid], and every
    message in the log passes the validator peers apply to its type.  The USIG
    behind the authenticator is assumed to count ([SequentialUSIG]) from zero;
    the statements are for runs with less than [2^64] generated UIs and view
    changes. *)

From S2P Require Import Prelude Usig Messages Authen ViewState Timer ClientState.
From S2P Require Import RequestList MessageLog Quorum Commit Api Validation NewViewCert.
From S2P Require Import Collect Replica Handling Preservation.

Import ViewState(viewState, currentView, expectedView).
Import MessageLogM(messageLog, msgs).

Module OwnLog.
Import Replica Handling Preservation Quorum Validation.

(** ** Complete logs grow message by message *)

Lemma log_valid_snoc id v L cv m :
  log_valid id v L cv → opens_view m = None → cm_ReplicaID m = id → cm_Counter m = cv →
  log_valid id v (L ++ [m]) (cv + 1).
Proof.
  intros [Hall Hhd] Ho Hid Hc. split.
  - intros i x Hi. rewrite length_app. simpl.
    apply lookup_app_Some in Hi as [Hi|[Hlen Hi]].
    + destruct (Hall i x Hi) as (? & Hx & ?). split_and!; [done| |done].
      apply lookup_lt_Some in Hi. lia.
    + apply list_lookup_singleton_Some in Hi as [Hi <-].
      split_and!; [done| |by rewrite Ho]. lia.
  - destruct L as [|m0 L]; simpl in *; [|done]. destruct Hhd as [-> ->]. right. done.
Qed.

Lemma log_valid_single id v m :
  opens_view m = Some v → cm_ReplicaID m = id → log_valid id v [m] (cm_Counter m + 1).
Proof.
  intros Ho Hid. split; [|simpl; by left].
  intros i x [-> <-]%list_lookup_singleton_Some. simpl. split_and!; [done|lia|done].
Qed.

Lemma log_valid_last id v L cv m : log_valid id v L cv → m ∈ L → cm_Counter m < cv.
Proof.
  intros [Hall _] [i Hi]%list_elem_of_lookup. destruct (Hall i m Hi) as (_ & Hx & _).
  apply lookup_lt_Some in Hi. lia.
Qed.

Section Invariant.
Context {Au Co : Type} `{!Authenticator Au} `{!SequentialUSIG Au} `{!RequestConsumer Co} `{!RangeOrder}.
Context (id : N) (cfg : Configer).
Abbreviation state := (replica Au Co).
Abbreviation n := (cfg_N cfg).
Abbreviation vcCertSize := (viewChangeCertSize (cfg_N cfg) (cfg_F cfg)).
Context (Hsize : 0 < vcCertSize).

(** What a peer's validator checks of a message in the log, its tag apart. *)
Definition content_ok (m : Message) : Prop :=
  match m with
  | Msg_Certified (CM_Prepare p) => prep_ReplicaID p = id ∧ validatePrepare n p = OK tt
  | Msg_Certified (CM_Commit c) => comm_ReplicaID c = id ∧ validateCommit c = OK tt
  | Msg_Certified (CM_ViewChange vc) => vc_ReplicaID vc = id ∧ validateViewChange vcCertSize vc = OK tt
  | Msg_Certified (CM_NewView nv) => nv_ReplicaID nv = id ∧ isPrimary (nv_NewView nv) id n = true
  | Msg_ReqViewChange r => rvc_ReplicaID r = id ∧ 1 ≤ rvc_NewView r
  | _ => False
  end.

Definition ownLog (s : state) : MessageLog := certified (msgs (log s)).
Definition nextCV (s : state) : N := usigCounter (authen s) + 1.

Record log_inv (s : state) : Prop := {
  li_log : log_valid id (expectedView (views s)) (ownLog s) (nextCV s);
  li_pos : Forall (λ m, 0 < cm_Counter m) (ownLog s);
  li_content : Forall content_ok (msgs (log s));
  li_view : Collect.rvc_view (rvcCollected s) = expectedView (views s);
  li_rvc : Collect.rvc_inv vcCertSize (rvcCollected s) }.

(** Neither the USIG counter nor the view number has wrapped around. *)
Definition bounded (s : state) : Prop :=
  usigCounter (authen s) < 2 ^ 64 ∧ expectedView (views s) + 1 < 2 ^ 64.

(** The invariant is kept as long as the bounds are. *)
Definition keeps (s s' : state) : Prop := bounded s' → bounded s ∧ (log_inv s → log_inv s').

#[local] Instance keeps_preorder : PreOrder keeps.
Proof. split; unfold keeps; [by intros ?|].
  intros s1 s2 s3 K1 K2 Hb. destruct (K2 Hb) as [Hb2 ?]. destruct (K1 Hb2). auto.
Qed.

(** The fields the invariant is about do not change. *)
Definition same (s s' : state) : Prop :=
  log s = log s' ∧ views s = views s' ∧ authen s = authen s' ∧ rvcCollected s = rvcCollected s'.

#[local] Instance same_preorder : PreOrder same.
Proof. split; unfold same; [done|]. intros ??? (?&?&?&?) (?&?&?&?). split_and!; congruence. Qed.

(** Only the authenticator's state changes, its counter apart. *)
Definition log_inv_ext (s s' : state) :
  msgs (log s) = msgs (log s') → expectedView (views s) = expectedView (views s') →
  usigCounter (authen s) = usigCounter (authen s') → rvcCollected s = rvcCollected s' → keeps s s'.
Proof.
  intros E1 E2 E3 E4 [Hb1 Hb2]. split; [by unfold bounded; rewrite E2, E3|].
  intros [H1 H2 H3 H4 H5]. unfold ownLog, nextCV in *. rewrite E1, E2, E3, ?E4 in *.
  constructor; unfold ownLog, nextCV; congruence.
Qed.

Lemma same_keeps s s' : same s s' → keeps s s'.
Proof. intros (E1 & E2 & E3 & E4). apply log_inv_ext; congruence. Qed.

Lemma rel_same_keeps {A} (m : M state A) : rel same m → rel keeps m.
Proof. intros Hm s. apply same_keeps, Hm. Qed.

(** ** Operations that do not touch the log *)

Lemma local_same s s' : local s s' → same s s'.
Proof. intros ((?&_&?&?&_)&_&?&_). by split_and!. Qed.

Lemma rel_local_keeps {A} (m : M state A) : rel local m → rel keeps m.
Proof. intros Hm s. apply same_keeps, local_same, Hm. Qed.
Hint Extern 6 (rel keeps _) => (apply rel_local_keeps) : mrel.

Lemma forM_ok {A} (g : A → M state unit) l s :
  (∀ x s, (g x s).1 = OK tt) → (forM g l s).1 = OK tt.
Proof.
  intros Hg. revert s. induction l as [|x l IH]; intros s; simpl; [done|].
  unfold mbind, M_bind. specialize (Hg x s). destruct (g x s) as [o s']. simpl in Hg. subst o. apply IH.
Qed.

Lemma unprepareReqs_ok (s : state) : (unprepareReqs s).1 = OK tt.
Proof. unfold unprepareReqs, mbind, M_bind, gets. by apply forM_ok. Qed.

(** ** Generated messages *)

(** A certified message gets the next counter and is appended to the log. *)
Lemma generate_certified m (s : state) :
  ∃ ui au, handleGeneratedMessage (Msg_Certified m) s =
             (OK tt, set_log (MessageLogM.Append (Msg_Certified (cm_SetUI ui m)) (log s))
                             (set_authen au s)) ∧
           Counter ui = u64 (usigCounter (authen s) + 1) ∧
           usigCounter au = usigCounter (authen s) + 1.
Proof.
  destruct (usig_next (Authen.cm_AuthenBytes m) (authen s)) as (cert & E & Hc).
  exists (MkUI (u64 (usigCounter (authen s) + 1)) cert),
    (GenerateMessageAuthenTag USIGAuthen (Authen.cm_AuthenBytes m) (authen s)).2.
  split; [|done]. unfold handleGeneratedMessage, assignUI, generateTag, mbind, M_bind, lift. simpl.
  fold (Authen.cm_AuthenBytes m).
  destruct (GenerateMessageAuthenTag _ _ _) as [o au]; simpl in *. subst o.
  unfold Usig.MustUnmarshalUI. rewrite Usig.UnmarshalBinary_MarshalBinary; [done|].
  apply Is_true_true, N.ltb_lt, u64_bound.
Qed.

Lemma generate_rvc r (s : state) :
  ∃ sig au, handleGeneratedMessage (Msg_ReqViewChange r) s =
      (OK tt, set_log (MessageLogM.Append (Msg_ReqViewChange (rvc_SetSignature sig r)) (log s))
                      (set_authen au s)) ∧
    usigCounter au = usigCounter (authen s).
Proof.
  unfold handleGeneratedMessage, signMessage, generateTag, mbind, M_bind, lift. cbn.
  match goal with |- context [GenerateMessageAuthenTag ReplicaAuthen ?b ?a] =>
    destruct (usig_other ReplicaAuthen b a) as (tag & E & Hc); [done|];
    destruct (GenerateMessageAuthenTag ReplicaAuthen b a) as [o au] end.
  simpl in *. subst o. exists tag, au. done.
Qed.

Lemma generate_reply r (s : state) :
  ∃ sig au, handleGeneratedMessage (Msg_Reply r) s =
      onClient (rep_ClientID r) (λ c, (tt, ClientState.set_reply
        (ClientState.AddReply (rep_SetSignature sig r) (ClientState.replyS c)) c)) (set_authen au s) ∧
    usigCounter au = usigCounter (authen s).
Proof.
  unfold handleGeneratedMessage, signMessage, generateTag, mbind, M_bind, lift. cbn.
  match goal with |- context [GenerateMessageAuthenTag ReplicaAuthen ?b ?a] =>
    destruct (usig_other ReplicaAuthen b a) as (tag & E & Hc); [done|];
    destruct (GenerateMessageAuthenTag ReplicaAuthen b a) as [o au] end.
  simpl in *. subst o. exists tag, au. done.
Qed.

Lemma certified_snoc ms m : certified (ms ++ [m]) = certified ms ++ certified [m].
Proof. unfold certified. by rewrite omap_app. Qed.

Lemma SetUI_opens ui m : opens_view (cm_SetUI ui m) = opens_view m.
Proof. by destruct m as [[]|[]|[]|[]]. Qed.

(** Appending a message that opens no view. *)
Lemma append_keeps m ui au (s : state) :
  Counter ui = u64 (usigCounter (authen s) + 1) → usigCounter au = usigCounter (authen s) + 1 →
  opens_view m = None → cm_ReplicaID m = id → content_ok (Msg_Certified (cm_SetUI ui m)) →
  keeps s (set_log (MessageLogM.Append (Msg_Certified (cm_SetUI ui m)) (log s)) (set_authen au s)).
Proof.
  intros Hu Ha Ho Hid Hct [Hb1 Hb2]. simpl in Hb1, Hb2. rewrite Ha in Hb1. split; [split; [lia|done]|].
  intros [H1 H2 H3 H4 H5]. rewrite u64_small in Hu by done.
  constructor; unfold ownLog, nextCV in *; simpl; auto.
  - rewrite certified_snoc, Ha. simpl. apply log_valid_snoc; [done|..].
    + by rewrite SetUI_opens.
    + by rewrite cm_ReplicaID_SetUI.
    + by rewrite cm_UI_SetUI.
  - rewrite certified_snoc. apply Forall_app. split; [done|]. simpl. constructor; [|constructor].
    rewrite cm_UI_SetUI. lia.
  - apply Forall_app. split; [done|]. by constructor.
Qed.

Lemma generated_keeps m : gen_ok id cfg m → rel keeps (handleGeneratedMessage m).
Proof.
  intros Hg s. destruct m as [r|r|r|r|m]; try done.
  - destruct (generate_reply r s) as (sig & au & -> & Ha).
    etrans; [|apply rel_local_keeps, onClient_local]. by apply log_inv_ext.
  - destruct (generate_rvc r s) as (sig & au & -> & Ha). simpl. intros [Hb1 Hb2]. simpl in Hb1, Hb2.
    split; [split; [lia|done]|]. intros [H1 H2 H3 H4 H5].
    constructor; unfold ownLog, nextCV in *; simpl; rewrite ?certified_snoc, ?app_nil_r, ?Ha; auto.
    apply Forall_app. split; [done|]. constructor; [|constructor]. done.
  - destruct (generate_certified m s) as (ui & au & -> & Hu & Ha).
    destruct m as [p|c|vc|nv]; try done; apply append_keeps; try done; simpl in *.
    + destruct p; apply Hg.
    + destruct p as [r v req ui0], Hg as [Hr Hp]; simpl in *. subst r. split; [done|].
      unfold validatePrepare. simpl. by rewrite Hp.
    + destruct c; apply Hg.
    + destruct c as [r prop ui0], Hg as (Hr & Hne & Hp); simpl in *. subst r. split; [done|].
      unfold validateCommit. simpl.
      destruct (N.eqb_spec id (cm_ReplicaID prop)); [done|]. by destruct prop.
Qed.

(** ** View change *)

(** The bounds alone, across generation of any certified message. *)
Definition keeps' (s s' : state) : Prop := bounded s' → bounded s.

#[local] Instance keeps'_preorder : PreOrder keeps'.
Proof. split; unfold keeps'; [by intros ?|]. intros ???; auto. Qed.

Lemma same_keeps' s s' : same s s' → keeps' s s'.
Proof. intros (E1 & E2 & E3 & E4). unfold keeps', bounded. by rewrite E2, E3. Qed.

Lemma startViewChange_bounded v cert : rel keeps' (startViewChange id v cert).
Proof.
  unfold startViewChange. apply rel_bind; [apply _| |intros ok].
  { apply rel_zoom. intros s a t E [Hb1 Hb2]. simpl in Hb1, Hb2. split; [done|].
    pose proof (ViewState.AdvanceExpectedView_le v (views s)) as [_ Hle]. rewrite E in Hle. simpl in Hle. lia. }
  case_if; [auto with mrel|]. apply rel_bind; [apply _|auto with mrel|intros ms].
  apply rel_bind; [apply _|apply rel_modify; intros s [? ?]; by split|intros _].
  apply rel_bind; [apply _|intros s; apply same_keeps', local_same, startVCTimer_local|intros _].
  apply rel_bind; [apply _|intros s; apply same_keeps', local_same, unprepareReqs_local|intros _].
  apply rel_bind; [apply _| |auto with mrel].
  intros s. destruct (generate_certified (CM_ViewChange (NewViewChange id v ms cert)) s)
    as (ui & au & -> & _ & Ha). intros [Hb1 Hb2]. simpl in Hb1, Hb2. split; [lia|done].
Qed.

(** Starting the view after the current one with a valid certificate. *)
Lemma startViewChange_keeps v cert (s : state) rvc' :
  let s0 := set_rvcCollected rvc' s in
  v = u64_succ (expectedView (views s)) → vcCert_valid vcCertSize v cert →
  Collect.rvc_view rvc' = v → Collect.rvc_inv vcCertSize rvc' →
  keeps s (startViewChange id v cert s0).2.
Proof.
  intros s0 Hv Hcert Hrv Hrinv. unfold startViewChange, zoom, mbind, M_bind. simpl.
  unfold ViewState.AdvanceExpectedView. destruct (N.ltb_spec (expectedView (views s)) v) as [Hlt|Hge]; simpl.
  2: { intros [Hb1 Hb2]. simpl in *. rewrite Hv, u64_succ_small in Hge; lia. }
  set (s1 := set_log _ _). set (ms := certified _).
  match goal with |- context [unprepareReqs ?x] =>
    assert (same s1 x) as Hs1 by done; set (s2 := x) in * end.
  pose proof (local_same _ _ (unprepareReqs_local s2)) as Hs2. pose proof (unprepareReqs_ok s2) as E2.
  destruct (unprepareReqs s2) as [o2 s3]. simpl in Hs2, E2. subst o2.
  destruct (generate_certified (CM_ViewChange (NewViewChange id v ms cert)) s3) as (ui & au & -> & Hu & Ha).
  simpl. assert (same s1 s3) as (G1 & G2 & G3 & G4) by (by etrans). unfold s1 in *; simpl in *.
  rewrite <- G3 in Hu, Ha. intros [Hb1 Hb2]. simpl in Hb1, Hb2. rewrite Ha in Hb1. rewrite <- G2 in Hb2.
  simpl in Hb2. rewrite u64_small in Hu by done. rewrite u64_succ_small in Hv by lia.
  split; [split; lia|]. intros [H1 H2 H3 H4 H5].
  constructor; unfold ownLog, nextCV in *; simpl; rewrite <- ?G1, <- ?G2, <- ?G4, ?Ha; simpl; auto.
  - rewrite <- Hu. by apply (log_valid_single id v (CM_ViewChange (MkViewChange id v ms cert ui))).
  - constructor; [simpl; lia|constructor].
  - constructor; [|constructor]. split; [done|]. apply validateViewChange_OK; simpl.
    + apply Forall_forall. intros m Hm. split; [by eapply (Forall_forall _ _) in H2|].
      pose proof (log_valid_last _ _ _ _ _ H1 Hm). lia.
    + lia.
    + lia.
    + lia.
    + split; [lia|]. split; [done|]. replace (v - 1) with (expectedView (views s)) by lia.
      rewrite Hu. exact H1.
Qed.

Lemma processReqViewChange_keeps rvc : rel keeps (processReqViewChange id cfg rvc).
Proof.
  intros s. unfold processReqViewChange, zoom, mbind, M_bind.
  destruct (Collect.collectReqViewChange vcCertSize rvc (rvcCollected s)) as [[new cert] st] eqn:E.
  intros Hb. assert (bounded s) as Hbs.
  { destruct cert as [c|]; simpl in Hb; [|done].
    assert (rel keeps' (startViewChange id (rvc_NewView rvc) c)) as Hk by apply startViewChange_bounded.
    exact (Hk (set_rvcCollected st s) Hb). }
  split; [done|]. intros Hi. pose proof Hi as [H1 H2 H3 H4 H5].
  destruct (Collect.rvc_step _ _ _ _ _ _ Hsize H5 E) as [H5' Hc]. destruct cert as [c|]; simpl in *.
  - destruct Hc as (Hv & Hv' & Hvalid & _). rewrite H4 in *.
    refine (proj2 (startViewChange_keeps (rvc_NewView rvc) c s st Hv _ _ H5' Hb) Hi); congruence.
  - constructor; unfold ownLog, nextCV in *; simpl; auto. congruence.
Qed.

Lemma processNewViewCert_keeps v cert :
  isPrimary v id n = true → rel keeps (processNewViewCert id v cert).
Proof.
  intros Hp s. unfold processNewViewCert, mbind, M_bind, gets. simpl.
  destruct (N.eqb_spec v (expectedView (views s))) as [Hv|]; simpl; [|reflexivity].
  match goal with |- context [handleGeneratedMessage _ ?x] => set (s1 := x) end.
  destruct (generate_certified (CM_NewView (NewNewView id v cert)) s1) as (ui & au & -> & Hu & Ha).
  simpl in *. intros [Hb1 Hb2]. simpl in Hb1, Hb2. rewrite Ha in Hb1. split; [split; [lia|done]|].
  rewrite u64_small in Hu by done. intros [H1 H2 H3 H4 H5].
  constructor; unfold ownLog, nextCV in *; simpl; auto.
  - rewrite Ha, <- Hu, <- Hv. by apply (log_valid_single id v (CM_NewView (MkNewView id v cert ui))).
  - constructor; [simpl; lia|constructor].
  - by constructor; [|constructor].
Qed.

#[local] Instance keeps_preserved : Preserves id cfg keeps.
Proof.
  split; [constructor|]; try apply _; intros; auto using generated_keeps, processReqViewChange_keeps,
    processNewViewCert_keeps, startReqTimer_local, stopReqTimer_local, startPrepTimer_local,
    stopPrepTimer_local, stopVCTimer_local, prepareReq_local, executeRequest_local, rel_local_keeps.
  - apply processRequest_parts; [apply _|..]; intros; auto with mrel. by apply generated_keeps.
  - apply rel_same_keeps, rel_zoom. by split.
  - by apply same_keeps.
  - apply rel_zoom. intros s a t E. apply log_inv_ext; try done. simpl.
    unfold ViewState.AdvanceCurrentView in E. case_if; by simplify_eq.
  - by apply same_keeps.
  - by apply same_keeps.
  - unfold handlePrepTimeout. apply rel_bind; [apply _|auto with mrel|intros logs].
    destruct (logs !! _); [|auto with mrel]. apply rel_same_keeps, rel_modify; by split.
  - unfold finishExecution. apply rel_bind; [apply _|auto with mrel|]. intros [[]|]; [|auto with mrel].
    apply rel_bind; [apply _|apply rel_same_keeps, rel_modify; by split|intros _]. by apply generated_keeps.
Qed.

Lemma lastUI_keeps i v (s : state) : keeps s (set_lastUI (<[i := v]> (lastUI s)) s).
Proof. by apply same_keeps. Qed.

Lemma log_inv_init au co : usigCounter au = 0 → log_inv (newReplica id cfg au co).
Proof.
  intros Ha. constructor; unfold ownLog, nextCV; simpl; try done; [|by constructor..|by apply Collect.rvc_inv_init].
  rewrite Ha. split; [|done]. intros i m. by rewrite lookup_nil.
Qed.

Lemma reachable_log_inv au co s :
  usigCounter au = 0 → reachable id cfg au co s → bounded s → log_inv s.
Proof.
  intros Ha Hr. apply (reachable_inv id cfg (λ s, bounded s → log_inv s) au co); [| |done].
  - intros _. by apply log_inv_init.
  - intros a s0 Hs0 Hb. destruct (perform_rel id cfg keeps lastUI_keeps a s0 Hb) as [Hb0 Hk]. auto.
Qed.
End Invariant.

(** C9: a replica's log is always complete.  With an accepted configuration and a
    USIG that counts from zero, in every reachable state (with less than [2^64]
    UIs and view changes so far) the certified messages of the replica's log are
    its own, have consecutive UI counters up to the USIG's last one, start with
    the message that opened the expected view (or with counter 1 in view 0), and
    contain no other ViewChange or NewView: the condition under which peers
    accept the log in a ViewChange message. *)
Theorem own_log_complete {Au Co} `{!Authenticator Au} `{!SequentialUSIG Au} `{!RequestConsumer Co}
    `{!RangeOrder} id cfg (au : Au) (co : Co) s :
  in_u32 (cfg_N cfg) → cfg_F cfg < 2 ^ 31 → notEnoughNodes (cfg_N cfg) (cfg_F cfg) = false →
  usigCounter au = 0 → reachable id cfg au co s → bounded s →
  log_valid id (expectedView (views s)) (ownLog s) (usigCounter (authen s) + 1).
Proof.
  intros H1 H2 H3 Ha Hr Hb. destruct (cert_sizes _ _ H1 H2 H3) as (_ & _ & Hv).
  apply (reachable_log_inv id cfg ltac:(lia) au co s Ha Hr Hb).
Qed.

(** C8: peers accept what a replica generates.  Under the same conditions, every
    message in the replica's log bears its identifier and passes the validator of
    its type: [validatePrepare] for a Prepare, [validateCommit] for a Commit,
    [validateViewChange] for a ViewChange; a ReqViewChange is for a view above 0.
    Of a NewView this shows that it is from the primary of its view; its
    certificate is the subject of [Collect.nv_certificates_valid]. *)
Theorem generated_messages_valid {Au Co} `{!Authenticator Au} `{!SequentialUSIG Au}
    `{!RequestConsumer Co} `{!RangeOrder} id cfg (au : Au) (co : Co) s m :
  in_u32 (cfg_N cfg) → cfg_F cfg < 2 ^ 31 → notEnoughNodes (cfg_N cfg) (cfg_F cfg) = false →
  usigCounter au = 0 → reachable id cfg au co s → bounded s →
  m ∈ msgs (log s) → content_ok id cfg m.
Proof.
  intros H1 H2 H3 Ha Hr Hb Hm. destruct (cert_sizes _ _ H1 H2 H3) as (_ & _ & Hv).
  destruct (reachable_log_inv id cfg ltac:(lia) au co s Ha Hr Hb) as [_ _ Hc _ _].
  by eapply (Forall_forall _ _) in Hc.
Qed.

(** ** Witnesses: a view change on replica 1 after it committed to a request *)

Definition afterViewChange : replica N (list bytes) :=
  (runPeer (Msg_ReqViewChange (MkReqViewChange 2 1 []))
     (runPeer (Msg_ReqViewChange (MkReqViewChange 0 1 [])) afterPrepare).2).2.

Definition viewChange1 : ViewChange :=
  MkViewChange 1 1 [CM_Commit (MkCommit 1 prepare9 (MkUI 1 []))]
    [MkReqViewChange 0 1 []; MkReqViewChange 2 1 []] (MkUI 2 []).

Lemma afterViewChange_reachable :
  @reachable N (list bytes) plainAuthen recordingConsumer keyOrder 1 cfg3 0 [] afterViewChange.
Proof.
  unfold reachable. etrans; [|etrans].
  - apply (@steps_peer N (list bytes) plainAuthen recordingConsumer keyOrder 1 cfg3
      (Msg_Certified prepare9) _ (OK true) afterPrepare); vm_compute; reflexivity.
  - apply (@steps_peer N (list bytes) plainAuthen recordingConsumer keyOrder 1 cfg3
      (Msg_ReqViewChange (MkReqViewChange 0 1 [])) _ (OK true)
      (runPeer (Msg_ReqViewChange (MkReqViewChange 0 1 [])) afterPrepare).2); vm_compute; reflexivity.
  - apply (@steps_peer N (list bytes) plainAuthen recordingConsumer keyOrder 1 cfg3
      (Msg_ReqViewChange (MkReqViewChange 2 1 [])) _ (OK true) afterViewChange); vm_compute; reflexivity.
Qed.

Lemma afterViewChange_bounded : @bounded N (list bytes) plainAuthen plainUSIG afterViewChange.
Proof. split; vm_compute; reflexivity. Qed.

Lemma own_log_complete_witness :
  log_valid 1 1 [CM_ViewChange viewChange1] 3.
Proof.
  exact (@own_log_complete N (list bytes) plainAuthen plainUSIG recordingConsumer keyOrder 1 cfg3 0 []
    afterViewChange eq_refl eq_refl eq_refl eq_refl afterViewChange_reachable afterViewChange_bounded).
Defined.

Lemma generated_messages_valid_witness :
  content_ok 1 cfg3 (Msg_Certified (CM_ViewChange viewChange1)).
Proof.
  apply (@generated_messages_valid N (list bytes) plainAuthen plainUSIG recordingConsumer keyOrder 1 cfg3 0 []
    afterViewChange _ eq_refl eq_refl eq_refl eq_refl afterViewChange_reachable afterViewChange_bounded).
  vm_compute. left.
Defined.

End OwnLog.
