(* ===== verification/LogOrder.v ===== *)
(** The order of a replica's own commitments.

    The certified messages a replica generates in a view are commitments to the
    proposals of the view's primary, one by one in the order of the primary's UI
    counters: [own_log_sequential].  This is what [ViewSafety] asks of the logs in a
    new-view certificate.

    The steps considered are those of [Handling.step] with messages that passed the
    validators ([accepted]); a NewView that bears the replica's own identifier is
    one it generated ([own_newview]), as nobody else can use its USIG. *)

From S2P Require Import Prelude Usig Messages Authen ViewState Timer ClientState.
From S2P Require Import RequestList MessageLog Quorum Commit Api Validation NewViewCert.
From S2P Require Import Collect Replica Handling Preservation OwnLog ViewSafety.

Import ViewState(viewState, currentView, expectedView).
Import MessageLogM(messageLog, msgs).
Import Commitment(coll_acceptor).

Module LogOrder.
Import Replica Handling Preservation Quorum Validation OwnLog ViewSafety NewViewCertM.

(** ** Logs that follow the primary *)

Lemma strip_snoc l m : (∀ vc, m ≠ CM_ViewChange vc) → strip (l ++ [m]) = strip l ++ [m].
Proof. destruct l as [|[] l]; try done. destruct m; try done. intros H. by edestruct H. Qed.

(** [B] follows the primary of view [e] up to the proposal with counter [c]. *)
Definition tracks (n e : N) (B : MessageLog) (c : N) : Prop :=
  (e = 0 ∧ sequentialFrom n 0 1 B = true ∧ c = N.of_nat (length B)) ∨
  (0 < e ∧ ∃ m nv ps, B = m :: ps ∧ proposalOf m = CM_NewView nv ∧ nv_NewView nv = e ∧
     isPrimary e (nv_ReplicaID nv) n = true ∧
     sequentialFrom n e (Counter (nv_UI nv) + 1) ps = true ∧
     c = Counter (nv_UI nv) + N.of_nat (length ps)).

Lemma sequentialFrom_snoc n v cv l m p :
  sequentialFrom n v cv l = true → proposalOf m = CM_Prepare p → prep_View p = v →
  isPrimary v (prep_ReplicaID p) n = true → Counter (prep_UI p) = cv + N.of_nat (length l) →
  sequentialFrom n v cv (l ++ [m]) = true.
Proof.
  revert cv. induction l as [|m0 l IH]; intros cv Hs Hm Hv Hp Hc; cbn [app sequentialFrom].
  - rewrite Hm, Hp, !andb_true_iff, !N.eqb_eq. simpl in Hc. split_and!; [done|done|lia|done].
  - cbn [sequentialFrom] in Hs. destruct (proposalOf m0); try done. nbool.
    rewrite !andb_true_iff, !N.eqb_eq. split_and!; try done. apply IH; auto. simpl in Hc. lia.
Qed.

Lemma tracks_snoc n e B c m p :
  tracks n e B c → proposalOf m = CM_Prepare p → prep_View p = e →
  isPrimary e (prep_ReplicaID p) n = true → Counter (prep_UI p) = c + 1 →
  tracks n e (B ++ [m]) (c + 1).
Proof.
  intros [(-> & Hs & ->)|(He & m0 & nv & ps & -> & Hm0 & Hv0 & Hp0 & Hs & ->)] Hm Hv Hp Hc.
  - left. split; [done|]. rewrite length_app. simpl. split; [|lia].
    eapply sequentialFrom_snoc; eauto. lia.
  - right. split; [done|]. exists m0, nv, (ps ++ [m]). rewrite length_app. simpl.
    split_and!; try done; [|lia]. eapply sequentialFrom_snoc; eauto. lia.
Qed.

Lemma tracks_open n e m nv :
  0 < e → proposalOf m = CM_NewView nv → nv_NewView nv = e →
  isPrimary e (nv_ReplicaID nv) n = true → tracks n e [m] (Counter (nv_UI nv)).
Proof. intros. right. split; [done|]. exists m, nv, []. split_and!; try done. simpl. lia. Qed.

Lemma tracks_sequential n e B c : tracks n e B c → sequential n e B = true.
Proof.
  unfold sequential. intros [(-> & Hs & _)|(He & m & nv & ps & -> & Hm & Hv & Hp & Hs & _)]; [done|].
  destruct (N.eqb_spec e 0); [lia|]. rewrite Hm, Hp, Hs, Hv, N.eqb_refl. done.
Qed.

Lemma sequential_nil n e : sequential n e [] = true.
Proof. unfold sequential. by case_if. Qed.

Section Invariant.
Context {Au Co : Type} `{!Authenticator Au} `{!SequentialUSIG Au} `{!RequestConsumer Co} `{!RangeOrder}.
Context (id : N) (cfg : Configer).
Abbreviation state := (replica Au Co).
Abbreviation n := (cfg_N cfg).
Abbreviation vcCertSize := (viewChangeCertSize (cfg_N cfg) (cfg_F cfg)).
Abbreviation expected s := (expectedView (views s)).
Abbreviation current s := (currentView (views s)).
Abbreviation usig s := (usigCounter (authen s)).
Abbreviation viewOf s r := (lookupN (Commitment.replicaViews (coll_acceptor (commitments s))) r).
Abbreviation lastCV s r := (lookupN (Commitment.lastPrimaryCVs (coll_acceptor (commitments s))) r).

(** The replica's own certified messages of the expected view. *)
Definition ownBody (s : state) : MessageLog := strip (ownLog s).

(** As the primary of the expected view: the replica has not opened the view yet, or
    the log ends with the last UI. *)
Definition primary_log (s : state) : Prop :=
  (0 < expected s ∧ ownBody s = [] ∧ current s ≠ expected s) ∨
  tracks n (expected s) (ownBody s) (usig s).

(** As a backup: no NewView was accepted yet, or the log follows the primary up to the
    last proposal accepted from it. *)
Definition backup_log (s : state) : Prop :=
  let p := expected s mod n in
  (0 < expected s ∧ ownBody s = [] ∧ viewOf s p < expected s) ∨
  (viewOf s p = expected s ∧ tracks n (expected s) (ownBody s) (lastCV s p)).

Record order_inv (s : state) : Prop := {
  oi_view : ∀ r, viewOf s r ≤ expected s;
  oi_range : ∀ r, in_u64 (lastCV s r);
  oi_current : isPrimary (current s) id n = true → current s ≤ expected s;
  oi_log : if isPrimary (expected s) id n then primary_log s else backup_log s }.

(** As long as the USIG counter has not wrapped around. *)
Definition inv (s : state) : Prop := usig s < 2 ^ 64 → order_inv s.

Definition frame (s s' : state) : Prop :=
  ownLog s = ownLog s' ∧ views s = views s' ∧ usig s = usig s' ∧
  coll_acceptor (commitments s) = coll_acceptor (commitments s').

#[local] Instance frame_preorder : PreOrder frame.
Proof. split; unfold frame; [done|]. intros ??? (?&?&?&?) (?&?&?&?). split_and!; congruence. Qed.

Lemma frame_inv s s' : frame s s' → inv s → inv s'.
Proof.
  intros (E1 & E2 & E3 & E4). unfold inv. rewrite E3. intros Hi Hb. destruct (Hi Hb) as [H1 H2 H3 H4].
  unfold primary_log, backup_log, ownBody in *. rewrite E1, E2, E3, E4 in *.
  by constructor.
Qed.

Lemma local_frame (s s' : state) : local s s' → frame s s'.
Proof. intros ((E1&_&E2&E3&_)&E4&_). unfold frame, ownLog. by rewrite E1, E2, E3, E4. Qed.

(** An operation on clients, requests and timers keeps what depends on the frame. *)
Definition framed (P : state → Prop) : Prop := ∀ s s', frame s s' → P s → P s'.

Lemma partial_local {A} (m : M state A) (P : state → Prop) :
  rel local m → framed P → partial P m (λ _, P).
Proof. intros Hm HP. eapply partial_rel; [done|]. intros _ s s' Hs Hl. eapply HP; [by apply local_frame|done]. Qed.

Lemma inv_framed : framed inv.
Proof. intros s s'. apply frame_inv. Qed.

Lemma views_framed v : framed (λ s, views s = v).
Proof. intros s s' (_ & E & _) <-. done. Qed.

Lemma and_framed P Q : framed P → framed Q → framed (λ s, P s ∧ Q s).
Proof. intros HP HQ s s' Hf [??]. split; [by eapply HP|by eapply HQ]. Qed.

(** ** Generated messages *)

(** What the log and the counter are after a certified message was generated. *)
Lemma generated_spec m (s : state) :
  ∃ s' ui, handleGeneratedMessage (Msg_Certified m) s = (OK tt, s') ∧
    Counter ui = u64 (usig s + 1) ∧ usig s' = usig s + 1 ∧
    ownLog s' = ownLog s ++ [cm_SetUI ui m] ∧ views s' = views s ∧ commitments s' = commitments s.
Proof.
  destruct (generate_certified m s) as (ui & au & E & Hu & Ha). eexists _, ui. split; [exact E|].
  split_and!; try done. unfold ownLog. simpl. by rewrite certified_snoc.
Qed.

Lemma generate_other_frame m : gen_ok id cfg m → (∀ cm, m ≠ Msg_Certified cm) →
  rel frame (handleGeneratedMessage m).
Proof.
  intros Hg Hn s. destruct m as [r|r|r|r|m]; try done; [| |by edestruct Hn].
  - destruct (generate_reply r s) as (sig & au & -> & Ha).
    etrans; [|apply local_frame, onClient_local]. by split_and!.
  - destruct (generate_rvc r s) as (sig & au & -> & Ha). split_and!; try done. unfold ownLog. simpl.
    by rewrite certified_snoc, app_nil_r.
Qed.

(** The replica is in view [e] and may generate proposals or accept them. *)
Definition in_view (e : N) (s : state) : Prop := inv s ∧ views s = ViewState.MkViewState e e.

Lemma in_view_framed e : framed (in_view e).
Proof. apply and_framed; [apply inv_framed|apply views_framed]. Qed.

Lemma generate_prepare req e :
  isPrimary e id n = true →
  partial (in_view e) (handleGeneratedMessage (Msg_Certified (CM_Prepare (NewPrepare id e req))))
    (λ _, in_view e).
Proof.
  intros Hp s [Hi Hv]. destruct (generated_spec (CM_Prepare (NewPrepare id e req)) s)
    as (s' & ui & -> & Hu & Hus & Hlog & Hvs & Hc).
  split; [|by rewrite Hvs]. intros Hb. rewrite Hus in Hb. destruct Hi as [H1 H2 H3 H4]; [lia|].
  rewrite u64_small in Hu by done.
  constructor; rewrite ?Hvs, ?Hc; auto. unfold primary_log, ownBody in *. rewrite Hvs, Hlog, Hv in *. simpl in *.
  rewrite Hp in *. rewrite strip_snoc by done. rewrite Hus. right.
  destruct H4 as [(_ & _ & Hne)|Ht]; [done|].
  by apply (tracks_snoc _ _ _ _ _ (MkPrepare id e req ui)).
Qed.

Lemma applyRequest_order req e :
  partial (in_view e) (applyRequest id cfg req e) (λ _, in_view e).
Proof.
  unfold applyRequest. apply partial_seq; [|intros _|done].
  { apply partial_local; [auto with mrel|apply in_view_framed]. }
  destruct (isPrimary e id n) eqn:Ep; [by apply generate_prepare|].
  apply partial_local; [auto with mrel|apply in_view_framed].
Qed.

Lemma processRequest_order req : partial inv (processRequest id cfg req) (λ _, inv).
Proof.
  unfold processRequest. apply partial_gets. intros [cur e].
  set (P := λ s, inv s ∧ ViewState.HoldView (views s) = (cur, e)).
  assert (framed P) as HP.
  { intros s s' Hf [Hi E]. split; [by eapply inv_framed|]. by destruct Hf as (_ & <- & _). }
  apply partial_seq; [by apply partial_local; auto with mrel| |by intros ? []].
  intros [[|]|]; [|by apply partial_ret; intros ? []|apply partial_panic].
  apply (partial_bind _ _ _ (λ _, inv)); [| |done].
  - destruct (N.eqb_spec cur e) as [->|]; simpl; [|by apply partial_ret; intros ? []].
    eapply partial_impl; [apply (applyRequest_order req e)| |by intros ? ? []].
    intros s [Hi E]. split; [done|]. unfold ViewState.HoldView in E. destruct (views s); by simplify_eq/=.
  - intros _. apply partial_seq; [apply partial_local; [auto with mrel|apply inv_framed]| |done].
    intros _. by apply partial_ret.
Qed.

(** ** Accepting commitments *)

(** The execution of a proposal returns no error. *)
Definition noError {A} (m : M state A) : Prop := ∀ s e, (m s).1 ≠ Error e.

Lemma noError_bind {A B} (m : M state A) (k : A → M state B) :
  noError m → (∀ a, noError (k a)) → noError (m ≫= k).
Proof.
  intros Hm Hk s e. specialize (Hm s). unfold mbind, M_bind. destruct (m s) as [[a|e'|p] s']; simpl in *;
    [apply Hk|by intros [= <-]; apply (Hm e')|done].
Qed.

Lemma executeRequest_noError req : noError (executeRequest req).
Proof.
  unfold executeRequest, retireReq, onSeq.
  repeat (apply noError_bind; [|intros ?]); try (intros s e; done).
  - intros s e. unfold onClient, zoom. by destruct (ClientState.withClient _ _ _).
  - intros s e. by destruct a as [|[]|].
  - intros s e. by destruct a.
  - destruct a; simpl; [|done]. apply noError_bind; [|done]. intros s e. unfold stopReqTimer, onClientTimer.
    by destruct (Timer.Stop _ _).
Qed.

Lemma extract_noError c e : extractPreparedRequests c ≠ Error e.
Proof.
  revert e. apply (extract_ind (λ c o, ∀ e, o ≠ Error e)); [done|]. clear c. intros c IH _ e.
  assert (∀ l acc, (∀ m nv, m ∈ l → proposalOf m = CM_NewView nv →
      ∀ e, extractPreparedRequests (nv_NewViewCert nv) ≠ Error e) →
      (∀ e, acc ≠ Error e) → foldl (replayStep extractPreparedRequests) acc l ≠ Error e) as Hfold.
  { induction l as [|m l IHl]; intros acc Hl Hacc; [apply Hacc|]. cbn [foldl]. apply IHl; [set_solver|].
    intros e'. destruct acc as [rs|e0|]; [|by destruct (Hacc e0)|done]. simpl.
    destruct (proposalOf m) eqn:Em; try done. apply (Hl m); [set_solver|done]. }
  by apply Hfold.
Qed.

Lemma acceptNewView_noError nv : noError (acceptNewView nv).
Proof.
  unfold acceptNewView. apply noError_bind.
  - intros s e. apply extract_noError.
  - intros reqs. induction reqs as [|req reqs IH]; [done|]. cbn [forM].
    apply noError_bind; [apply executeRequest_noError|by intros _].
Qed.

Lemma acceptNewView_local nv : rel (S := state) local (acceptNewView nv).
Proof. unfold acceptNewView. auto with mrel. Qed.

(** Collecting a commitment, by what the collector answers. *)
Lemma collectCommitment_partial m view isNewView (P Q Q' : state → Prop) :
  (∀ vc, m ≠ CM_ViewChange vc) → proposalView (proposalOf m) = Some (view, isNewView) →
  framed Q →
  (∀ s o st, P s → Commitment.collect (Commitment.MkCommitment (cm_ReplicaID m) isNewView view
       (cm_Counter (proposalOf m)) (cm_Counter m)) (commitments s) = (o, st) →
     if isOK o then Q (set_commitments st s) else Q' (set_commitments st s)) →
  partial P (collectCommitment m) (λ o s, match o with Some _ => Q s | None => Q' s end).
Proof.
  intros Hm Hv HQ Hc s Hs.
  assert (∀ ex : M state unit, noError ex → rel local ex → partial Q ex
            (λ o s, match o with Some _ => Q s | None => Q' s end)) as Hexec.
  { intros ex Hn Hl s1 H1. specialize (Hn s1). specialize (Hl s1).
    destruct (ex s1) as [[a|e|p] s2]; simpl in *; [|by destruct (Hn e)|done].
    eapply HQ; [by apply local_frame|done]. }
  assert (collectCommitment m s =
    (done ← zoom commitments set_commitments
            (Commitment.collect (Commitment.MkCommitment (cm_ReplicaID m) isNewView view
               (cm_Counter (proposalOf m)) (cm_Counter m)));
     done ← lift done;
     if negb done then mret tt
     else match proposalOf m with
          | CM_Prepare p => executeRequest (prep_Request p)
          | CM_NewView nv => acceptNewView nv
          | _ => panic "Unexpected proposal message type"
          end) s) as ->.
  { unfold collectCommitment. destruct m as [p|c|vc|nv]; try (by rewrite Hv). by edestruct Hm. }
  unfold zoom, mbind, M_bind. destruct (Commitment.collect _ _) as [o st] eqn:E.
  specialize (Hc _ _ _ Hs E). simpl. destruct o as [b|e|p]; simpl in *; [|done|done].
  destruct b; simpl; [|done].
  destruct (proposalOf m); [|done|done|];
    [apply (Hexec _ (executeRequest_noError _)); auto with mrel
    |apply (Hexec _ (acceptNewView_noError _)); [apply acceptNewView_local|done]].
Qed.

(** What the acceptor records. *)
Lemma collect_step c (s : state) o st :
  Commitment.collect c (commitments s) = (o, st) → Commitment.cv_ok c →
  in_u64 (lastCV s (Commitment.c_replicaID c)) →
  let s' := set_commitments st s in let r := Commitment.c_replicaID c in
  if isOK o
  then viewOf s' r = Commitment.c_view c ∧ lastCV s' r = Commitment.c_primaryCV c ∧
       (∀ r', r' ≠ r → viewOf s' r' = viewOf s r' ∧ lastCV s' r' = lastCV s r') ∧
       (if Commitment.c_newView c then viewOf s r < Commitment.c_view c
        else viewOf s r = Commitment.c_view c ∧ Commitment.c_primaryCV c = lastCV s r + 1)
  else frame s s'.
Proof.
  unfold Commitment.collect. intros Hcol Hcv Hr.
  destruct (Commitment.acceptCommitment _ _ _ _ _ _) as [[[]|e|p] a] eqn:Ea.
  - destruct (Commitment.countCommitment _ _ _) as [b cnt]. simplify_eq/=.
    by apply Commitment.accept_spec.
  - unfold Commitment.acceptCommitment in Ea. repeat case_if; simplify_eq/=; by split_and!.
  - unfold Commitment.acceptCommitment in Ea. repeat case_if; simplify_eq/=.
Qed.

Lemma noError_forM {A} (f : A → M state unit) l : (∀ x, noError (f x)) → noError (forM f l).
Proof.
  intros Hf. induction l as [|x l IH]; [done|]. cbn [forM]. apply noError_bind; [done|by intros _].
Qed.

Lemma onClientTimer_noError c get put g : noError (onClientTimer c get put g).
Proof. intros s e. unfold onClientTimer. by destruct (g _). Qed.

(** An operation that cannot fail, before a continuation that expects [P]. *)
Lemma partial_then {A B} (m : M state A) (k : A → M state B) P Q :
  noError m → rel local m → framed P → (∀ a, partial P (k a) Q) → partial P (m ≫= k) Q.
Proof.
  intros Hn Hl HP Hk s Hs. specialize (Hn s). specialize (Hl s). unfold mbind, M_bind.
  destruct (m s) as [[a|e|p] s']; simpl in *; [|by destruct (Hn e)|done].
  apply Hk. eapply HP; [by apply local_frame|done].
Qed.

(** *** Messages that passed validation *)

Definition valid (m : CertifiedMessage) : Prop :=
  validateCertifiedMessage (Au := Au) n vcCertSize m = OK tt ∧ in_u64 (cm_Counter m).

Definition accepted (m : CertifiedMessage) : Prop :=
  valid m ∧ match m with CM_Commit c => valid (comm_Proposal c) | _ => True end.

(** A proposal of view [e] by its primary. *)
Definition proposal (e : N) (prop : CertifiedMessage) (isNewView : bool) : Prop :=
  proposalView prop = Some (e, isNewView) ∧ isPrimary e (cm_ReplicaID prop) n = true ∧
  0 < cm_Counter prop ∧ in_u64 (cm_Counter prop) ∧ (isNewView = true → 0 < e).

Lemma valid_counter m : valid m → 0 < cm_Counter m.
Proof.
  intros [Hv _]. unfold validateCertifiedMessage, verifyUI in Hv.
  apply outcome_bind_OK in Hv as ([] & Hv & _). apply wrapf_OK in Hv.
  destruct (N.eqb_spec (cm_Counter m) 0); [done|lia].
Qed.

Lemma valid_proposal m e isNewView :
  valid m → proposalView m = Some (e, isNewView) → proposal e m isNewView.
Proof.
  intros Hv Hp. pose proof (valid_counter _ Hv) as Hpos. destruct Hv as [Hv Hu].
  unfold validateCertifiedMessage in Hv. apply outcome_bind_OK in Hv as ([] & _ & Hv).
  destruct m as [p| | |nv]; simplify_eq/=; split_and!; try done.
  - unfold validatePrepare in Hv. case_if; by nbool.
  - unfold validateNewView in Hv. repeat case_if; by nbool.
  - intros _. unfold validateNewView in Hv. repeat case_if; nbool; try done. lia.
Qed.

Lemma valid_commit c : valid (CM_Commit c) → comm_ReplicaID c ≠ cm_ReplicaID (comm_Proposal c).
Proof.
  intros [Hv _]. unfold validateCertifiedMessage in Hv. apply outcome_bind_OK in Hv as ([] & _ & Hv).
  unfold validateCommit in Hv. by destruct (N.eqb_spec (comm_ReplicaID c) (cm_ReplicaID (comm_Proposal c))).
Qed.

(** A commitment other than of the primary to a backup's own knowledge of it. *)
Lemma collect_other m vs isNewView :
  let e := expectedView vs in let P s := inv s ∧ views s = vs in
  (∀ vc, m ≠ CM_ViewChange vc) → proposal e (proposalOf m) isNewView →
  isPrimary e id n = true ∨ isPrimary e (cm_ReplicaID m) n = false →
  partial P (collectCommitment m) (λ _, P).
Proof.
  intros e P Hm (Hv & Hprim & Hpos & Hu & _) Hother.
  eapply partial_impl; [apply (collectCommitment_partial m e isNewView P P P)|done|by intros [[]|] s]; [done|done| |].
  { apply and_framed; [apply inv_framed|apply views_framed]. }
  intros s o st [Hi Hvs] Hc. assert (expected s = e) as He by (by rewrite Hvs).
  assert (P (set_commitments st s)); [|by destruct (isOK o)].
  split; [|done]. intros Hb. specialize (Hi Hb). destruct Hi as [H1 H2 H3 H4].
  pose proof (collect_step _ _ _ _ Hc ltac:(by split) (H2 _)) as Hs. simpl in Hs. destruct (isOK o).
  - destruct Hs as (Hv' & Hl' & Hoth & _). constructor; simpl in *.
    + intros r. destruct (decide (r = cm_ReplicaID m)) as [->|Hne]; [lia|].
      destruct (Hoth r Hne) as [-> _]. done.
    + intros r. destruct (decide (r = cm_ReplicaID m)) as [->|Hne]; [by rewrite Hl'|].
      destruct (Hoth r Hne) as [_ ->]. done.
    + done.
    + rewrite He in *. destruct (isPrimary e id n) eqn:Ep; [done|]. destruct Hother as [|Hother]; [done|].
      unfold backup_log in *. simpl. rewrite He in *.
      destruct (Hoth (e mod n)) as [-> ->]; [|done].
      intros Heq. unfold isPrimary in Hother. by rewrite Heq, N.eqb_refl in Hother.
  - eapply frame_inv; [done|by constructor|done].
Qed.

(** Between accepting a proposal of the primary and generating the Commit to it, a
    backup's log lacks one message. *)
Definition owes (prop : CertifiedMessage) (e : N) (s : state) : Prop :=
  views s = ViewState.MkViewState (current s) e ∧
  (usig s < 2 ^ 64 →
    (∀ r, viewOf s r ≤ e) ∧ (∀ r, in_u64 (lastCV s r)) ∧
    (isPrimary (current s) id n = true → current s ≤ e) ∧
    viewOf s (e mod n) = e ∧
    ∀ m, proposalOf m = prop → (∀ vc, m ≠ CM_ViewChange vc) →
      tracks n e (ownBody s ++ [m]) (lastCV s (e mod n))).

Lemma owes_framed prop e : framed (owes prop e).
Proof.
  intros s s' (E1 & E2 & E3 & E4) [Hv Ho]. unfold owes, ownBody in *. rewrite E1, E2, E3, E4 in *. done.
Qed.

Lemma generate_commit prop e :
  isPrimary e id n = false →
  partial (owes prop e) (handleGeneratedMessage (Msg_Certified (CM_Commit (NewCommit id prop)))) (λ _, inv).
Proof.
  intros Hp s [Hv Ho]. destruct (generated_spec (CM_Commit (NewCommit id prop)) s)
    as (s' & ui & -> & Hu & Hus & Hlog & Hvs & Hc).
  intros Hb. rewrite Hus in Hb. destruct Ho as (H1 & H2 & H3 & H4 & H5); [lia|].
  assert (expected s = e) as He by (by rewrite Hv).
  constructor; rewrite ?Hvs, ?Hc, ?He; auto. rewrite Hp. unfold backup_log, ownBody.
  rewrite Hvs, Hc, He, Hlog, strip_snoc by done. right. split; [done|]. by apply H5.
Qed.

(** A backup accepts a proposal of the primary, or refuses it. *)
Lemma collect_proposal prop e isNewView :
  proposal e prop isNewView → isPrimary e id n = false → proposalOf prop = prop →
  partial (λ s, inv s ∧ expected s = e) (collectCommitment prop)
    (λ o s, match o with Some _ => owes prop e s | None => inv s end).
Proof.
  intros (Hv & Hprim & Hpos & Hu & Hnz) Hb Hself.
  assert (cm_ReplicaID prop = e mod n) as Hr by (unfold isPrimary in Hprim; by nbool).
  eapply (collectCommitment_partial prop e isNewView).
  - intros vc ->. done.
  - by rewrite Hself.
  - apply owes_framed.
  - rewrite Hself. intros s o st [Hi He] Hc.
    assert (views s = ViewState.MkViewState (current s) e) as Hviews.
    { destruct (views s); simpl in *. by subst. }
    assert (usig s < 2 ^ 64 → order_inv s) as Hi' by done.
    destruct (isOK o) eqn:Eo.
    + split; [done|]. intros Hbd. destruct (Hi Hbd) as [H1 H2 H3 H4].
      pose proof (collect_step _ _ _ _ Hc ltac:(by split) (H2 _)) as Hs. rewrite Eo in Hs. simpl in Hs.
      rewrite Hr in Hs. destruct Hs as (Hv' & Hl' & Hoth & Hkind). rewrite He, Hb in *. simpl. split_and!.
      * intros r. destruct (decide (r = e mod n)) as [->|Hne]; [by rewrite Hv'|].
        destruct (Hoth r Hne) as [-> _]. done.
      * intros r. destruct (decide (r = e mod n)) as [->|Hne]; [by rewrite Hl'|]. destruct (Hoth r Hne) as [_ ->]. done.
      * done.
      * done.
      * intros m Hm Hnvc. simpl in *. rewrite Hl'. unfold backup_log in H4. rewrite He in H4.
        change (ownBody (set_commitments st s)) with (ownBody s).
        destruct prop as [p| | |nv]; simplify_eq/=.
        -- destruct Hkind as [Hve Hcv].
           destruct H4 as [(_ & _ & Hlt)|[_ Ht]]; [lia|]. rewrite Hcv. by eapply tracks_snoc.
        -- destruct H4 as [(He0 & -> & _)|[Hve _]]; [|lia]. by eapply tracks_open.
    + intros Hbd. pose proof (Hi Hbd) as [H1 H2 H3 H4].
      pose proof (collect_step _ _ _ _ Hc ltac:(by split) (H2 _)) as Hs. rewrite Eo in Hs.
      by eapply frame_inv.
Qed.

(** ** Appliers *)

Lemma other_primary e r : isPrimary e r n = true → id ≠ r → isPrimary e id n = false.
Proof. unfold isPrimary. intros H1 H2. nbool. apply N.eqb_neq. congruence. Qed.

Lemma applyPrepare_order p :
  accepted (CM_Prepare p) →
  partial (λ s, inv s ∧ expected s = prep_View p) (applyPrepare id p) (λ _, inv).
Proof.
  intros [Hv _]. pose proof (valid_proposal _ _ _ Hv eq_refl) as Hp. set (e := prep_View p) in *.
  unfold applyPrepare. apply partial_seq; [|intros new|by intros ? []].
  { apply partial_local; [auto with mrel|]. apply and_framed; [apply inv_framed|by intros s s' (_ & <- & _)]. }
  destruct new; simpl; [|by apply partial_fail; intros ? []].
  destruct (N.eqb_spec id (prep_ReplicaID p)) as [Hid|Hid].
  - intros s [Hi He]. revert s Hi He.
    assert (∀ vs, expectedView vs = e → partial (λ s, inv s ∧ views s = vs)
       (wrapM "Prepare cannot be taken into account" (collectCommitment (CM_Prepare p)) ;; mret tt)
       (λ _, inv)) as Hc.
    { intros vs Hvs. eapply (partial_bind _ _ _ (λ _ s, inv s ∧ views s = vs)); [| |by intros ? []].
      - apply partial_wrapM. eapply (collect_other _ vs); [done|by rewrite Hvs|].
        left. rewrite Hvs, Hid. apply Hp.
      - intros _. apply partial_ret. by intros ? []. }
    intros s Hi He. by apply (Hc (views s)).
  - eapply (partial_bind _ _ _ (λ o s, match o with Some _ => owes (CM_Prepare p) e s | None => inv s end)).
    + apply partial_wrapM, (collect_proposal (CM_Prepare p) e false); [done| |done].
      eapply other_primary; [apply Hp|done].
    + intros _. apply partial_then; [apply onClientTimer_noError|auto with mrel|apply owes_framed|].
      intros _. apply generate_commit. eapply other_primary; [apply Hp|done].
    + done.
Qed.

Lemma applyCommit_order c vs isNewView :
  accepted (CM_Commit c) → proposalView (comm_Proposal c) = Some (expectedView vs, isNewView) →
  partial (λ s, inv s ∧ views s = vs) (applyCommit c) (λ _, inv).
Proof.
  intros [Hv Hpv] Hview. pose proof (valid_proposal _ _ _ Hpv Hview) as Hp.
  unfold applyCommit. apply partial_wrapM.
  eapply partial_impl; [eapply (collect_other (CM_Commit c) vs)|done|by intros ? ? []]; [done|done|].
  right. apply valid_commit in Hv. destruct Hp as (_ & Hprim & _). simpl in *.
  unfold isPrimary in *. nbool. apply N.eqb_neq. congruence.
Qed.

(** The pending requests of a backup only get timers. *)
Lemma applyPending_backup e : isPrimary e id n = false → rel (S := state) local (applyPendingRequests id cfg e).
Proof.
  intros Hb. unfold applyPendingRequests, applyRequest. rewrite Hb. auto 8 with mrel.
Qed.

Lemma applyPending_noError e : isPrimary e id n = false → noError (applyPendingRequests id cfg e).
Proof.
  intros Hb. unfold applyPendingRequests, applyRequest. rewrite Hb. apply noError_bind; [done|].
  intros reqs. apply noError_forM. intros req. apply noError_bind; [apply onClientTimer_noError|].
  intros _. apply onClientTimer_noError.
Qed.

Lemma applyNewView_order nv :
  accepted (CM_NewView nv) →
  partial (in_view (nv_NewView nv)) (applyNewView id cfg nv) (λ _, inv).
Proof.
  intros [Hv _]. pose proof (valid_proposal _ _ _ Hv eq_refl) as Hp. set (e := nv_NewView nv) in *.
  unfold applyNewView. apply (partial_bind _ _ _ (λ _, in_view e)); [|intros reqs|by intros ? []].
  { intros s Hs. unfold lift. by destruct (extractPreparedRequests _). }
  apply partial_seq; [|intros _|by intros ? []].
  { apply partial_local; [auto 6 with mrel|apply in_view_framed]. }
  destruct (N.eqb_spec id (nv_ReplicaID nv)) as [Hid|Hid].
  - apply partial_seq; [|intros _|by intros ? []].
    { apply partial_wrapM, (collect_other _ (ViewState.MkViewState e e) true); [done|done|]. left. simpl.
      rewrite Hid. apply Hp. }
    apply partial_seq; [apply partial_local; [auto with mrel|apply in_view_framed]|intros _|by intros ? []].
    apply partial_seq; [|intros _; apply partial_ret; by intros ? []|by intros ? []].
    apply partial_gets. intros rs. eapply partial_impl; [apply (partial_forM _ rs (in_view e))|by intros ? []|done].
    intros req _. apply applyRequest_order.
  - assert (isPrimary e id n = false) as Hb by (eapply other_primary; [apply Hp|done]).
    eapply (partial_bind _ _ _ (λ o s, match o with Some _ => owes (CM_NewView nv) e s | None => inv s end)).
    + apply partial_wrapM. eapply partial_impl;
        [apply (collect_proposal (CM_NewView nv) e true); done| |done]. intros s [Hi ->]. done.
    + intros _. apply partial_then; [intros ? ?; done|auto with mrel|apply owes_framed|intros _].
      apply partial_then; [by apply applyPending_noError|by apply applyPending_backup|apply owes_framed|intros _].
      by apply generate_commit.
    + done.
Qed.
(** ** Processing *)

(** A NewView that bears the replica's identifier is one it generated: for a view it
    expected then, and in its log while it still expects that view. *)
Definition own_newview (m : CertifiedMessage) (s : state) : Prop :=
  match m with
  | CM_NewView nv => nv_ReplicaID nv = id → nv_NewView nv ≤ expected s ∧
                       (nv_NewView nv = expected s → CM_NewView nv ∈ ownLog s)
  | _ => True
  end.

Lemma advanceCurrent_order nv :
  accepted (CM_NewView nv) →
  partial (λ s, inv s ∧ own_newview (CM_NewView nv) s)
    (zoom views set_views (ViewState.AdvanceCurrentView (nv_NewView nv)))
    (λ o s, inv s ∧ match o with
                    | Some (true, e) => views s = ViewState.MkViewState (nv_NewView nv) e
                    | _ => True end).
Proof.
  intros [Hv _] s [Hi Hown]. unfold zoom, ViewState.AdvanceCurrentView.
  pose proof (valid_proposal _ _ _ Hv eq_refl) as (_ & Hprim & _). simpl in Hprim.
  destruct (N.ltb_spec (current s) (nv_NewView nv)) as [Hlt|Hge]; cbn; (split; [|done]).
  2: { eapply frame_inv; [|done]. split_and!; try done. }
  intros Hb. destruct (Hi Hb) as [H1 H2 H3 H4].
  assert (isPrimary (nv_NewView nv) id n = true → nv_ReplicaID nv = id) as Hid.
  { unfold isPrimary in *. intros. nbool. congruence. }
  constructor; simpl; auto.
  - intros Hp. by apply Hown, Hid.
  - destruct (isPrimary (expected s) id n) eqn:Ep; [|done].
    destruct H4 as [(He & Hbody & Hne)|Ht]; [|by right]. left. split_and!; try done. simpl.
    intros Heq. subst. rewrite Heq in Hid. destruct (Hown (Hid Ep)) as [_ Hin]. specialize (Hin Heq).
    unfold ownBody, strip in Hbody. destruct (ownLog s) as [|[] l]; simpl in *; try done; [set_solver|].
    subst l. by apply list_elem_of_singleton in Hin.
Qed.

Lemma applyInView_order m view isNewView vs :
  accepted m → proposalView (proposalOf m) = Some (view, isNewView) →
  (∀ nv, m = CM_NewView nv → currentView vs = view) →
  partial (λ s, inv s ∧ views s = vs) (applyInView id cfg m view (expectedView vs)) (λ _, inv).
Proof.
  intros Ha Hview Hcur. unfold applyInView.
  destruct (N.eqb_spec view (expectedView vs)) as [->|]; simpl; [|by apply partial_ret; intros ? []].
  apply (partial_bind _ _ _ (λ _, inv)); [apply partial_wrapM|by intros _; apply partial_ret|done].
  destruct m as [p|c|vc|nv]; simplify_eq/=.
  - apply (partial_impl _ _ _ _ _ (applyPrepare_order p Ha)); [|done]. intros s [Hi ->]. done.
  - by eapply applyCommit_order.
  - apply (partial_impl _ _ _ _ _ (applyNewView_order nv Ha)); [|done]. intros s [Hi Hs]. split; [done|]. rewrite Hs.
    specialize (Hcur nv eq_refl). destruct vs; simpl in *; congruence.
Qed.

Lemma processViewMessage_order m :
  accepted m → partial (λ s, inv s ∧ own_newview m s) (processViewMessage id cfg m) (λ _, inv).
Proof.
  intros Ha. unfold processViewMessage.
  assert (∀ view isNewView, proposalView (proposalOf m) = Some (view, isNewView) →
    (∀ nv, m ≠ CM_NewView nv) → partial (λ s, inv s ∧ own_newview m s)
      ('(currentView, expectedView) ← gets (λ s : state, ViewState.HoldView (views s));
       if currentView <? view then fail (Errorf "message refers to unexpected view")
       else applyInView id cfg m view expectedView) (λ _, inv)) as Hcase.
  { intros view isNewView Hview Hne. apply partial_gets. intros [cur e].
    case_if; [apply partial_fail; by intros ? [[]]|].
    eapply partial_impl; [apply (applyInView_order m view isNewView (ViewState.MkViewState cur e))| |done]; try done.
    - intros nv ->. by edestruct Hne.
    - intros s [[Hi _] E0]. split; [done|]. unfold ViewState.HoldView in E0. by destruct (views s); simplify_eq/=. }
  destruct m as [p|c|vc|nv].
  - by eapply Hcase.
  - destruct (proposalView _) as [[view isNewView]|] eqn:E; [by eapply Hcase|apply partial_panic].
  - apply partial_panic.
  - eapply partial_bind; [by apply advanceCurrent_order|intros [ok e]|by intros ? []].
    destruct ok; simpl; [|by apply partial_ret; intros ? []].
    by apply (applyInView_order (CM_NewView nv) _ true (ViewState.MkViewState (nv_NewView nv) e)); [| |by intros ? [= <-]].
Qed.

Lemma startViewChange_order v cert : partial inv (startViewChange id v cert) (λ _, inv).
Proof.
  intros s Hi. unfold startViewChange, zoom, mbind, M_bind. simpl.
  unfold ViewState.AdvanceExpectedView. destruct (N.ltb_spec (expected s) v) as [Hlt|Hge]; simpl.
  2: { eapply frame_inv; [|done]. by split_and!. }
  set (ms := certified _). set (s1 := set_log _ _).
  match goal with |- context [unprepareReqs ?x] =>
    assert (local s1 x) as Hs1 by done; set (s2 := x) in * end.
  pose proof (unprepareReqs_local s2) as Hs2. pose proof (unprepareReqs_ok s2) as E2.
  destruct (unprepareReqs s2) as [o2 s3]. simpl in Hs2, E2. subst o2.
  destruct (generated_spec (CM_ViewChange (NewViewChange id v ms cert)) s3)
    as (s' & ui & -> & Hu & Hus & Hlog & Hvs & Hc). intros Hb.
  destruct (local_frame s1 s3) as (F1 & F2 & F3 & F4); [by etrans|].
  rewrite Hus, <- F3 in Hb. unfold s1 in *; simpl in *.
  destruct (Hi ltac:(lia)) as [H1 H2 H3 H4].
  assert (ownBody s' = []) as Hbody. { unfold ownBody. rewrite Hlog, <- F1. done. }
  constructor; unfold primary_log, backup_log; rewrite ?Hbody, ?Hvs, ?Hc, <- ?F2, <- ?F4; simpl.
  - intros r. specialize (H1 r). lia.
  - done.
  - intros Hp%H3. lia.
  - case_if; left; (split_and!; [lia|done|]); [|specialize (H1 (v mod n)); lia].
    intros Heq. rewrite Heq in *. specialize (H3 E). lia.
Qed.

Lemma processReqViewChange_order rvc : partial inv (processReqViewChange id cfg rvc) (λ _, inv).
Proof.
  unfold processReqViewChange. apply partial_seq; [|intros [new [cert|]]|done].
  - eapply partial_rel; [apply (rel_zoom frame); intros; by split_and!|]. intros _ s s' Hi Hf. by eapply frame_inv.
  - apply startViewChange_order.
  - by apply partial_ret.
Qed.

Lemma processNewViewCert_order v cert :
  1 ≤ v → isPrimary v id n = true → partial inv (processNewViewCert id v cert) (λ _, inv).
Proof.
  intros Hv Hp s Hi. unfold processNewViewCert, mbind, M_bind, gets. simpl.
  destruct (N.eqb_spec v (expected s)) as [He|]; simpl; [|done].
  match goal with |- context [handleGeneratedMessage _ ?x] => set (s1 := x) end.
  destruct (generated_spec (CM_NewView (NewNewView id v cert)) s1) as (s' & ui & -> & Hu & Hus & Hlog & Hvs & Hc).
  intros Hb. unfold s1 in *; simpl in *. rewrite Hus in Hb. destruct (Hi ltac:(lia)) as [H1 H2 H3 H4].
  rewrite u64_small in Hu by done.
  constructor; rewrite ?Hvs, ?Hc; auto. rewrite <- He, Hp. right. unfold ownBody. rewrite Hvs, Hlog, Hus. simpl.
  rewrite <- Hu, <- He. by apply (tracks_open _ _ _ (MkNewView id v cert ui)); [lia|..].
Qed.

Lemma processViewChange_order vc : 1 ≤ vc_NewView vc → partial inv (processViewChange id cfg vc) (λ _, inv).
Proof.
  intros Hv s Hi. unfold processViewChange, zoom, mbind, M_bind.
  destruct (Collect.collectViewChange _ _ _ _ _) as [[new [cert|]] st] eqn:E; simpl;
    [|by eapply frame_inv; [|exact Hi]; split_and!].
  apply Collect.collectViewChange_primary in E.
  pose proof (processNewViewCert_order (vc_NewView vc) cert Hv E (set_vcCollected st s)) as Hn.
  specialize (Hn ltac:(eapply frame_inv; [|exact Hi]; by split_and!)).
  by destruct (processNewViewCert _ _ _ _) as [[[]| |] s'].
Qed.

Lemma accepted_viewChange vc : accepted (CM_ViewChange vc) → 1 ≤ vc_NewView vc.
Proof.
  intros [[Hv _] _]. unfold validateCertifiedMessage in Hv. apply outcome_bind_OK in Hv as ([] & _ & Hv).
  unfold validateViewChange in Hv. destruct (N.ltb_spec (vc_NewView vc) 1); [done|lia].
Qed.

Lemma processCertifiedMessage_order m :
  accepted m → partial (λ s, inv s ∧ own_newview m s) (processCertifiedMessage id cfg m) (λ _, inv).
Proof.
  intros Ha. unfold processCertifiedMessage. apply partial_gets. intros uis.
  destruct (uis !! _) as [last|]; [|apply partial_panic].
  case_if; [by apply partial_ret; intros ? [[] ?]|]. case_if; [by apply partial_fail; intros ? [[] ?]|].
  apply (partial_bind _ _ _ (λ _, inv)); [|intros new|done].
  - eapply (partial_impl _ (λ s, inv s ∧ own_newview m s)); [|by intros ? []|by intros ? ? Hs; exact Hs].
    destruct m as [p|c|vc|nv]; try by apply processViewMessage_order.
    eapply partial_impl; [apply processViewChange_order; by apply accepted_viewChange|by intros ? []|done].
  - apply partial_seq; [|by intros _; apply partial_ret|done].
    eapply partial_rel; [apply (rel_modify frame); intros; by split_and!|]. intros _ s s' Hi Hf. by eapply frame_inv.
Qed.

Lemma partial_frame {A} (m : M state A) : rel frame m → partial inv m (λ _, inv).
Proof. intros Hm. eapply partial_rel; [done|]. intros _ s s' Hi Hf. by eapply frame_inv. Qed.

Lemma requestViewChange_frame v : rel frame (requestViewChange id v).
Proof.
  unfold requestViewChange. apply rel_bind; [apply _|auto with mrel|intros r].
  case_if; [auto with mrel|nbool].
  apply rel_bind; [apply _|apply rel_modify; intros; by split_and!|intros _].
  apply rel_bind; [apply _|auto with mrel|intros [? e]]. case_if; [auto with mrel|nbool].
  apply rel_bind; [apply _|apply generate_other_frame; [simpl; split; [done|lia]|done]|]. auto with mrel.
Qed.

Lemma runCallback_frame cb : rel frame (runCallback id cfg cb).
Proof.
  pose proof requestViewChange_frame.
  destruct cb; simpl; [unfold handleReqTimeout|unfold handlePrepTimeout|unfold handleViewChangeTimeout];
    auto with mrel.
  apply rel_bind; [apply _|auto with mrel|intros logs]. destruct (logs !! _); [|auto with mrel].
  apply rel_modify; intros; by split_and!.
Qed.

Lemma expireTimer_frame t : rel frame (expireTimer id cfg t).
Proof.
  intros s. unfold expireTimer, mbind, M_bind, get. cbn.
  destruct (Timer.Expire t (timers s)) as [[cb p]|]; [|reflexivity]. cbn.
  trans (set_timers p s); [by split_and!|apply runCallback_frame].
Qed.

Lemma finishExecution_frame i : rel frame (finishExecution id i).
Proof.
  unfold finishExecution. apply rel_bind; [apply _|auto with mrel|]. intros [[c q r]|]; [|auto with mrel].
  apply rel_bind; [apply _|apply rel_modify; intros; by split_and!|intros _]. by apply generate_other_frame.
Qed.

(** ** Steps with validated messages *)

Definition admissible (a : action) (s : state) : Prop :=
  match a with
  | Process (Msg_Certified m) => accepted m ∧ own_newview m s
  | _ => True
  end.

Inductive vstep : state → state → Prop :=
| vstep_perform a s s' o :
    perform id cfg a s = (o, s') → isPanic o = false → admissible a s → vstep s s'.

Definition vreachable (au : Au) (co : Co) (s : state) : Prop :=
  rtc vstep (newReplica id cfg au co) s.

Lemma perform_order a s : inv s → admissible a s →
  match perform id cfg a s with (Panic _, _) => True | (_, s') => inv s' end.
Proof.
  intros Hi Ha.
  assert (partial (λ s, inv s ∧ admissible a s) (perform id cfg a) (λ _, inv)) as Hp.
  { destruct a as [m|t|i]; simpl.
    - apply (partial_bind _ _ _ (λ _, inv)); [|by intros _; apply partial_ret|done].
      destruct m as [r|r|r|r|m]; simpl; try apply partial_panic.
      + apply (partial_impl _ _ _ _ _ (processRequest_order r)); [by intros ? []|done].
      + case_if; [apply partial_panic|].
        apply (partial_impl _ _ _ _ _ (processReqViewChange_order r)); [by intros ? []|done].
      + case_if; [apply partial_panic|]. intros s0 (Hi0 & Hacc & Hown).
        by apply (processCertifiedMessage_order m Hacc).
    - apply (partial_impl _ _ _ _ _ (partial_frame _ (expireTimer_frame t))); [by intros ? []|done].
    - apply (partial_impl _ _ _ _ _ (partial_frame _ (finishExecution_frame i))); [by intros ? []|done]. }
  specialize (Hp s (conj Hi Ha)). by destruct (perform id cfg a s) as [[] s'].
Qed.

Lemma order_inv_init au co : usigCounter au = 0 → inv (newReplica id cfg au co).
Proof.
  intros Hau Hb. constructor; simpl; try (intros; rewrite ?lookupN_empty; lia); try done.
  assert (tracks n 0 [] 0) by (by left). case_if; right; simpl; [by rewrite Hau|]. by rewrite !lookupN_empty.
Qed.

Lemma vreachable_inv au co s : usigCounter au = 0 → vreachable au co s → inv s.
Proof.
  intros Hau Hr. eapply (rtc_ind_r inv); [by apply order_inv_init| |exact Hr].
  intros s1 s2 _ [a s3 s4 o Hp Ho Ha] Hi. pose proof (perform_order a s3 Hi Ha) as Hn. rewrite Hp in Hn.
  by destruct o.
Qed.
End Invariant.

(** C10: a replica commits in the order of the primary.  In every state it reaches by
    handling validated messages, timers and executions in any order, its own
    certified messages of the expected view, the leading ViewChange apart, are
    commitments to the proposals of that view's primary one by one: the Prepares
    with counters 1, 2, 3, ... in view 0, the NewView and the Prepares that follow
    it without a gap in a later view.  So is the log of the ViewChange the replica
    sends when it leaves the view. *)
Theorem own_log_sequential {Au Co} `{!Authenticator Au} `{!SequentialUSIG Au} `{!RequestConsumer Co}
    `{!RangeOrder} id cfg (au : Au) (co : Co) s :
  usigCounter au = 0 → vreachable id cfg au co s → usigCounter (authen s) < 2 ^ 64 →
  sequential (cfg_N cfg) (expectedView (views s)) (ownBody s) = true.
Proof.
  intros Hau Hr Hb. destruct (vreachable_inv id cfg au co s Hau Hr Hb) as [_ _ _ Hlog]. revert Hlog.
  case_if.
  - intros [(_ & -> & _)|Ht]; [apply sequential_nil|by eapply tracks_sequential].
  - intros [(_ & -> & _)|[_ Ht]]; [apply sequential_nil|by eapply tracks_sequential].
Qed.

Lemma own_log_sequential_witness :
  @ownBody N (list bytes) afterPrepare = [CM_Commit (MkCommit 1 prepare9 (MkUI 1 []))] ∧
  sequential 3 0 (@ownBody N (list bytes) afterPrepare) = true.
Proof.
  split; [reflexivity|].
  apply (@own_log_sequential N (list bytes) plainAuthen plainUSIG recordingConsumer keyOrder 1 cfg3 0 []
    afterPrepare); [reflexivity| |vm_compute; reflexivity].
  eapply rtc_l; [|eapply rtc_once].
  - apply (@vstep_perform N (list bytes) plainAuthen recordingConsumer keyOrder 1 cfg3
      (Process (Msg_Request req9)) _ (@perform N (list bytes) plainAuthen recordingConsumer keyOrder 1 cfg3
      (Process (Msg_Request req9)) backup).2 (OK tt)); [vm_compute; reflexivity|reflexivity|exact I].
  - apply (@vstep_perform N (list bytes) plainAuthen recordingConsumer keyOrder 1 cfg3
      (Process (Msg_Certified prepare9)) _ _ (OK tt)); [vm_compute; reflexivity|reflexivity|].
    split; [|exact I]. split; [|exact I]. split; vm_compute; reflexivity.
Defined.

End LogOrder.
