(* ===== verification/InView.v ===== *)
(** Agreement within a view: before the first view change, replicas execute the
    requests of the primary's Prepares in the order of their UI counters.

    [order : N → Request] gives the request of the primary's Prepare with a given
    counter; it is the same for all replicas, as the USIG assigns a counter once
    and replicas check the UI of every message.  [execAll] is what executing a
    sequence of requests amounts to, the identifiers of a client taken in
    increasing order.  [view0_order] is about one replica, [view0_agreement] about
    two. *)

From S2P Require Import Prelude Usig Messages Authen ViewState Timer ClientState.
From S2P Require Import RequestList MessageLog Quorum Commit Api Validation NewViewCert.
From S2P Require Import Collect Replica Handling Preservation Core OwnLog ViewSafety LogOrder.

Import ViewState(viewState, currentView, expectedView).
Import ClientState(clientState, lastRetiredSeq, clientSeq).
Import Commitment(coll_acceptor, coll_counter, lastPrimaryCVs, replicaViews, MkRef, reached).

Module InView.
Import Replica Handling Quorum Validation NewViewCertM.
Import Preservation(local, prepareReq_local).
Import Core(seqs_of, seqs_of_snoc).
Import LogOrder(accepted, valid, valid_proposal, proposal, noError, executeRequest_noError).

(** ** Executing a sequence of requests *)

(** The last identifier of client [c] in [l], 0 if there is none. *)
Definition lastOf (c : N) (l : list Request) : N := default 0 (last (seqs_of c l)).

(** A request is executed unless one of its client with the same or a later
    identifier was. *)
Definition execOne (ex : list Request) (r : Request) : list Request :=
  if lastOf (req_ClientID r) ex <? req_Sequence r then ex ++ [r] else ex.

Definition execAll (l : list Request) : list Request := foldl execOne [] l.

Lemma execAll_snoc l r : execAll (l ++ [r]) = execOne (execAll l) r.
Proof. unfold execAll. by rewrite foldl_snoc. Qed.

Lemma foldl_execOne_prefix ex l : ex `prefix_of` foldl execOne ex l.
Proof.
  revert ex. induction l as [|r l IH]; intros ex; simpl; [done|].
  etrans; [|apply IH]. unfold execOne. case_if; [by apply prefix_app_r|done].
Qed.

Lemma execAll_prefix l1 l2 : l1 `prefix_of` l2 → execAll l1 `prefix_of` execAll l2.
Proof. intros [l ->]. unfold execAll. rewrite foldl_app. apply foldl_execOne_prefix. Qed.

Lemma lastOf_snoc c l r :
  lastOf c (l ++ [r]) = if decide (req_ClientID r = c) then req_Sequence r else lastOf c l.
Proof.
  unfold lastOf. rewrite seqs_of_snoc. case_decide; [by rewrite last_snoc|by rewrite app_nil_r].
Qed.

(** Executing a request makes it old, and keeps what was old. *)
Lemma lastOf_execOne c ex r :
  lastOf c ex ≤ lastOf c (execOne ex r) ∧ req_Sequence r ≤ lastOf (req_ClientID r) (execOne ex r).
Proof.
  unfold execOne. case_if; nbool; [|lia]. rewrite !lastOf_snoc.
  rewrite (decide_True (P := req_ClientID r = req_ClientID r)) by done. case_decide; [subst|]; lia.
Qed.

Lemma execAll_old l r : r ∈ l → req_Sequence r ≤ lastOf (req_ClientID r) (execAll l).
Proof.
  induction l as [|r' l IH] using rev_ind; [by intros ?%elem_of_nil|]. rewrite execAll_snoc.
  pose proof (lastOf_execOne (req_ClientID r) (execAll l) r') as [H1 H2].
  intros [Hr%IH| ->%list_elem_of_singleton]%elem_of_app; [lia|done].
Qed.

(** The requests of the first [k] Prepares. *)
Definition firstReqs (order : N → Request) (k : N) : list Request :=
  (order ∘ N.of_nat) <$> seq 1 (N.to_nat k).

Lemma firstReqs_succ order k : firstReqs order (k + 1) = firstReqs order k ++ [order (k + 1)].
Proof.
  unfold firstReqs. replace (N.to_nat (k + 1)) with (N.to_nat k + 1)%nat by lia.
  rewrite seq_app, fmap_app. simpl. do 3 f_equal. lia.
Qed.

Lemma firstReqs_prefix order k1 k2 : k1 ≤ k2 → firstReqs order k1 `prefix_of` firstReqs order k2.
Proof.
  intros Hk. unfold firstReqs. replace (N.to_nat k2) with (N.to_nat k1 + (N.to_nat k2 - N.to_nat k1))%nat by lia.
  rewrite seq_app, fmap_app. by apply prefix_app_r.
Qed.

Lemma firstReqs_in order x k : 0 < x → x ≤ k → order x ∈ firstReqs order k.
Proof.
  intros H1 H2. unfold firstReqs. apply list_elem_of_fmap. exists (N.to_nat x). simpl.
  split; [by rewrite N2Nat.id|]. apply elem_of_seq. lia.
Qed.

Section Replica.
Context {Au Co : Type} `{!Authenticator Au} `{!RequestConsumer Co} `{!RangeOrder}.
Context (id : N) (cfg : Configer) (order : N → Request).
Abbreviation state := (replica Au Co).
Abbreviation n := (cfg_N cfg).
Abbreviation certSize := (N.to_nat (commitCertSize (cfg_N cfg) (cfg_F cfg))).
Abbreviation expected s := (expectedView (views s)).
Abbreviation retired s c := (lastRetiredSeq (clientSeq (clientStates s) c)).
Abbreviation cvs s := (lastPrimaryCVs (coll_acceptor (commitments s))).
Context (Hcert : (1 ≤ certSize)%nat).

(** The state of a replica that has not left view 0: the collector counts how far each
    replica has followed the primary, and the proposals enough replicas have reached
    are executed. *)
Record zero_inv (s : state) : Prop := {
  zi_view : ∀ r, lookupN (replicaViews (coll_acceptor (commitments s))) r = 0;
  zi_range : ∀ r, in_u64 (lookupN (cvs s) r);
  zi_counter : Commitment.represents (certSize - 1) (coll_counter (commitments s)) (MkRef 0 (cvs s));
  zi_start : Commitment.from_start 1 (cvs s);
  zi_retired : ∀ c, retired s c = lastOf c (executed s);
  zi_executed : ∃ k, (∀ x, 0 < x → (certSize ≤ reached x (cvs s))%nat ↔ x ≤ k) ∧
                     executed s = execAll (firstReqs order k) }.

Definition inv (s : state) : Prop := expected s = 0 → zero_inv s.

(** Operations that neither accept commitments nor execute. *)
Definition quiet (s s' : state) : Prop :=
  commitments s = commitments s' ∧ executed s = executed s' ∧ expected s ≤ expected s' ∧
  ∀ c, retired s c = retired s' c.

#[local] Instance quiet_preorder : PreOrder quiet.
Proof.
  split; unfold quiet; [done|]. intros ??? (?&?&?&R1) (?&?&?&R2).
  split_and!; [congruence..|lia|]. intros c. by rewrite R1.
Qed.

Lemma quiet_inv s s' : quiet s s' → inv s → inv s'.
Proof.
  intros (E1 & E2 & E3 & E4) Hi He. destruct (Hi ltac:(lia)) as [H1 H2 H3 H4 H5 H6].
  constructor; rewrite <- ?E1, <- ?E2; auto. intros c. by rewrite <- E4.
Qed.

Lemma partial_quiet {A} (m : M state A) : rel quiet m → partial inv m (λ _, inv).
Proof. intros Hm. eapply partial_rel; [done|]. intros _ s s' Hi Hq. by eapply quiet_inv. Qed.

Lemma set_client_quiet c x (s : state) :
  lastRetiredSeq (ClientState.seqS x) = retired s c →
  quiet s (set_clientStates (<[c := x]> (clientStates s)) s).
Proof.
  intros Hx. split_and!; try done. intros c'. simpl. unfold clientSeq in *.
  destruct (decide (c = c')) as [<-|Hne]; [by rewrite lookup_insert_eq|by rewrite lookup_insert_ne].
Qed.

Lemma onClient_quiet {A} c (g : clientState → A * clientState) :
  (∀ x, lastRetiredSeq (ClientState.seqS (g x).2) = lastRetiredSeq (ClientState.seqS x)) →
  rel quiet (onClient c g).
Proof.
  intros Hg. apply rel_zoom. intros s a t. unfold ClientState.withClient.
  specialize (Hg (default ClientState.newClientState (clientStates s !! c))).
  destruct (g _) as [a' x]. intros [= <- <-]. by apply set_client_quiet.
Qed.

Lemma onClientTimer_quiet c get put g :
  (∀ t x, ClientState.seqS (put t x) = ClientState.seqS x) → rel quiet (onClientTimer c get put g).
Proof.
  intros Hput s. unfold onClientTimer. destruct (g _) as [t p]. simpl.
  etrans; [apply (set_client_quiet c (put t (default ClientState.newClientState (clientStates s !! c))))|].
  - by rewrite Hput.
  - by split_and!.
Qed.
Hint Extern 1 (rel quiet (onClientTimer _ _ _ _)) => (apply onClientTimer_quiet; done) : mrel.

Lemma onViewChangeTimer_quiet g : rel quiet (onViewChangeTimer g).
Proof. apply rel_modify. intros s. destruct (g _) as [b p]. by split_and!. Qed.
Lemma set_reqs_quiet g h : rel quiet (modify (λ s : state, set_reqs (g s) (h s) s)).
Proof. apply rel_modify. intros s. by split_and!. Qed.
Lemma set_log_quiet g : rel quiet (modify (λ s : state, set_log (g s) s)).
Proof. apply rel_modify. intros s. by split_and!. Qed.
Hint Resolve onViewChangeTimer_quiet set_reqs_quiet set_log_quiet : mrel.

Lemma onSeq_calm c op :
  (∀ q, lastRetiredSeq (op q).2 = lastRetiredSeq q) → rel quiet (onSeq c op).
Proof.
  intros Hop. unfold onSeq. apply rel_bind; [apply _| |auto with mrel].
  apply onClient_quiet. intros x. specialize (Hop (ClientState.seqS x)). by destruct (op _).
Qed.

Lemma captureReq_quiet req : rel quiet (captureReq req).
Proof.
  unfold captureReq. apply rel_bind; [apply _| |auto with mrel]. apply onClient_quiet. intros x.
  destruct (ClientState.CaptureRequestSeq _ _) as [| |q] eqn:E; [done..|].
  unfold ClientState.CaptureRequestSeq in E. repeat case_if; by simplify_eq.
Qed.

Lemma prepareReq_quiet req : rel quiet (prepareReq req).
Proof.
  unfold prepareReq. apply rel_bind; [apply _| |auto with mrel]. apply onSeq_calm.
  intros q. unfold ClientState.PrepareRequestSeq. by repeat case_if.
Qed.

Lemma unprepareReqs_quiet : rel quiet unprepareReqs.
Proof.
  unfold unprepareReqs. apply rel_bind; [apply _|auto with mrel|intros reqs].
  apply rel_forM; [apply _|intros req]. apply rel_bind; [apply _|by apply onClient_quiet|auto with mrel].
Qed.

Lemma handleGeneratedMessage_quiet m : rel quiet (handleGeneratedMessage m).
Proof.
  assert (∀ role b, rel quiet (generateTag (Au := Au) (Co := Co) role b)) as Htag.
  { intros role b s. unfold generateTag. destruct (GenerateMessageAuthenTag _ _ _) as [o au].
    destruct o; by split_and!. }
  unfold handleGeneratedMessage, signMessage, assignUI, consumeGeneratedMessage.
  apply rel_bind; [apply _|destruct m; auto 10 with mrel|intros m'].
  destruct m' as [r|r|rep|r|cm]; auto with mrel. by apply onClient_quiet.
Qed.
Hint Resolve captureReq_quiet prepareReq_quiet unprepareReqs_quiet handleGeneratedMessage_quiet : mrel.

Lemma processRequest_calm req : rel quiet (processRequest id cfg req).
Proof.
  unfold processRequest, applyRequest, releaseReq, startReqTimer, startPrepTimer.
  apply rel_bind; [apply _|auto with mrel|intros [cur e]].
  apply rel_bind; [apply _|auto with mrel|intros [[]|]]; auto with mrel.
  apply rel_bind; [apply _|auto 8 with mrel|intros _].
  apply rel_bind; [apply _|by apply onClient_quiet|auto with mrel].
Qed.

Lemma startViewChange_quiet v cert : rel quiet (startViewChange id v cert).
Proof.
  unfold startViewChange, startVCTimer. apply rel_bind; [apply _| |intros ok]; [|auto 10 with mrel].
  apply rel_zoom. intros s a t E. pose proof (ViewState.AdvanceExpectedView_le v (views s)) as [_ Hle].
  rewrite E in Hle. by split_and!.
Qed.

Lemma processReqViewChange_calm rvc : rel quiet (processReqViewChange id cfg rvc).
Proof.
  pose proof startViewChange_quiet. unfold processReqViewChange.
  apply rel_bind; [apply _|apply rel_zoom; intros; by split_and!|]. intros [new [cert|]]; auto with mrel.
Qed.

Lemma processViewChange_quiet vc : rel quiet (processViewChange id cfg vc).
Proof.
  unfold processViewChange, processNewViewCert.
  apply rel_bind; [apply _|apply rel_zoom; intros; by split_and!|]. intros [new [cert|]]; auto 8 with mrel.
Qed.

Lemma expireTimer_quiet t : rel quiet (expireTimer id cfg t).
Proof.
  assert (∀ v, rel quiet (requestViewChange (Au := Au) (Co := Co) id v)) as Hr.
  { intros v. unfold requestViewChange. apply rel_bind; [apply _|auto with mrel|intros r].
    case_if; [auto with mrel|].
    apply rel_bind; [apply _|apply rel_modify; intros; by split_and!|auto 8 with mrel]. }
  intros s. unfold expireTimer, mbind, M_bind, get. cbn.
  destruct (Timer.Expire t (timers s)) as [[cb p]|]; [|reflexivity]. cbn.
  trans (set_timers p s); [by split_and!|]. generalize (set_timers p s). clear s.
  change (rel quiet (runCallback (Au := Au) (Co := Co) id cfg cb)).
  destruct cb; simpl; [unfold handleReqTimeout|unfold handlePrepTimeout|unfold handleViewChangeTimeout];
    auto with mrel.
  apply rel_bind; [apply _|auto with mrel|intros logs]. destruct (logs !! _); [|auto with mrel].
  apply rel_modify. intros. by split_and!.
Qed.

Lemma finishExecution_quiet i : rel quiet (finishExecution id i).
Proof.
  unfold finishExecution. apply rel_bind; [apply _|auto with mrel|]. intros [[c q r]|]; [|auto with mrel].
  apply rel_bind; [apply _|apply rel_modify; intros; by split_and!|auto with mrel].
Qed.

(** ** Execution *)

(** Executing a request is [execOne], whenever it returns. *)
Lemma executeRequest_execOne req (s s' : state) :
  executeRequest req s = (OK tt, s') → (∀ c, retired s c = lastOf c (executed s)) →
  executed s' = execOne (executed s) req ∧ (∀ c, retired s' c = lastOf c (executed s')) ∧
  commitments s' = commitments s ∧ views s' = views s.
Proof.
  intros Hex Hret. unfold execOne. pose proof (Hret (req_ClientID req)) as Hr. revert Hex.
  unfold executeRequest, retireReq, onSeq, onClient, zoom, ClientState.withClient.
  unfold mbind, M_bind, modify, mret, M_ret. simpl. unfold ClientState.RetireRequestSeq.
  rewrite <- Hr. unfold clientSeq in *.
  set (x := default ClientState.newClientState (clientStates s !! req_ClientID req)) in *.
  destruct (N.leb_spec (req_Sequence req) (lastRetiredSeq (ClientState.seqS x))) as [Hle|Hlt]; simpl.
  - intros [= <-]. destruct (N.ltb_spec (lastRetiredSeq (ClientState.seqS x)) (req_Sequence req)); [lia|].
    split_and!; try done. simpl. intros c. rewrite <- Hret.
    destruct (decide (req_ClientID req = c)) as [<-|Hne]; [by rewrite lookup_insert_eq|by rewrite lookup_insert_ne].
  - case_if; [done|]. simpl. destruct (N.ltb_spec (lastRetiredSeq (ClientState.seqS x)) (req_Sequence req)); [|lia].
    unfold stopReqTimer, onClientTimer. cbn. destruct (Timer.Stop _ _) as [t p]. cbn.
    destruct (Deliver _ _) as [res co]. intros [= <-]. split_and!; try done. simpl. intros c.
    rewrite lookup_insert_eq. simpl. rewrite insert_insert_eq, lastOf_snoc.
    case_decide as Hc; [subst c; by rewrite lookup_insert_eq|]. rewrite lookup_insert_ne by done. apply Hret.
Qed.

(** ** Counting in view 0 *)

(** A commitment in order raises the count of its own proposal only. *)
Lemma reached_insert_in_order m r x y :
  Commitment.in_sequence 1 m r x → 0 < y →
  reached y (<[r := x]> m) = if decide (y = x) then S (reached x m) else reached y m.
Proof.
  unfold Commitment.in_sequence. intros Hq Hy. rewrite Commitment.reached_insert.
  destruct (decide (y = x)) as [->|Hyx].
  - rewrite (Commitment.reached_delete x r m). destruct (m !! r); subst; repeat case_decide; lia.
  - rewrite (Commitment.reached_delete y r m). destruct (m !! r); subst; repeat case_decide; lia.
Qed.

(** How far [certSize] replicas have come moves by at most one, and the answer says so. *)
Lemma frontier_step m r x k :
  (∀ y, 0 < y → (certSize ≤ reached y m)%nat ↔ y ≤ k) →
  Commitment.in_sequence 1 m r x → 0 < x →
  let m' := <[r := x]> m in
  let done := (certSize <=? reached x m')%nat in
  ∃ k', (∀ y, 0 < y → (certSize ≤ reached y m')%nat ↔ y ≤ k') ∧
    ((k' = k ∧ (done = true → x ≤ k)) ∨ (k' = k + 1 ∧ x = k + 1 ∧ done = true)).
Proof.
  intros Hk Hq Hx m' done. pose proof (λ y, reached_insert_in_order m r x y Hq) as Hr. fold m' in Hr.
  assert (reached x m' = S (reached x m)) as Hrx by (rewrite Hr by done; by rewrite decide_True).
  unfold done. destruct (Nat.leb_spec certSize (reached x m')) as [Hd|Hd].
  - destruct (N.le_gt_cases x k) as [Hxk|Hxk].
    + exists k. split; [|by left]. intros y Hy. rewrite Hr by done. case_decide; [subst|by apply Hk].
      split; [done|]. intros _. rewrite <- Hrx. done.
    + assert (x = k + 1) as ->.
      { destruct (N.eq_dec x (k + 1)); [done|]. exfalso.
        pose proof (Commitment.reached_antitone (k + 1) x m' ltac:(lia)) as Ha.
        rewrite (Hr (k + 1)), decide_False in Ha by lia.
        assert (k + 1 ≤ k); [|lia]. apply Hk; [lia|]. lia. }
      exists (k + 1). split; [|by right]. intros y Hy. rewrite Hr by done. case_decide as Hyx.
      * subst y. split; [done|]. intros _. rewrite <- Hrx. done.
      * rewrite Hk by done. lia.
  - exists k. split; [|by left]. intros y Hy. rewrite Hr by done. case_decide; [subst y|by apply Hk].
    rewrite <- Hrx. split; [lia|]. intros Hxk%Hk; [|done]. lia.
Qed.

Lemma collect_zero c (s : state) o st :
  zero_inv s → Commitment.cv_ok c → Commitment.c_newView c = false → Commitment.c_view c = 0 →
  Commitment.collect c (commitments s) = (o, st) →
  match o with
  | OK done =>
      let s' := set_commitments st s in let x := Commitment.c_primaryCV c in
      (∀ r, lookupN (replicaViews (coll_acceptor st)) r = 0) ∧ (∀ r, in_u64 (lookupN (cvs s') r)) ∧
      Commitment.represents (certSize - 1) (coll_counter st) (MkRef 0 (cvs s')) ∧
      Commitment.from_start 1 (cvs s') ∧
      ∃ k k', executed s = execAll (firstReqs order k) ∧
        (∀ y, 0 < y → (certSize ≤ reached y (cvs s'))%nat ↔ y ≤ k') ∧
        ((k' = k ∧ (done = true → x ≤ k)) ∨ (k' = k + 1 ∧ x = k + 1 ∧ done = true))
  | _ => st = commitments s
  end.
Proof.
  intros [H1 H2 H3 H4 H5 (k & Hk & Hexec)] Hcv Hnv Hv. unfold Commitment.collect. rewrite Hnv, Hv.
  unfold Commitment.acceptCommitment. rewrite H1. cbn. destruct (commitments s) as [a cnt] eqn:Est. simpl in *.
  case_if; [by intros [= <- <-]|]. case_if; [by intros [= <- <-]|]. nbool.
  set (r := Commitment.c_replicaID c) in *. set (x := Commitment.c_primaryCV c) in *.
  assert (Commitment.in_sequence 1 (lastPrimaryCVs a) r x) as Hq.
  { unfold Commitment.in_sequence. specialize (H2 r). unfold lookupN in *. destruct Hcv as [Hpos _].
    fold x in Hpos. destruct (lastPrimaryCVs a !! r); simpl in *; unfold u64_succ, u64 in *; lia. }
  destruct (Commitment.count_represents (λ _, 1) certSize r 0 x cnt (MkRef 0 (lastPrimaryCVs a)))
    as (C1 & C2 & C3); [done|done|done|done|by right|]. simpl in C1, C2, C3.
  destruct (Commitment.countCommitment 0 x cnt) as [d cnt']. intros [= <- <-]. simpl in *. subst d.
  split; [done|]. split_and!; try done.
  - intros r'. destruct (decide (r' = r)) as [->|Hne]; [rewrite lookupN_insert; apply Hcv|].
    by rewrite lookupN_insert_ne.
  - exists k. destruct (frontier_step _ _ _ _ Hk Hq ltac:(apply Hcv)) as (k' & Hk' & Hc). exists k'. done.
Qed.

(** A commitment to a Prepare of view 0. *)
Lemma collectCommitment_zero m p :
  proposalOf m = CM_Prepare p → prep_View p = 0 →
  prep_Request p = order (Counter (prep_UI p)) → valid (Au := Au) cfg (CM_Prepare p) →
  partial (λ s, inv s ∧ expected s = 0) (collectCommitment m) (λ _ s, inv s ∧ expected s = 0).
Proof.
  intros Hp Hv Hord Hval s [Hi He].
  destruct (valid_proposal cfg (CM_Prepare p) _ _ Hval eq_refl) as (_ & _ & Hpos & Hu & _).
  assert (collectCommitment m s =
    (done ← zoom commitments set_commitments
            (Commitment.collect (Commitment.MkCommitment (cm_ReplicaID m) false 0
               (Counter (prep_UI p)) (cm_Counter m)));
     done ← lift done;
     if negb done then mret tt else executeRequest (prep_Request p)) s) as ->.
  { unfold collectCommitment. destruct m as [p'|c|vc|nv]; rewrite ?Hp; simpl; rewrite ?Hv; done. }
  unfold zoom, mbind, M_bind. destruct (Commitment.collect _ _) as [o st] eqn:E.
  pose proof (Hi He) as Hz. apply collect_zero in E; [|done..]. simpl. destruct o as [d|e|pn]; simpl in *.
  2: { rewrite E. destruct s; done. }
  2: done.
  destruct E as (E1 & E2 & E3 & E4 & k & k' & Hex & Hk' & Hcase). destruct d; simpl.
  - destruct (executeRequest _ _) as [[[]|e|pn] s'] eqn:Eex; [| |done].
    2: { exfalso. apply (executeRequest_noError (prep_Request p) (set_commitments st s) e). by rewrite Eex. }
    apply executeRequest_execOne in Eex as (X1 & X2 & X3 & X4); [|apply Hz]. simpl in *.
    split; [|by rewrite X4]. intros _. constructor; rewrite ?X3; try done. exists k'. split; [done|].
    rewrite X1, Hex, Hord. destruct Hcase as [[-> Hx]|(-> & Hx & _)].
    + unfold execOne. pose proof (execAll_old (firstReqs order k) (order (Counter (prep_UI p)))
        ltac:(apply firstReqs_in; auto)). case_if; nbool; [lia|done].
    + by rewrite firstReqs_succ, execAll_snoc, <- Hx.
  - split; [|done]. intros _. constructor; try done; [apply Hz|]. exists k'. split; [done|].
    destruct Hcase as [[-> _]|(_ & _ & [=])]. done.
Qed.

(** ** Processing *)

(** The Prepares of view 0 in messages come from its primary. *)
Definition from_primary (m : CertifiedMessage) : Prop :=
  ∀ p, proposalOf m = CM_Prepare p → prep_View p = 0 → prep_Request p = order (Counter (prep_UI p)).

Definition P0 (s : state) : Prop := inv s ∧ expected s = 0.

Lemma applyPeerMessage_zero m p :
  accepted (Au := Au) cfg m → from_primary m → proposalOf m = CM_Prepare p → prep_View p = 0 →
  partial P0 (applyPeerMessage id cfg m) (λ _, inv).
Proof.
  intros Ha Hf Hp Hv.
  assert (partial P0 (collectCommitment m) (λ _, P0)) as Hcol.
  { apply (collectCommitment_zero m p); auto. destruct Ha as [Hm Hc].
    destruct m as [p'|c|vc|nv]; simplify_eq/=; [done|]. by rewrite Hp in Hc. }
  destruct m as [p'|c|vc|nv]; simplify_eq/=.
  - unfold applyPrepare, stopPrepTimer. apply partial_seq; [|intros new|by intros ? []].
    { intros s [Hi He]. pose proof (prepareReq_quiet (prep_Request p) s) as Hq.
      pose proof (prepareReq_local (prep_Request p) s) as ((_&_&Hl&_)&_).
      destruct (prepareReq _ s) as [[] s']; simpl in *; try done;
        (split; [by eapply quiet_inv|by rewrite <- Hl]). }
    destruct new; simpl; [|by apply partial_fail; intros ? []].
    apply (partial_bind _ _ _ (λ _, P0)); [by apply partial_wrapM|intros _|by intros ? []].
    eapply (partial_impl _ inv); [|by intros ? []|by intros ? ? Hs; exact Hs]. apply partial_quiet.
    auto with mrel.
  - unfold applyCommit. apply partial_wrapM. apply (partial_impl _ _ _ _ _ Hcol); [done|by intros ? ? []].
Qed.

Lemma applyInView_zero m v isNewView :
  accepted (Au := Au) cfg m → from_primary m → proposalView (proposalOf m) = Some (v, isNewView) →
  partial P0 (applyInView id cfg m v 0) (λ _, inv).
Proof.
  intros Ha Hf Hv. unfold applyInView.
  destruct (N.eqb_spec v 0) as [->|]; simpl; [|apply partial_ret; by intros ? []].
  assert (∃ p, proposalOf m = CM_Prepare p ∧ prep_View p = 0) as (p & Hp & Hp0).
  { assert (valid (Au := Au) cfg (proposalOf m)) as Hval.
    { destruct Ha as [Hm Hc], m as [p|c|vc|nv]; done. }
    destruct (valid_proposal cfg _ _ _ Hval Hv) as (_ & _ & _ & _ & Hnz).
    destruct (proposalOf m); simplify_eq/=; [by eauto|]. specialize (Hnz eq_refl). lia. }
  apply (partial_bind _ _ _ (λ _, inv)); [|by intros _; apply partial_ret|done].
  apply partial_wrapM. by eapply applyPeerMessage_zero.
Qed.

Lemma processViewMessage_zero m :
  accepted (Au := Au) cfg m → from_primary m → partial P0 (processViewMessage id cfg m) (λ _, inv).
Proof.
  intros Ha Hf. unfold processViewMessage.
  assert (∀ v isNewView, proposalView (proposalOf m) = Some (v, isNewView) → partial P0
      ('(currentView, expectedView) ← gets (λ s : state, ViewState.HoldView (views s));
       if currentView <? v then fail (Errorf "message refers to unexpected view")
       else applyInView id cfg m v expectedView) (λ _, inv)) as Hcase.
  { intros v isNewView Hview. apply partial_gets. intros [cur e].
    case_if; [apply partial_fail; by intros ? [[]]|]. intros s [[Hi He] Hh].
    assert (e = 0) as -> by (unfold ViewState.HoldView in Hh; simplify_eq/=; congruence).
    by apply (applyInView_zero m v isNewView). }
  destruct m as [p|c|vc|nv].
  - by eapply Hcase.
  - destruct (proposalView _) as [[v isNewView]|] eqn:E; [by eapply Hcase|apply partial_panic].
  - apply partial_panic.
  - intros s [Hi He]. unfold zoom, mbind, M_bind, ViewState.AdvanceCurrentView.
    assert (inv (set_views (ViewState.MkViewState (nv_NewView nv) (expected s)) s)) as Hi'.
    { eapply quiet_inv; [|exact Hi]. by split_and!. }
    destruct (currentView (views s) <? nv_NewView nv); cbn.
    + pose proof (applyInView_zero (CM_NewView nv) (nv_NewView nv) true Ha Hf eq_refl) as Hz.
      rewrite He in *. by apply Hz.
    + eapply quiet_inv; [|exact Hi]. by split_and!.
Qed.

Lemma processCertifiedMessage_zero m :
  accepted (Au := Au) cfg m → from_primary m → partial P0 (processCertifiedMessage id cfg m) (λ _, inv).
Proof.
  intros Ha Hf. unfold processCertifiedMessage. apply partial_gets. intros uis.
  destruct (uis !! _) as [last|]; [|apply partial_panic].
  case_if; [by apply partial_ret; intros ? [[] ?]|]. case_if; [by apply partial_fail; intros ? [[] ?]|].
  apply (partial_bind _ _ _ (λ _, inv)); [|intros new|done].
  - eapply (partial_impl _ P0); [|by intros ? []|by intros ? ? Hs; exact Hs].
    destruct m as [p|c|vc|nv]; try by apply processViewMessage_zero.
    apply (partial_impl _ _ _ _ _ (partial_quiet _ (processViewChange_quiet vc))); [by intros ? []|done].
  - apply partial_seq; [|by intros _; apply partial_ret|done].
    apply partial_quiet, rel_modify. intros s. by split_and!.
Qed.

(** ** Steps *)

(** Messages are validated, and the Prepares of view 0 in them are the primary's. *)
Definition admissible (a : action) : Prop :=
  match a with
  | Process (Msg_Certified m) => accepted (Au := Au) cfg m ∧ from_primary m
  | _ => True
  end.

Inductive ostep : state → state → Prop :=
| ostep_perform a s s' o :
    perform id cfg a s = (o, s') → isPanic o = false → admissible a → ostep s s'.

Definition oreachable (au : Au) (co : Co) (s : state) : Prop :=
  rtc ostep (newReplica id cfg au co) s.

Lemma perform_zero a : admissible a → partial P0 (perform id cfg a) (λ _, inv).
Proof.
  intros Ha. destruct a as [m|t|i]; simpl.
  - apply (partial_bind _ _ _ (λ _, inv)); [|by intros _; apply partial_ret|done].
    destruct m as [r|r|r|r|m]; simpl; try apply partial_panic.
    + apply (partial_impl _ _ _ _ _ (partial_quiet _ (processRequest_calm r))); [by intros ? []|done].
    + case_if; [apply partial_panic|].
      apply (partial_impl _ _ _ _ _ (partial_quiet _ (processReqViewChange_calm r))); [by intros ? []|done].
    + case_if; [apply partial_panic|]. by apply processCertifiedMessage_zero; destruct Ha.
  - apply (partial_impl _ _ _ _ _ (partial_quiet _ (expireTimer_quiet t))); [by intros ? []|done].
  - apply (partial_impl _ _ _ _ _ (partial_quiet _ (finishExecution_quiet i))); [by intros ? []|done].
Qed.

Lemma ostep_inv s s' : ostep s s' → inv s → inv s'.
Proof.
  intros [a s0 s1 o Hp Ho Ha] Hi He.
  pose proof (Core.perform_views id cfg a s0) as [_ Hle]. rewrite Hp in Hle. simpl in Hle.
  assert (expected s0 = 0) as He0 by lia.
  pose proof (perform_zero a Ha s0 (conj Hi He0)) as Hz. rewrite Hp in Hz.
  destruct o; [by apply Hz..|done].
Qed.

Lemma zero_inv_init au co : in_u32 (commitCertSize n (cfg_F cfg)) → inv (newReplica id cfg au co).
Proof.
  intros Hu _. constructor; simpl.
  - intros r. apply lookupN_empty.
  - intros r. rewrite lookupN_empty. lia.
  - apply Commitment.represents_init; [lia|done].
  - intros r cv. by rewrite lookup_empty.
  - intros c. unfold clientSeq. by rewrite lookup_empty.
  - exists 0. split; [|done]. intros x Hx. rewrite Commitment.reached_empty. lia.
Qed.

Lemma view0_order au co s :
  in_u32 (commitCertSize n (cfg_F cfg)) → oreachable au co s → expected s = 0 →
  ∃ k, (∀ x, 0 < x → (certSize ≤ reached x (cvs s))%nat ↔ x ≤ k) ∧
       executed s = execAll (firstReqs order k).
Proof.
  intros Hu Hr He.
  assert (inv s) as Hi.
  { eapply (rtc_ind_r inv); [by apply (zero_inv_init au co)| |exact Hr]. intros s1 s2 _ Hs. by apply ostep_inv. }
  by destruct (Hi He) as [_ _ _ _ _ Hk].
Qed.
End Replica.

Lemma executed_comparable {Au1 Co1 Au2 Co2} `{!Authenticator Au1} `{!RequestConsumer Co1}
    `{!Authenticator Au2} `{!RequestConsumer Co2} `{!RangeOrder}
    id1 id2 cfg (order : N → Request) (au1 : Au1) (co1 : Co1) (au2 : Au2) (co2 : Co2) s1 s2 :
  in_u32 (cfg_N cfg) → cfg_F cfg < 2 ^ 31 → notEnoughNodes (cfg_N cfg) (cfg_F cfg) = false →
  oreachable id1 cfg order au1 co1 s1 → oreachable id2 cfg order au2 co2 s2 →
  expectedView (views s1) = 0 → expectedView (views s2) = 0 →
  (∃ k, executed s1 = execAll (firstReqs order k)) ∧
  (executed s1 `prefix_of` executed s2 ∨ executed s2 `prefix_of` executed s1).
Proof.
  intros H1 H2 H3 R1 R2 E1 E2. destruct (cert_sizes _ _ H1 H2 H3) as (Hnf & Hc & _).
  assert (in_u32 (commitCertSize (cfg_N cfg) (cfg_F cfg))) as Hu by (rewrite Hc; lia).
  destruct (view0_order (Au := Au1) (Co := Co1) id1 cfg order ltac:(lia) au1 co1 s1 Hu R1 E1) as (k1 & _ & X1).
  destruct (view0_order (Au := Au2) (Co := Co2) id2 cfg order ltac:(lia) au2 co2 s2 Hu R2 E2) as (k2 & _ & X2).
  split; [by eauto|]. rewrite X1, X2. destruct (N.le_ge_cases k1 k2); [left|right];
    by apply execAll_prefix, firstReqs_prefix.
Qed.

(** C1: agreement within the first view.  Of two replicas that have handled only
    validated messages whose Prepares of view 0 are those its primary assigned to
    the counters, and that have not left view 0, one has executed a beginning of the
    sequence of requests the other has: the requests of the primary's Prepares in
    the order of their counters, up to some counter each, those left out that their
    client had overtaken.  The replicas may use different authenticators and
    consumers, receive different messages in different orders, and the primary may
    be faulty. *)
Theorem view0_agreement {Au1 Co1 Au2 Co2} `{!Authenticator Au1} `{!RequestConsumer Co1}
    `{!Authenticator Au2} `{!RequestConsumer Co2} `{!RangeOrder}
    id1 id2 cfg (order : N → Request) (au1 : Au1) (co1 : Co1) (au2 : Au2) (co2 : Co2) s1 s2 :
  in_u32 (cfg_N cfg) → cfg_F cfg < 2 ^ 31 → notEnoughNodes (cfg_N cfg) (cfg_F cfg) = false →
  oreachable id1 cfg order au1 co1 s1 → oreachable id2 cfg order au2 co2 s2 →
  expectedView (views s1) = 0 → expectedView (views s2) = 0 →
  (∃ k, executed s1 = execAll (firstReqs order k)) ∧
  (executed s1 `prefix_of` executed s2 ∨ executed s2 `prefix_of` executed s1).
Proof. apply executed_comparable. Qed.

(** C2: what is committed in the first view is executed.  A replica as above has executed
    exactly the requests of the primary's first [k] Prepares, where [k] is the greatest
    counter that [commitCertSize] replicas have reached with the commitments this
    replica has accepted from them: no execution is delayed beyond the commitment that
    completes the certificate, and none is skipped. *)
Theorem view0_executes_committed {Au Co} `{!Authenticator Au} `{!RequestConsumer Co} `{!RangeOrder}
    id cfg (order : N → Request) (au : Au) (co : Co) s :
  in_u32 (cfg_N cfg) → cfg_F cfg < 2 ^ 31 → notEnoughNodes (cfg_N cfg) (cfg_F cfg) = false →
  oreachable id cfg order au co s → expectedView (views s) = 0 →
  ∃ k, (∀ x, 0 < x →
          commitCertSize (cfg_N cfg) (cfg_F cfg) ≤
            N.of_nat (reached x (Commitment.lastPrimaryCVs (coll_acceptor (commitments s)))) ↔ x ≤ k) ∧
       executed s = execAll (firstReqs order k).
Proof.
  intros H1 H2 H3 R E. destruct (cert_sizes _ _ H1 H2 H3) as (Hnf & Hc & _).
  assert (in_u32 (commitCertSize (cfg_N cfg) (cfg_F cfg))) as Hu by (rewrite Hc; lia).
  destruct (view0_order id cfg order ltac:(lia) au co s Hu R E) as (k & Hk & Hx).
  exists k. split; [|done]. intros x Hp. rewrite <- Hk by done. split; intros; lia.
Qed.

(** Replica 1 has executed the request, a new replica 2 has not. *)
Lemma afterCommit_oreachable :
  @oreachable N (list bytes) plainAuthen recordingConsumer keyOrder 1 cfg3 (λ _, req9) 0 [] afterCommit.
Proof.
  pose (step a s := (@perform N (list bytes) plainAuthen recordingConsumer keyOrder 1 cfg3 a s).2).
  pose (own := CM_Commit (MkCommit 1 prepare9 (MkUI 1 []))).
  pose (s1 := step (Process (Msg_Request req9)) backup).
  eapply (rtc_l _ _ s1); [|eapply (rtc_l _ _ afterPrepare); [|apply rtc_once]].
  - apply (ostep_perform 1 cfg3 (λ _, req9) (Process (Msg_Request req9)) _ _ (OK tt));
      [vm_compute; reflexivity|reflexivity|exact I].
  - apply (ostep_perform 1 cfg3 (λ _, req9) (Process (Msg_Certified prepare9)) _ _ (OK tt));
      [vm_compute; reflexivity|reflexivity|].
    split; [split; [split; vm_compute; reflexivity|exact I]|by intros p [= <-]].
  - apply (ostep_perform 1 cfg3 (λ _, req9) (Process (Msg_Certified own)) _ _ (OK tt));
      [vm_compute; reflexivity|reflexivity|].
    split; [split; split; vm_compute; reflexivity|by intros p [= <-]].
Qed.

Lemma view0_agreement_witness :
  executed afterCommit = [req9] ∧
  (executed afterCommit `prefix_of` [] ∨ [] `prefix_of` executed afterCommit).
Proof.
  split; [vm_compute; reflexivity|].
  exact (proj2 (@view0_agreement N (list bytes) N (list bytes) plainAuthen recordingConsumer plainAuthen
    recordingConsumer keyOrder 1 2 cfg3 (λ _, req9) 0 [] 0 [] afterCommit
    (@newReplica N (list bytes) 2 cfg3 0 [])
    eq_refl eq_refl eq_refl afterCommit_oreachable (rtc_refl _ _) eq_refl eq_refl)).
Defined.

Lemma view0_executes_committed_witness :
  executed afterCommit = execAll (firstReqs (λ _, req9) 1) ∧
  ∃ k, (∀ x, 0 < x → 2 ≤ N.of_nat (reached x (Commitment.lastPrimaryCVs
          (coll_acceptor (commitments afterCommit)))) ↔ x ≤ k) ∧
       executed afterCommit = execAll (firstReqs (λ _, req9) k).
Proof.
  split; [vm_compute; reflexivity|].
  exact (@view0_executes_committed N (list bytes) plainAuthen recordingConsumer keyOrder 1 cfg3 (λ _, req9) 0 []
    afterCommit eq_refl eq_refl eq_refl afterCommit_oreachable eq_refl).
Defined.

End InView.
