(* ===== verification/Sequencing.v ===== *)
(** Order of processing ([makeCertifiedMessageProcessor] and
    [makeViewMessageProcessor], [src/core/message-handling.go]): the messages of
    a replica take effect one by one in the order of their UI counters, and only
    in the view they belong to. *)

From S2P Require Import Prelude Messages ViewState Timer ClientState RequestList.
From S2P Require Import MessageLog Quorum Commit Api Validation NewViewCert Collect.
From S2P Require Import Replica Handling Preservation.

Import ViewState(viewState, currentView, expectedView).

Module Sequencing.
Import Replica Handling Preservation Quorum.

Section Sequence.
Context {Au Co : Type} `{!Authenticator Au} `{!RequestConsumer Co} `{!RangeOrder}.
Context (id : N) (cfg : Configer).
Abbreviation state := (replica Au Co).

(** ** Who changes [lastUI] *)

Definition sameUI (s s' : state) : Prop := lastUI s = lastUI s'.
#[local] Instance sameUI_preorder : PreOrder sameUI.
Proof. split; unfold sameUI; [done|]. intros ???; congruence. Qed.

Lemma onClient_sameUI {A} c (g : ClientState.clientState → A * ClientState.clientState) :
  rel sameUI (onClient c g).
Proof. by apply rel_zoom. Qed.
Lemma onClientTimer_sameUI c get put g : rel sameUI (onClientTimer c get put g).
Proof. intros s. unfold onClientTimer. by destruct (g _). Qed.
Lemma onViewChangeTimer_sameUI g : rel sameUI (onViewChangeTimer g).
Proof. apply rel_modify. intros s. by destruct (g _). Qed.
Lemma generateTag_sameUI role b : rel sameUI (generateTag role b).
Proof. intros s. unfold generateTag. by destruct (GenerateMessageAuthenTag _ _ _). Qed.
Hint Resolve @onClient_sameUI onClientTimer_sameUI onViewChangeTimer_sameUI generateTag_sameUI : mrel.
Hint Extern 1 (rel sameUI (modify _)) => (by apply rel_modify) : mrel.
Hint Extern 1 (rel sameUI (zoom _ _ _)) => (by apply rel_zoom) : mrel.

Lemma handleGenerated_sameUI m : rel sameUI (handleGeneratedMessage m).
Proof.
  unfold handleGeneratedMessage, signMessage, assignUI, consumeGeneratedMessage.
  apply rel_bind; [apply _|destruct m; auto 10 with mrel|intros m']. destruct m'; auto with mrel.
Qed.
Lemma onSeq_sameUI c op : rel sameUI (onSeq c op).
Proof. unfold onSeq. auto 6 with mrel. Qed.
Hint Resolve handleGenerated_sameUI onSeq_sameUI : mrel.

#[local] Instance sameUI_preserved : Preserves id cfg sameUI.
Proof.
  split; [constructor|]; try apply _; intros; auto with mrel.
  - unfold startReqTimer. auto with mrel.
  - unfold stopReqTimer. auto with mrel.
  - unfold startPrepTimer. auto with mrel.
  - unfold stopPrepTimer. auto with mrel.
  - unfold stopVCTimer. auto with mrel.
  - apply processRequest_parts; [apply _|..]; intros; auto with mrel;
      unfold startReqTimer, startPrepTimer, captureReq, releaseReq; auto 6 with mrel.
  - unfold prepareReq. auto 6 with mrel.
  - unfold executeRequest, retireReq, stopReqTimer.
    apply rel_bind; [apply _|auto 6 with mrel|intros new]. case_if; [auto with mrel|].
    apply rel_bind; [apply _|auto with mrel|intros _].
    apply rel_modify. intros s. by destruct (Deliver _ _).
  - unfold processReqViewChange, startViewChange, startVCTimer, unprepareReqs. auto 25 with mrel.
  - done.
  - unfold processNewViewCert. auto 10 with mrel.
  - done.
  - done.
  - unfold handlePrepTimeout. auto 10 with mrel.
  - unfold finishExecution. apply rel_bind; [apply _|auto with mrel|]. intros [[]|]; auto 10 with mrel.
Qed.

(** The body of [makeCertifiedMessageProcessor] between the counter check and
    the update. *)
Definition processInOrder (m : CertifiedMessage) : M state bool :=
  match m with
  | CM_ViewChange vc => processViewChange id cfg vc
  | _ => processViewMessage id cfg m
  end.

Lemma processInOrder_sameUI m : rel sameUI (processInOrder m).
Proof.
  destruct m as [p|c|vc|nv]; cbn [processInOrder];
    [apply processViewMessage_rel, _|apply processViewMessage_rel, _|apply processViewChange_rel, _|
     apply processViewMessage_rel, _].
Qed.

Lemma processCertified_eq m s last :
  lastUI s !! N.to_nat (cm_ReplicaID m) = Some last → last + 1 < 2 ^ 64 →
  processCertifiedMessage id cfg m s =
  if cm_Counter m <? last + 1 then (OK false, s)
  else if last + 1 <? cm_Counter m then (Error (Errorf "unexpected UI counter value"), s)
  else (new ← processInOrder m;
        modify (λ s, set_lastUI (<[N.to_nat (cm_ReplicaID m) := last + 1]> (lastUI s)) s) ;;
        mret new) s.
Proof.
  intros Hl Hb. unfold processCertifiedMessage. unfold mbind at 1, M_bind at 1. cbn [gets].
  rewrite Hl, u64_succ_small by done. by repeat case_if.
Qed.
End Sequence.

(** C23: certified messages take effect in counter order, each at most once.  Let
    [last] be the last counter processed of the sender.  A message with a
    counter up to [last] is dropped without any effect; one that skips a counter
    is an error without any effect; the next one is processed, after which the
    last counter of its sender is its own if processing succeeded and [last] if
    it failed; the counters of the other senders stay. *)
Theorem ui_sequencing {Au Co} `{!Authenticator Au} `{!RequestConsumer Co} `{!RangeOrder}
    id cfg (m : CertifiedMessage) (s : replica Au Co) last :
  lastUI s !! N.to_nat (cm_ReplicaID m) = Some last → last + 1 < 2 ^ 64 →
  let r := processCertifiedMessage id cfg m s in
  (cm_Counter m ≤ last → r = (OK false, s)) ∧
  (last + 1 < cm_Counter m → r = (Error (Errorf "unexpected UI counter value"), s)) ∧
  (cm_Counter m = last + 1 →
     r.1 = (processInOrder id cfg m s).1 ∧
     lastUI r.2 = if isOK r.1 then <[N.to_nat (cm_ReplicaID m) := cm_Counter m]> (lastUI s)
                  else lastUI s).
Proof.
  intros Hl Hb r. unfold r. rewrite (processCertified_eq id cfg m s last Hl Hb). split_and!; intros Hc.
  - destruct (N.ltb_spec (cm_Counter m) (last + 1)); [done|lia].
  - destruct (N.ltb_spec (cm_Counter m) (last + 1)); [lia|].
    destruct (N.ltb_spec (last + 1) (cm_Counter m)); [done|lia].
  - rewrite Hc, N.ltb_irrefl. pose proof (processInOrder_sameUI id cfg m s) as Hs. unfold sameUI in Hs.
    unfold mbind, M_bind. destruct (processInOrder id cfg m s) as [[b|e|p] s']; simpl in *; by rewrite Hs.
Qed.

(** A message of another view has no effect.  A Prepare or Commit whose
    proposal is of a later view than the current one is an error, of a view other
    than the expected one is dropped, both without any effect; a NewView for a
    view not above the current one is dropped without any effect, and one for a
    view other than the expected one changes nothing but the current view. *)
Theorem view_guard {Au Co} `{!Authenticator Au} `{!RequestConsumer Co} `{!RangeOrder}
    id cfg (m : CertifiedMessage) (s : replica Au Co) v isNV :
  proposalView (NewViewCertM.proposalOf m) = Some (v, isNV) →
  v ≠ expectedView (views s) →
  let r := processViewMessage id cfg m s in
  match m with
  | CM_NewView _ =>
      r = (OK false, if v <=? currentView (views s) then s
                     else set_views (ViewState.MkViewState v (expectedView (views s))) s)
  | _ => r.2 = s ∧ (if currentView (views s) <? v then isOK r.1 = false else r.1 = OK false)
  end.
Proof.
  intros Hp Hv r. unfold r, processViewMessage, applyInView.
  destruct m as [p|c|vc|nv]; simpl in Hp; try done.
  - simplify_eq. simpl. unfold mbind, M_bind, gets. simpl. case_if; simpl; [done|].
    apply N.eqb_neq in Hv. by rewrite Hv.
  - cbn [NewViewCertM.proposalOf]. rewrite Hp. unfold mbind, M_bind, gets. simpl. case_if; simpl; [done|].
    apply N.eqb_neq in Hv. by rewrite Hv.
  - simplify_eq. unfold zoom, mbind, M_bind, ViewState.AdvanceCurrentView. apply N.eqb_neq in Hv.
    destruct (N.leb_spec (nv_NewView nv) (currentView (views s))), (N.ltb_spec (currentView (views s)) (nv_NewView nv));
      simpl; try lia.
    + by destruct s.
    + by rewrite Hv.
Qed.

(** ** Witnesses *)

Lemma ui_sequencing_witness :
  let m := CM_Prepare (MkPrepare 0 0 req9 (MkUI 2 [])) in
  @processCertifiedMessage N (list bytes) plainAuthen recordingConsumer keyOrder 1 cfg3 m backup =
  (Error (Errorf "unexpected UI counter value"), backup).
Proof.
  refine (proj1 (proj2 (@ui_sequencing N (list bytes) plainAuthen recordingConsumer keyOrder 1 cfg3
    (CM_Prepare (MkPrepare 0 0 req9 (MkUI 2 []))) backup 0 _ _)) _); vm_compute; reflexivity.
Defined.

Lemma view_guard_witness :
  (@processViewMessage N (list bytes) plainAuthen recordingConsumer keyOrder 1 cfg3
     (CM_Prepare (MkPrepare 1 1 req9 (MkUI 1 []))) backup).2 = backup.
Proof.
  refine (proj1 (@view_guard N (list bytes) plainAuthen recordingConsumer keyOrder 1 cfg3
    (CM_Prepare (MkPrepare 1 1 req9 (MkUI 1 []))) backup 1 false _ _)); [reflexivity|].
  vm_compute. discriminate.
Defined.

End Sequencing.
