(* ===== verification/Crash.v ===== *)
(** Absence of panics in the request and timeout paths.

    The code panics when a client's request identifiers are used out of order,
    when a map yields a nil log, or when the authenticator cannot sign.  Here:
    with a USIG that counts ([SequentialUSIG]), processing a request never blocks,
    fails or panics, and neither does any timer. *)

From S2P Require Import Prelude Usig Messages ViewState Timer ClientState RequestList.
From S2P Require Import MessageLog Quorum Commit Api Validation NewViewCert Collect.
From S2P Require Import Replica Handling Preservation Core OwnLog.

Import ViewState(viewState, currentView, expectedView).
Import ClientState(clientState, seqState, lastCapturedSeq, lastReleasedSeq, lastPreparedSeq,
  lastRetiredSeq, clientSeq).
Import MessageLogM(messageLog, msgs).

Module Crash.
Import Replica Handling Preservation Quorum.

Section Crash.
Context {Au Co : Type} `{!Authenticator Au} `{!SequentialUSIG Au} `{!RequestConsumer Co} `{!RangeOrder}.
Context (id : N) (cfg : Configer).
Abbreviation state := (replica Au Co).
Abbreviation n := (cfg_N cfg).

#[local] Existing Instance Core.same_preorder.

(** ** Requests *)

(** No identifier is captured and not released. *)
Definition quiet (s : state) : Prop :=
  ∀ c, lastReleasedSeq (clientSeq (clientStates s) c) = lastCapturedSeq (clientSeq (clientStates s) c).

Definition quiet_rel (s s' : state) : Prop := quiet s → quiet s'.
#[local] Instance quiet_preorder : PreOrder quiet_rel.
Proof. split; unfold quiet_rel; [by intros ?|]. intros ???; auto. Qed.

Lemma same_quiet s s' : Core.same s s' → quiet_rel s s'.
Proof. intros (E & _) Hq c. specialize (Hq c). specialize (E c). simpl in E. by rewrite <- E. Qed.

Lemma rel_same_quiet {A} (m : M state A) : rel Core.same m → rel quiet_rel m.
Proof. intros Hm s. apply same_quiet, Hm. Qed.

Lemma quiet_frame (s s' : state) : clientStates s = clientStates s' → quiet_rel s s'.
Proof. intros E Hq c. rewrite <- E. apply Hq. Qed.

(** An operation on one client's identifiers. *)
Lemma quiet_client c x (s : state) :
  lastReleasedSeq (ClientState.seqS x) = lastCapturedSeq (ClientState.seqS x) →
  quiet_rel s (set_clientStates (<[c := x]> (clientStates s)) s).
Proof.
  intros Hx Hq c'. simpl. unfold clientSeq. destruct (decide (c = c')) as [<-|Hne].
  - by rewrite lookup_insert_eq.
  - rewrite lookup_insert_ne by done. apply Hq.
Qed.

Lemma onSeq_quiet c op :
  (∀ q, lastCapturedSeq (op q).2 = lastCapturedSeq q ∧ lastReleasedSeq (op q).2 = lastReleasedSeq q) →
  rel quiet_rel (onSeq c op).
Proof.
  intros Hop s. unfold onSeq, onClient, zoom, mbind, M_bind, ClientState.withClient. simpl.
  specialize (Hop (clientSeq (clientStates s) c)). unfold clientSeq in Hop.
  destruct (op _) as [o q] eqn:E. simpl in *.
  assert (quiet_rel s (set_clientStates (<[c := ClientState.set_seq q
    (default ClientState.newClientState (clientStates s !! c))]> (clientStates s)) s)) as Hmv.
  { intros Hq. apply quiet_client; [|done]. simpl. destruct Hop as [-> ->]. apply (Hq c). }
  destruct o as [b|[]|p]; exact Hmv.
Qed.

Lemma applyRequest_ok req v (s : state) :
  ∃ s', applyRequest id cfg req v s = (OK tt, s') ∧ Core.same s s'.
Proof.
  unfold applyRequest, mbind, M_bind.
  assert (∀ x : state, ∃ y, startReqTimer cfg req v x = (OK tt, y) ∧ Core.same x y) as Htimer.
  { intros x. pose proof (Core.onClientTimer_same (req_ClientID req) ClientState.requestTimer
      ClientState.set_requestTimer (Timer.Start (TimeoutRequest cfg) (req_Sequence req) (CbRequest v))
      ltac:(done) x) as Hs.
    unfold startReqTimer. unfold onClientTimer in *. destruct (Timer.Start _ _ _ _). eauto. }
  destruct (Htimer s) as (s1 & -> & H1). destruct (isPrimary v id n).
  - destruct (OwnLog.generate_certified (CM_Prepare (NewPrepare id v req)) s1) as (ui & au & E & _ & _).
    pose proof (Core.handleGeneratedMessage_same (Msg_Certified (CM_Prepare (NewPrepare id v req))) s1) as H2.
    rewrite E in *. eexists. split; [done|]. by etrans.
  - pose proof (Core.onClientTimer_same (req_ClientID req) ClientState.prepareTimer
      ClientState.set_prepareTimer (Timer.Start (TimeoutPrepare cfg) (req_Sequence req) (CbPrepare req v))
      ltac:(done) s1) as H2.
    unfold startPrepTimer. unfold onClientTimer in *. destruct (Timer.Start _ _ _ _).
    eexists. split; [done|]. by etrans.
Qed.

(** What [processRequest] does when nothing is held: it answers whether the
    identifier is new, and the last captured one covers the request. *)
Lemma processRequest_quiet req (s : state) :
  quiet s →
  ∃ b s', processRequest id cfg req s = (OK b, s') ∧ quiet s' ∧
    req_Sequence req ≤ lastCapturedSeq (clientSeq (clientStates s') (req_ClientID req)).
Proof.
  intros Hq. unfold processRequest, captureReq, onClient, zoom, ClientState.withClient.
  unfold mbind, M_bind, gets. simpl. pose proof (Hq (req_ClientID req)) as Hc. unfold clientSeq in Hc.
  set (c0 := default ClientState.newClientState (clientStates s !! req_ClientID req)) in *.
  destruct (ClientState.CaptureRequestSeq (req_Sequence req) (ClientState.seqS c0)) as [| |q] eqn:E.
  - exists false. eexists. split; [done|]. simpl. split; [by apply quiet_client|].
    unfold clientSeq. rewrite lookup_insert_eq. unfold ClientState.CaptureRequestSeq in E. simpl.
    repeat case_if; nbool; try done.
  - unfold ClientState.CaptureRequestSeq in E. repeat case_if; nbool; try done; lia.
  - unfold modify, mret, M_ret. simpl.
    match goal with |- context [if negb _ then _ else applyRequest id cfg req _] =>
      set (ap := if negb _ then _ else applyRequest id cfg req _) end.
    match goal with |- context [ap ?x] => set (s1 := x) end.
    assert (∃ s2, ap s1 = (OK tt, s2) ∧ Core.same s1 s2) as (s2 & -> & Hs).
    { unfold ap. case_if; [exists s1; split; [done|reflexivity]|]. apply applyRequest_ok. }
    unfold releaseReq, onClient, zoom, ClientState.withClient. simpl.
    exists true. eexists. split; [done|]. destruct Hs as (Hs & _). simpl in Hs.
    assert (lastCapturedSeq (clientSeq (clientStates s2) (req_ClientID req)) = req_Sequence req) as Hcap.
    { rewrite <- Hs. unfold s1, clientSeq. simpl. rewrite lookup_insert_eq. simpl.
      unfold ClientState.CaptureRequestSeq in E. repeat case_if; by simplify_eq. }
    split.
    + intros c. simpl. unfold clientSeq. destruct (decide (req_ClientID req = c)) as [<-|Hne].
      { by rewrite lookup_insert_eq. }
      rewrite lookup_insert_ne by done. fold (clientSeq (clientStates s2) c).
      rewrite <- (Hs c). unfold s1, clientSeq. simpl. rewrite lookup_insert_ne by done. apply Hq.
    + simpl. unfold clientSeq. rewrite lookup_insert_eq. simpl.
      unfold clientSeq in Hcap. rewrite Hcap. done.
Qed.

Hint Extern 5 (rel quiet_rel _) => (apply rel_same_quiet) : mrel.
Hint Resolve Core.handleGeneratedMessage_same Core.onViewChangeTimer_same Core.set_reqs_same : mrel.
Hint Extern 1 (rel Core.same (onClientTimer _ _ _ _)) => (apply Core.onClientTimer_same; done) : mrel.

Lemma executeRequest_quiet req : rel quiet_rel (executeRequest req).
Proof.
  unfold executeRequest, retireReq, stopReqTimer.
  apply rel_bind; [apply _| |intros new].
  { apply rel_bind; [apply _|apply onSeq_quiet, ClientState.retire_frame|auto with mrel]. }
  case_if; [auto with mrel|]. apply rel_bind; [apply _|auto with mrel|intros _].
  apply rel_modify. intros s. destruct (Deliver _ _). by apply quiet_frame.
Qed.

Lemma processReqViewChange_quiet rvc : rel quiet_rel (processReqViewChange id cfg rvc).
Proof.
  unfold processReqViewChange, startViewChange, startVCTimer, unprepareReqs.
  apply rel_bind; [apply _|apply rel_zoom; intros; by apply quiet_frame|intros [new [cert|]]]; [|auto with mrel].
  apply rel_bind; [apply _|apply rel_zoom; intros; by apply quiet_frame|intros ok]. case_if; [auto with mrel|].
  apply rel_bind; [apply _|auto with mrel|intros ms].
  apply rel_bind; [apply _|apply rel_modify; intros; by apply quiet_frame|intros _].
  apply rel_bind; [apply _|auto with mrel|intros _].
  apply rel_bind; [apply _| |auto with mrel].
  apply rel_bind; [apply _|auto with mrel|intros reqs]. apply rel_forM; [apply _|intros req].
  apply rel_bind; [apply _| |intros; apply rel_modify; intros; by apply quiet_frame].
  apply rel_zoom. intros s a t. unfold ClientState.withClient. intros [= <- <-] Hq.
  apply quiet_client; [|done]. apply (Hq (req_ClientID req)).
Qed.

#[local] Instance quiet_preserved : Preserves id cfg quiet_rel.
Proof.
  split; [constructor|]; try apply _; intros; auto using executeRequest_quiet, processReqViewChange_quiet with mrel.
  - unfold startReqTimer. auto with mrel.
  - unfold stopReqTimer. auto with mrel.
  - unfold startPrepTimer. auto with mrel.
  - unfold stopPrepTimer. auto with mrel.
  - unfold stopVCTimer. auto with mrel.
  - intros s Hq. by destruct (processRequest_quiet req s Hq) as (b & s' & -> & ? & _).
  - unfold prepareReq. apply rel_bind; [apply _|apply onSeq_quiet, ClientState.prepare_frame|auto with mrel].
  - apply rel_zoom; intros; by apply quiet_frame.
  - by apply quiet_frame.
  - unfold processNewViewCert. apply rel_bind; [apply _|auto with mrel|intros [? e]].
    case_if; [auto with mrel|]. apply rel_bind; [apply _|apply rel_modify; intros; by apply quiet_frame|auto with mrel].
  - apply rel_zoom; intros; by apply quiet_frame.
  - by apply quiet_frame.
  - by apply quiet_frame.
  - unfold handlePrepTimeout. apply rel_bind; [apply _|auto with mrel|intros logs].
    destruct (logs !! _); [apply rel_modify; intros; by apply quiet_frame|auto with mrel].
  - unfold finishExecution. apply rel_bind; [apply _|auto with mrel|]. intros [[]|]; [|auto with mrel].
    apply rel_bind; [apply _|apply rel_modify; intros; by apply quiet_frame|auto with mrel].
Qed.

Lemma reachable_quiet au co s : reachable id cfg au co s → quiet s.
Proof.
  apply (reachable_inv id cfg quiet au co).
  - intros c. simpl. unfold clientSeq. by rewrite lookup_empty.
  - intros a s0. apply (perform_rel id cfg quiet_rel). intros. by apply quiet_frame.
Qed.

(** ** Timers *)

(** A prepare timer runs only on a replica that is not the primary of its view,
    and there is a log for every other replica. *)
Definition cb_ok (cb : callback) : Prop :=
  match cb with CbPrepare _ v => isPrimary v id n = false | _ => True end.
Definition prov_ok (p : Timer.provider callback) : Prop :=
  map_Forall (λ _ x, cb_ok x.2) (Timer.active p).
Definition timers_inv (s : state) : Prop :=
  prov_ok (timers s) ∧ ∀ p, p < n → p ≠ id → is_Some (unicastLogs s !! p).

Lemma prov_ok_stop t p : prov_ok p → prov_ok (Timer.StopTimer t p).2.
Proof. intros Hp. by apply map_Forall_delete. Qed.
Lemma prov_ok_after d cb p : prov_ok p → cb_ok cb → prov_ok (Timer.AfterFunc d cb p).2.
Proof. intros Hp Hc. by apply map_Forall_insert_2. Qed.
Lemma prov_ok_stopOpt t p : prov_ok p → prov_ok (Timer.stopOpt t p).
Proof. destruct t; [apply prov_ok_stop|done]. Qed.
Lemma prov_ok_Start d seq cb t p : prov_ok p → cb_ok cb → prov_ok (Timer.Start d seq cb (t, p)).2.
Proof.
  intros Hp Hc. unfold Timer.Start. case_if; simpl; [by apply prov_ok_stopOpt|].
  apply (prov_ok_after d); [by apply prov_ok_stopOpt|done].
Qed.
Lemma prov_ok_StopAny t p : prov_ok p → prov_ok (Timer.stopAnyLocked (t, p)).2.
Proof. intros Hp. unfold Timer.stopAnyLocked. destruct (Timer.ts_timer t); [by apply prov_ok_stop|done]. Qed.
Lemma prov_ok_Stop seq t p : prov_ok p → prov_ok (Timer.Stop seq (t, p)).2.
Proof. intros Hp. unfold Timer.Stop. case_if; [done|by apply prov_ok_StopAny]. Qed.

Definition timers_rel (s s' : state) : Prop := timers_inv s → timers_inv s'.
#[local] Instance timers_preorder : PreOrder timers_rel.
Proof. split; unfold timers_rel; [by intros ?|]. intros ???; auto. Qed.

Lemma timers_frame (s s' : state) :
  timers s = timers s' → unicastLogs s = unicastLogs s' → timers_rel s s'.
Proof. intros E1 E2 [H1 H2]. split; [by rewrite <- E1|]. intros p. rewrite <- E2. apply H2. Qed.

Lemma timers_set p (s : state) :
  (prov_ok (timers s) → prov_ok p) → timers_rel s (set_timers p s).
Proof. intros Hp [H1 H2]. split; [by apply Hp|done]. Qed.

Lemma onClientTimer_timers c get put g :
  (∀ t p, prov_ok p → prov_ok (g (t, p)).2) → rel timers_rel (onClientTimer c get put g).
Proof.
  intros Hg s. unfold onClientTimer. specialize (Hg (get (default ClientState.newClientState (clientStates s !! c))) (timers s)).
  destruct (g _) as [t p]. simpl in *. intros [H1 H2]. split; [by apply Hg|done].
Qed.

Lemma onViewChangeTimer_timers g :
  (∀ b p, prov_ok p → prov_ok (g (b, p)).2) → rel timers_rel (onViewChangeTimer g).
Proof.
  intros Hg. apply rel_modify. intros s. specialize (Hg (viewChangeTimer s) (timers s)).
  destruct (g _) as [b p]. simpl in *. intros [H1 H2]. split; [by apply Hg|done].
Qed.

Hint Extern 2 (rel timers_rel (modify _)) => (apply rel_modify; intros; by apply timers_frame) : mrel.
Hint Extern 2 (rel timers_rel (zoom _ _ _)) => (apply rel_zoom; intros; by apply timers_frame) : mrel.

Lemma generateTag_timers role b : rel timers_rel (generateTag role b).
Proof.
  intros s. unfold generateTag. destruct (GenerateMessageAuthenTag _ _ _) as [o au].
  by apply timers_frame.
Qed.
Lemma onClient_timers {A} c (g : clientState → A * clientState) : rel timers_rel (onClient c g).
Proof. unfold onClient. auto with mrel. Qed.
Hint Resolve generateTag_timers @onClient_timers : mrel.

Lemma handleGenerated_timers m : rel timers_rel (handleGeneratedMessage m).
Proof.
  unfold handleGeneratedMessage, signMessage, assignUI, consumeGeneratedMessage.
  apply rel_bind; [apply _|destruct m; auto 10 with mrel|intros m']. destruct m'; auto with mrel.
Qed.
Lemma onSeq_timers c op : rel timers_rel (onSeq c op).
Proof. unfold onSeq. auto 6 with mrel. Qed.
Lemma stopReqTimer_timers req : rel timers_rel (stopReqTimer req).
Proof. apply onClientTimer_timers. intros. by apply prov_ok_Stop. Qed.
Lemma startReqTimer_timers req v : rel timers_rel (startReqTimer cfg req v).
Proof. apply onClientTimer_timers. intros. by apply prov_ok_Start. Qed.
Lemma startPrepTimer_timers req v : isPrimary v id n = false → rel timers_rel (startPrepTimer cfg req v).
Proof. intros Hp. apply onClientTimer_timers. intros. by apply prov_ok_Start. Qed.
Lemma startVCTimer_timers v : rel timers_rel (startVCTimer v).
Proof. apply onViewChangeTimer_timers. intros b p Hp. by apply (prov_ok_after (Timer.currentTimeout b) (CbViewChange v)). Qed.
Hint Resolve handleGenerated_timers onSeq_timers stopReqTimer_timers startReqTimer_timers
  startPrepTimer_timers startVCTimer_timers : mrel.

Lemma handlePrepTimeout_timers req v : rel timers_rel (handlePrepTimeout cfg req v).
Proof.
  intros s. unfold handlePrepTimeout, mbind, M_bind, gets.
  destruct (unicastLogs s !! _) as [l|] eqn:E; simpl; [|reflexivity].
  intros [H1 H2]. split; [done|]. intros p Hp Hid. simpl.
  destruct (decide (u32 (v mod n) = p)) as [<-|Hne]; [by rewrite lookup_insert_eq; eauto|].
  rewrite lookup_insert_ne by done. by apply H2.
Qed.

#[local] Instance timers_preserved : Preserves id cfg timers_rel.
Proof.
  split; [constructor|]; try apply _; intros; auto using handlePrepTimeout_timers with mrel.
  - apply onClientTimer_timers. intros. by apply prov_ok_Stop.
  - apply onViewChangeTimer_timers. intros b p Hp. by apply prov_ok_stopOpt.
  - apply processRequest_parts; [apply _|..]; intros; auto with mrel.
    + unfold captureReq. auto 6 with mrel.
    + unfold releaseReq. auto with mrel.
  - unfold prepareReq. auto 6 with mrel.
  - unfold executeRequest, retireReq.
    apply rel_bind; [apply _|auto 6 with mrel|intros new]. case_if; [auto with mrel|].
    apply rel_bind; [apply _|auto with mrel|intros _].
    apply rel_modify. intros s. destruct (Deliver _ _). by apply timers_frame.
  - unfold processReqViewChange, startViewChange, unprepareReqs. auto 25 with mrel.
  - by apply timers_frame.
  - unfold processNewViewCert. auto 10 with mrel.
  - by apply timers_frame.
  - apply timers_set. intros Hp. unfold Timer.Expire in *.
    destruct (Timer.active (timers s) !! t) as [[d g]|]; simplify_eq/=. by apply map_Forall_delete.
  - unfold finishExecution. apply rel_bind; [apply _|auto with mrel|]. intros [[]|]; auto 10 with mrel.
Qed.

Lemma elem_of_peers p :
  p ∈ filter (λ p, p ≠ id) (N.of_nat <$> seq 0 (N.to_nat n)) ↔ p ≠ id ∧ p < n.
Proof.
  rewrite list_elem_of_filter, list_elem_of_fmap. split.
  - intros [Hne (k & -> & Hk%elem_of_seq)]. split; [done|lia].
  - intros [Hne Hp]. split; [done|]. exists (N.to_nat p). rewrite elem_of_seq. lia.
Qed.

Lemma timers_inv_init au co : timers_inv (newReplica id cfg au co : state).
Proof.
  split; [apply map_Forall_empty|]. intros p Hp Hid. simpl. unfold newUnicastLogs.
  set (l := filter _ _). assert (p ∈ l) as Hin by (by apply elem_of_peers).
  clearbody l. induction l as [|x l IH]; [set_solver|]. simpl.
  destruct (decide (x = p)) as [->|Hne]; [by rewrite lookup_insert_eq; eauto|].
  rewrite lookup_insert_ne by done. apply IH. set_solver.
Qed.

Lemma reachable_timers au co s : reachable id cfg au co s → timers_inv s.
Proof.
  apply (reachable_inv id cfg timers_inv au co); [apply timers_inv_init|].
  intros a s0. apply (perform_rel id cfg timers_rel). intros. by apply timers_frame.
Qed.

Lemma requestViewChange_ok v (s : state) : isPanic (requestViewChange id v s).1 = false.
Proof.
  unfold requestViewChange, mbind, M_bind, gets, modify, ViewState.HoldView. lazy beta iota.
  case_if; [done|]. lazy beta iota. case_if; [done|].
  match goal with |- context [handleGeneratedMessage ?m ?x] =>
    destruct (OwnLog.generate_rvc (NewReqViewChange id v) x) as (sig & au & -> & _) end. done.
Qed.

Lemma expire_ok t (s : state) :
  0 < n → n ≤ 2 ^ 32 → timers_inv s → isPanic (expireTimer id cfg t s).1 = false.
Proof.
  intros Hn0 Hn [H1 H2]. unfold expireTimer, mbind, M_bind, get. cbn. unfold Timer.Expire.
  destruct (Timer.active (timers s) !! t) as [[d cb]|] eqn:E; [|done]. cbn.
  specialize (H1 _ _ E). simpl in H1. destruct cb as [v|req v|v]; cbn.
  - unfold handleReqTimeout, mbind, M_bind.
    pose proof (requestViewChange_ok (u64_succ v)) as Hr.
    match goal with |- context [requestViewChange id _ ?x] => specialize (Hr x) end.
    by destruct (requestViewChange _ _ _) as [[]].
  - unfold handlePrepTimeout, mbind, M_bind, gets. simpl.
    unfold isPrimary in H1. apply N.eqb_neq in H1. pose proof (N.mod_lt v n ltac:(lia)) as Hlt.
    assert (u32 (v mod n) = v mod n) as -> by (unfold u32; apply N.mod_small; lia).
    destruct (H2 (v mod n) Hlt ltac:(done)) as [l ->]. done.
  - unfold handleViewChangeTimeout, mbind, M_bind.
    pose proof (requestViewChange_ok (u64_succ v)) as Hr.
    match goal with |- context [requestViewChange id _ ?x] => specialize (Hr x) end.
    by destruct (requestViewChange _ _ _) as [[]].
Qed.
End Crash.

(** C28: a request is always processed.  With a USIG that counts, in every
    reachable state, processing any request neither blocks on an identifier that
    is not released, nor fails, nor panics, and leaves the request captured: the
    client's last captured identifier is at least the request's. *)
Theorem request_always_processed {Au Co} `{!Authenticator Au} `{!SequentialUSIG Au}
    `{!RequestConsumer Co} `{!RangeOrder} id cfg (au : Au) (co : Co) s req :
  reachable id cfg au co s →
  ∃ new s', processRequest id cfg req s = (OK new, s') ∧
    req_Sequence req ≤ lastCapturedSeq (clientSeq (clientStates s') (req_ClientID req)).
Proof.
  intros Hq%reachable_quiet. destruct (processRequest_quiet id cfg req s Hq) as (b & s' & ? & _ & ?). eauto.
Qed.

(** Timeouts do not crash the replica.  With a USIG that counts and a number
    of replicas that is a positive [uint32], in every reachable state the
    expiration of any timer is handled without a panic; in particular a prepare
    timeout finds the log of the primary it forwards the request to, as the
    prepare timer is only started on backups. *)
Theorem timeouts_never_panic {Au Co} `{!Authenticator Au} `{!SequentialUSIG Au}
    `{!RequestConsumer Co} `{!RangeOrder} id cfg (au : Au) (co : Co) s t :
  0 < cfg_N cfg → in_u32 (cfg_N cfg) → reachable id cfg au co s →
  isPanic (expireTimer id cfg t s).1 = false.
Proof. intros H0 Hn Hr%reachable_timers. apply expire_ok; [done|lia|done]. Qed.

(** ** Witnesses *)

Lemma request_always_processed_witness :
  ∃ new s', @processRequest N (list bytes) plainAuthen 1 cfg3 req9 afterCommit = (OK new, s') ∧
    1 ≤ lastCapturedSeq (clientSeq (clientStates s') 9).
Proof.
  exact (@request_always_processed N (list bytes) plainAuthen plainUSIG recordingConsumer keyOrder 1 cfg3 0 []
    afterCommit req9 Core.afterCommit_reachable).
Defined.

Lemma timeouts_never_panic_witness :
  isPanic (@expireTimer N (list bytes) plainAuthen 1 cfg3 1 afterPrepare).1 = false.
Proof.
  refine (@timeouts_never_panic N (list bytes) plainAuthen plainUSIG recordingConsumer keyOrder 1 cfg3 0 []
    afterPrepare 1 _ _ _); [reflexivity|reflexivity|].
  eapply (@steps_peer N (list bytes) plainAuthen recordingConsumer keyOrder 1 cfg3
    (Msg_Certified prepare9) _ (OK true) afterPrepare); vm_compute; reflexivity.
Defined.

End Crash.
