(* ===== verification/WellFormed.v ===== *)
(** The type of a replica's state.

    The Go types leave much open: a slice of counters has any length, a map of
    Requests any keys, a log of [messages.Message] any kind of message.  [wf] says
    what the code relies on when it indexes, ranges or asserts types, and every
    reachable state has it, whatever the authenticator, the consumer and the
    messages received. *)

From S2P Require Import Prelude Usig Messages Authen ViewState Timer ClientState RequestList.
From S2P Require Import MessageLog Quorum Commit Api NewViewCert Collect.
From S2P Require Import Replica Handling Preservation Core Crash.

Import ViewState(viewState, currentView, expectedView).
Import ClientState(clientState, seqState, replyState, seqS, replyS, lastRepliedSeq, last_reply).
Import MessageLogM(messageLog, msgs).

Module WellFormed.
Import Replica Handling Preservation Quorum.

Section WellFormed.
Context {Au Co : Type} `{!Authenticator Au} `{!RequestConsumer Co} `{!RangeOrder}.
Context (id : N) (cfg : Configer).
Abbreviation state := (replica Au Co).
Abbreviation n := (cfg_N cfg).

(** ** The parts *)

(** What this replica puts into its broadcast log. *)
Definition own_message (m : Message) : Prop :=
  match m with
  | Msg_Certified cm => cm_ReplicaID cm = id
  | Msg_ReqViewChange r => rvc_ReplicaID r = id
  | _ => False
  end.

(** What it generates: the same and Replies. *)
Definition by_self (m : Message) : Prop :=
  match m with Msg_Reply r => rep_ReplicaID r = id | _ => own_message m end.

Definition isRequest (m : Message) : Prop := ∃ r, m = Msg_Request r.

(** The last Reply to a client is for that client, from this replica, and carries
    the identifier that is recorded beside it. *)
Definition reply_wf (c : N) (r : replyState) : Prop :=
  match last_reply r with
  | None => lastRepliedSeq r = 0
  | Some reply => rep_ClientID reply = c ∧ rep_ReplicaID reply = id ∧
                  rep_Sequence reply = lastRepliedSeq r ∧ 0 < lastRepliedSeq r
  end.

Definition client_wf (c : N) (x : clientState) : Prop :=
  ClientState.seq_inv (seqS x) ∧ reply_wf c (replyS x).

Definition peer_log (p : N) (l : messageLog) : Prop :=
  p < n ∧ p ≠ id ∧ Forall isRequest (msgs l).

Record wf (s : state) : Prop := {
  wf_clients : map_Forall client_wf (clientStates s);
  wf_pending : RequestList.keyed (pendingReqs s);
  wf_prepared : RequestList.keyed (preparedReqs s);
  wf_log : Forall own_message (msgs (log s));
  wf_unicast : map_Forall peer_log (unicastLogs s);
  wf_peers : ∀ p, p < n → p ≠ id → is_Some (unicastLogs s !! p);
  wf_timers : Timer.provider_wf (timers s);
  wf_counter : length (Commitment.highest (Commitment.coll_counter (commitments s))) =
               N.to_nat (u32_sub (commitCertSize n (cfg_F cfg)) 1);
  wf_lastUI : length (lastUI s) = N.to_nat n }.

Definition wf_rel (s s' : state) : Prop := wf s → wf s'.
#[local] Instance wf_preorder : PreOrder wf_rel.
Proof. split; unfold wf_rel; [by intros ?|]. intros ???; auto. Qed.

(** ** Updates of one part *)

Lemma client_wf_new c : client_wf c ClientState.newClientState.
Proof. split; [apply ClientState.seq_inv_new|done]. Qed.

Lemma client_wf_default c (s : state) :
  wf s → client_wf c (default ClientState.newClientState (clientStates s !! c)).
Proof.
  intros Hs. destruct (clientStates s !! c) as [x|] eqn:E; simpl; [|apply client_wf_new].
  apply (wf_clients s Hs _ _ E).
Qed.

Lemma wf_client c x (s : state) :
  client_wf c x → wf_rel s (set_clientStates (<[c := x]> (clientStates s)) s).
Proof. intros Hx [? ? ? ? ? ? ? ? ?]. constructor; try done. by apply map_Forall_insert_2. Qed.

Lemma onClient_wf {A} c (g : clientState → A * clientState) :
  (∀ x, client_wf c x → client_wf c (g x).2) → rel wf_rel (onClient c g).
Proof.
  intros Hg. apply rel_zoom. intros s a t E Hs. unfold ClientState.withClient in E.
  specialize (Hg _ (client_wf_default c s Hs)). destruct (g _) as [a' x]. simplify_eq/=.
  by apply wf_client.
Qed.

Lemma onClientTimer_wf c get put g :
  (∀ t x, client_wf c x → client_wf c (put t x)) →
  (∀ t p, Timer.provider_wf p → Timer.provider_wf (g (t, p)).2) →
  rel wf_rel (onClientTimer c get put g).
Proof.
  intros Hput Hg s Hs. unfold onClientTimer. set (x := default _ _).
  specialize (Hg (get x) (timers s) (wf_timers s Hs)). destruct (g _) as [t p]. simpl in *.
  destruct (wf_client c (put t x) s (Hput t x (client_wf_default c s Hs)) Hs). by constructor.
Qed.

Lemma onViewChangeTimer_wf g :
  (∀ b p, Timer.provider_wf p → Timer.provider_wf (g (b, p)).2) → rel wf_rel (onViewChangeTimer g).
Proof.
  intros Hg. apply rel_modify. intros s [? ? ? ? ? ? Ht ? ?].
  specialize (Hg (viewChangeTimer s) (timers s) Ht). destruct (g _) as [b p]. by constructor.
Qed.

Lemma wf_set_reqs pending prepared (s : state) :
  (wf s → RequestList.keyed pending ∧ RequestList.keyed prepared) →
  wf_rel s (set_reqs pending prepared s).
Proof. intros Hk Hs. destruct (Hk Hs), Hs. by constructor. Qed.

Lemma set_reqs_wf (g h : state → gmap N Request) :
  (∀ s, wf s → RequestList.keyed (g s) ∧ RequestList.keyed (h s)) →
  rel wf_rel (modify (λ s : state, set_reqs (g s) (h s) s)).
Proof. intros Hk. apply rel_modify. intros s. apply wf_set_reqs, Hk. Qed.

Lemma reset_wf : rel wf_rel (modify (λ s : state, set_log (MessageLogM.Reset [] (log s)) s)).
Proof. apply rel_modify. intros s []. by constructor. Qed.

Lemma append_wf m (s : state) :
  own_message m → wf_rel s (set_log (MessageLogM.Append m (log s)) s).
Proof. intros Hm []. constructor; try done. simpl. apply Forall_app; auto. Qed.

(** An update of a field that [wf] does not mention. *)
Lemma wf_frame (s s' : state) :
  clientStates s = clientStates s' → pendingReqs s = pendingReqs s' →
  preparedReqs s = preparedReqs s' → log s = log s' → unicastLogs s = unicastLogs s' →
  timers s = timers s' → commitments s = commitments s' → lastUI s = lastUI s' → wf_rel s s'.
Proof.
  intros ????????. destruct s, s'. simpl in *. subst. intros []. by constructor.
Qed.

Hint Extern 3 (rel wf_rel (modify _)) => (apply rel_modify; intros; by apply wf_frame) : mrel.
Hint Extern 3 (rel wf_rel (zoom _ _ _)) => (apply rel_zoom; intros; by apply wf_frame) : mrel.

(** ** Generated messages *)

Lemma generateTag_wf role b : rel wf_rel (generateTag role b).
Proof.
  intros s. unfold generateTag. destruct (GenerateMessageAuthenTag _ _ _) as [o au].
  by apply wf_frame.
Qed.
Hint Resolve generateTag_wf reset_wf : mrel.

Lemma reply_wf_Add c reply r :
  rep_ClientID reply = c → rep_ReplicaID reply = id → reply_wf c r →
  reply_wf c (ClientState.AddReply reply r).
Proof. unfold ClientState.AddReply. case_if; [done|]. nbool. intros; unfold reply_wf; simpl. split_and!; [done..|lia]. Qed.

Lemma consume_wf m : by_self m → rel wf_rel (consumeGeneratedMessage m).
Proof.
  intros Hm. destruct m as [?|r|r|r|cm]; try done; simpl.
  - apply onClient_wf. intros x [Hq Hr]. split; [done|]. by apply reply_wf_Add.
  - apply rel_modify. intros s. by apply append_wf.
  - apply rel_modify. intros s. by apply append_wf.
Qed.

(** A sequence whose second part depends on the value of the first. *)
Lemma rel_bind_value {A B} (m : M state A) (k : A → M state B) :
  rel wf_rel m → (∀ a s, (m s).1 = OK a → rel wf_rel (k a)) → rel wf_rel (m ≫= k).
Proof.
  intros Hm Hk s. specialize (Hm s). specialize (λ a, Hk a s). unfold mbind, M_bind.
  destruct (m s) as [[a|e|p] s']; [|done..]. simpl in *. etrans; [exact Hm|]. by apply Hk.
Qed.

Lemma signMessage_by_self m m' (s : state) :
  by_self m → (signMessage m s).1 = OK m' → by_self m'.
Proof.
  unfold signMessage, generateTag, mbind, M_bind, lift. intros Hm.
  destruct (Authen.AuthenBytes m); try done.
  destruct (GenerateMessageAuthenTag _ _ _) as [[] au]; try done. simpl. by destruct m; intros [= <-].
Qed.

Lemma assignUI_id cm cm' (s : state) :
  (assignUI cm s).1 = OK cm' → cm_ReplicaID cm' = cm_ReplicaID cm.
Proof.
  unfold assignUI, generateTag, mbind, M_bind, lift.
  destruct (Authen.AuthenBytes _); [|done..].
  destruct (GenerateMessageAuthenTag _ _ _) as [[] au]; try done.
  destruct (Usig.MustUnmarshalUI _); try done. simpl. intros [= <-]. apply cm_ReplicaID_SetUI.
Qed.

Lemma signMessage_wf m : rel wf_rel (signMessage m).
Proof. unfold signMessage. auto 6 with mrel. Qed.
Lemma assignUI_wf m : rel wf_rel (assignUI m).
Proof. unfold assignUI. auto 6 with mrel. Qed.

Lemma generated_wf m : by_self m → rel wf_rel (handleGeneratedMessage m).
Proof.
  intros Hm. unfold handleGeneratedMessage.
  destruct m as [?|?|r|r|cm]; try done; apply rel_bind_value.
  - apply signMessage_wf.
  - intros m s Es. apply consume_wf. by eapply signMessage_by_self.
  - apply signMessage_wf.
  - intros m s Es. apply consume_wf. by eapply signMessage_by_self.
  - apply rel_bind; [apply _|apply assignUI_wf|auto with mrel].
  - intros m s. unfold mbind, M_bind. destruct (assignUI cm s) as [[cm'| |] s'] eqn:E; [|done..].
    simpl. intros [= <-]. apply consume_wf. simpl.
    rewrite (assignUI_id cm cm' s); [done|by rewrite E].
Qed.

Lemma gen_ok_by_self m : gen_ok id cfg m → by_self m.
Proof. destruct m as [| | | |[]]; simpl; tauto. Qed.

(** ** Requests and timers *)

Lemma onSeq_wf c op :
  (∀ q, ClientState.seq_inv q → ClientState.seq_inv (op q).2) → rel wf_rel (onSeq c op).
Proof.
  intros Hop. unfold onSeq. apply rel_bind; [apply _| |intros [?|[]|]; auto with mrel].
  apply onClient_wf. intros x [Hq Hr]. specialize (Hop _ Hq). by destruct (op _).
Qed.

Lemma captureReq_wf req : rel wf_rel (captureReq req).
Proof.
  unfold captureReq. apply rel_bind; [apply _| |].
  - apply onClient_wf. intros x [Hq Hr].
    destruct (ClientState.CaptureRequestSeq _ _) eqn:E; [by split..|].
    split; [|done]. by eapply ClientState.seq_inv_capture.
  - intros [[]|]; auto with mrel. apply rel_bind; [apply _| |auto with mrel].
    apply set_reqs_wf. intros s []. auto using RequestList.keyed_Add.
Qed.

Lemma releaseReq_wf req : rel wf_rel (releaseReq req).
Proof. apply onClient_wf. intros x [Hq Hr]. split; [by apply ClientState.seq_inv_release|done]. Qed.

Lemma prepareReq_wf req : rel wf_rel (prepareReq req).
Proof.
  unfold prepareReq. apply rel_bind; [apply _| |].
  - apply onSeq_wf. intros q. apply ClientState.seq_inv_prepare.
  - intros []; [|auto with mrel]. apply rel_bind; [apply _| |auto with mrel].
    apply set_reqs_wf. intros s []. auto using RequestList.keyed_Add, RequestList.keyed_Remove.
Qed.

Lemma retireReq_wf req : rel wf_rel (retireReq req).
Proof.
  unfold retireReq. apply rel_bind; [apply _| |].
  - apply onSeq_wf. intros q. apply ClientState.seq_inv_retire.
  - intros []; [|auto with mrel]. apply rel_bind; [apply _| |auto with mrel].
    apply set_reqs_wf. intros s []. auto using RequestList.keyed_Remove.
Qed.

Lemma unprepareReqs_wf : rel wf_rel unprepareReqs.
Proof.
  unfold unprepareReqs. apply rel_bind; [apply _|auto with mrel|intros reqs].
  apply rel_forM; [apply _|]. intros req. apply rel_bind; [apply _| |intros _].
  - apply onClient_wf. intros x [Hq Hr]. split; [by apply ClientState.seq_inv_unprepare|done].
  - apply set_reqs_wf. intros s []. auto using RequestList.keyed_Add, RequestList.keyed_Remove.
Qed.

Lemma stopOpt_wf {F} t (p : Timer.provider F) : Timer.provider_wf p → Timer.provider_wf (Timer.stopOpt t p).
Proof. destruct t; [apply Timer.provider_wf_Stop|done]. Qed.
Lemma Start_wf {F} d seq (cb : F) t p :
  Timer.provider_wf p → Timer.provider_wf (Timer.Start d seq cb (t, p)).2.
Proof.
  intros Hp. unfold Timer.Start. case_if; simpl; [by apply stopOpt_wf|].
  by apply (Timer.provider_wf_AfterFunc d cb), stopOpt_wf.
Qed.
Lemma Stop_wf {F} seq t (p : Timer.provider F) :
  Timer.provider_wf p → Timer.provider_wf (Timer.Stop seq (t, p)).2.
Proof.
  intros Hp. unfold Timer.Stop. case_if; [done|]. unfold Timer.stopAnyLocked.
  destruct (Timer.ts_timer t); [by apply Timer.provider_wf_Stop|done].
Qed.

Lemma startReqTimer_wf req v : rel wf_rel (startReqTimer cfg req v).
Proof. apply onClientTimer_wf; [done|]. intros. by apply Start_wf. Qed.
Lemma stopReqTimer_wf req : rel wf_rel (stopReqTimer req).
Proof. apply onClientTimer_wf; [done|]. intros. by apply Stop_wf. Qed.
Lemma startPrepTimer_wf req v : rel wf_rel (startPrepTimer cfg req v).
Proof. apply onClientTimer_wf; [done|]. intros. by apply Start_wf. Qed.
Lemma stopPrepTimer_wf req : rel wf_rel (stopPrepTimer req).
Proof. apply onClientTimer_wf; [done|]. intros. by apply Stop_wf. Qed.
Lemma startVCTimer_wf v : rel wf_rel (startVCTimer v).
Proof.
  apply onViewChangeTimer_wf. intros b p Hp.
  by apply (Timer.provider_wf_AfterFunc (Timer.currentTimeout b) (CbViewChange v)).
Qed.
Lemma stopVCTimer_wf : rel wf_rel stopVCTimer.
Proof. apply onViewChangeTimer_wf. intros b p Hp. by apply stopOpt_wf. Qed.

Hint Resolve captureReq_wf releaseReq_wf prepareReq_wf retireReq_wf unprepareReqs_wf startReqTimer_wf
  stopReqTimer_wf startPrepTimer_wf stopPrepTimer_wf startVCTimer_wf stopVCTimer_wf : mrel.

(** ** Every step *)

Lemma collect_wf c : rel wf_rel (zoom commitments set_commitments (Commitment.collect c)).
Proof.
  apply rel_zoom. intros s o st E []. constructor; try done. simpl. rewrite <- wf_counter0.
  unfold Commitment.collect in E. destruct (Commitment.acceptCommitment _ _ _ _ _ _) as [[] a]; [|by simplify_eq..].
  unfold Commitment.countCommitment in E. case_if; [by simplify_eq|].
  set (cnt := if _ : bool then _ else _) in E.
  assert (length (Commitment.highest cnt) =
          length (Commitment.highest (Commitment.coll_counter (commitments s)))) as <-.
  { unfold cnt. case_if; [apply length_replicate|done]. }
  destruct (Commitment.raise _ _) as [hs|] eqn:Er; simplify_eq/=; [|done].
  by eapply Commitment.raise_length.
Qed.

Lemma handlePrepTimeout_wf req v : rel wf_rel (handlePrepTimeout cfg req v).
Proof.
  intros s. unfold handlePrepTimeout, mbind, M_bind, gets.
  destruct (unicastLogs s !! _) as [l|] eqn:E; simpl; [|reflexivity].
  intros []. destruct (wf_unicast0 _ _ E) as (? & ? & ?). constructor; try done; simpl.
  - apply map_Forall_insert_2; [|done]. split_and!; [done..|]. apply Forall_app. split; [done|].
    apply Forall_singleton. by eexists.
  - intros p Hp Hid. destruct (decide (u32 (v mod n) = p)) as [<-|Hne]; [by rewrite lookup_insert_eq; eauto|].
    rewrite lookup_insert_ne by done. by apply wf_peers0.
Qed.

#[local] Instance wf_preserved : Preserves id cfg wf_rel.
Proof.
  split; [constructor|]; try apply _; intros; auto using handlePrepTimeout_wf, collect_wf with mrel.
  - by apply generated_wf, gen_ok_by_self.
  - apply processRequest_parts; [apply _|..]; intros; auto with mrel. by apply generated_wf.
  - unfold executeRequest. apply rel_bind; [apply _|auto with mrel|intros new].
    case_if; [auto with mrel|]. apply rel_bind; [apply _|auto with mrel|intros _].
    apply rel_modify. intros s. destruct (Deliver _ _). by apply wf_frame.
  - assert (∀ v ms cert, rel wf_rel (handleGeneratedMessage
      (Msg_Certified (CM_ViewChange (NewViewChange id v ms cert))))) by (intros; by apply generated_wf).
    unfold processReqViewChange, startViewChange. auto 25 with mrel.
  - by apply wf_frame.
  - assert (rel wf_rel (handleGeneratedMessage (Msg_Certified (CM_NewView (NewNewView id v cert)))))
      by (by apply generated_wf).
    unfold processNewViewCert. auto 10 with mrel.
  - by apply wf_frame.
  - intros []. constructor; try done. by eapply Timer.provider_wf_Expire.
  - unfold finishExecution. apply rel_bind; [apply _|auto with mrel|]. intros [[]|]; [|auto with mrel].
    apply rel_bind; [apply _|auto with mrel|intros _]. by apply generated_wf.
Qed.

Lemma lastUI_wf i v (s : state) : wf_rel s (set_lastUI (<[i := v]> (lastUI s)) s).
Proof. intros []. constructor; try done. simpl. by rewrite length_insert. Qed.

Lemma wf_init au co : wf (newReplica id cfg au co).
Proof.
  constructor; simpl.
  - apply map_Forall_empty.
  - apply RequestList.keyed_New.
  - apply RequestList.keyed_New.
  - constructor.
  - apply map_Forall_lookup_2. intros p l Hl. unfold newUnicastLogs in Hl.
    apply elem_of_list_to_map_2, list_elem_of_fmap in Hl as (q & [= -> ->] & Hq).
    apply Crash.elem_of_peers in Hq as [? ?]. by split_and!.
  - apply (Crash.timers_inv_init id cfg au co).
  - apply Timer.provider_wf_empty.
  - apply length_replicate.
  - apply length_replicate.
Qed.

Lemma reachable_wf au co s : reachable id cfg au co s → wf s.
Proof.
  apply (reachable_inv id cfg wf au co); [apply wf_init|].
  intros a s0. apply (perform_rel id cfg wf_rel). intros. apply lastUI_wf.
Qed.
End WellFormed.

(** C26: the replica state is well-formed.  In every reachable state, whatever was
    received and whatever the authenticator answers: the request identifiers of
    each client are in order and its last Reply is this replica's, to that client,
    with the recorded identifier; the lists of pending and prepared Requests hold
    each client's Request under that client; the broadcast log has only
    ReqViewChange and certified messages of this replica, so that the type
    assertions on its messages succeed; there is a unicast log for exactly the
    other replicas, with Requests only; no timer is active that was not created;
    the counter has its [commitCertSize-1] slots, and [lastUI] an element per
    replica, so that it can be indexed with the ID of any of them. *)
Theorem replica_well_formed {Au Co} `{!Authenticator Au} `{!RequestConsumer Co} `{!RangeOrder}
    id cfg (au : Au) (co : Co) s :
  reachable id cfg au co s → wf id cfg s.
Proof. apply reachable_wf. Qed.

Lemma replica_well_formed_witness :
  wf 1 cfg3 afterCommit ∧ length (lastUI afterCommit) = 3%nat.
Proof.
  assert (wf 1 cfg3 afterCommit) as Hwf.
  { exact (@replica_well_formed N (list bytes) plainAuthen recordingConsumer keyOrder 1 cfg3 0 []
      afterCommit Core.afterCommit_reachable). }
  split; [exact Hwf|apply Hwf].
Defined.
End WellFormed.
