(* ===== verification/NoPanic.v ===== *)
(** Absence of panics in the handling of peers' messages.

    Handling a Prepare, a Commit or a NewView panics when a request is prepared that
    was not captured, or retired that was not prepared; the code relies on having
    handled the embedded messages first, on the USIG, which gives each counter to
    one message only, and on a NewView arriving in the view it opens.

    - [admissible]: a message that passed validation, whose embedded messages were
      handled ([ready]), and that is the one its replica certified with its counter;
    - [validated_never_panics]: in the states such messages lead to, nothing panics;
    - [peer_message_never_panics]: the handler of peers' messages, which validates and
      handles embedded messages itself, does not panic either, as long as the NewView
      messages it comes across are for the next view at most;
    - [Lagging.lagging_replica_panics]: without this last condition it does.  A replica that is
      behind takes note of the NewView without entering its view, and retires the
      requests of that view without having prepared them. *)

From S2P Require Import Prelude Usig Messages ViewState Timer ClientState RequestList.
From S2P Require Import MessageLog Quorum Commit Api Validation NewViewCert ViewSafety Collect.
From S2P Require Import Replica Handling Preservation Core OwnLog LogOrder Sequencing Crash WellFormed.

Import ViewState(viewState, currentView, expectedView).
Import ClientState(clientState, seqState, lastCapturedSeq, lastReleasedSeq, lastPreparedSeq,
  lastRetiredSeq, clientSeq).

Module NoPanic.
Import Replica Handling Preservation Quorum Validation NewViewCertM.

Section NoPanic.
Context {Au Co : Type} `{!Authenticator Au} `{!SequentialUSIG Au} `{!RequestConsumer Co} `{!RangeOrder}.
Context (id : N) (cfg : Configer).
Abbreviation state := (replica Au Co).
Abbreviation n := (cfg_N cfg).
Abbreviation vcCertSize := (viewChangeCertSize (cfg_N cfg) (cfg_F cfg)).
Abbreviation expected s := (expectedView (views s)).
Abbreviation current s := (currentView (views s)).
Abbreviation ok m s := (isPanic (m s).1 = false) (only parsing).

#[local] Existing Instance Core.same_preorder.

(** ** Requests *)

Definition captured (s : state) (req : Request) : Prop :=
  req_Sequence req ≤ lastCapturedSeq (clientSeq (clientStates s) (req_ClientID req)).
Definition prepared (s : state) (req : Request) : Prop :=
  req_Sequence req ≤ lastPreparedSeq (clientSeq (clientStates s) (req_ClientID req)).

(** Within a view, identifiers are captured and prepared, and never the reverse. *)
Definition grows (s s' : state) : Prop :=
  lastUI s = lastUI s' ∧ views s = views s' ∧ rvcCollected s = rvcCollected s' ∧
  ∀ c, lastCapturedSeq (clientSeq (clientStates s) c) ≤ lastCapturedSeq (clientSeq (clientStates s') c) ∧
       lastPreparedSeq (clientSeq (clientStates s) c) ≤ lastPreparedSeq (clientSeq (clientStates s') c).

#[local] Instance grows_preorder : PreOrder grows.
Proof.
  split; unfold grows; [by intros ?|].
  intros ??? (?&?&?&Hx) (?&?&?&Hy). split_and!; [congruence..|]. intros c. specialize (Hx c). specialize (Hy c). lia.
Qed.

Lemma grows_captured s s' req : grows s s' → captured s req → captured s' req.
Proof. intros (_&_&_&Hc). unfold captured. specialize (Hc (req_ClientID req)). lia. Qed.
Lemma grows_prepared s s' req : grows s s' → prepared s req → prepared s' req.
Proof. intros (_&_&_&Hc). unfold prepared. specialize (Hc (req_ClientID req)). lia. Qed.

Lemma grows_same (s s' : state) :
  lastUI s = lastUI s' → views s = views s' → rvcCollected s = rvcCollected s' →
  (∀ c, clientSeq (clientStates s) c = clientSeq (clientStates s') c) → grows s s'.
Proof. intros ??? Hc. split_and!; try done. intros c. rewrite Hc. lia. Qed.

Lemma same_grows (s s' : state) : local s s' → Core.same s s' → grows s s'.
Proof. intros ((?&?&?&?&?)&?&?&?&?) (Hc&_). by apply grows_same. Qed.

(** An operation on one client's identifiers. *)
Lemma grows_client c x (s : state) :
  lastCapturedSeq (clientSeq (clientStates s) c) ≤ lastCapturedSeq (ClientState.seqS x) →
  lastPreparedSeq (clientSeq (clientStates s) c) ≤ lastPreparedSeq (ClientState.seqS x) →
  grows s (set_clientStates (<[c := x]> (clientStates s)) s).
Proof.
  intros Hx Hy. split_and!; try done. intros c'. simpl. unfold clientSeq. destruct (decide (c = c')) as [<-|Hne].
  - by rewrite lookup_insert_eq.
  - rewrite lookup_insert_ne by done. lia.
Qed.

Lemma onClientTimer_grows c get put g :
  (∀ t x, ClientState.seqS (put t x) = ClientState.seqS x) → rel grows (onClientTimer c get put g).
Proof. intros Hp s. apply same_grows; [apply onClientTimer_local|by apply Core.onClientTimer_same]. Qed.
Lemma onViewChangeTimer_grows g : rel grows (onViewChangeTimer g).
Proof. intros s. apply same_grows; [apply onViewChangeTimer_local|apply Core.onViewChangeTimer_same]. Qed.
Lemma onClient_grows {A} c (g : clientState → A * clientState) :
  (∀ x, lastCapturedSeq (ClientState.seqS x) ≤ lastCapturedSeq (ClientState.seqS (g x).2) ∧
        lastPreparedSeq (ClientState.seqS x) ≤ lastPreparedSeq (ClientState.seqS (g x).2)) →
  rel grows (onClient c g).
Proof.
  intros Hg. unfold onClient. apply rel_zoom. intros s a t. unfold ClientState.withClient.
  specialize (Hg (default ClientState.newClientState (clientStates s !! c))).
  destruct (g _) as [b x], Hg. intros [= <- <-]. by apply grows_client.
Qed.
Lemma generateTag_safe role b : rel grows (generateTag role b).
Proof. intros s. unfold generateTag. destruct (GenerateMessageAuthenTag _ _ _). by apply grows_same. Qed.
Hint Resolve onViewChangeTimer_grows generateTag_safe : mrel.
Hint Extern 1 (rel grows (onClientTimer _ _ _ _)) => (apply onClientTimer_grows; done) : mrel.
Hint Extern 2 (rel grows (modify _)) => (apply rel_modify; intros; by apply grows_same) : mrel.
Hint Extern 2 (rel grows (zoom _ _ _)) => (apply rel_zoom; intros; by apply grows_same) : mrel.
Hint Extern 3 (rel grows (onClient _ _)) => (apply onClient_grows; intros; simpl; lia) : mrel.

Lemma handleGenerated_grows m : rel grows (handleGeneratedMessage m).
Proof.
  unfold handleGeneratedMessage, signMessage, assignUI, consumeGeneratedMessage.
  apply rel_bind; [apply _|destruct m; auto 10 with mrel|intros m']. destruct m'; auto with mrel.
Qed.

Lemma onSeq_grows c op :
  (∀ q, lastCapturedSeq q ≤ lastCapturedSeq (op q).2 ∧ lastPreparedSeq q ≤ lastPreparedSeq (op q).2) →
  rel grows (onSeq c op).
Proof.
  intros Hop. unfold onSeq. apply rel_bind; [apply _|apply onClient_grows|intros [|[]|]; auto with mrel].
  intros x. specialize (Hop (ClientState.seqS x)). by destruct (op _).
Qed.

Lemma prepareReq_grows req : rel grows (prepareReq req).
Proof.
  unfold prepareReq. apply rel_bind; [apply _|apply onSeq_grows|auto with mrel].
  intros q. unfold ClientState.PrepareRequestSeq. repeat case_if; nbool; simpl; lia.
Qed.

Lemma executeRequest_grows req : rel grows (executeRequest req).
Proof.
  unfold executeRequest, retireReq, stopReqTimer. apply rel_bind; [apply _| |intros new].
  { apply rel_bind; [apply _|apply onSeq_grows|auto with mrel].
    intros q. unfold ClientState.RetireRequestSeq. repeat case_if; nbool; simpl; lia. }
  case_if; [auto with mrel|]. apply rel_bind; [apply _|auto with mrel|intros _].
  apply rel_modify. intros s. destruct (Deliver _ _). by apply grows_same.
Qed.

Lemma captureReq_grows req : rel grows (captureReq req).
Proof.
  unfold captureReq. apply rel_bind; [apply _|apply onClient_grows|auto with mrel].
  intros x. unfold ClientState.CaptureRequestSeq. repeat case_if; nbool; simpl; lia.
Qed.
Hint Resolve handleGenerated_grows prepareReq_grows executeRequest_grows captureReq_grows : mrel.

Lemma applyRequest_grows req v : rel grows (applyRequest id cfg req v).
Proof. unfold applyRequest, startReqTimer, startPrepTimer. auto with mrel. Qed.
Hint Resolve applyRequest_grows : mrel.
Lemma processRequest_grows req : rel grows (processRequest id cfg req).
Proof. unfold processRequest, releaseReq. auto 12 with mrel. Qed.
Lemma collectCommitment_grows m : rel grows (collectCommitment m).
Proof. unfold collectCommitment, acceptNewView. destruct m; auto 12 with mrel. Qed.
Hint Resolve collectCommitment_grows : mrel.
Lemma applyPeerMessage_grows m : rel grows (applyPeerMessage id cfg m).
Proof.
  unfold applyPeerMessage, applyPrepare, applyCommit, applyNewView, applyPendingRequests, stopPrepTimer, stopVCTimer.
  destruct m; auto 20 with mrel.
Qed.
Lemma processViewChange_grows vc : rel grows (processViewChange id cfg vc).
Proof. unfold processViewChange, processNewViewCert. auto 20 with mrel. Qed.
Lemma requestViewChange_grows v : rel grows (requestViewChange id v).
Proof. unfold requestViewChange. auto 15 with mrel. Qed.
Lemma expireTimer_grows t : rel grows (expireTimer id cfg t).
Proof.
  pose proof requestViewChange_grows. unfold expireTimer. apply rel_bind; [apply _|by intros s|intros s].
  destruct (Timer.Expire t (timers s)) as [[cb p]|]; [|auto with mrel].
  apply rel_bind; [apply _|auto with mrel|intros _].
  destruct cb; simpl; [unfold handleReqTimeout|unfold handlePrepTimeout|unfold handleViewChangeTimeout]; auto with mrel.
Qed.
Lemma finishExecution_grows i : rel grows (finishExecution id i).
Proof.
  unfold finishExecution. apply rel_bind; [apply _|auto with mrel|]. intros [[]|]; auto with mrel.
Qed.
(** ** Operations that do not panic *)

Lemma bind_ok {A B} (m : M state A) (k : A → M state B) s :
  ok m s → (∀ a s', m s = (OK a, s') → ok (k a) s') → ok (m ≫= k) s.
Proof. intros Hm Hk. unfold mbind, M_bind. destruct (m s) as [[a|e|p] s']; [by apply Hk|done|done]. Qed.

Lemma wrapM_ok {A} msg (m : M state A) s : ok m s → ok (wrapM msg m) s.
Proof. intros Hm. unfold wrapM. destruct (m s) as [o s']. simpl in *. by rewrite wrapf_isPanic. Qed.

(** A loop whose body may run in any state that has grown. *)
Lemma forM_safe (f : Request → M state unit) l s :
  (∀ r, rel grows (f r)) → (∀ r s', r ∈ l → grows s s' → ok (f r) s') → ok (forM f l) s.
Proof.
  intros Hg. revert s. induction l as [|r l IH]; intros s Hf; [done|]. cbn [forM].
  apply bind_ok; [apply Hf; [set_solver|reflexivity]|]. intros [] s' E.
  assert (grows s s') as Hs by (pose proof (Hg r s) as Hr; by rewrite E in Hr).
  apply IH. intros r' s'' Hin Hs'. apply Hf; [set_solver|by etrans].
Qed.

Lemma prepareReq_ok req s :
  captured s req → ∃ new s', prepareReq req s = (OK new, s') ∧ prepared s' req.
Proof.
  unfold captured, prepared, clientSeq. intros Hc.
  unfold prepareReq, onSeq, onClient, zoom, ClientState.withClient, mbind, M_bind. simpl.
  unfold ClientState.PrepareRequestSeq. repeat case_if; nbool; try lia; simpl;
    do 2 eexists; (split; [done|]); simpl; rewrite lookup_insert_eq; simpl; lia.
Qed.

Lemma executeRequest_ok req s : prepared s req → ok (executeRequest req) s.
Proof.
  unfold prepared, clientSeq. intros Hp. unfold executeRequest, retireReq.
  apply bind_ok; [|intros new s' _; case_if; [done|]].
  - unfold onSeq, onClient, zoom, ClientState.withClient, mbind, M_bind. simpl.
    unfold ClientState.RetireRequestSeq. repeat case_if; nbool; try lia; done.
  - apply bind_ok; [|done]. destruct (Core.stopReqTimer_same req s') as (? & -> & _). done.
Qed.

Lemma generate_ok m (s : state) : ok (handleGeneratedMessage (Msg_Certified m)) s.
Proof. by destruct (OwnLog.generate_certified m s) as (ui & au & -> & _). Qed.

(** What a proposal asks to prepare: its view, whether it is a NewView, and the
    requests. *)
Definition proposed (m : CertifiedMessage) : option (N * bool * list Request) :=
  match m with
  | CM_Prepare p => Some (prep_View p, false, [prep_Request p])
  | CM_NewView nv =>
      Some (nv_NewView nv, true,
            match extractPreparedRequests (nv_NewViewCert nv) with OK reqs => reqs | _ => [] end)
  | _ => None
  end.

Lemma shape_extract nv :
  cm_shape (CM_NewView nv) → ∃ reqs, extractPreparedRequests (nv_NewViewCert nv) = OK reqs.
Proof.
  destruct nv as [r v cert ui]. simpl. intros Hc%extract_total.
  destruct (extractPreparedRequests cert) as [reqs| |]; try done. by eauto.
Qed.

Lemma acceptNewView_ok nv s :
  cm_shape (CM_NewView nv) →
  (∀ v b reqs, proposed (CM_NewView nv) = Some (v, b, reqs) → Forall (prepared s) reqs) →
  ok (acceptNewView nv) s.
Proof.
  intros [reqs E]%shape_extract Hp. unfold acceptNewView. rewrite E. simpl in Hp. rewrite E in Hp.
  specialize (Hp _ _ _ eq_refl). rewrite Forall_forall in Hp.
  change (ok (forM executeRequest reqs) s). apply forM_safe; [apply executeRequest_grows|].
  intros r s' Hin Hs. apply executeRequest_ok. eapply grows_prepared; [done|by apply Hp].
Qed.

Lemma collect_then_ok c (k : M state unit) (s : state) :
  (∀ s', grows s s' → ok k s') →
  ok (done ← zoom commitments set_commitments (Commitment.collect c);
      done ← lift done;
      if negb done then mret tt else k) s.
Proof.
  intros Hk. unfold zoom, mbind, M_bind. simpl.
  destruct (Commitment.collect c (commitments s)) as [o st] eqn:E. simpl.
  assert (isPanic o = false) as Ho.
  { unfold Commitment.collect, Commitment.acceptCommitment in E.
    repeat (case_if || case_match); simplify_eq/=; done. }
  destruct o as [[]|e|p]; try done. simpl. apply Hk. by apply grows_same.
Qed.

Lemma collectCommitment_ok m s :
  cm_shape m →
  (∀ v b reqs, proposed (proposalOf m) = Some (v, b, reqs) → Forall (prepared s) reqs) →
  ok (collectCommitment m) s.
Proof.
  intros Hs Hp. assert (cm_shape (proposalOf m)) as Hs'.
  { destruct m as [|[r prop ui]| |]; try done. simpl in *. by apply andb_prop_elim in Hs as [_ ?]. }
  assert (∀ s', grows s s' → ∀ v b, proposalView (proposalOf m) = Some (v, b) →
    ok (match proposalOf m with
        | CM_Prepare p => executeRequest (prep_Request p)
        | CM_NewView nv => acceptNewView nv
        | _ => panic "Unexpected proposal message type"
        end) s') as Hexec.
  { intros s' Hg v b Hv. destruct (proposalOf m) as [p| | |nv]; try done.
    - specialize (Hp _ _ _ eq_refl). apply executeRequest_ok. eapply grows_prepared; [done|].
      by apply (Forall_singleton (prepared s)) in Hp.
    - apply acceptNewView_ok; [done|]. intros v' b' reqs E. eapply Forall_impl; [by eapply Hp|].
      intros r. by apply (grows_prepared s s'). }
  unfold collectCommitment. destruct m as [p|c|vc|nv]; [..|done|];
    (destruct (proposalView _) as [[v b]|]; [|done]; apply collect_then_ok; intros s' Hg;
     by apply (Hexec s' Hg v b)).
Qed.

(** *** Applying messages *)

Lemma bind_grows {A B} (m : M state A) (k : A → M state B) (Q : state → Prop) a s s1 :
  m s = (OK a, s1) → Q s1 → (∀ s2, grows s1 s2 → Q s1 → Q s2) → rel grows (k a) → Q ((m ≫= k) s).2.
Proof. intros E HQ Hup Hk. unfold mbind, M_bind. rewrite E. by apply (Hup _ (Hk s1)). Qed.

Lemma applyPrepare_ok p s :
  captured s (prep_Request p) →
  ok (applyPrepare id p) s ∧ prepared (applyPrepare id p s).2 (prep_Request p).
Proof.
  intros (new & s1 & E & Hp)%prepareReq_ok. unfold applyPrepare. split.
  - apply bind_ok; [by rewrite E|]. intros new' s1' E'. rewrite E in E'. injection E' as <- <-.
    case_if; [done|]. apply bind_ok.
    + apply wrapM_ok, collectCommitment_ok; [done|]. intros v b reqs [= _ _ <-]. by constructor.
    + intros _ s2 _. case_if; [done|]. unfold stopPrepTimer.
      apply bind_ok; [|intros; apply generate_ok]. unfold onClientTimer. by destruct (Timer.Stop _ _).
  - eapply bind_grows; [exact E|exact Hp|intros ? ?; by apply grows_prepared|].
    unfold stopPrepTimer. auto 10 with mrel.
Qed.

(** Preparing the requests of a NewView. *)
Lemma prepareAll_ok reqs s :
  Forall (captured s) reqs →
  ∃ s', forM (λ req, prepareReq req ;; mret tt) reqs s = (OK tt, s') ∧ grows s s' ∧ Forall (prepared s') reqs.
Proof.
  revert s. induction reqs as [|r reqs IH]; intros s; [by exists s|]. rewrite Forall_cons. intros [Hr Hrs].
  destruct (prepareReq_ok r s Hr) as (new & s1 & E & Hp).
  assert (grows s s1) as Hg by (pose proof (prepareReq_grows r s) as Hg; by rewrite E in Hg).
  destruct (IH s1) as (s' & E' & Hg' & Hp').
  { eapply Forall_impl; [exact Hrs|]. intros r'. by apply (grows_captured s). }
  exists s'. split; [|split; [by etrans|constructor; [by eapply grows_prepared|done]]].
  cbn [forM]. unfold mbind, M_bind in *. rewrite E. exact E'.
Qed.

Lemma applyNewView_ok nv s reqs :
  cm_shape (CM_NewView nv) → extractPreparedRequests (nv_NewViewCert nv) = OK reqs →
  Forall (captured s) reqs →
  ok (applyNewView id cfg nv) s ∧ Forall (prepared (applyNewView id cfg nv s).2) reqs.
Proof.
  intros Hs E (s1 & E1 & Hg & Hp)%prepareAll_ok. unfold applyNewView. rewrite E.
  match goal with |- context [(lift (OK reqs) ≫= ?k) s] => change ((lift (OK reqs) ≫= k) s) with (k reqs s) end.
  cbv beta. split.
  - apply bind_ok; [by rewrite E1|]. intros [] s1' E1'. rewrite E1 in E1'. injection E1' as <-.
    apply bind_ok; [apply wrapM_ok, collectCommitment_ok; [done|]|intros _ s2 _].
    { intros v b l. simpl. rewrite E. by intros [= _ _ <-]. }
    unfold stopVCTimer, onViewChangeTimer. apply bind_ok; [done|intros _ s3 _].
    apply bind_ok; [|intros _ s4 _; case_if; [done|apply generate_ok]].
    unfold applyPendingRequests. apply bind_ok; [done|intros l s4 _].
    apply forM_safe; [intros; apply applyRequest_grows|]. intros r s5 _ _.
    by destruct (Crash.applyRequest_ok id cfg r (nv_NewView nv) s5) as (? & -> & _).
  - eapply bind_grows; [exact E1|exact Hp| |].
    + intros s2 Hg2 Hp1. eapply Forall_impl; [exact Hp1|]. intros r. by apply (grows_prepared s1).
    + unfold applyPendingRequests, stopVCTimer. auto 20 with mrel.
Qed.

(** ** The invariant *)

(** What the replicas certified: [sent r x] is the proposal of replica [r] in its
    message with counter [x], if that message is a Prepare or a NewView. *)
Context (sent : N → N → option (N * bool * list Request)).

Definition as_sent (m : CertifiedMessage) : Prop :=
  proposed m = sent (cm_ReplicaID m) (cm_Counter m).

(** A primary opens its view once. *)
Definition opens_once : Prop :=
  ∀ r x y v l l', sent r x = Some (v, true, l) → sent r y = Some (v, true, l') → x = y.

(** A proposal that was handled: it is not of a later view, and if it is of the expected
    one its requests are prepared. *)
Definition done_in (s : state) (v : N) (reqs : list Request) : Prop :=
  v ≤ expected s ∧ (v = expected s → Forall (prepared s) reqs).

Record settled (s : state) : Prop := {
  i_current : current s ≤ expected s;
  i_range : ∀ i last, lastUI s !! i = Some last → last < 2 ^ 64;
  i_done : ∀ r last x v b reqs, lastUI s !! N.to_nat r = Some last → 0 < x ≤ last →
    sent r x = Some (v, b, reqs) → done_in s v reqs }.

(** The NewView of the current view was applied, if that view is the expected one. *)
Definition opened (s : state) : Prop :=
  0 < current s → current s = expected s →
  ∃ r x reqs, isPrimary (current s) r n = true ∧ sent r x = Some (current s, true, reqs) ∧
              Forall (prepared s) reqs.

Definition inv (s : state) : Prop := settled s ∧ opened s.

Lemma prepared_grows (s s' : state) reqs : grows s s' → Forall (prepared s) reqs → Forall (prepared s') reqs.
Proof. intros Hg Hp. eapply Forall_impl; [exact Hp|]. intros r. by apply (grows_prepared s). Qed.

Lemma done_grows s s' v reqs : grows s s' → done_in s v reqs → done_in s' v reqs.
Proof.
  intros Hg [Hle Hp]. destruct (Hg) as (_ & Hv & _). unfold done_in. rewrite <- Hv. split; [done|].
  intros He. eapply prepared_grows; eauto.
Qed.

Lemma settled_grows s s' : grows s s' → settled s → settled s'.
Proof.
  intros Hg [Hc Hb Hd]. destruct (Hg) as (Hu & Hv & _). constructor; [by rewrite <- Hv|by rewrite <- Hu|].
  rewrite <- Hu. intros. eapply done_grows; eauto.
Qed.

Lemma opened_grows s s' : grows s s' → opened s → opened s'.
Proof.
  intros Hg Ho. destruct (Hg) as (Hu & Hv & _). unfold opened. rewrite <- Hv. intros Hpos He.
  destruct (Ho Hpos He) as (r & x & reqs & Hp & Hs & Hr). exists r, x, reqs. split_and!; try done.
  by eapply prepared_grows.
Qed.

Lemma inv_grows s s' : grows s s' → inv s → inv s'.
Proof. intros Hg [??]. split; [by eapply settled_grows|by eapply opened_grows]. Qed.

Lemma inv_init au co : inv (newReplica id cfg au co).
Proof.
  split; [constructor; simpl; [done|..]|intros Hpos; simpl in Hpos; lia].
  - intros i last [-> _]%lookup_replicate. lia.
  - intros r last x v b reqs [-> _]%lookup_replicate. lia.
Qed.

(** ** Messages that can be processed *)

(** What does not depend on the state. *)
Definition genuine (m : CertifiedMessage) : Prop :=
  LogOrder.accepted (Au := Au) cfg m ∧ cm_ReplicaID m < n ∧ cm_shape m ∧ as_sent m ∧ as_sent (proposalOf m).

(** What having handled the embedded messages provides. *)
Definition ready (m : CertifiedMessage) (s : state) : Prop :=
  match m with
  | CM_Prepare p => captured s (prep_Request p)
  | CM_Commit c => ∃ last, lastUI s !! N.to_nat (cm_ReplicaID (comm_Proposal c)) = Some last ∧
                           cm_Counter (comm_Proposal c) ≤ last
  | CM_NewView nv => nv_NewView nv ≤ expected s ∧
      ∀ reqs, extractPreparedRequests (nv_NewViewCert nv) = OK reqs → Forall (captured s) reqs
  | CM_ViewChange _ => True
  end.

(** What processing a message in its view keeps: all but the current view and the
    order of identifiers. *)
Definition advances (s s' : state) : Prop :=
  lastUI s = lastUI s' ∧ expected s = expected s' ∧ rvcCollected s = rvcCollected s' ∧
  ∀ c, lastCapturedSeq (clientSeq (clientStates s) c) ≤ lastCapturedSeq (clientSeq (clientStates s') c).

#[local] Instance advances_preorder : PreOrder advances.
Proof.
  split; unfold advances; [by intros ?|].
  intros ??? (?&?&?&Hx) (?&?&?&Hy). split_and!; [congruence..|]. intros c. specialize (Hx c). specialize (Hy c). lia.
Qed.

Lemma grows_advances s s' : grows s s' → advances s s'.
Proof. intros (?&Hv&?&Hc). split_and!; [done|by rewrite Hv|done|]. intros c. by destruct (Hc c). Qed.

(** How processing a certified message may end. *)
Definition ends {A} (m : CertifiedMessage) (s : state) (r : outcome A * state) : Prop :=
  isPanic r.1 = false ∧ inv r.2 ∧ advances s r.2 ∧
  (isOK r.1 → ∀ v b reqs, proposed m = Some (v, b, reqs) → done_in r.2 v reqs).

Lemma ends_wrapM {A} msg m s (p : M state A) : ends m s (p s) → ends m s (wrapM msg p s).
Proof. unfold wrapM, ends. destruct (p s) as [o s']. simpl. rewrite wrapf_isPanic. by destruct o. Qed.

Lemma ends_then {A B} m s (p : M state A) (b : B) : ends m s (p s) → ends m s ((p ;; mret b) s).
Proof. unfold ends, mbind, M_bind. destruct (p s) as [[] s']; simpl; intuition. Qed.

(** Applying a message of the expected view. *)
Lemma applyPrepare_ends p s :
  inv s → ready (CM_Prepare p) s → prep_View p = expected s →
  ends (CM_Prepare p) s (applyPeerMessage id cfg (CM_Prepare p) s).
Proof.
  intros Hi Hr Hv. destruct (applyPrepare_ok p s Hr) as [Hok Hp].
  pose proof (applyPeerMessage_grows (CM_Prepare p) s) as Hg. split_and!; [done|by eapply inv_grows|by apply grows_advances|].
  intros _ v b reqs [= <- _ <-]. destruct (Hg) as (_ & Hvs & _). unfold done_in. rewrite <- Hvs.
  split; [lia|]. intros _. by constructor.
Qed.

Lemma applyCommit_ends c v b s :
  inv s → genuine (CM_Commit c) → ready (CM_Commit c) s →
  proposalView (comm_Proposal c) = Some (v, b) → v = expected s →
  ends (CM_Commit c) s (applyPeerMessage id cfg (CM_Commit c) s).
Proof.
  intros Hi (Hacc & _ & Hsh & _ & Hsent) (last & Hl & Hle) Hv ->.
  pose proof (applyPeerMessage_grows (CM_Commit c) s) as Hg. split_and!; [|by eapply inv_grows|by apply grows_advances|done].
  apply wrapM_ok, collectCommitment_ok; [done|]. intros v' b' reqs Hp. simpl in Hp.
  assert (v' = expected s) as -> by (by destruct (comm_Proposal c); simplify_eq/=).
  destruct Hacc as [_ Hval]. unfold as_sent in Hsent. simpl in Hsent. rewrite Hp in Hsent.
  destruct Hi as [[_ _ Hd] _].
  destruct (Hd _ last (cm_Counter (comm_Proposal c)) _ _ _ Hl ltac:(split; [by eapply LogOrder.valid_counter|done])
    (eq_sym Hsent)) as [_ Hdone]. by apply Hdone.
Qed.

Lemma applyNewView_ends nv s :
  settled s → genuine (CM_NewView nv) → ready (CM_NewView nv) s →
  current s = nv_NewView nv → expected s = nv_NewView nv →
  ends (CM_NewView nv) s (applyPeerMessage id cfg (CM_NewView nv) s).
Proof.
  intros Hi (Hacc & _ & Hsh & Hsent & _) [_ Hcap] Hcur Hexp.
  destruct (shape_extract nv Hsh) as [reqs E].
  destruct (applyNewView_ok nv s reqs Hsh E (Hcap reqs E)) as [Hok Hp].
  pose proof (applyPeerMessage_grows (CM_NewView nv) s) as Hg. destruct (Hg) as (Hu & Hvs & _).
  unfold as_sent in Hsent. simpl in Hsent. rewrite E in Hsent.
  split_and!; [done| |by apply grows_advances|].
  - split; [by eapply settled_grows|]. unfold opened. rewrite <- Hvs, Hcur. intros _ _.
    destruct Hacc as [Hval _]. destruct (LogOrder.valid_proposal cfg _ _ _ Hval eq_refl) as (_ & Hprim & _).
    by exists (nv_ReplicaID nv), (Counter (nv_UI nv)), reqs.
  - intros _ v b l Hl. simpl in Hl. rewrite E in Hl. injection Hl as <- _ <-.
    unfold done_in. rewrite <- Hvs. split; [lia|done].
Qed.

Lemma applyInView_ends m v b s :
  inv s → genuine m → ready m s → (∀ nv, m ≠ CM_NewView nv) →
  proposalView (proposalOf m) = Some (v, b) → v ≤ current s →
  ends m s (applyInView id cfg m v (expected s) s).
Proof.
  intros Hi Hm Hr Hne Hv Hle. unfold applyInView. destruct (N.eqb_spec v (expected s)) as [He|He]; simpl.
  - apply ends_then, ends_wrapM. destruct m as [p|c|vc|nv]; simplify_eq/=;
      [by apply applyPrepare_ends|by eapply applyCommit_ends|by edestruct Hne].
  - destruct (Hi) as [[Hc _ _] _]. split_and!; try done. intros _ v' b' reqs Hp. simpl.
    assert (v' = v) as -> by (destruct m as [p|c|vc|nv]; by simplify_eq/=). split; [lia|done].
Qed.

Context (Hone : opens_once).

Lemma processViewMessage_ends m s :
  inv s → genuine m → ready m s → (∀ vc, m ≠ CM_ViewChange vc) →
  ends m s (processViewMessage id cfg m s).
Proof.
  intros Hi Hm Hr Hne. unfold processViewMessage.
  assert (∀ v b, proposalView (proposalOf m) = Some (v, b) → (∀ nv, m ≠ CM_NewView nv) → ends m s
      (('(currentView, expectedView) ← gets (λ s : state, ViewState.HoldView (views s));
       if currentView <? v then fail (Errorf "message refers to unexpected view")
       else applyInView id cfg m v expectedView) s)) as Hcase.
  { intros v b Hv Hnv. unfold mbind, M_bind, gets, ViewState.HoldView. simpl.
    case_if; nbool; [by split_and!|]. by apply (applyInView_ends m v b). }
  destruct m as [p|c|vc|nv].
  - by eapply Hcase.
  - destruct (proposalView _) as [[v b]|] eqn:E; [by eapply Hcase|].
    exfalso. destruct Hm as (_ & _ & Hsh & _). destruct c as [r prop ui]. simpl in *.
    by destruct prop.
  - by edestruct Hne.
  - clear Hcase. unfold zoom, mbind, M_bind, ViewState.AdvanceCurrentView.
    destruct Hi as [Hset Hop], (Hset) as [Hc Hb Hd]. destruct (Hr) as [Hle Hcap].
    destruct (N.ltb_spec (current s) (nv_NewView nv)) as [Hlt|Hge]; cbn [fst snd].
    + set (s1 := set_views _ s).
      assert (settled s1) as Hs1 by (by split).
      unfold applyInView. destruct (N.eqb_spec (nv_NewView nv) (expected s)) as [He|He]; simpl.
      * apply (ends_then (CM_NewView nv) s1), ends_wrapM. by apply applyNewView_ends.
      * split_and!; try done; [split; [done|by intros _ ?]|].
        intros _ v b reqs [= <- _ _]. by split.
    + change (ends (CM_NewView nv) s (OK false, set_views (views s) s)).
      replace (set_views (views s) s) with s by (by destruct s).
      split_and!; try done. intros _ v b reqs Hp. split; [by injection Hp as <- _ _|].
      intros He. assert (v = nv_NewView nv) as -> by (by injection Hp as -> _ _).
      assert (current s = expected s) as Hce by (simpl in *; lia).
      destruct (LogOrder.valid_proposal cfg _ _ _ (proj1 (proj1 Hm)) eq_refl) as (_ & Hprim & _ & _ & Hpos).
      destruct (Hop ltac:(specialize (Hpos eq_refl); lia) Hce) as (r & x & l & Hr' & Hs & Hp').
      assert (r = nv_ReplicaID nv) as ->.
      { unfold isPrimary in *. nbool. simpl in *. congruence. }
      destruct Hm as (_ & _ & _ & Hsent & _). unfold as_sent in Hsent. rewrite Hp in Hsent. simpl in Hsent.
      replace (current s) with (nv_NewView nv) in Hs by (simpl in *; congruence).
      assert (b = true) as -> by (by simplify_eq/=).
      assert (x = Counter (nv_UI nv)) as -> by (by eapply Hone). rewrite Hs in Hsent. by injection Hsent as <-.
Qed.

Lemma processViewChange_ends vc s : inv s → ends (CM_ViewChange vc) s (processViewChange id cfg vc s).
Proof.
  intros Hi. pose proof (processViewChange_grows vc s) as Hg.
  split_and!; [|by eapply inv_grows|by apply grows_advances|done].
  unfold processViewChange, zoom. apply bind_ok; [by destruct (Collect.collectViewChange _ _ _ _ _) as [[]]|].
  intros [new [cert|]] s' _; [|done]. apply bind_ok; [|done]. unfold processNewViewCert.
  apply bind_ok; [done|intros [? e] s1 _]. case_if; [done|]. apply bind_ok; [done|intros; apply generate_ok].
Qed.

(** *** The counters of the replicas *)

(** What never goes back. *)
Definition progress (s s' : state) : Prop :=
  (∀ i last, lastUI s !! i = Some last → ∃ last', lastUI s' !! i = Some last' ∧ last ≤ last') ∧
  expected s ≤ expected s' ∧
  (expected s = expected s' → Collect.rvc_replicas (rvcCollected s) ⊆ Collect.rvc_replicas (rvcCollected s')) ∧
  ∀ c, lastCapturedSeq (clientSeq (clientStates s) c) ≤ lastCapturedSeq (clientSeq (clientStates s') c).

#[local] Instance progress_preorder : PreOrder progress.
Proof.
  split; unfold progress; [by intros s; split_and!; eauto|].
  intros s1 s2 s3 (A1&A2&A3&A4) (B1&B2&B3&B4). split_and!.
  - intros i last (l2 & Hl2 & ?)%A1. destruct (B1 _ _ Hl2) as (l3 & ? & ?). exists l3. split; [done|lia].
  - lia.
  - intros. trans (Collect.rvc_replicas (rvcCollected s2)); [apply A3; lia|apply B3; lia].
  - intros c. specialize (A4 c). specialize (B4 c). lia.
Qed.

Lemma advances_progress s s' : advances s s' → progress s s'.
Proof. intros (E1&E2&E3&Hc). unfold progress. rewrite <- E1, <- E2, <- E3. split_and!; by eauto. Qed.

(** The counter up to which the messages of replica [r] were handled. *)
Definition handled_to (r x : N) (s : state) : Prop :=
  ∃ last, lastUI s !! N.to_nat r = Some last ∧ x ≤ last.

Lemma handled_progress r x s s' : progress s s' → handled_to r x s → handled_to r x s'.
Proof. intros (Hl & _) (last & Hlast & ?). destruct (Hl _ _ Hlast) as (l' & ? & ?). exists l'. split; [done|lia]. Qed.

Lemma captured_progress s s' req : progress s s' → captured s req → captured s' req.
Proof. intros (_&_&_&Hc). unfold captured. specialize (Hc (req_ClientID req)). lia. Qed.

(** Being ready is not undone by what happens in between. *)
Lemma ready_progress m s s' : progress s s' → ready m s → ready m s'.
Proof.
  intros Hp. destruct m as [p|c|vc|nv]; simpl; [by apply captured_progress|by apply handled_progress|done|].
  intros [Hle Hc]. split; [destruct Hp as (_ & ? & _); lia|]. intros reqs Hr.
  eapply Forall_impl; [by apply Hc|]. intros r. by apply (captured_progress s).
Qed.

Lemma lastUI_update m s last :
  inv s → lastUI s !! N.to_nat (cm_ReplicaID m) = Some last → cm_Counter m = last + 1 →
  cm_Counter m < 2 ^ 64 → as_sent m →
  (∀ v b reqs, proposed m = Some (v, b, reqs) → done_in s v reqs) →
  let s' := set_lastUI (<[N.to_nat (cm_ReplicaID m) := cm_Counter m]> (lastUI s)) s in
  inv s' ∧ progress s s' ∧ handled_to (cm_ReplicaID m) (cm_Counter m) s'.
Proof.
  intros [[Hc Hb Hd] Ho] Hl Hx Hlt Hsent Hdone s'.
  assert (lastUI s' !! N.to_nat (cm_ReplicaID m) = Some (cm_Counter m)) as Hl'.
  { simpl. apply list_lookup_insert_eq. by eapply lookup_lt_Some. }
  split_and!.
  - split; [|exact Ho]. constructor; [exact Hc| |].
    { intros i l Hi. destruct (decide (i = N.to_nat (cm_ReplicaID m))) as [->|Hne].
      - rewrite Hl' in Hi. by injection Hi as <-.
      - simpl in Hi. rewrite list_lookup_insert_ne in Hi by done. by eapply Hb. }
    intros r last' x v b reqs Hr Hpos Hs.
    destruct (decide (r = cm_ReplicaID m)) as [->|Hne].
    + rewrite Hl' in Hr. injection Hr as <-. destruct (decide (x = cm_Counter m)) as [->|Hne].
      * apply (Hdone v b reqs). by rewrite Hsent.
      * eapply (Hd (cm_ReplicaID m) last x); [done|lia|done].
    + simpl in Hr. rewrite list_lookup_insert_ne in Hr by lia. by eapply Hd.
  - split_and!; try done. intros i l Hi.
    destruct (decide (i = N.to_nat (cm_ReplicaID m))) as [->|Hne].
    + exists (cm_Counter m). split; [done|]. rewrite Hl in Hi. injection Hi as <-. lia.
    + exists l. split; [|done]. simpl. by rewrite list_lookup_insert_ne.
  - by exists (cm_Counter m).
Qed.

Definition ends_counted (m : CertifiedMessage) (s : state) (r : outcome bool * state) : Prop :=
  isPanic r.1 = false ∧ inv r.2 ∧ progress s r.2 ∧ expected r.2 = expected s ∧ rvcCollected r.2 = rvcCollected s ∧
  (isOK r.1 → handled_to (cm_ReplicaID m) (cm_Counter m) r.2).

Lemma processCertifiedMessage_ends m s :
  inv s → length (lastUI s) = N.to_nat n → genuine m → ready m s →
  ends_counted m s (processCertifiedMessage id cfg m s).
Proof.
  intros Hi Hlen Hm Hr. destruct (Hm) as (Hacc & Hid & _ & Hsent & _).
  destruct (lookup_lt_is_Some_2 (lastUI s) (N.to_nat (cm_ReplicaID m))) as [last Hl]; [lia|].
  unfold processCertifiedMessage. unfold mbind at 1, M_bind at 1. cbn [gets]. rewrite Hl.
  destruct (N.ltb_spec (cm_Counter m) (u64_succ last)) as [Hlt|Hge].
  { split_and!; try done. intros _. exists last. split; [done|]. unfold u64_succ, u64 in Hlt. lia. }
  case_if; nbool; [by split_and!|].
  destruct (Hi) as [[_ Hrange _] _]. specialize (Hrange _ _ Hl).
  pose proof (LogOrder.valid_counter cfg m (proj1 Hacc)) as Hpos.
  assert (cm_Counter m = last + 1) as Hx by (unfold u64_succ, u64 in *; lia).
  replace (u64_succ last) with (cm_Counter m) by lia.
  assert (ends m s (Sequencing.processInOrder id cfg m s)) as (Hp & Hi' & Ha & Hd).
  { destruct m as [p|c|vc|nv]; [by apply processViewMessage_ends..|by apply processViewChange_ends|
      by apply processViewMessage_ends]. }
  unfold Sequencing.processInOrder in *. unfold mbind, M_bind.
  destruct (match m with CM_ViewChange vc => processViewChange id cfg vc | _ => processViewMessage id cfg m end s)
    as [[b|e|p] s1]; simpl in *; [| |done].
  2: { destruct (Ha) as (Hu & He & Hv & _). split_and!; try done. by apply advances_progress. }
  destruct (Ha) as (Hu & He & Hv & _). rewrite Hu in Hl.
  assert (cm_Counter m < 2 ^ 64) as Hlt' by apply (proj2 (proj1 Hacc)).
  destruct (lastUI_update m s1 last Hi' Hl Hx Hlt' Hsent (Hd I)) as (Hi2 & Hp2 & Hh2).
  split_and!; try done. etrans; [by apply advances_progress|done].
Qed.

(** *** View changes *)

(** The collector of ReqViewChange messages follows the expected view. *)
Definition follows (s : state) : Prop :=
  Collect.rvc_view (rvcCollected s) = expected s ∧ expected s < 2 ^ 64 ∧
  Collect.rvc_inv vcCertSize (rvcCollected s).

(** A ReqViewChange for the next view is recorded. *)
Definition recorded (rvc : ReqViewChange) (s : state) : Prop :=
  rvc_NewView rvc = u64_succ (expected s) → rvc_ReplicaID rvc ∈ Collect.rvc_replicas (rvcCollected s).

Lemma recorded_progress rvc s s' :
  progress s s' → expected s' < 2 ^ 64 → 1 ≤ rvc_NewView rvc ≤ expected s + 1 →
  recorded rvc s → recorded rvc s'.
Proof.
  intros (_ & Hle & Hsub & _) Hb Hv Hr He.
  assert (expected s = expected s') as Ee by (unfold u64_succ, u64 in He; lia).
  apply Hsub; [done|]. apply Hr. by rewrite Ee.
Qed.

Lemma unprepareReqs_advances : rel advances unprepareReqs.
Proof.
  unfold unprepareReqs. apply rel_bind; [apply _|auto with mrel|intros reqs].
  apply rel_forM; [apply _|intros r]. apply rel_bind; [apply _| |intros _; apply rel_modify; by intros].
  unfold onClient. apply rel_zoom. intros s a t. unfold ClientState.withClient. intros [= <- <-].
  split_and!; try done. intros c. simpl. unfold clientSeq. destruct (decide (req_ClientID r = c)) as [<-|Hne].
  - by rewrite lookup_insert_eq.
  - by rewrite lookup_insert_ne.
Qed.

Lemma startViewChange_advances v cert s :
  expected s < v →
  ∃ s', startViewChange id v cert s = (OK true, s') ∧
    advances (set_views (ViewState.MkViewState (current s) v) s) s' ∧ current s' = current s.
Proof.
  intros Hlt. unfold startViewChange, zoom, mbind, M_bind. simpl.
  unfold ViewState.AdvanceExpectedView. destruct (N.ltb_spec (expected s) v); [|lia]. simpl.
  set (s0 := set_views _ s). set (ms := certified _).
  match goal with |- context [unprepareReqs ?x] => assert (advances s0 x) as Ha by done; set (s2 := x) in * end.
  pose proof (unprepareReqs_local s2) as Hl. pose proof (unprepareReqs_advances s2) as Ha2.
  pose proof (OwnLog.unprepareReqs_ok s2) as E2.
  destruct (unprepareReqs s2) as [o2 s3]. simpl in *. subst o2.
  pose proof (handleGenerated_grows (Msg_Certified (CM_ViewChange (NewViewChange id v ms cert))) s3) as Hg.
  destruct (OwnLog.generate_certified (CM_ViewChange (NewViewChange id v ms cert)) s3) as (ui & au & E & _).
  rewrite E in *. eexists. split; [done|]. split.
  - etrans; [exact Ha|]. etrans; [exact Ha2|]. by apply grows_advances.
  - destruct Hl as ((_ & _ & Hv & _) & _). simpl. by rewrite <- Hv.
Qed.

Definition ends_rvc (rvc : ReqViewChange) (s : state) (r : outcome bool * state) : Prop :=
  isPanic r.1 = false ∧ inv r.2 ∧ progress s r.2 ∧ follows r.2 ∧ recorded rvc r.2 ∧ lastUI r.2 = lastUI s.

Lemma processReqViewChange_ends rvc s :
  0 < vcCertSize → inv s → follows s → 1 ≤ rvc_NewView rvc →
  ends_rvc rvc s (processReqViewChange id cfg rvc s).
Proof.
  intros Hcs Hi (Hf & Hb & Hri) Hv. unfold processReqViewChange, zoom, mbind, M_bind.
  destruct (Collect.collectReqViewChange _ _ _) as [[new cert] st] eqn:E.
  destruct (Collect.rvc_step _ _ _ _ _ _ Hcs Hri E) as [Hri' Hst].
  destruct cert as [cert|].
  - destruct Hst as (Hnv & Hview & _).
    assert (rvc_NewView rvc = expected s + 1) as He by (rewrite Hf in Hnv; unfold u64_succ, u64 in Hnv; lia).
    destruct (startViewChange_advances (rvc_NewView rvc) cert (set_rvcCollected st s)) as (s' & E' & Ha & Hc);
      [simpl; lia|].
    rewrite E'. destruct Ha as (Hu & Hx & Hs & Hcap). simpl in *. destruct Hi as [[Hcur Hrange Hd] _].
    split_and!; simpl; try done.
    + split; [constructor|]; rewrite <- ?Hu, ?Hc, <- ?Hx; [lia|done| |].
      * intros r last x v b reqs Hl Hpos Hsent. destruct (Hd _ _ _ _ _ _ Hl Hpos Hsent) as [Hle _].
        unfold done_in. rewrite <- Hx. split; lia.
      * unfold opened. rewrite Hc, <- Hx. lia.
    + unfold progress. rewrite <- Hu, <- Hx. split_and!; [by eauto|lia|lia|done].
    + unfold follows. rewrite <- Hs, <- Hx, Hview, Hnv. split_and!; [done|apply u64_bound|done].
    + unfold recorded. rewrite <- Hx. unfold u64_succ, u64. lia.
  - split_and!; simpl; try done.
    + split; [|exact (proj2 Hi)]. destruct Hi as [[Hcur Hrange Hd] _]. by constructor.
    + unfold progress. split_and!; [by eauto|done| |done].
      intros _. by destruct (Collect.collect_replicas_mono _ _ _ _ _ E).
    + unfold follows. simpl. by rewrite Hst.
    + intros He. by destruct (Collect.collect_missing _ _ _ _ _ _ E eq_refl ltac:(by rewrite Hf)) as (_ & ? & _).
Qed.

(** ** Steps *)

Definition admissible (a : action) (s : state) : Prop :=
  match a with
  | Process (Msg_Certified m) => genuine m ∧ ready m s
  | Process (Msg_ReqViewChange rvc) => rvc_ReplicaID rvc < n ∧ 1 ≤ rvc_NewView rvc
  | Process (Msg_Hello _) | Process (Msg_Reply _) => False
  | Process (Msg_Request _) | Expire _ | Finish _ => True
  end.

(** What handling a message leaves behind. *)
Definition leaves (m : Message) (s : state) : Prop :=
  match m with
  | Msg_Request req => captured s req
  | Msg_ReqViewChange rvc => recorded rvc s
  | Msg_Certified m => handled_to (cm_ReplicaID m) (cm_Counter m) s
  | _ => True
  end.

Context (au : Au) (co : Co).
Context (Hn : in_u32 n) (Hf : cfg_F cfg < 2 ^ 31) (Henough : notEnoughNodes n (cfg_F cfg) = false).

Definition sound (s : state) : Prop := inv s ∧ follows s ∧ reachable id cfg au co s.

Lemma processMessage_ends m s :
  sound s → admissible (Process m) s →
  isPanic (processMessage id cfg m s).1 = false ∧ sound (processMessage id cfg m s).2 ∧
  progress s (processMessage id cfg m s).2 ∧
  (isOK (processMessage id cfg m s).1 → leaves m (processMessage id cfg m s).2).
Proof.
  intros (Hi & Hfo & Hr) Ha.
  destruct (cert_sizes _ _ Hn Hf Henough) as (Hnf & _ & Hcs).
  assert (isPanic (processMessage id cfg m s).1 = false ∧
    inv (processMessage id cfg m s).2 ∧ follows (processMessage id cfg m s).2 ∧
    progress s (processMessage id cfg m s).2 ∧
    (isOK (processMessage id cfg m s).1 → leaves m (processMessage id cfg m s).2)) as (Hp & ? & ? & ? & ?).
  { destruct m as [h|req|rep|rvc|m]; simpl in *; try done.
    - destruct (Crash.processRequest_quiet id cfg req s) as (new & s' & E & _ & Hcap); [by eapply Crash.reachable_quiet|].
      pose proof (processRequest_grows req s) as Hg. rewrite E in *. simpl in *.
      split_and!; try done; [by eapply inv_grows| |by apply advances_progress, grows_advances].
      destruct Hg as (_ & Hv & Hc & _). unfold follows. by rewrite <- Hv, <- Hc.
    - destruct Ha as [Hid Hv]. case_if; nbool; [lia|].
      by destruct (processReqViewChange_ends rvc s ltac:(lia) Hi Hfo Hv) as (? & ? & ? & ? & ? & _).
    - destruct Ha as [Hm Hready]. case_if; nbool; [destruct Hm as (_ & ? & _); lia|].
      destruct (processCertifiedMessage_ends m s Hi) as (? & ? & ? & He & Hc & ?); try done.
      { eapply WellFormed.wf_lastUI, WellFormed.reachable_wf; eauto. }
      split_and!; try done. unfold follows. by rewrite He, Hc. }
  split_and!; try done. split_and!; try done. eapply rtc_r; [exact Hr|].
  eapply process_step; [apply surjective_pairing|done].
Qed.

Lemma perform_ends a s :
  sound s → admissible a s →
  isPanic (perform id cfg a s).1 = false ∧ sound (perform id cfg a s).2 ∧ progress s (perform id cfg a s).2.
Proof.
  intros Hs Ha.
  assert (∀ s', grows s s' → reachable id cfg au co s' → sound s' ∧ progress s s') as Hgrow.
  { intros s' Hg Hr. destruct Hs as (Hi & Hfo & _). split; [split_and!; [by eapply inv_grows| |done]|].
    - destruct Hg as (_ & Hv & Hc & _). unfold follows. by rewrite <- Hv, <- Hc.
    - by apply advances_progress, grows_advances. }
  assert (isPanic (perform id cfg a s).1 = false → reachable id cfg au co (perform id cfg a s).2) as Hstep.
  { intros Hp. destruct Hs as (_ & _ & Hr). eapply rtc_r; [exact Hr|].
    eapply step_perform; [apply surjective_pairing|done]. }
  destruct (cert_sizes _ _ Hn Hf Henough) as (Hnf & _ & _).
  destruct a as [m|t|i].
  - destruct (processMessage_ends m s Hs Ha) as (? & ? & ? & _). simpl. unfold mbind, M_bind.
    by destruct (processMessage id cfg m s) as [[] s'].
  - assert (isPanic (expireTimer id cfg t s).1 = false) as Hp.
    { apply Crash.expire_ok; [lia|lia|]. by eapply Crash.reachable_timers, Hs. }
    split; [done|]. apply Hgrow; [apply expireTimer_grows|by apply Hstep].
  - assert (isPanic (finishExecution id i s).1 = false) as Hp.
    { unfold finishExecution. apply bind_ok; [done|]. intros [[c q r]|] s' _; [|done].
      apply bind_ok; [done|]. intros _ s2 _.
      by destruct (OwnLog.generate_reply (NewReply id c q r) s2) as (sig & au' & -> & _). }
    split; [done|]. apply Hgrow; [apply finishExecution_grows|by apply Hstep].
Qed.

Inductive pstep : state → state → Prop :=
| pstep_perform a s : admissible a s → pstep s (perform id cfg a s).2.

Definition preachable (s : state) : Prop := rtc pstep (newReplica id cfg au co) s.

Lemma preachable_sound s : preachable s → sound s.
Proof.
  intros Hr. eapply (rtc_ind_r sound); [| |exact Hr].
  - destruct (cert_sizes _ _ Hn Hf Henough) as (_ & _ & Hcs). split_and!; [apply inv_init| |apply rtc_refl].
    split_and!; [done|done|]. apply Collect.rvc_inv_init. lia.
  - intros s1 s2 _ [a s0 Ha] Hs. by apply perform_ends.
Qed.

(** ** Handlers of peers' messages *)

Section Handler.
(** The authenticator answers; [w]: the view up to which NewView messages are come across. *)
Context (Hverify : ∀ role i b tag, isPanic (VerifyMessageAuthenTag (Au := Au) role i b tag) = false).
Context (w : N).

(** Fields in range, counters unique, proposals of a kind the validator has a case for. *)
Definition plausible (m : Message) : Prop :=
  match m with
  | Msg_Request _ | Msg_ReqViewChange _ => True
  | Msg_Certified cm => as_sent cm ∧ in_u64 (cm_Counter cm) ∧
      match cm with
      | CM_Prepare _ => True
      | CM_Commit c => proposal_ok (comm_Proposal c) = true
      | CM_ViewChange vc => in_u64 (vc_NewView vc)
      | CM_NewView nv => nv_NewView nv ≤ w
      end
  | _ => False
  end.

Inductive trusted : Message → Prop :=
| trusted_intro m : plausible m → (∀ m', m' ∈ embedded m → trusted m') → trusted m.

(** What a message handled without an error leaves behind, for good. *)
Definition settles (m : Message) (s : state) : Prop :=
  match m with
  | Msg_Request req => captured s req
  | Msg_ReqViewChange rvc => 1 ≤ rvc_NewView rvc ∧ (rvc_NewView rvc ≤ w → recorded rvc s)
  | Msg_Certified cm =>
      LogOrder.valid (Au := Au) cfg cm ∧ cm_shape cm ∧ handled_to (cm_ReplicaID cm) (cm_Counter cm) s ∧
      Forall (captured s) (cm_requests cm) ∧
      match cm with CM_ViewChange vc => vc_NewView vc ≤ w → vc_NewView vc ≤ expected s | _ => True end
  | _ => True
  end.

Lemma settles_progress m s s' :
  progress s s' → sound s' → w ≤ expected s + 1 → settles m s → settles m s'.
Proof.
  intros Hp (_ & (_ & Hb & _) & _) Hw. destruct m as [h|req|rep|rvc|cm]; simpl; try done.
  - by apply captured_progress.
  - intros [Hv Hr]. split; [done|]. intros Hle. eapply recorded_progress; eauto. lia.
  - intros (Hv & Hs & Hh & Hc & Hvc). split_and!; try done; [by eapply handled_progress| |].
    + eapply Forall_impl; [exact Hc|]. intros req. by apply (captured_progress s).
    + destruct cm as [| |vc|]; try done. intros Hle. destruct Hp as (_ & He & _). specialize (Hvc Hle). lia.
Qed.

(** How handling a message may end. *)
Definition ends_handled {A} (Q : state → Prop) (s : state) (r : outcome A * state) : Prop :=
  isPanic r.1 = false ∧ preachable r.2 ∧ progress s r.2 ∧ (isOK r.1 → Q r.2).

Definition handled_well (handle : Message → M state bool) (m : Message) : Prop :=
  ∀ s, preachable s → w ≤ expected s + 1 → ends_handled (settles m) s (handle m s).

Lemma handled_bind {A B} (m : M state A) (k : A → M state B) Q Q' s :
  ends_handled Q s (m s) →
  (∀ a s1, preachable s1 → progress s s1 → Q s1 → ends_handled Q' s1 (k a s1)) →
  ends_handled Q' s ((m ≫= k) s).
Proof.
  unfold mbind, M_bind. destruct (m s) as [[a|e|p] s1]; intros (Hp & Hs & Hpr & HQ) Hk; simpl in *; try done.
  destruct (Hk a s1 Hs Hpr (HQ I)) as (? & ? & ? & ?). split_and!; try done. by etrans.
Qed.

Lemma handled_wrapM {A} msg (m : M state A) Q s : ends_handled Q s (m s) → ends_handled Q s (wrapM msg m s).
Proof. unfold wrapM, ends_handled. destruct (m s) as [o s']. simpl. rewrite wrapf_isPanic. by destruct o. Qed.

(** The messages of a loop, one by one. *)
Lemma handleAll_ends handle l s :
  (∀ m, m ∈ l → handled_well handle m) → preachable s → w ≤ expected s + 1 →
  ends_handled (λ s', ∀ m, m ∈ l → settles m s') s (forM (handleOne handle) l s).
Proof.
  revert s. induction l as [|m l IH]; intros s Hl Hs Hw; cbn [forM].
  { split_and!; try done. intros _ m Hm. set_solver. }
  apply (handled_bind _ _ (settles m)).
  - apply (handled_bind _ _ (settles m)); [apply handled_wrapM, Hl; [set_solver|done..]|].
    intros b s1 Hs1 _ Hm. by split_and!.
  - intros _ s1 Hs1 Hpr Hm. assert (w ≤ expected s1 + 1) as Hw1 by (destruct Hpr as (_ & ? & _); lia).
    destruct (IH s1 ltac:(intros; apply Hl; set_solver) Hs1 Hw1) as (Hp2 & Hs2 & Hpr2 & Hset2).
    split_and!; try done. intros Hok m' [->|Hin]%elem_of_cons; [|by apply Hset2].
    eapply settles_progress; [done|by apply preachable_sound|done|done].
Qed.

(** What validation and the embedded messages say of a certified message. *)
Lemma validated_certified cm :
  validateMessage (Au := Au) n vcCertSize (Msg_Certified cm) = OK tt → in_u64 (cm_Counter cm) →
  cm_ReplicaID cm < n ∧ LogOrder.valid (Au := Au) cfg cm.
Proof. simpl. case_if; [done|]. nbool. intros. by split_and!. Qed.

Lemma settled_log vc s :
  (∀ m, m ∈ map Msg_Certified (vc_MessageLog vc) → settles m s) →
  ∀ m, m ∈ vc_MessageLog vc → settles (Msg_Certified m) s.
Proof. intros Hl m Hm. apply Hl, list_elem_of_fmap. eauto. Qed.

Lemma vc_valid_parts vc s :
  LogOrder.valid (Au := Au) cfg (CM_ViewChange vc) → in_u64 (vc_NewView vc) →
  (∀ m, m ∈ vc_MessageLog vc → settles (Msg_Certified m) s) →
  vcCert_valid vcCertSize (vc_NewView vc) (vc_ViewChangeCert vc) ∧
  Forall (λ m, opens_view m = None) (tail (vc_MessageLog vc)).
Proof.
  intros Hval Hu Hl. pose proof (LogOrder.valid_counter cfg _ Hval) as Hpos. destruct Hval as [Hv Hc].
  unfold validateCertifiedMessage in Hv. apply outcome_bind_OK in Hv as ([] & _ & Hv).
  apply validateViewChange_OK in Hv as (_ & Hcert & Hlog & _); try done.
  - split; [done|]. apply Forall_lookup. intros i m Hi. rewrite lookup_tail in Hi.
    by apply (Hlog (S i) m).
  - apply Forall_forall. intros m Hm. destruct (Hl m Hm) as (Hvm & _).
    split; [by apply (LogOrder.valid_counter cfg)|apply Hvm].
Qed.

Lemma embedded_shape cm s :
  plausible (Msg_Certified cm) → LogOrder.valid (Au := Au) cfg cm →
  (∀ m, m ∈ embedded (Msg_Certified cm) → settles m s) →
  cm_shape cm ∧ Forall (captured s) (cm_requests cm).
Proof.
  intros (_ & _ & Hpl) Hval He. destruct cm as [p|c|vc|nv]; simpl in *.
  - split; [done|]. constructor; [|done]. apply (He (Msg_Request (prep_Request p))). set_solver.
  - destruct (He (Msg_Certified (comm_Proposal c))) as (_ & Hs & _ & Hc & _); [set_solver|].
    destruct c as [r prop ui]. simpl in *. split; [|done]. by rewrite Hpl.
  - assert (∀ m, m ∈ vc_MessageLog vc → settles (Msg_Certified m) s) as Hl.
    { apply settled_log. set_solver. }
    destruct (vc_valid_parts vc s Hval Hpl Hl) as [_ Ht]. destruct vc as [r v log cert ui]. simpl in *. split.
    + apply andb_prop_intro. split; apply Is_true_true, forallb_forall; intros m Hm%list_elem_of_In; apply Is_true_true.
      * by apply Hl.
      * rewrite Forall_forall in Ht. specialize (Ht m Hm). by destruct m.
    + apply Forall_forall. intros req (m & Hm & Hr)%elem_of_concat_map.
      destruct (Hl m Hm) as (_ & _ & _ & Hc & _). rewrite Forall_forall in Hc. by apply Hc.
  - destruct nv as [r v cert ui]. simpl in *.
    assert (∀ vc, vc ∈ cert → settles (Msg_Certified (CM_ViewChange vc)) s) as Hl.
    { intros vc Hvc. apply He, list_elem_of_fmap. eauto. }
    split.
    + apply Is_true_true, forallb_forall. intros vc Hvc%list_elem_of_In. apply Is_true_true. by apply (Hl vc Hvc).
    + apply Forall_forall. intros req (vc & Hvc & Hr)%elem_of_concat_map.
      destruct (Hl vc Hvc) as (_ & _ & _ & Hc & _). rewrite Forall_forall in Hc. by apply Hc.
Qed.

(** The certificate of a ViewChange takes a replica that was in the previous view to
    its view. *)
Lemma vc_advances vc s :
  sound s → w ≤ expected s + 1 → in_u64 (vc_NewView vc) →
  vcCert_valid vcCertSize (vc_NewView vc) (vc_ViewChangeCert vc) →
  (∀ rvc, rvc ∈ vc_ViewChangeCert vc → settles (Msg_ReqViewChange rvc) s) →
  vc_NewView vc ≤ w → vc_NewView vc ≤ expected s.
Proof.
  intros (_ & (_ & Hb & Hinv) & _) Hw Hu (Hlen & Hviews & Hdup) Hrec Hle.
  destruct (N.le_gt_cases (vc_NewView vc) (expected s)) as [?|Hgt]; [done|exfalso].
  destruct Hinv as (Hlt & _ & Hd & Hr).
  assert (list_to_set (rvc_ReplicaID <$> vc_ViewChangeCert vc) ⊆ Collect.rvc_replicas (rvcCollected s)) as Hsub.
  { intros r. rewrite elem_of_list_to_set, list_elem_of_fmap. intros (rvc & -> & Hin).
    rewrite Forall_forall in Hviews. specialize (Hviews rvc Hin). destruct (Hrec rvc Hin) as [_ Hrc].
    apply Hrc; [lia|]. rewrite u64_succ_small; lia. }
  apply subseteq_size in Hsub. rewrite Hr, !size_list_to_set, !length_fmap in Hsub by done. lia.
Qed.

(** Once the embedded messages are handled, a certified message can be processed. *)
Lemma embedded_ready cm s :
  trusted (Msg_Certified cm) → cm_ReplicaID cm < n → LogOrder.valid (Au := Au) cfg cm →
  (∀ m, m ∈ embedded (Msg_Certified cm) → settles m s) →
  genuine cm ∧ ready cm s.
Proof.
  intros Ht Hid Hval He. inversion Ht as [m Hpl Hemb]; subst.
  destruct (embedded_shape cm s Hpl Hval He) as [Hsh Hcap]. destruct (Hpl) as (Hsent & Hu & Hk).
  destruct cm as [p|c|vc|nv]; simpl in *.
  - split; [by split_and!|]. by apply (Forall_singleton (captured s)) in Hcap.
  - destruct (He (Msg_Certified (comm_Proposal c))) as (Hvp & _ & Hh & _); [set_solver|].
    assert (trusted (Msg_Certified (comm_Proposal c))) as Htp by (apply Hemb; set_solver).
    inversion Htp as [m' Hpl' _]; subst. destruct Hpl' as [Hsp _]. by split; [split_and!|].
  - by split; [split_and!|].
  - split; [by split_and!|].
    destruct Hval as [Hv Hc]. unfold validateCertifiedMessage in Hv. apply outcome_bind_OK in Hv as ([] & _ & Hv).
    apply validateNewView_OK in Hv as (_ & _ & Hlen & Hviews & _ & Hin).
    apply list_elem_of_fmap in Hin as (vc & _ & Hvc). rewrite Forall_forall in Hviews.
    split.
    + destruct (He (Msg_Certified (CM_ViewChange vc))) as (_ & _ & _ & _ & Hx); [apply list_elem_of_fmap; eauto|].
      rewrite (Hviews vc Hvc) in Hx. by apply Hx.
    + intros reqs Hr%extract_requests. eapply Forall_impl; [exact Hr|]. intros r Hin.
      rewrite Forall_forall in Hcap. apply Hcap. by destruct nv.
Qed.

(** A validated message, once its embedded messages are handled. *)
Lemma process_settles m s :
  trusted m → preachable s → w ≤ expected s + 1 →
  validateMessage (Au := Au) n vcCertSize m = OK tt →
  (∀ m', m' ∈ embedded m → settles m' s) →
  ends_handled (settles m) s (processMessage id cfg m s).
Proof.
  intros Ht Hs Hw Hval He.
  assert (admissible (Process m) s ∧ (∀ cm, m = Msg_Certified cm → LogOrder.valid (Au := Au) cfg cm)) as [Ha Hcm].
  { inversion Ht as [m0 Hpl _]; subst. destruct m as [h|req|rep|rvc|cm]; simpl; try done.
    - split; [|done]. simpl in Hval. case_if; [done|]. nbool. unfold validateReqViewChange in Hval.
      case_if; [done|]. nbool. split; lia.
    - destruct (validated_certified cm Hval) as [Hid Hv]; [apply Hpl|].
      split; [by apply embedded_ready|by intros ? [= <-]]. }
  destruct (processMessage_ends m s (preachable_sound s Hs) Ha) as (Hp & Hs' & Hpr & Hl).
  split_and!; try done.
  { eapply rtc_r; [exact Hs|]. pose proof (pstep_perform (Process m) s Ha) as Hst. simpl in Hst.
    unfold mbind, M_bind in Hst. by destruct (processMessage id cfg m s) as [[] ?]. }
  intros Hok. specialize (Hl Hok).
  destruct m as [h|req|rep|rvc|cm]; simpl in *; try done.
  { by destruct Ha. }
  specialize (Hcm cm eq_refl). inversion Ht as [m0 Hpl _]; subst.
  destruct (embedded_shape cm s Hpl Hcm He) as [Hsh Hcap]. split_and!; try done.
  - eapply Forall_impl; [exact Hcap|]. intros r. by apply (captured_progress s).
  - destruct cm as [| |vc|]; try done. intros Hle. trans (expected s); [|apply Hpr].
    destruct Hpl as (_ & _ & Hu). simpl in He.
    destruct (vc_valid_parts vc s Hcm Hu) as [Hcert _]; [apply settled_log; set_solver|].
    apply (vc_advances vc s); try done; [by apply preachable_sound|]. intros rvc Hin. apply He, elem_of_app. left. apply list_elem_of_fmap. eauto.
Qed.

Lemma handlePeerMessage_ends m : trusted m → handled_well (handlePeerMessage id cfg) m.
Proof.
  induction m as [m IH] using message_ind. intros Ht s Hs Hw. rewrite (handlePeerMessage_eq id cfg m s).
  apply (handled_bind _ _ (λ _, validateMessage (Au := Au) n vcCertSize m = OK tt)).
  { split_and!; try done; simpl; [|by destruct (validateMessage _ _ _) as [[]| |]].
    rewrite wrapf_isPanic. destruct (isPanic (validateMessage _ _ _)) eqn:E; [|done].
    apply (validateMessage_panic n vcCertSize m Hverify) in E. inversion Ht as [m0 Hpl _]; subst.
    destruct m as [| | | |[]]; try done. destruct E as (_ & _ & _ & E), Hpl as (_ & _ & Hpl). congruence. }
  intros _ s1 Hs1 Hpr1 Hval. assert (w ≤ expected s1 + 1) as Hw1 by (destruct Hpr1 as (_ & ? & _); lia).
  apply (handled_bind _ _ (λ s', ∀ m', m' ∈ embedded m → settles m' s')).
  { apply handled_wrapM. assert (has_handler m) by (inversion Ht as [m0 Hpl _]; subst; by destruct m).
    rewrite (handleEmbedded_loop _ _ ltac:(done) s1). apply handleAll_ends; try done.
    intros m' Hm'. apply IH; [done|]. inversion Ht; subst; auto. }
  intros _ s2 Hs2 Hpr2 He. assert (w ≤ expected s2 + 1) as Hw2 by (destruct Hpr2 as (_ & ? & _); lia).
  apply handled_wrapM. by apply process_settles.
Qed.
End Handler.
End NoPanic.

(** C12: nothing a replica does after validation panics.  Take a system of [2f+1] replicas or
    more, an authenticator whose USIG counts, and any sequence of timers, finished
    executions, requests, ReqViewChange messages and certified messages, where the
    certified messages passed validation, come after the messages embedded in them
    ([ready]: the request of a Prepare is captured, the proposal of a Commit is handled,
    the view of a NewView is expected and its requests are captured), have the
    content their replica gave to their counter, and no primary opens a view twice.
    Then no further such action panics: no request identifier is prepared before it
    is captured or retired before it is prepared, no slice is indexed out of range, no
    message meets a missing case.  Nor does such an action undo that another message
    is ready, so the goroutines may interleave between handling what is embedded
    in a message and processing it. *)
Theorem validated_never_panics {Au Co} `{!Authenticator Au} `{!SequentialUSIG Au} `{!RequestConsumer Co}
    `{!RangeOrder} id cfg (sent : N → N → option (N * bool * list Request)) (au : Au) (co : Co) s a :
  in_u32 (cfg_N cfg) → cfg_F cfg < 2 ^ 31 → notEnoughNodes (cfg_N cfg) (cfg_F cfg) = false →
  opens_once sent →
  preachable id cfg sent au co s → admissible cfg sent a s →
  isPanic (perform id cfg a s).1 = false ∧
  (∀ m, ready m s → ready m (perform id cfg a s).2).
Proof.
  intros Hn Hf He Ho Hr Ha.
  assert (sound id cfg sent au co s) as Hs by (by apply preachable_sound).
  destruct (perform_ends id cfg sent Ho au co Hn Hf He a s Hs Ha) as (Hp & _ & Hpr).
  split; [done|]. intros m. by apply ready_progress.
Qed.

(** C13: handling a peer's message does not panic.  In such a state, the handler of peers'
    messages (validation, then the embedded messages one by one, then the message itself)
    ends with a result or an error, whether or not the message is valid, if the
    authenticator answers, the message is a Request, a ReqViewChange or a certified
    message (not a Hello or a Reply), and at every level of nesting integers are in range,
    the certified messages have the content their replica gave to their counter, Commits
    are to a Prepare or a NewView, and NewView messages are for the view after the
    expected one at most; the state it leaves is again such a state. *)
Theorem peer_message_never_panics {Au Co} `{!Authenticator Au} `{!SequentialUSIG Au} `{!RequestConsumer Co}
    `{!RangeOrder} id cfg (sent : N → N → option (N * bool * list Request)) (au : Au) (co : Co) s m :
  in_u32 (cfg_N cfg) → cfg_F cfg < 2 ^ 31 → notEnoughNodes (cfg_N cfg) (cfg_F cfg) = false →
  opens_once sent →
  (∀ role i b tag, isPanic (VerifyMessageAuthenTag (Au := Au) role i b tag) = false) →
  preachable id cfg sent au co s → trusted sent (expectedView (views s) + 1) m →
  isPanic (handlePeerMessage id cfg m s).1 = false ∧
  preachable id cfg sent au co (handlePeerMessage id cfg m s).2.
Proof.
  intros Hn Hf He Ho Hv Hr Ht.
  destruct (handlePeerMessage_ends id cfg sent Ho au co Hn Hf He Hv _ m Ht s Hr) as (Hp & Hs & _); [lia|].
  done.
Qed.

(** ** Witnesses *)

(** The primary of view 0 proposed [req9] with its first counter. *)
Definition sent9 (r x : N) : option (N * bool * list Request) :=
  if (r =? 0) && (x =? 1) then Some (0, false, [req9]) else None.

Lemma sent9_once : opens_once sent9.
Proof. intros r x y v l l'. unfold sent9. by case_if. Qed.

Lemma validated_never_panics_witness :
  let s := (@perform N (list bytes) plainAuthen recordingConsumer keyOrder 1 cfg3
              (Process (Msg_Request req9)) backup).2 in
  isPanic (@perform N (list bytes) plainAuthen recordingConsumer keyOrder 1 cfg3
             (Process (Msg_Certified prepare9)) s).1 = false.
Proof.
  refine (proj1 (@validated_never_panics N (list bytes) plainAuthen plainUSIG recordingConsumer keyOrder 1 cfg3
    sent9 0 [] _ (Process (Msg_Certified prepare9)) eq_refl eq_refl eq_refl sent9_once _ _)).
  - apply rtc_once, (pstep_perform 1 cfg3 sent9 (Process (Msg_Request req9)) backup). exact I.
  - split; [split; [split; [split; vm_compute; reflexivity|exact I]|]|vm_compute; discriminate].
    split; [vm_compute; reflexivity|]. split; [exact I|]. by split.
Defined.

Lemma peer_message_never_panics_witness :
  isPanic (runPeer (Msg_Certified (CM_Commit (MkCommit 2 prepare9 (MkUI 1 [])))) backup).1 = false.
Proof.
  refine (proj1 (@peer_message_never_panics N (list bytes) plainAuthen plainUSIG recordingConsumer keyOrder 1 cfg3
    sent9 0 [] backup _ eq_refl eq_refl eq_refl sent9_once _ (rtc_refl _ _) _)); [done|].
  apply trusted_intro; [by split_and!|]. intros m ->%list_elem_of_singleton.
  apply trusted_intro; [by split_and!|]. intros m ->%list_elem_of_singleton.
  apply trusted_intro; [exact I|]. intros m Hm. by apply elem_of_nil in Hm.
Defined.

End NoPanic.
