(* ===== verification/Node.v ===== *)
(** The goroutines of a replica and their channels.

    [New] of [core/replica.go] starts, around the handlers of [Replica], a goroutine
    per connection to a peer ([startPeerConnections]), one that handles the own
    messages ([handleOwnPeerMessages]), and serves streams to peers and clients
    ([makeMessageStreamHandler]).  A [node] is the replica with these goroutines; an
    event is one communication or one atomic piece of work of a goroutine, and
    [nodeStep] says what it does.  A handler is not atomic here: the handling of a
    message is a list of jobs ([jobs]), between any two of which other goroutines
    run.

    Channels are unbuffered: a message passes when both sides are ready.  What is at
    the other end of the streams is the environment: bytes arrive ([EvRecv]), the
    stream is closed ([EvClosed]), bytes are taken ([EvOut]).  An event whose
    goroutine would panic is not possible. *)

From Stdlib Require Import Strings.Byte.
From S2P Require Import Prelude Usig Messages ViewState Timer ClientState RequestList.
From S2P Require Import MessageLog Quorum Commit Api Validation NewViewCert Collect.
From S2P Require Import Replica Handling Preservation Core Crash WellFormed.

Import ClientState(clientState, replyS).
Import MessageLogM(messageLog, msgs, stream, MkStream, st_reset, st_new, st_next, st_batch,
  st_phase, sent, newAdded, resetChan, fetch, sstep, stream_inv).

Module Node.
Import Replica Handling Preservation WellFormed Quorum.

(** ** Jobs *)

(** The pieces of a handler that are atomic. *)
Inductive job :=
| JValidate (m : Message)             (* validate(msg) *)
| JProcess (m : Message)              (* process(msg) *)
| JValidateRequest (req : Request).   (* validateRequest(req) of the client handler *)

(** What [makePeerMessageHandler] ([validate = true]) and [makeOwnMessageHandler] do
    with a message and the messages embedded in it, in order. *)
Fixpoint jobsF (fuel : nat) (validate : bool) (m : Message) : list job :=
  match fuel with
  | O => []
  | S fuel =>
      (if validate then [JValidate m] else []) ++
      concat (map (jobsF fuel validate) (embedded m)) ++ [JProcess m]
  end.
Definition jobs (validate : bool) (m : Message) : list job := jobsF (msg_depth m) validate m.

Lemma jobsF_fuel f1 f2 b m :
  (msg_depth m ≤ f1)%nat → (msg_depth m ≤ f2)%nat → jobsF f1 b m = jobsF f2 b m.
Proof.
  revert f2 m. induction f1 as [|f1 IH]; intros f2 m H1 H2; [pose proof (msg_depth_pos m); lia|].
  destruct f2 as [|f2]; [pose proof (msg_depth_pos m); lia|]. simpl. do 3 f_equal.
  apply map_ext_in. intros m' Hm'%list_elem_of_In%embedded_depth. apply IH; lia.
Qed.

Lemma jobs_eq b m :
  jobs b m = (if b then [JValidate m] else []) ++ concat (map (jobs b) (embedded m)) ++ [JProcess m].
Proof.
  unfold jobs at 1. destruct (msg_depth m) as [|d] eqn:E; [pose proof (msg_depth_pos m); lia|].
  simpl. do 3 f_equal. apply map_ext_in. intros m' Hm'%list_elem_of_In%embedded_depth.
  apply jobsF_fuel; lia.
Qed.

Section Jobs.
Context {Au Co : Type} `{!Authenticator Au} `{!RequestConsumer Co} `{!RangeOrder}.
Context (id : N) (cfg : Configer).
Abbreviation state := (replica Au Co).
Abbreviation n := (cfg_N cfg).
Abbreviation vcCertSize := (viewChangeCertSize (cfg_N cfg) (cfg_F cfg)).

Definition runJob (j : job) : M state unit :=
  match j with
  | JValidate m => lift (Validation.validateMessage (Au := Au) n vcCertSize m)
  | JProcess m => processMessage id cfg m ;; mret tt
  | JValidateRequest req => lift (Validation.validateRequest (Au := Au) req)
  end.

(** Success, error or panic, whatever the value or error. *)
Definition verdict {A} (o : outcome A) : option bool :=
  match o with OK _ => Some true | Error _ => Some false | Panic _ => None end.

(** Programs with the same verdict and effect. *)
Definition msim {A B} (m1 : M state A) (m2 : M state B) : Prop :=
  ∀ s, verdict (m1 s).1 = verdict (m2 s).1 ∧ (m1 s).2 = (m2 s).2.

Lemma msim_refl {A} (m : M state A) : msim m m.
Proof. done. Qed.

Lemma msim_bind {A B A' B'} (m1 : M state A) (m2 : M state B) (k1 : A → M state A') (k2 : B → M state B') :
  msim m1 m2 → (∀ a b, msim (k1 a) (k2 b)) → msim (m1 ≫= k1) (m2 ≫= k2).
Proof.
  intros Hm Hk s. destruct (Hm s) as [Hv Hs]. unfold mbind, M_bind.
  destruct (m1 s) as [[a|e|p] s1], (m2 s) as [[b|e'|p'] s2]; simpl in *; simplify_eq; try done. apply Hk.
Qed.

Lemma msim_wrapM {A B} msg (m1 : M state A) (m2 : M state B) : msim m1 m2 → msim (wrapM msg m1) m2.
Proof. intros Hm s. destruct (Hm s) as [Hv Hs]. unfold wrapM. by destruct (m1 s) as [[a|e|p] s1]. Qed.

Lemma msim_ret {A B} (m1 : M state A) (m2 : M state B) (b : B) :
  msim m1 m2 → msim (m1 ;; mret b) m2.
Proof.
  intros Hm s. destruct (Hm s) as [Hv Hs]. unfold mbind, M_bind. by destruct (m1 s) as [[a|e|p] s1].
Qed.

Lemma msim_trans {A B C} (m1 : M state A) (m2 : M state B) (m3 : M state C) :
  msim m1 m2 → msim m2 m3 → msim m1 m3.
Proof. intros H1 H2 s. destruct (H1 s), (H2 s). split; congruence. Qed.

Lemma msim_meq {A} (m1 m2 : M state A) : meq m1 m2 → msim m1 m2.
Proof. intros Hm s. by rewrite (Hm s). Qed.

(** A loop over messages whose bodies are sequences of jobs. *)
Lemma msim_loop (g : Message → M state unit) (h : Message → list job) l :
  (∀ x, x ∈ l → msim (g x) (forM runJob (h x))) →
  msim (forM g l) (forM runJob (concat (map h l))).
Proof.
  induction l as [|x l IH]; intros Hg; simpl; [apply msim_refl|].
  eapply msim_trans; [|apply msim_meq; intros s; symmetry; apply forM_app].
  apply msim_bind; [apply Hg; set_solver|]. intros _ _. apply IH. set_solver.
Qed.

Lemma forM_runJob_app l1 l2 : msim (forM runJob (l1 ++ l2)) (forM runJob l1 ;; forM runJob l2).
Proof. apply msim_meq, forM_app. Qed.

Lemma processMessage_job m : msim (processMessage id cfg m) (forM runJob [JProcess m]).
Proof.
  intros s. simpl. unfold mbind, M_bind, mret, M_ret. by destruct (processMessage id cfg m s) as [[b|e|p] s'].
Qed.

(** Embedded messages, given how each of them is handled; for a message no handler
    takes, the handler of embedded messages panics and so does the processing. *)
Lemma embedded_jobs handle validate m :
  (∀ m', m' ∈ embedded m → msim (handle m') (forM runJob (jobs validate m'))) →
  msim (wrapM "error handling embedded messages" (handleEmbedded handle m) ;;
        wrapM "error processing message" (processMessage id cfg m))
       (forM runJob (concat (map (jobs validate) (embedded m)) ++ [JProcess m])).
Proof.
  intros Hh. destruct (has_handler m) eqn:E; [|by destruct m].
  eapply msim_trans; [|intros s; split; symmetry; apply forM_runJob_app].
  apply msim_bind; [|intros _ _; apply msim_wrapM, processMessage_job].
  apply msim_wrapM. eapply msim_trans; [apply msim_meq, handleEmbedded_loop; by rewrite E|].
  apply msim_loop. intros m' Hm'. unfold handleOne. by apply msim_ret, msim_wrapM, Hh.
Qed.

Lemma peer_jobs m : msim (handlePeerMessage id cfg m) (forM runJob (jobs true m)).
Proof.
  induction m as [m IH] using message_ind. rewrite jobs_eq.
  eapply msim_trans; [apply msim_meq, handlePeerMessage_eq|]. cbn [app forM runJob].
  apply msim_bind; [|intros _ _; by apply embedded_jobs].
  intros s. simpl. by destruct (Validation.validateMessage _ _ _).
Qed.

Lemma own_jobs m : msim (handleOwnMessage id cfg m) (forM runJob (jobs false m)).
Proof.
  induction m as [m IH] using message_ind. rewrite jobs_eq.
  eapply msim_trans; [apply msim_meq, handleOwnMessage_eq|]. by apply embedded_jobs.
Qed.
End Jobs.

(** ** Streams of the message log, as a function *)

(** One step of [supplyMessages] that involves no receiver. *)
Definition advance (l : messageLog) (s : stream) : option stream :=
  match st_phase s with
  | MessageLogM.Fetching => match fetch l s with OK s' => Some s' | _ => None end
  | MessageLogM.Sending =>
      match st_batch s with
      | [] => Some (MkStream (st_reset s) (st_new s) (st_next s) [] MessageLogM.Waiting (sent s))
      | b => if st_reset s <? resetChan l
             then Some (MkStream (st_reset s) (st_new s) (st_next s) b MessageLogM.Fetching (sent s))
             else None
      end
  | MessageLogM.Waiting =>
      if (st_new s <? newAdded l) || (st_reset s <? resetChan l)
      then Some (MkStream (st_reset s) (st_new s) (st_next s) (st_batch s) MessageLogM.Fetching (sent s))
      else None
  | MessageLogM.Stopped => None
  end.

(** [ch <- msg], when someone receives. *)
Definition offer (s : stream) : option (Message * stream) :=
  match st_phase s, st_batch s with
  | MessageLogM.Sending, m :: b =>
      Some (m, MkStream (st_reset s) (st_new s) (st_next s) b MessageLogM.Sending (sent s ++ [m]))
  | _, _ => None
  end.

(** [case <-done] *)
Definition cancel (s : stream) : option stream :=
  match st_phase s with
  | MessageLogM.Fetching => None
  | _ => Some (MkStream (st_reset s) (st_new s) (st_next s) (st_batch s) MessageLogM.Stopped (sent s))
  end.

Lemma advance_sstep l s s' : advance l s = Some s' → sstep (l, s) (l, s').
Proof.
  unfold advance. destruct s as [r nw i b p st]. simpl. destruct p; simpl; [| | |done].
  - destruct (fetch _ _) as [s1| |] eqn:E; [|done..]. intros [= <-]. by apply MessageLogM.s_fetch.
  - destruct b as [|m b]; [intros [= <-]; apply MessageLogM.s_sent_all|].
    destruct (N.ltb_spec r (resetChan l)); [|done]. intros [= <-]. by apply MessageLogM.s_send_reset.
  - destruct (N.ltb_spec nw (newAdded l)), (N.ltb_spec r (resetChan l)); simpl; try done;
      intros [= <-]; apply MessageLogM.s_wake; auto.
Qed.

Lemma offer_sstep l s m s' : offer s = Some (m, s') → sstep (l, s) (l, s') ∧ sent s' = sent s ++ [m].
Proof.
  unfold offer. destruct s as [r nw i b p st]. simpl. destruct p; try done. destruct b as [|x b]; [done|].
  intros [= -> <-]. split; [apply MessageLogM.s_send|done].
Qed.

(** ** Connections *)

(** The channel returned by a message handler: the buffered and closed one of
    [makeClientMessageHandler], or the one served by the goroutine of
    [makeHelloHandler], with the streams it reads and the message it holds. *)
Inductive replyChan :=
| Buffered (q : list Message)
| HelloChan (peerID : N) (bcChan : stream) (ucChan : option stream) (held : option Message).

Inductive connKind :=
| PeerConn (peerID : N)     (* startPeerConnection, with handlePeerMessage *)
| HelloConn                 (* handlePeerStream, with handleHelloMessage *)
| ClientConn.               (* handleClientStream, with handleClientMessage *)

Inductive connPhase :=
| Greeting                                   (* startPeerConnection: out <- Hello *)
| Receiving                                  (* msgBytes, ok := <-in *)
| Handling (js : list job) (m : Message)     (* handleMessage(msg) *)
| Replying (req : Request)                   (* handleMessage: m, more := <-replyRequest(req) *)
| Draining (r : replyChan)                   (* handleReplyChan: msg, ok := <-replyChan *)
| Sending (m : Message) (r : replyChan)      (* handleReplyChan: outChan <- msgBytes *)
| Returned.

(** A connection; [handled] and [outs] record the messages it has handled without an
    error and the messages it has sent, on a peer's stream those since its last Hello. *)
Record conn := MkConn {
  c_kind : connKind; c_phase : connPhase; handled : list Message; outs : list Message }.

Definition goto (p : connPhase) (c : conn) : conn := MkConn (c_kind c) p (handled c) (outs c).

Inductive chanEvent :=
| TakeBc | TakeUc              (* it receives from one of its streams *)
| AdvanceBc | AdvanceUc        (* the goroutine of a stream works *)
| HelloStop.                   (* it notices that [stop] is closed *)

Inductive event :=
| EvRecv (b : bytes)     (* bytes arrive on [in] *)
| EvClosed               (* [in] is closed *)
| EvRun                  (* the goroutine's own work *)
| EvOut                  (* the bytes are taken from [out] *)
| EvStop                 (* the goroutine notices that [stop] is closed *)
| EvForward              (* [replyChan] is received from *)
| EvChan (ev : chanEvent).    (* the Hello goroutine works *)

Section Node.
Context {Au Co : Type} `{!Authenticator Au} `{!RequestConsumer Co} `{!RangeOrder}.
Context (id : N) (cfg : Configer).
Context (MarshalBinary : Message → outcome bytes) (NewFromBinary : bytes → outcome Message).
Abbreviation state := (replica Au Co).
Abbreviation n := (cfg_N cfg).

(** The goroutine of [makeHelloHandler] and the streams it reads. *)
Definition chanStep (stop : bool) (ev : chanEvent) (s : state) (r : replyChan) : option replyChan :=
  match r, ev with
  | HelloChan p bc uc held, AdvanceBc =>
      bc ← advance (log s) bc; Some (HelloChan p bc uc held)
  | HelloChan p bc (Some uc) held, AdvanceUc =>
      l ← unicastLogs s !! p; uc ← advance l uc; Some (HelloChan p bc (Some uc) held)
  | HelloChan p bc uc None, TakeBc =>
      '(m, bc) ← offer bc; Some (HelloChan p bc uc (Some m))
  | HelloChan p bc (Some uc) None, TakeUc =>
      '(m, uc) ← offer uc; Some (HelloChan p bc (Some uc) (Some m))
  | HelloChan _ _ _ _, HelloStop => if stop then Some (Buffered []) else None
  | _, _ => None
  end.

(** [msg, ok := <-replyChan]: [None] inside is a closed channel. *)
Definition receive (r : replyChan) : option (option Message * replyChan) :=
  match r with
  | Buffered [] => Some (None, r)
  | Buffered (m :: q) => Some (Some m, Buffered q)
  | HelloChan p bc uc (Some m) => Some (Some m, HelloChan p bc uc None)
  | HelloChan _ _ _ None => None
  end.

(** [handleMessage(msg)] of the three kinds of streams, up to its first wait. *)
Definition startHandling (s : state) (m : Message) (c : conn) : option conn :=
  match c_kind c with
  | PeerConn _ => Some (goto (Handling (jobs true m) m) c)
  | ClientConn =>
      match m with
      | Msg_Request req => Some (goto (Handling [JValidateRequest req; JProcess m] m) c)
      | _ => Some (goto Returned c)
      end
  | HelloConn =>
      match handleHelloMessage id cfg m s, m with
      | OK (bc, uc), Msg_Hello peerID =>
          Some (MkConn HelloConn (Draining (HelloChan peerID bc uc None)) (handled c ++ [m]) [])
      | Error _, _ => Some (goto Returned c)
      | _, _ => None
      end
  end.

(** The end of [handleMessage(msg)]: the client handler waits for the Reply. *)
Definition finishHandling (m : Message) (c : conn) : conn :=
  MkConn (c_kind c)
    match c_kind c, m with ClientConn, Msg_Request req => Replying req | _, _ => Receiving end
    (handled c ++ [m]) (outs c).

(** [makeMessageStreamHandler] and [startPeerConnection], one event at a time. *)
Definition connStep (stop : bool) (ev : event) (s : state) (c : conn) : option (state * conn) :=
  match c_phase c, ev with
  | Greeting, EvOut =>
      match MarshalBinary (Msg_Hello id) with
      | OK _ => Some (s, MkConn (c_kind c) Receiving (handled c) (outs c ++ [Msg_Hello id]))
      | _ => None
      end
  | Receiving, EvRecv b =>
      match NewFromBinary b with
      | OK m => c ← startHandling s m c; Some (s, c)
      | Error _ => Some (s, goto Returned c)
      | Panic _ => None
      end
  | Receiving, EvClosed => Some (s, goto Returned c)
  | Handling (j :: js) m, EvRun =>
      match runJob id cfg j s with
      | (OK _, s') => Some (s', goto (Handling js m) c)
      | (Error _, s') => Some (s', goto Returned c)
      | (Panic _, _) => None
      end
  | Handling [] m, EvRun => Some (s, finishHandling m c)
  | Replying req, EvRun =>
      match replyRequest req s with
      | OK (ClientState.ReplySend r) => Some (s, goto (Draining (Buffered [Msg_Reply r])) c)
      | OK ClientState.ReplyClosed => Some (s, goto (Draining (Buffered [])) c)
      | _ => None
      end
  | Draining r, EvForward =>
      '(m, r) ← receive r;
      match m with
      | None => Some (s, goto Receiving c)
      | Some m => match MarshalBinary m with OK _ => Some (s, goto (Sending m r) c) | _ => None end
      end
  | Sending m r, EvOut => Some (s, MkConn (c_kind c) (Draining r) (handled c) (outs c ++ [m]))
  | (Greeting | Receiving), EvStop => if stop then Some (s, goto Returned c) else None
  | Replying _, EvStop => if stop then Some (s, goto (Draining (Buffered [])) c) else None
  | (Draining _ | Sending _ _), EvStop => if stop then Some (s, goto Receiving c) else None
  | Draining r, EvChan ev => r ← chanStep stop ev s r; Some (s, goto (Draining r) c)
  | Sending m r, EvChan ev => r ← chanStep stop ev s r; Some (s, goto (Sending m r) c)
  | _, _ => None
  end.

(** ** The node *)

Record node := MkNode {
  n_replica : state;
  n_stop : bool;                  (* stopChan is closed *)
  n_conns : gmap N conn;
  n_own : stream;                 (* handleOwnPeerMessages: log.Stream(stop) *)
  n_ownJobs : list job }.         (* and the own message it is handling *)

Inductive nevent :=
| NConn (c : N) (ev : event)
| NAccept (c : N) (peer : bool)   (* HandleMessageStream of one of the two stream handlers *)
| NOwnAdvance | NOwnTake | NOwnRun | NOwnStop
| NExpire (t : N)
| NFinish (i : nat)
| NTerminate.                     (* Terminate: close(r.stopChan) *)

Definition nodeStep (ev : nevent) (nd : node) : option node :=
  let '(MkNode s stop conns own js) := nd in
  match ev with
  | NConn c ev =>
      x ← conns !! c;
      '(s, x) ← connStep stop ev s x;
      Some (MkNode s stop (<[c := x]> conns) own js)
  | NAccept c peer =>
      match conns !! c with
      | Some _ => None
      | None => Some (MkNode s stop
                  (<[c := MkConn (if peer then HelloConn else ClientConn) Receiving [] []]> conns) own js)
      end
  | NOwnAdvance => own ← advance (log s) own; Some (MkNode s stop conns own js)
  | NOwnTake =>
      match js with
      | [] => '(m, own) ← offer own; Some (MkNode s stop conns own (jobs false m))
      | _ => None
      end
  | NOwnRun =>
      match js with
      | [] => None
      | j :: js => match runJob id cfg j s with
                   | (OK _, s') => Some (MkNode s' stop conns own js)
                   | _ => None    (* panic: error handling own message *)
                   end
      end
  | NOwnStop =>
      if stop then own ← cancel own; Some (MkNode s stop conns own js) else None
  | NExpire t =>
      match expireTimer id cfg t s with
      | (Panic _, _) => None
      | (_, s') => Some (MkNode s' stop conns own js)
      end
  | NFinish i =>
      match finishExecution id i s with
      | (Panic _, _) => None
      | (_, s') => Some (MkNode s' stop conns own js)
      end
  | NTerminate => if stop then None (* close of a closed channel *)
                  else Some (MkNode s true conns own js)
  end.

(** [startPeerConnection]: its goroutine sends a Hello, then handles the stream. *)
Definition startPeerConnection (p : N) : conn := MkConn (PeerConn p) Greeting [] [].

(** [startPeerConnections]: [connects p] when the connector has a stream handler for
    peer [p] ([makePeerConnector]). *)
Fixpoint startPeerConnections (connects : N → bool) (peerIDs : list N) (conns : gmap N conn) :
    outcome (gmap N conn) :=
  match peerIDs with
  | [] => OK conns
  | p :: peerIDs =>
      if p =? id then startPeerConnections connects peerIDs conns
      else if connects p
           then startPeerConnections connects peerIDs
                  (<[p := startPeerConnection p]> conns)
           else Error (Errorf "cannot connect to replica")
  end.

(** [func New] of [replica.go], with the goroutines it starts. *)
Definition NewNode (connects : N → bool) (au : Au) (co : Co) : outcome node :=
  s ← Replica.New id cfg au co;
  conns ← wrapf "failed to start peer connections"
            (startPeerConnections connects (N.of_nat <$> seq 0 (N.to_nat n)) ∅);
  OK (MkNode s false conns (MessageLogM.Stream (log s)) []).

Definition nstep (nd nd' : node) : Prop := ∃ ev, nodeStep ev nd = Some nd'.
Definition nreachable (connects : N → bool) (au : Au) (co : Co) (nd : node) : Prop :=
  ∃ nd0, NewNode connects au co = OK nd0 ∧ rtc nstep nd0 nd.

(** ** The node runs the replica *)

Lemma runJob_steps j (s s' : state) o :
  runJob id cfg j s = (o, s') → isPanic o = false → rtc (step id cfg) s s'.
Proof.
  destruct j as [m|m|req]; simpl.
  - intros [= _ <-] _. reflexivity.
  - apply steps_bind; [apply steps_process|intros; apply steps_ret].
  - intros [= _ <-] _. reflexivity.
Qed.

Lemma connStep_steps stop ev (s s' : state) c c' :
  connStep stop ev s c = Some (s', c') → rtc (step id cfg) s s'.
Proof.
  unfold connStep. intros E.
  destruct (c_phase c) as [| |[|j js] m|req|r|m r|], ev; try done;
    repeat case_match; simplify_option_eq; try done; eauto using runJob_steps.
  destruct (receive r) as [[[m|] r']|]; simplify_eq/=; [|done]. destruct (MarshalBinary m); by simplify_eq.
Qed.

Lemma nodeStep_steps ev nd nd' :
  nodeStep ev nd = Some nd' → rtc (step id cfg) (n_replica nd) (n_replica nd').
Proof.
  destruct nd as [s stop conns own js]. simpl. intros E.
  destruct ev as [c ev|c peer| | | | |t|i|].
  - destruct (conns !! c) as [x|]; simpl in E; [|done].
    destruct (connStep stop ev s x) as [[s' x']|] eqn:Ec; simplify_eq/=. by eapply connStep_steps.
  - by case_match; simplify_eq/=.
  - destruct (advance _ _); simplify_eq/=. done.
  - destruct js; [|done]. destruct (offer own) as [[]|]; by simplify_eq/=.
  - destruct js as [|j js]; [done|]. destruct (runJob id cfg j s) as [[]] eqn:Ej; simplify_eq/=.
    by eapply runJob_steps.
  - destruct stop; [|done]. destruct (cancel own); by simplify_eq/=.
  - destruct (expireTimer id cfg t s) as [o s'] eqn:Ex.
    assert (isPanic o = false ∧ n_replica nd' = s') as [Ho ->] by (by destruct o; simplify_eq/=).
    apply rtc_once. exact (step_perform id cfg (Expire t) s s' o Ex Ho).
  - destruct (finishExecution id i s) as [o s'] eqn:Ex.
    assert (isPanic o = false ∧ n_replica nd' = s') as [Ho ->] by (by destruct o; simplify_eq/=).
    apply rtc_once. exact (step_perform id cfg (Finish i) s s' o Ex Ho).
  - by case_match; simplify_eq/=.
Qed.

Lemma nsteps_steps nd nd' : rtc nstep nd nd' → rtc (step id cfg) (n_replica nd) (n_replica nd').
Proof. induction 1 as [|? ? ? [ev Hs] _ IH]; [done|]. etrans; [by eapply nodeStep_steps|done]. Qed.

Lemma NewNode_OK connects au co nd0 :
  NewNode connects au co = OK nd0 →
  n_replica nd0 = newReplica id cfg au co ∧ n_stop nd0 = false ∧ n_ownJobs nd0 = [] ∧
  n_own nd0 = MessageLogM.Stream (log (n_replica nd0)) ∧
  startPeerConnections connects (N.of_nat <$> seq 0 (N.to_nat n)) ∅ = OK (n_conns nd0).
Proof.
  unfold NewNode, Replica.New. case_if; [done|]. cbn [mbind outcome_bind].
  intros (conns & Hc%wrapf_OK & [= <-])%outcome_bind_OK. done.
Qed.

Lemma nreachable_reachable connects au co nd :
  nreachable connects au co nd → reachable id cfg au co (n_replica nd).
Proof.
  intros (nd0 & (E & _)%NewNode_OK & Hr%nsteps_steps). unfold reachable. by rewrite <- E.
Qed.

(** ** Growth of the logs *)

(** A broadcast log is appended to and reset, a unicast log only appended to. *)
Inductive lmove : messageLog → messageLog → Prop :=
| lm_append m l : lmove l (MessageLogM.Append m l)
| lm_reset ms l : lmove l (MessageLogM.Reset ms l).
Inductive amove : messageLog → messageLog → Prop :=
| am_append m l : amove l (MessageLogM.Append m l).

Definition grows (s s' : state) : Prop :=
  rtc lmove (log s) (log s') ∧
  ∀ p l, unicastLogs s !! p = Some l → ∃ l', unicastLogs s' !! p = Some l' ∧ rtc amove l l'.
#[local] Instance grows_preorder : PreOrder grows.
Proof.
  split; unfold grows.
  - intros s. split; [done|]. eauto using rtc_refl.
  - intros s1 s2 s3 [H1 H2] [H3 H4]. split; [by etrans|]. intros p l Hl.
    destruct (H2 p l Hl) as (l2 & Hl2 & ?). destruct (H4 p l2 Hl2) as (l3 & ? & ?).
    exists l3. split; [done|]. by etrans.
Qed.

Lemma grows_frame (s s' : state) : log s = log s' → unicastLogs s = unicastLogs s' → grows s s'.
Proof. intros E1 E2. split; [by rewrite E1|]. intros p l. rewrite E2. eauto using rtc_refl. Qed.

Lemma local_grows {A} (m : M state A) : rel local m → rel grows m.
Proof. intros Hm s. destruct (Hm s) as ((?&?&_)&_). by apply grows_frame. Qed.

Hint Extern 2 (rel grows (modify _)) => (apply rel_modify; intros; by apply grows_frame) : mrel.
Hint Extern 2 (rel grows (zoom _ _ _)) => (apply rel_zoom; intros; by apply grows_frame) : mrel.
Hint Extern 6 (rel grows _) => (apply local_grows) : mrel.

Lemma append_grows m : rel grows (modify (λ s : state, set_log (MessageLogM.Append m (log s)) s)).
Proof. apply rel_modify. intros s. split; [apply rtc_once; constructor|]. eauto using rtc_refl. Qed.
Lemma reset_grows : rel grows (modify (λ s : state, set_log (MessageLogM.Reset [] (log s)) s)).
Proof. apply rel_modify. intros s. split; [apply rtc_once; constructor|]. eauto using rtc_refl. Qed.
Lemma generateTag_grows role b : rel grows (generateTag role b).
Proof.
  intros s. unfold generateTag. destruct (GenerateMessageAuthenTag _ _ _) as [o au]. by apply grows_frame.
Qed.
Hint Resolve append_grows reset_grows generateTag_grows : mrel.

Lemma generated_grows m : rel grows (handleGeneratedMessage m).
Proof.
  unfold handleGeneratedMessage, signMessage, assignUI, consumeGeneratedMessage.
  apply rel_bind; [apply _|destruct m; auto 10 with mrel|intros m']. destruct m'; auto with mrel.
Qed.
Hint Resolve generated_grows : mrel.

Lemma handlePrepTimeout_grows req v : rel grows (handlePrepTimeout cfg req v).
Proof.
  intros s. unfold handlePrepTimeout, mbind, M_bind, gets.
  destruct (unicastLogs s !! _) as [l0|] eqn:E; simpl; [|reflexivity].
  split; [done|]. intros p l Hl. simpl. destruct (decide (u32 (v mod n) = p)) as [<-|Hne].
  - rewrite lookup_insert_eq. simplify_eq. eexists. split; [done|]. apply rtc_once. constructor.
  - rewrite lookup_insert_ne by done. eauto using rtc_refl.
Qed.

#[local] Instance grows_preserved : Preserves id cfg grows.
Proof.
  split; [constructor|]; try apply _; intros; auto using handlePrepTimeout_grows with mrel.
  - apply processRequest_parts; [apply _|..]; intros; auto with mrel.
  - unfold processReqViewChange, startViewChange. auto 25 with mrel.
  - by apply grows_frame.
  - unfold processNewViewCert. auto 10 with mrel.
  - by apply grows_frame.
  - by apply grows_frame.
  - unfold finishExecution. apply rel_bind; [apply _|auto with mrel|]. intros [[]|]; auto 10 with mrel.
Qed.

Lemma steps_grow (s s' : state) : rtc (step id cfg) s s' → grows s s'.
Proof.
  induction 1 as [|s1 s2 s3 [a s4 s5 o Hp _] _ IH]; [reflexivity|]. etrans; [|exact IH].
  pose proof (perform_rel id cfg grows ltac:(intros; by apply grows_frame) a s4) as Hg.
  by rewrite Hp in Hg.
Qed.

Lemma stream_inv_lmove l l' st : rtc lmove l l' → stream_inv (l, st) → stream_inv (l', st).
Proof.
  induction 1 as [|l1 l2 l3 Hm _ IH]; [done|]. intros Hi. apply IH.
  eapply MessageLogM.stream_inv_step; [exact Hi|]. destruct Hm; constructor.
Qed.

Lemma amove_lmove l l' : rtc amove l l' → rtc lmove l l' ∧ resetChan l' = resetChan l.
Proof.
  induction 1 as [|l1 l2 l3 Hm _ [IH1 IH2]]; [done|]. destruct Hm. split; [|done].
  eapply rtc_l; [constructor|done].
Qed.

(** ** What a client's stream carries *)

(** The Reply of this replica to that Request. *)
Definition is_answer (m r : Message) : Prop :=
  match m, r with
  | Msg_Request req, Msg_Reply rep =>
      rep_ClientID rep = req_ClientID req ∧ rep_Sequence rep = req_Sequence req ∧ rep_ReplicaID rep = id
  | _, _ => False
  end.

(** [answers ms rs]: each of [rs] answers one of [ms], in the same order. *)
Inductive answers : list Message → list Message → Prop :=
| ans_nil : answers [] []
| ans_skip ms rs m : answers ms rs → answers (ms ++ [m]) rs
| ans_one ms rs m r : answers ms rs → is_answer m r → answers (ms ++ [m]) (rs ++ [r]).

Definition client_inv (c : conn) : Prop :=
  match c_phase c with
  | Receiving | Returned => answers (handled c) (outs c)
  | Handling _ m => answers (handled c) (outs c) ∧ ∃ req, m = Msg_Request req
  | Replying req => ∃ ms, handled c = ms ++ [Msg_Request req] ∧ answers ms (outs c)
  | Draining (Buffered q) =>
      (length q ≤ 1)%nat ∧ answers (handled c) (outs c) ∧ answers (handled c) (outs c ++ q)
  | Sending m (Buffered []) => answers (handled c) (outs c) ∧ answers (handled c) (outs c ++ [m])
  | _ => False
  end.

Lemma replyRequest_answer req (s : state) r :
  wf id cfg s → replyRequest req s = OK (ClientState.ReplySend r) → is_answer (Msg_Request req) (Msg_Reply r).
Proof.
  intros Hs. unfold replyRequest, ClientState.ReplyChannel. case_if; [|done].
  destruct (client_wf_default id cfg (req_ClientID req) s Hs) as [_ Hr]. unfold reply_wf in Hr.
  destruct (ClientState.last_reply _) as [rep|]; [|done]. case_if; [|done]. intros [= <-].
  nbool. simpl. destruct Hr as (? & ? & _). done.
Qed.

Lemma client_step stop ev (s s' : state) c c' :
  wf id cfg s → c_kind c = ClientConn → client_inv c → connStep stop ev s c = Some (s', c') →
  c_kind c' = ClientConn ∧ client_inv c'.
Proof.
  intros Hs Hk Hi E. unfold connStep in E. unfold client_inv in Hi.
  destruct (c_phase c) as [| |js m|req|[q|]|m [[|]|]|] eqn:Ep; try done; destruct ev; try done;
    try (destruct js as [|j js]; try done); repeat case_match; simplify_option_eq; try done.
  - unfold startHandling in *. rewrite Hk in *. destruct a; simplify_eq/=; (split; [done|]);
    unfold client_inv; simpl; by eauto.
  - destruct Hi as [Hi [req ->]]. split; [done|]. unfold client_inv, finishHandling. rewrite Hk. simpl. by eauto.
  - by destruct Hi.
  - destruct Hi as (ms & Eh & Ha). split; [done|]. unfold client_inv. simpl. rewrite app_nil_r, Eh.
    split_and!; [lia|by constructor..].
  - destruct Hi as (ms & Eh & Ha). split; [done|]. unfold client_inv. simpl. rewrite Eh.
    split_and!; [lia|by constructor|]. apply ans_one; [done|by eapply replyRequest_answer].
  - destruct Hi as (ms & Eh & Ha). split; [done|]. unfold client_inv. simpl. rewrite app_nil_r, Eh.
    split_and!; [lia|by constructor..].
  - by destruct Hi as (_ & Hi & _).
  - destruct q as [|m [|]]; simplify_eq/=; [by destruct Hi as (_ & Hi & _)| |lia].
    destruct (MarshalBinary m); simplify_eq. split; [done|]. by destruct Hi as (_ & Hi).
  - split; [done|]. unfold client_inv. simpl. rewrite app_nil_r. destruct Hi. split_and!; [lia|done..].
  - by destruct Hi.
Qed.

(** ** What a peer's stream carries *)

Definition isReq (m : Message) : bool := match m with Msg_Request _ => true | _ => false end.
Definition requestsOf (l : list Message) : list Message := filter (λ m, isReq m = true) l.
Definition othersOf (l : list Message) : list Message := filter (λ m, isReq m = false) l.

(** What the goroutine of a Hello has taken from its streams is what was sent on
    the connection, what is being sent and what it holds: [flow]. *)
Definition bc_inv (s : state) (bc : stream) (flow : list Message) : Prop :=
  stream_inv (log s, bc) ∧ Forall (own_message id) (st_batch bc) ∧ sent bc `suffix_of` othersOf flow.
Definition uc_inv (s : state) (p : N) (uc : option stream) (flow : list Message) : Prop :=
  match uc with
  | None => requestsOf flow = []
  | Some u => ∃ l, unicastLogs s !! p = Some l ∧ stream_inv (l, u) ∧ st_reset u = resetChan l ∧
                   Forall isRequest (st_batch u) ∧ requestsOf flow = sent u
  end.

#[local] Arguments uc_inv : simpl never.

Definition chan_inv (s : state) (flow : list Message) (r : replyChan) : Prop :=
  match r with
  | Buffered q => q = []
  | HelloChan p bc uc held =>
      bc_inv s bc (flow ++ option_list held) ∧ uc_inv s p uc (flow ++ option_list held)
  end.

Definition hello_inv (s : state) (c : conn) : Prop :=
  match c_phase c with
  | Receiving | Returned => True
  | Draining r => chan_inv s (outs c) r
  | Sending m r => chan_inv s (outs c ++ [m]) r
  | _ => False
  end.

Lemma chan_inv_grows (s s' : state) flow r : grows s s' → chan_inv s flow r → chan_inv s' flow r.
Proof.
  intros [Hl Hu]. destruct r as [q|p bc uc held]; [done|]. intros [(H1 & H2 & H3) Huc]. split.
  - split_and!; [by eapply stream_inv_lmove|done..].
  - destruct uc as [u|]; [|done]. destruct Huc as (l & El & H4 & H5 & H6 & H7).
    destruct (Hu p l El) as (l' & El' & [Hm Hr]%amove_lmove). exists l'.
    split_and!; [done|by eapply stream_inv_lmove|congruence|done..].
Qed.

Lemma Stream_inv l : stream_inv (l, MessageLogM.Stream l).
Proof. apply (MessageLogM.stream_inv_reachable l). reflexivity. Qed.

Lemma advance_inv l s s' : stream_inv (l, s) → advance l s = Some s' → stream_inv (l, s').
Proof. intros Hi Ha. eapply MessageLogM.stream_inv_step; [exact Hi|by apply advance_sstep]. Qed.

(** The batch of a stream is taken from the log, and [sent] starts over only. *)
Lemma advance_batch (P : Message → Prop) l s s' :
  Forall P (msgs l) → Forall P (st_batch s) → advance l s = Some s' →
  Forall P (st_batch s') ∧ (sent s' = sent s ∨ sent s' = [] ∧ st_reset s ≠ resetChan l) ∧
  (st_reset s = resetChan l → st_reset s' = st_reset s).
Proof.
  intros Hl Hb. unfold advance, fetch. destruct s as [r nw i b p st]. simpl in *.
  destruct p; simpl; [| | |done].
  - case_if; [done|]. intros [= <-]. simpl. split; [by apply Forall_drop|].
    destruct (N.ltb_spec r (resetChan l)); split; auto; try lia. right. split; [done|lia].
  - destruct b; [|case_if; [|done]]; intros [= <-]; simpl; auto.
  - case_if; [|done]. intros [= <-]. simpl. auto.
Qed.

Lemma offer_spec l s m s' (P : Message → Prop) :
  stream_inv (l, s) → Forall P (st_batch s) → offer s = Some (m, s') →
  stream_inv (l, s') ∧ P m ∧ Forall P (st_batch s') ∧ sent s' = sent s ++ [m] ∧ st_reset s' = st_reset s.
Proof.
  intros Hi Hb Ho. pose proof (offer_sstep l s m s' Ho) as [Hs He]. unfold offer in Ho.
  split_and!; [by eapply MessageLogM.stream_inv_step|..];
    destruct s as [r nw i b p st]; simpl in *; destruct p; try done; destruct b as [|x b]; try done;
    simplify_eq/=; by apply Forall_cons in Hb as [? ?].
Qed.

Lemma own_not_req m : own_message id m → isReq m = false.
Proof. by destruct m. Qed.
Lemma req_isReq m : isRequest m → isReq m = true.
Proof. by intros [r ->]. Qed.

Lemma flow_snoc l m :
  requestsOf (l ++ [m]) = requestsOf l ++ (if isReq m then [m] else []) ∧
  othersOf (l ++ [m]) = othersOf l ++ (if isReq m then [] else [m]).
Proof. unfold requestsOf, othersOf. rewrite !filter_app. by destruct m. Qed.

Lemma bc_advance (s : state) bc bc' flow :
  wf id cfg s → bc_inv s bc flow → advance (log s) bc = Some bc' → bc_inv s bc' flow.
Proof.
  intros Hs (H1 & H2 & H3) Ha.
  destruct (advance_batch _ _ _ _ (wf_log id cfg s Hs) H2 Ha) as (Hb & Hst & _).
  split_and!; [by eapply advance_inv|done|]. destruct Hst as [->|[-> _]]; [done|apply suffix_nil].
Qed.

Lemma uc_advance (s : state) p l uc uc' flow :
  wf id cfg s → unicastLogs s !! p = Some l → uc_inv s p (Some uc) flow → advance l uc = Some uc' →
  uc_inv s p (Some uc') flow.
Proof.
  intros Hs Hl (l' & El & H1 & H2 & H3 & H4) Ha. simplify_eq.
  destruct (wf_unicast id cfg s Hs _ _ Hl) as (_ & _ & Hreq).
  destruct (advance_batch _ _ _ _ Hreq H3 Ha) as (Hb & Hst & Hr).
  exists l. split_and!; [done|by eapply advance_inv|rewrite Hr by done; done|done|].
  destruct Hst as [->|[_ Hn]]; [done|]. congruence.
Qed.

Lemma bc_take (s : state) p bc bc' uc flow m :
  bc_inv s bc flow → uc_inv s p uc flow → offer bc = Some (m, bc') →
  bc_inv s bc' (flow ++ [m]) ∧ uc_inv s p uc (flow ++ [m]).
Proof.
  intros (H1 & H2 & H3) Hu Ho. destruct (offer_spec _ _ _ _ _ H1 H2 Ho) as (? & Hm & ? & Hst & _).
  destruct (flow_snoc flow m) as [Er Eo]. apply own_not_req in Hm. rewrite Hm in Er, Eo. split.
  - split_and!; [done..|]. rewrite Hst, Eo. destruct H3 as [k ->]. exists k. by rewrite app_assoc.
  - rewrite app_nil_r in Er. unfold uc_inv in *. by rewrite Er.
Qed.

Lemma uc_take (s : state) p bc uc uc' flow m :
  bc_inv s bc flow → uc_inv s p (Some uc) flow → offer uc = Some (m, uc') →
  bc_inv s bc (flow ++ [m]) ∧ uc_inv s p (Some uc') (flow ++ [m]).
Proof.
  intros (H1 & H2 & H3) (l & El & H4 & H5 & H6 & H7) Ho.
  destruct (offer_spec _ _ _ _ _ H4 H6 Ho) as (? & Hm & ? & Hst & Hr).
  destruct (flow_snoc flow m) as [Er Eo]. apply req_isReq in Hm. rewrite Hm in Er, Eo.
  rewrite app_nil_r in Eo. split.
  - split_and!; [done..|]. by rewrite Eo.
  - exists l. split_and!; [done|done|congruence|done|]. by rewrite Er, Hst, H7.
Qed.

Lemma chan_step stop ev (s : state) flow r r' :
  wf id cfg s → chan_inv s flow r → chanStep stop ev s r = Some r' → chan_inv s flow r'.
Proof.
  intros Hs Hi. destruct r as [q|p bc uc held]; [done|]. destruct Hi as [Hb Hu].
  destruct ev, uc as [uc|], held as [h|], stop; simpl in *; intros E; simplify_option_eq; try done;
    try (by split; [by eapply bc_advance|]);
    try (by split; [|by eapply uc_advance]);
    rewrite ?app_nil_r in *.
  all: try (destruct (offer bc) as [[m bc']|] eqn:Eo; simplify_eq/=; by eapply bc_take).
  all: try (destruct (offer uc) as [[m uc']|] eqn:Eo; simplify_eq/=; by eapply uc_take).
Qed.

Lemma hello_started (s : state) m bc uc p :
  handleHelloMessage id cfg m s = OK (bc, uc) → m = Msg_Hello p →
  chan_inv s [] (HelloChan p bc uc None).
Proof.
  intros E ->. simpl in E. case_if; [done|]. simplify_eq. split; simpl.
  - split_and!; [apply Stream_inv|constructor|apply suffix_nil].
  - destruct (unicastLogs s !! p) as [l|] eqn:El; simpl; [|done].
    exists l. split_and!; [done|apply Stream_inv|done|constructor|done].
Qed.

Lemma hello_step stop ev (s s' : state) c c' :
  wf id cfg s → c_kind c = HelloConn → hello_inv s c → connStep stop ev s c = Some (s', c') →
  c_kind c' = HelloConn ∧ hello_inv s' c'.
Proof.
  intros Hs Hk Hi E. unfold connStep in E. unfold hello_inv in Hi.
  destruct (c_phase c) as [| |js m|req|r|m r|] eqn:Ep; try done; destruct ev; try done;
    repeat case_match; simplify_option_eq; try done.
  - unfold startHandling in *. rewrite Hk in *.
    destruct (handleHelloMessage id cfg a _) as [[bc uc]|e|p] eqn:Eh, a as [peerID| | | |]; simplify_eq/=; try done.
    split; [done|]. by apply (hello_started _ (Msg_Hello peerID)).
  - destruct (receive r) as [[[m|] r']|] eqn:Er; simplify_eq/=; [|done].
    destruct (MarshalBinary m); simplify_eq. split; [done|]. unfold hello_inv. simpl.
    destruct r as [q|p bc uc [h|]]; simplify_eq/=. by rewrite app_nil_r.
  - split; [done|]. by eapply chan_step.
  - split; [done|]. by eapply chan_step.
Qed.

(** ** The invariant of a node *)

Definition conn_inv (s : state) (c : conn) : Prop :=
  match c_kind c with
  | ClientConn => client_inv c
  | HelloConn => hello_inv s c
  | PeerConn _ => True
  end.

Definition conns_inv (nd : node) : Prop := map_Forall (λ _, conn_inv (n_replica nd)) (n_conns nd).

Lemma conn_inv_grows (s s' : state) c : grows s s' → conn_inv s c → conn_inv s' c.
Proof.
  intros Hg. unfold conn_inv. destruct (c_kind c); try done. unfold hello_inv.
  destruct (c_phase c); eauto using chan_inv_grows.
Qed.

Lemma connStep_kind stop ev (s s' : state) c c' :
  connStep stop ev s c = Some (s', c') → c_kind c' = c_kind c.
Proof.
  unfold connStep. intros E. destruct (c_phase c) as [| |[|j js] m|req|r|m r|], ev; try done;
    repeat case_match; simplify_option_eq; try done.
  - unfold startHandling in *. repeat case_match; by simplify_eq/=.
  - destruct (receive r) as [[[m|] r']|]; simplify_eq/=; [|done]. destruct (MarshalBinary m); by simplify_eq.
Qed.

Lemma connStep_inv stop ev (s s' : state) c c' :
  wf id cfg s → conn_inv s c → connStep stop ev s c = Some (s', c') → conn_inv s' c'.
Proof.
  intros Hs Hi E. pose proof (connStep_kind _ _ _ _ _ _ E) as Ek. unfold conn_inv in *. rewrite Ek.
  destruct (c_kind c) eqn:Hk; [done|..].
  - by destruct (hello_step stop ev s s' c c' Hs Hk Hi E).
  - by destruct (client_step stop ev s s' c c' Hs Hk Hi E).
Qed.

Lemma nodeStep_inv ev nd nd' :
  wf id cfg (n_replica nd) → conns_inv nd → nodeStep ev nd = Some nd' → conns_inv nd'.
Proof.
  intros Hs Hi E. pose proof (steps_grow _ _ (nodeStep_steps _ _ _ E)) as Hg. unfold conns_inv in *.
  assert (n_conns nd' = n_conns nd ∨
    (∃ c x, n_conns nd' = <[c := x]> (n_conns nd) ∧ conn_inv (n_replica nd') x)) as Hc.
  { destruct nd as [s stop conns own js]. destruct ev as [c ev|c peer| | | | |t|i|]; simpl in *;
      [| |left; repeat case_match; simplify_option_eq; repeat case_match; by simplify_eq/=..].
    - right. destruct (conns !! c) as [x|] eqn:Ex; simpl in E; [|done].
      destruct (connStep stop ev s x) as [[s' x']|] eqn:Ec; simplify_eq/=.
      exists c, x'. split; [done|]. eapply connStep_inv; [exact Hs| |exact Ec]. by eapply Hi.
    - right. destruct (conns !! c) as [x|]; simplify_eq/=. do 2 eexists. split; [done|].
      destruct peer; [done|constructor]. }
  destruct Hc as [->|(c & x & -> & Hx)].
  - intros c x Hcx. eapply conn_inv_grows; [exact Hg|]. by eapply Hi.
  - apply map_Forall_insert_2; [done|]. intros c' x' Hcx. eapply conn_inv_grows; [exact Hg|]. by eapply Hi.
Qed.

Lemma startPeerConnections_kind connects peers conns conns' :
  map_Forall (λ _ x, ∃ p, c_kind x = PeerConn p) conns →
  startPeerConnections connects peers conns = OK conns' →
  map_Forall (λ _ x, ∃ p, c_kind x = PeerConn p) conns'.
Proof.
  revert conns. induction peers as [|p peers IH]; intros conns Hc; simpl; [by intros [= <-]|].
  case_if; [by apply IH|]. case_if; [|done]. apply IH. apply map_Forall_insert_2; [by eexists|done].
Qed.

Lemma nreachable_inv connects au co nd :
  nreachable connects au co nd → wf id cfg (n_replica nd) ∧ conns_inv nd.
Proof.
  intros (nd0 & H0 & Hr). assert (reachable id cfg au co (n_replica nd0)) as Hreach.
  { apply NewNode_OK in H0 as [-> _]. unfold reachable. reflexivity. }
  assert (conns_inv nd0) as Hi.
  { apply NewNode_OK in H0 as (_ & _ & _ & _ & Hc).
    apply startPeerConnections_kind in Hc; [|apply map_Forall_empty].
    intros c x Hx. destruct (Hc c x Hx) as [p Hp]. unfold conn_inv. by rewrite Hp. }
  clear H0. induction Hr as [nd|nd1 nd2 nd3 [ev Hs] _ IH].
  - split; [by eapply reachable_wf|done].
  - apply IH.
    + unfold reachable in *. etrans; [exact Hreach|]. by eapply nodeStep_steps.
    + eapply nodeStep_inv; [|exact Hi|exact Hs]. by eapply reachable_wf.
Qed.

(** A run given by its events. *)
Fixpoint runNode (evs : list nevent) (nd : node) : option node :=
  match evs with
  | [] => Some nd
  | ev :: evs => nd ← nodeStep ev nd; runNode evs nd
  end.

Lemma runNode_steps evs nd nd' : runNode evs nd = Some nd' → rtc nstep nd nd'.
Proof.
  revert nd. induction evs as [|ev evs IH]; intros nd; simpl; [by intros [= <-]|].
  destruct (nodeStep ev nd) as [nd1|] eqn:E; simpl; [|done]. intros Hr.
  eapply rtc_l; [by exists ev|by apply IH].
Qed.

(** What a Hello's goroutine has taken from its streams and not yet sent. *)
Definition inFlight (p : connPhase) : list Message :=
  match p with
  | Draining (HelloChan _ _ _ held) => option_list held
  | Sending m (HelloChan _ _ _ held) => m :: option_list held
  | _ => []
  end.
Definition servedBy (p : connPhase) : option (N * stream * option stream) :=
  match p with
  | Draining (HelloChan peerID bc uc _) | Sending _ (HelloChan peerID bc uc _) => Some (peerID, bc, uc)
  | _ => None
  end.

Lemma hello_inv_flow (s : state) x p bc uc :
  hello_inv s x → servedBy (c_phase x) = Some (p, bc, uc) →
  bc_inv s bc (outs x ++ inFlight (c_phase x)) ∧ uc_inv s p uc (outs x ++ inFlight (c_phase x)).
Proof.
  unfold hello_inv. destruct (c_phase x) as [| | | |[|]|m [|]|]; try done; intros Hi Hs; simplify_eq/=.
  - done.
  - by rewrite <- app_assoc in Hi.
Qed.

(** A stream that is up to date has been sent in full. *)
Lemma stream_inv_waiting l st :
  stream_inv (l, st) → st_phase st = MessageLogM.Waiting → st_reset st = resetChan l →
  st_new st = newAdded l → sent st = msgs l.
Proof.
  intros (_ & _ & Hw & Hi) Hp Hr Hn. destruct (Hi Hr) as (_ & Hs & _ & Hall).
  rewrite (Hw Hp), app_nil_r in Hs. rewrite Hs, Hall, firstn_all; [done| |done]. by rewrite Hp.
Qed.
Lemma stream_inv_prefix l st : stream_inv (l, st) → st_reset st = resetChan l → sent st `prefix_of` msgs l.
Proof.
  intros (_ & _ & _ & Hi) Hr. destruct (Hi Hr) as (_ & Hs & _).
  exists (st_batch st ++ drop (st_next st) (msgs l)). by rewrite app_assoc, Hs, take_drop.
Qed.

(** How a goroutine that is not handling a message ends once [stop] is closed. *)
Definition stopEvents (p : connPhase) : list event :=
  match p with
  | Greeting | Receiving => [EvStop]
  | Draining _ | Sending _ _ => [EvStop; EvStop]
  | Replying _ => [EvStop; EvStop; EvStop]
  | Handling _ _ | Returned => []
  end.

Lemma runNode_stop (s : state) conns own js c x :
  conns !! c = Some x → (∀ l m, c_phase x ≠ Handling l m) →
  ∃ conns', runNode (NConn c <$> stopEvents (c_phase x)) (MkNode s true conns own js) =
              Some (MkNode s true conns' own js) ∧
    conns' !! c = Some (goto Returned x) ∧ ∀ c', c' ≠ c → conns' !! c' = conns !! c'.
Proof.
  intros Hc Hh. destruct x as [k ph hs os]. simpl in *.
  destruct ph as [| | |req|r|m r|]; simpl; rewrite ?Hc; simpl; rewrite ?lookup_insert_eq; simpl;
    rewrite ?lookup_insert_eq; simpl; try (by edestruct Hh);
    (eexists; split; [reflexivity|]; split; [try (by rewrite lookup_insert_eq)|]);
    try done; intros c' Hne; by rewrite ?lookup_insert_ne by done.
Qed.
End Node.

(** C17: the goroutines of a node only do what the replica's steps allow.  Handling a
    message, of a peer or an own one, has the verdict and the effect of its jobs one
    after the other; and whatever the connections deliver, in whatever order the
    goroutines take turns between jobs, the replica's state is one that is reachable
    by the atomic steps of [Handling.step], for which the theorems about the replica
    are proved. *)
Theorem node_runs_replica {Au Co} `{!Authenticator Au} `{!RequestConsumer Co} `{!RangeOrder}
    id cfg Marshal Unmarshal connects (au : Au) (co : Co) nd m (s : replica Au Co) :
  (verdict (handlePeerMessage id cfg m s).1 = verdict (forM (runJob id cfg) (jobs true m) s).1 ∧
   (handlePeerMessage id cfg m s).2 = (forM (runJob id cfg) (jobs true m) s).2) ∧
  (verdict (handleOwnMessage id cfg m s).1 = verdict (forM (runJob id cfg) (jobs false m) s).1 ∧
   (handleOwnMessage id cfg m s).2 = (forM (runJob id cfg) (jobs false m) s).2) ∧
  (nreachable id cfg Marshal Unmarshal connects au co nd → reachable id cfg au co (n_replica nd)).
Proof. split_and!; [apply peer_jobs|apply peer_jobs|apply own_jobs|apply own_jobs|apply nreachable_reachable]. Qed.

(** C31: a client's stream carries the answers to its Requests, in order.  Each message
    sent on it is this replica's Reply, with the Request's client and identifier, to
    one of the Requests handled on the stream; no Request is answered twice and
    answers do not overtake each other.  Only the Request handled last can still be
    waiting for its Reply, and none is when the next message is received. *)
Theorem client_stream_in_order {Au Co} `{!Authenticator Au} `{!RequestConsumer Co} `{!RangeOrder}
    id cfg Marshal Unmarshal connects (au : Au) (co : Co) nd c x :
  nreachable id cfg Marshal Unmarshal connects au co nd →
  n_conns nd !! c = Some x → c_kind x = ClientConn →
  ∃ ms, ms `prefix_of` handled x ∧ (length (handled x) ≤ S (length ms))%nat ∧ answers id ms (outs x) ∧
    (c_phase x = Receiving → ms = handled x).
Proof.
  intros [_ Hi]%nreachable_inv Hc Hk. specialize (Hi c x Hc). unfold conn_inv in Hi. rewrite Hk in Hi.
  unfold client_inv in Hi. destruct (c_phase x) as [| |js m|req|[q|]|m [[|]|]|]; try done.
  3: { destruct Hi as (ms & -> & Ha). exists ms. split_and!; [by exists [Msg_Request req]| |done|done].
       rewrite length_app. simpl. lia. }
  all: exists (handled x); split_and!; [done|lia|tauto|done].
Qed.

(** C32: a peer's stream carries the logs.  After a Hello of peer [p], the messages taken
    for it, sent or in flight, are the Requests of its unicast log in order from the
    first, and other messages, of which the last are the broadcast log in order from
    the first as it is since its last reset; when a stream waits and nothing was
    added, they are the whole log. *)
Theorem hello_stream_carries_logs {Au Co} `{!Authenticator Au} `{!RequestConsumer Co} `{!RangeOrder}
    id cfg Marshal Unmarshal connects (au : Au) (co : Co) nd c x p bc uc :
  nreachable id cfg Marshal Unmarshal connects au co nd →
  n_conns nd !! c = Some x → c_kind x = HelloConn → servedBy (c_phase x) = Some (p, bc, uc) →
  let flow := outs x ++ inFlight (c_phase x) in
  requestsOf flow `prefix_of` default [] (msgs <$> unicastLogs (n_replica nd) !! p) ∧
  (∀ u l, uc = Some u → unicastLogs (n_replica nd) !! p = Some l → st_phase u = MessageLogM.Waiting →
     st_new u = newAdded l → requestsOf flow = msgs l) ∧
  (st_reset bc = resetChan (log (n_replica nd)) →
   ∃ old new, othersOf flow = old ++ new ∧ new `prefix_of` msgs (log (n_replica nd)) ∧
     (st_phase bc = MessageLogM.Waiting → st_new bc = newAdded (log (n_replica nd)) →
      new = msgs (log (n_replica nd)))).
Proof.
  intros [_ Hi]%nreachable_inv Hc Hk Hs flow. specialize (Hi c x Hc). unfold conn_inv in Hi. rewrite Hk in Hi.
  destruct (hello_inv_flow id _ _ _ _ _ Hi Hs) as [(H1 & _ & [old H3]) Hu]. fold flow in H3, Hu. split_and!.
  - destruct uc as [u|]; [|by rewrite Hu; apply prefix_nil].
    destruct Hu as (l & -> & H4 & H5 & _ & ->). simpl. by apply stream_inv_prefix.
  - intros u l -> Hl Hw Hn. destruct Hu as (l' & El & H4 & H5 & _ & ->). simplify_eq.
    by apply stream_inv_waiting.
  - intros Hr. exists old, (sent bc). split_and!; [done|by apply stream_inv_prefix|].
    intros. by apply stream_inv_waiting.
Qed.

(** A terminated node winds down.  Once [Terminate] has closed the stop channel, a
    connection that is not in the middle of handling a message can return by its own
    steps, without the peer, the client or any other goroutine of the node doing
    anything, and without a change to the replica or to another connection. *)
Theorem stop_ends_connection {Au Co} `{!Authenticator Au} `{!RequestConsumer Co} `{!RangeOrder}
    id cfg Marshal Unmarshal (nd : node (Au := Au) (Co := Co)) c x :
  n_stop nd = true → n_conns nd !! c = Some x → (∀ js m, c_phase x ≠ Handling js m) →
  ∃ nd', runNode id cfg Marshal Unmarshal (NConn c <$> stopEvents (c_phase x)) nd = Some nd' ∧
    n_conns nd' !! c = Some (goto Returned x) ∧ n_replica nd' = n_replica nd ∧
    ∀ c', c' ≠ c → n_conns nd' !! c' = n_conns nd !! c'.
Proof.
  destruct nd as [s stop conns own js]. simpl. intros -> Hc Hh.
  destruct (runNode_stop id cfg Marshal Unmarshal s conns own js c x Hc Hh) as (conns' & Hr & H1 & H2).
  by eauto.
Qed.

(** ** A run *)

(** Replica 1 of three, with an encoding of four messages by one byte each. *)
Definition exUnmarshal (b : bytes) : outcome Message :=
  match b with
  | [x00] => OK (Msg_Request req9)
  | [x01] => OK (Msg_Certified prepare9)
  | [x02] => OK (Msg_Hello 2)
  | _ => Error (Errorf "proto: cannot parse")
  end.
Definition exMarshal (m : Message) : outcome bytes := OK [].

Definition start1 : outcome (node (Au := N) (Co := list bytes)) :=
  NewNode 1 cfg3 (λ _, true) 0 [].
Definition run1 (evs : list nevent) : option (node (Au := N) (Co := list bytes)) :=
  match start1 with
  | OK nd => @runNode N (list bytes) plainAuthen recordingConsumer keyOrder 1 cfg3 exMarshal exUnmarshal evs nd
  | _ => None
  end.

(** Client 9 connects as 10 and sends its Request, the primary's Prepare arrives, the
    replica handles its own Commit and executes, the client is sent the Reply; peer 2
    connects as 11 and is sent the Commit; the node is terminated. *)
Definition events1 : list nevent :=
  [NAccept 10 false; NConn 10 (EvRecv [x00]); NConn 10 EvRun; NConn 10 EvRun; NConn 10 EvRun;
   NConn 0 EvOut; NConn 0 (EvRecv [x01])] ++ replicate 5 (NConn 0 EvRun) ++
  [NOwnAdvance; NOwnTake] ++ replicate 3 NOwnRun ++ [NFinish 0;
   NConn 10 EvRun; NConn 10 EvForward; NConn 10 EvOut; NConn 10 EvForward;
   NAccept 11 true; NConn 11 (EvRecv [x02]); NConn 11 (EvChan AdvanceBc); NConn 11 (EvChan TakeBc);
   NConn 11 EvForward; NConn 11 EvOut; NConn 11 (EvChan AdvanceBc); NTerminate].

Definition nobody : conn := MkConn ClientConn Returned [] [].
Definition end1 : node (Au := N) (Co := list bytes) :=
  default (MkNode (newReplica 1 cfg3 0 []) false ∅ (MessageLogM.Stream MessageLogM.New) []) (run1 events1).
Definition conn1 (c : N) : conn := default nobody (n_conns end1 !! c).

Example end1_conns :
  outs (conn1 10) = [Msg_Reply (MkReply 1 9 1 [] [])] ∧ executed (n_replica end1) = [req9] ∧
  outs (conn1 11) = [Msg_Certified (CM_Commit (MkCommit 1 prepare9 (MkUI 1 [])))].
Proof. vm_compute. done. Qed.

Abbreviation reach1 := (@nreachable N (list bytes) plainAuthen recordingConsumer keyOrder 1 cfg3
  exMarshal exUnmarshal (λ _, true) 0 []).

Lemma end1_reachable : reach1 end1.
Proof.
  destruct start1 as [nd0| |] eqn:E0; [|by vm_compute in E0..]. exists nd0. split; [exact E0|].
  apply (@runNode_steps N (list bytes) plainAuthen recordingConsumer keyOrder 1 cfg3 exMarshal exUnmarshal events1).
  assert (run1 events1 = Some end1) as Hr by (vm_compute; reflexivity).
  unfold run1 in Hr. by rewrite E0 in Hr.
Qed.

Lemma node_runs_replica_witness :
  @reachable N (list bytes) plainAuthen recordingConsumer keyOrder 1 cfg3 0 [] (n_replica end1).
Proof.
  apply (@node_runs_replica N (list bytes) plainAuthen recordingConsumer keyOrder 1 cfg3 exMarshal exUnmarshal
    (λ _, true) 0 [] end1 (Msg_Hello 0) (n_replica end1)).
  exact end1_reachable.
Defined.

Lemma client_stream_in_order_witness :
  ∃ ms, ms `prefix_of` handled (conn1 10) ∧ (length (handled (conn1 10)) ≤ S (length ms))%nat ∧
    answers 1 ms (outs (conn1 10)) ∧ (c_phase (conn1 10) = Receiving → ms = handled (conn1 10)).
Proof.
  apply (@client_stream_in_order N (list bytes) plainAuthen recordingConsumer keyOrder 1 cfg3 exMarshal exUnmarshal
    (λ _, true) 0 [] end1 10); [exact end1_reachable|vm_compute; reflexivity..].
Defined.

Lemma hello_stream_carries_logs_witness :
  requestsOf (outs (conn1 11) ++ inFlight (c_phase (conn1 11))) `prefix_of` [].
Proof.
  destruct (servedBy (c_phase (conn1 11))) as [[[p bc] uc]|] eqn:E; [|by vm_compute in E].
  assert (p = 2) as -> by (vm_compute in E; congruence).
  exact (proj1 (@hello_stream_carries_logs N (list bytes) plainAuthen recordingConsumer keyOrder 1 cfg3
    exMarshal exUnmarshal (λ _, true) 0 [] end1 11 (conn1 11) 2 bc uc end1_reachable
    ltac:(vm_compute; reflexivity) ltac:(vm_compute; reflexivity) E)).
Defined.

Lemma stop_ends_connection_witness :
  ∃ nd', @runNode N (list bytes) plainAuthen recordingConsumer keyOrder 1 cfg3 exMarshal exUnmarshal
      [NConn 11 EvStop; NConn 11 EvStop] end1 = Some nd' ∧
    n_conns nd' !! 11 = Some (goto Returned (conn1 11)) ∧ n_replica nd' = n_replica end1 ∧
    ∀ c', c' ≠ 11 → n_conns nd' !! c' = n_conns end1 !! c'.
Proof.
  apply (@stop_ends_connection N (list bytes) plainAuthen recordingConsumer keyOrder 1 cfg3 exMarshal exUnmarshal
    end1 11 (conn1 11)); [vm_compute; reflexivity..|].
  intros js m. vm_compute. discriminate.
Defined.

End Node.
