(* ===== verification/System.v ===== *)
(** A system of replicas over an asynchronous network, some of them Byzantine.

    A correct replica runs the handlers of [Replica]; the network delivers to it,
    in any order and any number of times, messages all of whose parts are
    authentic: a part of a correct replica was generated by it, a part of a faulty
    one is whatever that replica chose to certify, but with one message per UI
    counter.  That is what signatures and the USIG give; the tags themselves are
    those of [plainAuthen].

    [Section Attack] and [Section LateViewChange] are runs with three replicas, one of
    them faulty, in which the two correct ones execute different sequences of
    requests. *)

From S2P Require Import Prelude Usig Messages Authen ViewState Timer ClientState.
From S2P Require Import RequestList MessageLog Quorum Commit Api Validation NewViewCert.
From S2P Require Import ViewSafety Collect Replica Handling.

Import MessageLogM(messageLog, msgs).

(** ** Equality of messages *)

#[global] Instance Request_eq_dec : EqDecision Request.
Proof. solve_decision. Defined.
#[global] Instance Reply_eq_dec : EqDecision Reply.
Proof. solve_decision. Defined.
#[global] Instance ReqViewChange_eq_dec : EqDecision ReqViewChange.
Proof. solve_decision. Defined.
#[global] Instance Prepare_eq_dec : EqDecision Prepare.
Proof. solve_decision. Defined.

Definition list_eqb {A} (f : A → A → bool) : list A → list A → bool :=
  fix go (l k : list A) : bool :=
    match l, k with
    | [], [] => true
    | x :: l, y :: k => f x y && go l k
    | _, _ => false
    end.

Lemma list_eqb_eq {A} (f : A → A → bool) l k :
  Forall (λ x, ∀ y, f x y = true ↔ x = y) l → list_eqb f l k = true ↔ l = k.
Proof.
  intros Hl. revert k. induction Hl as [|x l Hx _ IH]; intros [|y k]; simpl; try done.
  rewrite andb_true_iff, Hx, IH. naive_solver.
Qed.

Fixpoint cm_eqb (m1 m2 : CertifiedMessage) : bool :=
  match m1, m2 with
  | CM_Prepare p1, CM_Prepare p2 => bool_decide (p1 = p2)
  | CM_Commit (MkCommit r1 p1 u1), CM_Commit (MkCommit r2 p2 u2) =>
      bool_decide (r1 = r2 ∧ u1 = u2) && cm_eqb p1 p2
  | CM_ViewChange vc1, CM_ViewChange vc2 => vc_eqb vc1 vc2
  | CM_NewView (MkNewView r1 v1 c1 u1), CM_NewView (MkNewView r2 v2 c2 u2) =>
      bool_decide (r1 = r2 ∧ v1 = v2 ∧ u1 = u2) && list_eqb vc_eqb c1 c2
  | _, _ => false
  end
with vc_eqb (vc1 vc2 : ViewChange) : bool :=
  match vc1, vc2 with
  | MkViewChange r1 v1 l1 c1 u1, MkViewChange r2 v2 l2 c2 u2 =>
      bool_decide (r1 = r2 ∧ v1 = v2 ∧ c1 = c2 ∧ u1 = u2) && list_eqb cm_eqb l1 l2
  end.

Lemma cm_eqb_eq m1 m2 : cm_eqb m1 m2 = true ↔ m1 = m2.
Proof.
  revert m2. induction m1 as [p|r prop ui IH|r v log cert ui IH|r v cert ui IH] using CM_ind;
    intros [p2|[r2 prop2 ui2]|[r2 v2 log2 cert2 ui2]|[r2 v2 cert2 ui2]]; simpl; try done.
  - rewrite bool_decide_eq_true. naive_solver.
  - rewrite andb_true_iff, bool_decide_eq_true, IH. naive_solver.
  - rewrite andb_true_iff, bool_decide_eq_true, list_eqb_eq by done. naive_solver.
  - rewrite andb_true_iff, bool_decide_eq_true, list_eqb_eq; [naive_solver|].
    eapply Forall_impl; [exact IH|]. intros vc Hvc vc2. specialize (Hvc (CM_ViewChange vc2)).
    simpl in Hvc. rewrite Hvc. naive_solver.
Qed.

#[global] Instance CertifiedMessage_eq_dec : EqDecision CertifiedMessage.
Proof.
  intros m1 m2. destruct (cm_eqb m1 m2) eqn:E; [left; by apply cm_eqb_eq|right].
  intros H%cm_eqb_eq. congruence.
Defined.
#[global] Instance Message_eq_dec : EqDecision Message.
Proof. solve_decision. Defined.

Module System.
Import Replica Handling.

(** ** What the network can deliver *)

(** Every certified message and every ReqViewChange in a message, itself first. *)
Fixpoint cm_parts (m : CertifiedMessage) : list Message :=
  Msg_Certified m ::
  match m with
  | CM_Prepare _ => []
  | CM_Commit (MkCommit _ prop _) => cm_parts prop
  | CM_ViewChange vc => vc_parts vc
  | CM_NewView (MkNewView _ _ cert _) =>
      concat (map (λ vc, Msg_Certified (CM_ViewChange vc) :: vc_parts vc) cert)
  end
with vc_parts (vc : ViewChange) : list Message :=
  match vc with
  | MkViewChange _ _ log cert _ => map Msg_ReqViewChange cert ++ concat (map cm_parts log)
  end.

Section System.
Context {Co : Type} `{!RequestConsumer Co} `{!RangeOrder}.
Context (cfg : Configer) (faulty : gset N).

#[local] Existing Instance plainAuthen.

(** The correct replicas, and the messages that exist: those the correct replicas
    put into their logs and those the faulty ones certified. *)
Record system := MkSystem { replicas : gmap N (replica N Co); known : list Message }.

Definition correct : list N := filter (λ r, r ∉ faulty) (N.of_nat <$> seq 0 (N.to_nat (cfg_N cfg))).

Definition newSystem (co : Co) : system :=
  MkSystem (list_to_map ((λ r, (r, newReplica r cfg 0 co)) <$> correct)) [].

(** How many UIs replica [r] has used in the messages [ms]. *)
Definition usedUIs (r : N) (ms : list Message) : nat :=
  length (List.filter (λ m, match m with Msg_Certified cm => cm_ReplicaID cm =? r | _ => false end) ms).

Inductive sysaction :=
| ClientSends (r : N) (req : Request)   (* a client's Request reaches replica r *)
| Delivers (r : N) (m : Message)        (* a message that exists reaches replica r *)
| OwnMessage (r : N) (m : Message)      (* replica r handles a message of its log *)
| TimerExpires (r : N) (t : N)
| Finishes (r : N) (i : nat)            (* an execution of replica r finishes *)
| Certifies (m : CertifiedMessage)      (* a faulty replica certifies a message with its next UI *)
| Signs (rvc : ReqViewChange).          (* a faulty replica signs a ReqViewChange *)

(** A handler of replica [r] ran, without a panic; what it put into its log is on
    its way. *)
Definition ran {A} (r : N) (res : outcome A * replica N Co) (sys : system) : option system :=
  if isPanic res.1 then None
  else Some (MkSystem (<[r := res.2]> (replicas sys))
    (known sys ++ filter (λ m, m ∉ known sys) (msgs (log res.2)))).

Definition exec (a : sysaction) (sys : system) : option system :=
  match a with
  | ClientSends r req =>
      s ← replicas sys !! r;
      ran r (handleClientMessage r cfg (Msg_Request req) s) sys
  | Delivers r m =>
      s ← replicas sys !! r;
      if bool_decide (m ∈ known sys) then ran r (handlePeerMessage r cfg m s) sys else None
  | OwnMessage r m =>
      s ← replicas sys !! r;
      if bool_decide (m ∈ msgs (log s)) then ran r (handleOwnStreamed r cfg m s) sys else None
  | TimerExpires r t => s ← replicas sys !! r; ran r (expireTimer r cfg t s) sys
  | Finishes r i => s ← replicas sys !! r; ran r (finishExecution r i s) sys
  | Certifies cm =>
      if bool_decide (cm_ReplicaID cm ∈ faulty) &&
         (cm_Counter cm =? N.of_nat (S (usedUIs (cm_ReplicaID cm) (known sys)))) &&
         bool_decide (Forall (λ m, m ∈ known sys) (tail (cm_parts cm)))
      then Some (MkSystem (replicas sys) (known sys ++ [Msg_Certified cm])) else None
  | Signs rvc =>
      if bool_decide (rvc_ReplicaID rvc ∈ faulty)
      then Some (MkSystem (replicas sys) (known sys ++ [Msg_ReqViewChange rvc])) else None
  end.

Definition sysstep (sys sys' : system) : Prop := ∃ a, exec a sys = Some sys'.

Fixpoint run (l : list sysaction) (sys : system) : option system :=
  match l with [] => Some sys | a :: l => exec a sys ≫= run l end.

Lemma run_steps l sys sys' : run l sys = Some sys' → rtc sysstep sys sys'.
Proof.
  revert sys. induction l as [|a l IH]; intros sys; simpl; [by intros [= ->]|].
  destruct (exec a sys) as [sys1|] eqn:E; simpl; [|done]. intros Hrun.
  eapply rtc_l; [by exists a|]. by apply IH.
Qed.

(** Agreement: of two correct replicas, one has executed what the other has, and
    possibly more. *)
Definition agreement (sys : system) : Prop :=
  ∀ r1 r2 s1 s2, replicas sys !! r1 = Some s1 → replicas sys !! r2 = Some s2 →
    executed s1 `prefix_of` executed s2 ∨ executed s2 `prefix_of` executed s1.

Lemma agreement_executed sys r1 r2 l1 l2 :
  agreement sys → executed <$> replicas sys !! r1 = Some l1 → executed <$> replicas sys !! r2 = Some l2 →
  l1 `prefix_of` l2 ∨ l2 `prefix_of` l1.
Proof.
  intros Ha (s1 & H1 & ->)%fmap_Some (s2 & H2 & ->)%fmap_Some. by eapply Ha.
Qed.
End System.

(** ** Losing an executed request in a view change *)

Section Attack.
#[local] Existing Instance plainAuthen.
#[local] Existing Instance recordingConsumer.
#[local] Existing Instance keyOrder.

Let ui (cv : N) : UI := MkUI cv [].
Definition reqA : Request := MkRequest 11 1 [] [].
Definition reqB : Request := MkRequest 12 1 [] [].
Definition reqC : Request := MkRequest 10 1 [] [].

(** View 0: the primary, replica 0, prepares two requests, and replica 1 commits to
    both.  Replica 0 executes both; replica 1 has taken only the first of its own
    Commits into account. *)
Let prepareA := CM_Prepare (MkPrepare 0 0 reqA (ui 1)).
Let prepareB := CM_Prepare (MkPrepare 0 0 reqB (ui 2)).
Let commitA := CM_Commit (MkCommit 1 prepareA (ui 1)).
Let commitB := CM_Commit (MkCommit 1 prepareB (ui 2)).
Definition view0 : list sysaction :=
  [ClientSends 0 reqA; ClientSends 0 reqB;
   OwnMessage 0 (Msg_Certified prepareA); OwnMessage 0 (Msg_Certified prepareB);
   Delivers 1 (Msg_Certified prepareA); Delivers 1 (Msg_Certified prepareB);
   OwnMessage 1 (Msg_Certified commitA);
   Delivers 0 (Msg_Certified commitA); Delivers 0 (Msg_Certified commitB)].

(** The request timer of a third request expires at replica 1.  Replica 2 is faulty
    and certifies three Commits to the same Prepare, all in the log of its
    ViewChange. *)
Let rvc1 := MkReqViewChange 1 1 [].
Let rvc2 := MkReqViewChange 2 1 [].
Let padding (cv : N) := CM_Commit (MkCommit 2 prepareA (ui cv)).
Let vc2 := MkViewChange 2 1 [padding 1; padding 2; padding 3] [rvc1; rvc2] (ui 4).
Definition faultyViewChange : list sysaction :=
  [ClientSends 1 reqC; TimerExpires 1 4; Signs rvc2;
   Certifies (padding 1); Certifies (padding 2); Certifies (padding 3);
   Certifies (CM_ViewChange vc2)].

(** Replica 1, the primary of view 1, takes that log for the longest one: the second
    request does not appear in it, and the third one is prepared next. *)
Let vc1 := MkViewChange 1 1 [commitA; commitB] [rvc1; rvc2] (ui 3).
Let newView1 := CM_NewView (MkNewView 1 1 [vc1; vc2] (ui 4)).
Let prepareC := CM_Prepare (MkPrepare 1 1 reqC (ui 5)).
Let vc0 := MkViewChange 0 1 [prepareA; prepareB] [rvc1; rvc2] (ui 3).
Definition view1 : list sysaction :=
  [Delivers 1 (Msg_Certified (CM_ViewChange vc2)); OwnMessage 1 (Msg_Certified (CM_ViewChange vc1));
   OwnMessage 1 (Msg_Certified newView1); OwnMessage 1 (Msg_Certified prepareC);
   Delivers 0 (Msg_Certified newView1); Delivers 0 (Msg_Certified prepareC);
   Delivers 1 (Msg_Certified (CM_ViewChange vc0));
   Delivers 1 (Msg_Certified (CM_Commit (MkCommit 0 newView1 (ui 4))));
   Delivers 1 (Msg_Certified (CM_Commit (MkCommit 0 prepareC (ui 5))))].

Definition beforeAttack : system (Co := list bytes) := newSystem cfg3 {[2]} [].
Definition afterAttack : system (Co := list bytes) :=
  default beforeAttack (run cfg3 {[2]} (view0 ++ faultyViewChange ++ view1) beforeAttack).

Lemma attack_runs :
  run cfg3 {[2]} (view0 ++ faultyViewChange ++ view1) beforeAttack = Some afterAttack.
Proof. vm_compute. reflexivity. Qed.

Lemma attack_executed :
  executed <$> replicas afterAttack !! 0 = Some [reqA; reqB] ∧
  executed <$> replicas afterAttack !! 1 = Some [reqA; reqC].
Proof. vm_compute. done. Qed.

(** C11: with three replicas of which one is faulty, agreement is not an invariant:
    the two correct replicas can come to execute different requests at the same
    position.  A log whose UIs are consecutive passes [validateMessageLog] whatever
    its Commits commit to, and [extractPreparedRequests] goes by the length of the
    logs alone; so a faulty replica that repeats a Commit displaces the log that
    proves a request executed elsewhere. *)
Theorem agreement_violated :
  ∃ sys : system (Co := list bytes),
    rtc (sysstep cfg3 {[2]}) (newSystem cfg3 {[2]} []) sys ∧ ¬ agreement sys.
Proof.
  exists afterAttack. split; [eapply run_steps, attack_runs|].
  intros Ha. destruct attack_executed as [H0 H1].
  destruct (agreement_executed _ 0 1 _ _ Ha H0 H1) as [[k [=]]|[k [=]]].
Qed.
End Attack.

(** ** Hiding a commitment behind a ViewChange *)

Section LateViewChange.
#[local] Existing Instance plainAuthen.
#[local] Existing Instance recordingConsumer.
#[local] Existing Instance keyOrder.

Let ui (cv : N) : UI := MkUI cv [].

(** Replicas 0 and 1 change to view 1, whose primary is replica 1; replica 2, the faulty
    one, only asks for it. *)
Let rvc1 := MkReqViewChange 1 1 [].
Let rvc2 := MkReqViewChange 2 1 [].
Let vc0 := MkViewChange 0 1 [] [rvc1; rvc2] (ui 1).
Let vc1 := MkViewChange 1 1 [] [rvc1; rvc2] (ui 1).
Definition toView1 : list sysaction :=
  [ClientSends 1 reqA; TimerExpires 1 0; Signs rvc2;
   OwnMessage 1 (Msg_ReqViewChange rvc1); Delivers 1 (Msg_ReqViewChange rvc2);
   Delivers 0 (Msg_ReqViewChange rvc1); Delivers 0 (Msg_ReqViewChange rvc2)].

(** Replica 2 commits to the NewView and to the primary's Prepare, as its first two
    certified messages, and replica 1 executes the request.  Replica 0 has the NewView
    only. *)
Let newView1 := CM_NewView (MkNewView 1 1 [vc1; vc0] (ui 2)).
Let prepareA := CM_Prepare (MkPrepare 1 1 reqA (ui 3)).
Let commitNV := CM_Commit (MkCommit 2 newView1 (ui 1)).
Let commitA := CM_Commit (MkCommit 2 prepareA (ui 2)).
Definition inView1 : list sysaction :=
  [OwnMessage 1 (Msg_Certified (CM_ViewChange vc1)); Delivers 1 (Msg_Certified (CM_ViewChange vc0));
   OwnMessage 1 (Msg_Certified newView1); OwnMessage 1 (Msg_Certified prepareA);
   Certifies commitNV; Certifies commitA;
   Delivers 1 (Msg_Certified commitNV); Delivers 1 (Msg_Certified commitA);
   Delivers 0 (Msg_Certified newView1); ClientSends 0 reqB].

(** Replicas 0 and 2 change to view 2, whose primary is replica 2.  Only now replica 2
    certifies its ViewChange to view 1, with its Commits of view 1 in the log, and then
    the one to view 2, whose log starts with the former and has nothing else. *)
Let rvc0' := MkReqViewChange 0 2 [].
Let rvc2' := MkReqViewChange 2 2 [].
Let vc2 := MkViewChange 2 1 [commitNV; commitA] [rvc1; rvc2] (ui 3).
Let vc2' := MkViewChange 2 2 [CM_ViewChange vc2] [rvc0'; rvc2'] (ui 4).
Let vc0' := MkViewChange 0 2 [CM_ViewChange vc0; CM_Commit (MkCommit 0 newView1 (ui 2))] [rvc0'; rvc2'] (ui 3).
Let newView2 := CM_NewView (MkNewView 2 2 [vc0'; vc2'] (ui 5)).
Let prepareB := CM_Prepare (MkPrepare 2 2 reqB (ui 6)).
Definition toView2 : list sysaction :=
  [TimerExpires 0 1; Signs rvc2'; OwnMessage 0 (Msg_ReqViewChange rvc0'); Delivers 0 (Msg_ReqViewChange rvc2');
   Certifies (CM_ViewChange vc2); Certifies (CM_ViewChange vc2'); Certifies newView2; Certifies prepareB;
   Delivers 0 (Msg_Certified newView2); Delivers 0 (Msg_Certified prepareB);
   OwnMessage 0 (Msg_Certified (CM_ViewChange vc0'));
   OwnMessage 0 (Msg_Certified (CM_Commit (MkCommit 0 newView2 (ui 4))));
   OwnMessage 0 (Msg_Certified (CM_Commit (MkCommit 0 prepareB (ui 5))))].

Definition afterLate : system (Co := list bytes) :=
  default beforeAttack (run cfg3 {[2]} (toView1 ++ inView1 ++ toView2) beforeAttack).

Lemma late_runs : run cfg3 {[2]} (toView1 ++ inView1 ++ toView2) beforeAttack = Some afterLate.
Proof. vm_compute. reflexivity. Qed.

Lemma late_executed :
  executed <$> replicas afterLate !! 0 = Some [reqB] ∧ executed <$> replicas afterLate !! 1 = Some [reqA].
Proof. vm_compute. done. Qed.

(** The logs in the certificates of the NewView messages that exist. *)
Definition certified_logs_sequential (cfg : Configer) (ms : list Message) : bool :=
  forallb (λ m, match m with
                | Msg_Certified (CM_NewView nv) =>
                    forallb (λ vc, ViewSafety.sequential (cfg_N cfg) (nv_NewView nv - 1) (ViewSafety.body vc))
                      (nv_NewViewCert nv)
                | _ => true
                end) ms.

Lemma late_sequential : certified_logs_sequential cfg3 (known afterLate) = true.
Proof. vm_compute. reflexivity. Qed.

(** Agreement is not an invariant even among the runs in which the logs in the certificates
    of all NewView messages are sequential, as [new_view_keeps_committed] asks: a faulty
    replica that commits in a view before it certifies its ViewChange to that view has
    these Commits in the log of that ViewChange, where [extractPreparedRequests] does not
    look.  [validateMessageLog] accepts them there, as it does not look at the view a
    Commit refers to. *)
Theorem agreement_violated_sequential :
  ∃ sys : system (Co := list bytes),
    rtc (sysstep cfg3 {[2]}) (newSystem cfg3 {[2]} []) sys ∧ ¬ agreement sys ∧
    certified_logs_sequential cfg3 (known sys) = true.
Proof.
  exists afterLate. split_and!; [eapply run_steps, late_runs| |exact late_sequential].
  intros Ha. destruct late_executed as [H0 H1].
  destruct (agreement_executed _ 0 1 _ _ Ha H0 H1) as [[k [=]]|[k [=]]].
Qed.
End LateViewChange.

End System.
