(* ===== verification/Lagging.v ===== *)
(** A replica that is behind by several views: a run of the system of [System] in which
    no replica is faulty.

    The collector of ReqViewChange messages takes those for the next view only, and a
    ViewChange is handled by handling the ReqViewChange messages of its certificate
    before its log, which leads back to the earlier views.  So each ViewChange takes a
    replica that missed several views one view further at least, but not necessarily to
    the view it is for; a NewView, with the [f+1] ViewChange messages of its
    certificate, may arrive in the current view before the replica expects it.  It is
    then counted as handled without being applied.

    Five replicas, of which two might be faulty, go through four view changes that replica
    2 does not take part in.  Replica 2 is the primary of view 2; the primaries of views 1
    and 3 read the ViewChange messages of their peers too late to open their views. *)

From S2P Require Import Prelude Usig Messages ViewState Timer ClientState RequestList.
From S2P Require Import MessageLog Quorum Commit Api Validation NewViewCert Collect.
From S2P Require Import Replica Handling System.

Module Lagging.
Import Replica Handling System.
Import MessageLogM(messageLog, msgs).

Section Run.
#[local] Existing Instance plainAuthen.
#[local] Existing Instance recordingConsumer.
#[local] Existing Instance keyOrder.

Definition cfg5 : Configer := MkConfig 5 2 1000 500 2000.

(** ** The messages the replicas come to send *)

Abbreviation signed r v := (Msg_ReqViewChange (MkReqViewChange r v [])).
Abbreviation cm m := (Msg_Certified m).

(** The Prepare of replica 0 for [req9], and the Commits to it. *)
Definition first (r : N) : CertifiedMessage :=
  let p := CM_Prepare (MkPrepare 0 0 req9 (MkUI 1 [])) in
  if r =? 0 then p else CM_Commit (MkCommit r p (MkUI 1 [])).

Definition vcCert (v : N) : ViewChangeCert :=
  [MkReqViewChange 0 v []; MkReqViewChange 1 v []; MkReqViewChange 3 v []].

(** The ViewChange of replica [r] to view [k+1]; its log is what it sent in view [k]. *)
Fixpoint viewChange (r : N) (k : nat) : ViewChange :=
  MkViewChange r (N.of_nat (S k))
    [match k with O => first r | S k' => CM_ViewChange (viewChange r k') end]
    (vcCert (N.of_nat (S k))) (MkUI (N.of_nat k + 2) []).

(** What replica [r] sent in view [k]. *)
Definition sentIn (r : N) (k : nat) : CertifiedMessage :=
  match k with O => first r | S k' => CM_ViewChange (viewChange r k') end.

Definition newView4 : NewView :=
  MkNewView 4 4 [viewChange 4 3; viewChange 0 3; viewChange 1 3] (MkUI 6 []).
Definition commit4 (r : N) : CertifiedMessage := CM_Commit (MkCommit r (CM_NewView newView4) (MkUI 6 [])).

(** ** The run *)

(** Replica 0 prepares the request; replicas 1, 3 and 4 commit to it. *)
Definition view0 : list sysaction :=
  [ClientSends 0 req9; OwnMessage 0 (cm (first 0))] ++
  concat (map (λ r, [Delivers r (cm (first 0)); OwnMessage r (cm (first r))]) [1; 3; 4]).

(** The timer of replica [r] in view [k]: a request timer, then view-change timers (the
    backups have stopped a prepare timer in between). *)
Definition timerIn (k : nat) (r : N) : N :=
  match k with O => 0 | S k => N.of_nat k + (if r =? 0 then 1 else 2) end.

(** View [k] ends: the timers of replicas 0, 1 and 3 expire.  Replica 0 reads what the
    other two sent in the view and their ReqViewChange messages, and changes the view.
    Replicas 1, 3 and 4 read its ViewChange and follow. *)
Definition leaveView (k : nat) : list sysaction :=
  map (λ r, TimerExpires r (timerIn k r)) [0; 1; 3] ++
  [OwnMessage 0 (signed 0 (N.of_nat (S k)))] ++
  concat (map (λ r, [Delivers 0 (cm (sentIn r k)); Delivers 0 (signed r (N.of_nat (S k)))]) [1; 3]) ++
  [OwnMessage 0 (cm (sentIn 0 (S k)))] ++
  concat (map (λ r, [Delivers r (cm (sentIn 0 (S k))); OwnMessage r (cm (sentIn r (S k)))]) [1; 3; 4]).

(** Replica 4, the primary of view 4, reads the third ViewChange and opens the view;
    replicas 0, 1 and 3 commit to its NewView. *)
Definition view4 : list sysaction :=
  [Delivers 4 (cm (sentIn 1 4)); OwnMessage 4 (cm (CM_NewView newView4))] ++
  map (λ r, Delivers r (cm (CM_NewView newView4))) [0; 1; 3].

(** Replica 2, up to now in the initial state, reads the log of replica 4; then those of
    replicas 0, 1 and 3, but for the last Commit. *)
Definition readsNewView : list sysaction :=
  view0 ++ leaveView 0 ++ leaveView 1 ++ leaveView 2 ++ leaveView 3 ++ view4 ++
  [Delivers 2 (cm (CM_NewView newView4))].
Definition readsCommits : list sysaction :=
  map (λ m, Delivers 2 (cm m)) [sentIn 0 4; commit4 0; sentIn 1 4; commit4 1; sentIn 3 4].

Definition before : system (Co := list bytes) := newSystem cfg5 ∅ [].
Definition behind : system (Co := list bytes) := default before (run cfg5 ∅ readsNewView before).
Definition after : system (Co := list bytes) := default behind (run cfg5 ∅ readsCommits behind).

Lemma behind_runs : run cfg5 ∅ readsNewView before = Some behind.
Proof. vm_compute. reflexivity. Qed.
Lemma after_runs : run cfg5 ∅ readsCommits behind = Some after.
Proof. vm_compute. reflexivity. Qed.

Lemma behind_state :
  bool_decide (cm (CM_NewView newView4) ∈ known behind) = true ∧
  (λ s, (views s, lastUI s !! 4%nat)) <$> replicas behind !! 2 = Some (ViewState.MkViewState 4 3, Some 6).
Proof. vm_compute. done. Qed.

Lemma after_state :
  bool_decide (cm (commit4 3) ∈ known after) = true ∧
  (λ s, (handlePeerMessage 2 cfg5 (cm (commit4 3)) s).1) <$> replicas after !! 2 =
    Some (Panic "Request ID not prepared").
Proof. vm_compute. done. Qed.

(** C14: a correct replica that is behind by several views can panic on what its correct peers
    sent.  There is a run of the system of five replicas, none of them faulty, that comes
    to a state in which replica 2 has handled a NewView for view 4, with its UI counted as
    the last of replica 4, and is in the current view 4 while it expects view 3, so that
    the NewView was not applied; and the run goes on to a state in which replica 2 panics
    on a Commit to that NewView by replica 3: the third commitment makes it execute a
    request that it has not prepared. *)
Theorem lagging_replica_panics :
  ∃ (sys1 sys2 : system (Co := list bytes)) s1 s2 nv comm,
    rtc (sysstep cfg5 ∅) (newSystem cfg5 ∅ []) sys1 ∧ rtc (sysstep cfg5 ∅) sys1 sys2 ∧
    (cm (CM_NewView nv) ∈ known sys1 ∧ nv_NewView nv = 4 ∧ replicas sys1 !! 2 = Some s1 ∧
     lastUI s1 !! N.to_nat (nv_ReplicaID nv) = Some (cm_Counter (CM_NewView nv)) ∧
     ViewState.currentView (views s1) = 4 ∧ ViewState.expectedView (views s1) = 3) ∧
    (cm (CM_Commit comm) ∈ known sys2 ∧ comm_ReplicaID comm = 3 ∧ comm_Proposal comm = CM_NewView nv ∧
     replicas sys2 !! 2 = Some s2 ∧
     (handlePeerMessage 2 cfg5 (cm (CM_Commit comm)) s2).1 = Panic "Request ID not prepared").
Proof.
  destruct behind_state as [K1 (s1 & H1 & E1)%fmap_Some]. injection E1 as E1 E1'.
  destruct after_state as [K2 (s2 & H2 & E2)%fmap_Some].
  apply bool_decide_eq_true in K1, K2.
  exists behind, after, s1, s2, newView4, (MkCommit 3 (CM_NewView newView4) (MkUI 6 [])).
  split; [eapply run_steps, behind_runs|]. split; [eapply run_steps, after_runs|].
  split; split_and!; rewrite <- ?E1, <- ?E1'; done.
Qed.
End Run.
End Lagging.
