(* ===== verification/OwnPanic.v ===== *)
(** A primary that cannot handle its own Prepare: a run of the system of [System].

    [handleOwnPeerMessages] ([src/core/message-handling.go]) panics when handling one of
    the replica's own messages fails.  [makeRequestUnpreparer] ([src/core/request.go]) puts
    the prepared request of a client back into the list of pending requests, where it
    replaces a later request of that client; when the NewView then prepares the later
    request, the earlier one is left in the list, below the last prepared identifier, and
    the new primary proposes it. *)

From S2P Require Import Prelude Usig Messages RequestList MessageLog Api Replica Handling System.

Module OwnPanic.
Import Replica Handling System.
Import MessageLogM(messageLog, msgs).

Section Run.
#[local] Existing Instance plainAuthen.
#[local] Existing Instance recordingConsumer.
#[local] Existing Instance keyOrder.

Let ui (cv : N) : UI := MkUI cv [].

(** A client sends two requests to replicas 0 and 1 without waiting for the reply to the
    first.  Replica 0, the primary of view 0, prepares both; replica 1 is delivered the
    first Prepare only. *)
Definition req1 : Request := MkRequest 11 1 [] [].
Definition req2 : Request := MkRequest 11 2 [] [].
Let prepare1 := CM_Prepare (MkPrepare 0 0 req1 (ui 1)).
Let prepare2 := CM_Prepare (MkPrepare 0 0 req2 (ui 2)).
Definition twoRequests : list sysaction :=
  [ClientSends 0 req1; ClientSends 0 req2; ClientSends 1 req1; ClientSends 1 req2;
   Delivers 1 (Msg_Certified prepare1)].

(** The request timer expires at replica 1.  Replica 2 is faulty: the log of its ViewChange
    has two Commits to the second Prepare and none to the first. *)
Let commit1 := CM_Commit (MkCommit 1 prepare1 (ui 1)).
Let rvc1 := MkReqViewChange 1 1 [].
Let rvc2 := MkReqViewChange 2 1 [].
Let skipping (cv : N) := CM_Commit (MkCommit 2 prepare2 (ui cv)).
Let vc1 := MkViewChange 1 1 [commit1] [rvc1; rvc2] (ui 2).
Let vc2 := MkViewChange 2 1 [skipping 1; skipping 2] [rvc1; rvc2] (ui 3).
Definition changeView : list sysaction :=
  [TimerExpires 1 2; Signs rvc2; Certifies (skipping 1); Certifies (skipping 2); Certifies (CM_ViewChange vc2);
   Delivers 1 (Msg_Certified (CM_ViewChange vc2)); OwnMessage 1 (Msg_Certified (CM_ViewChange vc1))].

(** Replica 1, the primary of view 1, applies its NewView and proposes the first request. *)
Definition newView1 : Message := Msg_Certified (CM_NewView (MkNewView 1 1 [vc1; vc2] (ui 3))).
Definition stalePrepare : Message := Msg_Certified (CM_Prepare (MkPrepare 1 1 req1 (ui 4))).
Definition actions : list sysaction := twoRequests ++ changeView ++ [OwnMessage 1 newView1].

Definition before : system (Co := list bytes) := newSystem cfg3 {[2]} [].
Definition after : system (Co := list bytes) := default before (run cfg3 {[2]} actions before).

Lemma actions_run : run cfg3 {[2]} actions before = Some after.
Proof. vm_compute. reflexivity. Qed.

Lemma after_primary :
  (λ s, (msgs (log s), lastUI s !! 1%nat, isPanic (handleOwnStreamed 1 cfg3 stalePrepare s).1)) <$>
    replicas after !! 1 = Some ([newView1; stalePrepare], Some 3, true).
Proof. vm_compute. reflexivity. Qed.

(** C15: a correct primary can stop on its own message.  With three replicas of which one is
    faulty, and a client that does not wait for its replies, a correct replica comes to
    have a message of its own in its log that is the next it has to handle, with the UI
    counter after that of the last one handled, and handling it panics: it proposes a
    request whose identifier is below the client's last prepared one. *)
Theorem own_message_panics :
  ∃ (sys : system (Co := list bytes)) s handled next,
    rtc (sysstep cfg3 {[2]}) (newSystem cfg3 {[2]} []) sys ∧ replicas sys !! 1 = Some s ∧
    msgs (log s) = [Msg_Certified handled; Msg_Certified next] ∧
    lastUI s !! 1%nat = Some (cm_Counter handled) ∧ cm_Counter next = cm_Counter handled + 1 ∧
    isPanic (handleOwnStreamed 1 cfg3 (Msg_Certified next) s).1 = true.
Proof.
  pose proof after_primary as Hp. apply fmap_Some in Hp as (s & Hs & E). injection E as E1 E2 E3.
  exists after, s. do 2 eexists. split_and!; [eapply run_steps, actions_run|exact Hs|by rewrite <- E1|by rewrite <- E2|done|done].
Qed.
End Run.
End OwnPanic.
