(* ===== verification/Protobuf.v ===== *)
(** Package [messages/protobuf] ([src/messages/protobuf]): protocol messages as
    Protobuf messages.

    The types [pb...] are the generated structs of [messages.proto]; a pointer
    field that the code reads without [Get...] or passes on to such a reader is
    an [option].  [message] is what the package implements the messages by: structs
    that keep the Protobuf message in a field [pbMsg], beside what was converted from it.
    [typedMessageFromPb] makes them from Protobuf messages and [pbMessageFromAPI] gives the
    Protobuf message back; [apiOf] reads a message by its methods, which panics when
    the Request of a Prepare is not set; and [pbOf] is what the functions of [pb/utils.go]
    compute for a message of any implementation.  The wire format ([proto.Marshal],
    [proto.Unmarshal]) is a parameter. *)

From S2P Require Import Prelude Bytes Usig Messages.

(** [for _, x := range l { y, err := f(x); if err != nil { return }; ... }] *)
Definition mapO {A B} (f : A → outcome B) : list A → outcome (list B) :=
  fix go (l : list A) : outcome (list B) :=
    match l with
    | [] => OK []
    | x :: l => match f x with
                | OK y => match go l with OK l' => OK (y :: l') | Error e => Error e | Panic p => Panic p end
                | Error e => Error e
                | Panic p => Panic p
                end
    end.

Lemma mapO_OK {A B} (f : A → outcome B) l l' :
  mapO f l = OK l' ↔ Forall2 (λ x y, f x = OK y) l l'.
Proof.
  revert l'. induction l as [|x l IH]; intros l'; simpl.
  { split; [intros [= <-]; constructor|by inversion 1]. }
  split.
  - destruct (f x) as [y| |] eqn:E; try done. destruct (mapO f l) as [l''| |] eqn:El; try done.
    intros [= <-]. constructor; [done|]. by apply IH.
  - inversion 1 as [|? y ? l'' Hy Hl]; subst. rewrite Hy. apply IH in Hl. by rewrite Hl.
Qed.

Lemma mapO_panic {A B} (f : A → outcome B) l :
  isPanic (mapO f l) → ∃ x, x ∈ l ∧ isPanic (f x).
Proof.
  induction l as [|x l IH]; simpl; [done|]. destruct (f x) as [y| |p] eqn:E; [|done|].
  - destruct (mapO f l); try done. intros Hp. destruct (IH Hp) as (x' & Hin & ?). exists x'. set_solver.
  - intros _. exists x. rewrite E. set_solver.
Qed.

Module Protobuf.

(** ** The generated types *)

Record pbRequest := MkPbRequest {
  pbq_ClientId : N; pbq_Seq : N; pbq_Operation : bytes; pbq_Signature : bytes }.
Record pbReply := MkPbReply {
  pbr_ReplicaId : N; pbr_ClientId : N; pbr_Seq : N; pbr_Result : bytes; pbr_Signature : bytes }.
Record pbPrepare := MkPbPrepare {
  pbp_ReplicaId : N; pbp_View : N; pbp_Request : option pbRequest; pbp_Ui : bytes }.
Record pbReqViewChange := MkPbReqViewChange {
  pbv_ReplicaId : N; pbv_NewView : N; pbv_Signature : bytes }.

(** [Message], whose [Typed] field may be unset, and the messages that nest *)
Inductive pbMessage :=
| Pb_Unset
| Pb_Hello (replicaId : N)
| Pb_Request (m : option pbRequest)
| Pb_Reply (m : pbReply)
| Pb_Prepare (m : pbPrepare)
| Pb_Commit (m : pbCommit)
| Pb_ReqViewChange (m : pbReqViewChange)
| Pb_ViewChange (m : pbViewChange)
| Pb_NewView (m : pbNewView)
with pbCommit :=
| MkPbCommit (replicaId : N) (proposal : option pbMessage) (ui : bytes)
with pbViewChange :=
| MkPbViewChange (replicaId newView : N) (log : list pbMessage) (vcCert : list pbReqViewChange)
    (ui : bytes)
with pbNewView :=
| MkPbNewView (replicaId newView : N) (nvCert : list pbViewChange) (ui : bytes).

(** ** From the API ([pb/utils.go]) *)

(** [func RequestFromAPI(req)], [ReplyFromAPI], [ReqViewChangeFromAPI], [PrepareFromAPI] *)
Definition RequestFromAPI (r : Request) : pbRequest :=
  MkPbRequest (req_ClientID r) (req_Sequence r) (req_Operation r) (req_Signature r).
Definition ReplyFromAPI (r : Reply) : pbReply :=
  MkPbReply (rep_ReplicaID r) (rep_ClientID r) (rep_Sequence r) (rep_Result r) (rep_Signature r).
Definition ReqViewChangeFromAPI (r : ReqViewChange) : pbReqViewChange :=
  MkPbReqViewChange (rvc_ReplicaID r) (rvc_NewView r) (rvc_Signature r).
Definition PrepareFromAPI (p : Prepare) : pbPrepare :=
  MkPbPrepare (prep_ReplicaID p) (prep_View p) (Some (RequestFromAPI (prep_Request p)))
    (Usig.MustMarshalUI (prep_UI p)).

(** The functions for the message types that nest take the conversion of the
    messages they hold. *)
Section NestedAPI.
Context (messageFromAPI : CertifiedMessage → pbMessage).

(** [CommitFromAPI] *)
Definition CommitFromAPI (c : Commit) : pbCommit :=
  match c with
  | MkCommit r prop ui => MkPbCommit r (Some (messageFromAPI prop)) (Usig.MustMarshalUI ui)
  end.

(** [messageLogFromAPI], [viewChangeCertFromAPI] *)
Definition messageLogFromAPI (log : MessageLog) : list pbMessage := map messageFromAPI log.
Definition viewChangeCertFromAPI (cert : ViewChangeCert) : list pbReqViewChange :=
  map ReqViewChangeFromAPI cert.

(** [ViewChangeFromAPI] *)
Definition ViewChangeFromAPI (vc : ViewChange) : pbViewChange :=
  match vc with
  | MkViewChange r v log cert ui =>
      MkPbViewChange r v (messageLogFromAPI log) (viewChangeCertFromAPI cert) (Usig.MustMarshalUI ui)
  end.

(** [newViewCertFromAPI] *)
Definition newViewCertFromAPI (cert : NewViewCert) : list pbViewChange := map ViewChangeFromAPI cert.

(** [NewViewFromAPI] *)
Definition NewViewFromAPI (nv : NewView) : pbNewView :=
  match nv with
  | MkNewView r v cert ui => MkPbNewView r v (newViewCertFromAPI cert) (Usig.MustMarshalUI ui)
  end.
End NestedAPI.

(** [WrapMessage(MessageFromAPI(m))] of a certified message *)
Fixpoint certifiedFromAPI (m : CertifiedMessage) : pbMessage :=
  match m with
  | CM_Prepare p => Pb_Prepare (PrepareFromAPI p)
  | CM_Commit c => Pb_Commit (CommitFromAPI certifiedFromAPI c)
  | CM_ViewChange vc => Pb_ViewChange (ViewChangeFromAPI certifiedFromAPI vc)
  | CM_NewView nv => Pb_NewView (NewViewFromAPI certifiedFromAPI nv)
  end.

(** [WrapMessage(MessageFromAPI(m))], and [WrapMessage(HelloFromAPI(h))] for a Hello *)
Definition pbOf (m : Message) : pbMessage :=
  match m with
  | Msg_Hello r => Pb_Hello r
  | Msg_Request r => Pb_Request (Some (RequestFromAPI r))
  | Msg_Reply r => Pb_Reply (ReplyFromAPI r)
  | Msg_ReqViewChange r => Pb_ReqViewChange (ReqViewChangeFromAPI r)
  | Msg_Certified cm => certifiedFromAPI cm
  end.

(** ** The messages of the package *)

(** [type request struct { pbMsg *pb.Request }]: the pointer is nil for the Request of a
    Prepare in which it is not set. *)
Record request := MkRequestImpl { rq_pbMsg : option pbRequest }.

(** [type prepare struct] *)
Record prepare := MkPrepareImpl { pr_pbMsg : pbPrepare; pr_req : request; pr_ui : UI }.

(** The other messages; [hello], [reply] and [reqViewChange] have the field [pbMsg] only. *)
Inductive message :=
| I_Hello (pbMsg : N)
| I_Request (m : request)
| I_Reply (pbMsg : pbReply)
| I_ReqViewChange (pbMsg : pbReqViewChange)
| I_Prepare (m : prepare)
| I_Commit (m : commit)
| I_ViewChange (m : viewChange)
| I_NewView (m : newView)
with commit :=
| MkCommitImpl (pbMsg : pbCommit) (prop : message) (ui : UI)
with viewChange :=
| MkViewChangeImpl (pbMsg : pbViewChange) (log : list message) (vcCert : list pbReqViewChange) (ui : UI)
with newView :=
| MkNewViewImpl (pbMsg : pbNewView) (nvCert : list viewChange) (ui : UI).

(** [m.(messages.CertifiedMessage)] *)
Definition isCertified (m : message) : bool :=
  match m with I_Prepare _ | I_Commit _ | I_ViewChange _ | I_NewView _ => true | _ => false end.

(** [pb.WrapMessage(pbMessageFromAPI(m))] of a message of the package: the one it keeps *)
Definition pbMessageFromAPI (m : message) : pbMessage :=
  match m with
  | I_Hello r => Pb_Hello r
  | I_Request m => Pb_Request (rq_pbMsg m)
  | I_Reply m => Pb_Reply m
  | I_ReqViewChange m => Pb_ReqViewChange m
  | I_Prepare m => Pb_Prepare (pr_pbMsg m)
  | I_Commit (MkCommitImpl m _ _) => Pb_Commit m
  | I_ViewChange (MkViewChangeImpl m _ _ _) => Pb_ViewChange m
  | I_NewView (MkNewViewImpl m _ _) => Pb_NewView m
  end.

(** *** From Protobuf messages *)

(** [newRequestFromPb], [newReplyFromPb], [newReqViewChangeFromPb] *)
Definition newRequestFromPb (pbMsg : option pbRequest) : outcome request := OK (MkRequestImpl pbMsg).
Definition newReplyFromPb (pbMsg : pbReply) : outcome message := OK (I_Reply pbMsg).
Definition newReqViewChangeFromPb (pbMsg : pbReqViewChange) : outcome pbReqViewChange := OK pbMsg.

Definition uiFromPb (ui : bytes) : outcome UI := wrapf "cannot unmarshal UI" (Usig.UnmarshalBinary ui).

(** [newPrepareFromPb] *)
Definition newPrepareFromPb (pbMsg : pbPrepare) : outcome prepare :=
  req ← wrapf "cannot unmarshal embedded Request" (newRequestFromPb (pbp_Request pbMsg));
  ui ← uiFromPb (pbp_Ui pbMsg);
  OK (MkPrepareImpl pbMsg req ui).

(** [m, ok := m.(messages.CertifiedMessage)] and the error if it is none *)
Definition asCertified (msg : string) (m : message) : outcome message :=
  if isCertified m then OK m else Error (Errorf msg).

(** The functions for the message types that nest take the conversion of the
    messages they hold, [typedMessageFromPb], which is defined by recursion below.
    Its type switch dereferences its argument. *)
Section Nested.
Context (typedMessageFromPb : pbMessage → outcome message).

(** [newCommitFromPb] *)
Definition newCommitFromPb (pbMsg : pbCommit) : outcome commit :=
  match pbMsg with
  | MkPbCommit _ proposal ui =>
      prop ← wrapf "cannot unmarshal embedded proposal"
               (match proposal with
                | None => Panic "nil pointer dereference"
                | Some prop => typedMessageFromPb prop
                end);
      prop ← asCertified "unexpected proposal message type" prop;
      ui ← uiFromPb ui;
      OK (MkCommitImpl pbMsg prop ui)
  end.

(** [messageLogFromPb] and [viewChangeCertFromPb] *)
Definition messageLogFromPb (pbLog : list pbMessage) : outcome (list message) :=
  mapO (λ m, typedMessageFromPb m ≫= asCertified "unexpected message type") pbLog.

Definition viewChangeCertFromPb (pbCert : list pbReqViewChange) : outcome (list pbReqViewChange) :=
  mapO newReqViewChangeFromPb pbCert.

(** [newViewChangeFromPb] *)
Definition newViewChangeFromPb (pbMsg : pbViewChange) : outcome viewChange :=
  match pbMsg with
  | MkPbViewChange _ _ log vcCert ui =>
      ui ← uiFromPb ui;
      log ← wrapf "cannot unmarshal message log" (messageLogFromPb log);
      vcCert ← wrapf "cannot unmarshal view-change certificate" (viewChangeCertFromPb vcCert);
      OK (MkViewChangeImpl pbMsg log vcCert ui)
  end.

(** [newViewCertFromPb] *)
Definition newViewCertFromPb (pbCert : list pbViewChange) : outcome (list viewChange) :=
  mapO newViewChangeFromPb pbCert.

(** [newNewViewFromPb] *)
Definition newNewViewFromPb (pbMsg : pbNewView) : outcome newView :=
  match pbMsg with
  | MkPbNewView _ _ nvCert ui =>
      ui ← uiFromPb ui;
      cert ← wrapf "cannot unmarshal new-view certificate" (newViewCertFromPb nvCert);
      OK (MkNewViewImpl pbMsg cert ui)
  end.
End Nested.

(** [typedMessageFromPb] *)
Fixpoint typedMessageFromPb (pbMsg : pbMessage) : outcome message :=
  match pbMsg with
  | Pb_Unset => Error (Errorf "unknown message type")
  | Pb_Hello r => OK (I_Hello r)
  | Pb_Request m => r ← newRequestFromPb m; OK (I_Request r)
  | Pb_Reply m => newReplyFromPb m
  | Pb_Prepare m => p ← newPrepareFromPb m; OK (I_Prepare p)
  | Pb_Commit m => c ← newCommitFromPb typedMessageFromPb m; OK (I_Commit c)
  | Pb_ReqViewChange m => r ← newReqViewChangeFromPb m; OK (I_ReqViewChange r)
  | Pb_ViewChange m => vc ← newViewChangeFromPb typedMessageFromPb m; OK (I_ViewChange vc)
  | Pb_NewView m => nv ← newNewViewFromPb typedMessageFromPb m; OK (I_NewView nv)
  end.

Section Wire.
Context (Marshal : pbMessage → outcome bytes) (Unmarshal : bytes → outcome pbMessage).

(** [MarshalBinary] of the message types: [marshalMessage(m.pbMsg)] *)
Definition MarshalBinary (m : message) : outcome bytes := Marshal (pbMessageFromAPI m).

(** [func ( *impl) NewFromBinary(data \[\]byte)] *)
Definition NewFromBinary (data : bytes) : outcome message :=
  m ← wrapf "failed to unmarshal message wrapper" (Unmarshal data);
  typedMessageFromPb m.
End Wire.

(** *** Their methods *)

(** [ClientID], [Sequence] and [Operation] of a [request] read [pbMsg] by its getters, which
    return the zero value for a nil pointer; [Signature] reads the field. *)
Definition request_ClientID (m : request) : N := from_option pbq_ClientId 0 (rq_pbMsg m).
Definition request_Sequence (m : request) : N := from_option pbq_Seq 0 (rq_pbMsg m).
Definition request_Operation (m : request) : bytes := from_option pbq_Operation [] (rq_pbMsg m).
Definition request_Signature (m : request) : outcome bytes :=
  match rq_pbMsg m with
  | None => Panic "nil pointer dereference"
  | Some q => OK (pbq_Signature q)
  end.

(** What the methods of a message return, read to any depth *)
Definition requestOf (m : request) : outcome Request :=
  sig ← request_Signature m;
  OK (MkRequest (request_ClientID m) (request_Sequence m) (request_Operation m) sig).
Definition replyOf (m : pbReply) : Reply :=
  MkReply (pbr_ReplicaId m) (pbr_ClientId m) (pbr_Seq m) (pbr_Result m) (pbr_Signature m).
Definition reqViewChangeOf (m : pbReqViewChange) : ReqViewChange :=
  MkReqViewChange (pbv_ReplicaId m) (pbv_NewView m) (pbv_Signature m).

Definition certifiedOf (m : Message) : outcome CertifiedMessage :=
  match m with Msg_Certified cm => OK cm | _ => Panic "not a certified message" end.

Section NestedOf.
Context (apiOf : message → outcome Message).

Definition commitOf (m : commit) : outcome Commit :=
  match m with
  | MkCommitImpl (MkPbCommit r _ _) prop ui =>
      prop ← apiOf prop; prop ← certifiedOf prop; OK (MkCommit r prop ui)
  end.

Definition viewChangeOf (m : viewChange) : outcome ViewChange :=
  match m with
  | MkViewChangeImpl (MkPbViewChange r v _ _ _) log vcCert ui =>
      log ← mapO (λ m, apiOf m ≫= certifiedOf) log;
      OK (MkViewChange r v log (map reqViewChangeOf vcCert) ui)
  end.

Definition newViewOf (m : newView) : outcome NewView :=
  match m with
  | MkNewViewImpl (MkPbNewView r v _ _) nvCert ui =>
      cert ← mapO viewChangeOf nvCert; OK (MkNewView r v cert ui)
  end.
End NestedOf.

Fixpoint apiOf (m : message) : outcome Message :=
  match m with
  | I_Hello r => OK (Msg_Hello r)
  | I_Request m => r ← requestOf m; OK (Msg_Request r)
  | I_Reply m => OK (Msg_Reply (replyOf m))
  | I_ReqViewChange m => OK (Msg_ReqViewChange (reqViewChangeOf m))
  | I_Prepare (MkPrepareImpl pbMsg req ui) =>
      r ← requestOf req;
      OK (Msg_Certified (CM_Prepare (MkPrepare (pbp_ReplicaId pbMsg) (pbp_View pbMsg) r ui)))
  | I_Commit m => c ← commitOf apiOf m; OK (Msg_Certified (CM_Commit c))
  | I_ViewChange m => vc ← viewChangeOf apiOf m; OK (Msg_Certified (CM_ViewChange vc))
  | I_NewView m => nv ← newViewOf apiOf m; OK (Msg_Certified (CM_NewView nv))
  end.

(** ** Induction on Protobuf messages *)

Section Pb_induction.
Context (P : pbMessage → Prop).
Context (Hunset : P Pb_Unset) (Hhello : ∀ r, P (Pb_Hello r)) (Hreq : ∀ m, P (Pb_Request m))
  (Hrep : ∀ m, P (Pb_Reply m)) (Hprep : ∀ m, P (Pb_Prepare m)) (Hrvc : ∀ m, P (Pb_ReqViewChange m)).
Context (Hcomm : ∀ r prop ui, match prop with Some p => P p | None => True end →
  P (Pb_Commit (MkPbCommit r prop ui))).
Context (Hvc : ∀ r v log cert ui, Forall P log → P (Pb_ViewChange (MkPbViewChange r v log cert ui))).
Context (Hnv : ∀ r v cert ui, Forall (λ vc, P (Pb_ViewChange vc)) cert →
  P (Pb_NewView (MkPbNewView r v cert ui))).

Fixpoint Pb_ind (m : pbMessage) : P m :=
  match m with
  | Pb_Unset => Hunset
  | Pb_Hello r => Hhello r
  | Pb_Request m => Hreq m
  | Pb_Reply m => Hrep m
  | Pb_Prepare m => Hprep m
  | Pb_ReqViewChange m => Hrvc m
  | Pb_Commit (MkPbCommit r prop ui) =>
      Hcomm r prop ui (match prop with Some p => Pb_ind p | None => I end)
  | Pb_ViewChange vc => PbVC_ind vc
  | Pb_NewView (MkPbNewView r v cert ui) =>
      Hnv r v cert ui
        ((fix go (l : list pbViewChange) : Forall (λ vc, P (Pb_ViewChange vc)) l :=
            match l with
            | [] => @List.Forall_nil _ _
            | vc :: l => List.Forall_cons _ vc l (PbVC_ind vc) (go l)
            end) cert)
  end
with PbVC_ind (vc : pbViewChange) : P (Pb_ViewChange vc) :=
  match vc with
  | MkPbViewChange r v log cert ui =>
      Hvc r v log cert ui
        ((fix go (l : list pbMessage) : Forall P l :=
            match l with
            | [] => @List.Forall_nil _ _
            | m :: l => List.Forall_cons _ m l (Pb_ind m) (go l)
            end) log)
  end.
End Pb_induction.

(** Every Commit, at any depth, has a proposal. *)
Fixpoint pb_complete (m : pbMessage) : bool :=
  match m with
  | Pb_Commit (MkPbCommit _ prop _) => match prop with Some p => pb_complete p | None => false end
  | Pb_ViewChange vc => pbvc_complete vc
  | Pb_NewView (MkPbNewView _ _ cert _) => forallb pbvc_complete cert
  | _ => true
  end
with pbvc_complete (vc : pbViewChange) : bool :=
  match vc with MkPbViewChange _ _ log _ _ => forallb pb_complete log end.

Definition isSome {A} (o : option A) : bool := match o with Some _ => true | None => false end.

(** The Request of every Prepare, at any depth, is set (and a Request itself). *)
Fixpoint pb_requests_set (m : pbMessage) : bool :=
  match m with
  | Pb_Request q => isSome q
  | Pb_Prepare m => isSome (pbp_Request m)
  | Pb_Commit (MkPbCommit _ prop _) => match prop with Some p => pb_requests_set p | None => true end
  | Pb_ViewChange vc => pbvc_requests_set vc
  | Pb_NewView (MkPbNewView _ _ cert _) => forallb pbvc_requests_set cert
  | _ => true
  end
with pbvc_requests_set (vc : pbViewChange) : bool :=
  match vc with MkPbViewChange _ _ log _ _ => forallb pb_requests_set log end.

(** ** Round trip *)

Lemma uiFromPb_OK b ui : uiFromPb b = OK ui ↔ UI_ok ui ∧ b = Usig.MustMarshalUI ui.
Proof.
  unfold uiFromPb. rewrite wrapf_OK. split.
  - intros H%Usig.UnmarshalBinary_OK. naive_solver.
  - intros [H ->]. by apply Usig.UnmarshalBinary_MarshalBinary.
Qed.

Lemma asCertified_OK msg m m' : asCertified msg m = OK m' ↔ m' = m ∧ isCertified m = true.
Proof. unfold asCertified. destruct (isCertified m); naive_solver. Qed.

(** A view-change certificate is converted without a change. *)
Lemma viewChangeCertFromPb_OK l : viewChangeCertFromPb l = OK l.
Proof. apply mapO_OK. induction l; by constructor. Qed.

Lemma reqViewChange_inv l : map reqViewChangeOf (map ReqViewChangeFromAPI l) = l.
Proof. induction l as [|[] l IH]; simpl; [done|]. by rewrite IH. Qed.
Lemma reqViewChange_inv' l : map ReqViewChangeFromAPI (map reqViewChangeOf l) = l.
Proof. induction l as [|[] l IH]; simpl; [done|]. by rewrite IH. Qed.

(** *** Every message has a form that is accepted and read as that message *)

(** [f] takes [g y] to something that [h] reads as [y]. *)
Definition gives {A B C} (f : A → outcome B) (h : B → outcome C) (g : C → A) (y : C) : Prop :=
  ∃ x, f (g y) = OK x ∧ h x = OK y.

Lemma mapO_gives {A B C} (f : A → outcome B) (h : B → outcome C) (g : C → A) l :
  Forall (gives f h g) l → gives (mapO f) (mapO h) (map g) l.
Proof.
  induction 1 as [|y l (x & Hf & Hh) _ (l' & Hfl & Hhl)]; [by exists []|].
  exists (x :: l'). simpl. by rewrite Hf, Hfl, Hh, Hhl.
Qed.

Ltac split_ok := repeat match goal with
  | H : Is_true (_ && _) |- _ => apply andb_prop_elim in H as [? ?]
  end.

Lemma certified_given m :
  cm_ok m → gives (λ pb, typedMessageFromPb pb ≫= asCertified "unexpected message type")
              (λ o, apiOf o ≫= certifiedOf) certifiedFromAPI m.
Proof.
  induction m as [p|r prop ui IH|r v log cert ui IH|r v cert ui IH] using CM_ind; simpl; intros Hok; unfold gives.
  - destruct p as [r v [] ui]. unfold prep_ok in Hok; simpl in *. split_ok.
    unfold newPrepareFromPb. simpl. rewrite (proj2 (uiFromPb_OK _ ui)) by done. by eexists.
  - split_ok. destruct IH as (o & (m & Hm & [-> Hc]%asCertified_OK)%outcome_bind_OK &
      (a & Ha & Hcm)%outcome_bind_OK); [done|].
    cbn [certifiedFromAPI CommitFromAPI typedMessageFromPb newCommitFromPb]. rewrite Hm. cbn.
    rewrite (proj2 (asCertified_OK "unexpected proposal message type" m m)) by done. cbn. rewrite (proj2 (uiFromPb_OK _ ui)) by done. cbn.
    eexists. split; [done|]. cbn. rewrite Ha. cbn. by rewrite Hcm.
  - split_ok. destruct (mapO_gives (λ pb, typedMessageFromPb pb ≫= asCertified "unexpected message type")
      (λ o, apiOf o ≫= certifiedOf) certifiedFromAPI log) as (log' & Hl & Hl').
    { apply Forall_forall. intros m Hm. rewrite Forall_forall in IH. apply IH; [done|].
      by eapply (forallb_elem_of cm_ok). }
    cbn. rewrite (proj2 (uiFromPb_OK _ ui)) by done. cbn.
    unfold messageLogFromPb, messageLogFromAPI. rewrite Hl. cbn. rewrite viewChangeCertFromPb_OK. cbn.
    eexists. split; [done|]. cbn. rewrite Hl'. cbn. unfold viewChangeCertFromAPI. by rewrite reqViewChange_inv.
  - split_ok. destruct (mapO_gives (newViewChangeFromPb typedMessageFromPb) (viewChangeOf apiOf)
      (ViewChangeFromAPI certifiedFromAPI) cert) as (cert' & Hl & Hl').
    { apply Forall_forall. intros vc Hvc. rewrite Forall_forall in IH.
      destruct (IH vc Hvc) as (o & Ho & Ha); [by eapply (forallb_elem_of vc_ok)|]. simpl in Ho.
      apply outcome_bind_OK in Ho as (o' & (vc' & Hvc' & [= <-])%outcome_bind_OK & [-> _]%asCertified_OK).
      exists vc'. split; [done|]. simpl in Ha. destruct (viewChangeOf apiOf vc'); simpl in Ha; by simplify_eq. }
    cbn. rewrite (proj2 (uiFromPb_OK _ ui)) by done. cbn.
    unfold newViewCertFromPb, newViewCertFromAPI. rewrite Hl. cbn. eexists. split; [done|]. cbn. by rewrite Hl'.
Qed.

Lemma message_given m : msg_ok m → gives typedMessageFromPb apiOf pbOf m.
Proof.
  destruct m as [r|[]|[]|[]|cm]; simpl; intros Hok; try by eexists.
  destruct (certified_given cm Hok) as (o & (o' & Ho & [-> _]%asCertified_OK)%outcome_bind_OK & Ha).
  exists o'. split; [done|]. apply outcome_bind_OK in Ha as (a & -> & Ha). by destruct a; simplify_eq/=.
Qed.

(** *** What is accepted is the form of what is read from it, if that can be read *)

Definition reads {C} (set : bool) (canonical : C → Prop) (o : outcome C) : Prop :=
  match o with OK z => set = true ∧ canonical z | Panic _ => set = false | Error _ => False end.

Lemma reads_bind {C D} set (Q : C → Prop) (Q' : D → Prop) (o : outcome C) (k : C → D) :
  reads set Q o → (∀ z, Q z → Q' (k z)) → reads set Q' (z ← o; OK (k z)).
Proof. destruct o; simpl; naive_solver. Qed.

Lemma mapO_reads {A B C} (f : A → outcome B) (h : B → outcome C) (g : C → A) (set : A → bool) l l' :
  Forall (λ x, ∀ y, f x = OK y → reads (set x) (λ z, x = g z) (h y)) l → mapO f l = OK l' →
  reads (forallb set l) (λ z, l = map g z) (mapO h l').
Proof.
  intros Hl. revert l'. induction Hl as [|x l Hx _ IH]; intros l' Hm%mapO_OK; inversion Hm as [|? y ? k Hy Hk]; subst;
    [done|]. specialize (Hx y Hy). apply mapO_OK in Hk. specialize (IH k Hk). simpl.
  destruct (h y) as [z| |]; simpl in *; [|done|by rewrite Hx].
  destruct Hx as [-> ->]. destruct (mapO h k); simpl in *; [|done|done]. by destruct IH as [-> <-].
Qed.

Lemma requestOf_reads q : reads (isSome q) (λ r, q = Some (RequestFromAPI r)) (requestOf (MkRequestImpl q)).
Proof. by destruct q as [[]|]. Qed.

(** A message of the package that is certified is read as one. *)
Lemma apiOf_certified o set (Q : Message → Prop) (Q' : CertifiedMessage → Prop) :
  isCertified o = true → reads set Q (apiOf o) → (∀ cm, Q (Msg_Certified cm) → Q' cm) →
  reads set Q' (apiOf o ≫= certifiedOf).
Proof.
  intros Hc Hr HQ. destruct (apiOf o) as [m| |] eqn:E; simpl in *; [|done..].
  assert (∃ cm, m = Msg_Certified cm) as [cm ->]; [|naive_solver].
  destruct o as [|?|?|?|[]|?|?|?]; try done; cbn in E; apply outcome_bind_OK in E as (? & _ & [= <-]); eauto.
Qed.

Lemma accepted_reads pb o :
  typedMessageFromPb pb = OK o → reads (pb_requests_set pb) (λ m, pb = pbOf m) (apiOf o).
Proof.
  revert o. induction pb as [|r|q|q|q|q|r prop ui IH|r v log cert ui IH|r v cert ui IH] using Pb_ind; intros o.
  - done.
  - by intros [= <-].
  - intros [= <-]. eapply reads_bind; [apply requestOf_reads|]. by intros r ->.
  - intros [= <-]. by destruct q.
  - intros (p & (req & [= <-]%wrapf_OK & (ui & [_ Hui]%uiFromPb_OK & [= <-])%outcome_bind_OK)%outcome_bind_OK
      & [= <-])%outcome_bind_OK.
    eapply reads_bind; [apply requestOf_reads|]. intros r Hr. destruct q; simpl in *. by subst.
  - intros [= <-]. by destruct q.
  - intros (c & (m' & Hm'%wrapf_OK & (cm & [-> Hc]%asCertified_OK & (u & [_ ->]%uiFromPb_OK & [= <-])%outcome_bind_OK)%outcome_bind_OK)%outcome_bind_OK & [= <-])%outcome_bind_OK.
    destruct prop as [prop|]; [|done]. specialize (IH _ Hm').
    pose proof (apiOf_certified m' _ _ (λ cm, prop = certifiedFromAPI cm) Hc IH ltac:(done)) as H.
    simpl. destruct (apiOf m') as [a| |]; simpl in *; [|done..].
    destruct (certifiedOf a); simpl in *; [|done..]. by destruct H as [-> ->].
  - intros (vc & (u & [_ ->]%uiFromPb_OK & (log' & Hl%wrapf_OK & (cert' & Hcert%wrapf_OK & [= <-])%outcome_bind_OK)%outcome_bind_OK)%outcome_bind_OK & [= <-])%outcome_bind_OK.
    rewrite viewChangeCertFromPb_OK in Hcert. injection Hcert as <-.
    apply (mapO_reads _ (λ o, apiOf o ≫= certifiedOf) certifiedFromAPI pb_requests_set) in Hl.
    + simpl. destruct (mapO _ log') as [l| |]; simpl in *; [|done..]. destruct Hl as [-> ->].
      split; [done|]. unfold viewChangeCertFromAPI. by rewrite reqViewChange_inv'.
    + eapply Forall_impl; [exact IH|]. intros x Hx y (m' & Hm' & [-> Hc]%asCertified_OK)%outcome_bind_OK.
      eapply apiOf_certified; [done|by apply Hx|done].
  - cbn [typedMessageFromPb newNewViewFromPb]. intros (nv & (u & [_ ->]%uiFromPb_OK & (cert' & Hl%wrapf_OK & [= <-])%outcome_bind_OK)%outcome_bind_OK & [= <-])%outcome_bind_OK.
    apply (mapO_reads _ (viewChangeOf apiOf) (ViewChangeFromAPI certifiedFromAPI) pbvc_requests_set) in Hl.
    + simpl. destruct (mapO _ cert') as [l| |]; simpl in *; [|done..]. by destruct Hl as [-> ->].
    + eapply Forall_impl; [exact IH|]. intros x Hx y Hy.
      assert (typedMessageFromPb (Pb_ViewChange x) = OK (I_ViewChange y)) as Ht by (simpl; by rewrite Hy).
      specialize (Hx _ Ht). simpl in Hx. destruct (viewChangeOf apiOf y); simpl in *; naive_solver.
Qed.

(** A message of the package keeps the Protobuf message it was made from. *)
Lemma accepted_kept pb o : typedMessageFromPb pb = OK o → pbMessageFromAPI o = pb.
Proof.
  destruct pb as [|r|q|q|q|[r prop ui]|q|[r v log cert ui]|[r v cert ui]]; simpl; try done.
  1-3, 6: by intros [= <-].
  - intros (p & (req & _ & (ui & _ & [= <-])%outcome_bind_OK)%outcome_bind_OK & [= <-])%outcome_bind_OK. done.
  - intros (c & (? & _ & (? & _ & (? & _ & [= <-])%outcome_bind_OK)%outcome_bind_OK)%outcome_bind_OK & [= <-])%outcome_bind_OK.
    done.
  - intros (c & (? & _ & (? & _ & (? & _ & [= <-])%outcome_bind_OK)%outcome_bind_OK)%outcome_bind_OK & [= <-])%outcome_bind_OK.
    done.
  - intros (c & (? & _ & (? & _ & [= <-])%outcome_bind_OK)%outcome_bind_OK & [= <-])%outcome_bind_OK. done.
Qed.

(** *** Absence of panics *)

Lemma uiFromPb_no_panic b : isPanic (uiFromPb b) = false.
Proof.
  unfold uiFromPb. rewrite wrapf_isPanic. unfold Usig.UnmarshalBinary.
  pose proof (get64_no_panic b). by destruct (get64 b) as [[]| |].
Qed.

Lemma asCertified_no_panic msg m : isPanic (asCertified msg m) = false.
Proof. unfold asCertified. by destruct (isCertified m). Qed.

Lemma isPanic_wrapf_bind {A B} msg (o : outcome A) (k : A → outcome B) :
  isPanic o = false → (∀ a, isPanic (k a) = false) → isPanic (wrapf msg o ≫= k) = false.
Proof. intros Ho Hk. apply isPanic_bind; [by rewrite wrapf_isPanic|done]. Qed.

Lemma mapO_no_panic {A B} (f : A → outcome B) l :
  (∀ x, x ∈ l → isPanic (f x) = false) → isPanic (mapO f l) = false.
Proof.
  intros Hf. destruct (isPanic (mapO f l)) eqn:E; [|done].
  destruct (mapO_panic f l) as (x & Hin & Hx); [by rewrite E|]. by rewrite Hf in Hx.
Qed.

Lemma fromPb_no_panic pb : pb_complete pb → isPanic (typedMessageFromPb pb) = false.
Proof.
  induction pb as [|r|q|q|q|q|r prop ui IH|r v log cert ui IH|r v cert ui IH] using Pb_ind; simpl;
    intros Hc; try done.
  - unfold newPrepareFromPb. pose proof (uiFromPb_no_panic (pbp_Ui q)). by destruct (uiFromPb _).
  - apply isPanic_bind; [|done]. destruct prop as [prop|]; [|done]. apply isPanic_wrapf_bind; [by apply IH|intros m].
    apply isPanic_bind; [apply asCertified_no_panic|intros cm].
    apply isPanic_bind; [apply uiFromPb_no_panic|done].
  - apply isPanic_bind; [|done]. apply isPanic_bind; [apply uiFromPb_no_panic|intros u].
    apply isPanic_wrapf_bind; [|intros l; by rewrite viewChangeCertFromPb_OK].
    apply mapO_no_panic. intros x Hx. apply isPanic_bind; [|intros; apply asCertified_no_panic].
    rewrite Forall_forall in IH. apply (IH x Hx). by eapply forallb_elem_of.
  - apply isPanic_bind; [|done].
    apply isPanic_bind; [apply uiFromPb_no_panic|intros u]. apply isPanic_wrapf_bind; [|done].
    apply mapO_no_panic. intros x Hx. rewrite Forall_forall in IH.
    specialize (IH x Hx ltac:(by eapply (forallb_elem_of pbvc_complete))).
    simpl in IH. by destruct (newViewChangeFromPb _ x).
Qed.

(** C36: Protobuf round trip, nested messages included.  The Protobuf form of a message whose
    integer fields are in range is accepted, and what is made of it reads as that message.
    And of any Protobuf message that is accepted: marshaling what is made of it gives it
    back; if it reads as a message, it is that message's form; and it can be read unless the
    Request of a Prepare, at any depth, is not set (or it is itself a Request that is not
    set), in which case reading the signature panics.  So the accepted Protobuf messages
    are the forms of messages, and the ones in which a Request is missing. *)
Theorem protobuf_roundtrip :
  (∀ m, msg_ok m → ∃ o, typedMessageFromPb (pbOf m) = OK o ∧ apiOf o = OK m) ∧
  (∀ pb o, typedMessageFromPb pb = OK o →
     pbMessageFromAPI o = pb ∧
     (∀ m, apiOf o = OK m → pb = pbOf m) ∧
     (if pb_requests_set pb then isOK (apiOf o) = true else isPanic (apiOf o) = true)).
Proof.
  split; [apply message_given|]. intros pb o Ho. split; [by apply accepted_kept|].
  pose proof (accepted_reads pb o Ho) as Hr. destruct (apiOf o); simpl in Hr; [|done|].
  - destruct Hr as [-> Hr]. naive_solver.
  - by rewrite Hr.
Qed.

(** A Commit to a Prepare, and a Prepare in which the Request is not set. *)
Definition exampleCommit : Message :=
  Msg_Certified (CM_Commit (MkCommit 1 (CM_Prepare (MkPrepare 0 0 (MkRequest 7 1 [] []) (MkUI 1 []))) (MkUI 4 []))).
Definition barePrepare : pbPrepare := MkPbPrepare 0 0 None (Usig.MustMarshalUI (MkUI 1 [])).

Lemma protobuf_roundtrip_witness :
  (∃ o, typedMessageFromPb (pbOf exampleCommit) = OK o ∧ apiOf o = OK exampleCommit) ∧
  isPanic (apiOf (I_Prepare (MkPrepareImpl barePrepare (MkRequestImpl None) (MkUI 1 [])))) = true.
Proof.
  split; [apply (proj1 protobuf_roundtrip); exact I|].
  exact (proj2 (proj2 (proj2 protobuf_roundtrip (Pb_Prepare barePrepare)
    (I_Prepare (MkPrepareImpl barePrepare (MkRequestImpl None) (MkUI 1 []))) eq_refl))).
Defined.

(** Unmarshaling panics only on a Commit without a proposal, and does so on
    the plainest one: a Protobuf message in which every Commit, at any depth, has
    its proposal set is converted without a panic, whatever its other fields; a
    Commit whose proposal is not set makes [typedMessageFromPb] dereference a nil
    pointer.  The proposal field is optional on the wire, so the peer chooses. *)
Theorem unmarshal_panic pb r ui :
  (pb_complete pb → isPanic (typedMessageFromPb pb) = false) ∧
  isPanic (typedMessageFromPb (Pb_Commit (MkPbCommit r None ui))) = true.
Proof. split; [apply fromPb_no_panic|done]. Qed.

Lemma unmarshal_panic_witness :
  isPanic (typedMessageFromPb (Pb_Commit (MkPbCommit 0 (Some Pb_Unset) []))) = false.
Proof. apply (unmarshal_panic (Pb_Commit (MkPbCommit 0 (Some Pb_Unset) [])) 0 []). exact I. Defined.

(** A Prepare whose Request is not set is accepted, whatever its replica and view, if its UI
    can be unmarshaled; reading the signature of its Request then panics. *)
Theorem prepare_without_request r v ui :
  UI_ok ui →
  ∃ p, newPrepareFromPb (MkPbPrepare r v None (Usig.MustMarshalUI ui)) = OK p ∧
    isPanic (request_Signature (pr_req p)) = true.
Proof.
  intros Hui. unfold newPrepareFromPb. cbn. rewrite (proj2 (uiFromPb_OK _ ui)) by done. by eexists.
Qed.

Lemma prepare_without_request_witness :
  ∃ p, newPrepareFromPb (MkPbPrepare 0 0 None (Usig.MustMarshalUI (MkUI 1 []))) = OK p ∧
    isPanic (request_Signature (pr_req p)) = true.
Proof. apply prepare_without_request. exact I. Defined.

(** Wire round trip.  Given a Protobuf library that decodes what it encodes, what is made of
    data that [MarshalBinary] of an accepted message gave is accepted again, and keeps the
    same Protobuf message. *)
Theorem wire_roundtrip (Marshal : pbMessage → outcome bytes) (Unmarshal : bytes → outcome pbMessage) pb o data :
  (∀ pb b, Marshal pb = OK b → Unmarshal b = OK pb) →
  typedMessageFromPb pb = OK o → MarshalBinary Marshal o = OK data → NewFromBinary Unmarshal data = OK o.
Proof.
  intros Hwire Ho Hm. unfold NewFromBinary. rewrite (Hwire _ _ Hm). simpl. by rewrite (accepted_kept pb o).
Qed.

(** A library that encodes Hello messages only. *)
Definition helloMarshal (m : pbMessage) : outcome bytes :=
  match m with
  | Pb_Hello r => if r <? 2 ^ 64 then OK (put64 r) else Error (Errorf "range")
  | _ => Error (Errorf "unsupported")
  end.
Definition helloUnmarshal (b : bytes) : outcome pbMessage :=
  '(r, _) ← get64 b; OK (Pb_Hello r).

Lemma wire_roundtrip_witness : NewFromBinary helloUnmarshal (put64 3) = OK (I_Hello 3).
Proof.
  apply (wire_roundtrip helloMarshal helloUnmarshal (Pb_Hello 3) (I_Hello 3) (put64 3)); [|reflexivity..].
  intros pb b. destruct pb as [|r| | | | | | |]; simpl; try done. case_if; [|done]. intros [= <-].
  unfold helloUnmarshal. rewrite <- (app_nil_r (put64 r)), get64_put64; [done|]. by nbool.
Defined.

End Protobuf.
