(* ===== verification/Client.v ===== *)
(** The client ([src/client]) and its request buffer
    ([src/client/internal/requestbuffer/requestbuffer.go]).

    - the buffer: one request with the replies received for it, from distinct
      replicas; [AddRequest], [AddReply], [RemoveRequest], the request stream;
    - [collectReplies]: f+1 matching replies make a result;
    - the client: the goroutines that submit requests, receive replies, collect
      them and stream requests to the replicas, as a step relation.

    A blocking call is one pass of its loop with an explicit answer for "wait".
    [ClientNode] has the goroutines themselves, and termination. *)

From S2P Require Import Prelude Bytes Usig Messages Authen Sha256 Api.

Module Client.

(** ** The request buffer *)

(** [type replySet struct] *)
Record replySet := MkReplySet { rs_replicas : gset N; rs_msgs : list Reply }.

(** [func newReplySet()] *)
Definition newReplySet : replySet := MkReplySet ∅ [].

(** [func (rs *replySet) addReply(msg messages.Reply) bool] *)
Definition addReply (msg : Reply) (rs : replySet) : bool * replySet :=
  if bool_decide (rep_ReplicaID msg ∈ rs_replicas rs) then (false, rs)
  else (true, MkReplySet ({[rep_ReplicaID msg]} ∪ rs_replicas rs) (rs_msgs rs ++ [msg])).

(** [type request struct] and [type T struct] *)
Record request := MkBufRequest { br_msg : Request; br_replies : replySet }.
Record T := MkT { lastSeq : N; buf_request : option request }.

(** [func New() *T] *)
Definition New : T := MkT 0 None.

(** [func newRequest(msg messages.Request) *request] *)
Definition newRequest (msg : Request) : request := MkBufRequest msg newReplySet.

Inductive added := AddWait | AddRejected | Added (rb : T).

(** [func (rb *T) AddRequest(msg, cancel)]: it waits while the buffer holds a request *)
Definition AddRequest (msg : Request) (rb : T) : added :=
  match buf_request rb with
  | Some _ => AddWait
  | None => if req_Sequence msg <=? lastSeq rb then AddRejected
            else Added (MkT (req_Sequence msg) (Some (newRequest msg)))
  end.

(** [func (rb *T) AddReply(msg messages.Reply) bool] *)
Definition AddReply (msg : Reply) (rb : T) : bool * T :=
  match buf_request rb with
  | None => (false, rb)
  | Some r =>
      if negb (req_Sequence (br_msg r) =? rep_Sequence msg) then (false, rb)
      else let '(ok, rs) := addReply msg (br_replies r) in
           (ok, MkT (lastSeq rb) (Some (MkBufRequest (br_msg r) rs)))
  end.

(** [func (rb *T) RemoveRequest(seq uint64)] *)
Definition RemoveRequest (seq : N) (rb : T) : T :=
  match buf_request rb with
  | None => rb
  | Some r => if negb (req_Sequence (br_msg r) =? seq) then rb else MkT (lastSeq rb) None
  end.

(** One pass of [func (rb *T) supplyRequests(ch, cancel)]: the request sent, if
    any; [last] is the local variable [lastSeq]. *)
Definition supplyRequests (last : N) (rb : T) : option Request :=
  match buf_request rb with
  | Some r => if last <? req_Sequence (br_msg r) then Some (br_msg r) else None
  | None => None
  end.

(** ** Collecting replies *)

Abbreviation hash r := (Sha256.sum256 (rep_Result r)).

(** The body of the loop of [collectReplies]: [Some] when the reply completes
    f+1 matching ones. *)
Definition collectOne (f : N) (reply : Reply) (matching : gmap bytes N) :
    option bytes * gmap bytes N :=
  let c := u32_add (default 0 (matching !! hash reply)) 1 in
  let matching := <[hash reply := c]> matching in
  (if f <? c then Some (rep_Result reply) else None, matching).

(** [func collectReplies(f, replyChan, remover, resultChan)]: the result and the
    sequence number given to the remover; [None] while more replies are needed. *)
Fixpoint collectReplies (f : N) (replies : list Reply) (matching : gmap bytes N) :
    option (bytes * N) :=
  match replies with
  | [] => None
  | reply :: replies =>
      match collectOne f reply matching with
      | (Some result, _) => Some (result, rep_Sequence reply)
      | (None, matching) => collectReplies f replies matching
      end
  end.

(** How many of the replies have this hash. *)
Definition votes (h : bytes) (replies : list Reply) : nat :=
  length (filter (λ r, hash r = h) replies).

Lemma votes_cons h r l : votes h (r :: l) = ((if decide (hash r = h) then 1 else 0) + votes h l)%nat.
Proof. unfold votes. rewrite filter_cons. by case_decide. Qed.

Lemma votes_length h l : (votes h l ≤ length l)%nat.
Proof. apply length_filter. Qed.

(** [matching] counts the replies [seen] so far. *)
Definition counts (seen : list Reply) (matching : gmap bytes N) : Prop :=
  ∀ h, default 0 (matching !! h) = N.of_nat (votes h seen).

Lemma votes_snoc h l r : votes h (l ++ [r]) = (votes h l + (if decide (hash r = h) then 1 else 0))%nat.
Proof. unfold votes. rewrite filter_app, length_app, filter_cons, filter_nil. by case_decide. Qed.

Lemma collectOne_counts f r seen matching :
  counts seen matching → N.of_nat (length seen) + 1 < 2 ^ 32 →
  counts (seen ++ [r]) (collectOne f r matching).2 ∧
  (collectOne f r matching).1 =
    if f <? N.of_nat (votes (hash r) (seen ++ [r])) then Some (rep_Result r) else None.
Proof.
  intros Hc Hb. unfold collectOne. rewrite (Hc (hash r)).
  assert (u32_add (N.of_nat (votes (hash r) seen)) 1 = N.of_nat (votes (hash r) (seen ++ [r]))) as ->.
  { rewrite votes_snoc. case_decide; [|done]. pose proof (votes_length (hash r) seen).
    unfold u32_add, u32. lia. }
  split; [|by case_if]. intros h. simpl. destruct (decide (hash r = h)) as [<-|Hne].
  - by rewrite lookup_insert_eq.
  - rewrite lookup_insert_ne by done. rewrite (Hc h), votes_snoc. case_decide; [done|]. f_equal. lia.
Qed.

Lemma collectReplies_spec f replies seen matching :
  counts seen matching → N.of_nat (length (seen ++ replies)) < 2 ^ 32 →
  match collectReplies f replies matching with
  | Some (result, seq) =>
      ∃ r l1 l2, replies = l1 ++ r :: l2 ∧ result = rep_Result r ∧ seq = rep_Sequence r ∧
        f < N.of_nat (votes (hash r) (seen ++ l1 ++ [r])) ∧ collectReplies f l1 matching = None
  | None => ∀ r l1 l2, replies = l1 ++ r :: l2 → N.of_nat (votes (hash r) (seen ++ l1 ++ [r])) ≤ f
  end.
Proof.
  revert seen matching. induction replies as [|r replies IH]; intros seen matching Hc Hb;
    cbn [collectReplies].
  { intros r [|? l1] l2; simpl; discriminate. }
  rewrite length_app in Hb. simpl in Hb.
  destruct (collectOne_counts f r seen matching Hc ltac:(lia)) as [Hc' Hr].
  destruct (collectOne f r matching) as [o matching'] eqn:Eo. simpl in *. subst o.
  destruct (f <? _) eqn:Ev; nbool.
  - exists r, [], replies. done.
  - specialize (IH _ _ Hc' ltac:(rewrite !length_app; simpl; lia)).
    destruct (collectReplies f replies matching') as [[result seq]|].
    + destruct IH as (r' & l1 & l2 & -> & -> & -> & Hv & Hn). exists r', (r :: l1), l2.
      rewrite <- app_assoc in Hv. cbn [collectReplies]. rewrite Eo. done.
    + intros r' [|x l1] l2 [= -> ->]; [done|]. specialize (IH r' l1 l2 eq_refl).
      rewrite <- app_assoc in IH. done.
Qed.

(** A result needs f+1 matching replies, and f+1 matching replies are enough.
    For any stream of less than [2^32] replies, [collectReplies] returns the
    result of the first reply whose hash has then occurred more than [f] times,
    with that reply's sequence number; and it keeps waiting exactly when no hash
    has occurred more than [f] times. *)
Theorem collect_replies_exact f replies :
  N.of_nat (length replies) < 2 ^ 32 →
  match collectReplies f replies ∅ with
  | Some (result, seq) =>
      ∃ r l1 l2, replies = l1 ++ r :: l2 ∧ result = rep_Result r ∧ seq = rep_Sequence r ∧
        f < N.of_nat (votes (hash r) (l1 ++ [r])) ∧
        collectReplies f l1 ∅ = None
  | None => ∀ h, N.of_nat (votes h replies) ≤ f
  end.
Proof.
  intros Hb. assert (counts [] ∅) as H0 by (intros h; by rewrite lookup_empty).
  pose proof (collectReplies_spec f replies [] ∅ H0 Hb) as Hs.
  destruct (collectReplies f replies ∅) as [[result seq]|] eqn:E.
  - exact Hs.
  - intros h. destruct (N.le_gt_cases (N.of_nat (votes h replies)) f) as [|Hgt]; [done|exfalso].
    assert (∃ l1 r l2, replies = l1 ++ r :: l2 ∧ hash r = h ∧ votes h (l1 ++ [r]) = votes h replies)
      as (l1 & r & l2 & -> & Hr & Hv).
    { clear -Hgt. induction replies as [|x l IH] using rev_ind; [unfold votes in Hgt; simpl in Hgt; lia|].
      rewrite votes_snoc in *. case_decide as Hx.
      - exists l, x, []. rewrite votes_snoc. rewrite decide_True by done. done.
      - destruct IH as (l1 & r & l2 & -> & Hr & Hv); [lia|].
        exists l1, r, (l2 ++ [x]). rewrite <- app_assoc. split; [done|]. split; [done|]. lia. }
    specialize (Hs r l1 l2 eq_refl). rewrite Hr in Hs. simpl in Hs. rewrite Hv in Hs. lia.
Qed.

Definition two_replies : list Reply := [MkReply 0 9 1 [] []; MkReply 2 9 1 [] []].

Lemma collect_replies_exact_witness :
  collectReplies 1 two_replies ∅ = Some ([], 1) ∧
  ∃ r l1 l2, two_replies = l1 ++ r :: l2 ∧ [] = rep_Result r ∧ 1 = rep_Sequence r ∧
    1 < N.of_nat (votes (hash r) (l1 ++ [r])) ∧ collectReplies 1 l1 ∅ = None.
Proof.
  assert (collectReplies 1 two_replies ∅ = Some ([], 1)) as E by (vm_compute; reflexivity).
  split; [exact E|].
  pose proof (collect_replies_exact 1 two_replies eq_refl) as H. rewrite E in H. exact H.
Defined.

(** ** The client *)

Section Client.
Context {Au : Type} `{!Authenticator Au}.
Context (id f : N).

(** [c_waiting]: the calls of [Request] that have not passed [AddRequest] yet;
    [c_next] and [c_matching]: the position and the map of the goroutine that
    collects the replies to the request in the buffer; [c_results]: what was
    sent to the result channels, with the request; [c_streams]: for each
    connection the last request sent and the requests sent, latest first. *)
Record client := MkClient {
  c_nextSeq : N; c_authen : Au; c_waiting : list Request; c_buf : T;
  c_next : nat; c_matching : gmap bytes N; c_results : list (Request * bytes);
  c_streams : list (N * list Request) }.

(** [New]: [now] is the Unix time the sequence generator starts from. *)
Definition newClient (n now : N) (au : Au) : client :=
  MkClient (u64 now) au [] New 0 ∅ [] (replicate (N.to_nat n) (0, [])).

(** [makeSequenceGenerator] *)
Definition nextSeq : M client N := λ s,
  (OK (c_nextSeq s), MkClient (u64_succ (c_nextSeq s)) (c_authen s) (c_waiting s) (c_buf s)
                       (c_next s) (c_matching s) (c_results s) (c_streams s)).

(** [makeRequestSigner]; [prepareRequest] ends the process when it fails. *)
Definition signRequest (r : Request) : M client Request := λ s,
  match Authen.AuthenBytes (Msg_Request r) with
  | OK b =>
      let '(o, au) := GenerateMessageAuthenTag ClientAuthen b (c_authen s) in
      (match o with
       | OK sig => OK (req_SetSignature sig r)
       | Error _ => Panic "Failed to sign request message"
       | Panic p => Panic p
       end, MkClient (c_nextSeq s) au (c_waiting s) (c_buf s) (c_next s) (c_matching s)
              (c_results s) (c_streams s))
  | Error e => (Error e, s)
  | Panic p => (Panic p, s)
  end.

(** [prepareRequest] with [makeRequestConstructor] *)
Definition prepareRequest (op : bytes) : M client Request :=
  seq ← nextSeq;
  signRequest (NewRequest id seq op).

(** [submitRequest] up to [AddRequest] *)
Definition submitRequest (op : bytes) : M client unit :=
  r ← prepareRequest op;
  modify (λ s, MkClient (c_nextSeq s) (c_authen s) (c_waiting s ++ [r]) (c_buf s) (c_next s)
                 (c_matching s) (c_results s) (c_streams s)).

(** The call number [i] tries [AddRequest]; when accepted, the goroutine of
    [handleRequest] starts collecting. *)
Definition addWaiting (i : nat) : M client unit := λ s,
  match c_waiting s !! i with
  | None => (OK tt, s)
  | Some r =>
      match AddRequest r (c_buf s) with
      | AddWait => (OK tt, s)
      | AddRejected => (Panic "Request message rejected", s)
      | Added rb => (OK tt, MkClient (c_nextSeq s) (c_authen s) (delete i (c_waiting s)) rb 0 ∅
                              (c_results s) (c_streams s))
      end
  end.

(** [makeReplyAuthenticator] *)
Definition authenticateReply (r : Reply) : outcome unit :=
  if negb (rep_ClientID r =? id) then Error (Errorf "client ID mismatch")
  else b ← Authen.AuthenBytes (Msg_Reply r);
       VerifyMessageAuthenTag (Au := Au) ReplicaAuthen (rep_ReplicaID r) b (rep_Signature r).

(** [makeReplyMessageHandler] with [makeReplyConsumer] *)
Definition handleReply (r : Reply) : M client unit := λ s,
  match authenticateReply r with
  | OK _ => (OK tt, MkClient (c_nextSeq s) (c_authen s) (c_waiting s) (AddReply r (c_buf s)).2 (c_next s)
                      (c_matching s) (c_results s) (c_streams s))
  | Error _ => (OK tt, s)
  | Panic p => (Panic p, s)
  end.

(** [makeIncomingMessageHandler], after unmarshaling: other messages are ignored. *)
Definition handleIncoming (m : Message) : M client unit :=
  match m with Msg_Reply r => handleReply r | _ => mret tt end.

(** [supplyReplies] and [collectReplies], for the next reply in the buffer *)
Definition collectNext : M client unit := λ s,
  match buf_request (c_buf s) with
  | None => (OK tt, s)
  | Some q =>
      match rs_msgs (br_replies q) !! c_next s with
      | None => (OK tt, s)
      | Some reply =>
          match collectOne f reply (c_matching s) with
          | (None, matching) =>
              (OK tt, MkClient (c_nextSeq s) (c_authen s) (c_waiting s) (c_buf s) (S (c_next s))
                        matching (c_results s) (c_streams s))
          | (Some result, _) =>
              (OK tt, MkClient (c_nextSeq s) (c_authen s) (c_waiting s)
                        (RemoveRequest (rep_Sequence reply) (c_buf s)) 0 ∅
                        (c_results s ++ [(br_msg q, result)]) (c_streams s))
          end
      end
  end.

(** [makeOutgoingMessageHandler] of connection [k] *)
Definition sendNext (k : nat) : M client unit := λ s,
  match c_streams s !! k with
  | None => (OK tt, s)
  | Some (last, sent) =>
      match supplyRequests last (c_buf s) with
      | None => (OK tt, s)
      | Some r => (OK tt, MkClient (c_nextSeq s) (c_authen s) (c_waiting s) (c_buf s) (c_next s)
                            (c_matching s) (c_results s)
                            (<[k := (req_Sequence r, r :: sent)]> (c_streams s)))
      end
  end.

Inductive client_action :=
| DoRequest (op : bytes)
| DoAdd (i : nat)
| DoReceive (m : Message)
| DoCollect
| DoSend (k : nat).

Definition act (a : client_action) : M client unit :=
  match a with
  | DoRequest op => submitRequest op
  | DoAdd i => addWaiting i
  | DoReceive m => handleIncoming m
  | DoCollect => collectNext
  | DoSend k => sendNext k
  end.

(** Runs in which the calls of [Request] pass [AddRequest] in any order ... *)
Inductive client_step : client → client → Prop :=
| client_act a s s' o : act a s = (o, s') → isPanic o = false → client_step s s'.

(** ... and in the order in which they were made, before the [uint64] of the
    sequence generator wraps around. *)
Inductive fifo_step : client → client → Prop :=
| fifo_act a s s' o :
    act a s = (o, s') → isPanic o = false → (∀ i, a = DoAdd i → i = 0%nat) →
    c_nextSeq s ≤ c_nextSeq s' → fifo_step s s'.

(** ** Results *)

(** What the replicas and the network can deliver. *)
Context (received : Reply → Prop).

Inductive net_step : client → client → Prop :=
| net_act a s s' o :
    act a s = (o, s') → isPanic o = false → (∀ r, a = DoReceive (Msg_Reply r) → received r) →
    net_step s s'.

(** A received reply to request [req] of this client, authenticated as from its replica. *)
Definition genuine (req : Request) (r : Reply) : Prop :=
  received r ∧ rep_ClientID r = id ∧ rep_Sequence r = req_Sequence req ∧ authenticateReply r = OK tt.

(** More than [f] replicas sent a genuine reply with this result (up to a
    collision of SHA-256). *)
Definition backed (req : Request) (result : bytes) : Prop :=
  ∃ R : gset N, f + 1 ≤ N.of_nat (size R) ∧
    ∀ i, i ∈ R → ∃ r, genuine req r ∧ rep_ReplicaID r = i ∧ hash r = Sha256.sum256 result.

Record client_inv (s : client) : Prop := {
  ci_replies : ∀ q, buf_request (c_buf s) = Some q →
    Forall (genuine (br_msg q)) (rs_msgs (br_replies q)) ∧
    NoDup (rep_ReplicaID <$> rs_msgs (br_replies q)) ∧
    rs_replicas (br_replies q) = list_to_set (rep_ReplicaID <$> rs_msgs (br_replies q)) ∧
    (∀ h, default 0 (c_matching s !! h) ≤ N.of_nat (votes h (take (c_next s) (rs_msgs (br_replies q)))));
  ci_results : Forall (λ x, backed x.1 x.2) (c_results s) }.

Lemma client_inv_same s s' :
  c_buf s = c_buf s' → c_next s = c_next s' → c_matching s = c_matching s' → c_results s = c_results s' →
  client_inv s → client_inv s'.
Proof. intros E1 E2 E3 E4 [H1 H2]. constructor; rewrite <- ?E1, <- ?E2, <- ?E3, <- ?E4; auto. Qed.

(** Replies from distinct replicas with one hash back their result. *)
Lemma votes_backed req msgs result :
  Forall (genuine req) msgs → NoDup (rep_ReplicaID <$> msgs) →
  f < N.of_nat (votes (Sha256.sum256 result) msgs) → backed req result.
Proof.
  intros Hg Hd Hv. set (l := filter (λ r, hash r = Sha256.sum256 result) msgs).
  exists (list_to_set (rep_ReplicaID <$> l)). split.
  - rewrite size_list_to_set.
    + rewrite length_fmap. unfold votes in Hv. fold l in Hv. lia.
    + eapply sublist_NoDup; [apply Hd|]. apply fmap_sublist, sublist_filter.
  - intros i (r & -> & Hr)%elem_of_list_to_set%list_elem_of_fmap.
    apply list_elem_of_filter in Hr as [Hh Hr]. exists r. rewrite Forall_forall in Hg. eauto.
Qed.

Lemma handleReply_inv r s : received r → client_inv s → client_inv (handleReply r s).2.
Proof.
  intros Hrec [H1 H2]. unfold handleReply.
  destruct (authenticateReply r) as [[]|e|p] eqn:Ea; [|by constructor..]. simpl. constructor; simpl; [|done].
  intros q. unfold AddReply. destruct (buf_request (c_buf s)) as [q0|] eqn:Eb; [|simpl; by rewrite Eb].
  specialize (H1 q0 eq_refl) as (Hg & Hd & Hr & Hm).
  destruct (N.eqb_spec (req_Sequence (br_msg q0)) (rep_Sequence r)) as [Hs|Hs]; simpl.
  2: { rewrite Eb. intros [= <-]. done. }
  unfold addReply. case_bool_decide as Hin; simpl; intros [= <-]; simpl; [done|].
  rewrite Hr, elem_of_list_to_set in Hin. split_and!.
  - apply Forall_app. split; [done|]. constructor; [|constructor].
    split_and!; [done| |done|done]. unfold authenticateReply in Ea.
    destruct (N.eqb_spec (rep_ClientID r) id); [done|]. by simpl in Ea.
  - rewrite fmap_app. apply NoDup_app. split; [done|]. split; [set_solver|]. apply NoDup_singleton.
  - rewrite Hr, fmap_app. set_solver.
  - intros h. etrans; [apply Hm|]. unfold votes. rewrite take_app, filter_app, length_app. lia.
Qed.

Lemma collectNext_inv s : client_inv s → client_inv (collectNext s).2.
Proof.
  intros Hi. pose proof Hi as [H1 H2]. unfold collectNext.
  destruct (buf_request (c_buf s)) as [q|] eqn:Eb; [|done].
  destruct (rs_msgs (br_replies q) !! c_next s) as [r|] eqn:Er; [|done].
  destruct (H1 q eq_refl) as (Hg & Hd & Hr & Hm). unfold collectOne.
  set (c := u32_add (default 0 (c_matching s !! hash r)) 1).
  assert (c ≤ N.of_nat (votes (hash r) (take (S (c_next s)) (rs_msgs (br_replies q))))) as Hc.
  { erewrite take_S_r by done. rewrite votes_snoc, decide_True by done. specialize (Hm (hash r)).
    unfold c, u32_add, u32. pose proof (N.Div0.mod_le (default 0 (c_matching s !! hash r) + 1) (2 ^ 32)). lia. }
  destruct (N.ltb_spec f c) as [Hf|Hf]; simpl.
  - constructor; simpl.
    + intros q'. unfold RemoveRequest. rewrite Eb.
      rewrite Forall_forall in Hg. destruct (Hg r) as (_ & _ & Hseq & _).
      { apply list_elem_of_lookup. eauto. }
      rewrite Hseq, N.eqb_refl. simpl. done.
    + apply Forall_app. split; [done|]. constructor; [|constructor]. simpl.
      apply (votes_backed _ (rs_msgs (br_replies q))); [done|done|].
      pose proof (take_drop (S (c_next s)) (rs_msgs (br_replies q))) as Htd.
      rewrite <- Htd. unfold votes in *. rewrite filter_app, length_app. lia.
  - constructor; simpl; [|done]. rewrite Eb. intros q' [= <-]. split_and!; try done.
    intros h. destruct (decide (hash r = h)) as [<-|Hne].
    + by rewrite lookup_insert_eq.
    + rewrite lookup_insert_ne by done. erewrite take_S_r by done.
      rewrite votes_snoc, decide_False by done. specialize (Hm h). lia.
Qed.

Lemma act_inv a s :
  (∀ r, a = DoReceive (Msg_Reply r) → received r) → client_inv s → client_inv (act a s).2.
Proof.
  intros Hrec Hi. destruct a as [op|i|m| |k]; simpl.
  - unfold submitRequest, prepareRequest, signRequest, nextSeq, mbind, M_bind. simpl.
    destruct (GenerateMessageAuthenTag _ _ _) as [[sig|e|p] au]; simpl; by eapply client_inv_same; [..|exact Hi].
  - unfold addWaiting. destruct (c_waiting s !! i) as [r|]; [|done].
    unfold AddRequest. destruct (buf_request (c_buf s)) eqn:Eb; [done|]. case_if; [done|]. simpl.
    destruct Hi as [_ H2]. constructor; simpl; [|done]. intros q [= <-]. simpl.
    split_and!; [constructor|constructor|done|]. intros h. rewrite lookup_empty. simpl. lia.
  - destruct m; simpl; try done. apply handleReply_inv; auto.
  - by apply collectNext_inv.
  - unfold sendNext. destruct (c_streams s !! k) as [[last sent]|]; [|done].
    destruct (supplyRequests last (c_buf s)); [|done]. by eapply client_inv_same; [..|exact Hi].
Qed.

(** ** Order of requests *)

(** Everything submitted is in sequence: what is waiting, in call order, comes
    after what was added, and the generator is ahead of it. *)
Record fifo_inv (s : client) : Prop := {
  fi_waiting : StronglySorted N.lt (req_Sequence <$> c_waiting s);
  fi_last : Forall (λ q, lastSeq (c_buf s) < q) (req_Sequence <$> c_waiting s);
  fi_next : Forall (λ q, q < c_nextSeq s) (req_Sequence <$> c_waiting s);
  fi_ahead : lastSeq (c_buf s) < c_nextSeq s }.

Lemma sorted_snoc_lt (l : list N) x :
  StronglySorted N.lt l → Forall (λ y, y < x) l → StronglySorted N.lt (l ++ [x]).
Proof.
  induction 1 as [|y l Hl IH Hy]; intros Hf; simpl; [repeat constructor|].
  apply Forall_cons in Hf as [Hyx Hf]. constructor; [auto|].
  apply Forall_app. split; [done|]. by repeat constructor.
Qed.

Lemma lastSeq_AddReply r rb : lastSeq (AddReply r rb).2 = lastSeq rb.
Proof. unfold AddReply. destruct (buf_request rb); [|done]. case_if; [done|]. by destruct (addReply _ _). Qed.
Lemma lastSeq_Remove seq rb : lastSeq (RemoveRequest seq rb) = lastSeq rb.
Proof. unfold RemoveRequest. destruct (buf_request rb); [|done]. by case_if. Qed.

Lemma fifo_inv_same s s' :
  c_waiting s = c_waiting s' → lastSeq (c_buf s) = lastSeq (c_buf s') → c_nextSeq s = c_nextSeq s' →
  fifo_inv s → fifo_inv s'.
Proof. intros E1 E2 E3 [H1 H2 H3 H4]. constructor; rewrite <- ?E1, <- ?E2, <- ?E3; auto. Qed.

(** The generator wraps around after [2^64] requests; up to then: *)
Lemma fifo_act_inv a s s' o :
  act a s = (o, s') → isPanic o = false → (∀ i, a = DoAdd i → i = 0%nat) →
  c_nextSeq s ≤ c_nextSeq s' → fifo_inv s → fifo_inv s'.
Proof.
  intros Ha Ho Hfifo Hle Hi. destruct a as [op|i|m| |k]; simpl in Ha.
  - revert Ha. unfold submitRequest, prepareRequest, signRequest, nextSeq, mbind, M_bind. simpl.
    destruct (GenerateMessageAuthenTag _ _ _) as [[sig|e|p] au]; simpl; intros [= <- <-]; [|done..].
    simpl in *. destruct Hi as [H1 H2 H3 H4].
    assert (c_nextSeq s < u64_succ (c_nextSeq s)) as Hlt.
    { revert Hle. unfold u64_succ, u64. destruct (decide (c_nextSeq s + 1 < 2 ^ 64)); lia. }
    constructor; simpl; rewrite ?fmap_app; simpl; [by apply sorted_snoc_lt|apply Forall_app..|lia].
    + split; [done|]. by repeat constructor.
    + split; [eapply Forall_impl; [exact H3|]; simpl; lia|]. by repeat constructor.
  - rewrite (Hfifo i eq_refl) in Ha. revert Ha. unfold addWaiting.
    destruct (c_waiting s) as [|r rest] eqn:Ew; simpl; [by intros [= <- <-]|].
    unfold AddRequest. destruct (buf_request (c_buf s)) eqn:Eb; [by intros [= <- <-]|].
    case_if; intros [= <- <-]; [done|]. destruct Hi as [H1 H2 H3 H4]. rewrite Ew in *. simpl in *.
    inversion H1; subst. apply Forall_cons in H3 as [H3 H3']. by constructor.
  - destruct m as [| |r| |]; simpl in Ha; try (unfold mret, M_ret in Ha; by simplify_eq).
    revert Ha. unfold handleReply. destruct (authenticateReply r); intros [= <- <-]; try done.
    eapply fifo_inv_same; [..|exact Hi]; simpl; rewrite ?lastSeq_AddReply; done.
  - revert Ha. unfold collectNext. repeat case_match; intros [= <- <-]; try done;
      (eapply fifo_inv_same; [..|exact Hi]; simpl; rewrite ?lastSeq_Remove; done).
  - revert Ha. unfold sendNext. repeat case_match; intros [= <- <-]; try done.
    by eapply fifo_inv_same; [..|exact Hi].
Qed.

Lemma fifo_inv_reachable n now au s :
  0 < now → in_u64 now → rtc fifo_step (newClient n now au) s → fifo_inv s.
Proof.
  intros H0 Hb Hr. eapply (rtc_ind_r fifo_inv); [| |exact Hr].
  - constructor; simpl; [constructor..|]. by rewrite u64_small.
  - intros s1 s2 _ [a s3 s4 o Ha Ho Hf Hle] Hi. by eapply fifo_act_inv.
Qed.

Lemma client_inv_reachable n now au s :
  rtc net_step (newClient n now au) s → client_inv s.
Proof.
  intros Hr. eapply (rtc_ind_r client_inv); [| |exact Hr].
  - constructor; simpl; [done|constructor].
  - intros s1 s2 _ [a s3 s4 o Ha Ho Hr'] Hi. pose proof (act_inv a s3 Hr' Hi) as Hi'. by rewrite Ha in Hi'.
Qed.

(** The requests sent on a connection, latest first. *)
Definition stream_inv (x : N * list Request) : Prop :=
  StronglySorted N.gt (req_Sequence <$> x.2) ∧ Forall (λ q, q ≤ x.1) (req_Sequence <$> x.2).

Lemma act_streams a s : Forall stream_inv (c_streams s) → Forall stream_inv (c_streams (act a s).2).
Proof.
  intros Hi. destruct a as [op|i|m| |k]; simpl.
  - unfold submitRequest, prepareRequest, signRequest, nextSeq, mbind, M_bind. simpl.
    by destruct (GenerateMessageAuthenTag _ _ _) as [[sig|e|p] au].
  - unfold addWaiting. by repeat case_match.
  - destruct m as [| |r| |]; simpl; try done. unfold handleReply. by destruct (authenticateReply r).
  - unfold collectNext. by repeat case_match.
  - unfold sendNext, supplyRequests. destruct (c_streams s !! k) as [[last sent]|] eqn:Ek; [|done].
    destruct (buf_request (c_buf s)) as [q|]; [|done]. case_if; [|done]. nbool. simpl.
    apply Forall_insert; [done|]. eapply Forall_lookup_1 in Hi as [Hs Hl]; [|exact Ek]. simpl in *.
    split; simpl; constructor; try done; try lia.
    + eapply Forall_impl; [exact Hl|]. simpl. lia.
    + eapply Forall_impl; [exact Hl|]. simpl. lia.
Qed.

Lemma streams_reachable n now au s :
  rtc client_step (newClient n now au) s → Forall stream_inv (c_streams s).
Proof.
  intros Hr. eapply (rtc_ind_r (λ s, Forall stream_inv (c_streams s))); [| |exact Hr].
  - simpl. apply Forall_replicate. split; constructor.
  - intros s1 s2 _ [a s3 s4 o Ha Ho] Hi. pose proof (act_streams a s3 Hi) as Hi'. by rewrite Ha in Hi'.
Qed.

(** Running a list of actions that do not panic. *)
Definition run (acts : list client_action) (s : client) : client := foldl (λ s a, (act a s).2) s acts.

Fixpoint run_ok (acts : list client_action) (s : client) : bool :=
  match acts with [] => true | a :: acts => negb (isPanic (act a s).1) && run_ok acts (act a s).2 end.

Lemma run_reachable acts s : run_ok acts s = true → rtc client_step s (run acts s).
Proof.
  revert s. induction acts as [|a acts IH]; intros s Hok; simpl in *; [reflexivity|]. nbool.
  eapply rtc_l; [|by apply IH]. eapply (client_act a); [apply surjective_pairing|done].
Qed.

Lemma run_net acts s :
  run_ok acts s = true → Forall (λ a, ∀ r, a = DoReceive (Msg_Reply r) → received r) acts →
  rtc net_step s (run acts s).
Proof.
  revert s. induction acts as [|a acts IH]; intros s Hok Hf; simpl in *; [reflexivity|]. nbool.
  apply Forall_cons in Hf as [Ha Hf].
  eapply rtc_l; [|by apply IH]. eapply (net_act a); [apply surjective_pairing|done|done].
Qed.
End Client.

(** Every result the client returns is backed by more than [f] replicas.  In
    any run of the client in which it receives only Replies of [received], for a
    result sent to the caller of a request there are at least [f+1] distinct replicas
    from each of which the client received a Reply to that very request (its client
    and sequence number), authenticated with that replica's signature, whose result
    has the same SHA-256 hash. *)
Theorem client_result_backed {Au} `{!Authenticator Au} id f received n now (au : Au) s req result :
  rtc (net_step id f received) (newClient n now au) s → (req, result) ∈ c_results s →
  backed (Au := Au) id f received req result.
Proof.
  intros [_ Hr]%client_inv_reachable Hin. rewrite Forall_forall in Hr. exact (Hr _ Hin).
Qed.

(** Requests reach every replica in order.  In any run, the requests sent on
    each connection have strictly increasing sequence numbers. *)
Theorem client_stream_increasing {Au} `{!Authenticator Au} id f n now (au : Au) s k last sent :
  rtc (client_step id f) (newClient n now au) s → c_streams s !! k = Some (last, sent) →
  StronglySorted N.gt (req_Sequence <$> sent).
Proof. intros Hr%streams_reachable Hk. by eapply (Forall_lookup_1 _ _ _ _ Hr) in Hk as [? _]. Qed.

(** Requests submitted one after the other are accepted.  In a run in which
    the calls of [Request] pass the buffer in the order they were made, started
    with a non-zero clock and before the sequence numbers wrap around, the buffer
    never rejects the first waiting request: [submitRequest] does not panic. *)
Theorem client_fifo_accepted {Au} `{!Authenticator Au} id f n now (au : Au) s req rest :
  0 < now → in_u64 now → rtc (fifo_step id f) (newClient n now au) s →
  c_waiting s = req :: rest → AddRequest req (c_buf s) ≠ AddRejected.
Proof.
  intros H0 Hb Hr Hw. destruct (fifo_inv_reachable id f n now au s H0 Hb Hr) as [_ H2 _ _].
  rewrite Hw in H2. apply Forall_cons in H2 as [H2 _]. unfold AddRequest.
  destruct (buf_request (c_buf s)); [done|]. destruct (N.leb_spec (req_Sequence req) (lastSeq (c_buf s))); [lia|done].
Qed.

(** ** Concrete runs: client 9, f = 1, clock at 5 *)

Definition reply_of (r seq : N) : Message := Msg_Reply (MkReply r 9 seq [] []).

(** One request, sent on connection 0, answered by replicas 0 and 2. *)
Definition one_request_run : list client_action :=
  [DoRequest []; DoAdd 0; DoSend 0; DoReceive (reply_of 0 5); DoReceive (reply_of 2 5); DoCollect; DoCollect].
Definition one_request : client := @run N plainAuthen 9 1 one_request_run (newClient 3 5 0).

Lemma one_request_reachable : rtc (@client_step N plainAuthen 9 1) (newClient 3 5 0) one_request.
Proof. apply run_reachable. vm_compute. reflexivity. Qed.

Lemma client_result_backed_witness :
  @backed N plainAuthen 9 1 (λ r, Msg_Reply r ∈ [reply_of 0 5; reply_of 2 5]) (MkRequest 9 5 [] []) [].
Proof.
  apply (@client_result_backed N plainAuthen 9 1 (λ r, Msg_Reply r ∈ [reply_of 0 5; reply_of 2 5])
    3 5 0 one_request); [|vm_compute; left].
  apply (@run_net N plainAuthen 9 1 _ one_request_run); [vm_compute; reflexivity|].
  repeat (apply Forall_cons; split); try (by apply Forall_nil); intros r [=]; subst; set_solver.
Defined.

Lemma client_stream_increasing_witness :
  StronglySorted N.gt (req_Sequence <$> [MkRequest 9 5 [] []]).
Proof.
  apply (@client_stream_increasing N plainAuthen 9 1 3 5 0 one_request 0 5 [MkRequest 9 5 [] []]);
    [exact one_request_reachable|vm_compute; reflexivity].
Defined.

Lemma client_fifo_accepted_witness : AddRequest (MkRequest 9 5 [] []) New ≠ AddRejected.
Proof.
  apply (@client_fifo_accepted N plainAuthen 9 1 3 5 0
    (@act N plainAuthen 9 1 (DoRequest []) (newClient 3 5 0)).2 _ []);
    [lia|lia| |reflexivity].
  apply rtc_once. eapply (fifo_act 9 1 (DoRequest [])); [apply surjective_pairing|reflexivity|done|].
  vm_compute. discriminate.
Defined.

(** Two concurrent calls of [Request] can crash the client.  The sequence
    numbers are taken before the wait for the buffer; when the later call gets
    through first, the earlier one is rejected after it and [submitRequest]
    panics. *)
Theorem client_concurrent_panic :
  ∃ s, rtc (@client_step N plainAuthen 9 1) (newClient 3 5 0) s ∧
       isPanic (@act N plainAuthen 9 1 (DoAdd 0) s).1 = true.
Proof.
  exists (@run N plainAuthen 9 1
    [DoRequest []; DoRequest []; DoAdd 1; DoReceive (reply_of 0 6); DoReceive (reply_of 2 6); DoCollect; DoCollect]
    (newClient 3 5 0)).
  split; [apply run_reachable|]; vm_compute; reflexivity.
Qed.

End Client.
