(* ===== verification/ClientNode.v ===== *)
(** The goroutines of a client, with the buffer they share, and its termination.

    [Client] treats a request with its replies as a value in the buffer.  In the code
    it is an object: the goroutines that supply its replies to a caller, the streams
    that offer it to replicas and the handlers that add replies keep a pointer to it,
    also after it was removed from the buffer.  Here the objects are a store
    ([objects]) and every goroutine of [client.go], [message-handling.go],
    [request.go] and [requestbuffer.go] is a state machine of its own: per call of
    [Request] the caller in [AddRequest], the goroutine of [supplyReplies] and the
    one of [collectReplies]; per replica the goroutine of [supplyRequests], the
    outgoing and the incoming message handler.  [stop] is the channel closed by
    [Terminate]; notification channels, which have capacity one and are sent to
    without blocking, are booleans.

    An action is one communication or one critical section of a goroutine; [step]
    says what it does: [None] when it is not possible, an [outcome] otherwise. *)

From Stdlib Require Import Strings.Byte.
From S2P Require Import Prelude Bytes Usig Messages Authen Sha256 Quorum Api Client.

Module ClientNode.
Import Client(replySet, MkReplySet, newReplySet, addReply, rs_msgs, rs_replicas, collectOne,
  authenticateReply, prepareRequest, genuine, backed, votes, votes_snoc).

(** ** The request buffer *)

(** [type request struct]: [o_removed], whether [removed] is closed; [o_newAdded],
    whether [replySet.newAdded] holds a notification. *)
Record object := MkObject {
  o_msg : Request; o_removed : bool; o_replies : replySet; o_newAdded : bool }.

(** [type T struct]: [newAdded] has an element per stream. *)
Record T := MkT {
  lastSeq : N; request : option nat; objects : list object; newAdded : list bool }.

Definition New : T := MkT 0 None [] [].

Definition newRequest (msg : Request) : object := MkObject msg false newReplySet false.

Inductive added := AddWait (seq : N) (k : nat) | AddRejected | Added (k : nat) (rb : T).

(** One pass of the loop of [AddRequest], with the lock held: [seq] and [req] for
    the [select], or the end of the function. *)
Definition AddRequest (msg : Request) (rb : T) : added :=
  match request rb with
  | Some k => AddWait (lastSeq rb) k
  | None =>
      if req_Sequence msg <=? lastSeq rb then AddRejected
      else let k := length (objects rb) in
           Added k (MkT (req_Sequence msg) (Some k) (objects rb ++ [newRequest msg])
                      (replicate (length (newAdded rb)) true))
  end.

Definition setRemoved (o : object) : object := MkObject (o_msg o) true (o_replies o) (o_newAdded o).

(** [RemoveRequest] *)
Definition RemoveRequest (seq : N) (rb : T) : T :=
  match request rb with
  | None => rb
  | Some k =>
      match objects rb !! k with
      | Some o => if negb (req_Sequence (o_msg o) =? seq) then rb
                  else MkT (lastSeq rb) None (<[k := setRemoved o]> (objects rb)) (newAdded rb)
      | None => rb
      end
  end.

(** [AddReply] up to the call of [request.addReply]: the object it is called on. *)
Definition findRequest (msg : Reply) (rb : T) : option nat :=
  k ← request rb; o ← objects rb !! k;
  if req_Sequence (o_msg o) =? rep_Sequence msg then Some k else None.

(** [request.addReply] *)
Definition addReplyTo (msg : Reply) (o : object) : object :=
  let '(ok, rs) := addReply msg (o_replies o) in
  MkObject (o_msg o) (o_removed o) rs (o_newAdded o || ok).

(** ** Calls of [Request] *)

(** The goroutine of [replySet.supplyReplies]: [next], the messages of the inner loop
    not sent yet; with none left it waits.  Its channel [done] is closed after the
    request is removed or [stop] is closed. *)
Inductive supplier :=
| SupFetch (next : nat)
| SupSend (next : nat) (batch : list Reply)
| SupClosed.

(** [collectReplies]: [matchingResults], or that it has returned, with the result sent
    to the caller if there is one; the channel to the caller is then closed. *)
Inductive collector :=
| Collecting (matching : gmap bytes N)
| Collected (result : option bytes).

Inductive callPhase :=
| Adding                                    (* AddRequest: rb.lock.Lock() *)
| AddBlocked (seq : N) (k : nat)            (* AddRequest: select *)
| Running (k : nat) (sup : supplier) (replyChan : list Reply) (col : collector).

Record call := MkCall { cl_req : Request; cl_phase : callPhase }.

Inductive callEvent :=
| CvAdd          (* a pass of the loop of AddRequest *)
| CvRemoved      (* AddRequest: case <-req.removed *)
| CvCancel       (* AddRequest: case <-cancel *)
| CvSupply       (* supplyReplies: next step that is not [cancel] *)
| CvDone         (* supplyReplies: case <-cancel *)
| CvCollect.     (* collectReplies: the next reply, or the end of them *)

Definition removed (k : nat) (rb : T) : bool :=
  match objects rb !! k with Some o => o_removed o | None => false end.

Definition clearAdded (o : object) : object := MkObject (o_msg o) (o_removed o) (o_replies o) false.

(** What the supplier of object [k] does next. *)
Definition supply (k : nat) (sup : supplier) (ch : list Reply) (rb : T) :
    option (supplier * list Reply * T) :=
  o ← objects rb !! k;
  match sup, ch with
  | SupFetch next, _ =>
      Some (SupSend (length (rs_msgs (o_replies o))) (drop next (rs_msgs (o_replies o))), ch, rb)
  | SupSend next (m :: batch), [] => Some (SupSend next batch, [m], rb)
  | SupSend next [], _ =>
      if o_newAdded o
      then Some (SupFetch next, ch,
             MkT (lastSeq rb) (request rb) (<[k := clearAdded o]> (objects rb)) (newAdded rb))
      else None
  | _, _ => None
  end.

(** [collectReplies]: a pass of its loop. *)
Definition collect (f : N) (sup : supplier) (ch : list Reply) (matching : gmap bytes N) (rb : T) :
    option (list Reply * collector * T) :=
  match ch, sup with
  | reply :: ch, _ =>
      match collectOne f reply matching with
      | (Some result, _) => Some (ch, Collected (Some result), RemoveRequest (rep_Sequence reply) rb)
      | (None, matching) => Some (ch, Collecting matching, rb)
      end
  | [], SupClosed => Some ([], Collected None, rb)
  | [], _ => None
  end.

(** The goroutines of a call whose request was added. *)
Definition runStep (f : N) (stop : bool) (ev : callEvent) (k : nat) (sup : supplier) (ch : list Reply)
    (col : collector) (rb : T) : option (callPhase * T) :=
  match ev with
  | CvSupply => '(sup, ch, rb) ← supply k sup ch rb; Some (Running k sup ch col, rb)
  | CvDone =>
      match sup with
      | SupSend _ _ => if stop || removed k rb then Some (Running k SupClosed ch col, rb) else None
      | _ => None
      end
  | CvCollect =>
      match col with
      | Collecting matching => '(ch, col, rb) ← collect f sup ch matching rb; Some (Running k sup ch col, rb)
      | Collected _ => None
      end
  | _ => None
  end.

Definition callStep (f : N) (stop : bool) (ev : callEvent) (c : call) (rb : T) :
    option (outcome (call * T)) :=
  let goto p rb := Some (OK (MkCall (cl_req c) p, rb)) in
  match cl_phase c, ev with
  | Adding, CvAdd =>
      match AddRequest (cl_req c) rb with
      | AddWait seq k => goto (AddBlocked seq k) rb
      | AddRejected => Some (Panic "Request message rejected")
      | Added k rb => goto (Running k (SupFetch 0) [] (Collecting ∅)) rb
      end
  | AddBlocked _ k, CvRemoved => if removed k rb then goto Adding rb else None
  | AddBlocked seq _, CvCancel => if stop then goto Adding (RemoveRequest seq rb) else None
  | Running k sup ch col, _ => '(p, rb) ← runStep f stop ev k sup ch col rb; goto p rb
  | _, _ => None
  end.

(** ** Connections *)

(** The goroutine of [supplyRequests]; [SOffer k]: the first [select], with object [k]. *)
Inductive streamPhase := SLook | SOffer (k : nat) | SWait | SClosed.

(** The outgoing message handler; [HSend]: its [select]. *)
Inductive outPhase := HReceive | HSend (r : Request) | HReturned.

(** [st_chan]: the position of its channel in [newAdded]; [st_sent]: what was taken
    from [out], latest first. *)
Record stream := MkStream {
  st_chan : option nat; st_last : N; st_phase : streamPhase; st_out : outPhase; st_sent : list Request }.

Definition newStream : stream := MkStream None 0 SLook HReceive [].

Inductive outEvent :=
| OvRegister     (* rb.newAdded = append(rb.newAdded, newAdded) *)
| OvLook         (* request := rb.request *)
| OvHand         (* ch <- request.Request, received by the outgoing handler *)
| OvRemoved      (* case <-request.removed *)
| OvWake         (* case <-newAdded *)
| OvCancel       (* case <-cancel *)
| OvSend         (* out <- mBytes *)
| OvStop         (* case <-stop *)
| OvEnd.         (* the end of range buf.RequestStream(stop) *)

(** The incoming message handler; [InAdd]: in [AddReply], about to call [addReply]. *)
Inductive inPhase := InReceive | InAdd (k : nat) (r : Reply) | InReturned.

Inductive inEvent :=
| IvBytes (b : bytes)    (* msgBytes arrive *)
| IvClosed               (* in is closed *)
| IvAdd                  (* request.addReply(msg) *)
| IvStop.                (* case <-stop *)

Section Node.
Context {Au : Type} `{!Authenticator Au}.
Context (id f : N).
Context (MarshalBinary : Request → outcome bytes) (NewFromBinary : bytes → outcome Message).

Definition setAdded (i : nat) (b : bool) (rb : T) : T :=
  MkT (lastSeq rb) (request rb) (objects rb) (<[i := b]> (newAdded rb)).

Definition setPhase (p : streamPhase) (st : stream) : stream :=
  MkStream (st_chan st) (st_last st) p (st_out st) (st_sent st).
Definition setOut (p : outPhase) (st : stream) : stream :=
  MkStream (st_chan st) (st_last st) (st_phase st) p (st_sent st).

(** [supplyRequests] and [makeOutgoingMessageHandler] *)
Definition outStep (stop : bool) (ev : outEvent) (st : stream) (rb : T) : option (outcome (stream * T)) :=
  match ev, st_chan st, st_phase st, st_out st with
  | OvRegister, None, _, _ =>
      Some (OK (MkStream (Some (length (newAdded rb))) 0 SLook (st_out st) (st_sent st),
                MkT (lastSeq rb) (request rb) (objects rb) (newAdded rb ++ [false])))
  | OvLook, Some _, SLook, _ =>
      Some (OK (setPhase match k ← request rb; o ← objects rb !! k;
                               if st_last st <? req_Sequence (o_msg o) then Some k else None with
                         | Some k => SOffer k
                         | None => SWait
                         end st, rb))
  | OvHand, Some _, SOffer k, HReceive =>
      o ← objects rb !! k;
      match MarshalBinary (o_msg o) with
      | OK _ => Some (OK (MkStream (st_chan st) (req_Sequence (o_msg o)) SWait (HSend (o_msg o)) (st_sent st), rb))
      | _ => Some (Panic "MarshalBinary")
      end
  | OvRemoved, Some _, SOffer k, _ => if removed k rb then Some (OK (setPhase SWait st, rb)) else None
  | OvWake, Some i, SWait, _ =>
      if default false (newAdded rb !! i) then Some (OK (setPhase SLook st, setAdded i false rb)) else None
  | OvCancel, Some _, SOffer _, _ | OvCancel, Some _, SWait, _ =>
      if stop then Some (OK (setPhase SClosed st, rb)) else None
  | OvSend, _, _, HSend r =>
      Some (OK (MkStream (st_chan st) (st_last st) (st_phase st) HReceive (r :: st_sent st), rb))
  | OvStop, _, _, HSend _ => if stop then Some (OK (setOut HReturned st, rb)) else None
  | OvEnd, _, SClosed, HReceive => Some (OK (setOut HReturned st, rb))
  | _, _, _, _ => None
  end.

(** [makeIncomingMessageHandler], [makeReplyMessageHandler], [makeReplyConsumer] *)
Definition inStep (stop : bool) (ev : inEvent) (p : inPhase) (rb : T) : option (outcome (inPhase * T)) :=
  match p, ev with
  | InReceive, IvBytes b =>
      match NewFromBinary b with
      | OK (Msg_Reply r) =>
          match authenticateReply (Au := Au) id r with
          | OK _ => Some (OK (match findRequest r rb with Some k => InAdd k r | None => InReceive end, rb))
          | Error _ => Some (OK (InReceive, rb))
          | Panic p => Some (Panic p)
          end
      | OK _ | Error _ => Some (OK (InReceive, rb))
      | Panic p => Some (Panic p)
      end
  | InReceive, IvClosed => Some (OK (InReturned, rb))
  | InReceive, IvStop => if stop then Some (OK (InReturned, rb)) else None
  | InAdd k r, IvAdd =>
      o ← objects rb !! k;
      Some (OK (InReceive, MkT (lastSeq rb) (request rb) (<[k := addReplyTo r o]> (objects rb)) (newAdded rb)))
  | _, _ => None
  end.

(** ** The client *)

Record node := MkNode {
  n_nextSeq : N; n_authen : Au; n_buf : T; n_calls : list call;
  n_outs : list stream; n_ins : list inPhase; n_stop : bool }.

Inductive action :=
| ActRequest (op : bytes)                  (* a call of Request: prepareRequest *)
| ActCall (i : nat) (ev : callEvent)
| ActOut (i : nat) (ev : outEvent)
| ActIn (i : nat) (ev : inEvent)
| ActTerminate.

(** [prepareRequest] changes the sequence generator and the authenticator. *)
Definition request_of (op : bytes) (s : node) : outcome node :=
  let '(o, c) := prepareRequest id op
                   (Client.MkClient (n_nextSeq s) (n_authen s) [] Client.New 0 ∅ [] []) in
  match o with
  | OK r => OK (MkNode (Client.c_nextSeq c) (Client.c_authen c) (n_buf s)
                  (n_calls s ++ [MkCall r Adding]) (n_outs s) (n_ins s) (n_stop s))
  | Error e => Error e
  | Panic p => Panic p
  end.

Definition step (a : action) (s : node) : option (outcome node) :=
  match a with
  | ActRequest op => Some (request_of op s)
  | ActCall i ev =>
      c ← n_calls s !! i;
      o ← callStep f (n_stop s) ev c (n_buf s);
      Some ('(c, rb) ← o; OK (MkNode (n_nextSeq s) (n_authen s) rb (<[i := c]> (n_calls s))
                                 (n_outs s) (n_ins s) (n_stop s)))
  | ActOut i ev =>
      st ← n_outs s !! i;
      o ← outStep (n_stop s) ev st (n_buf s);
      Some ('(st, rb) ← o; OK (MkNode (n_nextSeq s) (n_authen s) rb (n_calls s)
                                  (<[i := st]> (n_outs s)) (n_ins s) (n_stop s)))
  | ActIn i ev =>
      p ← n_ins s !! i;
      o ← inStep (n_stop s) ev p (n_buf s);
      Some ('(p, rb) ← o; OK (MkNode (n_nextSeq s) (n_authen s) rb (n_calls s)
                                 (n_outs s) (<[i := p]> (n_ins s)) (n_stop s)))
  | ActTerminate =>
      if n_stop s then Some (Panic "close of closed channel")
      else Some (OK (MkNode (n_nextSeq s) (n_authen s) (n_buf s) (n_calls s) (n_outs s) (n_ins s) true))
  end.

(** ** The constructor *)

(** [makeReplicaConnector]: [connect] is whether the connector has a stream handler for
    the replica. *)
Definition replicaConnector (connect : N → bool) (i : N) : outcome unit :=
  if connect i then OK tt else Error (Errorf "connection not possible").

(** [startReplicaConnection] *)
Definition startReplicaConnection (connect : N → bool) (i : N) (s : node) : outcome node :=
  _ ← replicaConnector connect i;
  OK (MkNode (n_nextSeq s) (n_authen s) (n_buf s) (n_calls s)
             (n_outs s ++ [newStream]) (n_ins s ++ [InReceive]) (n_stop s)).

(** [startReplicaConnections], with the goroutines it leaves running. *)
Fixpoint startReplicaConnections (connect : N → bool) (ids : list N) (s : node) : outcome unit * node :=
  match ids with
  | [] => (OK tt, s)
  | i :: ids =>
      match startReplicaConnection connect i s with
      | OK s' => startReplicaConnections connect ids s'
      | Error e => (Error (ErrorWrap "error connecting to replica" e), s)
      | Panic p => (Panic p, s)
      end
  end.

(** [New]; [now] is the time the sequence generator starts from. *)
Definition NewClient (connect : N → bool) (n now : N) (au : Au) : outcome node * node :=
  let s := MkNode (u64 now) au New [] [] [] false in
  if n <? u32_add (u32_mul f 2) 1 then (Error (Errorf "insufficient number of replica nodes"), s)
  else match startReplicaConnections connect (N.of_nat <$> seq 0 (N.to_nat n)) s with
       | (OK _, s) => (OK s, s)
       | (Error e, s) => (Error (ErrorWrap "failed to initiate connections to replicas" e), s)
       | (Panic p, s) => (Panic p, s)
       end.

(** ** Steps *)

(** What the replicas and the network can deliver. *)
Context (received : Reply → Prop).

Inductive net_step : node → node → Prop :=
| net_act a s s' :
    step a s = Some (OK s') →
    (∀ i b r, a = ActIn i (IvBytes b) → NewFromBinary b = OK (Msg_Reply r) → received r) →
    net_step s s'.

(** Running from what [New] returned. *)
Definition reachable (connect : N → bool) (n now : N) (au : Au) (s : node) : Prop :=
  ∃ s0, (NewClient connect n now au).1 = OK s0 ∧ rtc net_step s0 s.

(** ** The store of requests only grows *)

Abbreviation msgs o := (rs_msgs (o_replies o)).

Definition object_le (o o' : object) : Prop :=
  o_msg o' = o_msg o ∧ msgs o `prefix_of` msgs o' ∧ (o_removed o = true → o_removed o' = true).

Definition heap_le (rb rb' : T) : Prop :=
  ∀ k o, objects rb !! k = Some o → ∃ o', objects rb' !! k = Some o' ∧ object_le o o'.

#[local] Instance object_le_preorder : PreOrder object_le.
Proof.
  split; unfold object_le; [done|]. intros o1 o2 o3 (H1 & H2 & H3) (H4 & H5 & H6).
  split; [congruence|]. split; [by etrans|auto].
Qed.

#[local] Instance heap_le_preorder : PreOrder heap_le.
Proof.
  split; unfold heap_le.
  - intros rb k o Ho. exists o. by split.
  - intros rb1 rb2 rb3 H1 H2 k o (o2 & Ho2 & L1)%H1. apply H2 in Ho2 as (o3 & Ho3 & L2).
    exists o3. split; [done|by etrans].
Qed.

Lemma heap_le_same rb rb' : objects rb' = objects rb → heap_le rb rb'.
Proof. intros E k o Ho. rewrite E. exists o. by split. Qed.

Lemma heap_le_insert rb rb' k o o' :
  objects rb !! k = Some o → object_le o o' → objects rb' = <[k := o']> (objects rb) → heap_le rb rb'.
Proof.
  intros Hk Hle E j x Hj. rewrite E. destruct (decide (k = j)) as [<-|Hne].
  - simplify_eq. exists o'. by rewrite list_lookup_insert_eq by (by eapply lookup_lt_Some).
  - exists x. by rewrite list_lookup_insert_ne.
Qed.

Lemma setRemoved_le o : object_le o (setRemoved o).
Proof. done. Qed.
Lemma clearAdded_le o : object_le o (clearAdded o).
Proof. done. Qed.
Lemma addReplyTo_le r o : object_le o (addReplyTo r o).
Proof.
  unfold addReplyTo, addReply, object_le. case_bool_decide; simpl; [done|].
  split; [done|]. split; [by apply prefix_app_r|done].
Qed.

Lemma RemoveRequest_cases seq rb :
  RemoveRequest seq rb = rb ∨
  ∃ k o, request rb = Some k ∧ objects rb !! k = Some o ∧ req_Sequence (o_msg o) = seq ∧
    RemoveRequest seq rb = MkT (lastSeq rb) None (<[k := setRemoved o]> (objects rb)) (newAdded rb).
Proof.
  unfold RemoveRequest. destruct (request rb) as [k|]; [|by left].
  destruct (objects rb !! k) as [o|] eqn:Eo; [|by left].
  destruct (N.eqb_spec (req_Sequence (o_msg o)) seq); [|by left]. right. by exists k, o.
Qed.

Lemma RemoveRequest_le seq rb : heap_le rb (RemoveRequest seq rb).
Proof.
  destruct (RemoveRequest_cases seq rb) as [-> | (k & o & _ & Hk & _ & ->)]; [reflexivity|].
  by eapply heap_le_insert; [exact Hk|apply setRemoved_le|].
Qed.

Lemma AddRequest_le msg rb k rb' : AddRequest msg rb = Added k rb' → heap_le rb rb'.
Proof.
  unfold AddRequest. destruct (request rb); [done|]. case_if; [done|]. intros [= <- <-] j o Hj.
  exists o. split; [by apply lookup_app_l_Some|done].
Qed.

Lemma supply_le k sup ch rb sup' ch' rb' : supply k sup ch rb = Some (sup', ch', rb') → heap_le rb rb'.
Proof.
  unfold supply. destruct (objects rb !! k) as [o|] eqn:Eo; [|done]. simpl.
  destruct sup as [next|next [|m batch]|], ch as [|c ch]; try case_if; intros; simplify_eq/=; try reflexivity;
    by eapply heap_le_insert; [exact Eo|apply clearAdded_le|].
Qed.

Lemma collect_le sup ch m rb ch' col rb' : collect f sup ch m rb = Some (ch', col, rb') → heap_le rb rb'.
Proof.
  unfold collect. destruct ch as [|r ch].
  - destruct sup; intros; simplify_eq; reflexivity.
  - destruct (collectOne f r m) as [[res|] m']; intros; simplify_eq; [apply RemoveRequest_le|reflexivity].
Qed.

Lemma runStep_le stop ev k sup ch col rb p rb' :
  runStep f stop ev k sup ch col rb = Some (p, rb') → heap_le rb rb'.
Proof.
  unfold runStep. destruct ev; try done.
  - destruct (supply k sup ch rb) as [[[sup' ch'] rb1]|] eqn:E; [|done]. intros; simplify_eq/=. by eapply supply_le.
  - destruct sup; try done. case_if; intros; simplify_eq; reflexivity.
  - destruct col as [m|]; [|done].
    destruct (collect f sup ch m rb) as [[[ch' col'] rb1]|] eqn:E; [|done].
    intros; simplify_eq/=. by eapply collect_le.
Qed.

Lemma callStep_le stop ev c rb c' rb' : callStep f stop ev c rb = Some (OK (c', rb')) → heap_le rb rb'.
Proof.
  unfold callStep. destruct (cl_phase c) as [|seq k|k sup ch col].
  - destruct ev; try done. destruct (AddRequest _ rb) eqn:Ea; intros; simplify_eq; [reflexivity|by eapply AddRequest_le].
  - destruct ev; try done; case_if; intros; simplify_eq; [reflexivity|apply RemoveRequest_le].
  - destruct (runStep _ _ _ _ _ _ _ _) as [[p rb1]|] eqn:E; [|done]. intros; simplify_eq/=. by eapply runStep_le.
Qed.

Lemma outStep_same stop ev st rb st' rb' : outStep stop ev st rb = Some (OK (st', rb')) → objects rb' = objects rb ∧ lastSeq rb' = lastSeq rb ∧ request rb' = request rb.
Proof.
  unfold outStep.
  destruct ev, (st_chan st), (st_phase st), (st_out st); try done; try (case_if; try done); intros; simplify_eq/=; try done.
  all: destruct (objects rb !! _); [|done]; simpl in *; by destruct (MarshalBinary _); simplify_eq.
Qed.

Lemma inStep_le stop ev p rb p' rb' : inStep stop ev p rb = Some (OK (p', rb')) → heap_le rb rb'.
Proof.
  unfold inStep. destruct p as [|k r|], ev as [b| | |]; try done.
  - destruct (NewFromBinary b) as [[| |r| |]| |]; try (intros; simplify_eq; reflexivity).
    destruct (authenticateReply id r); intros; simplify_eq; reflexivity.
  - intros; simplify_eq; reflexivity.
  - case_if; intros; simplify_eq; reflexivity.
  - destruct (objects rb !! k) as [o|] eqn:Ek; [|done]. intros; simplify_eq/=.
    eapply heap_le_insert; [exact Ek|apply addReplyTo_le|done].
Qed.

(** ** Results are backed *)

Definition object_inv (o : object) : Prop :=
  Forall (genuine (Au := Au) id received (o_msg o)) (msgs o) ∧
  NoDup (rep_ReplicaID <$> msgs o) ∧
  rs_replicas (o_replies o) = list_to_set (rep_ReplicaID <$> msgs o).

Definition batchOf (sup : supplier) : list Reply := match sup with SupSend _ b => b | _ => [] end.

(** The position of the supplier is the number of messages it has taken. *)
Definition at_position (sup : supplier) (i : nat) : Prop :=
  match sup with SupFetch next | SupSend next _ => i = next | SupClosed => True end.

(** The replies of an object go through the supplier and the channel to the
    collector, in order: [seen] are those collected. *)
Definition collected_inv (req : Request) (o : object) (sup : supplier) (ch : list Reply) (col : collector) : Prop :=
  match col with
  | Collecting m => ∃ seen,
      seen ++ ch ++ batchOf sup `prefix_of` msgs o ∧ at_position sup (length (seen ++ ch ++ batchOf sup)) ∧
      ∀ h, default 0 (m !! h) ≤ N.of_nat (votes h seen)
  | Collected (Some res) => backed (Au := Au) id f received req res
  | Collected None => True
  end.

Definition call_inv (rb : T) (c : call) : Prop :=
  match cl_phase c with
  | Running k sup ch col =>
      ∃ o, objects rb !! k = Some o ∧ o_msg o = cl_req c ∧ collected_inv (cl_req c) o sup ch col
  | _ => True
  end.

Definition in_inv (rb : T) (p : inPhase) : Prop :=
  match p with
  | InAdd k r => ∃ o, objects rb !! k = Some o ∧ genuine (Au := Au) id received (o_msg o) r
  | _ => True
  end.

Definition results_inv (s : node) : Prop :=
  Forall object_inv (objects (n_buf s)) ∧ Forall (call_inv (n_buf s)) (n_calls s) ∧
  Forall (in_inv (n_buf s)) (n_ins s).

Lemma call_inv_le rb rb' c : heap_le rb rb' → call_inv rb c → call_inv rb' c.
Proof.
  intros Hle. unfold call_inv. destruct (cl_phase c) as [| |k sup ch col]; [done..|].
  intros (o & (o' & Ho' & Hm & Hp & _)%Hle & Hr & Hc). exists o'. split; [done|]. split; [congruence|].
  unfold collected_inv in *. destruct col as [m|]; [|done].
  destruct Hc as (seen & H1 & H2). exists seen. split; [by etrans|done].
Qed.

Lemma in_inv_le rb rb' p : heap_le rb rb' → in_inv rb p → in_inv rb' p.
Proof.
  intros Hle. destruct p as [|k r|]; [done| |done]. intros (o & (o' & Ho' & Hm & _)%Hle & Hg).
  exists o'. split; [done|]. by rewrite Hm.
Qed.

Lemma addReplyTo_inv r o :
  genuine (Au := Au) id received (o_msg o) r → object_inv o → object_inv (addReplyTo r o).
Proof.
  intros Hg (H1 & H2 & H3). unfold addReplyTo, addReply. case_bool_decide as Hin; simpl; [done|].
  rewrite H3, elem_of_list_to_set in Hin. unfold object_inv. simpl. rewrite fmap_app. split_and!.
  - apply Forall_app. split; [done|]. by apply Forall_singleton.
  - apply NoDup_app. split; [done|]. split; [set_solver|]. apply NoDup_singleton.
  - rewrite H3. set_solver.
Qed.

Lemma RemoveRequest_objects seq rb :
  Forall object_inv (objects rb) → Forall object_inv (objects (RemoveRequest seq rb)).
Proof.
  intros Hf. destruct (RemoveRequest_cases seq rb) as [-> | (k & o & _ & Hk & _ & ->)]; [done|].
  apply Forall_insert; [done|]. exact (Forall_lookup_1 _ _ _ _ Hf Hk).
Qed.

Lemma collectOne_inv req o seen m r :
  object_inv o → o_msg o = req → seen ++ [r] `prefix_of` msgs o →
  (∀ h, default 0 (m !! h) ≤ N.of_nat (votes h seen)) →
  match collectOne f r m with
  | (Some res, _) => backed (Au := Au) id f received req res
  | (None, m') => ∀ h, default 0 (m' !! h) ≤ N.of_nat (votes h (seen ++ [r]))
  end.
Proof.
  intros (Hg & Hd & _) Hm [l Hl] Hv. unfold collectOne.
  set (c := u32_add (default 0 (m !! _)) 1).
  assert (c ≤ N.of_nat (votes (Client.hash r) (seen ++ [r]))) as Hc.
  { rewrite votes_snoc, decide_True by done. specialize (Hv (Client.hash r)).
    unfold c, u32_add, u32. pose proof (N.Div0.mod_le (default 0 (m !! Client.hash r) + 1) (2 ^ 32)). lia. }
  destruct (N.ltb_spec f c) as [Hf|Hf].
  - apply (Client.votes_backed id f received req (msgs o)); [by subst|done|].
    rewrite Hl. unfold votes in *. rewrite filter_app, length_app. lia.
  - intros h. destruct (decide (Client.hash r = h)) as [<-|Hne].
    + by rewrite lookup_insert_eq.
    + rewrite lookup_insert_ne by done. rewrite votes_snoc, decide_False by done. specialize (Hv h). lia.
Qed.

Lemma prefix_rest {A} (l1 l2 l : list A) i :
  l1 ++ l2 `prefix_of` l → length (l1 ++ l2) = i → l1 ++ l2 ++ drop i l = l.
Proof. intros [x ->] <-. by rewrite drop_app_length, app_assoc. Qed.

Lemma supply_inv req k sup ch col rb sup' ch' rb' o :
  supply k sup ch rb = Some (sup', ch', rb') → objects rb !! k = Some o → object_inv o →
  collected_inv req o sup ch col →
  ∃ o', objects rb' !! k = Some o' ∧ o_msg o' = o_msg o ∧ object_inv o' ∧ collected_inv req o' sup' ch' col ∧
    (rb' = rb ∨ objects rb' = <[k := o']> (objects rb)).
Proof.
  unfold supply. intros Hs Hk Ho Hc. rewrite Hk in Hs. simpl in Hs.
  destruct sup as [next|next batch|]; [| |by destruct ch].
  - simplify_eq/=. exists o. split_and!; try done; [|by left]. destruct col; [|done].
    destruct Hc as (seen & Hl & Hp & Hv). exists seen. simpl in *. rewrite app_nil_r in *.
    by rewrite prefix_rest.
  - destruct batch as [|m batch]; [|destruct ch; [|done]].
    + assert (o_newAdded o = true ∧ (sup', ch', rb') = (SupFetch next, ch,
        MkT (lastSeq rb) (request rb) (<[k := clearAdded o]> (objects rb)) (newAdded rb)))
        as [_ E] by (destruct ch; case_if; naive_solver).
      simplify_eq. exists (clearAdded o). split_and!; try done; [|by right].
      simpl. rewrite list_lookup_insert_eq; [done|by eapply lookup_lt_Some].
    + simplify_eq/=. exists o. split_and!; try done. by left.
Qed.

Lemma runStep_inv req stop ev k sup ch col rb p rb' :
  runStep f stop ev k sup ch col rb = Some (p, rb') → Forall object_inv (objects rb) →
  call_inv rb (MkCall req (Running k sup ch col)) →
  Forall object_inv (objects rb') ∧ call_inv rb' (MkCall req p).
Proof.
  intros Hs Hf (o & Hk & Hm & Hc). simpl in *. pose proof (Forall_lookup_1 _ _ _ _ Hf Hk) as Ho.
  unfold runStep in Hs. destruct ev; try done.
  - destruct (supply k sup ch rb) as [[[sup' ch'] rb1]|] eqn:E; [|done]. simplify_eq/=.
    destruct (supply_inv _ _ _ _ _ _ _ _ _ _ E Hk Ho Hc) as (o' & Hk' & Hm' & Ho' & Hc' & Hb).
    split; [|exists o'; by rewrite Hm'].
    destruct Hb as [-> | ->]; [done|by apply Forall_insert].
  - destruct sup; try done. case_if; simplify_eq. split; [done|]. exists o. split; [done|]. split; [done|].
    destruct col; [|done]. destruct Hc as (seen & Hp & _ & Hv). exists seen. simpl in *. split; [|done].
    rewrite app_nil_r. etrans; [|exact Hp]. rewrite app_assoc. by apply prefix_app_r.
  - destruct col as [m|]; [|done]. unfold collect in Hs. destruct ch as [|r ch].
    { destruct sup; simplify_eq/=. split; [done|]. by exists o. }
    destruct Hc as (seen & Hp & Hpos & Hv).
    assert (seen ++ [r] `prefix_of` msgs o) as Hp'.
    { etrans; [|exact Hp]. exists (ch ++ batchOf sup). by rewrite <- app_assoc. }
    pose proof (collectOne_inv req o seen m r Ho Hm Hp' Hv) as Hone.
    destruct (collectOne f r m) as [[res|] m']; simplify_eq/=.
    + split; [by apply RemoveRequest_objects|].
      destruct (RemoveRequest_le (rep_Sequence r) rb k o Hk) as (o' & Hk' & Hm' & _). exists o'. by rewrite Hm'.
    + split; [done|]. exists o. split; [done|]. split; [done|]. exists (seen ++ [r]).
      rewrite <- (app_assoc seen). done.
Qed.

Lemma callStep_inv stop ev c rb c' rb' :
  callStep f stop ev c rb = Some (OK (c', rb')) → Forall object_inv (objects rb) → call_inv rb c →
  Forall object_inv (objects rb') ∧ call_inv rb' c'.
Proof.
  intros Hs Hf Hc. unfold callStep in Hs. destruct c as [req p]. simpl in *.
  destruct p as [|seq k|k sup ch col].
  - destruct ev; try done. unfold AddRequest in Hs. destruct (request rb); [by simplify_eq|].
    case_if; [done|]. simplify_eq/=. split.
    + apply Forall_app. split; [done|]. apply Forall_singleton. split_and!; constructor.
    + exists (newRequest req). split; [by apply list_lookup_middle|]. split; [done|]. exists [].
      split; [done|]. split; [done|]. intros h. by rewrite lookup_empty.
  - destruct ev; try done; case_if; simplify_eq; [done|]. split; [by apply RemoveRequest_objects|done].
  - destruct (runStep _ _ _ _ _ _ _ _) as [[p rb1]|] eqn:E; [|done]. simplify_eq/=. by eapply runStep_inv.
Qed.

Lemma inStep_inv stop ev p rb p' rb' :
  inStep stop ev p rb = Some (OK (p', rb')) → Forall object_inv (objects rb) → in_inv rb p →
  (∀ b r, ev = IvBytes b → NewFromBinary b = OK (Msg_Reply r) → received r) →
  Forall object_inv (objects rb') ∧ in_inv rb' p'.
Proof.
  intros Hs Hf Hp Hrec. unfold inStep in Hs. destruct p as [|k r|], ev as [b| | |]; try done.
  - destruct (NewFromBinary b) as [[| |r| |]| |] eqn:Eb; simplify_eq; try done.
    destruct (authenticateReply id r) as [[]| |] eqn:Ea; simplify_eq; try done. split; [done|].
    unfold findRequest. destruct (request rb') as [k|]; [|done]. simpl.
    destruct (objects rb' !! k) as [o|] eqn:Ek; [|done]. simpl.
    destruct (N.eqb_spec (req_Sequence (o_msg o)) (rep_Sequence r)); [|done]. exists o. split; [done|].
    split_and!; [by eapply Hrec| |done|done]. unfold authenticateReply in Ea.
    destruct (N.eqb_spec (rep_ClientID r) id); [done|]. by simpl in Ea.
  - by simplify_eq.
  - case_if; by simplify_eq.
  - destruct Hp as (o & Hk & Hg). rewrite Hk in Hs. simplify_eq/=. split; [|done].
    apply Forall_insert; [done|]. apply addReplyTo_inv; [done|]. exact (Forall_lookup_1 _ _ _ _ Hf Hk).
Qed.

Lemma Forall_le {A} (P : T → A → Prop) rb rb' l :
  (∀ x, P rb x → P rb' x) → Forall (P rb) l → Forall (P rb') l.
Proof. intros HP Hf. by eapply Forall_impl. Qed.

Lemma request_of_spec op s s' :
  request_of op s = OK s' →
  ∃ r, n_calls s' = n_calls s ++ [MkCall r Adding] ∧ n_buf s' = n_buf s ∧ n_outs s' = n_outs s ∧
       n_ins s' = n_ins s ∧ n_stop s' = n_stop s.
Proof.
  unfold request_of. destruct (prepareRequest id op _) as [[r| |] c]; intros; simplify_eq. by exists r.
Qed.

Lemma net_step_results s s' : net_step s s' → results_inv s → results_inv s'.
Proof.
  intros [a s1 s2 Hs Hrec] (Ho & Hc & Hi). unfold step in Hs. destruct a as [op|i ev|i ev|i ev|].
  - simplify_eq. destruct (request_of_spec _ _ _ Hs) as (r & E1 & E2 & E3 & E4 & E5).
    unfold results_inv. rewrite E1, E2, E4. split_and!; [done| |done]. apply Forall_app. split; [done|].
    by apply Forall_singleton.
  - destruct (n_calls s1 !! i) as [c|] eqn:Ec; [|done]. simpl in Hs.
    destruct (callStep _ _ _ _ _) as [[[c' rb']| |]|] eqn:E; simplify_eq/=.
    destruct (callStep_inv _ _ _ _ _ _ E Ho (Forall_lookup_1 _ _ _ _ Hc Ec)) as [Ho' Hc'].
    apply callStep_le in E. split_and!; simpl; [done| |].
    + apply Forall_insert; [|done]. eapply Forall_le; [intros x; by apply call_inv_le|done].
    + eapply Forall_le; [intros x; by apply in_inv_le|done].
  - destruct (n_outs s1 !! i) as [st|] eqn:Es; [|done]. simpl in Hs.
    destruct (outStep _ _ _ _) as [[[st' rb']| |]|] eqn:E; simplify_eq/=.
    apply outStep_same in E as (E & _). assert (heap_le (n_buf s1) rb') as Hle by (by apply heap_le_same).
    unfold results_inv; simpl. rewrite E. split_and!; [done| |].
    + eapply Forall_le; [intros x; by apply call_inv_le|done].
    + eapply Forall_le; [intros x; by apply in_inv_le|done].
  - destruct (n_ins s1 !! i) as [p|] eqn:Ep; [|done]. simpl in Hs.
    destruct (inStep _ _ _ _) as [[[p' rb']| |]|] eqn:E; simplify_eq/=.
    destruct (inStep_inv _ _ _ _ _ _ E Ho (Forall_lookup_1 _ _ _ _ Hi Ep)) as [Ho' Hp'].
    { intros b r -> Hb. by eapply Hrec. }
    apply inStep_le in E. split_and!; simpl; [done| |].
    + eapply Forall_le; [intros x; by apply call_inv_le|done].
    + apply Forall_insert; [|done]. eapply Forall_le; [intros x; by apply in_inv_le|done].
  - case_if; simplify_eq. done.
Qed.

(** ** The buffer *)

(** Sequence numbers increase from one request to the next, and the request in the
    buffer is the last one added. *)
Record buf_inv (rb : T) : Prop := {
  bi_sorted : ∀ i j o o', (i < j)%nat → objects rb !! i = Some o → objects rb !! j = Some o' →
    req_Sequence (o_msg o) < req_Sequence (o_msg o');
  bi_bound : ∀ k o, objects rb !! k = Some o → 0 < req_Sequence (o_msg o) ≤ lastSeq rb;
  bi_request : ∀ k, request rb = Some k → ∃ o,
    objects rb !! k = Some o ∧ o_removed o = false ∧ req_Sequence (o_msg o) = lastSeq rb }.

(** The object with a given sequence number. *)
Lemma buf_inv_unique rb k k' o o' :
  buf_inv rb → objects rb !! k = Some o → objects rb !! k' = Some o' →
  req_Sequence (o_msg o) = req_Sequence (o_msg o') → k = k'.
Proof.
  intros [Hs _ _] Hk Hk' E. destruct (Nat.lt_total k k') as [Hlt|[?|Hlt]]; [|done|].
  - pose proof (Hs _ _ _ _ Hlt Hk Hk'). lia.
  - pose proof (Hs _ _ _ _ Hlt Hk' Hk). lia.
Qed.

(** How a critical section changes the buffer, for a stream or call that is not the one
    that runs: [own] is the object whose notification it may consume. *)
Record buf_move (own : option nat) (rb rb' : T) : Prop := {
  bm_heap : heap_le rb rb';
  bm_request : request rb' = request rb ∨ request rb' = None ∨ ∀ i b, newAdded rb' !! i = Some b → b = true;
  bm_added : ∀ i b, newAdded rb !! i = Some b → newAdded rb' !! i = Some b ∨ newAdded rb' !! i = Some true;
  bm_notified : ∀ k o o', own ≠ Some k → objects rb !! k = Some o → objects rb' !! k = Some o' →
    o_newAdded o' = false → o_newAdded o = false ∧ msgs o' = msgs o }.

Lemma buf_move_refl own rb : buf_move own rb rb.
Proof. constructor; [reflexivity|by left|by left|]. intros. by simplify_eq. Qed.

Lemma buf_inv_insert rb k o o' :
  buf_inv rb → objects rb !! k = Some o → o_msg o' = o_msg o → o_removed o' = o_removed o →
  buf_inv (MkT (lastSeq rb) (request rb) (<[k := o']> (objects rb)) (newAdded rb)).
Proof.
  intros [H1 H2 H3] Hk Hm Hr.
  assert (∀ j x, <[k := o']> (objects rb) !! j = Some x →
    ∃ y, objects rb !! j = Some y ∧ o_msg x = o_msg y ∧ o_removed x = o_removed y) as Hj.
  { intros j x. destruct (decide (k = j)) as [<-|Hne]; [|rewrite list_lookup_insert_ne by done; by eauto].
    rewrite list_lookup_insert_eq by (by eapply lookup_lt_Some). intros [= <-]. eauto. }
  constructor; simpl.
  - intros i j x y Hij (x' & Hx & -> & _)%Hj (y' & Hy & -> & _)%Hj. by eapply H1.
  - intros j x (y & Hy & -> & _)%Hj. by eapply H2.
  - intros j Hj'. destruct (H3 j Hj') as (y & Hy & Hr' & Hs). destruct (decide (k = j)) as [<-|Hne].
    + simplify_eq. exists o'. rewrite list_lookup_insert_eq by (by eapply lookup_lt_Some).
      split_and!; [done|congruence|congruence].
    + exists y. by rewrite list_lookup_insert_ne.
Qed.

Lemma RemoveRequest_buf own seq rb :
  buf_inv rb → buf_inv (RemoveRequest seq rb) ∧ buf_move own rb (RemoveRequest seq rb) ∧
  newAdded (RemoveRequest seq rb) = newAdded rb.
Proof.
  intros Hi. pose proof (RemoveRequest_le seq rb) as Hle.
  destruct (RemoveRequest_cases seq rb) as [E | (k & o & Hr & Hk & Hs & E)]; rewrite E in *.
  { split; [done|]. split; [apply buf_move_refl|done]. }
  split_and!; [|constructor; simpl; [done|by auto|by auto|]|done].
  - destruct Hi as [H1 H2 H3].
    assert (∀ j x, <[k := setRemoved o]> (objects rb) !! j = Some x →
      ∃ y, objects rb !! j = Some y ∧ o_msg x = o_msg y) as Hj.
    { intros j x. destruct (decide (k = j)) as [<-|Hne]; [|rewrite list_lookup_insert_ne by done; by eauto].
      rewrite list_lookup_insert_eq by (by eapply lookup_lt_Some). intros [= <-]. eauto. }
    constructor; simpl; [| |done].
    + intros i j x y Hij (x' & Hx & ->)%Hj (y' & Hy & ->)%Hj. by eapply H1.
    + intros j x (y & Hy & ->)%Hj. by eapply H2.
  - intros j x x' _ Hx Hx' Hn. destruct (decide (k = j)) as [<-|Hne].
    + rewrite list_lookup_insert_eq in Hx' by (by eapply lookup_lt_Some). by simplify_eq.
    + rewrite list_lookup_insert_ne in Hx' by done. by simplify_eq.
Qed.

Lemma AddRequest_buf own msg rb k rb' :
  buf_inv rb → AddRequest msg rb = Added k rb' →
  buf_inv rb' ∧ buf_move own rb rb' ∧ k = length (objects rb) ∧ objects rb' !! k = Some (newRequest msg).
Proof.
  intros Hi Ha. pose proof (AddRequest_le _ _ _ _ Ha) as Hle. unfold AddRequest in Ha.
  destruct (request rb) eqn:Er; [done|]. destruct (N.leb_spec (req_Sequence msg) (lastSeq rb)); [done|].
  injection Ha as Hk Hrb. subst k rb'. destruct Hi as [H1 H2 H3]. split_and!.
  - constructor; simpl.
    + intros i j o o' Hij Hi Hj.
      assert (objects rb !! i = Some o) as Hi'.
      { rewrite lookup_app_l in Hi; [done|]. apply lookup_lt_Some in Hj. rewrite length_app in Hj. simpl in Hj. lia. }
      apply lookup_app_Some in Hj as [Hj|[_ Hj]]; [by eapply H1|].
      apply list_lookup_singleton_Some in Hj as [_ <-]. simpl. pose proof (H2 _ _ Hi'). lia.
    + intros j o Hj. apply lookup_app_Some in Hj as [Hj|[_ Hj]]; [pose proof (H2 _ _ Hj); lia|].
      apply list_lookup_singleton_Some in Hj as [_ <-]. simpl. lia.
    + intros j [= <-]. exists (newRequest msg). split; [by apply list_lookup_middle|done].
  - constructor; simpl; [done| | |].
    + right. right. intros i b Hb. by apply lookup_replicate in Hb as [-> _].
    + intros i b Hb. right. apply lookup_replicate. split; [done|]. by apply lookup_lt_Some in Hb.
    + intros j o o' _ Hj Hj' Hn. rewrite lookup_app_l in Hj' by (by eapply lookup_lt_Some). by simplify_eq.
  - done.
  - by apply list_lookup_middle.
Qed.

Lemma insert_move own rb k o o' :
  objects rb !! k = Some o → object_le o o' →
  (own ≠ Some k → o_newAdded o' = false → o_newAdded o = false ∧ msgs o' = msgs o) →
  buf_move own rb (MkT (lastSeq rb) (request rb) (<[k := o']> (objects rb)) (newAdded rb)).
Proof.
  intros Hk Hle Hn. constructor; simpl; [by eapply heap_le_insert|by left|by left|].
  intros j x x' Hown Hx Hx' Hn'. destruct (decide (k = j)) as [<-|Hne].
  - rewrite list_lookup_insert_eq in Hx' by (by eapply lookup_lt_Some). simplify_eq. auto.
  - rewrite list_lookup_insert_ne in Hx' by done. by simplify_eq.
Qed.

(** ** Calls *)

Definition objectOf (c : call) : option nat :=
  match cl_phase c with Running k _ _ _ => Some k | _ => None end.

(** A supplier that waits without a notification has fetched every reply. *)
Definition supplied (rb : T) (c : call) : Prop :=
  match cl_phase c with
  | Running k sup _ _ => ∃ o, objects rb !! k = Some o ∧
      match sup with SupSend next _ => o_newAdded o = false → next = length (msgs o) | _ => True end
  | _ => True
  end.

Lemma supplied_move own rb rb' c :
  buf_move own rb rb' → (∀ k, objectOf c = Some k → own ≠ Some k) → supplied rb c → supplied rb' c.
Proof.
  intros [Hh _ _ Hn]. unfold supplied, objectOf. destruct (cl_phase c) as [| |k sup ch col]; [done..|].
  intros Hown (o & Hk & Hs). destruct (Hh _ _ Hk) as (o' & Hk' & _). exists o'. split; [done|].
  destruct sup; [done| |done]. intros Hf. destruct (Hn k o o') as [Hf' ->]; auto.
Qed.

Lemma supply_buf k sup ch col req rb sup' ch' rb' :
  supply k sup ch rb = Some (sup', ch', rb') → buf_inv rb → supplied rb (MkCall req (Running k sup ch col)) →
  buf_inv rb' ∧ buf_move (Some k) rb rb' ∧ newAdded rb' = newAdded rb ∧
  supplied rb' (MkCall req (Running k sup' ch' col)).
Proof.
  unfold supply. intros Hs Hi (o & Hk & Hc). rewrite Hk in Hs. simpl in *.
  destruct sup as [next|next batch|]; [| |by destruct ch].
  - simplify_eq/=. split_and!; [done|apply buf_move_refl|done|]. exists o. by split.
  - destruct batch as [|m batch]; [|destruct ch; [|done]].
    + assert ((sup', ch', rb') = (SupFetch next, ch,
        MkT (lastSeq rb) (request rb) (<[k := clearAdded o]> (objects rb)) (newAdded rb)))
        as E by (destruct ch; case_if; naive_solver).
      simplify_eq. split_and!; [by eapply buf_inv_insert|by eapply insert_move|done|].
      exists (clearAdded o). split; [|done]. simpl. rewrite list_lookup_insert_eq; [done|by eapply lookup_lt_Some].
    + simplify_eq/=. split_and!; [done|apply buf_move_refl|done|]. exists o. by split.
Qed.

Lemma supplied_le rb rb' c :
  buf_move None rb rb' → supplied rb c → supplied rb' c.
Proof. intros Hm. apply (supplied_move None); [done|]. by intros. Qed.

Lemma callStep_buf stop ev c rb c' rb' :
  callStep f stop ev c rb = Some (OK (c', rb')) → buf_inv rb → supplied rb c →
  buf_inv rb' ∧ buf_move (objectOf c) rb rb' ∧ supplied rb' c' ∧
  length (newAdded rb') = length (newAdded rb) ∧
  (objectOf c' = objectOf c ∨ objectOf c' = Some (length (objects rb))).
Proof.
  intros Hs Hi Hc. unfold callStep in Hs. destruct c as [req p]. simpl in *. destruct p as [|seq k|k sup ch col].
  - destruct ev; try done. destruct (AddRequest req rb) as [seq k| |k rb1] eqn:Ea; simplify_eq.
    + split_and!; [done|apply buf_move_refl|done|done|by left].
    + destruct (AddRequest_buf None _ _ _ _ Hi Ea) as (H1 & H2 & -> & H4). split_and!; [done|done| | |by right].
      * exists (newRequest req). by split.
      * unfold AddRequest in Ea. destruct (request rb); [done|]. case_if; simplify_eq/=. apply length_replicate.
  - destruct ev; try done; case_if; simplify_eq.
    + split_and!; [done|apply buf_move_refl|done|done|by left].
    + destruct (RemoveRequest_buf None seq rb Hi) as (H1 & H2 & H3). rewrite H3. split_and!; try done. by left.
  - unfold runStep in Hs. destruct ev; try done.
    + destruct (supply k sup ch rb) as [[[sup' ch'] rb1]|] eqn:E; [|done]. simplify_eq/=.
      destruct (supply_buf _ _ _ col req _ _ _ _ E Hi Hc) as (H1 & H2 & H3 & H4). rewrite H3.
      split_and!; try done. by left.
    + destruct sup; try done. case_if; simplify_eq/=.
      split_and!; [done|apply buf_move_refl| |done|by left]. destruct Hc as (o & Hk & _). by exists o.
    + destruct col as [m|]; [|done]. unfold collect in Hs. destruct ch as [|r ch].
      { destruct sup; simplify_eq/=. split_and!; [done|apply buf_move_refl|done|done|by left]. }
      destruct (collectOne f r m) as [[res|] m']; simplify_eq/=.
      * destruct (RemoveRequest_buf None (rep_Sequence r) rb Hi) as (H1 & H2 & H3).
        split_and!; [done| | |by rewrite H3|by left].
        -- by apply RemoveRequest_buf.
        -- by eapply (supplied_le rb _ (MkCall req (Running k sup (r :: ch) (Collecting m)))).
      * split_and!; [done|apply buf_move_refl|done|done|by left].
Qed.

(** ** Streams of requests *)

(** The outgoing handler has got [m]: it was sent, is about to be, or the handler
    returned because of [stop]. *)
Definition handed (m : Request) (st : stream) : Prop :=
  m ∈ st_sent st ∨ st_out st = HSend m ∨ st_out st = HReturned.

Record stream_inv (rb : T) (st : stream) : Prop := {
  si_chan : match st_chan st with None => st = newStream | Some i => is_Some (newAdded rb !! i) end;
  si_offer : ∀ k, st_phase st = SOffer k → ∃ o,
    objects rb !! k = Some o ∧ st_last st < req_Sequence (o_msg o);
  si_last : st_last st = 0 ∨ ∃ k o,
    objects rb !! k = Some o ∧ req_Sequence (o_msg o) = st_last st ∧ handed (o_msg o) st;
  si_wait : ∀ i, st_chan st = Some i → newAdded rb !! i = Some false →
    match st_phase st with
    | SWait => ∀ k o, request rb = Some k → objects rb !! k = Some o → req_Sequence (o_msg o) ≤ st_last st
    | SOffer k => ∀ k', request rb = Some k' → k' = k
    | _ => True
    end;
  si_sorted : StronglySorted N.gt (req_Sequence <$> st_sent st);
  si_sent : match st_out st with
            | HSend r => req_Sequence r = st_last st ∧ Forall (λ q, q < st_last st) (req_Sequence <$> st_sent st)
            | _ => Forall (λ q, q ≤ st_last st) (req_Sequence <$> st_sent st)
            end }.

Lemma stream_move own rb rb' st : buf_inv rb → buf_move own rb rb' → stream_inv rb st → stream_inv rb' st.
Proof.
  intros Hb [Hh Hr Ha _] [H1 H2 H3 H4 H5 H6]. constructor; try done.
  - destruct (st_chan st) as [i|]; [|done]. destruct H1 as [b Hi]. destruct (Ha i b Hi); eauto.
  - intros k Hk. destruct (H2 k Hk) as (o & Ho & Hlt). destruct (Hh _ _ Ho) as (o' & Ho' & Hm & _).
    exists o'. by rewrite Hm.
  - destruct H3 as [?|(k & o & Ho & Hs & Hd)]; [by left|right].
    destruct (Hh _ _ Ho) as (o' & Ho' & Hm & _). exists k, o'. by rewrite Hm.
  - intros i Hi Hf. rewrite Hi in H1. destruct H1 as [b Hb'].
    assert (newAdded rb !! i = Some false) as Hf' by (destruct (Ha i b Hb'); naive_solver).
    specialize (H4 i Hi Hf').
    assert (∀ k, request rb' = Some k → request rb = Some k) as Hreq.
    { intros k Hk. destruct Hr as [<-|[Hr|Hr]]; [done|congruence|]. by specialize (Hr i false Hf). }
    destruct (st_phase st) as [|k0| |]; [done| | |done].
    + intros k' Hk'. by apply H4, Hreq.
    + intros k o' Hk Ho'. apply Hreq in Hk. destruct (bi_request _ Hb k Hk) as (o & Ho & _).
      destruct (Hh _ _ Ho) as (o2 & Ho2 & Hm & _). simplify_eq. rewrite Hm. by eapply H4.
Qed.

(** Another stream has changed its notifications only. *)
Lemma stream_other i rb rb' st :
  objects rb' = objects rb → request rb' = request rb →
  (∀ j b, newAdded rb !! j = Some b → i ≠ Some j → newAdded rb' !! j = Some b) →
  (st_chan st = None ∨ st_chan st ≠ i) → stream_inv rb st → stream_inv rb' st.
Proof.
  intros Ho Hr Ha Hi [H1 H2 H3 H4 H5 H6].
  assert (∀ j b, st_chan st = Some j → newAdded rb !! j = Some b → newAdded rb' !! j = Some b) as Hj.
  { intros j b Hj Hb. apply Ha; [done|]. intros ->. destruct Hi; congruence. }
  constructor; rewrite ?Ho; try done.
  - destruct (st_chan st) as [j|]; [|done]. destruct H1 as [b Hb]. eauto.
  - intros j Hc Hf. rewrite Hr. apply (H4 j Hc). rewrite Hc in H1. destruct H1 as [b Hb].
    by rewrite (Hj j b Hc Hb) in Hf; simplify_eq.
Qed.

Lemma stream_inv_new rb : stream_inv rb newStream.
Proof. constructor; simpl; try done; [by left|apply SSorted_nil]. Qed.

(** The steps of the outgoing handler. *)
Lemma outHandler_inv stop ev st rb st' rb' :
  outStep stop ev st rb = Some (OK (st', rb')) → stream_inv rb st →
  match ev with OvSend | OvStop | OvEnd => True | _ => False end →
  stream_inv rb' st' ∧ st_chan st' = st_chan st ∧ newAdded rb' = newAdded rb.
Proof.
  intros Hs Hi Hev. pose proof Hi as [H1 H2 H3 H4 H5 H6]. unfold outStep in Hs. destruct ev; try done.
  - assert (∃ r, st_out st = HSend r ∧ (st', rb') =
      (MkStream (st_chan st) (st_last st) (st_phase st) HReceive (r :: st_sent st), rb)) as (r & Eo & E).
    { destruct (st_chan st), (st_phase st), (st_out st); naive_solver. }
    simplify_eq. split; [|done]. rewrite Eo in H6. destruct H6 as [Hr Hall].
    constructor; simpl; try done.
    + destruct (st_chan st) eqn:Ec; [done|]. by rewrite H1 in Eo.
    + destruct H3 as [?|(k & o & Ho & Hs' & Hd)]; [by left|right]. exists k, o. split_and!; [done..|].
      unfold handed in *. simpl. rewrite Eo in Hd. destruct Hd as [?|[[= ->]|?]]; [left; set_solver|left; set_solver|done].
    + constructor; [done|]. eapply Forall_impl; [exact Hall|]. simpl. lia.
    + constructor; [lia|]. eapply Forall_impl; [exact Hall|]. simpl. lia.
  - assert (∃ r, st_out st = HSend r ∧ (st', rb') = (setOut HReturned st, rb)) as (r & Eo & E).
    { destruct (st_chan st), (st_phase st), (st_out st); try done; case_if; naive_solver. }
    simplify_eq. split; [|done]. rewrite Eo in H6. destruct H6 as [Hr Hall]. constructor; simpl; try done.
    + destruct (st_chan st) eqn:Ec; [done|]. by rewrite H1 in Eo.
    + destruct H3 as [?|(k & o & Ho & Hs' & Hd)]; [by left|right]. exists k, o. split_and!; [done..|]. by right; right.
    + eapply Forall_impl; [exact Hall|]. simpl. lia.
  - assert (st_phase st = SClosed ∧ st_out st = HReceive ∧ (st', rb') = (setOut HReturned st, rb)) as (Ep & Eo & E).
    { destruct (st_chan st), (st_phase st), (st_out st); naive_solver. }
    simplify_eq. split; [|done]. rewrite Eo in H6. constructor; simpl; try done.
    + destruct (st_chan st) eqn:Ec; [done|]. by rewrite H1 in Ep.
    + destruct H3 as [?|(k & o & Ho & Hs' & Hd)]; [by left|right]. exists k, o. split_and!; [done..|]. by right; right.
Qed.

(** A stream with its own channel [i]. *)
Lemma outStep_inv stop ev st rb st' rb' :
  outStep stop ev st rb = Some (OK (st', rb')) → buf_inv rb → stream_inv rb st →
  stream_inv rb' st' ∧
  (st_chan st' = st_chan st ∧ newAdded rb' = newAdded rb ∨
   st_chan st = None ∧ st_chan st' = Some (length (newAdded rb)) ∧ newAdded rb' = newAdded rb ++ [false] ∨
   ∃ i, st_chan st = Some i ∧ st_chan st' = Some i ∧ newAdded rb' = <[i := false]> (newAdded rb)).
Proof.
  intros Hs Hb Hi. pose proof Hi as [H1 H2 H3 H4 H5 H6].
  destruct ev; [unfold outStep in Hs..| | |].
  - destruct (st_chan st) eqn:Ec; [done|]. rewrite H1 in *. simplify_eq/=. split; [|by auto].
    constructor; simpl; try done.
    rewrite lookup_app_r, Nat.sub_diag by lia. by eexists.
  - destruct (st_chan st) eqn:Ec, (st_phase st) eqn:Ep; try done. simplify_eq/=. split; [|by auto].
    destruct (k ← request rb'; o ← objects rb' !! k; _) as [k|] eqn:El.
    + apply bind_Some in El as (k0 & Hr & (o & Ho & Hlt)%bind_Some). case_if; simplify_eq. nbool.
      constructor; simpl; try done; [by rewrite Ec|intros ? [= <-]; by eauto|]. intros i _ _ k' Hk'. congruence.
    + constructor; simpl; try done; [by rewrite Ec|]. intros i _ _ k o Hk Ho. rewrite Hk in El. simpl in El.
      rewrite Ho in El. simpl in El. case_if; [done|]. nbool. lia.
  - destruct (st_chan st) eqn:Ec, (st_phase st) as [|k| |] eqn:Ep, (st_out st) eqn:Eo; try done.
    destruct (objects rb !! k) as [o|] eqn:Ek; [|done]. simpl in Hs.
    destruct (MarshalBinary (o_msg o)); simplify_eq/=. split; [|by auto].
    destruct (H2 k eq_refl) as (o1 & Ho1 & Hlt). simplify_eq. constructor; simpl; try done.
    + right. exists k, o. split_and!; [done|done|]. right. by left.
    + intros i Hi' Hf k' o' Hk' Ho'. rewrite (H4 _ Hi' Hf k' Hk') in Ho'. by simplify_eq.
    + split; [done|]. eapply Forall_impl; [exact H6|]. simpl. lia.
  - destruct (st_chan st) as [i|] eqn:Ec, (st_phase st) as [|k| |] eqn:Ep; try done.
    destruct (removed k rb) eqn:Er; simplify_eq/=. split; [|by auto]. constructor; simpl; try done; [by rewrite Ec|].
    intros j Hj Hf k' o Hk' Ho. rewrite Ec in Hj. specialize (H4 j Hj Hf k' Hk'). subst k'.
    destruct (bi_request _ Hb k Hk') as (o' & Ho' & Hrm & _). unfold removed in Er. rewrite Ho' in Er. congruence.
  - destruct (st_chan st) as [i|] eqn:Ec, (st_phase st) as [|k| |] eqn:Ep; try done.
    case_if; simplify_eq/=. split; [|right; right; exists i; by rewrite Ec].
    constructor; simpl; try done. rewrite Ec. rewrite list_lookup_insert_eq; [by eexists|].
    destruct H1 as [b Hb']. by eapply lookup_lt_Some.
  - destruct (st_chan st) as [i|] eqn:Ec, (st_phase st) as [|k| |] eqn:Ep; try done;
      (case_if; simplify_eq/=; split; [|by auto]; constructor; simpl; try done; by rewrite Ec).
  - destruct (outHandler_inv _ _ _ _ _ _ Hs Hi I) as (? & ? & ?). auto.
  - destruct (outHandler_inv _ _ _ _ _ _ Hs Hi I) as (? & ? & ?). auto.
  - destruct (outHandler_inv _ _ _ _ _ _ Hs Hi I) as (? & ? & ?). auto.
Qed.

(** ** The whole client *)

(** No two elements of [l] have the same [g]. *)
Definition distinct {A} (g : A → option nat) (l : list A) : Prop :=
  ∀ i j x y k, l !! i = Some x → l !! j = Some y → g x = Some k → g y = Some k → i = j.

Lemma distinct_insert {A} (g : A → option nat) l i x x' :
  distinct g l → l !! i = Some x →
  (∀ k, g x' = Some k → g x = Some k ∨ ∀ j y, l !! j = Some y → g y ≠ Some k) → distinct g (<[i := x']> l).
Proof.
  intros Hd Hi Hg i1 i2 y1 y2 k E1 E2 G1 G2.
  assert (i < length l)%nat as Hlen by (by eapply lookup_lt_Some).
  destruct (decide (i = i1)) as [<-|N1], (decide (i = i2)) as [<-|N2]; [done|..|].
  - rewrite list_lookup_insert_eq in E1 by done. rewrite list_lookup_insert_ne in E2 by done. simplify_eq.
    destruct (Hg k G1) as [G|G]; [by eapply Hd|]. by destruct (G i2 y2 E2).
  - rewrite list_lookup_insert_eq in E2 by done. rewrite list_lookup_insert_ne in E1 by done. simplify_eq.
    destruct (Hg k G2) as [G|G]; [by eapply Hd|]. by destruct (G i1 y1 E1).
  - rewrite list_lookup_insert_ne in E1 by done. rewrite list_lookup_insert_ne in E2 by done. by eapply Hd.
Qed.

Lemma distinct_snoc {A} (g : A → option nat) l x : distinct g l → g x = None → distinct g (l ++ [x]).
Proof.
  intros Hd Hx i j y z k Hy Hz Gy Gz.
  apply lookup_app_Some in Hy as [Hy|[_ [_ <-]%list_lookup_singleton_Some]]; [|congruence].
  apply lookup_app_Some in Hz as [Hz|[_ [_ <-]%list_lookup_singleton_Some]]; [|congruence].
  by eapply Hd.
Qed.

Record node_inv (s : node) : Prop := {
  ni_buf : buf_inv (n_buf s);
  ni_calls : Forall (supplied (n_buf s)) (n_calls s);
  ni_objects : distinct objectOf (n_calls s);
  ni_outs : Forall (stream_inv (n_buf s)) (n_outs s);
  ni_chans : distinct st_chan (n_outs s) }.

(** The objects of calls exist. *)
Lemma supplied_object rb c k : supplied rb c → objectOf c = Some k → (k < length (objects rb))%nat.
Proof.
  unfold supplied, objectOf. destruct (cl_phase c); [done..|]. intros (o & Ho & _) [= <-].
  by eapply lookup_lt_Some.
Qed.

Lemma call_node_inv i ev c c' rb' s :
  n_calls s !! i = Some c → callStep f (n_stop s) ev c (n_buf s) = Some (OK (c', rb')) → node_inv s →
  node_inv (MkNode (n_nextSeq s) (n_authen s) rb' (<[i := c']> (n_calls s)) (n_outs s) (n_ins s) (n_stop s)).
Proof.
  intros Hc Hs [H1 H2 H3 H4 H5].
  destruct (callStep_buf _ _ _ _ _ _ Hs H1 (Forall_lookup_1 _ _ _ _ H2 Hc)) as (B1 & B2 & B3 & B4 & B5).
  constructor; simpl; [done| | | |done].
  - apply Forall_lookup_2. intros j x Hj. destruct (decide (i = j)) as [<-|Hne].
    + rewrite list_lookup_insert_eq in Hj by (by eapply lookup_lt_Some). by simplify_eq.
    + rewrite list_lookup_insert_ne in Hj by done. eapply (supplied_move (objectOf c)); [done| |].
      * intros k Hx Hk. apply Hne. by eapply H3.
      * exact (Forall_lookup_1 _ _ _ _ H2 Hj).
  - eapply distinct_insert; [done|done|]. intros k Hk. destruct B5 as [B5|B5]; [left; congruence|].
    right. intros j y Hj Hy. pose proof (supplied_object _ _ _ (Forall_lookup_1 _ _ _ _ H2 Hj) Hy).
    assert (k = length (objects (n_buf s))) by congruence. lia.
  - eapply Forall_impl; [exact H4|]. intros st. by eapply stream_move.
Qed.

Lemma in_node_inv ev p p' rb' s ins :
  inStep (n_stop s) ev p (n_buf s) = Some (OK (p', rb')) → node_inv s →
  node_inv (MkNode (n_nextSeq s) (n_authen s) rb' (n_calls s) (n_outs s) ins (n_stop s)).
Proof.
  intros Hs [H1 H2 H3 H4 H5].
  assert (buf_inv rb' ∧ buf_move None (n_buf s) rb') as [B1 B2].
  { unfold inStep in Hs. destruct p as [|k r|], ev as [b| | |]; try done.
    - assert (rb' = n_buf s) as ->; [|split; [done|apply buf_move_refl]].
      destruct (NewFromBinary b) as [[| |r| |]| |]; try (by simplify_eq).
      by destruct (authenticateReply id r); simplify_eq.
    - simplify_eq. split; [done|apply buf_move_refl].
    - case_if; simplify_eq. split; [done|apply buf_move_refl].
    - destruct (objects (n_buf s) !! k) as [o|] eqn:Ek; [|done]. simplify_eq/=. split.
      + eapply buf_inv_insert; [done|done|..]; unfold addReplyTo; by destruct (addReply _ _).
      + eapply insert_move; [done|apply addReplyTo_le|]. intros _. unfold addReplyTo, addReply.
        case_bool_decide; simpl; [by rewrite orb_false_r|by rewrite orb_true_r]. }
  constructor; simpl; try done.
  - eapply Forall_impl; [exact H2|]. intros c. by apply supplied_le.
  - eapply Forall_impl; [exact H4|]. intros st. by eapply stream_move.
Qed.

Lemma buf_inv_same rb rb' :
  objects rb' = objects rb → lastSeq rb' = lastSeq rb → request rb' = request rb → buf_inv rb → buf_inv rb'.
Proof. intros E1 E2 E3 [H1 H2 H3]. by constructor; rewrite ?E1, ?E2, ?E3. Qed.

Lemma out_node_inv i ev st st' rb' s :
  n_outs s !! i = Some st → outStep (n_stop s) ev st (n_buf s) = Some (OK (st', rb')) → node_inv s →
  node_inv (MkNode (n_nextSeq s) (n_authen s) rb' (n_calls s) (<[i := st']> (n_outs s)) (n_ins s) (n_stop s)).
Proof.
  intros Hst Hs [H1 H2 H3 H4 H5]. destruct (outStep_same _ _ _ _ _ _ Hs) as (E1 & E2 & E3).
  destruct (outStep_inv _ _ _ _ _ _ Hs H1 (Forall_lookup_1 _ _ _ _ H4 Hst)) as [Hst' Hch].
  assert (∀ j y k, n_outs s !! j = Some y → st_chan y = Some k → is_Some (newAdded (n_buf s) !! k)) as Hreg.
  { intros j y k Hj Hk. destruct (Forall_lookup_1 _ _ _ _ H4 Hj) as [Hc _ _ _ _ _]. by rewrite Hk in Hc. }
  constructor; simpl; [by eapply buf_inv_same| |done| |].
  - eapply Forall_impl; [exact H2|]. intros c. unfold supplied. by rewrite E1.
  - apply Forall_lookup_2. intros j y Hj. destruct (decide (i = j)) as [<-|Hne].
    { rewrite list_lookup_insert_eq in Hj by (by eapply lookup_lt_Some). by simplify_eq. }
    rewrite list_lookup_insert_ne in Hj by done.
    eapply (stream_other (st_chan st)); [done|done| | |exact (Forall_lookup_1 _ _ _ _ H4 Hj)].
    + intros k b Hb Hk. destruct Hch as [[_ ->]|[(_ & _ & ->)|(k' & Hk' & _ & ->)]]; [done|by apply lookup_app_l_Some|].
      rewrite list_lookup_insert_ne; [done|]. intros ->. by rewrite Hk' in Hk.
    + destruct (st_chan y) as [k|] eqn:Hy; [right|by left]. intros Hk. apply Hne. by eapply H5.
  - eapply distinct_insert; [done|done|]. intros k Hk.
    destruct Hch as [[Hc _]|[(_ & Hc & _)|(k' & Hk' & Hc & _)]]; [left; congruence| |left; congruence].
    right. intros j y Hj Hy. destruct (Hreg j y k Hj Hy) as [b Hb%lookup_lt_Some].
    assert (k = length (newAdded (n_buf s))) by congruence. lia.
Qed.

Lemma net_step_inv s s' : net_step s s' → node_inv s → node_inv s'.
Proof.
  intros [a s1 s2 Hs _] Hi. unfold step in Hs. destruct a as [op|i ev|i ev|i ev|].
  - simplify_eq. destruct (request_of_spec _ _ _ Hs) as (r & E1 & E2 & E3 & E4 & E5).
    destruct Hi as [H1 H2 H3 H4 H5]. constructor; rewrite ?E1, ?E2, ?E3; try done.
    + apply Forall_app. split; [done|]. by apply Forall_singleton.
    + by apply distinct_snoc.
  - destruct (n_calls s1 !! i) as [c|] eqn:Ec; [|done]. simpl in Hs.
    destruct (callStep _ _ _ _ _) as [[[c' rb']| |]|] eqn:E; simplify_eq/=. by eapply call_node_inv.
  - destruct (n_outs s1 !! i) as [st|] eqn:Es; [|done]. simpl in Hs.
    destruct (outStep _ _ _ _) as [[[st' rb']| |]|] eqn:E; simplify_eq/=. by eapply out_node_inv.
  - destruct (n_ins s1 !! i) as [p|] eqn:Ep; [|done]. simpl in Hs.
    destruct (inStep _ _ _ _) as [[[p' rb']| |]|] eqn:E; simplify_eq/=. by eapply in_node_inv.
  - case_if; simplify_eq. by destruct Hi.
Qed.

(** ** The constructor *)

(** The connections made are to the replicas before the first that cannot be
    connected to. *)
Lemma startReplicaConnections_spec connect ids s :
  let '(o, s') := startReplicaConnections connect ids s in
  ∃ started rest, ids = started ++ rest ∧ Forall (λ i, connect i = true) started ∧
    s' = MkNode (n_nextSeq s) (n_authen s) (n_buf s) (n_calls s)
           (n_outs s ++ replicate (length started) newStream)
           (n_ins s ++ replicate (length started) InReceive) (n_stop s) ∧
    match o, rest with
    | OK _, [] => True
    | Error _, i :: _ => connect i = false
    | _, _ => False
    end.
Proof.
  revert s. induction ids as [|i ids IH]; intros s; simpl.
  { exists [], []. simpl. rewrite !app_nil_r. by destruct s. }
  unfold startReplicaConnection, replicaConnector. destruct (connect i) eqn:Ei; simpl.
  - match goal with |- context [startReplicaConnections _ _ ?x] => specialize (IH x) end.
    destruct (startReplicaConnections _ _ _) as [o s'].
    destruct IH as (started & rest & -> & Hf & -> & Ho). exists (i :: started), rest. simpl.
    rewrite <- !app_assoc. split_and!; try done. by constructor.
  - exists [], (i :: ids). simpl. rewrite !app_nil_r. by destruct s.
Qed.

Lemma NewClient_OK connect n now au s0 :
  (NewClient connect n now au).1 = OK s0 →
  s0 = MkNode (u64 now) au New [] (replicate (N.to_nat n) newStream) (replicate (N.to_nat n) InReceive) false.
Proof.
  unfold NewClient. case_if; [done|].
  match goal with |- context [startReplicaConnections ?c ?l ?x] =>
    pose proof (startReplicaConnections_spec c l x) as Hs end.
  destruct (startReplicaConnections _ _ _) as [[[]|e|p] s']; simpl; intros [= <-].
  destruct Hs as (started & rest & Hids & _ & -> & Hr). destruct rest; [|done]. rewrite app_nil_r in Hids.
  assert (length started = N.to_nat n) as -> by (by rewrite <- Hids, length_fmap, length_seq). done.
Qed.

Lemma node_inv_init connect n now au s0 : (NewClient connect n now au).1 = OK s0 → node_inv s0.
Proof.
  intros ->%NewClient_OK. constructor; simpl.
  - constructor; simpl; [|by intros ? ?; rewrite lookup_nil|done]. intros i j o o' _. by rewrite lookup_nil.
  - constructor.
  - intros i j x y k. by rewrite lookup_nil.
  - apply Forall_replicate, stream_inv_new.
  - intros i j x y k [-> _]%lookup_replicate_1. done.
Qed.

Lemma reachable_node_inv connect n now au s : reachable connect n now au s → node_inv s.
Proof.
  intros (s0 & H0 & Hr). eapply (rtc_ind_r node_inv); [by eapply node_inv_init| |exact Hr].
  intros s1 s2 _. apply net_step_inv.
Qed.

Lemma reachable_results connect n now au s : reachable connect n now au s → results_inv s.
Proof.
  intros (s0 & H0 & Hr). eapply (rtc_ind_r results_inv); [| |exact Hr].
  - apply NewClient_OK in H0 as ->. split_and!; simpl; [constructor|constructor|]. by apply Forall_replicate.
  - intros s1 s2 _. apply net_step_results.
Qed.

(** ** After [Terminate] *)

(** Steps of the goroutines of one call, one outgoing connection, one incoming
    connection, without anything arriving. *)
Inductive own_call (i : nat) (s s' : node) : Prop :=
| own_call_step ev : step (ActCall i ev) s = Some (OK s') → own_call i s s'.
Inductive own_out (i : nat) (s s' : node) : Prop :=
| own_out_step ev : step (ActOut i ev) s = Some (OK s') → own_out i s s'.
Inductive own_in (i : nat) (s s' : node) : Prop :=
| own_in_step ev : (∀ b, ev ≠ IvBytes b) → ev ≠ IvClosed → step (ActIn i ev) s = Some (OK s') → own_in i s s'.

Definition finished (c : call) : Prop := ∃ k sup ch res, cl_phase c = Running k sup ch (Collected res).
Definition rejected (c : call) (s : node) : Prop :=
  callStep f (n_stop s) CvAdd c (n_buf s) = Some (Panic "Request message rejected").

(** The call can end by its own steps. *)
Definition call_ends (i : nat) (s : node) : Prop :=
  ∃ s' c, rtc (own_call i) s s' ∧ n_calls s' !! i = Some c ∧ (finished c ∨ rejected c s').

Definition put_call (i : nat) (c : call) (rb : T) (s : node) : node :=
  MkNode (n_nextSeq s) (n_authen s) rb (<[i := c]> (n_calls s)) (n_outs s) (n_ins s) (n_stop s).

Lemma put_call_lookup i c rb s c0 : n_calls s !! i = Some c0 → n_calls (put_call i c rb s) !! i = Some c.
Proof. intros Hi. simpl. apply list_lookup_insert_eq. by eapply lookup_lt_Some. Qed.

Lemma call_ends_step i ev c c' rb' s :
  n_calls s !! i = Some c → callStep f (n_stop s) ev c (n_buf s) = Some (OK (c', rb')) →
  call_ends i (put_call i c' rb' s) → call_ends i s.
Proof.
  intros Hi Hs (s' & x & Hr & Hx & Hf). exists s', x. split; [|done]. eapply rtc_l; [|exact Hr].
  apply (own_call_step _ _ _ ev). simpl. by rewrite Hi; simpl; rewrite Hs.
Qed.

Lemma closed_ends ch : ∀ i s req k m,
  n_calls s !! i = Some (MkCall req (Running k SupClosed ch (Collecting m))) → call_ends i s.
Proof.
  induction ch as [|r ch IH]; intros i s req k m Hi.
  - eapply (call_ends_step i CvCollect); [done|done|]. eexists _, _. split; [reflexivity|].
    split; [by eapply put_call_lookup|]. left. by eexists _, _, _, _.
  - destruct (collectOne f r m) as [[res|] m'] eqn:E.
    + eapply (call_ends_step i CvCollect); [done|cbn [callStep cl_phase runStep collect]; by rewrite E|]. eexists _, _. split; [reflexivity|].
      split; [by eapply put_call_lookup|]. left. by eexists _, _, _, _.
    + eapply (call_ends_step i CvCollect); [done|cbn [callStep cl_phase runStep collect]; by rewrite E|]. eapply IH. by eapply put_call_lookup.
Qed.

Lemma running_ends i s req k sup ch col :
  n_stop s = true → is_Some (objects (n_buf s) !! k) →
  n_calls s !! i = Some (MkCall req (Running k sup ch col)) → call_ends i s.
Proof.
  intros Hstop [o Ho] Hi. destruct col as [m|res]; cycle 1.
  { exists s, (MkCall req (Running k sup ch (Collected res))). split; [reflexivity|]. split; [done|].
    left. by eexists _, _, _, _. }
  assert (∀ s next batch, n_stop s = true →
    n_calls s !! i = Some (MkCall req (Running k (SupSend next batch) ch (Collecting m))) → call_ends i s) as Hsend.
  { intros s1 next batch Hst Hi1. eapply (call_ends_step i CvDone); [done|simpl; by rewrite Hst|].
    eapply closed_ends. by eapply put_call_lookup. }
  destruct sup as [next|next batch|]; [|by eapply Hsend|by eapply closed_ends].
  eapply (call_ends_step i CvSupply); [done|cbn [callStep cl_phase runStep]; unfold supply; by rewrite Ho|].
  eapply Hsend; [done|]. by eapply put_call_lookup.
Qed.

Lemma empty_ends i s req :
  n_stop s = true → request (n_buf s) = None → n_calls s !! i = Some (MkCall req Adding) → call_ends i s.
Proof.
  intros Hstop Hr Hi. destruct (AddRequest req (n_buf s)) as [seq k| |k rb'] eqn:Ea.
  - unfold AddRequest in Ea. rewrite Hr in Ea. by case_if.
  - exists s, (MkCall req Adding). split; [reflexivity|]. split; [done|]. right. unfold rejected. cbn [callStep cl_phase cl_req]. by rewrite Ea.
  - eapply (call_ends_step i CvAdd); [done|cbn [callStep cl_phase cl_req]; by rewrite Ea|].
    eapply running_ends; [done| |by eapply put_call_lookup]. simpl.
    unfold AddRequest in Ea. rewrite Hr in Ea. case_if; [done|]. simplify_eq/=. rewrite lookup_app_r, Nat.sub_diag by lia.
    by eexists.
Qed.

Lemma adding_ends i s req :
  buf_inv (n_buf s) → n_stop s = true → n_calls s !! i = Some (MkCall req Adding) → call_ends i s.
Proof.
  intros Hb Hstop Hi. destruct (request (n_buf s)) as [k|] eqn:Er; [|by eapply empty_ends].
  eapply (call_ends_step i CvAdd); [done|cbn [callStep cl_phase]; unfold AddRequest; by rewrite Er|].
  eapply (call_ends_step i CvCancel); [by eapply put_call_lookup|simpl; by rewrite Hstop|].
  eapply empty_ends; [done| |by eapply put_call_lookup, put_call_lookup].
  destruct (bi_request _ Hb k Er) as (o & Ho & _ & Hs). simpl. unfold RemoveRequest.
  by rewrite Er, Ho, Hs, N.eqb_refl.
Qed.

Lemma any_call_ends i s c : node_inv s → n_stop s = true → n_calls s !! i = Some c → call_ends i s.
Proof.
  intros [Hb Hc _ _ _] Hstop Hi. destruct c as [req [|seq k|k sup ch col]].
  - by eapply adding_ends.
  - eapply (call_ends_step i CvCancel); [done|simpl; by rewrite Hstop|].
    eapply adding_ends; [by apply (RemoveRequest_buf None)|done|by eapply put_call_lookup].
  - destruct (Forall_lookup_1 _ _ _ _ Hc Hi) as (o & Ho & _). by eapply running_ends.
Qed.

(** The goroutines of an outgoing connection can end by their own steps. *)
Definition out_ends (i : nat) (s : node) : Prop :=
  ∃ s' st, rtc (own_out i) s s' ∧ n_outs s' !! i = Some st ∧ st_phase st = SClosed ∧ st_out st = HReturned.

Definition put_out (i : nat) (st : stream) (rb : T) (s : node) : node :=
  MkNode (n_nextSeq s) (n_authen s) rb (n_calls s) (<[i := st]> (n_outs s)) (n_ins s) (n_stop s).

Lemma put_out_lookup i st rb s st0 : n_outs s !! i = Some st0 → n_outs (put_out i st rb s) !! i = Some st.
Proof. intros Hi. simpl. apply list_lookup_insert_eq. by eapply lookup_lt_Some. Qed.

Lemma out_ends_step i ev st st' rb' s :
  n_outs s !! i = Some st → outStep (n_stop s) ev st (n_buf s) = Some (OK (st', rb')) →
  out_ends i (put_out i st' rb' s) → out_ends i s.
Proof.
  intros Hi Hs (s' & x & Hr & Hx). exists s', x. split; [|done]. eapply rtc_l; [|exact Hr].
  apply (own_out_step _ _ _ ev). simpl. by rewrite Hi; simpl; rewrite Hs.
Qed.

Lemma closed_out_ends i s ch last out sent :
  n_stop s = true → n_outs s !! i = Some (MkStream ch last SClosed out sent) → out_ends i s.
Proof.
  intros Hstop Hi. destruct out as [|r|].
  - eapply (out_ends_step i OvEnd); [done|by destruct ch|]. eexists _, _. split; [reflexivity|].
    split; [by eapply put_out_lookup|done].
  - eapply (out_ends_step i OvStop); [done|simpl; rewrite Hstop; by destruct ch|]. eexists _, _.
    split; [reflexivity|]. split; [by eapply put_out_lookup|done].
  - eexists _, _. by split; [reflexivity|].
Qed.

Lemma registered_out_ends i s j last p out sent :
  n_stop s = true → n_outs s !! i = Some (MkStream (Some j) last p out sent) → out_ends i s.
Proof.
  intros Hstop Hi.
  assert (∀ s1 p1, n_stop s1 = true → n_outs s1 !! i = Some (MkStream (Some j) last p1 out sent) →
    p1 = SWait ∨ (∃ k, p1 = SOffer k) → out_ends i s1) as Hsel.
  { intros s1 p1 Hst Hi1 Hp. eapply (out_ends_step i OvCancel); [done| |].
    - simpl. rewrite Hst. by destruct Hp as [-> | [k ->]].
    - eapply closed_out_ends; [done|]. by eapply put_out_lookup. }
  destruct p as [|k| |]; [|by eapply Hsel; eauto|by eapply Hsel; eauto|by eapply closed_out_ends].
  eapply (out_ends_step i OvLook); [done|done|].
  eapply Hsel; [done|by eapply put_out_lookup|]. simpl. destruct (_ ≫= _); eauto.
Qed.

Lemma any_out_ends i s st : node_inv s → n_stop s = true → n_outs s !! i = Some st → out_ends i s.
Proof.
  intros [_ _ _ Ho _] Hstop Hi. destruct (Forall_lookup_1 _ _ _ _ Ho Hi) as [Hc _ _ _ _ _].
  destruct st as [[j|] last p out sent]; [by eapply registered_out_ends|]. simpl in Hc. simplify_eq.
  eapply (out_ends_step i OvRegister); [done|done|]. eapply registered_out_ends; [done|by eapply put_out_lookup].
Qed.

Definition in_ends (i : nat) (s : node) : Prop := ∃ s', rtc (own_in i) s s' ∧ n_ins s' !! i = Some InReturned.

Lemma any_in_ends i s p : results_inv s → n_stop s = true → n_ins s !! i = Some p → in_ends i s.
Proof.
  intros (_ & _ & Hp) Hstop Hi.
  assert (∀ s1, n_stop s1 = true → n_ins s1 !! i = Some InReceive → in_ends i s1) as Hrec.
  { intros s1 Hst Hi1. eexists. split.
    - apply rtc_once, (own_in_step _ _ _ IvStop); [done|done|]. simpl. rewrite Hi1. simpl. by rewrite Hst.
    - simpl. apply list_lookup_insert_eq. by eapply lookup_lt_Some. }
  destruct p as [|k r|]; [by apply Hrec| |by exists s].
  destruct (Forall_lookup_1 _ _ _ _ Hp Hi) as (o & Ho & _).
  edestruct Hrec as (s' & Hr & Hs').
  3: { exists s'. split; [|exact Hs']. eapply rtc_l; [|exact Hr]. apply (own_in_step _ _ _ IvAdd); [done|done|].
       cbn [step]. rewrite Hi. cbn. rewrite Ho. reflexivity. }
  - exact Hstop.
  - simpl. apply list_lookup_insert_eq. by eapply lookup_lt_Some.
Qed.
End Node.

(** C18: results of concurrent calls are backed, whatever the interleaving.  In any
    reachable state of a client, with any number of concurrent calls of [Request], of
    goroutines that still use a request already removed from the buffer, and whether
    or not it was terminated, the result returned to a call is backed: at least [f+1]
    distinct replicas each sent a received Reply to the very request of that call,
    authenticated with that replica's signature, with the same SHA-256 hash. *)
Theorem node_results_backed {Au} `{!Authenticator Au} id f MarshalBinary NewFromBinary received
    connect n now (au : Au) s c k sup ch result :
  reachable id f MarshalBinary NewFromBinary received connect n now au s →
  c ∈ n_calls s → cl_phase c = Running k sup ch (Collected (Some result)) →
  backed (Au := Au) id f received (cl_req c) result.
Proof.
  intros (_ & Hc & _)%reachable_results Hin Hp. rewrite Forall_forall in Hc. specialize (Hc c Hin).
  unfold call_inv in Hc. rewrite Hp in Hc. by destruct Hc as (o & _ & _ & Hb).
Qed.

(** C20: no notification is lost and requests are sent in order.  In every reachable
    state: a goroutine of [supplyRequests] that waits without a notification has handed
    the request in the buffer, if there is one, to its outgoing handler, which has sent
    it, is about to, or has returned; a goroutine of [supplyReplies] that waits without
    a notification has taken all replies of its request; and the requests sent on each
    connection have strictly increasing sequence numbers. *)
Theorem no_lost_wakeups {Au} `{!Authenticator Au} id f MarshalBinary NewFromBinary received
    connect n now (au : Au) s :
  reachable id f MarshalBinary NewFromBinary received connect n now au s →
  (∀ st i k o, st ∈ n_outs s → st_chan st = Some i → st_phase st = SWait →
     newAdded (n_buf s) !! i = Some false → request (n_buf s) = Some k → objects (n_buf s) !! k = Some o →
     handed (o_msg o) st) ∧
  (∀ c k next ch col, c ∈ n_calls s → cl_phase c = Running k (SupSend next []) ch col →
     ∃ o, objects (n_buf s) !! k = Some o ∧
          (o_newAdded o = false → next = length (rs_msgs (o_replies o)))) ∧
  (∀ st, st ∈ n_outs s → StronglySorted N.gt (req_Sequence <$> st_sent st)).
Proof.
  intros [Hb Hc _ Ho _]%reachable_node_inv. rewrite Forall_forall in Hc. rewrite Forall_forall in Ho. split_and!.
  - intros st i k o Hst Hi Hp Hf Hr Hk. destruct (Ho st Hst) as [_ _ Hlast Hwait _ _].
    specialize (Hwait i Hi Hf). rewrite Hp in Hwait. specialize (Hwait k o Hr Hk).
    pose proof (bi_bound _ Hb _ _ Hk) as Hpos. destruct (bi_request _ Hb k Hr) as (o1 & Ho1 & _ & Hs). simplify_eq.
    destruct Hlast as [?|(k' & o' & Hk' & Hs' & Hd)]; [lia|]. pose proof (bi_bound _ Hb _ _ Hk').
    assert (k' = k) as -> by (eapply buf_inv_unique; [done..|lia]). by simplify_eq.
  - intros c k next ch col Hin Hp. specialize (Hc c Hin). unfold supplied in Hc. by rewrite Hp in Hc.
  - intros st Hst. apply (Ho st Hst).
Qed.

(** C19: [Terminate] ends everything.  From any reachable state in which the client was
    terminated, the goroutines of each call of [Request], of each outgoing and of each
    incoming connection can end by their own steps, without anything arriving from the
    network and without a step of another goroutine: nothing waits for ever.  A
    call then has returned a result or none; the only exception is a call of
    [AddRequest] that is rejected, on which the code panics, because a call with a later
    sequence number overtook it. *)
Theorem terminate_ends_goroutines {Au} `{!Authenticator Au} id f MarshalBinary NewFromBinary received
    connect n now (au : Au) s i :
  reachable id f MarshalBinary NewFromBinary received connect n now au s → n_stop s = true →
  (is_Some (n_calls s !! i) → call_ends id f MarshalBinary NewFromBinary i s) ∧
  (is_Some (n_outs s !! i) → out_ends id f MarshalBinary NewFromBinary i s) ∧
  (is_Some (n_ins s !! i) → in_ends id f MarshalBinary NewFromBinary i s).
Proof.
  intros Hr Hs. pose proof (reachable_node_inv _ _ _ _ _ _ _ _ _ _ Hr) as Hi.
  pose proof (reachable_results _ _ _ _ _ _ _ _ _ _ Hr) as Hi'.
  split_and!; intros [x Hx]; [by eapply any_call_ends|by eapply any_out_ends|by eapply any_in_ends].
Qed.

(** When a client can be created, and what a failure leaves behind.  [New] succeeds
    exactly when [n >= 2*f+1] in 32-bit arithmetic and the connector has a stream handler
    for each of the replicas [0 .. n-1]; a connection to each is then running.  When the
    connector has none for replica [i], [New] returns an error, but the goroutines of
    the connections to the replicas [0 .. i-1] are running, on a [stop] channel that is
    open and that nobody can close any more. *)
Theorem client_new_exact {Au} `{!Authenticator Au} f connect n now (au : Au) :
  match NewClient f connect n now au with
  | (OK s, s') =>
      s = s' ∧ u32_add (u32_mul f 2) 1 ≤ n ∧ (∀ i, i < n → connect i = true) ∧
      n_outs s = replicate (N.to_nat n) newStream ∧ n_ins s = replicate (N.to_nat n) InReceive ∧
      n_stop s = false
  | (Error _, s') =>
      n < u32_add (u32_mul f 2) 1 ∧ n_outs s' = [] ∧ n_ins s' = [] ∨
      ∃ i, i < n ∧ connect i = false ∧ (∀ j, j < i → connect j = true) ∧
        n_outs s' = replicate (N.to_nat i) newStream ∧ n_ins s' = replicate (N.to_nat i) InReceive ∧
        n_stop s' = false
  | (Panic _, _) => False
  end.
Proof.
  unfold NewClient. destruct (N.ltb_spec n (u32_add (u32_mul f 2) 1)); [by left|].
  match goal with |- context [startReplicaConnections ?c ?l ?x] =>
    pose proof (startReplicaConnections_spec c l x) as Hs end.
  destruct (startReplicaConnections _ _ _) as [o s']. destruct Hs as (started & rest & Hids & Hf & -> & Hr).
  assert (∀ j, (j < length started)%nat → connect (N.of_nat j) = true) as Hj.
  { intros j Hj. destruct (lookup_lt_is_Some_2 started j Hj) as [x Hx].
    pose proof (lookup_app_l_Some _ rest _ _ Hx) as Hx'. rewrite <- Hids in Hx'.
    apply list_lookup_fmap_Some in Hx' as (y & -> & [-> _]%lookup_seq). exact (Forall_lookup_1 _ _ _ _ Hf Hx). }
  assert (length started + length rest = N.to_nat n)%nat as Hlen
    by (by rewrite <- length_app, <- Hids, length_fmap, length_seq).
  destruct o as [[]|e|p], rest as [|i rest]; try done; simpl in *.
  - assert (length started = N.to_nat n) as -> by lia. split_and!; try done.
    intros i Hi. rewrite <- (N2Nat.id i). apply Hj. lia.
  - right. assert (i = N.of_nat (length started)) as ->.
    { assert ((N.of_nat <$> seq 0 (N.to_nat n)) !! length started = Some i) as Hl
        by (rewrite Hids; by apply list_lookup_middle).
      by apply list_lookup_fmap_Some in Hl as (y & -> & [-> _]%lookup_seq). }
    exists (N.of_nat (length started)). rewrite Nat2N.id. split_and!; try done; [lia|].
    intros j Hlt. rewrite <- (N2Nat.id j). apply Hj. lia.
Qed.

(** ** Concrete runs: client 9, f = 1, three replicas *)

Section Runs.
#[local] Existing Instance plainAuthen.

Definition encode (r : Request) : outcome bytes := OK [].

Definition client0 (now : N) : node := (NewClient (Au := N) 1 (λ _, true) 3 now 0).2.

(** A sequence of actions, each possible and without a panic. *)
Fixpoint exec (decode : bytes → outcome Message) (acts : list action) (s : node) : option node :=
  match acts with
  | [] => Some s
  | a :: acts => match step 9 1 encode decode a s with Some (OK s') => exec decode acts s' | _ => None end
  end.

Lemma exec_reachable decode (received : Reply → Prop) now acts s :
  exec decode acts (client0 now) = Some s →
  Forall (λ a, ∀ i b r, a = ActIn i (IvBytes b) → decode b = OK (Msg_Reply r) → received r) acts →
  reachable 9 1 encode decode received (λ _, true) 3 now 0 s.
Proof.
  intros He Hf. exists (client0 now). split; [reflexivity|]. revert He. generalize (client0 now).
  induction Hf as [|a acts Ha Hf IH]; simpl; intros s0 He; [by simplify_eq|].
  destruct (step _ _ _ _ a s0) as [[s1| |]|] eqn:Es; [|done..].
  eapply rtc_l; [|by apply IH]. by eapply net_act.
Qed.

(** A byte stands for the Reply of that replica to request 5. *)
Definition decode5 (b : bytes) : outcome Message :=
  match b with [x] => OK (Client.reply_of (Byte.to_N x) 5) | _ => Error (Errorf "unmarshal") end.

(** A request is added, taken by the stream to replica 0 and sent; then two replicas
    answer. *)
Definition adding : list action :=
  [ActRequest []; ActCall 0 CvAdd; ActOut 0 OvRegister; ActOut 0 OvLook; ActOut 0 OvHand; ActOut 0 OvSend].
Definition answering (b1 b2 : byte) : list action :=
  [ActIn 0 (IvBytes [b1]); ActIn 0 IvAdd; ActIn 2 (IvBytes [b2]); ActIn 2 IvAdd;
   ActCall 0 CvSupply; ActCall 0 CvSupply; ActCall 0 CvCollect; ActCall 0 CvSupply; ActCall 0 CvCollect].

Definition after (acts : list action) : node := default (client0 5) (exec decode5 acts (client0 5)).

Lemma after_reachable acts :
  bool_decide (is_Some (exec decode5 acts (client0 5))) = true →
  reachable 9 1 encode decode5 (λ _, True) (λ _, true) 3 5 0 (after acts).
Proof.
  intros [s Hs]%bool_decide_eq_true. unfold after. rewrite Hs.
  apply (exec_reachable _ _ _ acts); [done|]. by apply Forall_true.
Qed.

Lemma node_results_backed_witness :
  backed (Au := N) 9 1 (λ _, True) (MkRequest 9 5 [] []) [].
Proof.
  apply (node_results_backed 9 1 encode decode5 (λ _, True) (λ _, true) 3 5 0 (after (adding ++ answering Byte.x00 Byte.x02))
    (MkCall (MkRequest 9 5 [] []) (Running 0 (SupSend 2 []) [] (Collected (Some [])))) 0 (SupSend 2 []) []).
  - apply after_reachable. vm_compute. reflexivity.
  - vm_compute. left.
  - reflexivity.
Defined.

(** The stream to replica 0 waits, without a notification. *)
Lemma no_lost_wakeups_witness :
  handed (MkRequest 9 5 [] []) (MkStream (Some 0%nat) 5 SWait HReceive [MkRequest 9 5 [] []]).
Proof.
  destruct (no_lost_wakeups 9 1 encode decode5 (λ _, True) (λ _, true) 3 5 0 (after adding)) as [H _].
  { apply after_reachable. vm_compute. reflexivity. }
  apply (H _ 0%nat 0%nat (newRequest (MkRequest 9 5 [] []))); [vm_compute; left|vm_compute; reflexivity..].
Defined.

(** Terminated while the call waits for replies and another waits for the buffer. *)
Lemma terminate_ends_goroutines_witness :
  call_ends 9 1 encode decode5 1 (after (adding ++ [ActRequest []; ActCall 1 CvAdd; ActTerminate])).
Proof.
  apply (terminate_ends_goroutines 9 1 encode decode5 (λ _, True) (λ _, true) 3 5 0
    (after (adding ++ [ActRequest []; ActCall 1 CvAdd; ActTerminate])) 1).
  - apply after_reachable. vm_compute. reflexivity.
  - vm_compute. reflexivity.
  - vm_compute. eexists. reflexivity.
Defined.
End Runs.
End ClientNode.
