(* ===== verification/Replies.v ===== *)
(** What clients are told.

    A replica executes requests one after the other, receives the results from
    the request consumer later and in any order, and keeps the Reply with the
    highest identifier for each client.  [replies_report_execution] says that
    whatever a client is sent is the result of its own request at the place the
    request has in the sequence of executed requests and that no execution is
    forgotten, [view0_replies_agree] that the replicas of the first view give the same
    answers, and [client_result_executed] that the results a client returns are such
    answers of a correct replica. *)

From Stdlib Require Import Strings.Byte.
From S2P Require Import Prelude Sha256 Usig Messages Authen ViewState Timer ClientState RequestList.
From S2P Require Import MessageLog Quorum Commit Api Validation NewViewCert Collect.
From S2P Require Import Replica Handling Preservation Core InView Client ClientNode.

Import ViewState(viewState, currentView, expectedView).
Import ClientState(clientState, replyState, seqS, replyS, lastRepliedSeq, last_reply, ReplySend).

Module Replies.
Import Replica Handling Preservation Quorum.
Import Core(seqs_of, seqs_of_snoc).

Section Results.
Context {Co : Type} `{!RequestConsumer Co}.

(** The state of a consumer that has been given a sequence of requests. *)
Definition delivered (co : Co) (l : list Request) : Co :=
  foldl (λ co r, (Deliver (req_Operation r) co).2) co l.

(** [result] is what the consumer answered to the request [seq] of client [c], one of
    [l], delivered after those before it. *)
Definition answer (co : Co) (l : list Request) (c seq : N) (result : bytes) : Prop :=
  ∃ k req, l !! k = Some req ∧ req_ClientID req = c ∧ req_Sequence req = seq ∧
    result = (Deliver (req_Operation req) (delivered co (take k l))).1.

Lemma answer_prefix co l l' c seq res : l `prefix_of` l' → answer co l c seq res → answer co l' c seq res.
Proof.
  intros [l2 ->] (k & req & Hk & Hc & Hs & Hr). exists k, req. split_and!; [|done..|].
  - by apply lookup_app_l_Some.
  - rewrite take_app_le; [done|]. apply lookup_lt_Some in Hk. lia.
Qed.

Lemma answer_last co l req :
  answer co (l ++ [req]) (req_ClientID req) (req_Sequence req)
    (Deliver (req_Operation req) (delivered co l)).1.
Proof.
  exists (length l), req. split_and!; [|done..|by rewrite take_app_length].
  by apply list_lookup_middle.
Qed.

(** The identifiers of a client increase along the sequence. *)
Lemma sorted_unique l c i j ri rj :
  StronglySorted N.lt (seqs_of c l) → (i < j)%nat → l !! i = Some ri → l !! j = Some rj →
  req_ClientID ri = c → req_ClientID rj = c → req_Sequence ri < req_Sequence rj.
Proof.
  revert i j. induction l as [|r l IH]; intros i j Hs Hij Hi Hj Hci Hcj; [done|].
  unfold seqs_of in Hs. rewrite filter_cons in Hs.
  destruct j as [|j]; [lia|]. destruct i as [|i]; simpl in *.
  - simplify_eq. rewrite decide_True in Hs by done. simpl in Hs.
    apply StronglySorted_inv in Hs as [_ Hf]. rewrite Forall_forall in Hf. apply Hf.
    apply list_elem_of_fmap. exists rj. split; [done|]. apply list_elem_of_filter.
    split; [done|]. by eapply list_elem_of_lookup_2.
  - apply (IH i j); [|lia|done..]. unfold seqs_of. case_decide; [|done].
    by apply StronglySorted_inv in Hs as [Hs _].
Qed.

(** So there is one answer to an identifier. *)
Lemma answer_unique co l c seq r1 r2 :
  StronglySorted N.lt (seqs_of c l) → answer co l c seq r1 → answer co l c seq r2 → r1 = r2.
Proof.
  intros Hs (i & ri & Hi & Hci & Hsi & ->) (j & rj & Hj & Hcj & Hsj & ->).
  destruct (Nat.lt_total i j) as [Hlt|[<-|Hlt]]; [|by simplify_eq|].
  - pose proof (sorted_unique _ _ _ _ _ _ Hs Hlt Hi Hj Hci Hcj). lia.
  - pose proof (sorted_unique _ _ _ _ _ _ Hs Hlt Hj Hi Hcj Hci). lia.
Qed.
End Results.

Section Replies.
Context {Au Co : Type} `{!Authenticator Au} `{!RequestConsumer Co} `{!RangeOrder}.
Context (id : N) (cfg : Configer).
Abbreviation state := (replica Au Co).

Definition clientOf (c : N) (s : state) : clientState :=
  default ClientState.newClientState (clientStates s !! c).
Definition replies (c : N) (s : state) : replyState := replyS (clientOf c s).

(** ** Everything but executing and replying *)

Definition silent (s s' : state) : Prop :=
  consumer s = consumer s' ∧ executions s = executions s' ∧ executed s = executed s' ∧
  ∀ c, replies c s = replies c s'.

#[local] Instance silent_preorder : PreOrder silent.
Proof. split; unfold silent; [done|]. intros ??? (?&?&?&?) (?&?&?&?). split_and!; congruence. Qed.

Lemma silent_client c x (s : state) :
  replyS x = replies c s → silent s (set_clientStates (<[c := x]> (clientStates s)) s).
Proof.
  intros Hx. split_and!; [done..|]. intros c'. unfold replies, clientOf in *. simpl.
  destruct (decide (c = c')) as [<-|Hne]; [by rewrite lookup_insert_eq|by rewrite lookup_insert_ne].
Qed.

Lemma onClient_silent {A} c (g : clientState → A * clientState) :
  (∀ x, replyS (g x).2 = replyS x) → rel silent (onClient c g).
Proof.
  intros Hg. apply rel_zoom. intros s a t E. unfold ClientState.withClient in E.
  specialize (Hg (clientOf c s)). unfold clientOf in Hg. destruct (g _) as [a' x]. simplify_eq/=.
  by apply silent_client.
Qed.

Lemma onClientTimer_silent c get put g :
  (∀ t x, replyS (put t x) = replyS x) → rel silent (onClientTimer c get put g).
Proof.
  intros Hput s. unfold onClientTimer. destruct (g _) as [t p]. simpl.
  apply (silent_client c (put t (clientOf c s)) s). by rewrite Hput.
Qed.

Lemma onViewChangeTimer_silent g : rel silent (onViewChangeTimer g).
Proof. apply rel_modify. intros s. by destruct (g _). Qed.
Lemma generateTag_silent role b : rel silent (generateTag role b).
Proof. intros s. unfold generateTag. by destruct (GenerateMessageAuthenTag _ _ _). Qed.
Hint Resolve onViewChangeTimer_silent generateTag_silent : mrel.
Hint Extern 1 (rel silent (onClientTimer _ _ _ _)) => (by apply onClientTimer_silent) : mrel.
Hint Extern 1 (rel silent (modify _)) => (by apply rel_modify) : mrel.
Hint Extern 1 (rel silent (zoom _ _ _)) => (by apply rel_zoom) : mrel.

Lemma onSeq_silent c op : rel silent (onSeq c op).
Proof.
  unfold onSeq. apply rel_bind; [apply _| |intros [?|[]|]; auto with mrel].
  apply onClient_silent. intros x. by destruct (op _).
Qed.
Hint Resolve onSeq_silent : mrel.

Lemma captureReq_silent req : rel silent (captureReq req).
Proof.
  unfold captureReq. apply rel_bind; [apply _| |auto with mrel].
  apply onClient_silent. intros x. by destruct (ClientState.CaptureRequestSeq _ _).
Qed.
Lemma releaseReq_silent req : rel silent (releaseReq req).
Proof. by apply onClient_silent. Qed.
Lemma prepareReq_silent req : rel silent (prepareReq req).
Proof. unfold prepareReq. auto 6 with mrel. Qed.
Lemma retireReq_silent req : rel silent (retireReq req).
Proof. unfold retireReq. auto 6 with mrel. Qed.
Lemma unprepareReqs_silent : rel silent unprepareReqs.
Proof.
  unfold unprepareReqs. apply rel_bind; [apply _|auto with mrel|intros reqs].
  apply rel_forM; [apply _|]. intros req. apply rel_bind; [apply _|by apply onClient_silent|auto with mrel].
Qed.
Lemma startReqTimer_silent req v : rel silent (startReqTimer cfg req v).
Proof. by apply onClientTimer_silent. Qed.
Lemma stopReqTimer_silent req : rel silent (stopReqTimer req).
Proof. by apply onClientTimer_silent. Qed.
Lemma startPrepTimer_silent req v : rel silent (startPrepTimer cfg req v).
Proof. by apply onClientTimer_silent. Qed.
Lemma stopPrepTimer_silent req : rel silent (stopPrepTimer req).
Proof. by apply onClientTimer_silent. Qed.
Lemma stopVCTimer_silent : rel silent stopVCTimer.
Proof. apply onViewChangeTimer_silent. Qed.
Hint Resolve captureReq_silent releaseReq_silent prepareReq_silent retireReq_silent unprepareReqs_silent
  startReqTimer_silent stopReqTimer_silent startPrepTimer_silent stopPrepTimer_silent stopVCTimer_silent : mrel.

Lemma sign_silent m : rel silent (signMessage m).
Proof. unfold signMessage. auto 6 with mrel. Qed.
Lemma assignUI_silent m : rel silent (assignUI m).
Proof. unfold assignUI. auto 6 with mrel. Qed.
Hint Resolve sign_silent assignUI_silent : mrel.

Lemma certified_silent cm : rel silent (handleGeneratedMessage (Msg_Certified cm)).
Proof.
  intros s. unfold handleGeneratedMessage, mbind, M_bind, mret, M_ret. pose proof (assignUI_silent cm s) as Ha.
  destruct (assignUI cm s) as [[m'| |] s'] eqn:E; done.
Qed.
Lemma reqViewChange_silent r : rel silent (handleGeneratedMessage (Msg_ReqViewChange r)).
Proof.
  intros s. unfold handleGeneratedMessage, mbind, M_bind.
  pose proof (sign_silent (Msg_ReqViewChange r) s) as Ha. unfold signMessage, mbind, M_bind in *.
  destruct (lift _ s) as [[b| |] s1]; [|done..]. destruct (generateTag _ _ s1) as [[sig| |] s2]; done.
Qed.
Hint Resolve certified_silent reqViewChange_silent : mrel.

Lemma generated_silent m : gen_ok id cfg m → isReply m = false → rel silent (handleGeneratedMessage m).
Proof. destruct m; try done; auto with mrel. Qed.

(** ** Executing *)

(** [executeRequest] leaves everything as it is, or appends a request to the
    sequence and its execution to the pending ones. *)
Definition ran (req : Request) (s s' : state) : Prop :=
  ∃ t, silent s t ∧
    (s' = t ∨ ∃ res co, Deliver (req_Operation req) (consumer s) = (res, co) ∧
       s' = set_consumer co (executions s ++ [MkExecution (req_ClientID req) (req_Sequence req) res])
              (executed s ++ [req]) t).

Lemma executeRequest_ran req (s : state) : ran req s (executeRequest req s).2.
Proof.
  unfold executeRequest, mbind, M_bind. pose proof (retireReq_silent req s) as H1.
  destruct (retireReq req s) as [[[]| |] s1]; simpl in *; try (exists s1; by eauto).
  pose proof (stopReqTimer_silent req s1) as H2. destruct (stopReqTimer req s1) as [[[]| |] s2]; simpl in *;
    (assert (silent s s2) as H3 by (by etrans)); exists s2; (split; [done|]); [right|by left..].
  destruct H3 as (-> & -> & -> & _). destruct (Deliver _ _) as [res co]. eauto.
Qed.

(** ** The invariant *)

Definition pending (req : Request) (s : state) : Prop :=
  ∃ e, e ∈ executions s ∧ ex_clientID e = req_ClientID req ∧ ex_seq e = req_Sequence req.

Definition reply_ok (co : Co) (l : list Request) (c : N) (rs : replyState) : Prop :=
  match last_reply rs with
  | None => lastRepliedSeq rs = 0
  | Some r => rep_ReplicaID r = id ∧ rep_ClientID r = c ∧ rep_Sequence r = lastRepliedSeq rs ∧
              answer co l c (rep_Sequence r) (rep_Result r)
  end.

Record good (co : Co) (s : state) : Prop := {
  g_consumer : consumer s = delivered co (executed s);
  g_pending : Forall (λ e, answer co (executed s) (ex_clientID e) (ex_seq e) (ex_result e)) (executions s);
  g_replies : ∀ c, reply_ok co (executed s) c (replies c s);
  g_all : ∀ req, req ∈ executed s →
    pending req s ∨ req_Sequence req ≤ lastRepliedSeq (replies (req_ClientID req) s) }.

Definition good_rel (co : Co) (s s' : state) : Prop := good co s → good co s'.
#[local] Instance good_preorder co : PreOrder (good_rel co).
Proof. split; unfold good_rel; [by intros ?|]. intros ???; auto. Qed.

Lemma silent_good co s s' : silent s s' → good_rel co s s'.
Proof.
  intros (E1 & E2 & E3 & E4) [G1 G2 G3 G4].
  constructor; unfold pending; rewrite <- ?E1, <- ?E2, <- ?E3; try done.
  - intros c. by rewrite <- E4.
  - intros req Hin. rewrite <- E4. by apply G4.
Qed.

Lemma rel_silent_good {A} co (m : M state A) : rel silent m → rel (good_rel co) m.
Proof. intros Hm s. apply silent_good, Hm. Qed.

Lemma reply_ok_prefix co l l' c rs : l `prefix_of` l' → reply_ok co l c rs → reply_ok co l' c rs.
Proof. unfold reply_ok. destruct (last_reply rs); [|done]. intros ? (?&?&?&?). eauto using answer_prefix. Qed.

Lemma executeRequest_good co req : rel (good_rel co) (executeRequest req).
Proof.
  intros s Hg. destruct (executeRequest_ran req s) as (t & Ht & [->|(res & co' & Ed & ->)]);
    [by apply (silent_good _ _ _ Ht)|].
  pose proof (answer_last co (executed s) req) as Ha. destruct Hg as [G1 G2 G3 G4].
  rewrite <- G1, Ed in Ha. simpl in Ha. destruct Ht as (E1 & E2 & E3 & E4).
  assert (executed s `prefix_of` executed s ++ [req]) as Hp by (by apply prefix_app_r).
  constructor; simpl.
  - unfold delivered. rewrite foldl_snoc. fold (delivered co (executed s)). by rewrite <- G1, Ed.
  - apply Forall_app. split; [|by apply Forall_singleton].
    eapply Forall_impl; [exact G2|]. intros e. by apply answer_prefix.
  - intros c. eapply reply_ok_prefix; [exact Hp|]. change (reply_ok co (executed s) c (replies c t)).
    by rewrite <- E4.
  - intros r Hr. apply elem_of_app in Hr as [Hr|Hr%list_elem_of_singleton]; [|subst r].
    + destruct (G4 r Hr) as [(e & He & ?)|Hle].
      * left. exists e. simpl. set_solver.
      * right. change (req_Sequence r ≤ lastRepliedSeq (replies (req_ClientID r) t)). by rewrite <- E4.
    + left. eexists. simpl. split; [apply elem_of_app; right; by apply list_elem_of_singleton|done].
Qed.

#[local] Instance good_handles co : Handles id cfg (good_rel co).
Proof.
  constructor; try apply _; intros; try (apply executeRequest_good);
    (apply rel_silent_good || apply silent_good); auto using generated_silent with mrel; try done.
  - apply processRequest_parts; [apply _|..]; intros; auto with mrel.
  - unfold processReqViewChange, startViewChange, startVCTimer. auto 25 with mrel.
  - unfold processNewViewCert. auto 10 with mrel.
  - unfold handlePrepTimeout. auto 10 with mrel.
Qed.

(** ** Replying *)

Lemma AddReply_le r (rs : replyState) :
  rep_Sequence r ≤ lastRepliedSeq (ClientState.AddReply r rs) ∧
  lastRepliedSeq rs ≤ lastRepliedSeq (ClientState.AddReply r rs).
Proof. unfold ClientState.AddReply. case_if; simpl; nbool; lia. Qed.

(** An execution that finishes leaves the pending ones, and its signed Reply is
    added to the client's. *)
Lemma finishExecution_spec i c q res (s : state) o s' :
  executions s !! i = Some (MkExecution c q res) → finishExecution id i s = (o, s') → isPanic o = false →
  ∃ sig, let r := rep_SetSignature sig (NewReply id c q res) in
    consumer s' = consumer s ∧ executions s' = delete i (executions s) ∧ executed s' = executed s ∧
    ∀ c', replies c' s' = if decide (c = c') then ClientState.AddReply r (replies c s) else replies c' s.
Proof.
  intros Hi. unfold finishExecution, handleGeneratedMessage, signMessage, generateTag.
  unfold mbind, M_bind, gets. simpl. rewrite Hi. cbn.
  destruct (GenerateMessageAuthenTag _ _ _) as [[sig|e|p] au]; cbn; intros [= <- <-]; [intros _|done..].
  exists sig. split_and!; [done..|]. intros c'. unfold replies, clientOf. simpl.
  case_decide; [subst; by rewrite lookup_insert_eq|by rewrite lookup_insert_ne].
Qed.

Lemma finishExecution_good co i s o s' :
  finishExecution id i s = (o, s') → isPanic o = false → good_rel co s s'.
Proof.
  destruct (executions s !! i) as [[c q res]|] eqn:Hi; cycle 1.
  { unfold finishExecution, mbind, M_bind, gets. simpl. rewrite Hi. by intros [= <- <-]. }
  intros Hf Ho. destruct (finishExecution_spec _ _ _ _ _ _ _ Hi Hf Ho) as (sig & E1 & E2 & E3 & E4).
  set (r := rep_SetSignature _ _) in *. intros [G1 G2 G3 G4].
  pose proof (Forall_lookup_1 _ _ _ _ G2 Hi) as Ha. simpl in Ha.
  constructor; unfold pending; rewrite ?E1, ?E2, ?E3; [done|by apply Forall_delete| |].
  - intros c'. rewrite E4. case_decide; [subst c'|done]. unfold ClientState.AddReply. by case_if.
  - intros req Hr. rewrite E4. destruct (G4 req Hr) as [(e & He & Hc & Hs)|Hle].
    + rewrite (delete_Permutation _ _ _ Hi) in He. apply elem_of_cons in He as [->|He].
      * right. simpl in *. rewrite decide_True by done. rewrite <- Hs. apply (AddReply_le r).
      * left. by exists e.
    + right. case_decide; [|done]. subst c. etrans; [exact Hle|]. apply AddReply_le.
Qed.

Lemma good_init au co : good co (newReplica id cfg au co).
Proof.
  constructor; simpl; [done|constructor| |set_solver].
  intros c. unfold replies, clientOf. simpl. by rewrite lookup_empty.
Qed.

Lemma reachable_good au co s : reachable id cfg au co s → good co s.
Proof.
  intros Hr. eapply (rtc_ind_r (good co)); [apply good_init| |exact Hr].
  intros s1 s2 _ [a s3 s4 o Hp Ho] Hg. destruct a as [m|t|i]; [| |by eapply finishExecution_good].
  - pose proof (perform_handles id cfg (good_rel co) ltac:(intros; by apply silent_good)
      (Process m) ltac:(done) s3) as H'. rewrite Hp in H'. by apply H'.
  - pose proof (perform_handles id cfg (good_rel co) ltac:(intros; by apply silent_good)
      (Expire t) ltac:(done) s3) as H'. rewrite Hp in H'. by apply H'.
Qed.

Lemma oreachable_reachable order au co s : InView.oreachable id cfg order au co s → reachable id cfg au co s.
Proof.
  intros Hr. eapply (rtc_subrel _ _); [|exact Hr].
  intros s1 s2 [a s3 s4 o Hp Ho _]. by econstructor.
Qed.

Lemma reply_answers au co s req r :
  reachable id cfg au co s → replyRequest req s = OK (ReplySend r) →
  rep_ReplicaID r = id ∧ rep_ClientID r = req_ClientID req ∧ rep_Sequence r = req_Sequence req ∧
  answer co (executed s) (req_ClientID req) (req_Sequence req) (rep_Result r).
Proof.
  intros Hr%reachable_good. pose proof (g_replies _ _ Hr (req_ClientID req)) as Hc.
  unfold replyRequest, ClientState.ReplyChannel. change (replyS _) with (replies (req_ClientID req) s).
  unfold reply_ok in Hc. case_if; [|done]. destruct (last_reply _) as [r'|]; [|done].
  destruct (N.eqb_spec (rep_Sequence r') (req_Sequence req)) as [Hq|]; [|done]. intros [= ->].
  rewrite Hq in Hc. naive_solver.
Qed.
End Replies.

(** C6: what a client is told is what was executed.  Consider any reachable state of a
    replica and any request, and what the channel of [replyRequest] yields for it.  A Reply
    is this replica's, to that client, for that identifier, and carries the answer the
    consumer gave to the request the replica executed for it, when it was delivered after
    exactly those executed before it; the results may have arrived in any order.  The channel
    is closed without a Reply only when a later request of the client was executed.  While
    it waits, the request has not been executed or its execution is still pending: no
    execution is forgotten.  It panics only for the identifier 0 while no Reply to that
    client has been added, and never returns an error. *)
Theorem replies_report_execution {Au Co} `{!Authenticator Au} `{!RequestConsumer Co} `{!RangeOrder}
    id cfg (au : Au) (co : Co) s req :
  reachable id cfg au co s →
  match replyRequest req s with
  | OK (ReplySend r) =>
      rep_ReplicaID r = id ∧ rep_ClientID r = req_ClientID req ∧ rep_Sequence r = req_Sequence req ∧
      answer co (executed s) (req_ClientID req) (req_Sequence req) (rep_Result r)
  | OK ClientState.ReplyClosed =>
      ∃ later, later ∈ executed s ∧ req_ClientID later = req_ClientID req ∧
        req_Sequence req < req_Sequence later
  | OK ClientState.ReplyWait =>
      ∀ r, r ∈ executed s → req_ClientID r = req_ClientID req → req_Sequence r = req_Sequence req →
        pending r s
  | Panic _ => req_Sequence req = 0 ∧ last_reply (replies (req_ClientID req) s) = None
  | Error _ => False
  end.
Proof.
  intros Hr. destruct (replyRequest req s) as [[| |r]|e|p] eqn:E;
    [| |by eapply (reply_answers id cfg); eauto|..];
    pose proof (reachable_good id cfg au co s Hr) as [_ _ G3 G4]; specialize (G3 (req_ClientID req));
    revert E; unfold replyRequest, ClientState.ReplyChannel, reply_ok in *;
    change (replyS _) with (replies (req_ClientID req) s);
    (destruct (N.leb_spec (req_Sequence req) (lastRepliedSeq (replies (req_ClientID req) s))); [|try done]);
    try (destruct (last_reply _) as [r'|]; [case_if; try done|try done]).
  - intros _ r Hin Hc Hs. destruct (G4 r Hin) as [?|Hle]; [done|]. rewrite Hc in Hle. lia.
  - intros _. nbool. destruct G3 as (_ & _ & Hseq & k & later & Hk & Hc & Hs & _). exists later.
    split; [by eapply list_elem_of_lookup_2|]. split; [done|]. lia.
  - intros _. split; [lia|done].
Qed.

(** Replicas of the first view give the same answers.  Of two replicas as in
    [view0_agreement], with consumers that start in the same state, the Replies to
    requests with the same client and identifier carry the same result. *)
Theorem view0_replies_agree {Au1 Au2 Co} `{!Authenticator Au1} `{!Authenticator Au2}
    `{!RequestConsumer Co} `{!RangeOrder}
    id1 id2 cfg (order : N → Request) (au1 : Au1) (au2 : Au2) (co : Co) s1 s2 req1 req2 r1 r2 :
  in_u32 (cfg_N cfg) → cfg_F cfg < 2 ^ 31 → notEnoughNodes (cfg_N cfg) (cfg_F cfg) = false →
  InView.oreachable id1 cfg order au1 co s1 → InView.oreachable id2 cfg order au2 co s2 →
  expectedView (views s1) = 0 → expectedView (views s2) = 0 →
  replyRequest req1 s1 = OK (ReplySend r1) → replyRequest req2 s2 = OK (ReplySend r2) →
  req_ClientID req1 = req_ClientID req2 → req_Sequence req1 = req_Sequence req2 →
  rep_Result r1 = rep_Result r2.
Proof.
  intros H1 H2 H3 O1 O2 V1 V2 P1 P2 Ec Es.
  pose proof (oreachable_reachable _ _ _ _ _ _ O1) as R1.
  pose proof (oreachable_reachable _ _ _ _ _ _ O2) as R2.
  destruct (reply_answers _ _ _ _ _ _ _ R1 P1) as (_ & _ & _ & A1).
  destruct (reply_answers _ _ _ _ _ _ _ R2 P2) as (_ & _ & _ & A2). rewrite Ec, Es in A1.
  pose proof (Core.ki_sorted _ _ (Core.reachable_core_inv _ _ _ _ _ R1) (req_ClientID req2)) as S1.
  pose proof (Core.ki_sorted _ _ (Core.reachable_core_inv _ _ _ _ _ R2) (req_ClientID req2)) as S2.
  destruct (InView.executed_comparable id1 id2 cfg order au1 co au2 co s1 s2) as [_ [Hp|Hp]]; try done.
  - eapply answer_unique; [exact S2|by eapply answer_prefix|done].
  - eapply answer_unique; [exact S1|done|by eapply answer_prefix].
Qed.

(** ** The client's results *)

Section EndToEnd.
Context {AuC Au Co : Type} `{!Authenticator AuC} `{!Authenticator Au} `{!RequestConsumer Co} `{!RangeOrder}.
Context (clientID : N) (cfg : Configer) (au : N → Au) (co : Co) (faulty : gset N).

(** The replica of a Reply, in some state of one of its runs, sent it. *)
Definition sent (r : Reply) : Prop :=
  ∃ s req, reachable (rep_ReplicaID r) cfg (au (rep_ReplicaID r)) co s ∧
           replyRequest req s = OK (ReplySend r).

(** Signatures are not forged: a Reply that authenticates as from a replica that is
    not faulty was sent by it. *)
Definition unforged (r : Reply) : Prop :=
  Client.authenticateReply (Au := AuC) clientID r = OK tt → rep_ReplicaID r ∈ faulty ∨ sent r.

Lemma backed_correct f req result :
  N.of_nat (size faulty) ≤ f → Client.backed (Au := AuC) clientID f unforged req result →
  ∃ r, rep_ReplicaID r ∉ faulty ∧ sent r ∧ rep_ClientID r = clientID ∧
       rep_Sequence r = req_Sequence req ∧ Sha256.sum256 (rep_Result r) = Sha256.sum256 result.
Proof.
  intros Hf (R & HR & Hall). destruct (set_choose_or_empty (R ∖ faulty)) as [[i Hi]|He].
  - apply elem_of_difference in Hi as [Hi Hn]. destruct (Hall i Hi) as (r & (Hu & Hc & Hs & Ha) & <- & Hh).
    exists r. split_and!; try done. by destruct (Hu Ha).
  - assert (R ⊆ faulty) as Hsub by (intros i Hi; destruct (decide (i ∈ faulty)); set_solver).
    apply subseteq_size in Hsub. lia.
Qed.
End EndToEnd.

(** C5: a client is told the result of its executed request.  In any run of a client,
    with concurrent calls and whether or not it is terminated, in which signatures are not
    forged and at most [f] replicas are faulty, a result returned to a call has the
    SHA-256 hash of the answer that a correct replica's consumer gave when the replica
    executed the request with this client and the identifier of the call's request,
    after those it had executed before. *)
Theorem client_result_executed {AuC Au Co} `{!Authenticator AuC} `{!Authenticator Au}
    `{!RequestConsumer Co} `{!RangeOrder}
    clientID f MarshalBinary NewFromBinary connect n now (auC : AuC)
    cfg (au : N → Au) (co : Co) (faulty : gset N) sc c k sup ch result :
  N.of_nat (size faulty) ≤ f →
  ClientNode.reachable clientID f MarshalBinary NewFromBinary
    (unforged (AuC := AuC) clientID cfg au co faulty) connect n now auC sc →
  c ∈ ClientNode.n_calls sc →
  ClientNode.cl_phase c = ClientNode.Running k sup ch (ClientNode.Collected (Some result)) →
  ∃ i s res, i ∉ faulty ∧ reachable i cfg (au i) co s ∧
    answer co (executed s) clientID (req_Sequence (ClientNode.cl_req c)) res ∧
    Sha256.sum256 res = Sha256.sum256 result.
Proof.
  intros Hf (_ & Hi & _)%ClientNode.reachable_results Hin Hp. rewrite Forall_forall in Hi.
  specialize (Hi c Hin). unfold ClientNode.call_inv in Hi. rewrite Hp in Hi. destruct Hi as (o & _ & _ & Hb).
  destruct (backed_correct clientID cfg au co faulty f _ result Hf Hb)
    as (r & Hn & (s & q & Hs & Hq) & Hc & Hr & Hh).
  destruct (reply_answers _ _ _ _ _ _ _ Hs Hq) as (_ & Hc' & Hr' & Ha).
  exists (rep_ReplicaID r), s, (rep_Result r). split_and!; try done. congruence.
Qed.

(** ** Concrete runs: backups 1 and 2 of three replicas execute a request and reply *)

Section Runs.
#[local] Existing Instance plainAuthen.
#[local] Existing Instance recordingConsumer.
#[local] Existing Instance keyOrder.

Definition run (i : N) (acts : list action) (s : replica N (list bytes)) : replica N (list bytes) :=
  foldl (λ s a, (perform i cfg3 a s).2) s acts.

Fixpoint runs (i : N) (acts : list action) (s : replica N (list bytes)) : bool :=
  match acts with
  | [] => true
  | a :: acts => negb (isPanic (perform i cfg3 a s).1) && runs i acts (perform i cfg3 a s).2
  end.

Lemma run_oreachable i order acts s :
  runs i acts s = true → Forall (InView.admissible (Au := N) cfg3 order) acts →
  rtc (InView.ostep i cfg3 order) s (run i acts s).
Proof.
  revert s. induction acts as [|a acts IH]; intros s Hok Hf; simpl in *; [reflexivity|].
  apply Forall_cons in Hf as [Ha Hf]. nbool. eapply rtc_l; [|by apply IH].
  eapply InView.ostep_perform; [apply surjective_pairing|done|done].
Qed.

Definition answering (i : N) : list action :=
  [Process (Msg_Request req9); Process (Msg_Certified prepare9);
   Process (Msg_Certified (CM_Commit (MkCommit i prepare9 (MkUI 1 [])))); Finish 0].
Definition answered (i : N) : replica N (list bytes) := run i (answering i) (newReplica i cfg3 0 []).
Definition reply9 (i : N) : Reply := MkReply i 9 1 [] [].

Lemma answered_replies i : i = 1 ∨ i = 2 → replyRequest req9 (answered i) = OK (ReplySend (reply9 i)).
Proof. intros [-> | ->]; vm_compute; reflexivity. Qed.

Lemma answered_oreachable i :
  i = 1 ∨ i = 2 → InView.oreachable i cfg3 (λ _, req9) 0 [] (answered i).
Proof.
  intros Hi. apply run_oreachable; [by destruct Hi; subst; vm_compute|].
  repeat (apply Forall_cons; split); [exact I| | |exact I|by apply Forall_nil].
  - split; [split; [split; vm_compute; reflexivity|exact I]|by intros p [= <-]].
  - split; [split; split; destruct Hi; subst; vm_compute; reflexivity|by intros p [= <-]].
Qed.

Lemma answered_reachable i : i = 1 ∨ i = 2 → reachable i cfg3 0 [] (answered i).
Proof. intros Hi. eapply oreachable_reachable. by apply answered_oreachable. Qed.

Lemma replies_report_execution_witness : answer (Co := list bytes) [] [req9] 9 1 [].
Proof.
  pose proof (replies_report_execution 1 cfg3 0 [] (answered 1) req9
    (answered_reachable 1 (or_introl eq_refl))) as H.
  rewrite answered_replies in H by (by left). exact (proj2 (proj2 (proj2 H))).
Defined.

Lemma view0_replies_agree_witness : rep_Result (reply9 1) = rep_Result (reply9 2).
Proof.
  apply (view0_replies_agree 1 2 cfg3 (λ _, req9) 0 0 [] (answered 1) (answered 2) req9 req9);
    try apply answered_oreachable; try apply answered_replies; auto; vm_compute; reflexivity.
Defined.

(** A client with clock 1 asks, replica 0 is faulty, replicas 1 and 2 answer. *)
Definition decode9 (b : bytes) : outcome Message :=
  match b with
  | [Byte.x01] => OK (Msg_Reply (reply9 1))
  | [Byte.x02] => OK (Msg_Reply (reply9 2))
  | _ => Error (Errorf "unmarshal")
  end.

Definition asking : list ClientNode.action :=
  ClientNode.adding ++ ClientNode.answering Byte.x01 Byte.x02.
Definition asked : ClientNode.node :=
  default (ClientNode.client0 1) (ClientNode.exec decode9 asking (ClientNode.client0 1)).

Lemma reply9_unforged i : i = 1 ∨ i = 2 → unforged (AuC := N) 9 cfg3 (λ _, 0) [] {[0]} (reply9 i).
Proof.
  intros Hi _. right. exists (answered i), req9. split; [by apply answered_reachable|by apply answered_replies].
Qed.

Lemma asked_reachable :
  ClientNode.reachable 9 1 ClientNode.encode decode9 (unforged (AuC := N) 9 cfg3 (λ _, 0) [] {[0]})
    (λ _, true) 3 1 0 asked.
Proof.
  apply (ClientNode.exec_reachable _ _ _ asking); [vm_compute; reflexivity|].
  apply Forall_true. intros a i b r _. unfold decode9.
  destruct b as [|x [|]]; [done|destruct x; try done|destruct x; done];
    intros [= <-]; apply reply9_unforged; auto.
Qed.

Lemma client_result_executed_witness :
  ∃ i s res, i ∉ ({[0]} : gset N) ∧ reachable i cfg3 0 [] s ∧
    answer (Co := list bytes) [] (executed s) 9 1 res ∧ Sha256.sum256 res = Sha256.sum256 [].
Proof.
  apply (client_result_executed 9 1 ClientNode.encode decode9 (λ _, true) 3 1 0 cfg3 (λ _, 0) [] {[0]} asked
    (ClientNode.MkCall (MkRequest 9 1 [] [])
       (ClientNode.Running 0 (ClientNode.SupSend 2 []) [] (ClientNode.Collected (Some []))))
    0 (ClientNode.SupSend 2 []) [] []).
  - vm_compute. discriminate.
  - exact asked_reachable.
  - vm_compute. left.
  - reflexivity.
Defined.
End Runs.
End Replies.
