(* ===== verification/Ledger.v ===== *)
(** The sample request consumer ([src/sample/requestconsumer/simpleledger.go]): a
    chain of blocks, one per delivered operation.  It is an instance of the
    interface [RequestConsumer] the replica is verified against.

    The goroutine that takes the operations from the queue handles one before
    the next, so [Deliver] is the append and the result of one operation;
    [json.Marshal], which turns a block into the result, is a parameter. *)

From S2P Require Import Prelude Bytes Sha256 Api.

Module Ledger.

(** [hashSize = sha256.Size] *)
Definition hashSize : nat := 32.

(** [type SimpleBlock struct] *)
Record SimpleBlock := MkBlock { Height : N; PrevBlockHash : bytes; Payload : bytes }.

(** [copy(dst, src)] *)
Definition copyInto (dst src : bytes) : bytes :=
  take (length dst) src ++ drop (length src) dst.

(** [func (b *SimpleBlock) MarshalBinary()] *)
Definition MarshalBinary (b : SimpleBlock) : bytes :=
  put64 (Height b) ++ copyInto (replicate hashSize Byte.x00) (PrevBlockHash b) ++ Payload b.

(** [func (b *SimpleBlock) UnmarshalBinary(marshaled \[\]byte)]: the hash
    is copied into the slice the receiver [b] has.  What an error leaves in the
    receiver is not modelled. *)
Definition UnmarshalBinary (b : SimpleBlock) (marshaled : bytes) : outcome SimpleBlock :=
  '(height, rest) ← wrapf "SimpleBlock binary.Read failed in b.height" (get64 marshaled);
  if (length rest <? hashSize)%nat
  then Error (Errorf "SimpleBlock binary.Read failed in b.prevBlockHash")
  else OK (MkBlock height (copyInto (PrevBlockHash b) (take hashSize rest)) (drop hashSize rest)).

(** [func (b *SimpleBlock) Hash() \[\]byte] *)
Definition Hash (b : SimpleBlock) : bytes := Sha256.sum256 (MarshalBinary b).

(** [type SimpleLedger struct] *)
Record SimpleLedger := MkLedger { blocks : list SimpleBlock; l_length : N }.

(** [func NewSimpleLedger() *SimpleLedger] *)
Definition NewSimpleLedger : SimpleLedger := MkLedger [] 0.

(** [func (l *SimpleLedger) GetLength() uint64] *)
Definition GetLength (l : SimpleLedger) : N := l_length l.

(** [func (l *SimpleLedger) appendBlock(payload \[\]byte) *SimpleBlock]; the
    index [l.length-1] is in range by [ledger_inv]. *)
Definition appendBlock (payload : bytes) (l : SimpleLedger) : SimpleBlock * SimpleLedger :=
  let prev := if 0 <? l_length l
              then match blocks l !! N.to_nat (u64_pred (l_length l)) with
                   | Some b => Hash b | None => [] end
              else [] in
  let length := u64_succ (l_length l) in
  let block := MkBlock length prev payload in
  (block, MkLedger (blocks l ++ [block]) length).

(** [func (l *SimpleLedger) StateDigest() \[\]byte]: [blockHashAlgo.New().Sum(b)]
    appends the hash of the empty input to [b]. *)
Definition StateDigest (l : SimpleLedger) : bytes :=
  if l_length l =? 0 then []
  else match blocks l !! N.to_nat (u64_pred (l_length l)) with
       | Some b => MarshalBinary b ++ Sha256.sum256 []
       | None => []
       end.

Section Consumer.
Context (jsonMarshal : SimpleBlock → bytes).

(** [func (l *SimpleLedger) Deliver(msg \[\]byte)] and the goroutine of
    [NewSimpleLedger] *)
Definition DeliverBlock (msg : bytes) (l : SimpleLedger) : bytes * SimpleLedger :=
  let '(block, l) := appendBlock msg l in (jsonMarshal block, l).

Definition ledgerConsumer : RequestConsumer SimpleLedger := {| Deliver := DeliverBlock |}.

(** The ledger after a sequence of operations. *)
Definition deliverAll (ops : list bytes) (l : SimpleLedger) : SimpleLedger :=
  foldl (λ l op, (DeliverBlock op l).2) l ops.

(** Block [i] is at height [i+1], holds operation [i] and points to block [i-1]. *)
Definition chained (ops : list bytes) (l : SimpleLedger) : Prop :=
  length (blocks l) = length ops ∧ l_length l = N.of_nat (length ops) ∧
  ∀ i b, blocks l !! i = Some b →
    Height b = N.of_nat (S i) ∧ ops !! i = Some (Payload b) ∧
    PrevBlockHash b = match i with
                      | O => []
                      | S j => match blocks l !! j with Some p => Hash p | None => [] end
                      end.

Lemma chained_step ops op l :
  N.of_nat (length ops) + 1 < 2 ^ 64 →
  chained ops l → chained (ops ++ [op]) (DeliverBlock op l).2.
Proof.
  intros Hb (H1 & H2 & H3). unfold chained, DeliverBlock, appendBlock. simpl.
  rewrite !length_app, H1. simpl. split; [done|].
  rewrite u64_succ_small by lia. split; [lia|].
  intros i b [Hi|[Hlen Hi]]%lookup_app_Some.
  - destruct (H3 i b Hi) as (? & Hop & Hprev). split; [done|]. split; [by apply lookup_app_l_Some|].
    rewrite Hprev. destruct i as [|j]; [done|]. apply lookup_lt_Some in Hi.
    rewrite lookup_app_l by lia. done.
  - apply list_lookup_singleton_Some in Hi as [Hi <-]. simpl.
    assert (i = length ops) as -> by lia. split; [lia|]. split; [by rewrite list_lookup_middle|].
    rewrite H2. destruct ops as [|o ops0] using rev_ind; [done|]. rewrite length_app in *. simpl in *.
    rewrite Nat.add_1_r in *. destruct (N.ltb_spec 0 (N.of_nat (S (length ops0)))); [|lia].
    rewrite u64_pred_small by lia. replace (N.to_nat _) with (length ops0) by lia.
    rewrite lookup_app_l by lia. done.
Qed.

Lemma deliverAll_chained ops : N.of_nat (length ops) < 2 ^ 64 → chained ops (deliverAll ops NewSimpleLedger).
Proof.
  induction ops as [|op ops IH] using rev_ind; intros Hb.
  - split; [done|]. split; [done|]. intros i b. simpl. by rewrite lookup_nil.
  - unfold deliverAll. rewrite foldl_snoc. rewrite length_app in Hb. simpl in Hb.
    apply chained_step; [lia|]. apply IH. lia.
Qed.
End Consumer.

(** The ledger is a hash chain of the delivered operations.  After delivering
    less than [2^64] operations to a new ledger, there is one block per
    operation, in order, at heights 1, 2, ...; each block holds its operation
    and the hash of the block before it. *)
Theorem ledger_chained jsonMarshal ops :
  N.of_nat (length ops) < 2 ^ 64 →
  chained ops (deliverAll jsonMarshal ops NewSimpleLedger).
Proof. apply deliverAll_chained. Qed.

Lemma ledger_chained_witness : chained [[]; [Byte.x01]] (deliverAll (λ _, []) [[]; [Byte.x01]] NewSimpleLedger).
Proof. apply ledger_chained. simpl. lia. Defined.

Lemma copyInto_full dst src : length src = length dst → copyInto dst src = src.
Proof.
  intros H. unfold copyInto. rewrite <- H, firstn_all, H, drop_all, app_nil_r. done.
Qed.

(** Encoding of blocks.  A block with a 32-byte hash is restored from its
    encoding by a receiver whose hash slice has 32 bytes; a receiver with an
    empty slice, such as a zero block, gets the height and the payload but keeps
    no hash. *)
Theorem block_roundtrip b r :
  in_u64 (Height b) → length (PrevBlockHash b) = hashSize →
  UnmarshalBinary r (MarshalBinary b) =
  OK (MkBlock (Height b) (copyInto (PrevBlockHash r) (PrevBlockHash b)) (Payload b)) ∧
  (length (PrevBlockHash r) = hashSize → UnmarshalBinary r (MarshalBinary b) = OK b) ∧
  (PrevBlockHash r = [] →
     UnmarshalBinary r (MarshalBinary b) = OK (MkBlock (Height b) [] (Payload b))).
Proof.
  intros Hh Hp.
  assert (UnmarshalBinary r (MarshalBinary b) =
    OK (MkBlock (Height b) (copyInto (PrevBlockHash r) (PrevBlockHash b)) (Payload b))) as E.
  { unfold UnmarshalBinary, MarshalBinary. rewrite get64_put64 by done. cbn [wrapf mbind outcome_bind].
    rewrite copyInto_full by (by rewrite length_replicate).
    rewrite length_app, Hp. destruct (Nat.ltb_spec (hashSize + length (Payload b)) hashSize); [lia|].
    rewrite <- Hp, take_app_length, drop_app_length. done. }
  split; [done|]. rewrite E. split.
  - intros Hr. rewrite copyInto_full by congruence. by destruct b.
  - intros ->. unfold copyInto. simpl. rewrite drop_nil. done.
Qed.

Lemma block_roundtrip_witness :
  UnmarshalBinary (MkBlock 0 [] []) (MarshalBinary (MkBlock 2 (replicate 32 Byte.x07) [])) =
  OK (MkBlock 2 [] []).
Proof.
  refine (proj2 (proj2 (block_roundtrip (MkBlock 2 (replicate 32 Byte.x07) []) (MkBlock 0 [] []) _ _)) _);
    reflexivity.
Defined.

(** The state digest is not the hash of the latest block, as documented, but
    its whole encoding followed by the hash of the empty string: the two differ
    for every non-empty ledger. *)
Theorem state_digest_not_hash l b :
  l_length l ≠ 0 → blocks l !! N.to_nat (u64_pred (l_length l)) = Some b →
  StateDigest l = MarshalBinary b ++ Sha256.sum256 [] ∧ StateDigest l ≠ Hash b.
Proof.
  intros Hl Hb. unfold StateDigest. apply N.eqb_neq in Hl. rewrite Hl, Hb. split; [done|].
  intros H%(f_equal length). revert H. unfold Hash, MarshalBinary.
  rewrite !length_app, !Sha256.sum256_length, put64_length. unfold Sha256.Size. lia.
Qed.

Lemma state_digest_not_hash_witness :
  let l := deliverAll (λ _, []) [[]] NewSimpleLedger in
  StateDigest l ≠ Hash (MkBlock 1 [] []).
Proof.
  refine (proj2 (state_digest_not_hash (MkLedger [MkBlock 1 [] []] 1) (MkBlock 1 [] []) _ _));
    [discriminate|reflexivity].
Defined.

End Ledger.
