(* ===== verification/Connector.v ===== *)
(** Connections between nodes ([src/sample/conn]).

    - [common/connector], [dummy/connector]: which replica a connector reaches;
      [grpc/connector]: connecting to replicas by address;
    - [common/replicastub]: a replica that is not available yet;
    - [grpc/connector/replica.go] and [grpc/server]: the goroutines that carry messages
      between a channel and an RPC stream, one direction at a time.

    gRPC is a parameter: dialling is a function, and the two ends of an RPC stream are
    the class [RpcStream], whose laws are the documented ones: messages arrive in the
    order in which they were sent, and the end of the stream after the last of them. *)

From S2P Require Import Prelude Messages RequestList.

Module Connector.

(** ** Connectors *)

(** [api.ConnectionHandler]: its methods, which may return nil. *)
Class ConnectionHandler (H SH : Type) := {
  PeerMessageStreamHandler : H → option SH;
  ClientMessageStreamHandler : H → option SH }.

Inductive side := clientSide | replicaSide.

Definition streamHandler {H SH} `{!ConnectionHandler H SH} (k : side) (replica : H) : option SH :=
  match k with
  | clientSide => ClientMessageStreamHandler replica
  | replicaSide => PeerMessageStreamHandler replica
  end.

Section Common.
Context {H SH : Type} `{!ConnectionHandler H SH}.

(** [type common struct], with the side of the connector. *)
Record connector := MkConnector { c_side : side; replicas : gmap N H }.

Definition NewClientSide : connector := MkConnector clientSide ∅.
Definition NewReplicaSide : connector := MkConnector replicaSide ∅.

(** [AssignReplica], also [AssignReplicaStub] of the dummy connector *)
Definition AssignReplica (id : N) (replica : H) (c : connector) : connector :=
  MkConnector (c_side c) (<[id := replica]> (replicas c)).

(** [ReplicaMessageStreamHandler] of both sides *)
Definition ReplicaMessageStreamHandler (id : N) (c : connector) : option SH :=
  replica ← replicas c !! id; streamHandler (c_side c) replica.
End Common.
Arguments connector H : clear implicits.

(** ** Connecting over gRPC *)

Section Dial.
Context {C : Type} `{!RangeOrder}.

(** [type replica struct] *)
Record rpcReplica := MkRpcReplica { r_id : N; r_client : C }.

(** [grpc.Dial] with [pb.NewChannelClient] *)
Context (Dial : string → error + C).

(** [ConnectReplica] *)
Definition ConnectReplica (replicaID : N) (target : string) (c : connector rpcReplica) :
    outcome unit * connector rpcReplica :=
  match Dial target with
  | inl err => (Error (ErrorWrap "failed to dial replica" err), c)
  | inr connection => (OK tt, AssignReplica replicaID (MkRpcReplica replicaID connection) c)
  end.

(** [ConnectManyReplicas]: the loop over the entries of the map. *)
Fixpoint connectEntries (entries : list (N * string)) (c : connector rpcReplica) :
    outcome unit * connector rpcReplica :=
  match entries with
  | [] => (OK tt, c)
  | (id, target) :: entries =>
      match ConnectReplica id target c with
      | (OK _, c) => connectEntries entries c
      | r => r
      end
  end.

Definition ConnectManyReplicas (targets : gmap N string) (c : connector rpcReplica) :
    outcome unit * connector rpcReplica :=
  connectEntries (range_order (map_to_list targets)) c.

(** What a replica is after the entries up to some point were connected. *)
Definition connected (entries : list (N * string)) (c c' : connector rpcReplica) (id : N) : Prop :=
  (∃ target conn, (id, target) ∈ entries ∧ Dial target = inr conn ∧
     replicas c' !! id = Some (MkRpcReplica id conn)) ∨
  (id ∉ entries.*1 ∧ replicas c' !! id = replicas c !! id).

Lemma connected_cons x target conn l c c' id :
  x ∉ l.*1 → Dial target = inr conn →
  connected l (AssignReplica x (MkRpcReplica x conn) c) c' id → connected ((x, target) :: l) c c' id.
Proof.
  intros Hx Hd [(t & cn & Hin & Ht & Hr)|[Hn Hr]].
  - left. exists t, cn. split; [by right|done].
  - destruct (decide (x = id)) as [<-|Hne].
    + left. exists target, conn. split; [by left|]. split; [done|]. simpl in Hr. by rewrite lookup_insert_eq in Hr.
    + right. split; [set_solver|]. simpl in Hr. by rewrite lookup_insert_ne in Hr.
Qed.

Lemma connectEntries_spec entries c :
  NoDup entries.*1 →
  let '(o, c') := connectEntries entries c in
  c_side c' = c_side c ∧
  ∃ done rest, entries = done ++ rest ∧ (∀ id, connected done c c' id) ∧
    match o, rest with
    | OK _, [] => True
    | Error _, (_, target) :: _ => ∃ e, Dial target = inl e
    | _, _ => False
    end.
Proof.
  revert c. induction entries as [|[x target] l IH]; intros c Hd; simpl.
  { split; [done|]. exists [], []. split; [done|]. split; [|done]. intros id. right. split; [set_solver|done]. }
  apply NoDup_cons in Hd as [Hx Hd]. unfold ConnectReplica. destruct (Dial target) as [e|conn] eqn:Et.
  - split; [done|]. exists [], ((x, target) :: l). split; [done|]. split; [|by exists e].
    intros id. right. split; [set_solver|done].
  - specialize (IH (AssignReplica x (MkRpcReplica x conn) c) Hd). destruct (connectEntries _ _) as [o c'].
    destruct IH as (Hs & l1 & l2 & -> & Hc & Ho). split; [done|]. exists ((x, target) :: l1), l2.
    split; [done|]. split; [|done]. intros id. eapply connected_cons; [|done|apply Hc].
    intros Hx'. apply Hx. change (x ∈ (l1 ++ l2).*1). rewrite fmap_app. set_solver.
Qed.
End Dial.
Arguments rpcReplica C : clear implicits.

(** [clientStreamHandler] and [peerStreamHandler]: the RPC that [HandleMessageStream]
    makes, [ClientChat] or [PeerChat], and the replica it is made to. *)
Inductive rpcHandler (C : Type) := clientStreamHandler (r : rpcReplica C) | peerStreamHandler (r : rpcReplica C).
Arguments clientStreamHandler {C}. Arguments peerStreamHandler {C}.

(** [PeerMessageStreamHandler] and [ClientMessageStreamHandler] of [grpc/connector/replica.go] *)
Definition rpcConnection {C} : ConnectionHandler (rpcReplica C) (rpcHandler C) := {|
  PeerMessageStreamHandler r := Some (peerStreamHandler r);
  ClientMessageStreamHandler r := Some (clientStreamHandler r) |}.
#[global] Existing Instance rpcConnection.

(** [HandleMessageStream] of both handlers: the RPC is made and its stream carried by the
    directions below; after an error the channel returned is closed without a message. *)
Definition HandleMessageStream {C Q} (rpcClientChat rpcPeerChat : C → error + Q) (sh : rpcHandler C) : option Q :=
  let stream := match sh with
                | clientStreamHandler r => rpcClientChat (r_client r)
                | peerStreamHandler r => rpcPeerChat (r_client r)
                end in
  match stream with inr stream => Some stream | inl err => None end.

(** [ConnectManyReplicas] connects each replica to its own address.  Whatever the order
    in which the map is visited: on success every replica of the map is reached through
    a connection dialled to its address and the others are as before; on an error some
    address could not be dialled, and each replica is either as before or connected to
    its own address. *)
Theorem connect_many_exact {C} `{!RangeOrder} (Dial : string → error + C) targets c :
  let '(o, c') := ConnectManyReplicas Dial targets c in
  c_side c' = c_side c ∧
  (∀ id, replicas c' !! id = replicas c !! id ∨
     ∃ target conn, targets !! id = Some target ∧ Dial target = inr conn ∧
       replicas c' !! id = Some (MkRpcReplica id conn)) ∧
  match o with
  | OK _ => ∀ id target, targets !! id = Some target →
      ∃ conn, Dial target = inr conn ∧ replicas c' !! id = Some (MkRpcReplica id conn)
  | Error _ => ∃ id target e, targets !! id = Some target ∧ Dial target = inl e
  | Panic _ => False
  end.
Proof.
  unfold ConnectManyReplicas. set (l := range_order (map_to_list targets)).
  assert (∀ id target, (id, target) ∈ l ↔ targets !! id = Some target) as Hl.
  { intros id target. unfold l. by rewrite elem_of_range_order, elem_of_map_to_list. }
  assert (NoDup l.*1) as Hd.
  { unfold l. rewrite range_order_perm. apply NoDup_fst_map_to_list. }
  pose proof (connectEntries_spec Dial l c Hd) as Hs. destruct (connectEntries _ _ _) as [o c'].
  destruct Hs as (Hside & l1 & l2 & El & Hc & Ho). split; [done|]. split.
  - intros id. destruct (Hc id) as [(t & cn & Hin & Ht & Hr)|[_ Hr]]; [right|by left].
    exists t, cn. split; [|done]. apply Hl. rewrite El. set_solver.
  - destruct o as [[]|e|p], l2 as [|[x t] l2]; try done.
    + intros id target Ht%Hl. rewrite app_nil_r in El. subst l1. destruct (Hc id) as [(t & cn & Hin & Hdial & Hr)|[Hn _]].
      * apply Hl in Hin, Ht. simplify_eq. by exists cn.
      * exfalso. apply Hn. apply list_elem_of_fmap. by exists (id, target).
    + destruct Ho as [e' He]. exists x, t, e'. split; [|done]. apply Hl. rewrite El. set_solver.
Qed.

(** ** A goroutine that forwards messages

    [for msg := range in { out <- msg }]: it receives or holds a message. *)
Inductive relay := RReceive | RSend (m : bytes) | RReturned.

Definition held (r : relay) : list bytes := match r with RSend m => [m] | _ => [] end.

(** ** A replica that is not available yet *)

Section Stub.
Context {H SH : Type} `{!ConnectionHandler H SH}.

(** [type messageStreamHandlerStub struct], with the method whose answer it waits for;
    [h_handler] is [None] until [ready] is closed. *)
Record handlerStub := MkHandlerStub { h_side : side; h_handler : option (option SH) }.

(** A stream: the goroutine of [HandleMessageStream] of stub [t_stub]; [t_inner], the
    handler it has called; [t_taken] and [t_given], what it has received from the
    handler's channel and what was received from its own. *)
Inductive streamPhase := TWait | TRelay (inner : SH) (r : relay) | TReturned.
Record stubStream := MkStubStream {
  t_stub : nat; t_phase : streamPhase; t_inner : option SH; t_taken : list bytes; t_given : list bytes }.

(** [type replicaStub struct] with the stubs and streams made from it. *)
Record replicaStub := MkReplicaStub {
  s_replica : option H; s_handlers : list handlerStub; s_streams : list stubStream }.

Definition newStub : replicaStub := MkReplicaStub None [] [].

Inductive stubEvent :=
| StAssign (replica : H)      (* AssignReplica *)
| StHandler (k : side)        (* PeerMessageStreamHandler, ClientMessageStreamHandler *)
| StResolve (i : nat)         (* sh.assign(s.waitReplica().PeerMessageStreamHandler()) *)
| StStream (i : nat)          (* HandleMessageStream of a stub *)
| StStart (j : nat)           (* after <-s.ready *)
| StTake (j : nat) (m : bytes)  (* a message from the handler's channel *)
| StGive (j : nat)            (* out <- msg *)
| StEnd (j : nat).            (* the handler's channel is closed *)

Definition setStream (j : nat) (t : stubStream) (s : replicaStub) : replicaStub :=
  MkReplicaStub (s_replica s) (s_handlers s) (<[j := t]> (s_streams s)).

Definition stubStep (ev : stubEvent) (s : replicaStub) : option (outcome replicaStub) :=
  match ev with
  | StAssign replica =>
      match s_replica s with
      | None => Some (OK (MkReplicaStub (Some replica) (s_handlers s) (s_streams s)))
      | Some _ => Some (Panic "close of closed channel")
      end
  | StHandler k =>
      Some (OK (MkReplicaStub (s_replica s) (s_handlers s ++ [MkHandlerStub k None]) (s_streams s)))
  | StResolve i =>
      h ← s_handlers s !! i; replica ← s_replica s;
      match h_handler h with
      | None => Some (OK (MkReplicaStub (s_replica s)
                  (<[i := MkHandlerStub (h_side h) (Some (streamHandler (h_side h) replica))]> (s_handlers s))
                  (s_streams s)))
      | Some _ => None
      end
  | StStream i =>
      _ ← s_handlers s !! i;
      Some (OK (MkReplicaStub (s_replica s) (s_handlers s) (s_streams s ++ [MkStubStream i TWait None [] []])))
  | StStart j =>
      t ← s_streams s !! j; h ← s_handlers s !! t_stub t; answer ← h_handler h;
      match t_phase t, answer with
      | TWait, None => Some (OK (setStream j (MkStubStream (t_stub t) TReturned None [] []) s))
      | TWait, Some sh => Some (OK (setStream j (MkStubStream (t_stub t) (TRelay sh RReceive) (Some sh) [] []) s))
      | _, _ => None
      end
  | StTake j m =>
      t ← s_streams s !! j;
      match t_phase t with
      | TRelay sh RReceive =>
          Some (OK (setStream j (MkStubStream (t_stub t) (TRelay sh (RSend m)) (t_inner t) (t_taken t ++ [m]) (t_given t)) s))
      | _ => None
      end
  | StGive j =>
      t ← s_streams s !! j;
      match t_phase t with
      | TRelay sh (RSend m) =>
          Some (OK (setStream j (MkStubStream (t_stub t) (TRelay sh RReceive) (t_inner t) (t_taken t) (t_given t ++ [m])) s))
      | _ => None
      end
  | StEnd j =>
      t ← s_streams s !! j;
      match t_phase t with
      | TRelay sh RReceive =>
          Some (OK (setStream j (MkStubStream (t_stub t) TReturned (t_inner t) (t_taken t) (t_given t)) s))
      | _ => None
      end
  end.

Inductive stub_step : replicaStub → replicaStub → Prop :=
| stub_ev ev s s' : stubStep ev s = Some (OK s') → stub_step s s'.

Definition phaseHeld (p : streamPhase) : list bytes := match p with TRelay _ r => held r | _ => [] end.

(** A handler stub answers for the assigned replica, a stream calls the handler of its
    stub, and gives what it takes. *)
Definition stub_ok (s : replicaStub) (h : handlerStub) : Prop :=
  ∀ answer, h_handler h = Some answer → ∃ r, s_replica s = Some r ∧ answer = streamHandler (h_side h) r.

Definition stream_ok (s : replicaStub) (t : stubStream) : Prop :=
  (∃ h, s_handlers s !! t_stub t = Some h ∧
     match t_phase t with
     | TWait => t_inner t = None ∧ t_given t = []
     | TRelay sh _ => t_inner t = Some sh ∧ h_handler h = Some (t_inner t)
     | TReturned => h_handler h = Some (t_inner t)
     end) ∧
  t_taken t = t_given t ++ phaseHeld (t_phase t).

Definition stub_inv (s : replicaStub) : Prop :=
  Forall (stub_ok s) (s_handlers s) ∧ Forall (stream_ok s) (s_streams s).

Lemma stream_ok_handlers s hs t :
  (∀ i h, s_handlers s !! i = Some h → ∃ h', hs !! i = Some h' ∧
     ∀ answer, h_handler h = Some answer → h_handler h' = Some answer) →
  stream_ok s t → stream_ok (MkReplicaStub (s_replica s) hs (s_streams s)) t.
Proof.
  intros Hh [(h & Hi & Hp) Hg]. split; [|done]. destruct (Hh _ _ Hi) as (h' & Hi' & Ha). exists h'.
  split; [done|]. destruct (t_phase t); [done| |by apply Ha]. destruct Hp. split; [done|by apply Ha].
Qed.

Lemma setStream_inv j t s : stub_inv s → stream_ok s t → stub_inv (setStream j t s).
Proof. intros [Hh Ht] Hok. split; [exact Hh|]. by apply Forall_insert. Qed.

(** The steps of a stream that has started. *)
Lemma relay_inv j m ev s s' :
  ev = StTake j m ∨ ev = StGive j ∨ ev = StEnd j → stubStep ev s = Some (OK s') → stub_inv s → stub_inv s'.
Proof.
  intros Hev Hs Hi. destruct (s_streams s !! j) as [t|] eqn:Ej.
  2: { destruct Hev as [-> | [-> | ->]]; simpl in Hs; by rewrite Ej in Hs. }
  destruct (Forall_lookup_1 _ _ _ _ (proj2 Hi) Ej) as [(h & Hh & Hp) Hg].
  destruct Hev as [-> | [-> | ->]]; simpl in Hs; rewrite Ej in Hs; simpl in Hs;
    destruct (t_phase t) as [|sh [| |]|] eqn:Ep; simplify_eq; apply setStream_inv; try done;
    (split; [exists h; naive_solver|]); simpl in *; rewrite Hg, ?app_nil_r; done.
Qed.

Lemma stub_step_inv s s' : stub_step s s' → stub_inv s → stub_inv s'.
Proof.
  intros [ev s1 s2 Hs] Hinv. pose proof Hinv as [Hh Ht]. destruct ev as [r|k|i|i|j|j m|j|j]; [simpl in Hs..| | |].
  - destruct (s_replica s1) eqn:Er; simplify_eq. split; [|exact Ht].
    eapply Forall_impl; [exact Hh|]. intros h Hok a Ha. destruct (Hok a Ha) as (r' & Hr & _). congruence.
  - simplify_eq. split; simpl.
    + apply Forall_app. split; [exact Hh|]. apply Forall_singleton. by intros a.
    + eapply Forall_impl; [exact Ht|]. intros t. apply stream_ok_handlers. intros i h Hi. exists h.
      split; [by apply lookup_app_l_Some|done].
  - destruct (s_handlers s1 !! i) as [h|] eqn:Ei; [|done]. destruct (s_replica s1) as [r|] eqn:Er; [|done].
    simpl in Hs. destruct (h_handler h) eqn:Eh; simplify_eq. split; simpl.
    + apply Forall_insert; [eapply Forall_impl; [exact Hh|]|].
      * intros h' Hok a Ha. destruct (Hok a Ha) as (r' & Hr & ->). exists r'. simpl. by rewrite <- Er.
      * intros a [= <-]. by exists r.
    + rewrite <- Er. eapply Forall_impl; [exact Ht|]. intros t. apply stream_ok_handlers. intros j h' Hj.
      destruct (decide (i = j)) as [<-|Hne].
      * eexists. rewrite list_lookup_insert_eq by (by eapply lookup_lt_Some). split; [done|]. simplify_eq. by rewrite Eh.
      * exists h'. by rewrite list_lookup_insert_ne.
  - destruct (s_handlers s1 !! i) as [h|] eqn:Ei; [|done]. simplify_eq/=. split; [exact Hh|]. simpl.
    apply Forall_app. split; [exact Ht|]. apply Forall_singleton. split; [|done]. by exists h.
  - destruct (s_streams s1 !! j) as [t|] eqn:Ej; [|done]. simpl in Hs.
    destruct (s_handlers s1 !! t_stub t) as [h|] eqn:Ei; [|done]. simpl in Hs.
    destruct (h_handler h) as [a|] eqn:Eh; [|done]. simpl in Hs.
    split; [destruct (t_phase t), a; simplify_eq; exact Hh|].
    destruct (t_phase t), a; simplify_eq; apply Forall_insert; try exact Ht; (split; [|done]); exists h; by rewrite Eh.
  - by apply (relay_inv j m (StTake j m) s1); auto.
  - by apply (relay_inv j [] (StGive j) s1); auto.
  - by apply (relay_inv j [] (StEnd j) s1); auto.
Qed.

Lemma stub_reachable_inv s : rtc stub_step newStub s → stub_inv s.
Proof.
  intros Hr. assert (stub_inv newStub) as H0 by (split; apply Forall_nil_2).
  eapply (rtc_ind_r stub_inv); [exact H0| |exact Hr].
  intros s1 s2 _. apply stub_step_inv.
Qed.
End Stub.
Arguments replicaStub H SH : clear implicits.

(** A stub behaves as the replica assigned to it.  In every reachable state, a stream of
    a stub that has started has called the stream handler of the assigned replica, the
    one for peers or for clients as was asked for, and what was received from it is what
    the handler produced so far, in order, but for at most one message on the way; so it
    is silent until a replica is assigned. *)
Theorem stub_transparent {H SH} `{!ConnectionHandler H SH} (s : replicaStub H SH) t :
  rtc stub_step newStub s → t ∈ s_streams s →
  (t_phase t = TWait ∧ t_given t = [] ∨
   ∃ r h, s_replica s = Some r ∧ s_handlers s !! t_stub t = Some h ∧
     t_inner t = streamHandler (h_side h) r) ∧
  ∃ on_the_way, t_taken t = t_given t ++ on_the_way ∧ (length on_the_way ≤ 1)%nat.
Proof.
  intros [Hh Ht]%stub_reachable_inv Hin. rewrite Forall_forall in Ht. destruct (Ht t Hin) as [(h & Hi & Hp) Hg].
  split.
  - assert (h_handler h = Some (t_inner t) ∨ t_phase t = TWait) as [Ha|Hw].
    { destruct (t_phase t); [by right|left; apply Hp|by left]. }
    + right. destruct (Forall_lookup_1 _ _ _ _ Hh Hi _ Ha) as (r & Hr & Hs). by exists r, h.
    + left. split; [done|]. rewrite Hw in Hp. apply Hp.
  - eexists. split; [exact Hg|]. destruct (t_phase t) as [|sh [| |]|]; simpl; lia.
Qed.

(** ** One direction of an RPC stream

    [handleIn] of [grpc/connector/replica.go] with the first goroutine of [handleStream]
    of [grpc/server], and the second goroutine of [handleStream] with [handleOut]: a
    sender that forwards the messages of a channel to [stream.Send], and a receiver
    that forwards those of [stream.Recv] to a channel. *)

Inductive received Q := RecvMsg (m : bytes) (q : Q) | RecvEOF | RecvError | RecvWait.
Arguments RecvMsg {Q}. Arguments RecvEOF {Q}. Arguments RecvError {Q}. Arguments RecvWait {Q}.

(** The stream between the two; [Net] is what the network does by itself, such as
    breaking down. *)
Class RpcStream (Q : Type) := {
  NewRpc : Q;
  Send : bytes → Q → error + Q;
  CloseSend : Q → error + Q;
  Recv : Q → received Q;
  Net : Q → Q → Prop;
  inTransit : Q → list bytes;
  sendClosed : Q → bool;
  rpc_new : inTransit NewRpc = [] ∧ sendClosed NewRpc = false;
  rpc_send : ∀ m q q', Send m q = inr q' → inTransit q' = inTransit q ++ [m] ∧ sendClosed q' = sendClosed q;
  rpc_close : ∀ q q', CloseSend q = inr q' → inTransit q' = inTransit q;
  rpc_recv : ∀ q m q', Recv q = RecvMsg m q' → inTransit q = m :: inTransit q' ∧ sendClosed q' = sendClosed q;
  rpc_eof : ∀ q, Recv q = RecvEOF → inTransit q = [] ∧ sendClosed q = true;
  rpc_net : ∀ q q', Net q q' → inTransit q' = inTransit q ∧ sendClosed q' = sendClosed q }.

Section Rpc.
Context {Q : Type} `{!RpcStream Q}.

(** [d_clean]: the sender returned because its channel was closed; [d_eof]: the receiver
    returned because of [io.EOF]; [d_sent] and [d_got]: what the sender has received
    from its channel and what was received from the receiver's. *)
Record direction := MkDirection {
  d_sender : relay; d_stream : Q; d_receiver : relay; d_clean : bool; d_eof : bool;
  d_sent : list bytes; d_got : list bytes }.

Definition newDirection : direction := MkDirection RReceive NewRpc RReceive false false [] [].

(** The sender: [handleIn]; the second goroutine of [handleStream], for which the stream
    is closed when the RPC handler returns. *)
Inductive sender_step : direction → direction → Prop :=
| send_take m q r eof sent got :
    sender_step (MkDirection RReceive q r false eof sent got)
                (MkDirection (RSend m) q r false eof (sent ++ [m]) got)
| send_ok m q q' r clean eof sent got :
    Send m q = inr q' →
    sender_step (MkDirection (RSend m) q r clean eof sent got) (MkDirection RReceive q' r clean eof sent got)
| send_error m q e r clean eof sent got :
    Send m q = inl e →
    sender_step (MkDirection (RSend m) q r clean eof sent got) (MkDirection RReturned q r clean eof sent got)
| send_end q r clean eof sent got :
    sender_step (MkDirection RReceive q r clean eof sent got) (MkDirection RReturned q r true eof sent got)
| send_close q q' r eof sent got :
    CloseSend q = inr q' →
    sender_step (MkDirection RReturned q r true eof sent got) (MkDirection RReturned q' r true eof sent got).

(** The receiver: the first goroutine of [handleStream]; [handleOut]. *)
Inductive receiver_step : direction → direction → Prop :=
| recv_msg s q m q' clean eof sent got :
    Recv q = RecvMsg m q' →
    receiver_step (MkDirection s q RReceive clean eof sent got) (MkDirection s q' (RSend m) clean eof sent got)
| recv_give s q m clean eof sent got :
    receiver_step (MkDirection s q (RSend m) clean eof sent got)
                  (MkDirection s q RReceive clean eof sent (got ++ [m]))
| recv_eof s q clean eof sent got :
    Recv q = RecvEOF →
    receiver_step (MkDirection s q RReceive clean eof sent got) (MkDirection s q RReturned clean true sent got)
| recv_error s q clean eof sent got :
    Recv q = RecvError →
    receiver_step (MkDirection s q RReceive clean eof sent got) (MkDirection s q RReturned clean eof sent got).

Inductive direction_step : direction → direction → Prop :=
| step_sender d d' : sender_step d d' → direction_step d d'
| step_receiver d d' : receiver_step d d' → direction_step d d'
| step_net s q q' r clean eof sent got :
    Net q q' → direction_step (MkDirection s q r clean eof sent got) (MkDirection s q' r clean eof sent got).

(** What was sent is what was got, what the receiver holds, what is in transit, what
    the sender holds and, after an error, what was lost. *)
Record direction_inv (d : direction) : Prop := {
  di_flow : ∃ lost, d_sent d = d_got d ++ held (d_receiver d) ++ inTransit (d_stream d) ++ held (d_sender d) ++ lost ∧
    (lost = [] ∨ d_sender d = RReturned ∧ d_clean d = false);
  di_clean : d_clean d = true → d_sender d = RReturned;
  di_closed : sendClosed (d_stream d) = true → d_clean d = true;
  di_eof : d_eof d = true → d_receiver d = RReturned ∧ inTransit (d_stream d) = [] ∧ d_clean d = true }.

Lemma sender_step_inv d d' : sender_step d d' → direction_inv d → direction_inv d'.
Proof.
  intros Hs [(lost & Hf & Hl) Hc Hcl He]. destruct Hs as [m q r eof sent got|m q q' r clean eof sent got E
    |m q e r clean eof sent got E|q r clean eof sent got|q q' r eof sent got E]; simpl in *.
  - destruct Hl as [-> | [? _]]; [|done]. constructor; simpl; try done.
    exists []. split; [|by left]. rewrite Hf, !app_nil_r, <- !app_assoc. done.
  - destruct Hl as [-> | [? _]]; [|done]. apply rpc_send in E as [Et Ec].
    assert (clean = false) as -> by (destruct clean; [by specialize (Hc eq_refl)|done]).
    constructor; simpl; try done; [|by rewrite Ec|by intros (_ & _ & ?)%He].
    exists []. split; [|by left]. rewrite Hf, Et, <- !app_assoc. done.
  - destruct Hl as [-> | [? _]]; [|done].
    assert (clean = false) as -> by (destruct clean; [by specialize (Hc eq_refl)|done]).
    constructor; simpl; try done. exists [m]. split; [done|by right].
  - destruct Hl as [-> | [? _]]; [|done]. constructor; simpl; try done; [exists []; by auto|].
    intros (? & ? & _)%He. done.
  - apply rpc_close in E. destruct Hl as [-> | [_ ?]]; [|done].
    constructor; simpl; try done; [exists []; rewrite E; by auto|]. by rewrite E.
Qed.

Lemma receiver_step_inv d d' : receiver_step d d' → direction_inv d → direction_inv d'.
Proof.
  intros Hs [(lost & Hf & Hl) Hc Hcl He]. destruct Hs as [s q m q' clean eof sent got E|s q m clean eof sent got
    |s q clean eof sent got E|s q clean eof sent got E]; simpl in *.
  - apply rpc_recv in E as [Et Ec]. constructor; simpl; try done; [|by rewrite Ec|by intros (? & _)%He].
    exists lost. by rewrite Hf, Et.
  - constructor; simpl; try done; [|by intros (? & _)%He]. exists lost. by rewrite Hf, <- app_assoc.
  - apply rpc_eof in E as [Et Ec]. constructor; simpl; try done; [by exists lost|]. auto.
  - constructor; simpl; try done; [by exists lost|]. by intros (? & _)%He.
Qed.

Lemma direction_reachable_inv d : rtc direction_step newDirection d → direction_inv d.
Proof.
  intros Hr. destruct rpc_new as [N1 N2]. eapply (rtc_ind_r direction_inv); [| |exact Hr].
  - constructor; simpl; try done; [exists []; rewrite N1; by auto|by rewrite N2].
  - intros d1 d2 _ [d0 d3 Hs|d0 d3 Hs|s q q' r clean eof sent got Hn] Hi;
      [by eapply sender_step_inv|by eapply receiver_step_inv|].
    apply rpc_net in Hn as [E1 E2]. destruct Hi as [Hf Hc Hcl He]. simpl in *.
    constructor; simpl; rewrite ?E1, ?E2; done.
Qed.
End Rpc.
Arguments direction Q : clear implicits.

(** C33: an RPC stream carries messages in order and without loss.  In every reachable
    state of one direction of a connection between two nodes, whatever the network
    does, the messages that came out are a beginning of those that went in; and when the
    receiving end has ended regularly, that is with [io.EOF] and not an error, everything
    that went in has come out. *)
Theorem rpc_stream_fifo {Q} `{!RpcStream Q} (d : direction Q) :
  rtc direction_step newDirection d →
  d_got d `prefix_of` d_sent d ∧ (d_eof d = true → d_got d = d_sent d).
Proof.
  intros [(lost & Hf & Hl) Hc _ He]%direction_reachable_inv. split; [rewrite Hf; by apply prefix_app_r|].
  intros (E1 & E2 & E3)%He. rewrite Hf, E1, E2, (Hc E3). simpl.
  destruct Hl as [-> | [_ ?]]; [by rewrite app_nil_r|congruence].
Qed.

(** ** Concrete runs *)

(** A stream that never breaks: the messages in transit, and whether it is closed. *)
Definition queueRpc : RpcStream (list bytes * bool).
Proof.
  refine {| NewRpc := ([], false); Send m q := inr (q.1 ++ [m], q.2); CloseSend q := inr (q.1, true);
    Recv q := match q with (m :: l, b) => RecvMsg m (l, b) | ([], true) => RecvEOF | _ => RecvWait end;
    Net q q' := q = q'; inTransit q := q.1; sendClosed q := q.2 |}.
  - done.
  - by intros m [l b] q' [= <-].
  - by intros [l b] q' [= <-].
  - by intros [[|x l] [|]] m q' [= <- <-].
  - by intros [[|x l] [|]].
  - by intros q q' <-.
Defined.

Lemma rpc_stream_fifo_witness :
  let d := MkDirection (Q := list bytes * bool) RReturned ([], true) RReturned true true [[]] [[]] in
  d_got d = d_sent d.
Proof.
  refine (proj2 (@rpc_stream_fifo _ queueRpc (MkDirection RReturned ([], true) RReturned true true [[]] [[]]) _) eq_refl).
  eapply rtc_l; [apply step_sender, (@send_take _ queueRpc [])|].
  eapply rtc_l; [apply step_sender, (@send_ok _ queueRpc); reflexivity|].
  eapply rtc_l; [apply step_sender, (@send_end _ queueRpc)|].
  eapply rtc_l; [apply step_sender, (@send_close _ queueRpc); reflexivity|].
  eapply rtc_l; [apply step_receiver, (@recv_msg _ queueRpc); reflexivity|].
  eapply rtc_l; [apply step_receiver, (@recv_give _ queueRpc)|].
  apply rtc_once, step_receiver, (@recv_eof _ queueRpc). reflexivity.
Defined.
End Connector.
