(* ===== verification/Server.v ===== *)
(** The gRPC server of a replica ([src/sample/conn/grpc/server/server.go]).

    gRPC and the network are parameters.  [Serve] blocks until its server stops, and
    [Stop] is called meanwhile: a gRPC server is an entry of a list with the options it
    was created with, its listener and whether it was stopped; [Serve] is its start, up
    to the call that blocks.  The goroutines of [handleStream] are in [Connector]. *)

From S2P Require Import Prelude Connector.

Module Server.
Import Connector.

Section Server.
Context {H SH Lis Opt : Type} `{!ConnectionHandler H SH}.

(** [grpc.Server] as far as it is used *)
Record grpcServer := MkGrpcServer { g_opts : list Opt; g_listener : Lis; g_stopped : bool }.

(** [type server struct]; [s_grpcServer] is nil or one of the servers created so far. *)
Record server := MkServer { s_replica : H; s_grpcServer : option nat; s_created : list grpcServer }.

(** [func New(replica api.ConnectionHandler) ReplicaServer] *)
Definition New (replica : H) : server := MkServer replica None [].

(** [func (s *server) Serve], until [s.grpcServer.Serve(lis)] *)
Definition Serve (lis : Lis) (serverOpts : list Opt) (s : server) : server :=
  MkServer (s_replica s) (Some (length (s_created s))) (s_created s ++ [MkGrpcServer serverOpts lis false]).

(** ... and what it returns when that call returns. *)
Definition ServeReturn (o : outcome unit) : outcome unit := wrapf "error serving" o.

(** [func (s *server) Stop()] *)
Definition Stop (s : server) : server :=
  match s_grpcServer s with
  | Some i =>
      MkServer (s_replica s) None
        (alter (λ g, MkGrpcServer (g_opts g) (g_listener g) true) i (s_created s))
  | None => s
  end.

(** [func ListenAndServe(s ReplicaServer, addr string, serverOpts ...)]: the options are
    not handed on. *)
Definition ListenAndServe (net_Listen : string → outcome Lis) (addr : string) (serverOpts : list Opt)
    (s : server) : outcome server :=
  lis ← wrapf "error listening" (net_Listen addr);
  OK (Serve lis [] s).

(** [ClientChat] and [PeerChat]: the handler whose [HandleMessageStream] is connected to
    the stream by [handleStream]. *)
Definition ClientChat (s : server) : outcome SH :=
  match ClientMessageStreamHandler (s_replica s) with
  | Some sh => OK sh
  | None => Panic "nil pointer dereference"
  end.
Definition PeerChat (s : server) : outcome SH :=
  match PeerMessageStreamHandler (s_replica s) with
  | Some sh => OK sh
  | None => Panic "nil pointer dereference"
  end.

(** ** Serving and stopping *)

Inductive server_step : server → server → Prop :=
| step_serve lis opts s : server_step s (Serve lis opts s)
| step_stop s : server_step s (Stop s).

(** The servers that were not stopped, oldest first. *)
Definition running (s : server) : list grpcServer := filter (λ g, g_stopped g = false) (s_created s).

(** The server kept by the struct is the last one created. *)
Definition server_inv (s : server) : Prop :=
  ∀ i, s_grpcServer s = Some i → ∃ gs g, s_created s = gs ++ [g] ∧ length gs = i ∧ g_stopped g = false.

Lemma server_reachable_inv replica s :
  rtc server_step (New replica) s → server_inv s ∧ s_replica s = replica.
Proof.
  intros Hr. eapply (rtc_ind_r (λ s, server_inv s ∧ s_replica s = replica)); [| |exact Hr].
  { split; [intros i [=]|done]. }
  intros s1 s2 _ [lis opts s0|s0] [Hi Hp].
  - split; [|done]. intros i [= <-]. simpl. eauto.
  - unfold Stop. destruct (s_grpcServer s0); [|by split]. split; [intros i [=]|done].
Qed.

(** What [Stop] does.  Whatever was served and stopped before, it stops the server of the
    last [Serve] if that is running and nothing else: one that an earlier call of
    [Serve] started keeps running, and [Stop] before [Serve] has no effect on it. *)
Theorem stop_exact replica s :
  rtc server_step (New replica) s →
  running (Stop s) = match s_grpcServer s with
                     | Some _ => take (length (running s) - 1) (running s)
                     | None => running s
                     end ∧ s_grpcServer (Stop s) = None.
Proof.
  intros [Hi _]%server_reachable_inv. unfold Stop. destruct (s_grpcServer s) as [i|] eqn:E; [|by rewrite E].
  split; [|done]. destruct (Hi i E) as (gs & g & Ec & <- & Hg). unfold running. cbn [s_created]. rewrite Ec.
  rewrite alter_app_r_alt by lia. rewrite Nat.sub_diag. simpl alter. rewrite !filter_app.
  rewrite (filter_cons_True _ g []), filter_cons_False by done. rewrite filter_nil, app_nil_r, length_app.
  simpl. rewrite Nat.add_sub, take_app_length. done.
Qed.

(** Served once and stopped, nothing runs. *)
Lemma stop_stops replica lis opts : running (Stop (Serve lis opts (New replica))) = [].
Proof. done. Qed.

(** A second [Serve] leaves the first server out of reach of [Stop]. *)
Lemma stop_misses_first replica lis lis' opts opts' :
  running (Stop (Stop (Serve lis' opts' (Serve lis opts (New replica))))) = [MkGrpcServer opts lis false].
Proof. done. Qed.

(** Every stream is served by the replica the server was created with, peers' streams
    by its handler for peers and clients' by its handler for clients. *)
Lemma chat_handler replica s sh :
  rtc server_step (New replica) s →
  (ClientChat s = OK sh ↔ streamHandler clientSide replica = Some sh) ∧
  (PeerChat s = OK sh ↔ streamHandler replicaSide replica = Some sh).
Proof.
  intros [_ <-]%server_reachable_inv. unfold ClientChat, PeerChat, streamHandler.
  destruct (ClientMessageStreamHandler _), (PeerMessageStreamHandler _); naive_solver.
Qed.

(** A server started by [ListenAndServe] has no options, whatever was asked for. *)
Theorem listen_drops_options net_Listen addr serverOpts s s' :
  ListenAndServe net_Listen addr serverOpts s = OK s' →
  ∃ lis, net_Listen addr = OK lis ∧ running s' = running s ++ [MkGrpcServer [] lis false].
Proof.
  intros (lis & E%wrapf_OK & [= <-])%outcome_bind_OK. exists lis. split; [done|].
  unfold running. simpl. by rewrite filter_app.
Qed.
End Server.
Arguments server H Lis Opt : clear implicits.

End Server.
