(* ===== verification/Logger.v ===== *)
(** Loggers ([src/common/logger/logger.go]) and the choice of a logger by the replica
    and the client ([options] of [src/core/replica.go] and [src/client/client.go]).

    The package [logging] is a parameter: a logger is what it is set up with, the module,
    the format, the file and the level.  What is logged is not part of the model. *)

From S2P Require Import Prelude Messages Stringify.

Module Logger.
Import Stringify.

Section Logger.
Context {Level File : Type} (DEBUG : Level) (Stdout : File).

(** [type options struct]; [type Option], a function that changes options *)
Record options := MkOptions { logLevel : Level; logFile : File }.
Definition Option : Type := options → options.

(** [func newOptions(opts ...Option) options] *)
Definition newOptions (opts : list Option) : options :=
  foldl (λ opt o, o opt) (MkOptions DEBUG Stdout) opts.

Definition WithLogLevel (l : Level) : Option := λ opts, MkOptions l (logFile opts).
Definition WithLogFile (f : File) : Option := λ opts, MkOptions (logLevel opts) f.

Definition module : bytes := str "minbft".
Definition defaultLogPrefix : bytes :=
  str "%{color}[%{module}] %{time:15:04:05.000} %{longfunc} ▶ %{level:.4s} %{id:03x}%{color:reset}".

(** [type Logger interface]: what the logger was set up with *)
Record Logger := MkLogger {
  log_module : bytes; log_format : bytes; log_file : File; log_level : Level }.

(** [func makeLogger(id uint32, who string, opts options) Logger] *)
Definition makeLogger (id : N) (who : bytes) (opts : options) : Logger :=
  let logFormatString := defaultLogPrefix ++ str " " ++ who ++ str " " ++ fmt_d id ++ str ": %{message}" in
  MkLogger module logFormatString (logFile opts) (logLevel opts).

Definition NewReplicaLogger (id : N) (opts : list Option) : Logger :=
  makeLogger id (str "Replica") (newOptions opts).
Definition NewClientLogger (id : N) (opts : list Option) : Logger :=
  makeLogger id (str "Client") (newOptions opts).

(** [options], [WithLogger] and [makeDefaultOptions] of the replica and of the client: a
    logger that was not set is replaced by the default one. *)
Definition WithLogger (logger : option Logger) : option Logger → option Logger := λ _, logger.
Definition makeDefaultOptions (create : N → list Option → Logger) (id : N)
    (opts : list (option Logger → option Logger)) : Logger :=
  match foldl (λ opt o, o opt) None opts with Some l => l | None => create id [] end.

(** ** What the options mean *)

(** The options are independent: the level is that of the last [WithLogLevel], the file
    that of the last [WithLogFile], and what is not given has its default. *)
Definition option_of (o : Level + File) : Option :=
  match o with inl l => WithLogLevel l | inr f => WithLogFile f end.

Lemma newOptions_last os :
  newOptions (option_of <$> os) =
  MkOptions (default DEBUG (last (omap (λ o, match o with inl l => Some l | _ => None end) os)))
            (default Stdout (last (omap (λ o, match o with inr f => Some f | _ => None end) os))).
Proof.
  induction os as [|o os IH] using rev_ind; [done|].
  unfold newOptions in *. rewrite fmap_app, foldl_app, IH, !omap_app. simpl.
  destruct o; simpl; rewrite ?app_nil_r, ?last_snoc; done.
Qed.

(** Log lines tell who wrote them: the formats of two loggers are the same only if
    they belong to the same replica, or to the same client. *)
Theorem log_format_identifies id id' opts opts' :
  (log_format (NewReplicaLogger id opts) = log_format (NewReplicaLogger id' opts') → id = id') ∧
  (log_format (NewClientLogger id opts) = log_format (NewClientLogger id' opts') → id = id') ∧
  log_format (NewReplicaLogger id opts) ≠ log_format (NewClientLogger id' opts').
Proof.
  assert (∀ (i j : N) (x : bytes), defaultLogPrefix ++ str " " ++ x ++ str " " ++ fmt_d i ++ str ": %{message}" =
    defaultLogPrefix ++ str " " ++ x ++ str " " ++ fmt_d j ++ str ": %{message}" → i = j) as Hinj.
  { intros i j x E. do 4 apply app_inv_head in E. apply fmt_d_inj in E as [-> _]; done. }
  split; [apply Hinj|]. split; [apply Hinj|]. cbn [NewReplicaLogger NewClientLogger makeLogger log_format].
  intros E. do 2 apply app_inv_head in E. discriminate E.
Qed.
End Logger.
Arguments options Level File : clear implicits.
Arguments Option Level File : clear implicits.
Arguments Logger Level File : clear implicits.

End Logger.
