(* ===== verification/Commands.v ===== *)
(** The commands of the sample application: [src/sample/peer/cmd] (run a replica, submit
    requests) and [src/sample/authentication/keytool/cmd] (generate keys).

    The packages [cobra], [viper] and [envsubst] are parameters: cobra hands a command its
    positional arguments, and the settings that viper merges from flags, environment and
    configuration file are a class with the documented laws on bound flags and explicit
    settings.  Files are a map from names to contents.  The commands put together what is
    modelled elsewhere: [KeyStore], [Config], [Connector], [Logger], [Node], [ClientNode],
    [Ledger], [Server]; each component's external libraries are parameters here too. *)

From Stdlib Require Import Strings.Byte.
From S2P Require Import Prelude Bytes Messages Usig SgxUsig Api RequestList SampleAuthen KeyStore Config.
From S2P Require Import Connector Stringify Logger Ledger Quorum Replica Node ClientNode Server.

Module Commands.
Import SgxUsig Stringify.

Abbreviation toString := String.string_of_list_byte.

(** ** Standard library *)

(** The conversion [uint32(x)] of an [int] *)
Definition uint32_of_int (x : Z) : N := Z.to_N (x mod 2 ^ 32).

(** [strconv.Atoi] *)
Fixpoint parseDigits (acc : Z) (s : bytes) : option Z :=
  match s with
  | [] => Some acc
  | b :: s => if isDigit b then parseDigits (acc * 10 + (Z.of_N (Byte.to_N b) - 48)) s else None
  end.

Definition Atoi (s : bytes) : outcome Z :=
  let '(sign, t) := match s with
                    | x2d :: t => ((-1)%Z, t)
                    | x2b :: t => (1%Z, t)
                    | _ => (1%Z, s)
                    end in
  match t, parseDigits 0 t with
  | _ :: _, Some v =>
      if ((- 2 ^ 63 <=? sign * v) && (sign * v <? 2 ^ 63))%Z then OK (sign * v)%Z
      else Error (Errorf "value out of range")
  | _, _ => Error (Errorf "invalid syntax")
  end.

(** [bufio.Scanner] with its default split function [bufio.ScanLines]: lines up to a
    newline, the last one possibly without; a line that does not fit the buffer ends the
    scan. *)
Fixpoint splitLines (line s : bytes) : list bytes :=
  match s with
  | [] => match line with [] => [] | _ => [line] end
  | b :: s => if bool_decide (b = x0a) then line :: splitLines [] s else splitLines (line ++ [b]) s
  end.

Definition dropCR (line : bytes) : bytes :=
  match last line with
  | Some b => if bool_decide (b = x0d) then take (length line - 1) line else line
  | None => line
  end.

Definition MaxScanTokenSize : N := 64 * 1024.

Fixpoint scanned (lines : list bytes) : list bytes :=
  match lines with
  | [] => []
  | l :: lines => if N.of_nat (length l) <? MaxScanTokenSize then dropCR l :: scanned lines else []
  end.

Definition Scan (stdin : bytes) : list bytes := scanned (splitLines [] stdin).

(** ** Settings *)

Inductive value := VInt (z : Z) | VString (s : string).

(** The keys of the settings.  Keys of viper are case-insensitive and form a tree; none of
    these is equal to another up to case or lies above another. *)
Definition settingKeys : list string :=
  ["client.id"; "client.timeout"; "config"; "consensusConf"; "keys"; "logging.level"; "logging.file"; "replica.id";
   "usig.enclaveFile"; "replicas.number"; "replicas.keyspec"; "replicas.secparam"; "clients.number";
   "clients.keyspec"; "clients.secparam"; "output"].
Definition otherKeys (k k' : string) : bool :=
  bool_decide (k ∈ settingKeys) && bool_decide (k' ∈ settingKeys) && negb (bool_decide (k = k')).

(** [viper]: [isSet] tells whether a key has a value from elsewhere than the default of
    a flag. *)
Class Viper (V : Type) := {
  viper_New : V;
  BindPFlag : string → value → V → V;
  viper_Set : string → value → V → V;
  isSet : V → string → bool;
  GetInt : V → string → Z;
  GetString : V → string → string;
  GetDuration : V → string → Z;
  new_unset : ∀ k, isSet viper_New k = false;
  bind_unset : ∀ k x v k', isSet (BindPFlag k x v) k' = isSet v k';
  bound_int : ∀ k z v, isSet v k = false → GetInt (BindPFlag k (VInt z) v) k = z;
  bound_string : ∀ k s v, isSet v k = false → GetString (BindPFlag k (VString s) v) k = s;
  bind_int_ne : ∀ k x v k', otherKeys k k' = true → GetInt (BindPFlag k x v) k' = GetInt v k';
  bind_string_ne : ∀ k x v k', otherKeys k k' = true → GetString (BindPFlag k x v) k' = GetString v k';
  set_int : ∀ k z v, GetInt (viper_Set k (VInt z) v) k = z;
  set_string : ∀ k s v, GetString (viper_Set k (VString s) v) k = s;
  set_int_ne : ∀ k x v k', otherKeys k k' = true → GetInt (viper_Set k x v) k' = GetInt v k';
  set_string_ne : ∀ k x v k', otherKeys k k' = true → GetString (viper_Set k x v) k' = GetString v k' }.

Definition bindAll {V} `{!Viper V} (flags : list (string * value)) (v : V) : V :=
  foldl (λ v '(k, x), BindPFlag k x v) v flags.

(** The flags that the [init] functions bind, with their defaults: [peer/cmd/request.go],
    [root.go] and [run.go], ... *)
Definition requestFlags : list (string * value) := [("client.id", VInt 0); ("client.timeout", VString "0")].
Definition peerRootFlags : list (string * value) :=
  [("config", VString "peer.yaml"); ("consensusConf", VString "consensus.yaml"); ("keys", VString "keys.yaml");
   ("logging.level", VString ""); ("logging.file", VString "")].
Definition runFlags : list (string * value) :=
  [("replica.id", VInt 0); ("usig.enclaveFile", VString "libusig.signed.so")].
Definition peerInit {V} `{!Viper V} : V := bindAll (requestFlags ++ peerRootFlags ++ runFlags) viper_New.

(** ... and [keytool/cmd/generate.go] and [root.go]. *)
Definition generateFlags : list (string * value) :=
  [("replicas.number", VInt 3); ("replicas.keyspec", VString "ECDSA"); ("replicas.secparam", VInt 256);
   ("clients.number", VInt 1); ("clients.keyspec", VString "ECDSA"); ("clients.secparam", VInt 256);
   ("usig.enclaveFile", VString "libusig.signed.so")].
Definition keytoolRootFlags : list (string * value) :=
  [("config", VString "keytool.yaml"); ("output", VString "keys.yaml")].
Definition keytoolInit {V} `{!Viper V} : V := bindAll (generateFlags ++ keytoolRootFlags) viper_New.

(** [os.Open] and reading, on files that can be read *)
Definition os_Open (name : string) (files : gmap string bytes) : outcome bytes :=
  match files !! name with Some b => OK b | None => Error (Errorf "no such file or directory") end.

(** ** [keytool generate] *)

Section Keytool.
Context {V : Type} `{!Viper V}.
Context (envsubst : string → outcome string) (os_Create : string → outcome unit).
Context (MarshalECPrivateKey : N * SgxUsig.PublicKey → outcome bytes) (MarshalPKIX : key → outcome bytes).
Context (ecdsa_GenerateKey : Curve → N → outcome (N * SgxUsig.PublicKey)).
Context (sgx_seal_data : sgx_ec256_public_t → bytes → sgx bytes).
Context (unseal_key : bytes → sgx (bytes * sgx_ec256_public_t)).
Context (yaml_Marshal : KeyStore.simpleKeyStoreFile → outcome bytes).
Context (rEnvs uEnvs cEnvs : nat → KeyStore.keyEnv).

(** The options of [generateKeys] *)
Definition keyOptions (v : V) (usigEnclaveFile : string) : KeyStore.TestnetKeyOpts :=
  KeyStore.MkTestnetKeyOpts (GetInt v "replicas.number") (GetString v "replicas.keyspec")
    (GetInt v "replicas.secparam") (GetInt v "clients.number") (GetString v "clients.keyspec")
    (GetInt v "clients.secparam") usigEnclaveFile.

(** [func generateKeys() error]; the output file is truncated before the keys are made. *)
Definition generateKeys (v : V) (files : gmap string bytes) : outcome unit * gmap string bytes :=
  match wrapf "failed to parse USIG enclave filename" (envsubst (GetString v "usig.enclaveFile")) with
  | Error e => (Error e, files)
  | Panic p => (Panic p, files)
  | OK usigEnclaveFile =>
      let opts := keyOptions v usigEnclaveFile in
      let outFileName := GetString v "output" in
      match wrapf "failed to open output file" (os_Create outFileName) with
      | Error e => (Error e, files)
      | Panic p => (Panic p, files)
      | OK _ =>
          let files := <[outFileName := []]> files in
          match wrapf "failed to generate keys"
                  (KeyStore.GenerateTestnetKeys MarshalECPrivateKey MarshalPKIX ecdsa_GenerateKey sgx_seal_data
                     unseal_key yaml_Marshal opts rEnvs uEnvs cEnvs) with
          | OK w => (OK tt, <[outFileName := w]> files)
          | Error e => (Error e, files)
          | Panic p => (Panic p, files)
          end
      end
  end.

(** [RunE] of [generateCmd]: what the positional arguments set *)
Definition setNumber (key : string) (what : string) (arg : option bytes) (v : V) : outcome V :=
  match arg with
  | Some a => n ← wrapf what (Atoi a); OK (viper_Set key (VInt n) v)
  | None => OK v
  end.

Definition generateArgs (args : list bytes) (v : V) : outcome V :=
  v ← setNumber "replicas.number" "failed to parse number of replicas from positional argument" (args !! 0%nat) v;
  v ← setNumber "clients.number" "failed to parse number of clients from positional argument" (args !! 1%nat) v;
  OK (match args !! 2%nat with
      | Some file => viper_Set "usig.enclaveFile" (VString (toString file)) v
      | None => v
      end).

Definition generateRunE (args : list bytes) (v : V) (files : gmap string bytes) : outcome unit * gmap string bytes :=
  match generateArgs args v with
  | OK v => generateKeys v files
  | Error e => (Error e, files)
  | Panic p => (Panic p, files)
  end.
End Keytool.

(** ** The peer: running a replica *)

Section Peer.
Context {V C Level File viper : Type} `{!Viper V} `{!RangeOrder}.
Context (envsubst : string → outcome string).
Context (ParseECPrivateKey : bytes → outcome (N * SgxUsig.PublicKey)) (ParsePKIX : bytes → outcome key).
Context (unseal_key : bytes → sgx (bytes * sgx_ec256_public_t)).
Context (yaml_Unmarshal : bytes → outcome KeyStore.simpleKeyStoreFile).
Context (ReadInConfig : bytes → bytes → list bytes → outcome viper).
Context (GetInt64 cfgDuration : viper → string → Z) (UnmarshalPeers : viper → outcome (list Config.Peer)).
Context (Dial : string → error + C).
Context (DEBUG : Level) (Stdout : File) (LogLevel : string → outcome Level) (OpenFile : string → outcome File).
Context (order : list AuthenticationRole).

(** [func getLoggingOptions() (\[\]logger.Option, error)] *)
Definition getLoggingOptions (v : V) : outcome (list (Logger.Option Level File)) :=
  levels ← (if bool_decide (GetString v "logging.level" = "") then OK []
            else l ← wrapf "failed to set logging level" (LogLevel (GetString v "logging.level"));
                 OK [Logger.WithLogLevel l]);
  files ← (if bool_decide (GetString v "logging.file" = "") then OK []
           else f ← wrapf "failed to open logging file" (OpenFile (GetString v "logging.file"));
                OK [Logger.WithLogFile f]);
  OK (levels ++ files).

Definition peerAddr (p : Config.Peer) : string := toString (Config.peer_Addr p).
Definition peerID (p : Config.Peer) : N := uint32_of_int (Config.peer_ID p).

(** The loop over [cfg.Peers()] of [run]: the addresses of the other replicas and the
    address to listen on *)
Definition replicaAddrs (id : N) (peers : list Config.Peer) : gmap N string * string :=
  foldl (λ '(peerAddrs, listenAddr) p,
    if peerID p =? id then (peerAddrs, peerAddr p) else (<[peerID p := peerAddr p]> peerAddrs, listenAddr))
    (∅, "") peers.

(** [connector.ConnectManyReplicas(conn, peerAddrs, ...)] *)
Definition connectAll (c : Connector.connector (Connector.rpcReplica C)) (addrs : gmap N string) :
    outcome (Connector.connector (Connector.rpcReplica C)) :=
  match Connector.ConnectManyReplicas Dial addrs c with
  | (OK _, c) => OK c
  | (Error e, _) => Error (ErrorWrap "failed to connect to peers" e)
  | (Panic p, _) => Panic p
  end.

(** Whether a connector has a stream handler for a replica. *)
Definition hasHandler (c : Connector.connector (Connector.rpcReplica C)) (i : N) : bool :=
  bool_decide (Connector.ReplicaMessageStreamHandler i c ≠ None).

Section Run.
Context {Au : Type} (newAuthen : KeyStore.SimpleKeyStore * USIGEnclave * SampleAuthen.schemes → Au).

(** What [run] has set up when it starts the server. *)
Record running := MkRunning {
  run_id : N;
  run_conn : Connector.connector (Connector.rpcReplica C);
  run_logger : Logger.Logger Level File;
  run_replica : @Node.node Au Ledger.SimpleLedger;
  run_listenAddr : string }.

(** [func run() error], up to the server; [rand] and [generated] are the answers of the
    SGX library to the new enclave. *)
Definition run (rand : sgx N) (generated : sgx (bytes * sgx_ec256_public_t)) (files : gmap string bytes) (v : V) :
    outcome running :=
  let id := uint32_of_int (GetInt v "replica.id") in
  usigEnclaveFile ← wrapf "failed to parse USIG enclave filename" (envsubst (GetString v "usig.enclaveFile"));
  keysFile ← wrapf "failed to open keyset file" (os_Open (GetString v "keys") files);
  auth ← wrapf "failed to create authenticator"
           (KeyStore.NewWithSGXUSIG ParseECPrivateKey ParsePKIX unseal_key yaml_Unmarshal rand generated order
              [ReplicaAuthen; USIGAuthen] id (OK keysFile));
  cfg ← Config.LoadConfig ReadInConfig (str (GetString v "consensusConf")) Config.New;
  peers ← Config.Peers UnmarshalPeers cfg;
  let '(peerAddrs, listenAddr) := replicaAddrs id peers in
  conn ← connectAll Connector.NewReplicaSide peerAddrs;
  loggingOpts ← wrapf "failed to create logging options" (getLoggingOptions v);
  let replicaLogger := Logger.NewReplicaLogger DEBUG Stdout id loggingOpts in
  configer ← Config.configerOf GetInt64 cfgDuration cfg;
  replica ← wrapf "failed to create replica instance"
              (Node.NewNode id configer (hasHandler conn) (newAuthen auth) Ledger.NewSimpleLedger);
  OK (MkRunning id conn replicaLogger replica listenAddr).

(** [RunE] of [runCmd] *)
Definition runRunE (args : list bytes) (rand : sgx N) (generated : sgx (bytes * sgx_ec256_public_t))
    (files : gmap string bytes) (v : V) : outcome running :=
  v ← setNumber "replica.id" "failed to parse replica ID from positional argument" (args !! 0%nat) v;
  run rand generated files v.

(** What [run] returns, given what [ListenAndServe] has returned: only an error is sent on
    the channel that [run] waits for. *)
Definition runReturns (served : option (outcome unit)) : option (outcome unit) :=
  match served with
  | Some (Error e) => Some (Error (ErrorWrap "network server failed" e))
  | _ => None
  end.
End Run.

(** ** The peer: submitting requests *)

Section Requests.
Context {Au : Type} (newAuthen : KeyStore.SimpleKeyStore * SampleAuthen.schemes → Au).

(** The loop over [cfg.Peers()] of [requests] *)
Definition clientAddrs (peers : list Config.Peer) : gmap N string :=
  foldl (λ peerAddrs p, <[peerID p := peerAddr p]> peerAddrs) ∅ peers.

(** What [requests] has set up when it submits the first request. *)
Record requesting := MkRequesting {
  rq_id : N;
  rq_conn : Connector.connector (Connector.rpcReplica C);
  rq_logger : Logger.Logger Level File;
  rq_client : @ClientNode.node Au }.

(** [func requests(args \[\]string) error], until the client is created; [now] is the time
    the client's sequence numbers start from. *)
Definition requestsSetup (now : N) (files : gmap string bytes) (v : V) : outcome requesting :=
  let id := uint32_of_int (GetInt v "client.id") in
  keysFile ← wrapf "failed to open keyset file" (os_Open (GetString v "keys") files);
  auth ← wrapf "failed to create authenticator"
           (KeyStore.New ParseECPrivateKey ParsePKIX yaml_Unmarshal order [ClientAuthen] id (OK keysFile));
  cfg ← Config.LoadConfig ReadInConfig (str (GetString v "consensusConf")) Config.New;
  loggingOpts ← wrapf "failed to create logging options" (getLoggingOptions v);
  let clientLogger := Logger.NewClientLogger DEBUG Stdout id loggingOpts in
  peers ← Config.Peers UnmarshalPeers cfg;
  conn ← connectAll Connector.NewClientSide (clientAddrs peers);
  n ← Config.cfgN GetInt64 cfg;
  f ← Config.cfgF GetInt64 cfg;
  client ← wrapf "failed to create client instance"
             (ClientNode.NewClient f (hasHandler conn) n now (newAuthen auth)).1;
  OK (MkRequesting id conn clientLogger client).
End Requests.
End Peer.

(** [func request(client client.Client, arg string)]: what the [select] finds first, and
    what is printed and the exit status; without a timeout the channel of the timer is
    nil and never ready. *)
Inductive selected := GotResult (res : bytes) | TimerFired.

Definition request (timeout : Z) (ev : selected) : option (bytes * option Z) :=
  match ev with
  | GotResult res => Some (str "Reply: " ++ res ++ [x0a], None)
  | TimerFired => if (0 <? timeout)%Z then Some (str "Client Request timer expired." ++ [x0a], Some 1%Z) else None
  end.

(** The end of [requests]: the operations submitted, one after the other, the output, and
    how far the command got. *)
Inductive status := Returned | Exited (code : Z) | Waiting.

Fixpoint submitAll (timeout : Z) (ops : list bytes) (evs : list selected) : list bytes * bytes * status :=
  match ops with
  | [] => ([], [], Returned)
  | op :: ops =>
      match evs with
      | [] => ([op], [], Waiting)
      | ev :: evs =>
          match request timeout ev with
          | None => ([op], [], Waiting)
          | Some (out, Some code) => ([op], out, Exited code)
          | Some (out, None) =>
              let '(submitted, outs, st) := submitAll timeout ops evs in (op :: submitted, out ++ outs, st)
          end
      end
  end.

Definition requests {V} `{!Viper V} (v : V) (args : list bytes) (stdin : bytes) (evs : list selected) :
    list bytes * bytes * status :=
  submitAll (GetDuration v "client.timeout") (match args with [] => Scan stdin | _ => args end) evs.

(** ** Lines of the standard input *)

Definition plainLine (l : bytes) : Prop := (x0a ∉ l) ∧ last l ≠ Some x0d.

Lemma splitLines_line line l s :
  x0a ∉ l → splitLines line (l ++ x0a :: s) = (line ++ l) :: splitLines [] s.
Proof.
  revert line. induction l as [|b l IH]; intros line Hl; simpl.
  - by rewrite app_nil_r.
  - rewrite bool_decide_false by set_solver. rewrite IH by set_solver. by rewrite <- app_assoc.
Qed.

Lemma splitLines_lines ls :
  Forall (λ l, x0a ∉ l) ls → splitLines [] (concat ((λ l, l ++ [x0a]) <$> ls)) = ls.
Proof.
  induction 1 as [|l ls Hl _ IH]; [done|]. cbn [fmap list_fmap concat]. rewrite <- app_assoc. simpl.
  by rewrite splitLines_line, IH.
Qed.

Lemma dropCR_plain l : last l ≠ Some x0d → dropCR l = l.
Proof. intros Hl. unfold dropCR. destruct (last l); [|done]. rewrite bool_decide_false; [done|]. congruence. Qed.

Lemma scanned_app ls l ls' :
  Forall (λ l, N.of_nat (length l) < MaxScanTokenSize) ls →
  MaxScanTokenSize ≤ N.of_nat (length l) → scanned (ls ++ l :: ls') = dropCR <$> ls.
Proof.
  intros Hs Hl. induction Hs as [|x ls Hx _ IH]; simpl.
  - destruct (N.ltb_spec (N.of_nat (length l)) MaxScanTokenSize); [lia|done].
  - destruct (N.ltb_spec (N.of_nat (length x)) MaxScanTokenSize); [|lia]. by rewrite IH.
Qed.

Lemma scanned_all ls : Forall (λ l, N.of_nat (length l) < MaxScanTokenSize) ls → scanned ls = dropCR <$> ls.
Proof.
  induction 1 as [|x ls Hx _ IH]; [done|]. simpl.
  destruct (N.ltb_spec (N.of_nat (length x)) MaxScanTokenSize); [|lia]. by rewrite IH.
Qed.

Lemma fmap_dropCR ls : Forall plainLine ls → dropCR <$> ls = ls.
Proof. induction 1 as [|l ls [_ Hl] _ IH]; [done|]. rewrite fmap_cons, IH. by rewrite dropCR_plain. Qed.

(** Requests from the standard input.  Each line is a request, as the command's help
    says, as long as lines are shorter than 65536 bytes; from the first longer one on, all
    lines are dropped without an error. *)
Theorem stdin_lines ls ls' l :
  Forall plainLine (ls ++ l :: ls') →
  Forall (λ l, N.of_nat (length l) < MaxScanTokenSize) ls →
  let stdin := concat ((λ l, l ++ [x0a]) <$> (ls ++ l :: ls')) in
  (Forall (λ l, N.of_nat (length l) < MaxScanTokenSize) (l :: ls') → Scan stdin = ls ++ l :: ls') ∧
  (MaxScanTokenSize ≤ N.of_nat (length l) → Scan stdin = ls).
Proof.
  intros Hp Hs. unfold Scan.
  rewrite splitLines_lines by (eapply Forall_impl; [exact Hp|]; by intros ? []). split.
  - intros Hs'. rewrite scanned_all by (by apply Forall_app). by apply fmap_dropCR.
  - intros Hl. rewrite scanned_app by done. apply fmap_dropCR. by apply Forall_app in Hp as [? _].
Qed.

(** Requests are submitted one by one: what was submitted is a beginning of the input,
    and all of it when the command returns; a request is submitted only after the reply
    to the one before it. *)
Theorem requests_one_by_one timeout ops evs :
  let '(submitted, out, st) := submitAll timeout ops evs in
  submitted `prefix_of` ops ∧
  (st = Returned → submitted = ops ∧ ∃ results evs', evs = (GotResult <$> results) ++ evs' ∧
     length results = length ops ∧ out = concat ((λ r, str "Reply: " ++ r ++ [x0a]) <$> results)) ∧
  (∀ code, st = Exited code → code = 1%Z ∧ (0 < timeout)%Z) ∧
  (length submitted ≤ S (length evs))%nat.
Proof.
  revert evs. induction ops as [|op ops IH]; intros evs; simpl.
  { split; [done|]. split; [intros _; split; [done|by exists [], evs]|]. split; [done|lia]. }
  destruct evs as [|[res|] evs]; simpl.
  - split_and!; [by exists ops|done|done|lia].
  - specialize (IH evs). destruct (submitAll timeout ops evs) as [[submitted outs] st].
    destruct IH as (Hp & Hr & He & Hl). split_and!; [by apply prefix_cons| |done|simpl; lia].
    intros Hst. destruct (Hr Hst) as (-> & results & evs' & -> & <- & ->). split; [done|].
    exists (res :: results), evs'. simpl. by rewrite <- !app_assoc.
  - destruct (Z.ltb_spec 0 timeout); simpl; (split_and!; [by exists ops|done| |simpl; lia]);
      [by intros code [= <-]|done].
Qed.

(** ** Addresses and connections *)

(** The last entry of a replica in the list of peers. *)
Definition lastPeer (i : N) (peers : list Config.Peer) : option Config.Peer :=
  last (filter (λ p, peerID p = i) peers).

Lemma lastPeer_snoc i peers p :
  lastPeer i (peers ++ [p]) = if decide (peerID p = i) then Some p else lastPeer i peers.
Proof.
  unfold lastPeer. rewrite filter_app. case_decide as Hp.
  - by rewrite filter_cons_True, filter_nil, last_snoc.
  - by rewrite filter_cons_False, filter_nil, app_nil_r.
Qed.

Lemma lastPeer_elem i peers p : lastPeer i peers = Some p → p ∈ peers ∧ peerID p = i.
Proof. intros H%last_Some_elem_of. apply list_elem_of_filter in H as [? ?]. done. Qed.

Lemma replicaAddrs_spec id peers :
  (replicaAddrs id peers).2 = default "" (peerAddr <$> lastPeer id peers) ∧
  ∀ i, (replicaAddrs id peers).1 !! i = if decide (i = id) then None else peerAddr <$> lastPeer i peers.
Proof.
  induction peers as [|p peers [IH1 IH2]] using rev_ind; [split; [done|]; intros i; by case_decide|].
  unfold replicaAddrs in *. rewrite foldl_snoc. destruct (foldl _ _ peers) as [addrs listen]. simpl in *.
  rewrite lastPeer_snoc. destruct (N.eqb_spec (peerID p) id) as [E|E].
  - rewrite decide_True by done. split; [done|]. intros i. simpl. rewrite IH2, lastPeer_snoc.
    destruct (decide (i = id)) as [->|Hi]; [done|]. by rewrite decide_False by congruence.
  - rewrite decide_False by done. split; [done|]. intros i. simpl. rewrite lastPeer_snoc.
    destruct (decide (peerID p = i)) as [<-|Hi]; [by rewrite lookup_insert_eq, decide_False|].
    by rewrite lookup_insert_ne, IH2.
Qed.

(** A replica that the configuration does not list is not told so: it listens on the
    empty address. *)
Lemma unlisted_replica_address id peers : lastPeer id peers = None → (replicaAddrs id peers).2 = "".
Proof. intros H. by rewrite (proj1 (replicaAddrs_spec id peers)), H. Qed.

Lemma clientAddrs_spec peers i : clientAddrs peers !! i = peerAddr <$> lastPeer i peers.
Proof.
  induction peers as [|p peers IH] using rev_ind; [done|].
  unfold clientAddrs in *. rewrite foldl_snoc, lastPeer_snoc.
  destruct (decide (peerID p = i)) as [<-|Hi]; [by rewrite lookup_insert_eq|]. by rewrite lookup_insert_ne.
Qed.

Section Starting.
Context {C : Type} `{!RangeOrder} (Dial : string → error + C).

(** When every address answers, every replica of the map is connected to its own. *)
Lemma connectAll_OK c addrs :
  (∀ i target, addrs !! i = Some target → ∃ conn, Dial target = inr conn) →
  ∃ c', connectAll Dial c addrs = OK c' ∧ Connector.c_side c' = Connector.c_side c ∧
    ∀ i, match addrs !! i with
         | Some target => ∃ conn, Dial target = inr conn ∧
             Connector.replicas c' !! i = Some (Connector.MkRpcReplica i conn)
         | None => Connector.replicas c' !! i = Connector.replicas c !! i
         end.
Proof.
  intros Hd. unfold connectAll. pose proof (Connector.connect_many_exact Dial addrs c) as Hc.
  destruct (Connector.ConnectManyReplicas Dial addrs c) as [[[]|e|p] c']; destruct Hc as (Hside & Hr & Ho); [| |done].
  - exists c'. split; [done|]. split; [done|]. intros i. destruct (addrs !! i) as [target|] eqn:E; [by apply Ho|].
    destruct (Hr i) as [->|(target & conn & ? & _)]; [done|congruence].
  - destruct Ho as (i & target & e' & Hi & He). destruct (Hd i target Hi) as [conn Hconn]. congruence.
Qed.

Lemma startPeerConnections_total id connects ids conns :
  (∀ p, p ∈ ids → p ≠ id → connects p = true) →
  ∃ conns', Node.startPeerConnections id connects ids conns = OK conns' ∧
    ∀ p, conns' !! p = if decide (p ∈ ids ∧ p ≠ id) then Some (Node.startPeerConnection p) else conns !! p.
Proof.
  revert conns. induction ids as [|q ids IH]; intros conns Hc; simpl.
  - by exists conns.
  - destruct (N.eqb_spec q id) as [->|Hq].
    + destruct (IH conns) as (conns' & -> & Hp); [set_solver|]. exists conns'. split; [done|]. intros p.
      rewrite Hp. by apply decide_ext; set_solver.
    + rewrite Hc by set_solver. destruct (IH (<[q := Node.startPeerConnection q]> conns)) as (conns' & -> & Hp); [set_solver|].
      exists conns'. split; [done|]. intros p. rewrite Hp. destruct (decide (p ∈ ids ∧ p ≠ id)) as [[? ?]|Hn].
      * rewrite decide_True; [done|]. set_solver.
      * destruct (decide (p = q)) as [->|Hpq]; [rewrite lookup_insert_eq, decide_True by set_solver; done|].
        rewrite lookup_insert_ne by done. rewrite decide_False; [done|]. set_solver.
Qed.

Lemma NewNode_total {Au Co : Type} id cfg connects (au : Au) (co : Co) :
  Quorum.notEnoughNodes (cfg_N cfg) (cfg_F cfg) = false →
  (∀ p, p < cfg_N cfg → p ≠ id → connects p = true) →
  ∃ nd, Node.NewNode id cfg connects au co = OK nd ∧
    ∀ p, Node.n_conns nd !! p = if decide (p < cfg_N cfg ∧ p ≠ id) then Some (Node.startPeerConnection p) else None.
Proof.
  intros Hn Hc. unfold Node.NewNode, Replica.New. rewrite Hn. cbn [mbind outcome_bind].
  assert (∀ p, p ∈ N.of_nat <$> seq 0 (N.to_nat (cfg_N cfg)) ↔ p < cfg_N cfg) as Hin.
  { intros p. rewrite list_elem_of_fmap. split; [intros (y & -> & [_ Hy]%elem_of_seq); lia|].
    intros Hp. exists (N.to_nat p). rewrite elem_of_seq. lia. }
  destruct (startPeerConnections_total id connects (N.of_nat <$> seq 0 (N.to_nat (cfg_N cfg))) ∅)
    as (conns & -> & Hp); [intros p Hp%Hin; by apply Hc|].
  eexists. split; [done|]. intros p. cbn [Node.n_conns]. rewrite Hp.
  destruct (decide (p < cfg_N cfg ∧ p ≠ id)) as [[Hl ?]|Hn']; [rewrite decide_True by (by rewrite Hin); done|].
  rewrite decide_False by (by rewrite Hin). apply lookup_empty.
Qed.
End Starting.

(** ** From generated keys to a running network *)

Section Testnet.
Context {V C Level File viper : Type} `{!Viper V} `{!RangeOrder}.
Context (envsubst : string → outcome string) (os_Create : string → outcome unit).
Context (ParseECPrivateKey : bytes → outcome (N * SgxUsig.PublicKey)) (ParsePKIX : bytes → outcome key).
Context (MarshalECPrivateKey : N * SgxUsig.PublicKey → outcome bytes) (MarshalPKIX : key → outcome bytes).
Context (ecdsa_GenerateKey : Curve → N → outcome (N * SgxUsig.PublicKey)).
Context (sgx_seal_data : sgx_ec256_public_t → bytes → sgx bytes).
Context (unseal_key : bytes → sgx (bytes * sgx_ec256_public_t)).
Context (yaml_Marshal : KeyStore.simpleKeyStoreFile → outcome bytes).
Context (yaml_Unmarshal : bytes → outcome KeyStore.simpleKeyStoreFile).
Context (ecdsa_pair : N → SgxUsig.PublicKey → Prop) (keypair : bytes → sgx_ec256_public_t → Prop).
Context (HL : KeyStore.key_laws ParseECPrivateKey ParsePKIX MarshalECPrivateKey MarshalPKIX ecdsa_GenerateKey
  sgx_seal_data unseal_key yaml_Marshal yaml_Unmarshal ecdsa_pair keypair).
Context (rEnvs uEnvs cEnvs : nat → KeyStore.keyEnv).
Context (ReadInConfig : bytes → bytes → list bytes → outcome viper).
Context (GetInt64 cfgDuration : viper → string → Z) (UnmarshalPeers : viper → outcome (list Config.Peer)).
Context (Dial : string → error + C).
Context (DEBUG : Level) (Stdout : File) (LogLevel : string → outcome Level) (OpenFile : string → outcome File).
Context (order : list AuthenticationRole) (Hroles : order ≡ₚ [ReplicaAuthen; USIGAuthen; ClientAuthen]).

(** The key file: [keytool generate] with settings [kv] and ECDSA keys has written the file
    that the peer with settings [v] reads. *)
Record key_file (kv v : V) (files : gmap string bytes) : Prop := {
  kf_written : ∃ files0, generateKeys envsubst os_Create MarshalECPrivateKey MarshalPKIX ecdsa_GenerateKey
    sgx_seal_data unseal_key yaml_Marshal rEnvs uEnvs cEnvs kv files0 = (OK tt, files);
  kf_name : GetString v "keys" = GetString kv "output";
  kf_replicas : GetString kv "replicas.keyspec" = SampleAuthen.keySpecEcdsa ∧ (GetInt kv "replicas.number" ≤ 2 ^ 32)%Z;
  kf_clients : GetString kv "clients.keyspec" = SampleAuthen.keySpecEcdsa ∧ (GetInt kv "clients.number" ≤ 2 ^ 32)%Z }.

(** The consensus configuration that [v] names: it can be read, has enough replicas, lists
    an address for each, and all addresses answer; the logger can be set up. *)
Record network (v : V) (peers : list Config.Peer) (cfg : Configer) : Prop := {
  nw_config : ∃ c, Config.LoadConfig ReadInConfig (str (GetString v "consensusConf")) Config.New = OK c ∧
    Config.Peers UnmarshalPeers c = OK peers ∧ Config.configerOf GetInt64 cfgDuration c = OK cfg;
  nw_enough : Quorum.notEnoughNodes (cfg_N cfg) (cfg_F cfg) = false;
  nw_listed : ∀ i, i < cfg_N cfg → is_Some (lastPeer i peers);
  nw_dial : ∀ p, p ∈ peers → ∃ conn, Dial (peerAddr p) = inr conn;
  nw_logging : isOK (getLoggingOptions LogLevel OpenFile v) = true }.

Lemma key_file_open kv v files :
  key_file kv v files →
  ∃ w usigFile, os_Open (GetString v "keys") files = OK w ∧
    KeyStore.GenerateTestnetKeys MarshalECPrivateKey MarshalPKIX ecdsa_GenerateKey sgx_seal_data unseal_key
      yaml_Marshal (keyOptions kv usigFile) rEnvs uEnvs cEnvs = OK w.
Proof.
  intros [(files0 & Hg) Hn _ _]. unfold generateKeys in Hg. rewrite Hn.
  destruct (envsubst _) as [usigFile| |]; simpl in Hg; try done.
  destruct (os_Create _); simpl in Hg; try done.
  destruct (KeyStore.GenerateTestnetKeys _ _ _ _ _ _ _ _ _ _) as [w| |] eqn:E; simplify_eq/=.
  exists w, usigFile. split; [|done]. unfold os_Open. by rewrite lookup_insert_eq.
Qed.

Lemma handler_connected (c : Connector.connector (Connector.rpcReplica C)) i r :
  Connector.replicas c !! i = Some r →
  Connector.ReplicaMessageStreamHandler i c = Connector.streamHandler (Connector.c_side c) r ∧ hasHandler c i = true.
Proof.
  intros E. unfold hasHandler, Connector.ReplicaMessageStreamHandler. rewrite E. split; [done|].
  apply bool_decide_true. simpl. by destruct (Connector.c_side c).
Qed.

(** C38: a replica of a generated test network starts.  When [keytool generate] has written
    the key file and the configuration lists the replicas, whose addresses answer, then the
    command [run] of each replica gets to serving: it listens on its own address in the
    list, has a connection to each of the other replicas, dialled to the address listed
    for that one and never to itself, and the replica's goroutines for exactly these peers
    are started. *)
Theorem testnet_replica_starts {Au} newAuthen kv v files peers cfg epoch generated i :
  key_file kv v files → network v peers cfg → isOK (envsubst (GetString v "usig.enclaveFile")) = true →
  GetInt v "replica.id" = Z.of_N i → i < cfg_N cfg → (Z.of_N i < GetInt kv "replicas.number")%Z →
  ∃ r : running (Au := Au),
    run envsubst ParseECPrivateKey ParsePKIX unseal_key yaml_Unmarshal ReadInConfig GetInt64 cfgDuration
      UnmarshalPeers Dial DEBUG Stdout LogLevel OpenFile order newAuthen (SGX_SUCCESS epoch) generated files v = OK r ∧
    run_id r = i ∧
    Some (run_listenAddr r) = peerAddr <$> lastPeer i peers ∧
    Connector.ReplicaMessageStreamHandler i (run_conn r) = None ∧
    ∀ j, Node.n_conns (run_replica r) !! j =
           (if decide (j < cfg_N cfg ∧ j ≠ i) then Some (Node.startPeerConnection j) else None) ∧
         (j < cfg_N cfg → j ≠ i → ∃ p conn, lastPeer j peers = Some p ∧ Dial (peerAddr p) = inr conn ∧
            Connector.ReplicaMessageStreamHandler j (run_conn r) =
              Some (Connector.peerStreamHandler (Connector.MkRpcReplica j conn))).
Proof.
  intros Hk [(c & Hc & Hp & Hcfg) Hen Hls Hd Hlog] Henv Hid Hi Hn.
  destruct (key_file_open _ _ _ Hk) as (w & usigFile & Ho & Hg). destruct Hk as [_ _ [Hrs Hrn] [Hcs Hcn]].
  assert (uint32_of_int (GetInt v "replica.id") = i) as Eid.
  { rewrite Hid. unfold uint32_of_int. rewrite Z.mod_small by lia. lia. }
  destruct (KeyStore.generated_replica _ _ _ _ _ _ _ _ _ _ _ HL _ _ _ _ _ epoch generated order i Hg Hrs Hcs Hrn Hcn Hn Hroles)
    as [auth Ha].
  destruct (replicaAddrs_spec i peers) as [Hlisten Haddr].
  destruct (connectAll_OK Dial Connector.NewReplicaSide (replicaAddrs i peers).1) as (conn & Hconn & Hside & Hreps).
  { intros j target. rewrite Haddr. case_decide; [done|]. intros (p & Ep & ->)%fmap_Some.
    apply Hd. by apply (lastPeer_elem j). }
  assert (∀ j, j < cfg_N cfg → j ≠ i → ∃ p cn, lastPeer j peers = Some p ∧ Dial (peerAddr p) = inr cn ∧
    Connector.replicas conn !! j = Some (Connector.MkRpcReplica j cn)) as Hj.
  { intros j Hj Hne. destruct (Hls j Hj) as [p Ep]. specialize (Hreps j).
    rewrite Haddr, decide_False, Ep in Hreps by done. destruct Hreps as (cn & ? & ?). eauto 10. }
  destruct (NewNode_total i cfg (hasHandler conn) (newAuthen auth) Ledger.NewSimpleLedger Hen) as (nd & Hnd & Hconns).
  { intros j Hjn Hne. destruct (Hj j Hjn Hne) as (p & cn & _ & _ & Er). by apply (handler_connected conn j _ Er). }
  destruct (getLoggingOptions LogLevel OpenFile v) as [opts| |] eqn:El; try done.
  destruct (envsubst _) as [f| |] eqn:Ef; try done.
  exists (MkRunning i conn (Logger.NewReplicaLogger DEBUG Stdout i opts) nd (replicaAddrs i peers).2). split_and!.
  - unfold run. rewrite Eid, Ef. cbn [wrapf mbind outcome_bind]. rewrite Ho. cbn [wrapf mbind outcome_bind].
    rewrite Ha. cbn [wrapf mbind outcome_bind]. rewrite Hc. cbn [mbind outcome_bind]. rewrite Hp.
    cbn [mbind outcome_bind]. destruct (replicaAddrs i peers) as [addrs listen]. cbn [fst snd] in *. rewrite Hconn.
    cbn [wrapf mbind outcome_bind]. rewrite El. cbn [wrapf mbind outcome_bind]. rewrite Hcfg.
    cbn [mbind outcome_bind]. rewrite Hnd. done.
  - done.
  - cbn [run_listenAddr]. rewrite Hlisten. destruct (Hls i Hi) as [p ->]. done.
  - cbn [run_conn]. unfold Connector.ReplicaMessageStreamHandler. specialize (Hreps i).
    rewrite Haddr, decide_True in Hreps by done. by rewrite Hreps.
  - intros j. split; [apply Hconns|]. intros Hjn Hne. destruct (Hj j Hjn Hne) as (p & cn & ? & ? & Er).
    exists p, cn. split_and!; [done|done|]. cbn [run_conn].
    rewrite (proj1 (handler_connected conn j _ Er)), Hside. done.
Qed.

Lemma NewClient_total {Au : Type} `{!Authenticator Au} f connect n now (au : Au) :
  Quorum.notEnoughNodes n f = false → (∀ i, i < n → connect i = true) →
  ∃ s, (ClientNode.NewClient f connect n now au).1 = OK s ∧
    ClientNode.n_outs s = replicate (N.to_nat n) ClientNode.newStream.
Proof.
  unfold Quorum.notEnoughNodes. intros Hn Hc.
  assert (u32_mul f 2 = u32_mul 2 f) as Ef by (unfold u32_mul; f_equal; lia).
  pose proof (ClientNode.client_new_exact f connect n now au) as Hx.
  destruct (ClientNode.NewClient f connect n now au) as [[s|e|p] s']; [| |done].
  - exists s. split; [done|]. apply Hx.
  - exfalso. rewrite Ef in Hx. destruct Hx as [[Hl _]|(i & Hi & Hf & _)]; [lia|]. by rewrite Hc in Hf.
Qed.

(** A client of a generated test network starts.  Under the same conditions the command
    [request] gets to submitting: it has a connection to every replica, dialled to the
    address listed for it, and the streams to all replicas are started. *)
Theorem testnet_client_starts {Au} `{!Authenticator Au} newAuthen kv v files peers cfg now i :
  key_file kv v files → network v peers cfg →
  GetInt v "client.id" = Z.of_N i → (Z.of_N i < GetInt kv "clients.number")%Z →
  ∃ r : requesting (Au := Au),
    requestsSetup ParseECPrivateKey ParsePKIX yaml_Unmarshal ReadInConfig GetInt64 UnmarshalPeers Dial DEBUG
      Stdout LogLevel OpenFile order newAuthen now files v = OK r ∧
    rq_id r = i ∧
    ClientNode.n_outs (rq_client r) = replicate (N.to_nat (cfg_N cfg)) ClientNode.newStream ∧
    ∀ j, j < cfg_N cfg → ∃ p conn, lastPeer j peers = Some p ∧ Dial (peerAddr p) = inr conn ∧
      Connector.ReplicaMessageStreamHandler j (rq_conn r) =
        Some (Connector.clientStreamHandler (Connector.MkRpcReplica j conn)).
Proof.
  intros Hk [(c & Hc & Hp & Hcfg) Hen Hls Hd Hlog] Hid Hn.
  destruct (key_file_open _ _ _ Hk) as (w & usigFile & Ho & Hg). destruct Hk as [_ _ [Hrs Hrn] [Hcs Hcn]].
  assert (uint32_of_int (GetInt v "client.id") = i) as Eid.
  { rewrite Hid. unfold uint32_of_int. rewrite Z.mod_small by lia. lia. }
  destruct (KeyStore.generated_client _ _ _ _ _ _ _ _ _ _ _ HL _ _ _ _ _ order i Hg Hrs Hcs Hrn Hcn Hn Hroles)
    as [auth Ha].
  destruct (connectAll_OK Dial Connector.NewClientSide (clientAddrs peers)) as (conn & Hconn & Hside & Hreps).
  { intros j target. rewrite clientAddrs_spec. intros (p & Ep & ->)%fmap_Some. apply Hd. by apply (lastPeer_elem j). }
  assert (∀ j, j < cfg_N cfg → ∃ p cn, lastPeer j peers = Some p ∧ Dial (peerAddr p) = inr cn ∧
    Connector.replicas conn !! j = Some (Connector.MkRpcReplica j cn)) as Hj.
  { intros j Hj. destruct (Hls j Hj) as [p Ep]. specialize (Hreps j).
    rewrite clientAddrs_spec, Ep in Hreps. destruct Hreps as (cn & ? & ?). eauto 10. }
  destruct (NewClient_total (cfg_F cfg) (hasHandler conn) (cfg_N cfg) now (newAuthen auth) Hen) as (nd & Hnd & Houts).
  { intros j Hjn. destruct (Hj j Hjn) as (p & cn & _ & _ & Er). by apply (handler_connected conn j _ Er). }
  destruct (getLoggingOptions LogLevel OpenFile v) as [opts| |] eqn:El; try done.
  apply outcome_bind_OK in Hcfg as (n & En & (f & Ef & Hcfg)%outcome_bind_OK).
  assert (cfg_N cfg = n ∧ cfg_F cfg = f) as [EN EF].
  { by repeat (apply outcome_bind_OK in Hcfg as (? & _ & Hcfg)); simplify_eq/=. }
  exists (MkRequesting i conn (Logger.NewClientLogger DEBUG Stdout i opts) nd). split_and!.
  - unfold requestsSetup. rewrite Eid, Ho. cbn [wrapf mbind outcome_bind]. rewrite Ha.
    cbn [wrapf mbind outcome_bind]. rewrite Hc. cbn [mbind outcome_bind]. rewrite El. cbn [wrapf mbind outcome_bind].
    rewrite Hp. cbn [mbind outcome_bind]. rewrite Hconn. cbn [mbind outcome_bind]. rewrite En.
    cbn [mbind outcome_bind]. rewrite Ef. cbn [mbind outcome_bind]. rewrite EN, EF in Hnd. by rewrite Hnd.
  - done.
  - done.
  - intros j Hjn. destruct (Hj j Hjn) as (p & cn & ? & ? & Er). exists p, cn. split_and!; [done|done|].
    cbn [rq_conn]. rewrite (proj1 (handler_connected conn j _ Er)), Hside. done.
Qed.
End Testnet.

(** ** Default settings *)

Local Ltac default_setting :=
  unfold peerInit, keytoolInit, bindAll; simpl;
  rewrite ?bind_string_ne, ?bind_int_ne by reflexivity; rewrite ?bound_string, ?bound_int by (by rewrite ?bind_unset, new_unset).

(** With nothing but defaults, the peer reads the key file that the keytool writes, and
    the keys have the specs that [key_file] asks for. *)
Lemma default_key_file {V} `{!Viper V} :
  GetString (peerInit : V) "keys" = GetString (keytoolInit : V) "output" ∧
  GetString (keytoolInit : V) "replicas.keyspec" = SampleAuthen.keySpecEcdsa ∧
  GetString (keytoolInit : V) "clients.keyspec" = SampleAuthen.keySpecEcdsa ∧
  GetInt (keytoolInit : V) "replicas.number" = 3%Z.
Proof. split_and!; default_setting; done. Qed.

(** ** A concrete network of two replicas and a client *)

(** Settings as maps: explicit settings, then defaults of flags. *)
Definition settings : Type := gmap string value * gmap string value.
Definition setting (v : settings) (k : string) : option value :=
  match v.1 !! k with Some x => Some x | None => v.2 !! k end.

#[local] Instance mapViper : Viper settings.
Proof.
  assert (∀ k k', otherKeys k k' = true → k ≠ k') as Hne.
  { intros k k' H ->. unfold otherKeys in H. rewrite (bool_decide_true (k' = k')) in H by done. by rewrite andb_false_r in H. }
  refine {| viper_New := (∅, ∅); BindPFlag k x v := (v.1, <[k := x]> v.2);
    viper_Set k x v := (<[k := x]> v.1, v.2);
    isSet v k := bool_decide (v.1 !! k ≠ None);
    GetInt v k := match setting v k with Some (VInt z) => z | _ => 0%Z end;
    GetString v k := match setting v k with Some (VString s) => s | _ => "" end;
    GetDuration v k := 0%Z |}; unfold setting; simpl.
  - done.
  - done.
  - intros k z v Hv%bool_decide_eq_false. destruct (v.1 !! k); [by destruct Hv|]. by rewrite lookup_insert_eq.
  - intros k z v Hv%bool_decide_eq_false. destruct (v.1 !! k); [by destruct Hv|]. by rewrite lookup_insert_eq.
  - intros k x v k' Hk%Hne. by rewrite lookup_insert_ne.
  - intros k x v k' Hk%Hne. by rewrite lookup_insert_ne.
  - intros k z v. by rewrite lookup_insert_eq.
  - intros k z v. by rewrite lookup_insert_eq.
  - intros k x v k' Hk%Hne. by rewrite lookup_insert_ne.
  - intros k x v k' Hk%Hne. by rewrite lookup_insert_ne.
Defined.

#[local] Existing Instance keyOrder.

Definition file2 : KeyStore.simpleKeyStoreFile :=
  KeyStore.MkKeyStoreFile (Some (KeyStore.exSet 2 SampleAuthen.keySpecEcdsa))
    (Some (KeyStore.exSet 2 SampleAuthen.keySpecSgxEcdsa)) (Some (KeyStore.exSet 1 SampleAuthen.keySpecEcdsa)).
Definition yaml2 (f : KeyStore.simpleKeyStoreFile) : outcome bytes :=
  if decide (f = file2) then OK [x59] else Error (Errorf "yaml").
Definition unYaml2 (b : bytes) : outcome KeyStore.simpleKeyStoreFile := OK file2.

Definition kv2 : settings := viper_Set "replicas.number" (VInt 2) keytoolInit.
Definition v2 : settings := viper_Set "replica.id" (VInt 1) peerInit.
Definition files2 : gmap string bytes := {["keys.yaml" := [x59]]}.
Definition read2 (name ext : bytes) (paths : list bytes) : outcome unit := OK tt.
Definition int2 (_ : unit) (k : string) : Z := if bool_decide (k = "protocol.n") then 2%Z else 0%Z.
Definition duration2 (_ : unit) (k : string) : Z := 0%Z.
Definition peers2 : list Config.Peer := [Config.MkPeer 0 (str "a:1"); Config.MkPeer 1 (str "b:2")].
Definition cfg2 : Configer := MkConfig 2 0 0 0 0.
Definition dial2 (target : string) : error + string := inr target.
Definition level2 (_ : string) : outcome unit := OK tt.

Lemma laws2 :
  KeyStore.key_laws KeyStore.exParseEC exampleUnPKIX KeyStore.exMarshalEC examplePKIX KeyStore.exGenerate
    KeyStore.exSeal KeyStore.exUnseal yaml2 unYaml2 (λ _ _, True) (λ _ _, True).
Proof.
  destruct KeyStore.ex_laws as [H1 H2 H3 H4 H5 _]. split; try done.
  intros f b. unfold yaml2. by destruct (decide (f = file2)) as [->|].
Qed.

Lemma key_file2 :
  key_file (V := settings) OK (λ _, OK tt) KeyStore.exMarshalEC examplePKIX KeyStore.exGenerate KeyStore.exSeal
    KeyStore.exUnseal yaml2 KeyStore.exEnvs KeyStore.exEnvs KeyStore.exEnvs kv2 v2 files2.
Proof.
  split; [exists ∅; vm_compute; reflexivity|vm_compute; reflexivity|split; [vm_compute; reflexivity|]..]; vm_compute; done.
Qed.

Lemma network2 : network (V := settings) read2 int2 duration2 (λ _, OK peers2) dial2 level2 level2 v2 peers2 cfg2.
Proof.
  split.
  - exists (Config.MkViperConfiger (Some tt)). vm_compute. done.
  - done.
  - intros i Hi. assert (i = 0 ∨ i = 1) as [-> | ->] by (simpl in Hi; lia); vm_compute; by eexists.
  - intros p _. by eexists.
  - done.
Qed.

Lemma testnet_replica_starts_witness :
  ∃ r, run OK KeyStore.exParseEC exampleUnPKIX KeyStore.exUnseal unYaml2 read2 int2 duration2 (λ _, OK peers2) dial2
      tt tt level2 level2 KeyStore.exOrder (λ _, tt) (SGX_SUCCESS 5) (SGX_ERROR 1) files2 v2 = OK r ∧
    run_listenAddr r = "b:2" ∧
    Connector.ReplicaMessageStreamHandler 0 (run_conn r) =
      Some (Connector.peerStreamHandler (Connector.MkRpcReplica 0 "a:1")).
Proof.
  destruct (testnet_replica_starts OK (λ _, OK tt) KeyStore.exParseEC exampleUnPKIX KeyStore.exMarshalEC examplePKIX
    KeyStore.exGenerate KeyStore.exSeal KeyStore.exUnseal yaml2 unYaml2 (λ _ _, True) (λ _ _, True) laws2
    KeyStore.exEnvs KeyStore.exEnvs KeyStore.exEnvs read2 int2 duration2 (λ _, OK peers2) dial2 tt tt level2 level2
    KeyStore.exOrder KeyStore.exOrder_ok (λ _, tt) kv2 v2 files2 peers2 cfg2 5 (SGX_ERROR 1) 1
    key_file2 network2) as (r & Hr & _ & Hl & _ & Hj); [vm_compute; reflexivity..|].
  assert (peerAddr <$> lastPeer 1 peers2 = Some "b:2") as E by (vm_compute; reflexivity).
  exists r. split; [exact Hr|]. split; [congruence|].
  destruct (Hj 0) as [_ H0]. destruct H0 as (p & conn & Hp & Hd & Hh); [reflexivity|discriminate|].
  vm_compute in Hp. injection Hp as <-. vm_compute in Hd. injection Hd as <-. exact Hh.
Defined.

End Commands.
